(* ===== verification/_CoqProject ===== *)
-Q . S2P
Prelude.v
Owns.v
Ptree.v
JsonRead.v
JsonSafe.v
JsonGrammar.v
JsonWrite.v
Logging.v
LogLock.v
Futures.v
SourceKitD.v
Ledger.v
Offset.v
SourceKit.v
Requests.v
Completer.v
Ownership.v
Shares.v
HttpMessage.v
HttpParser.v
HttpParserSafe.v
HttpParserReads.v
SyncRead.v
HttpParserBytes.v
HttpParserStream.v
HttpNames.v
HttpText.v
HttpReadBack.v
Endpoints.v
Replies.v
Protocol.v
Resources.v
Server.v
ServerLedger.v
Connection.v
Process.v
IoService.v
AsyncWrite.v
Main.v
FileBody.v
IntegrationTests.v
TestSuite.v
Driver.v
