(* ===== verification/Prelude.v ===== *)
(** * A verification development for SwiftySwiftVim

    SwiftySwiftVim is an HTTP server that answers an editor's requests for Swift
    completions and diagnostics by asking sourcekitd.  This development models
    the server's own code (src/*.cpp, src/*.hpp) and the parts of the vendored
    libraries its behaviour rests on: the property trees and the JSON reader and
    writer (src/vendor/boost/boost/property_tree), the HTTP messages and the HTTP
    parser (src/vendor/beast).

    ** How the program works

    [main] (HTTPServerMain.cpp) makes a [SemanticHTTPServer]
    (SemanticHTTPServer.hpp), which accepts connections; each becomes a [Session]
    (SemanticHTTPServer.cpp) that reads a request, looks its URL up in a table of
    five endpoints and puts the endpoint's function on a dispatch queue.  That
    block reads the request's body as JSON and asks a [SwiftCompleter]
    (SwiftCompleter.cpp), which builds requests for sourcekitd through a
    [SourceKitService]; diagnostics also wait on a [FutureChannel] for the value
    that a [NotificationReceiver] sets when sourcekitd calls back.  The answer is
    written to the session's socket, and the session reads again.

    ** The files

    - Prelude.v: failures and the [outcome] of fallible code; machine integers;
      characters and strings; threads as resumptions of atomic actions and waits
      ([thread]), their runs and interleavings; lemmas and tactics shared.
    - Owns.v: threads followed through their atoms with a share of what the process owns,
      whatever the other threads do in between ([owns]).
    - Ptree.v: property trees, dotted paths, [get], [put], [add_child], and the
      conversion of data to [int].
    - JsonRead.v: [read_json], the parser with its callbacks and encoding;
      JsonSafe.v: it always ends, with a tree or an exception; JsonGrammar.v: it
      accepts a declarative grammar and builds the tree the text stands for.
    - JsonWrite.v: [write_json] and the round trip through the reader.
    - Logging.v, Futures.v, Offset.v: [Logger], [FutureChannel], [GetOffset] and
      the completion context.  LogLock.v: [ioMutex], the loggers character by
      character, and that they implement Logging.v, which takes a line for one atom.
    - SourceKitD.v: the interface to sourcekitd.  Its answers are functions of the
      calls made so far (class [SourceKitD]); [account] replays a trace of calls on
      a ledger of objects and responses and has no result when one is used that is
      not owned.  [FreshHandles] states that handles returned are not in use;
      [counting_skd] is an instance.  The ledger
      also knows which request each response answers.  Ledger.v: what single calls do to a ledger.
    - SourceKit.v: [SourceKitService] and [NotificationReceiver], the code;
      Requests.v: what they send, answer and own.
    - Completer.v: [SwiftCompleter], and the race between a query for diagnostics
      and the notification it waits for.  Ownership.v: the ledger split into parts, one
      per thread, with its frame rule; what each operation does to the part of its thread,
      and what the text it returns describes, whatever the others call between two of its
      calls.  Shares.v: a part and the future awaited, and how all threads' shares add up.
    - HttpMessage.v: header fields, token lists, [prepare] and serialisation.
    - HttpParser.v: [basic_parser_v1], its state machine with one definition per arm
      of the switch of [write], [parser_v1] over [string_body], which it calls back,
      and [parse_op] and [read_op], which feed it from a socket ([async_read]).  A
      state monad over the buffer's positions, the error and the parser; the
      members with a width in bits wrap.
      HttpParserSafe.v: the invariant of a parser between two calls
      ([parser_live]), weakest preconditions of the arms, and that [write] keeps it
      without a failed assertion, an index out of an array or lack of fuel;
      HttpParserReads.v: so does a read of a message, which keeps the limits.
      SyncRead.v: the synchronous read of the test client, the same function.
      HttpParserBytes.v, HttpParserStream.v: [write] of a buffer against [write] of
      its bytes one at a time, the specification of what it does; a read does not
      depend on how its bytes are cut.
      HttpNames.v: the automaton over the names of fields; HttpText.v: what the
      lines of a header, their end and a body do to the parser, as functions of the
      text ([reads], [ends_with]); HttpReadBack.v: start lines, and the round trips
      of requests and responses through the writer, a socket and the parser
      ([delivered]).
    - Endpoints.v: the process's state [App] and its threads: sessions, endpoints,
      acceptor; Replies.v: what each handler's thread does, step by step.
    - Protocol.v: the abstract specification of a session, its phases and events:
      a request is read, answered, or its answer lost, before the next is read; what
      may answer a request ([answers]), with the replies to queries as a parameter (class
      [Replies]); the exchanges of a run.  Resources.v: the interface between the
      completer's threads and the server's (class [Resources]): what a thread holds, and
      that a query gives it back and returns a reply the protocol allows.
    - Server.v: the process as a labelled step relation ([lstep], with [exec_move]
      the same steps executable), whose labels are what peers see.  Its invariant
      [inv] accounts for every operation, block and thread that has something to do
      with a session, against the session's phase; it gives that an open session
      has exactly one thing under way and that the process implements Protocol.v.
      It is proved against [Resources]; with the instance that holds nothing, replies are
      what the completer's code can return.  ServerLedger.v: the instance of the shares of
      Shares.v; in every run the calls of all threads replay on the ledger, and replies are
      what sourcekitd said of what the query asks.
    - Connection.v: the process with the bytes its peers send: each session's buffer,
      its read under way and what the socket has not given.  The requests read are
      those the bytes say, in order, and are answered in order.
    - Process.v: how replies reach the peer and how they may not, what a malformed
      request does, when accepting stops; IoService.v: the process with its io_service,
      whose threads return when it has no work left, and the destructor; AsyncWrite.v: [asyncWrite] and [writeOp],
      which nothing calls, and that they would keep the message alive.
    - Main.v, FileBody.v, Driver.v: [main] up to its loop; the file body, also of a
      file that changes after it was opened; the test driver.
    - IntegrationTests.v: the bodies and requests of the tests' client, and an
      exchange of it with the server over the wire; TestSuite.v: the client's
      exchanges, the suite and its [main], which pass against any server that
      implements Protocol.v and so against runs of the process.

    ** How code corresponds to definitions

    A function of the code is a definition of the same name.  Code that can throw,
    assert or be undefined is an [outcome]; code that shares state with other
    threads is a [thread], whose atoms are what the code does under one lock, one
    call of a library or one access to shared state; a mutable object is a value
    in an explicit state.  Strings are lists of bytes.  An [int] or [unsigned] is
    a [Z] with its conversions written out ([u32], [s32], [u64]).

    ** Bounds

    The fuel of the JSON reader is the length of what is left of the input plus
    one, since each iteration of a loop and each nested value consumes a byte;
    [read_json_total] shows it never runs out.  [offset_loop] has the text's
    length plus one, [walk_path] the path's, [write_all] the file's, [token_list]
    the field's, decimal printing the number's bits: each iteration consumes.
    The loop of [write] has four times the buffer's length plus one: at most three
    arms run for a character before it is consumed, which the invariant of
    HttpParserSafe.v counts; the loops over a name and a value have what is left of
    the buffer plus one.  [async_read_total] shows that they never run out.

    ** What is not modelled

    sourcekitd (a header only), Boost.Asio, libdispatch and boost::program_options
    are outside: the sockets, the io_service's threads and the queues are the
    steps of Server.v, in any order; IoService.v adds when the io_service's threads run
    no completion any more.  A read of a message is given the results of
    the socket's reads; the dynamic buffer is one string, since a streambuf has its
    input in one block, and [write] of a sequence of several buffers, [set_option]
    and copies of a parser are not used by the program.  The round trips are for
    fields that do not frame the message; a chunked or folded message is parsed by
    the model and covered by the theorems on every input.  Allocation does not
    fail.  A session's read takes what its buffer holds in a step of its own, after
    the handler that starts it; nothing else touches the buffer in between.  The
    server's destructor (IoService.v) runs after [main] returns, which it does not.  [RunMainLoop]
    is libdispatch's and Boost.Asio's; the operating system calls of the test program
    (getcwd, files, sockets, system) are fields of a parameter, [Host]. *)

From Stdlib Require Export ZArith Ascii Lia.
From stdpp Require Export base tactics strings gmap numbers countable list.

(** ** Failures and results

    What a C++ computation of the program can end with besides a value. *)

(** The C++ exceptions the modelled code throws. *)
Inductive exception :=
| json_parser_error (msg : string) (line : Z)
| ptree_bad_path (msg path : string)
| ptree_bad_data (msg data : string)
| std_invalid_argument (msg : string)
| std_future_error (msg : string)
| std_length_error (msg : string)
| boost_bad_get
| system_error (what : string).

(** The ways a computation fails: an exception, a failed [assert] or
    [BOOST_ASSERT], undefined behaviour, and the model's own running out of
    fuel, which the theorems show never happens. *)
Inductive failure :=
| Exn (e : exception)
| AssertionFailed (msg : string)
| UndefinedBehavior (what : string)
| OutOfFuel.

Inductive outcome (A : Type) :=
| Ok (a : A)
| Fail (f : failure).
Arguments Ok {A} a.
Arguments Fail {A} f.

#[global] Instance exception_eq_dec : EqDecision exception.
Proof. solve_decision. Defined.
#[global] Instance failure_eq_dec : EqDecision failure.
Proof. solve_decision. Defined.

(** A state monad with failure: the parsers and the conversions. *)
Definition ST (S A : Type) : Type := S → outcome (A * S).

#[global] Instance st_ret S : MRet (ST S) := λ A a s, Ok (a, s).
#[global] Instance st_bind S : MBind (ST S) := λ A B k m s,
  match m s with
  | Ok (a, s') => k a s'
  | Fail f => Fail f
  end.
#[global] Instance outcome_ret : MRet outcome := @Ok.
#[global] Instance outcome_bind : MBind outcome := λ A B k m,
  match m with Ok a => k a | Fail f => Fail f end.

Definition st_throw {S A} (f : failure) : ST S A := λ _, Fail f.
Definition st_get {S} : ST S S := λ s, Ok (s, s).
Definition st_put {S} (s : S) : ST S unit := λ _, Ok (tt, s).
Definition st_modify {S} (g : S → S) : ST S unit := λ s, Ok (tt, g s).

(** ** Machine integers *)

(** Conversion to a 32-bit [unsigned] and to a 64-bit [size_t]. *)
Definition u32 (z : Z) : Z := z mod 2 ^ 32.
Definition u64 (z : Z) : Z := z mod 2 ^ 64.

(** The range of a 32-bit [int]. *)
Definition int_min : Z := - 2 ^ 31.
Definition int_max : Z := 2 ^ 31 - 1.

(** ** Characters and strings *)

(** The value of a [char] read as an [unsigned char]. *)
Definition code (c : ascii) : Z := Z.of_N (N_of_ascii c).
Definition chr (z : Z) : ascii := ascii_of_N (Z.to_N (z mod 256)).

Definition nul : ascii := "000"%char.
Definition tab : ascii := "009"%char.
Definition nl : ascii := "010"%char.
Definition cr : ascii := "013"%char.
Definition dquote : ascii := "034"%char.
Definition backslash : ascii := "092"%char.

(** The one-character string. *)
Definition str1 (c : ascii) : string := String c EmptyString.
Definition NL : string := str1 nl.
Definition CRLF : string := String cr (str1 nl).
Definition QUOTE : string := str1 dquote.

(** The length of a string as the [size_t] it is in the code. *)
Fixpoint strlenZ (s : string) : Z :=
  match s with
  | EmptyString => 0
  | String _ s => 1 + strlenZ s
  end.

(** [s[i]], [None] out of range. *)
Fixpoint char_at (s : string) (i : nat) : option ascii :=
  match s, i with
  | EmptyString, _ => None
  | String c _, 0%nat => Some c
  | String _ s, S i => char_at s i
  end.

(** [s.substr(0, n)]. *)
Fixpoint str_take (n : nat) (s : string) : string :=
  match n, s with
  | S n, String c s => String c (str_take n s)
  | _, _ => EmptyString
  end.

Fixpoint str_drop (n : nat) (s : string) : string :=
  match n, s with
  | S n, String _ s => str_drop n s
  | _, _ => s
  end.

(** What a callee that takes a [const char *] sees of [s.c_str()]. *)
Fixpoint c_str (s : string) : string :=
  match s with
  | EmptyString => EmptyString
  | String c s => if Ascii.eqb c nul then EmptyString else String c (c_str s)
  end.

Fixpoint str_forallb (p : ascii → bool) (s : string) : bool :=
  match s with
  | EmptyString => true
  | String c s => p c && str_forallb p s
  end.

Fixpoint str_repeat (n : nat) (c : ascii) : string :=
  match n with
  | O => EmptyString
  | S n => String c (str_repeat n c)
  end.

Fixpoint str_concat (l : list string) : string :=
  match l with
  | [] => EmptyString
  | s :: l => s +:+ str_concat l
  end.

(** [find_if] on a string, as the pair of what precedes the match and the rest. *)
Fixpoint str_span (p : ascii → bool) (s : string) : string * string :=
  match s with
  | EmptyString => (EmptyString, EmptyString)
  | String c s' => if p c then let '(a, b) := str_span p s' in (String c a, b)
                   else (EmptyString, s)
  end.

(** The C locale's [tolower] and [toupper] on one [char]. *)
Definition tolower (c : ascii) : ascii :=
  if (65 <=? code c)%Z && (code c <=? 90)%Z then chr (code c + 32) else c.
Definition toupper (c : ascii) : ascii :=
  if (97 <=? code c)%Z && (code c <=? 122)%Z then chr (code c - 32) else c.

Fixpoint str_map (f : ascii → ascii) (s : string) : string :=
  match s with
  | EmptyString => EmptyString
  | String c s => String (f c) (str_map f s)
  end.

Definition is_digit_char (c : ascii) : bool :=
  (48 <=? code c)%Z && (code c <=? 57)%Z.

(** The decimal digits of a nonnegative integer, most significant first:
    what [operator<<] and [std::to_string] print. *)
Fixpoint dec_digits (fuel : nat) (z : Z) : string :=
  match fuel with
  | O => EmptyString
  | S fuel =>
      (if (z <? 10)%Z then EmptyString else dec_digits fuel (z / 10)) +:+
      str1 (chr (48 + z mod 10))
  end.
Definition to_dec (z : Z) : string :=
  if (z <? 0)%Z then String "-" (dec_digits (S (Z.to_nat (Z.log2 (- z)))) (- z))
  else dec_digits (S (Z.to_nat (Z.log2 z))) z.

(** All 256 characters, to settle a decidable fact about every one of them. *)
Definition all_ascii : list ascii := map ascii_of_nat (seq 0 256).

(** ** Threads

    Effectful code is a resumption: a thread either ends, or performs one
    atomic action on the shared state [W], or waits until the state provides
    a value or a failure.  A section that holds a mutex throughout is one atom.  Everything between two actions is invisible to other threads,
    so the interleavings of the program are the interleavings of the atoms. *)
Inductive thread (W A : Type) : Type :=
| TRet (a : A)
| TFail (f : failure)
| TAtom (m : W → thread W A * W)
| TWait (ready : W → option (outcome string)) (k : string → thread W A).
Arguments TRet {W A} a.
Arguments TFail {W A} f.
Arguments TAtom {W A} m.
Arguments TWait {W A} ready k.

#[global] Instance thread_ret W : MRet (thread W) := λ A a, TRet a.

Fixpoint thread_bind_go {W A B} (k : A → thread W B) (t : thread W A)
    : thread W B :=
  match t with
  | TRet a => k a
  | TFail f => TFail f
  | TAtom m => TAtom (λ w, let '(t', w') := m w in (thread_bind_go k t', w'))
  | TWait ready k' => TWait ready (λ v, thread_bind_go k (k' v))
  end.
#[global] Instance thread_bind W : MBind (thread W) :=
  λ A B k t, thread_bind_go k t.

(** One indivisible action. *)
Definition atomic {W A} (f : W → A * W) : thread W A :=
  TAtom (λ w, let '(a, w') := f w in (TRet a, w')).
Definition modify {W} (g : W → W) : thread W unit := atomic (λ w, (tt, g w)).
Definition gets {W A} (g : W → A) : thread W A := atomic (λ w, (g w, w)).
(** Lift a pure computation that can fail. *)
Definition of_outcome {W A} (o : outcome A) : thread W A :=
  match o with Ok a => TRet a | Fail f => TFail f end.

(** A thread alone, run until it ends or cannot go on. *)
Inductive result (A : Type) :=
| Finished (a : A)
| Failed (f : failure)
| Blocked.
Arguments Finished {A} a.
Arguments Failed {A} f.
Arguments Blocked {A}.

Fixpoint run {W A} (t : thread W A) (w : W) : result A * W :=
  match t with
  | TRet a => (Finished a, w)
  | TFail f => (Failed f, w)
  | TAtom m => let '(t', w') := m w in run t' w'
  | TWait ready k =>
      match ready w with
      | Some (Ok v) => run (k v) w
      | Some (Fail f) => (Failed f, w)
      | None => (Blocked, w)
      end
  end.

(** The thread can end with [x], whatever the other threads do to the state between
    its atoms. *)
Fixpoint may_return {W A} (t : thread W A) (x : A) : Prop :=
  match t with
  | TRet a => a = x
  | TFail _ => False
  | TAtom m => ∃ w, may_return (m w).1 x
  | TWait ready k => ∃ w v, ready w = Some (Ok v) ∧ may_return (k v) x
  end.

(** One step of a thread, for the interleaving semantics. *)
Definition tstep {W A} (t : thread W A) (w : W) : option (thread W A * W) :=
  match t with
  | TRet _ | TFail _ => None
  | TAtom m => Some (m w)
  | TWait ready k =>
      (λ o, (match o with Ok v => k v | Fail f => TFail f end, w)) <$> ready w
  end.

(** A component's state inside a larger one. *)
Class Lens (W S : Type) := {
  view : W → S;
  update : S → W → W;
  view_update s w : view (update s w) = s;
  update_view w : update (view w) w = w;
  update_update s s' w : update s (update s' w) = update s w;
}.

(** Run a component's thread on the part of the state it owns. *)
Fixpoint zoom {W S A} `{!Lens W S} (t : thread S A) : thread W A :=
  match t with
  | TRet a => TRet a
  | TFail f => TFail f
  | TAtom m => TAtom (λ w, let '(t', s') := m (view w) in (zoom t', update s' w))
  | TWait ready k => TWait (λ w, ready (view w)) (λ v, zoom (k v))
  end.

(** The interleavings of several threads: any one of them takes a step. *)
Inductive pool_step {W A} : list (thread W A) * W → list (thread W A) * W → Prop :=
| PoolStep i ts t t' w w' :
    ts !! i = Some t → tstep t w = Some (t', w') →
    pool_step (ts, w) (<[i := t']> ts, w').

(** The reflexive transitive closure of a step relation. *)
Inductive star {A} (R : A → A → Prop) : A → A → Prop :=
| star_refl a : star R a a
| star_step a b c : R a b → star R b c → star R a c.

(** A property that every reachable state has. *)
Definition invariant {A} (init : A → Prop) (R : A → A → Prop) (I : A → Prop) : Prop :=
  (∀ a, init a → I a) ∧ (∀ a b, I a → R a b → I b).

(** ** Lemmas on strings *)

Lemma str_app_cons c s t : String c s +:+ t = String c (s +:+ t).
Proof. reflexivity. Qed.
Lemma str_app_nil_l s : EmptyString +:+ s = s.
Proof. reflexivity. Qed.
Lemma str_app_nil_r s : s +:+ EmptyString = s.
Proof. induction s as [|c s IH]; [done|]. by rewrite str_app_cons, IH. Qed.
Lemma str_app_assoc s t u : (s +:+ t) +:+ u = s +:+ (t +:+ u).
Proof. induction s as [|c s IH]; [done|]. by rewrite !str_app_cons, IH. Qed.
Lemma str1_app c s : str1 c +:+ s = String c s.
Proof. reflexivity. Qed.

Lemma strlenZ_nonneg s : (0 ≤ strlenZ s)%Z.
Proof. induction s; cbn; lia. Qed.
Lemma strlenZ_app s t : strlenZ (s +:+ t) = (strlenZ s + strlenZ t)%Z.
Proof.
  induction s as [|c s IH]; [done|]. rewrite str_app_cons. cbn [strlenZ]. lia.
Qed.
Lemma str_length_app s t :
  String.length (s +:+ t) = (String.length s + String.length t)%nat.
Proof.
  induction s as [|c s IH]; [done|]. rewrite str_app_cons. cbn. by rewrite IH.
Qed.
Lemma strlenZ_length s : strlenZ s = Z.of_nat (String.length s).
Proof. induction s as [|c s IH]; [done|]. cbn [strlenZ String.length]. lia. Qed.

Lemma char_at_is_Some s i : is_Some (char_at s i) ↔ (i < String.length s)%nat.
Proof.
  revert i; induction s as [|c s IH]; intros [|i]; cbn; split; try done.
  all: try (intros [? ?]; done); try lia; eauto.
  - intros [v Hv]. assert (i < String.length s)%nat by (apply IH; eauto). lia.
  - intros. apply IH. lia.
Qed.
Lemma char_at_None s i : char_at s i = None ↔ (String.length s ≤ i)%nat.
Proof.
  rewrite eq_None_not_Some, char_at_is_Some. lia.
Qed.

Lemma str_take_drop n s : str_take n s +:+ str_drop n s = s.
Proof.
  revert s; induction n as [|n IH]; intros [|c s]; try done.
  cbn [str_take str_drop]. by rewrite str_app_cons, IH.
Qed.
Lemma length_str_take n s :
  String.length (str_take n s) = Nat.min n (String.length s).
Proof. revert s; induction n; intros [|c s]; cbn; auto. Qed.
Lemma str_drop_char s i c :
  char_at s i = Some c → str_drop i s = String c (str_drop (S i) s).
Proof.
  revert i; induction s as [|d s IH]; intros [|i]; cbn; [done..| |apply IH].
  by intros [= ->].
Qed.
Lemma str_take_snoc s i c :
  char_at s i = Some c → str_take (S i) s = str_take i s +:+ str1 c.
Proof.
  revert i; induction s as [|d s IH]; intros [|i]; cbn; try done.
  - by intros [= ->].
  - intros E. rewrite str_app_cons. f_equal. by apply IH.
Qed.
Lemma length_str_drop n s : String.length (str_drop n s) = (String.length s - n)%nat.
Proof. revert n; induction s; intros [|n]; cbn; done || auto. Qed.
Lemma str_drop_app_le n s t :
  (n ≤ String.length s)%nat → str_drop n (s +:+ t) = str_drop n s +:+ t.
Proof.
  revert n; induction s as [|c s IH]; intros [|n]; cbn; intros H; try done; [lia|].
  rewrite str_app_cons. apply IH. lia.
Qed.
Lemma str_drop_app_ge n s t : str_drop (String.length s + n) (s +:+ t) = str_drop n t.
Proof. induction s as [|c s IH]; [done|]. by rewrite str_app_cons. Qed.
Lemma char_at_drop s i j : char_at (str_drop i s) j = char_at s (i + j).
Proof. revert i; induction s as [|d s IH]; intros [|i]; cbn; done || by rewrite IH. Qed.
Lemma str_take_length n s : (String.length s ≤ n)%nat → str_take n s = s.
Proof.
  revert s; induction n as [|n IH]; intros [|c s] H; cbn in *; try done; [lia|].
  by rewrite IH by lia.
Qed.

Lemma str_span_app p s a b : str_span p s = (a, b) → s = a +:+ b.
Proof.
  revert a b; induction s as [|c s IH]; cbn; intros a b H; [by simplify_eq|].
  destruct (p c); [|by simplify_eq].
  destruct (str_span p s) as [a' b'] eqn:E; simplify_eq.
  by rewrite str_app_cons, <- (IH a' b).
Qed.
Lemma str_forallb_span p s :
  str_forallb p s = true → str_span p s = (s, EmptyString).
Proof.
  induction s as [|c s IH]; cbn; [done|]. intros [-> H]%andb_prop.
  by rewrite IH.
Qed.

Lemma str_span_stop p s c t :
  str_forallb p s = true → p c = false →
  str_span p (s +:+ String c t) = (s, String c t).
Proof.
  induction s as [|d s IH].
  { intros _ Hc. rewrite str_app_nil_l. cbn. by rewrite Hc. }
  cbn. intros [Hd H]%andb_prop Hc. rewrite str_app_cons. cbn. by rewrite Hd, IH.
Qed.

Lemma str_forallb_app p s t :
  str_forallb p (s +:+ t) = str_forallb p s && str_forallb p t.
Proof.
  induction s as [|c s IH]; [done|].
  rewrite str_app_cons. cbn. by rewrite IH, andb_assoc.
Qed.

Lemma c_str_no_nul s :
  str_forallb (λ c, negb (Ascii.eqb c nul)) s = true → c_str s = s.
Proof.
  induction s as [|c s IH]; cbn; [done|].
  destruct (Ascii.eqb c nul); cbn; [done|]. intros H. by rewrite IH.
Qed.
Lemma c_str_prefix s : ∃ t, s = c_str s +:+ t.
Proof.
  induction s as [|c s [t IH]]; cbn; [by exists EmptyString|].
  destruct (Ascii.eqb c nul).
  - by exists (String c s).
  - exists t. by rewrite str_app_cons, <- IH.
Qed.

Lemma str_concat_app l l' : str_concat (l ++ l') = str_concat l +:+ str_concat l'.
Proof. induction l as [|s l IH]; [done|]. cbn. by rewrite IH, str_app_assoc. Qed.

(** A boolean property that holds of the 256 characters holds of each. *)
Lemma all_ascii_spec (p : ascii → bool) :
  forallb p all_ascii = true → ∀ c, p c = true.
Proof.
  intros H c. eapply (proj1 (forallb_forall p all_ascii)) in H; [exact H|].
  unfold all_ascii. apply in_map_iff. exists (nat_of_ascii c).
  split; [apply ascii_nat_embedding|]. apply in_seq.
  pose proof (nat_ascii_bounded c). lia.
Qed.
Ltac ascii_all p := exact (all_ascii_spec p (eq_refl true)).

Lemma code_bounds c : (0 ≤ code c < 256)%Z.
Proof.
  unfold code. pose proof (N_ascii_bounded c). lia.
Qed.
Lemma chr_code c : chr (code c) = c.
Proof.
  unfold chr. rewrite Z.mod_small by apply code_bounds.
  unfold code. by rewrite N2Z.id, ascii_N_embedding.
Qed.
Lemma code_chr z : (0 ≤ z < 256)%Z → code (chr z) = z.
Proof.
  intros H. unfold chr, code. rewrite Z.mod_small by lia.
  rewrite N_ascii_embedding by lia. lia.
Qed.
Lemma code_inj c d : code c = code d → c = d.
Proof. intros H. by rewrite <- (chr_code c), <- (chr_code d), H. Qed.

(** ** Lemmas on threads *)

Lemma thread_ind' W A (P : thread W A → Prop) :
  (∀ a, P (TRet a)) → (∀ f, P (TFail f)) →
  (∀ m, (∀ w, P (m w).1) → P (TAtom m)) →
  (∀ r k, (∀ v, P (k v)) → P (TWait r k)) → ∀ t, P t.
Proof.
  intros Hr Hf Ha Hw. fix go 1. intros [a|f|m|r k].
  - apply Hr.
  - apply Hf.
  - apply Ha. intros w. destruct (m w) as [t' w']. apply go.
  - apply Hw. intros v. apply go.
Qed.

Lemma run_bind {W A B} (t : thread W A) (k : A → thread W B) w :
  run (t ≫= k) w =
  match run t w with
  | (Finished a, w') => run (k a) w'
  | (Failed f, w') => (Failed f, w')
  | (Blocked, w') => (Blocked, w')
  end.
Proof.
  revert w. induction t as [a|f|m IH|r k' IH] using thread_ind'; intros w; try done.
  - cbn. specialize (IH w). destruct (m w) as [t' w']. cbn in *. apply IH.
  - cbn. destruct (r w) as [[v|f]|]; [|done..]. apply IH.
Qed.
Lemma run_ret {W A} (a : A) (w : W) : run (mret a) w = (Finished a, w).
Proof. reflexivity. Qed.
Lemma run_atomic {W A} (f : W → A * W) w :
  run (atomic f) w = (Finished (f w).1, (f w).2).
Proof. unfold atomic. cbn. by destruct (f w). Qed.
Lemma run_modify {W} (g : W → W) w : run (modify g) w = (Finished tt, g w).
Proof. reflexivity. Qed.
Lemma run_gets {W A} (g : W → A) w : run (gets g) w = (Finished (g w), w).
Proof. reflexivity. Qed.
Lemma run_of_outcome {W A} (o : outcome A) (w : W) :
  run (of_outcome o) w =
  (match o with Ok a => Finished a | Fail f => Failed f end, w).
Proof. by destruct o. Qed.

Lemma run_zoom {W S A} `{!Lens W S} (t : thread S A) (w : W) :
  run (zoom t) w = ((run t (view w)).1, update (run t (view w)).2 w).
Proof.
  revert w. induction t as [a|f|m IH|r k IH] using thread_ind'; intros w; cbn.
  - by rewrite update_view.
  - by rewrite update_view.
  - specialize (IH (view w)). destruct (m (view w)) as [t' s'] eqn:E; cbn in *.
    rewrite IH, view_update, update_update. reflexivity.
  - destruct (r (view w)) as [[v|f]|]; cbn; [apply IH|..]; by rewrite update_view.
Qed.

Lemma may_return_zoom {W S A} `{!Lens W S} (t : thread S A) (x : A) :
  may_return (zoom t : thread W A) x → may_return t x.
Proof.
  induction t as [a|f|m IH|r k IH] using thread_ind'; cbn; [done..| |].
  - intros [w Hw]. exists (view w). specialize (IH (view w)).
    destruct (m (view w)). by apply IH.
  - intros (w & v & Hr & Hk). exists (view w), v. auto.
Qed.

Lemma star_one {A} (R : A → A → Prop) a b : R a b → star R a b.
Proof. eauto using @star_step, @star_refl. Qed.
Lemma star_trans {A} (R : A → A → Prop) a b c :
  star R a b → star R b c → star R a c.
Proof. induction 1; eauto using @star_step. Qed.
Lemma invariant_star {A} (init : A → Prop) R I a b :
  invariant init R I → I a → star R a b → I b.
Proof. intros [_ HI]. induction 2; eauto. Qed.
Lemma invariant_reachable {A} (init : A → Prop) R I a b :
  invariant init R I → init a → star R a b → I b.
Proof. intros HI Ha. eapply invariant_star; [done|]. by apply HI. Qed.

(** A thread that is run alone takes its steps in the pool. *)
Lemma pool_run {W A B} (t : thread W B) (k : B → thread W A) ts i b w w' :
  ts !! i = Some (t ≫= k) → run t w = (Finished b, w') →
  star pool_step (ts, w) (<[i := k b]> ts, w').
Proof.
  revert ts w. induction t as [a|f|m IH|r k' IH] using thread_ind'; intros ts w Hi E; cbn in E.
  - simplify_eq. rewrite list_insert_id by exact Hi. apply star_refl.
  - done.
  - specialize (IH w). destruct (m w) as [t1 w1] eqn:Em. cbn in IH.
    eapply star_step; [eapply (PoolStep i _ _ (t1 ≫= k)); [exact Hi|cbn; by rewrite Em]|].
    assert (i < length ts) as L by (by eapply lookup_lt_Some).
    specialize (IH (<[i:=t1 ≫= k]> ts) w1). rewrite list_insert_insert_eq in IH.
    apply IH; [by apply list_lookup_insert_eq|exact E].
  - destruct (r w) as [[v|f]|] eqn:Er; [|done..].
    eapply star_step; [eapply (PoolStep i _ _ (k' v ≫= k)); [exact Hi|cbn; by rewrite Er]|].
    assert (i < length ts) as L by (by eapply lookup_lt_Some).
    specialize (IH v (<[i:=k' v ≫= k]> ts) w). rewrite list_insert_insert_eq in IH.
    apply IH; [by apply list_lookup_insert_eq|exact E].
Qed.

(** ** Automation *)

Create HintDb cpp.
Create HintDb thread.
Create HintDb str.
#[export] Hint Rewrite @run_bind @run_ret @run_atomic @run_modify @run_gets
  @run_of_outcome : thread.
#[export] Hint Rewrite str_app_nil_r str_app_assoc strlenZ_app str_concat_app : str.
#[export] Hint Resolve strlenZ_nonneg code_bounds : cpp.

(** Normalise a run of a thread to the runs of its parts. *)
Ltac run_simpl := repeat (progress (autorewrite with thread; cbn)).
(** Unfold one layer of the failing state monad. *)
Ltac st_unfold :=
  unfold mbind, mret, st_bind, st_ret, st_throw, st_get, st_put, st_modify in *.
