(* ===== verification/Owns.v ===== *)
(** * Threads that hold a share of what the process owns

    Threads interleave at their atoms.  What a thread can count on between two of
    them is its share: no other thread touches it.  [owns] follows a thread through
    its atoms, its share with it, whatever the others do in between, to the value it
    returns.  Ownership.v's shares are parts of the ledger of sourcekitd's objects;
    Resources.v's are any that the process's threads may hold. *)

From S2P Require Import Prelude.

(** [acts g w w' P]: with the share [g] the state may go from [w] to [w'], and the share is
    one of [P] then.  [holds g w]: what the share says of the state.  [stalls g ready]: with
    [g] a thread may wait until [ready] gives a value. *)
Record rules (W G : Type) := {
  acts : G → W → W → (G → Prop) → Prop;
  holds : G → W → Prop;
  stalls : G → (W → option (outcome string)) → Prop;
}.
Arguments acts {W G} r g w w' P.
Arguments holds {W G} r g w.
Arguments stalls {W G} r g ready.

(** What an atom gives may be weakened. *)
Class Monotone {W G} (r : rules W G) : Prop :=
  acts_mono : ∀ g w w' (P R : G → Prop),
    acts r g w w' P → (∀ g', P g' → R g') → acts r g w w' R.

(** A thread that waits for nothing. *)
Fixpoint waitless {W A} (t : thread W A) : Prop :=
  match t with
  | TRet _ | TFail _ => True
  | TAtom m => ∀ w, waitless (m w).1
  | TWait _ _ => False
  end.
Lemma waitless_bind {W A B} (t : thread W A) (k : A → thread W B) :
  waitless t → (∀ x, waitless (k x)) → waitless (t ≫= k).
Proof.
  intros Ht Hk. induction t as [a|f|m IH|r k' IH] using thread_ind'; cbn in *; [done..| |done].
  intros w. specialize (Ht w). specialize (IH w). destruct (m w) as [t' w']. by apply IH.
Qed.
Lemma waitless_zoom {W S A} `{!Lens W S} (t : thread S A) :
  waitless t → waitless (zoom t : thread W A).
Proof.
  induction t as [a|f|m IH|r k IH] using thread_ind'; cbn in *; [done..| |done].
  intros Ht w. specialize (Ht (view w)). specialize (IH (view w)).
  destruct (m (view w)) as [t' s']. by apply IH.
Qed.
Lemma waitless_outcome {W A} (o : outcome A) : waitless (of_outcome o : thread W A).
Proof. by destruct o. Qed.

Section Owns.
Context {W G : Type} (r : rules W G).

Fixpoint owns {A} (Q : A → G → Prop) (t : thread W A) (g : G) : Prop :=
  match t with
  | TRet a => Q a g
  | TFail _ => True
  | TAtom m => ∀ w, holds r g w →
      let '(t', w') := m w in acts r g w w' (λ g', owns Q t' g')
  | TWait ready k =>
      stalls r g ready ∧ ∀ w v, holds r g w → ready w = Some (Ok v) → owns Q (k v) g
  end.

Lemma owns_bind `{!Monotone r} {A B} (Q : A → G → Prop) (R : B → G → Prop) (t : thread W A)
    (k : A → thread W B) g :
  owns Q t g → (∀ a g', Q a g' → owns R (k a) g') → owns R (t ≫= k) g.
Proof.
  intros Ht Hk. revert g Ht.
  induction t as [a|f|m IH|rd k' IH] using thread_ind'; intros g Ht; cbn in *; [by apply Hk|done|..].
  - intros w Hw. specialize (Ht w Hw). specialize (IH w). destruct (m w) as [t' w'].
    eapply acts_mono; [exact Ht|]. apply IH.
  - destruct Ht as [Hs Ht]. split; [done|]. intros w v Hw Hv.
    eapply IH, Ht; [exact Hw|exact Hv].
Qed.
Lemma owns_mono `{!Monotone r} {A} (Q R : A → G → Prop) (t : thread W A) g :
  owns Q t g → (∀ a g', Q a g' → R a g') → owns R t g.
Proof.
  intros Ht HR. revert g Ht.
  induction t as [a|f|m IH|rd k' IH] using thread_ind'; intros g Ht; cbn in *; [by apply HR|done|..].
  - intros w Hw. specialize (Ht w Hw). specialize (IH w). destruct (m w) as [t' w'].
    eapply acts_mono; [exact Ht|]. apply IH.
  - destruct Ht as [Hs Ht]. split; [done|]. intros w v Hw Hv.
    eapply IH, Ht; [exact Hw|exact Hv].
Qed.
Lemma owns_outcome {A} (Q : A → G → Prop) (o : outcome A) g :
  (∀ a, o = Ok a → Q a g) → owns Q (of_outcome o) g.
Proof. destruct o as [a|f]; cbn; [|done]. intros HQ. by apply HQ. Qed.

(** A thread on a part of the state that has nothing to do with the shares. *)
Lemma owns_apart {S A} `{!Lens W S} (t : thread S A) g :
  waitless t → (∀ g w s (P : G → Prop), P g → acts r g w (update s w) P) →
  owns (λ _ g', g' = g) (zoom t) g.
Proof.
  intros Hl Hs. revert Hl.
  induction t as [a|f|m IH|rd k IH] using thread_ind'; cbn; [done..| |done].
  intros Hl w _. specialize (IH (view w)). specialize (Hl (view w)).
  destruct (m (view w)) as [t' s']. apply Hs. by apply IH.
Qed.
End Owns.

(** A thread of a component, whose shares are [to] shares of the larger state. *)
Record embeds {W S G G'} (put : W → S → W) (get : W → S) (r : rules W G) (r' : rules S G')
    (to : G' → G) : Prop := {
  em_holds g w : holds r (to g) w → holds r' g (get w);
  em_acts g w s P : acts r' g (get w) s P → acts r (to g) w (put w s) (λ x, ∃ g', x = to g' ∧ P g');
  em_stalls g ready : stalls r' g ready → stalls r (to g) (λ w, ready (get w));
}.
Lemma owns_zoom {W S G G' A} `{!Lens W S} (r : rules W G) `{!Monotone r} (r' : rules S G')
    (to : G' → G) (Q : A → G' → Prop) (t : thread S A) g :
  embeds (λ w s, update s w) view r r' to →
  owns r' Q t g → owns r (λ a x, ∃ g', x = to g' ∧ Q a g') (zoom t) (to g).
Proof.
  intros He. revert g.
  induction t as [a|f|m IH|rd k IH] using thread_ind'; intros g Ht; cbn in *; [by exists g|done|..].
  - intros w Hw. specialize (Ht (view w) (em_holds _ _ _ _ _ He _ _ Hw)). specialize (IH (view w)).
    destruct (m (view w)) as [t' s']. eapply acts_mono; [by apply (em_acts _ _ _ _ _ He)|].
    intros x (g' & -> & Hg). by apply IH.
  - destruct Ht as [Hs Ht]. split; [by apply (em_stalls _ _ _ _ _ He)|]. intros w v Hw Hv.
    by eapply IH, Ht; [apply (em_holds _ _ _ _ _ He)|].
Qed.
(** The same thread with shares that say more. *)
Lemma owns_lift {W G G' A} (r : rules W G) `{!Monotone r} (r' : rules W G')
    (to : G' → G) (Q : A → G' → Prop) (t : thread W A) g :
  embeds (λ _ w', w') id r r' to →
  owns r' Q t g → owns r (λ a x, ∃ g', x = to g' ∧ Q a g') t (to g).
Proof.
  intros He. revert g.
  induction t as [a|f|m IH|rd k IH] using thread_ind'; intros g Ht; cbn in *; [by exists g|done|..].
  - intros w Hw. specialize (Ht w (em_holds _ _ _ _ _ He _ _ Hw)). specialize (IH w).
    destruct (m w) as [t' w']. eapply acts_mono; [by apply (em_acts _ _ _ _ _ He _ w w')|].
    intros x (g' & -> & Hg). by apply IH.
  - destruct Ht as [Hs Ht]. split; [by apply (em_stalls _ _ _ _ _ He)|]. intros w v Hw Hv.
    by eapply IH, Ht; [apply (em_holds _ _ _ _ _ He)|].
Qed.

(** With nothing to hold, a thread returns what it may return. *)
Definition no_rules (W : Type) : rules W unit :=
  {| acts _ _ _ P := P tt; holds _ _ := True; stalls _ _ := True |}.
Lemma owns_nothing {W A} (Q : A → unit → Prop) (t : thread W A) :
  (∀ x, may_return t x → Q x tt) → owns (no_rules W) Q t tt.
Proof.
  induction t as [a|f|m IH|rd k IH] using thread_ind'; cbn; intros HQ; [by apply HQ|done|..].
  - intros w _. specialize (IH w). destruct (m w) as [t' w'] eqn:E. apply IH. intros x Hx.
    apply HQ. exists w. by rewrite E.
  - split; [done|]. intros w v _ Hv. apply IH. intros x Hx. apply HQ. by exists w, v.
Qed.

Ltac owns_step := eapply owns_bind; [apply _|..].
Ltac owns_weaken := eapply owns_mono; [apply _|..].
