(* ===== verification/Ptree.v ===== *)
(** * Property trees: boost::property_tree

    The tree the endpoints read a request body into ([basic_ptree] at
    [std::string] keys and data, src/vendor/boost/boost/property_tree/), its
    dotted paths ([string_path]) and the conversion of data to [int]
    ([stream_translator]).  A C++ reference or pointer to a node of a tree is a
    [node_ref]: the indices of the children on the way to it. *)

From S2P Require Import Prelude.

Local Open Scope Z_scope.

(** ** Data *)

(** A node: its data and its children in insertion order (the sequenced index
    of the container). *)
Inductive ptree := Node (data : string) (children : list (string * ptree)).

Definition ptree_new : ptree := Node EmptyString [].
Definition ptree_data (t : ptree) : string := let 'Node d _ := t in d.
Definition ptree_children (t : ptree) : list (string * ptree) :=
  let 'Node _ cs := t in cs.

Definition ptree_size (t : ptree) : nat := length (ptree_children t).
Definition ptree_empty (t : ptree) : bool :=
  match ptree_children t with [] => true | _ => false end.
Definition ptree_push_back (kv : string * ptree) (t : ptree) : ptree :=
  let 'Node d cs := t in Node d (cs ++ [kv]).

(** [count(key)]: the children with that key. *)
Definition ptree_count (key : string) (t : ptree) : nat :=
  length (List.filter (λ kv, String.eqb kv.1 key) (ptree_children t)).

(** [find(key)]: the by-name index is ordered and keeps equal keys in insertion
    order, so it is the first child with the key; its index in the sequence. *)
Fixpoint find_index (key : string) (cs : list (string * ptree)) : option nat :=
  match cs with
  | [] => None
  | (k, _) :: cs => if String.eqb k key then Some 0%nat else S <$> find_index key cs
  end.
Definition ptree_find (key : string) (t : ptree) : option nat :=
  find_index key (ptree_children t).

(** ** References *)

Definition node_ref := list nat.

Fixpoint ref_get (r : node_ref) (t : ptree) : option ptree :=
  match r with
  | [] => Some t
  | i :: r => match ptree_children t !! i with
              | Some (_, c) => ref_get r c
              | None => None
              end
  end.

(** Apply [f] to the node a reference denotes. *)
Fixpoint ref_alter (f : ptree → ptree) (r : node_ref) (t : ptree) : ptree :=
  match r with
  | [] => f t
  | i :: r => let 'Node d cs := t in
              Node d (alter (λ kc, (kc.1, ref_alter f r kc.2)) i cs)
  end.

Definition set_data (d : string) (t : ptree) : ptree :=
  Node d (ptree_children t).

(** ** Paths: string_path with the separator '.' *)

(** What is left of the path: the characters from [m_start] on. *)
Record string_path := { path_value : string; path_rest : string }.
Definition to_path (s : string) : string_path :=
  {| path_value := s; path_rest := s |}.

Definition path_empty (p : string_path) : bool :=
  match path_rest p with EmptyString => true | _ => false end.

Definition is_sep (c : ascii) : bool := Ascii.eqb c ".".

(** Take one element off the front; the separator found is skipped. *)
Definition reduce (p : string_path) : outcome (string * string_path) :=
  if path_empty p then Fail (AssertionFailed "Reducing empty path") else
  let '(part, rest) := str_span (λ c, negb (is_sep c)) (path_rest p) in
  let rest := match rest with EmptyString => EmptyString | String _ r => r end in
  Ok (part, {| path_value := path_value p; path_rest := rest |}).

(** No separator in what is left. *)
Definition single (p : string_path) : bool :=
  str_forallb (λ c, negb (is_sep c)) (path_rest p).

Fixpoint walk_path (fuel : nat) (t : ptree) (p : string_path)
    : outcome (option node_ref) :=
  match fuel with
  | O => Fail OutOfFuel
  | S fuel =>
      if path_empty p then Ok (Some []) else
      '(fragment, p) ← reduce p;
      match ptree_find fragment t with
      | None => Ok None
      | Some i =>
          match ptree_children t !! i with
          | None => Ok None
          | Some (_, c) =>
              r ← walk_path fuel c p; Ok (cons i <$> r)
          end
      end
  end.

(** The parent the path asks for, created on the way where it is missing: the
    tree with the new nodes, the parent and the path's last element. *)
Fixpoint force_path (fuel : nat) (t : ptree) (p : string_path)
    : outcome (ptree * node_ref * string_path) :=
  match fuel with
  | O => Fail OutOfFuel
  | S fuel =>
      if path_empty p
      then Fail (AssertionFailed "Empty path not allowed for put_child.") else
      if single p then Ok (t, [], p) else
      '(fragment, p) ← reduce p;
      let '(t, i) := match ptree_find fragment t with
                     | None => (ptree_push_back (fragment, ptree_new) t, ptree_size t)
                     | Some i => (t, i)
                     end in
      match ptree_children t !! i with
      | None => Fail (UndefinedBehavior "force_path: dangling child")
      | Some (_, c) =>
          '(c', r, p) ← force_path fuel c p;
          Ok (ref_alter (λ _, c') [i] t, i :: r, p)
      end
  end.

Definition path_fuel (p : string) : nat := S (String.length p).

Definition get_child_optional (path : string) (t : ptree) : outcome (option node_ref) :=
  walk_path (path_fuel path) t (to_path path).

Definition get_child (path : string) (t : ptree) : outcome ptree :=
  r ← get_child_optional path t;
  match r ≫= λ r, ref_get r t with
  | Some n => Ok n
  | None => Fail (Exn (ptree_bad_path "No such node" path))
  end.

(** [put_child]: replace the child the path names, or append it. *)
Definition put_child (path : string) (value : ptree) (t : ptree)
    : outcome (ptree * node_ref) :=
  '(t, parent, p) ← force_path (path_fuel path) t (to_path path);
  '(fragment, _) ← reduce p;
  match ref_get parent t with
  | None => Fail (UndefinedBehavior "put_child: dangling parent")
  | Some n =>
      match ptree_find fragment n with
      | Some i => Ok (ref_alter (λ _, value) (parent ++ [i]) t, parent ++ [i])
      | None => Ok (ref_alter (ptree_push_back (fragment, value)) parent t,
                    parent ++ [ptree_size n])
      end
  end.

(** [add_child]: append, even when a child of that name exists. *)
Definition add_child (path : string) (value : ptree) (t : ptree)
    : outcome (ptree * node_ref) :=
  '(t, parent, p) ← force_path (path_fuel path) t (to_path path);
  '(fragment, _) ← reduce p;
  match ref_get parent t with
  | None => Fail (UndefinedBehavior "add_child: dangling parent")
  | Some n => Ok (ref_alter (ptree_push_back (fragment, value)) parent t,
                  parent ++ [ptree_size n])
  end.

(** ** Values *)

(** A type the tree's data converts to and from: the translator between it and
    [std::string]. *)
Class Translator (T : Type) := {
  type_name : string;
  tr_get_value : string → option T;
  tr_put_value : T → option string;
}.

(** [id_translator]. *)
#[export] Instance string_translator : Translator string := {|
  type_name := "NSt3__112basic_stringIcNS_11char_traitsIcEENS_9allocatorIcEEEE";
  tr_get_value s := Some s;
  tr_put_value s := Some s;
|}.

(** The C locale's [isspace]. *)
Definition is_space (c : ascii) : bool :=
  (code c =? 32) || ((9 <=? code c) && (code c <=? 13)).

Fixpoint digits_value (acc : Z) (s : string) : Z :=
  match s with
  | EmptyString => acc
  | String c s => digits_value (10 * acc + (code c - 48)) s
  end.

(** [iss >> e] for an [int] in the C locale: skip white space, an optional sign,
    the longest run of digits; fails on no digit and on a value out of range.
    The result is the value and what is left of the stream. *)
Definition extract_int (s : string) : option (Z * string) :=
  let '(_, s) := str_span is_space s in
  let '(neg, s) := match s with
                   | String "-" s => (true, s)
                   | String "+" s => (false, s)
                   | _ => (false, s)
                   end in
  let '(ds, rest) := str_span is_digit_char s in
  match ds with
  | EmptyString => None
  | _ =>
      let v := if neg : bool then - digits_value 0 ds else digits_value 0 ds in
      if (int_min <=? v) && (v <=? int_max) then Some (v, rest) else None
  end.

(** [stream_translator::get_value]: extract, then nothing but white space may be
    left ([>> std::ws] and the test that [get()] is at the end). *)
Definition stream_get_int (v : string) : option Z :=
  '(e, rest) ← extract_int v;
  match (str_span is_space rest).2 with
  | EmptyString => Some e
  | _ => None
  end.

#[export] Instance int_translator : Translator Z := {|
  type_name := "i";
  tr_get_value := stream_get_int;
  tr_put_value z := Some (to_dec z);
|}.

Definition get_value T `{!Translator T} (t : ptree) : outcome T :=
  match tr_get_value (ptree_data t) with
  | Some v => Ok v
  | None => Fail (Exn (ptree_bad_data
      ("conversion of data to type " +:+ QUOTE +:+ type_name +:+ QUOTE +:+ " failed")
      (ptree_data t)))
  end.

Definition get T `{!Translator T} (path : string) (t : ptree) : outcome T :=
  n ← get_child path t; get_value T n.

Definition put_value {T} `{!Translator T} (value : T) (t : ptree) : outcome ptree :=
  match tr_put_value value with
  | Some d => Ok (set_data d t)
  | None => Fail (Exn (ptree_bad_data
      ("conversion of type " +:+ QUOTE +:+ type_name +:+ QUOTE +:+ " to data failed")
      EmptyString))
  end.

(** [put]: set the data of the child the path names, appending it if there is
    none. *)
Definition put {T} `{!Translator T} (path : string) (value : T) (t : ptree)
    : outcome ptree :=
  c ← get_child_optional path t;
  '(t, r) ← match c with
            | Some r => Ok (t, r)
            | None => put_child path ptree_new t
            end;
  match ref_get r t with
  | None => Fail (UndefinedBehavior "put: dangling child")
  | Some n => n' ← put_value value n; Ok (ref_alter (λ _, n') r t)
  end.

(** ** Lemmas *)

Lemma ptree_ind' (P : ptree → Prop) :
  (∀ d cs, Forall (λ kc, P kc.2) cs → P (Node d cs)) → ∀ t, P t.
Proof.
  intros H. fix go 1. intros [d cs]. apply H.
  induction cs as [|[k c] cs IH]; constructor; [apply go|exact IH].
Qed.

Lemma ref_get_app r r' t n :
  ref_get r t = Some n → ref_get (r ++ r') t = ref_get r' n.
Proof.
  revert t; induction r as [|i r IH]; intros t H; cbn in *; [by simplify_eq|].
  destruct (ptree_children t !! i) as [[k c]|]; [|done]. by apply IH.
Qed.

Lemma list_alter_ext_at {A} (f g : A → A) (l : list A) i :
  (∀ x, l !! i = Some x → f x = g x) → alter f i l = alter g i l.
Proof.
  revert i; induction l as [|x l IH]; intros [|i] H; cbn in *; try done.
  - by rewrite (H x).
  - f_equal. by apply IH.
Qed.

(** Altering twice through one reference. *)
Lemma ref_alter_compose f g r t :
  ref_alter f r (ref_alter g r t) = ref_alter (f ∘ g) r t.
Proof.
  revert t; induction r as [|i r IH]; intros [d cs]; cbn; [done|].
  f_equal. rewrite list_alter_alter_eq. apply list_alter_ext_at.
  intros [k c] _. cbn. by rewrite IH.
Qed.

Lemma ref_alter_ext f g r t n :
  ref_get r t = Some n → f n = g n → ref_alter f r t = ref_alter g r t.
Proof.
  revert t; induction r as [|i r IH]; intros [d cs] H E; cbn in *; [by simplify_eq|].
  f_equal. apply list_alter_ext_at. intros [k c] Hc. cbn.
  rewrite Hc in H. by rewrite (IH c H E).
Qed.

Lemma ref_get_alter f r t n :
  ref_get r t = Some n → ref_get r (ref_alter f r t) = Some (f n).
Proof.
  revert t; induction r as [|i r IH]; intros [d cs] H; cbn in *; [by simplify_eq|].
  rewrite list_lookup_alter_eq.
  destruct (cs !! i) as [[k c]|]; [|done]. cbn. by apply IH.
Qed.

Lemma alter_push_back {A} (f : A → A) (l : list A) x :
  alter f (length l) (l ++ [x]) = l ++ [f x].
Proof. by rewrite alter_app_r_alt, Nat.sub_diag by lia. Qed.

(** Appending a child and then altering it is appending the altered child. *)
Lemma ref_alter_child f r k c t n :
  ref_get r t = Some n →
  ref_alter f (r ++ [ptree_size n]) (ref_alter (ptree_push_back (k, c)) r t) =
  ref_alter (ptree_push_back (k, f c)) r t.
Proof.
  revert t; induction r as [|i r IH]; intros [d cs] H; cbn in *.
  - simplify_eq. unfold ptree_size. cbn. by rewrite alter_push_back.
  - f_equal. rewrite list_alter_alter_eq.
    apply list_alter_ext_at. intros [k' c'] Hc. cbn.
    rewrite Hc in H. by rewrite (IH c' H).
Qed.

Lemma ref_get_child r k c t n :
  ref_get r t = Some n →
  ref_get (r ++ [ptree_size n]) (ref_alter (ptree_push_back (k, c)) r t) = Some c.
Proof.
  intros H. erewrite ref_get_app by (by apply ref_get_alter).
  destruct n as [d cs]; cbn. unfold ptree_size; cbn.
  by rewrite lookup_app_r, Nat.sub_diag by lia.
Qed.

Lemma reduce_single path :
  path ≠ EmptyString → single (to_path path) = true →
  reduce (to_path path) =
    Ok (path, {| path_value := path; path_rest := EmptyString |}).
Proof.
  intros Hne Hs. unfold reduce, single in *. cbn in *.
  rewrite str_forallb_span by done. by destruct path.
Qed.

(** Looking up a path without a separator is looking up a child. *)
Lemma get_child_single path t :
  path ≠ EmptyString → single (to_path path) = true →
  get_child path t =
  match ptree_find path t ≫= λ i, ptree_children t !! i with
  | Some (_, c) => Ok c
  | None => Fail (Exn (ptree_bad_path "No such node" path))
  end.
Proof.
  intros Hne Hs. unfold get_child, get_child_optional, path_fuel.
  destruct path as [|c path]; [done|].
  cbn [String.length walk_path].
  replace (path_empty (to_path (String c path))) with false by done.
  rewrite reduce_single by done. cbn.
  destruct (ptree_find _ t) as [i|]; [|done]. cbn.
  destruct (ptree_children t !! i) as [[k n]|] eqn:E; [|done]. cbn.
  by rewrite E.
Qed.

Lemma find_index_lookup key cs i :
  find_index key cs = Some i → ∃ c, cs !! i = Some (key, c).
Proof.
  revert i; induction cs as [|[k c] cs IH]; intros i; cbn; [done|].
  destruct (String.eqb_spec k key) as [->|Hne].
  - intros [= <-]. by exists c.
  - destruct (find_index key cs) as [j|]; [|done]. cbn. intros [= <-].
    by apply IH.
Qed.

Lemma find_index_None key cs :
  find_index key cs = None ↔ Forall (λ kc, kc.1 ≠ key) cs.
Proof.
  induction cs as [|[k c] cs IH]; cbn; [done|].
  rewrite Forall_cons_iff. cbn. destruct (String.eqb_spec k key); [naive_solver|].
  destruct (find_index key cs); cbn; naive_solver.
Qed.

(** *** Printing and reading integers *)

Lemma digits_value_app acc s t :
  digits_value acc (s +:+ t) = digits_value (digits_value acc s) t.
Proof.
  revert acc; induction s as [|c s IH]; intros acc; [done|].
  rewrite str_app_cons. cbn. apply IH.
Qed.

Lemma dec_digits_spec fuel z :
  0 ≤ z < 2 ^ Z.of_nat fuel → (0 < fuel)%nat →
  digits_value 0 (dec_digits fuel z) = z ∧
  str_forallb is_digit_char (dec_digits fuel z) = true ∧
  dec_digits fuel z ≠ EmptyString.
Proof.
  revert z; induction fuel as [|fuel IH]; intros z Hz Hf; [lia|].
  rewrite Nat2Z.inj_succ, Z.pow_succ_r in Hz by lia. cbn [dec_digits].
  assert (0 ≤ z mod 10 < 10) by (apply Z.mod_pos_bound; lia).
  assert (is_digit_char (chr (48 + z mod 10)) = true) as Hd.
  { unfold is_digit_char. rewrite code_chr by lia. lia. }
  assert (code (chr (48 + z mod 10)) = 48 + z mod 10) as Hc
    by (apply code_chr; lia).
  destruct (Z.ltb_spec z 10) as [Hlt|Hge].
  - cbn [str1]. rewrite str_app_nil_l. cbn [digits_value str_forallb str1].
    rewrite Hc, Hd, Z.mod_small by lia. split_and!; [lia|done|done].
  - assert (z = 10 * (z / 10) + z mod 10) by (apply Z.div_mod; lia).
    destruct fuel as [|fuel]; [lia|].
    destruct (IH (z / 10)) as (H1 & H2 & H3); [split; [lia|]|lia|].
    { lia. }
    rewrite digits_value_app, str_forallb_app, H1, H2.
    cbn [digits_value str_forallb str1]. rewrite Hc, Hd.
    split_and!; [lia|done|].
    by destruct (dec_digits (S fuel) (z / 10)).
Qed.

Lemma to_dec_pos z :
  0 ≤ z →
  digits_value 0 (to_dec z) = z ∧
  str_forallb is_digit_char (to_dec z) = true ∧ to_dec z ≠ EmptyString.
Proof.
  intros Hz. unfold to_dec.
  replace (z <? 0) with false by (symmetry; lia).
  apply dec_digits_spec; [|lia]. split; [done|].
  rewrite Nat2Z.inj_succ, Z2Nat.id by apply Z.log2_nonneg.
  destruct (decide (z = 0)) as [->|Hne]; [done|].
  apply Z.log2_spec. lia.
Qed.

Lemma digit_not_space c : is_digit_char c = true → is_space c = false.
Proof. unfold is_digit_char, is_space. lia. Qed.

Lemma span_space_digits s :
  str_forallb is_digit_char s = true → str_span is_space s = (EmptyString, s).
Proof.
  destruct s as [|c s]; cbn; [done|]. intros [H _]%andb_prop.
  by rewrite digit_not_space.
Qed.

(** What [operator<<] prints of an [int], [operator>>] reads back. *)
Lemma extract_int_to_dec z :
  int_min ≤ z ≤ int_max → extract_int (to_dec z) = Some (z, EmptyString).
Proof.
  unfold int_min, int_max. intros Hz. destruct (Z.ltb_spec z 0) as [Hn|Hp].
  - destruct (to_dec_pos (- z)) as (H1 & H2 & H3); [lia|].
    assert (to_dec z = String "-" (to_dec (- z))) as ->.
    { unfold to_dec. replace (z <? 0) with true by (symmetry; lia).
      by replace (- z <? 0) with false by (symmetry; lia). }
    unfold extract_int.
    replace (str_span is_space (String "-" (to_dec (- z)))) with
      (EmptyString, String "-" (to_dec (- z))) by reflexivity. cbv iota beta.
    rewrite str_forallb_span, H1 by done.
    unfold int_min, int_max.
    replace (_ && _) with true by (symmetry; lia).
    rewrite Z.opp_involutive. by destruct (to_dec (- z)).
  - destruct (to_dec_pos z) as (H1 & H2 & H3); [lia|].
    unfold extract_int. rewrite span_space_digits by done.
    assert (match to_dec z with
            | String "-" s => (true, s) | String "+" s => (false, s)
            | _ => (false, to_dec z) end = (false, to_dec z)) as ->.
    { destruct (to_dec z) as [|[[][][][][][][][]] s]; done. }
    rewrite str_forallb_span, H1 by done. unfold int_min, int_max.
    replace (_ && _) with true by (symmetry; lia).
    by destruct (to_dec z).
Qed.

Lemma stream_get_int_to_dec z :
  int_min ≤ z ≤ int_max → stream_get_int (to_dec z) = Some z.
Proof.
  intros Hz. unfold stream_get_int. by rewrite extract_int_to_dec.
Qed.

Lemma extract_int_range s v rest :
  extract_int s = Some (v, rest) → int_min ≤ v ≤ int_max.
Proof.
  unfold extract_int. destruct (str_span is_space s) as [w s'].
  destruct (match s' with String "-" _ => _ | _ => _ end) as [neg s''].
  destruct (str_span is_digit_char s'') as [[|c ds] r]; [done|].
  destruct ((int_min <=? _) && _) eqn:E; [|done]. intros [= <- <-].
  apply andb_prop in E as [?%Z.leb_le ?%Z.leb_le]. done.
Qed.
