(* ===== verification/JsonRead.v ===== *)
(** * Reading JSON: boost::property_tree::json_parser

    The recursive-descent parser of
    src/vendor/boost/boost/property_tree/json_parser/detail/ that
    [readJSONPostBody] runs on a request body: the character source and the
    grammar (parser.hpp), the UTF-8 encoding (narrow_encoding.hpp) and the
    callbacks that build the property tree (standard_callbacks.hpp).  The
    iterator is a [std::istreambuf_iterator], so the adapters are those for
    input iterators. *)

From S2P Require Import Prelude Ptree.

Local Open Scope Z_scope.

(** ** The encoding *)

Section Encoding.
Local Open Scope char_scope.
Definition is_nl (c : ascii) : bool := Ascii.eqb c nl.
Definition is_ws (c : ascii) : bool :=
  Ascii.eqb c " " || Ascii.eqb c tab || Ascii.eqb c nl || Ascii.eqb c cr.
Definition is_minus (c : ascii) : bool := Ascii.eqb c "-".
Definition is_plusminus (c : ascii) : bool := Ascii.eqb c "+" || Ascii.eqb c "-".
Definition is_dot (c : ascii) : bool := Ascii.eqb c ".".
Definition is_eE (c : ascii) : bool := Ascii.eqb c "e" || Ascii.eqb c "E".
Definition is_0 (c : ascii) : bool := Ascii.eqb c "0".
Definition is_digit (c : ascii) : bool := (48 <=? code c)%Z && (code c <=? 57)%Z.
Definition is_digit0 (c : ascii) : bool := (49 <=? code c)%Z && (code c <=? 57)%Z.
Definition is_quote (c : ascii) : bool := Ascii.eqb c dquote.
Definition is_backslash (c : ascii) : bool := Ascii.eqb c backslash.
Definition is_slash (c : ascii) : bool := Ascii.eqb c "/".
Definition is_comma (c : ascii) : bool := Ascii.eqb c ",".
Definition is_open_bracket (c : ascii) : bool := Ascii.eqb c "[".
Definition is_close_bracket (c : ascii) : bool := Ascii.eqb c "]".
Definition is_colon (c : ascii) : bool := Ascii.eqb c ":".
Definition is_open_brace (c : ascii) : bool := Ascii.eqb c "{".
Definition is_close_brace (c : ascii) : bool := Ascii.eqb c "}".
(** [is_a], [is_b], [is_e], ...: one letter each. *)
Definition is_letter (l c : ascii) : bool := Ascii.eqb c l.
End Encoding.

Definition decode_hexdigit (c : ascii) : Z :=
  if (48 <=? code c) && (code c <=? 57) then code c - 48
  else if (65 <=? code c) && (code c <=? 70) then code c - 65 + 10
  else if (97 <=? code c) && (code c <=? 102) then code c - 97 + 10
  else -1.

Definition is_trail (c : ascii) : bool := Z.land (code c) 0xc0 =? 0x80.

(** The number of trailing bytes a lead byte announces, -1 for none: the
    sixteen-entry table indexed by [(c & 0x7f) >> 3]. *)
Definition trail_table (c : ascii) : Z :=
  nth (Z.to_nat (Z.shiftr (Z.land (code c) 0x7f) 3))
    [-1; -1; -1; -1; -1; -1; -1; -1; 1; 1; 1; 1; 2; 2; 3; -1] (-1).

Definition trail (unmasked : Z) : ascii := chr (Z.lor 0x80 (Z.land unmasked 0x3f)).

(** The bytes [feed_codepoint] passes on: the UTF-8 encoding. *)
Definition feed_codepoint (codepoint : Z) : string :=
  if codepoint <=? 0x7f then str1 (chr codepoint)
  else if codepoint <=? 0x7ff then
    String (chr (Z.lor 0xc0 (Z.shiftr codepoint 6))) (str1 (trail codepoint))
  else if codepoint <=? 0xffff then
    String (chr (Z.lor 0xe0 (Z.shiftr codepoint 12)))
      (String (trail (Z.shiftr codepoint 6)) (str1 (trail codepoint)))
  else if codepoint <=? 0x10ffff then
    String (chr (Z.lor 0xf0 (Z.shiftr codepoint 18)))
      (String (trail (Z.shiftr codepoint 12))
         (String (trail (Z.shiftr codepoint 6)) (str1 (trail codepoint))))
  else EmptyString.

(** ** The callbacks *)

Inductive kind := Array | Object | Key | Leaf.
Record layer := Layer { l_kind : kind; l_t : node_ref }.

(** [standard_callbacks]: the tree under construction, the pending key and the
    stack of open layers, its back first. *)
Record callbacks := { root : ptree; key_buffer : string; stack : list layer }.

Definition callbacks_new : callbacks :=
  {| root := ptree_new; key_buffer := EmptyString; stack := [] |}.

(** Append the child [(name, Ptree())] to the node [r] and open a leaf on it;
    [below] is the rest of the stack. *)
Definition push_child (name : string) (r : node_ref) (below : list layer)
    (c : callbacks) : outcome (node_ref * callbacks) :=
  match ref_get r (root c) with
  | None => Fail (UndefinedBehavior "dangling layer")
  | Some n =>
      let r' := r ++ [ptree_size n] in
      Ok (r', {| root := ref_alter (ptree_push_back (name, ptree_new)) r (root c);
                 key_buffer := key_buffer c;
                 stack := Layer Leaf r' :: below |})
  end.

(** [new_tree]; the recursion pops one leaf at a time. *)
Fixpoint new_tree_on (st : list layer) (c : callbacks)
    : outcome (node_ref * callbacks) :=
  match st with
  | [] => Ok ([], {| root := root c; key_buffer := key_buffer c;
                     stack := [Layer Leaf []] |})
  | l :: st' =>
      match l_kind l with
      | Array => push_child EmptyString (l_t l) st c
      | Object => Fail (AssertionFailed "must start with string, i.e. call new_value")
      | Key => push_child (key_buffer c) (l_t l) (Layer Object (l_t l) :: st') c
      | Leaf => new_tree_on st' c
      end
  end.
Definition new_tree (c : callbacks) : outcome (node_ref * callbacks) :=
  new_tree_on (stack c) c.

(** A [string &] the callbacks return: the key buffer or a node's data. *)
Inductive string_ref := KeyBuffer | DataOf (r : node_ref).

Definition with_stack (st : list layer) (c : callbacks) : callbacks :=
  {| root := root c; key_buffer := key_buffer c; stack := st |}.

Fixpoint new_value_on (st : list layer) (c : callbacks)
    : outcome (string_ref * callbacks) :=
  match st with
  | [] => '(r, c) ← new_tree (with_stack [] c); Ok (DataOf r, c)
  | l :: st' =>
      match l_kind l with
      | Leaf => new_value_on st' c
      | Object =>
          Ok (KeyBuffer, {| root := root c; key_buffer := EmptyString;
                            stack := Layer Key (l_t l) :: st' |})
      | _ => '(r, c) ← new_tree (with_stack st c); Ok (DataOf r, c)
      end
  end.
Definition new_value (c : callbacks) : outcome (string_ref * callbacks) :=
  new_value_on (stack c) c.

Definition current_value (c : callbacks) : outcome string_ref :=
  match stack c with
  | [] => Fail (UndefinedBehavior "stack.back() of an empty vector")
  | l :: _ => match l_kind l with Key => Ok KeyBuffer | _ => Ok (DataOf (l_t l)) end
  end.

Definition string_update (f : string → string) (r : string_ref) (c : callbacks)
    : callbacks :=
  match r with
  | KeyBuffer => {| root := root c; key_buffer := f (key_buffer c); stack := stack c |}
  | DataOf r => {| root := ref_alter (λ n, set_data (f (ptree_data n)) n) r (root c);
                   key_buffer := key_buffer c; stack := stack c |}
  end.

(** Assign a whole value, as for [null], [true] and [false]. *)
Definition assign_new_value (v : string) (c : callbacks) : outcome callbacks :=
  '(r, c) ← new_value c; Ok (string_update (λ _, v) r c).

Definition on_null : callbacks → outcome callbacks := assign_new_value "null".
Definition on_boolean (b : bool) : callbacks → outcome callbacks :=
  assign_new_value (if b then "true" else "false").
Definition on_begin_number (c : callbacks) : outcome callbacks :=
  '(_, c) ← new_value c; Ok c.
Definition on_code_unit (ch : ascii) (c : callbacks) : outcome callbacks :=
  r ← current_value c; Ok (string_update (λ s, s +:+ str1 ch) r c).
Definition on_digit : ascii → callbacks → outcome callbacks := on_code_unit.
Definition on_begin_string (c : callbacks) : outcome callbacks :=
  '(_, c) ← new_value c; Ok c.

(** [stack.back().k = kd] after [new_tree()]. *)
Definition begin_container (kd : kind) (c : callbacks) : outcome callbacks :=
  '(_, c) ← new_tree c;
  match stack c with
  | [] => Fail (UndefinedBehavior "stack.back() of an empty vector")
  | l :: st => Ok (with_stack (Layer kd (l_t l) :: st) c)
  end.
Definition on_begin_array := begin_container Array.
Definition on_begin_object := begin_container Object.

(** [on_end_array] and [on_end_object]: drop the last element's leaf, then the
    container's layer. *)
Definition end_container (c : callbacks) : outcome callbacks :=
  let pop st := match st with
                | [] => Fail (UndefinedBehavior "pop_back() of an empty vector")
                | _ :: st => Ok st
                end in
  match stack c with
  | [] => Fail (UndefinedBehavior "stack.back() of an empty vector")
  | l :: _ =>
      st ← match l_kind l with Leaf => pop (stack c) | _ => Ok (stack c) end;
      st ← pop st;
      Ok (with_stack st c)
  end.
Definition on_end_array := end_container.
Definition on_end_object := end_container.

(** ** The source *)

(** The unread input and the position; [offset] is the column. *)
Record source := { cur : string; line : Z; offset : Z }.

(** The parser: its source, its callbacks, and the flag of the number adapter
    that [parse_number] has in scope. *)
Record pstate := PState { src : source; cbs : callbacks; first : bool }.

Abbreviation P := (ST pstate).

(** [read_json_internal] passes no file name. *)
Definition parse_error {A} (msg : string) : P A := λ st,
  Fail (Exn (json_parser_error msg (line (src st)))).

(** [encoding.skip_introduction]: three bytes are skipped when the first is 0xEF. *)
Definition skip_introduction (s : string) : string :=
  match s with
  | String c _ => if code c =? 0xef then str_drop 3 s else s
  | EmptyString => s
  end.
Definition set_input (s : string) : source :=
  {| cur := skip_introduction s; line := 1; offset := 0 |}.

Definition with_src (s : source) (st : pstate) : pstate :=
  {| src := s; cbs := cbs st; first := first st |}.

Definition done : P bool := λ st,
  Ok (match cur (src st) with EmptyString => true | _ => false end, st).

Definition next : P unit := λ st,
  match cur (src st) with
  | EmptyString => Fail (UndefinedBehavior "dereferencing the end iterator")
  | String c s =>
      Ok (tt, with_src (if is_nl c then {| cur := s; line := line (src st) + 1; offset := 0 |}
                        else {| cur := s; line := line (src st);
                                offset := offset (src st) + 1 |}) st)
  end.

Definition do_nothing (c : ascii) : P unit := mret tt.

Definition have_do (p : ascii → bool) (a : ascii → P unit) : P bool := λ st,
  match cur (src st) with
  | String c _ => if p c then (_ ← a c; _ ← next; mret true) st else Ok (false, st)
  | EmptyString => Ok (false, st)
  end.
Definition have (p : ascii → bool) : P bool := have_do p do_nothing.

Definition expect_do (p : ascii → bool) (msg : string) (a : ascii → P unit) : P unit :=
  b ← have_do p a; if b : bool then mret tt else parse_error msg.
Definition expect (p : ascii → bool) (msg : string) : P unit :=
  expect_do p msg do_nothing.

Definition need_cur (msg : string) : P ascii := λ st,
  match cur (src st) with
  | EmptyString => parse_error msg st
  | String c _ => Ok (c, st)
  end.

(** Run a callback. *)
Definition call (f : callbacks → outcome callbacks) : P unit := λ st,
  match f (cbs st) with
  | Ok c => Ok (tt, {| src := src st; cbs := c; first := first st |})
  | Fail e => Fail e
  end.

(** ** The grammar *)

(** The bound on the iterations of a loop that consumes the input. *)
Definition with_fuel {A} (f : nat → P A) : P A := λ st,
  f (S (String.length (cur (src st)))) st.

(** [while (have(p, a)) {}]. *)
Fixpoint while_have (p : ascii → bool) (a : ascii → P unit) (fuel : nat) : P unit :=
  match fuel with
  | O => st_throw OutOfFuel
  | S fuel => b ← have_do p a; if b : bool then while_have p a fuel else mret tt
  end.

Definition skip_ws : P unit := with_fuel (while_have is_ws do_nothing).

Definition parse_null : P bool :=
  _ ← skip_ws;
  b ← have (is_letter "n");
  if negb b then mret false else
  _ ← expect (is_letter "u") "expected 'null'";
  _ ← expect (is_letter "l") "expected 'null'";
  _ ← expect (is_letter "l") "expected 'null'";
  _ ← call on_null;
  mret true.

Definition parse_boolean : P bool :=
  _ ← skip_ws;
  b ← have (is_letter "t");
  if b : bool then
    _ ← expect (is_letter "r") "expected 'true'";
    _ ← expect (is_letter "u") "expected 'true'";
    _ ← expect (is_letter "e") "expected 'true'";
    _ ← call (on_boolean true);
    mret true
  else
  b ← have (is_letter "f");
  if b : bool then
    _ ← expect (is_letter "a") "expected 'false'";
    _ ← expect (is_letter "l") "expected 'false'";
    _ ← expect (is_letter "s") "expected 'false'";
    _ ← expect (is_letter "e") "expected 'false'";
    _ ← call (on_boolean false);
    mret true
  else mret false.

(** [number_callback_adapter::operator()] at an input iterator. *)
Definition number_adapter (c : ascii) : P unit := λ st,
  if 0x7f <? code c then Fail (AssertionFailed "static_cast<unsigned char>(c) <= 0x7f")
  else (_ ← (if first st then call on_begin_number else mret tt);
        _ ← st_modify (λ st, {| src := src st; cbs := cbs st; first := false |});
        call (on_digit c)) st.

Definition parse_digits : P unit := with_fuel (while_have is_digit number_adapter).

Definition parse_int_part : P bool :=
  b ← have_do is_digit0 number_adapter;
  if negb b then mret false else _ ← parse_digits; mret true.

Definition parse_frac_part : P unit :=
  b ← have_do is_dot number_adapter;
  if negb b then mret tt else
  _ ← expect_do is_digit "need at least one digit after '.'" number_adapter;
  parse_digits.

Definition parse_exp_part : P unit :=
  b ← have_do is_eE number_adapter;
  if negb b then mret tt else
  _ ← have_do is_plusminus number_adapter;
  _ ← expect_do is_digit "need at least one digit in exponent" number_adapter;
  parse_digits.

Definition parse_number : P bool :=
  _ ← skip_ws;
  _ ← st_modify (λ st, {| src := src st; cbs := cbs st; first := true |});
  started ← have_do is_minus number_adapter;
  i ← (z ← have_do is_0 number_adapter; if z : bool then mret true else parse_int_part);
  if negb i then
    if started : bool then parse_error "expected digits after -" else mret false
  else
  _ ← parse_frac_part;
  _ ← parse_exp_part;
  mret true.

Fixpoint parse_hex_quad_go (n : nat) (codepoint : Z) : P Z :=
  match n with
  | O => mret codepoint
  | S n =>
      c ← need_cur "invalid escape sequence";
      if decode_hexdigit c <? 0 then parse_error "invalid escape sequence" else
      _ ← next;
      parse_hex_quad_go n (u32 (u32 (codepoint * 16) + decode_hexdigit c))
  end.
Definition parse_hex_quad : P Z := parse_hex_quad_go 4 0.

Definition is_surrogate_high (codepoint : Z) : bool := Z.land codepoint 0xfc00 =? 0xd800.
Definition is_surrogate_low (codepoint : Z) : bool := Z.land codepoint 0xfc00 =? 0xdc00.
Definition combine_surrogates (high low : Z) : Z :=
  0x010000 + Z.lor (Z.shiftl (Z.land high 0x3ff) 10) (Z.land low 0x3ff).

Fixpoint emit (s : string) : P unit :=
  match s with
  | EmptyString => mret tt
  | String c s => _ ← call (on_code_unit c); emit s
  end.
Definition feed (codepoint : Z) : P unit := emit (feed_codepoint codepoint).

Definition parse_codepoint_ref : P unit :=
  codepoint ← parse_hex_quad;
  if is_surrogate_low codepoint
  then parse_error "invalid codepoint, stray low surrogate" else
  if is_surrogate_high codepoint then
    _ ← expect is_backslash "invalid codepoint, stray high surrogate";
    _ ← expect (is_letter "u") "expected codepoint reference after high surrogate";
    low ← parse_hex_quad;
    if negb (is_surrogate_low low)
    then parse_error "expected low surrogate after high surrogate" else
    feed (combine_surrogates codepoint low)
  else feed codepoint.

(** The escapes of one character, in the order they are tried, and the code
    point each feeds. *)
Definition escapes : list ((ascii → bool) * Z) :=
  [(is_quote, 0x22); (is_backslash, 0x5c); (is_slash, 0x2f); (is_letter "b", 0x08);
   (is_letter "f", 0x0c); (is_letter "n", 0x0a); (is_letter "r", 0x0d);
   (is_letter "t", 0x09)].

Fixpoint parse_escape_in (es : list ((ascii → bool) * Z)) : P unit :=
  match es with
  | [] =>
      b ← have (is_letter "u");
      if b : bool then parse_codepoint_ref else parse_error "invalid escape sequence"
  | (p, codepoint) :: es =>
      b ← have p; if b : bool then feed codepoint else parse_escape_in es
  end.
Definition parse_escape : P unit := parse_escape_in escapes.

(** [++cur], past the bookkeeping of [next]. *)
Definition raw_next : P unit := λ st,
  match cur (src st) with
  | EmptyString => Fail (UndefinedBehavior "incrementing the end iterator")
  | String _ s => Ok (tt, with_src {| cur := s; line := line (src st);
                                      offset := offset (src st) |} st)
  end.

Fixpoint transcode_trail (n : nat) : P unit :=
  match n with
  | O => mret tt
  | S n =>
      st ← st_get;
      match cur (src st) with
      | EmptyString => parse_error "invalid code sequence"
      | String c _ =>
          if negb (is_trail c) then parse_error "invalid code sequence" else
          _ ← call (on_code_unit c);
          _ ← raw_next;
          transcode_trail n
      end
  end.

(** [transcode_codepoint] with the error function [parse_error(...)]. *)
Definition transcode_codepoint : P unit :=
  c ← need_cur "unterminated string";
  _ ← raw_next;
  if code c <=? 0x7f then
    if code c <? 0x20 then parse_error "invalid code sequence"
    else call (on_code_unit c)
  else
  if trail_table c =? -1 then parse_error "invalid code sequence" else
  _ ← call (on_code_unit c);
  transcode_trail (Z.to_nat (trail_table c)).

(** The loop of [parse_string], up to the closing quote. *)
Fixpoint string_loop (fuel : nat) : P unit :=
  match fuel with
  | O => st_throw OutOfFuel
  | S fuel =>
      c ← need_cur "unterminated string";
      if is_quote c then mret tt else
      _ ← (if is_backslash c then _ ← next; parse_escape else transcode_codepoint);
      string_loop fuel
  end.

Definition parse_string : P bool :=
  _ ← skip_ws;
  b ← have is_quote;
  if negb b then mret false else
  _ ← call on_begin_string;
  _ ← with_fuel string_loop;
  _ ← next;
  mret true.

(** [do { body } while (have(&Encoding::is_comma));] *)
Fixpoint do_while_comma (body : P unit) (fuel : nat) : P unit :=
  match fuel with
  | O => st_throw OutOfFuel
  | S fuel =>
      _ ← body;
      b ← have is_comma;
      if b : bool then do_while_comma body fuel else mret tt
  end.

(** [parse_array] and [parse_object], given [parse_value]. *)
Definition parse_array (value : P unit) : P bool :=
  _ ← skip_ws;
  b ← have is_open_bracket;
  if negb b then mret false else
  _ ← call on_begin_array;
  _ ← skip_ws;
  b ← have is_close_bracket;
  if b : bool then _ ← call on_end_array; mret true else
  _ ← with_fuel (do_while_comma (_ ← value; skip_ws));
  _ ← expect is_close_bracket "expected ']' or ','";
  _ ← call on_end_array;
  mret true.

Definition parse_member (value : P unit) : P unit :=
  b ← parse_string;
  if negb b then parse_error "expected key string" else
  _ ← skip_ws;
  _ ← expect is_colon "expected ':'";
  _ ← value;
  skip_ws.

Definition parse_object (value : P unit) : P bool :=
  _ ← skip_ws;
  b ← have is_open_brace;
  if negb b then mret false else
  _ ← call on_begin_object;
  _ ← skip_ws;
  b ← have is_close_brace;
  if b : bool then _ ← call on_end_object; mret true else
  _ ← with_fuel (do_while_comma (parse_member value));
  _ ← expect is_close_brace "expected '}' or ','";
  _ ← call on_end_object;
  mret true.

(** The alternatives of [parse_value] after objects and arrays. *)
Definition parse_scalar : P unit :=
  b ← parse_string; if b : bool then mret tt else
  b ← parse_boolean; if b : bool then mret tt else
  b ← parse_null; if b : bool then mret tt else
  b ← parse_number; if b : bool then mret tt else
  parse_error "expected value".

(** The fuel bounds the nesting depth. *)
Fixpoint parse_value (fuel : nat) : P unit :=
  match fuel with
  | O => st_throw OutOfFuel
  | S fuel =>
      b ← parse_object (parse_value fuel); if b : bool then mret tt else
      b ← parse_array (parse_value fuel); if b : bool then mret tt else
      parse_scalar
  end.

Definition finish : P unit :=
  _ ← skip_ws;
  b ← done;
  if b : bool then mret tt else parse_error "garbage after data".

(** [read_json(is, pt)] on a stream that holds [body]. *)
Definition read_json (body : string) : outcome ptree :=
  let st := {| src := set_input body; cbs := callbacks_new; first := true |} in
  '(_, st) ← (_ ← with_fuel parse_value; finish) st;
  Ok (root (cbs st)).
