(* ===== verification/JsonSafe.v ===== *)
(** * The JSON reader is total and safe

    On every input [read_json] ends with a tree or throws [json_parser_error]:
    it terminates, never touches the end iterator, never pops an empty stack,
    never follows a dangling layer and never fails an assertion.  The lemmas on
    the callbacks say what building a value does to the tree: they are shared
    with the round trip of JsonRoundtrip.v. *)

From S2P Require Import Prelude Ptree JsonRead.

(** ** The callbacks as tree construction *)

(** The state with the finished leaf of the last value dropped, as the next
    callback drops it. *)
Definition norm_stack (st : list layer) : list layer :=
  match st with
  | Layer Leaf _ :: st => st
  | _ => st
  end.
Definition normalize (c : callbacks) : callbacks := with_stack (norm_stack (stack c)) c.

Definition with_key (kb : string) (c : callbacks) : callbacks :=
  {| root := root c; key_buffer := kb; stack := stack c |}.

(** A normalized state in which a value may begin. *)
Definition can_attach (c : callbacks) : Prop :=
  match stack c with
  | [] => root c = ptree_new
  | Layer (Array | Key) r :: _ => is_Some (ref_get r (root c))
  | _ => False
  end.

(** Where the next value goes. *)
Definition child_ref (c : callbacks) : node_ref :=
  match stack c with
  | [] => []
  | l :: _ => match ref_get (l_t l) (root c) with
              | Some n => l_t l ++ [ptree_size n]
              | None => []
              end
  end.

(** The state after the whole value [v]. *)
Definition attach (v : ptree) (c : callbacks) : callbacks :=
  match stack c with
  | Layer Array r :: _ =>
      {| root := ref_alter (ptree_push_back (EmptyString, v)) r (root c);
         key_buffer := key_buffer c; stack := stack c |}
  | Layer Key r :: st =>
      {| root := ref_alter (ptree_push_back (key_buffer c, v)) r (root c);
         key_buffer := key_buffer c; stack := Layer Object r :: st |}
  | _ => {| root := v; key_buffer := key_buffer c; stack := stack c |}
  end.

(** The state while [v], begun in [c], is under construction in a layer of kind
    [kd]. *)
Definition opened (kd : kind) (c : callbacks) (v : ptree) : callbacks :=
  let c' := attach v c in
  {| root := root c'; key_buffer := key_buffer c';
     stack := Layer kd (child_ref c) :: stack c' |}.

Lemma normalize_idem c : norm_stack (stack c) = stack c → normalize c = c.
Proof. destruct c; unfold normalize, with_stack; cbn. by intros ->. Qed.

Lemma can_attach_norm c : can_attach c → normalize c = c.
Proof.
  intros H. apply normalize_idem. unfold can_attach in H.
  by destruct (stack c) as [|[[] r] st].
Qed.

Lemma normalize_opened_leaf c v : normalize (opened Leaf c v) = attach v c.
Proof. unfold normalize, opened, with_stack. cbn. by destruct (attach v c). Qed.

(** What the two kinds of layer that take a value have in common. *)
Lemma opened_begin kd c :
  can_attach c →
  begin_container kd c = Ok (opened kd c ptree_new) ∧
  new_tree c = Ok (child_ref c, opened Leaf c ptree_new) ∧
  new_value c = Ok (DataOf (child_ref c), opened Leaf c ptree_new).
Proof.
  unfold can_attach, begin_container, new_tree, new_value, opened, child_ref, attach.
  destruct c as [rt kb [|[[] r] st]]; cbn; try done.
  - by intros ->.
  - intros [n Hn]. unfold push_child. cbn. by rewrite Hn.
  - intros [n Hn]. unfold push_child. cbn. by rewrite Hn.
Qed.

(** The layer pushed for a value is where the value is. *)
Lemma opened_ref kd c v :
  can_attach c → ref_get (child_ref c) (root (opened kd c v)) = Some v.
Proof.
  unfold can_attach, opened, child_ref, attach.
  destruct c as [rt kb [|[[] r] st]]; cbn; try done.
  all: intros [n Hn]; rewrite Hn; by apply ref_get_child.
Qed.

Lemma opened_alter kd kd' c v f :
  can_attach c →
  ref_alter f (child_ref c) (root (opened kd c v)) = root (opened kd' c (f v)).
Proof.
  unfold can_attach, opened, child_ref, attach.
  destruct c as [rt kb [|[[] r] st]]; cbn; try done.
  all: intros [n Hn]; rewrite Hn; by apply ref_alter_child.
Qed.

#[global] Arguments opened : simpl never.

(** The stack and the key buffer do not depend on how far the value is. *)
Lemma attach_stack v v' c :
  stack (attach v c) = stack (attach v' c) ∧ key_buffer (attach v c) = key_buffer c.
Proof. unfold attach. by destruct c as [rt kb [|[[] r] st]]. Qed.

(** An update of the value under construction. *)
Lemma opened_update kd kd' c v f :
  can_attach c →
  {| root := ref_alter f (child_ref c) (root (opened kd c v));
     key_buffer := key_buffer (opened kd c v);
     stack := Layer kd' (child_ref c) :: stack (attach v c) |} = opened kd' c (f v).
Proof.
  intros Hc. rewrite (opened_alter kd kd') by done. unfold opened. cbn.
  destruct (attach_stack v (f v) c) as [-> ->].
  by destruct (attach_stack (f v) v c) as [_ ->].
Qed.

(** Text appended to a value's data. *)
Lemma on_code_unit_leaf ch c s :
  can_attach c →
  on_code_unit ch (opened Leaf c (Node s [])) =
    Ok (opened Leaf c (Node (s +:+ str1 ch) [])).
Proof.
  intros Hc. transitivity (Ok (string_update (λ s, s +:+ str1 ch)
    (DataOf (child_ref c)) (opened Leaf c (Node s [])))); [done|].
  f_equal. by apply (opened_update Leaf Leaf c (Node s [])).
Qed.

Lemma assign_new_value_attach v c :
  can_attach c →
  assign_new_value v c = Ok (opened Leaf c (Node v [])).
Proof.
  intros Hc. unfold assign_new_value.
  destruct (opened_begin Leaf c Hc) as (_ & _ & ->). cbn.
  f_equal. by apply (opened_update Leaf Leaf c ptree_new).
Qed.

(** Values attached to an open array. *)
Lemma attach_array c n kb v :
  can_attach c →
  can_attach (with_key kb (opened Array c n)) ∧
  attach v (with_key kb (opened Array c n)) =
    with_key kb (opened Array c (ptree_push_back (EmptyString, v) n)).
Proof.
  intros Hc. split.
  - change (is_Some (ref_get (child_ref c) (root (opened Array c n)))).
    rewrite opened_ref by done. by eexists.
  - by rewrite <- (opened_update Array Array c n).
Qed.

(** Values attached under a key to an open object. *)
Lemma attach_key c n kb v :
  can_attach c →
  can_attach (with_key kb (opened Key c n)) ∧
  attach v (with_key kb (opened Key c n)) =
    with_key kb (opened Object c (ptree_push_back (kb, v) n)).
Proof.
  intros Hc. split.
  - change (is_Some (ref_get (child_ref c) (root (opened Key c n)))).
    rewrite opened_ref by done. by eexists.
  - by rewrite <- (opened_update Key Object c n).
Qed.

Lemma on_begin_key c kb n :
  on_begin_string (with_key kb (opened Object c n)) =
    Ok (with_key EmptyString (opened Key c n)).
Proof. reflexivity. Qed.

Lemma on_code_unit_key ch c kb n :
  on_code_unit ch (with_key kb (opened Key c n)) =
    Ok (with_key (kb +:+ str1 ch) (opened Key c n)).
Proof. reflexivity. Qed.

(** The callbacks only look at the normalized state. *)
Lemma new_tree_on_stack st st' c : new_tree_on st (with_stack st' c) = new_tree_on st c.
Proof.
  induction st as [|[[] r] st IH]; cbn; try done; unfold push_child; done.
Qed.
Lemma new_value_on_stack st st' c : new_value_on st (with_stack st' c) = new_value_on st c.
Proof. induction st as [|[[] r] st IH]; cbn; done. Qed.

Lemma begin_normalize kd c :
  begin_container kd c = begin_container kd (normalize c) ∧
  new_value c = new_value (normalize c).
Proof.
  unfold begin_container, new_tree, new_value, normalize.
  rewrite new_tree_on_stack, new_value_on_stack. unfold with_stack. cbn.
  by destruct (stack c) as [|[[] r] st].
Qed.

(** A container closes to the finished value, whatever its last element left. *)
Lemma end_container_opened kd kb c c' n :
  kd = Array ∨ kd = Object →
  normalize c' = with_key kb (opened kd c n) →
  end_container c' = Ok (with_key kb (attach n c)).
Proof.
  intros Hk H. unfold normalize, with_stack, with_key in H.
  destruct c' as [rt kb' st]; cbn in H.
  assert (norm_stack st = Layer kd (child_ref c) :: stack (attach n c)) as Hs
    by (by injection H).
  assert (rt = root (attach n c) ∧ kb' = kb) as [-> ->] by (by injection H).
  clear H. unfold end_container, with_stack, with_key. cbn.
  destruct Hk as [-> | ->], st as [|[[] r] st]; cbn in *; simplify_eq/=; try done.
  all: by rewrite Hs.
Qed.

(** ** Outcomes that are results or parse errors *)

Definition json_error (f : failure) : Prop :=
  ∃ msg l, f = Exn (json_parser_error msg l).

Definition good {A} (Q : A → pstate → Prop) (o : outcome (A * pstate)) : Prop :=
  match o with Ok (a, st) => Q a st | Fail f => json_error f end.

(** The unread input, as a measure. *)
Definition len (st : pstate) : nat := String.length (cur (src st)).

Lemma good_bind {A B} (R : A → pstate → Prop) (Q : B → pstate → Prop)
    (m : P A) (f : A → P B) st :
  good R (m st) → (∀ a st', R a st' → good Q (f a st')) → good Q ((m ≫= f) st).
Proof.
  unfold mbind, st_bind. destruct (m st) as [[a st']|e]; cbn; auto.
Qed.
Lemma good_mono {A} (R Q : A → pstate → Prop) o :
  good R o → (∀ a st', R a st' → Q a st') → good Q o.
Proof. destruct o as [[a st']|e]; cbn; auto. Qed.
Lemma good_ret {A} (Q : A → pstate → Prop) a st : Q a st → good Q ((mret a : P A) st).
Proof. done. Qed.
(** Close a branch that throws. *)
Ltac jerr := cbn; unfold json_error; solve [eauto].

(** [m] leaves the callbacks alone and does not go back. *)
Definition quiet {A} (m : P A) : Prop := ∀ st,
  good (λ _ st', cbs st' = cbs st ∧ (len st' ≤ len st)%nat) (m st).

(** Continue with the rule [lem] for the first statement. *)
Tactic Notation "step" uconstr(lem) "as" simple_intropattern_list(p) :=
  eapply good_bind; [eapply lem; eauto with cpp|cbv beta; intros p].

Lemma next_spec c s st :
  cur (src st) = String c s →
  good (λ _ st', cur (src st') = s ∧ cbs st' = cbs st ∧ first st' = first st) (next st).
Proof. intros H. unfold next. rewrite H. cbn. by destruct (is_nl c). Qed.

Lemma have_spec p st :
  good (λ (b : bool) st', cbs st' = cbs st ∧ first st' = first st ∧
    if b then S (len st') = len st else st' = st) (have p st).
Proof.
  unfold have, have_do, len. destruct (cur (src st)) as [|c s] eqn:E; [done|].
  destruct (p c); [|done]. st_unfold. unfold do_nothing, next. st_unfold.
  rewrite E. by destruct (is_nl c).
Qed.

Lemma expect_spec p msg st :
  good (λ _ st', cbs st' = cbs st ∧ first st' = first st ∧ S (len st') = len st)
    (expect p msg st).
Proof.
  unfold expect, expect_do. eapply good_bind; [apply have_spec|].
  intros [|] st'; cbn; [naive_solver|]. intros _. jerr.
Qed.

Lemma while_have_quiet p fuel st :
  (len st < fuel)%nat →
  good (λ _ st', cbs st' = cbs st ∧ first st' = first st ∧ (len st' ≤ len st)%nat)
    (while_have p do_nothing fuel st).
Proof.
  revert st; induction fuel as [|fuel IH]; intros st Hf; [lia|]. cbn.
  eapply good_bind; [apply have_spec|]. intros [|] st' (H1 & H2 & H3); cbn.
  - eapply good_mono; [apply IH; lia|]. cbn. intros _ st'' (-> & -> & ?).
    split_and!; [done|done|lia].
  - subst. split_and!; [done|done|lia].
Qed.

Lemma skip_ws_spec st :
  good (λ _ st', cbs st' = cbs st ∧ first st' = first st ∧ (len st' ≤ len st)%nat)
    (skip_ws st).
Proof. apply while_have_quiet. unfold len. lia. Qed.

(** *** Text *)

Section Text.
(** [T s]: the callbacks when the text so far is [s]. *)
Context (T : string → callbacks).
Hypothesis T_unit : ∀ s ch, on_code_unit ch (T s) = Ok (T (s +:+ str1 ch)).

Definition has_text (st : pstate) : Prop := ∃ s, cbs st = T s.

Lemma unit_spec ch st :
  has_text st → good (λ _ st', has_text st' ∧ src st' = src st) (call (on_code_unit ch) st).
Proof.
  intros [s Hs]. unfold call. rewrite Hs, T_unit. cbn. split; [by eexists|done].
Qed.

Lemma emit_spec x st :
  has_text st → good (λ _ st', has_text st' ∧ src st' = src st) (emit x st).
Proof.
  revert st; induction x as [|c x IH]; intros st Hs; cbn; [done|].
  step unit_spec as a st' [H1 H2].
  eapply good_mono; [by apply IH|]. cbn. by intros ? ? [? ->].
Qed.

Definition text_le {A} (st : pstate) (_ : A) (st' : pstate) : Prop :=
  has_text st' ∧ (len st' ≤ len st)%nat.

Lemma feed_spec cp st : has_text st → good (text_le st) (feed cp st).
Proof.
  intros H. eapply good_mono; [by apply emit_spec|]. cbn. unfold text_le, len.
  intros _ st' [? ->]. split; [done|lia].
Qed.

Lemma hex_quad_spec n cp st :
  has_text st → good (text_le st) (parse_hex_quad_go n cp st).
Proof.
  revert cp st; induction n as [|n IH]; intros cp st H; cbn.
  { split; [done|lia]. }
  unfold mbind, st_bind, need_cur.
  destruct (cur (src st)) as [|c s] eqn:E; cbn; [jerr|].
  destruct (_ <? 0)%Z; cbn; [jerr|].
  pose proof (next_spec c s st E) as Hn. unfold good in Hn.
  destruct (next st) as [[[] st']|e]; [|done]. destruct Hn as (H1 & H2 & H3).
  eapply good_mono; [apply IH|].
  - destruct H as [x Hx]. exists x. congruence.
  - unfold text_le, len. rewrite E, H1. cbn. intros _ st'' [? ?]. split; [done|lia].
Qed.

Lemma text_expect p msg st : has_text st → good (text_le st) (expect p msg st).
Proof.
  intros [s Hs]. eapply good_mono; [apply expect_spec|]. cbn.
  intros ? st' (H1 & _ & H3). split; [exists s; congruence|lia].
Qed.

(** Sequencing: later statements start from text as well. *)
Lemma text_bind {A B} (m : P A) (f : A → P B) st :
  good (text_le st) (m st) →
  (∀ a st', has_text st' → good (text_le st') (f a st')) →
  good (text_le st) ((m ≫= f) st).
Proof.
  intros Hm Hf. eapply good_bind; [done|]. intros a st' [H ?].
  eapply good_mono; [by apply Hf|]. intros b st'' [? ?]. split; [done|lia].
Qed.

Lemma codepoint_ref_spec st :
  has_text st → good (text_le st) (parse_codepoint_ref st).
Proof.
  intros H. unfold parse_codepoint_ref, parse_hex_quad.
  apply text_bind; [by apply hex_quad_spec|]. intros cp st1 H1.
  destruct (is_surrogate_low cp); [jerr|].
  destruct (is_surrogate_high cp); [|by apply feed_spec].
  apply text_bind; [by apply text_expect|]. intros _ st2 H2.
  apply text_bind; [by apply text_expect|]. intros _ st3 H3.
  apply text_bind; [by apply hex_quad_spec|]. intros low st4 H4.
  destruct (negb _); [jerr|]. by apply feed_spec.
Qed.

Lemma escape_spec es st :
  has_text st → good (text_le st) (parse_escape_in es st).
Proof.
  assert (∀ st (st' : pstate), has_text st → cbs st' = cbs st → has_text st') as Hcb.
  { intros ? ? [s Hs] E. exists s. congruence. }
  induction es as [|[p cp] es IH]; intros H; cbn.
  - eapply good_bind; [apply have_spec|]. intros [|] st' (H1 & _ & H3);
      [|jerr].
    eapply good_mono; [apply codepoint_ref_spec; eauto|].
    unfold text_le. intros _ ? [? ?]. split; [done|lia].
  - eapply good_bind; [apply have_spec|]. intros [|] st' (H1 & _ & H3).
    + eapply good_mono; [apply feed_spec; eauto|].
      unfold text_le. intros _ ? [? ?]. split; [done|lia].
    + subst. by apply IH.
Qed.

Lemma trail_spec n st : has_text st → good (text_le st) (transcode_trail n st).
Proof.
  revert st; induction n as [|n IH]; intros st H; cbn; [split; [done|lia]|].
  unfold mbind, st_bind, st_get.
  destruct (cur (src st)) as [|c s] eqn:E; cbn; [jerr|].
  destruct (is_trail c); cbn; [|jerr].
  pose proof (unit_spec c st H) as Hu. unfold good in Hu.
  destruct (call _ st) as [[[] st']|e]; [|done]. destruct Hu as [Hu Hs].
  unfold raw_next. rewrite Hs, E. cbn.
  eapply good_mono; [apply IH|].
  - destruct Hu as [x Hx]. by exists x.
  - unfold text_le, len. rewrite E. cbn. intros _ st'' [? ?]. split; [done|lia].
Qed.

Lemma transcode_spec st :
  has_text st → cur (src st) ≠ EmptyString →
  good (λ _ st', has_text st' ∧ (len st' < len st)%nat) (transcode_codepoint st).
Proof.
  intros H Hne. unfold transcode_codepoint, need_cur, raw_next, mbind, st_bind.
  destruct (cur (src st)) as [|c s] eqn:E; [done|]. cbn. rewrite E. cbn.
  set (st1 := with_src _ st).
  assert (has_text st1) as H1 by (destruct H as [x Hx]; by exists x).
  assert (S (len st1) = len st) as Hl by (unfold len; rewrite E; done).
  clearbody st1.
  destruct (code c <=? 0x7f)%Z.
  - destruct (code c <? 0x20)%Z; [jerr|].
    eapply good_mono; [by apply unit_spec|]. cbn. unfold len in *.
    intros _ st' [? ->]. split; [done|lia].
  - destruct (_ =? -1)%Z; [jerr|].
    eapply (good_bind (A := unit)); [by apply unit_spec|]. cbn.
    intros _ st2 [H2 E2]. eapply good_mono; [by apply trail_spec|]. cbn.
    unfold text_le, len in *. rewrite E2. intros _ st' [? ?]. split; [done|lia].
Qed.
End Text.

Definition leaf_text (c : callbacks) (s : string) : callbacks := opened Leaf c (Node s []).
Definition key_text (c : callbacks) (n : ptree) (s : string) : callbacks :=
  with_key s (opened Key c n).

Lemma need_cur_spec msg st :
  good (λ c st', st' = st ∧ ∃ s, cur (src st) = String c s) (need_cur msg st).
Proof.
  unfold need_cur. destruct (cur (src st)) as [|c s] eqn:E; [jerr|]. cbn. eauto.
Qed.

Lemma next_len st :
  cur (src st) ≠ EmptyString →
  good (λ _ st', cbs st' = cbs st ∧ first st' = first st ∧ S (len st') = len st) (next st).
Proof.
  intros H. destruct (cur (src st)) as [|c s] eqn:E; [done|].
  eapply good_mono; [by eapply next_spec|]. unfold len. rewrite E.
  by intros _ st' (-> & -> & ->).
Qed.

Lemma string_loop_spec T fuel st :
  (∀ s ch, on_code_unit ch (T s) = Ok (T (s +:+ str1 ch))) →
  has_text T st → (len st < fuel)%nat →
  good (λ _ st', has_text T st' ∧ (len st' ≤ len st)%nat ∧
    ∃ s, cur (src st') = String dquote s) (string_loop fuel st).
Proof.
  intros HT. revert st; induction fuel as [|fuel IH]; intros st H Hf; [lia|].
  cbn [string_loop]. eapply good_bind; [apply need_cur_spec|].
  intros c ? [-> [s E]]. destruct (is_quote c) eqn:Eq.
  { cbn. split_and!; [done|lia|]. exists s. rewrite E.
    f_equal. by apply Ascii.eqb_eq. }
  eapply good_bind with (R := λ _ st', has_text T st' ∧ (len st' < len st)%nat).
  - destruct (is_backslash c); [|apply transcode_spec; [done..|congruence]].
    eapply good_bind; [apply next_len; congruence|].
    intros _ st1 (H2 & _ & L). destruct H as [x Hx].
    eapply good_mono; [apply escape_spec; [done|exists x; congruence]|].
    unfold text_le. intros _ st2 [? ?]. split; [done|lia].
  - intros _ st2 [H2 L]. eapply good_mono; [apply IH; [done|lia]|].
    cbn. intros _ st3 (? & ? & ?). split_and!; [done|lia|done].
Qed.

Lemma call_spec f c st (Q : unit → pstate → Prop) :
  f (cbs st) = Ok c → Q tt {| src := src st; cbs := c; first := first st |} →
  good Q (call f st).
Proof. unfold call. by intros ->. Qed.

(** What a parser that returns [bool] does to the callbacks: with [true] it has
    read something and [R] holds, with [false] nothing has changed. *)
Definition reads (R : callbacks → Prop) (st : pstate) (b : bool) (st' : pstate) : Prop :=
  if b then R (cbs st') ∧ (len st' < len st)%nat
  else cbs st' = cbs st ∧ (len st' ≤ len st)%nat.

(** The common start of the alternatives: white space, then the test of one
    character. *)
Lemma start_spec p (f : P bool) st R :
  (∀ st', cbs st' = cbs st → (len st' < len st)%nat → good (reads R st) (f st')) →
  good (reads R st) ((_ ← skip_ws; b ← have p; if negb b then mret false else f) st).
Proof.
  intros H. eapply good_bind; [apply skip_ws_spec|]. intros _ st1 (H1 & _ & L1).
  eapply good_bind; [apply have_spec|]. intros [|] st2 (H2 & _ & L2).
  - apply H; [congruence|lia].
  - subst. by split.
Qed.

Lemma parse_string_spec T st :
  (∀ s ch, on_code_unit ch (T s) = Ok (T (s +:+ str1 ch))) →
  on_begin_string (cbs st) = Ok (T EmptyString) →
  good (reads (λ c, ∃ s, c = T s) st) (parse_string st).
Proof.
  intros HT Hb. apply start_spec. intros st1 H1 L1.
  eapply good_bind; [eapply (call_spec _ (T EmptyString)); [congruence|]|].
  { instantiate (1 := λ _ st2, has_text T st2 ∧ (len st2 < len st)%nat).
    split; [by eexists|done]. }
  intros _ st2 [H2 L2].
  eapply good_bind; [apply string_loop_spec; [done..|unfold len; lia]|].
  intros _ st3 (H3 & L3 & s & E).
  eapply good_bind; [apply next_len; congruence|].
  intros _ st4 (H4 & _ & L4). split; [|lia].
  destruct H3 as [x Hx]. exists x. congruence.
Qed.

(** *** Scalars *)

(** [c] is [c0] with some value added, up to the unused key buffer. *)
Definition built (c0 c : callbacks) : Prop :=
  ∃ v kb, normalize c = with_key kb (attach v c0).

Lemma built_leaf c0 v : built c0 (opened Leaf c0 v).
Proof.
  exists v, (key_buffer c0). rewrite normalize_opened_leaf. unfold attach, with_key.
  by destruct c0 as [rt kb [|[[] r] st]].
Qed.

Lemma assign_normalize v c : assign_new_value v c = assign_new_value v (normalize c).
Proof. unfold assign_new_value. by rewrite (proj2 (begin_normalize Leaf c)). Qed.
Lemma begin_string_normalize c : on_begin_string c = on_begin_string (normalize c).
Proof. unfold on_begin_string. by rewrite (proj2 (begin_normalize Leaf c)). Qed.

Lemma begin_string_leaf c :
  can_attach (normalize c) →
  on_begin_string c = Ok (leaf_text (normalize c) EmptyString).
Proof.
  intros H. rewrite begin_string_normalize. unfold on_begin_string.
  by destruct (opened_begin Leaf _ H) as (_ & _ & ->).
Qed.

Section Values.
Context (c0 : callbacks) (Hc0 : can_attach c0).

Lemma leaf_text_unit s ch :
  on_code_unit ch (leaf_text c0 s) = Ok (leaf_text c0 (s +:+ str1 ch)).
Proof. by apply on_code_unit_leaf. Qed.

Lemma assign_spec v st st0 :
  normalize (cbs st) = c0 → (len st < len st0)%nat →
  good (reads (built c0) st0) ((_ ← call (assign_new_value v); mret true) st).
Proof.
  intros Hn L. eapply good_bind with
    (R := λ _ st', built c0 (cbs st') ∧ (len st' < len st0)%nat);
    [|by intros _ st' [? ?]].
  eapply call_spec.
  - rewrite assign_normalize, Hn. by apply assign_new_value_attach.
  - split; [apply built_leaf|done].
Qed.

(** [expect]s before the rest: the callbacks stay and input is consumed. *)
Lemma expect_then {A} p msg (f : P A) Q st :
  (∀ st', cbs st' = cbs st → (len st' < len st)%nat → good Q (f st')) →
  good Q ((_ ← expect p msg; f) st).
Proof.
  intros H. eapply good_bind; [apply expect_spec|].
  intros _ st' (? & _ & ?). apply H; [done|lia].
Qed.

Ltac expects := repeat (apply expect_then; intros ? ? ?).

Lemma parse_null_spec st :
  normalize (cbs st) = c0 → good (reads (built c0) st) (parse_null st).
Proof.
  intros Hn. apply start_spec. intros st1 H1 L1. expects.
  apply assign_spec; [congruence|lia].
Qed.

Lemma parse_boolean_spec st :
  normalize (cbs st) = c0 → good (reads (built c0) st) (parse_boolean st).
Proof.
  intros Hn. unfold parse_boolean.
  eapply good_bind; [apply skip_ws_spec|]. intros _ st1 (H1 & _ & L1).
  eapply good_bind; [apply have_spec|]. intros [|] st2 (H2 & _ & L2).
  { expects. apply assign_spec; [congruence|lia]. }
  eapply good_bind; [apply have_spec|]. intros [|] st3 (H3 & _ & L3).
  { subst st2. expects. apply assign_spec; [congruence|lia]. }
  subst st3 st2. by split.
Qed.

Lemma parse_string_value st :
  normalize (cbs st) = c0 → good (reads (built c0) st) (parse_string st).
Proof.
  intros Hn. eapply good_mono.
  - apply (parse_string_spec (leaf_text c0)); [apply leaf_text_unit|].
    rewrite <- Hn. apply begin_string_leaf. by rewrite Hn.
  - intros [|] st'; [|done]. intros [[s Hs] ?].
    split; [rewrite Hs; apply built_leaf|done].
Qed.

(** Digits arrive one by one; the first opens the value. *)
Definition num_open (st : pstate) : Prop :=
  first st = false ∧ ∃ s, cbs st = leaf_text c0 s.
Definition num_inv (st : pstate) : Prop :=
  first st = true ∧ normalize (cbs st) = c0 ∨ num_open st.

Lemma number_adapter_spec c st :
  (0x7f <? code c)%Z = false → num_inv st →
  good (λ _ st', num_open st' ∧ src st' = src st) (number_adapter c st).
Proof.
  intros Hc Hi. unfold number_adapter. rewrite Hc.
  eapply good_bind with (R := λ _ st', (∃ s, cbs st' = leaf_text c0 s) ∧ src st' = src st).
  - destruct Hi as [[-> Hn]|[-> Hs]]; [|done].
    eapply call_spec; [|split; [by exists EmptyString|done]].
    change on_begin_number with on_begin_string. rewrite <- Hn.
    apply begin_string_leaf. by rewrite Hn.
  - intros _ st' [[s Hs] Hsrc]. st_unfold. unfold call. cbn.
    rewrite Hs. unfold on_digit. rewrite leaf_text_unit. cbn.
    split; [|done]. split; [done|]. by eexists.
Qed.

Lemma have_num_spec p st :
  (∀ c, implb (p c) (negb (0x7f <? code c)%Z) = true) → num_inv st →
  good (λ (b : bool) st', if b then num_open st' ∧ S (len st') = len st else st' = st)
    (have_do p number_adapter st).
Proof.
  intros Hp Hi. unfold have_do. destruct (cur (src st)) as [|c s] eqn:E; [done|].
  specialize (Hp c). destruct (p c); [|done]. cbn in Hp. apply negb_true_iff in Hp.
  eapply good_bind; [by apply number_adapter_spec|]. intros _ st1 [H1 S1].
  eapply good_bind; [apply next_len; by rewrite S1, E|].
  intros _ st2 (H2 & F2 & L2). cbn. unfold num_open, len in *.
  rewrite H2, F2. split; [done|]. by rewrite S1 in L2.
Qed.

Lemma digits_spec st :
  num_open st → good (λ _ st', num_open st' ∧ (len st' ≤ len st)%nat) (parse_digits st).
Proof.
  intros H. unfold parse_digits, with_fuel.
  change (String.length (cur (src st))) with (len st).
  assert (len st < S (len st))%nat as Hf by lia. revert Hf.
  generalize (S (len st)) as fuel. intros fuel. revert st H.
  induction fuel as [|fuel IH]; intros st H Hf; [lia|]. cbn [while_have].
  eapply good_bind; [apply have_num_spec; [ascii_all (λ c, implb (is_digit c)
    (negb (0x7f <? code c)%Z))|by right]|].
  intros [|] st1; [intros [H1 L1]|by intros ->].
  eapply good_mono; [apply IH; [done|lia]|]. cbn. intros _ st2 [? ?].
  split; [done|lia].
Qed.

(** A run of optional number parts. *)
Definition num_le (st st' : pstate) : Prop := num_open st' ∧ (len st' ≤ len st)%nat.

Lemma num_seq (p : ascii → bool) (f g : P unit) st :
  (∀ c, implb (p c) (negb (0x7f <? code c)%Z) = true) → num_open st →
  (∀ st', num_open st' → (len st' ≤ len st)%nat →
     good (λ _ st'', num_le st' st'') (f st')) →
  (∀ st', num_open st' → (len st' ≤ len st)%nat →
     good (λ _ st'', num_le st' st'') (g st')) →
  good (λ _ st', num_le st st')
    ((b ← have_do p number_adapter; if b : bool then f else g) st).
Proof.
  intros Hp Ho Hf Hg. eapply good_bind; [by apply have_num_spec; [|right]|].
  intros [|] st1.
  - intros [H1 L1]. eapply good_mono; [apply Hf; [done|lia]|].
    intros [] st2 [? ?]. split; [done|lia].
  - intros ->. by apply Hg.
Qed.

Lemma num_expect (p : ascii → bool) msg st :
  (∀ c, implb (p c) (negb (0x7f <? code c)%Z) = true) → num_open st →
  good (λ _ st', num_le st st') (expect_do p msg number_adapter st).
Proof.
  intros Hp Ho. unfold expect_do.
  eapply good_bind; [by apply have_num_spec; [|right]|].
  intros [|] st1; [intros [? ?]; split; [done|lia]|intros _; jerr].
Qed.

Lemma num_then {A} (m : P A) (f : A → P unit) st :
  good (λ _ st', num_le st st') (m st) →
  (∀ a st', num_open st' → good (λ _ st'', num_le st' st'') (f a st')) →
  good (λ _ st', num_le st st') ((m ≫= f) st).
Proof.
  intros Hm Hf. eapply good_bind; [done|]. intros a st' [? ?].
  eapply good_mono; [by apply Hf|]. intros [] st'' [? ?]. split; [done|lia].
Qed.

Lemma num_here st : num_open st → good (λ _ st', num_le st st') ((mret tt : P unit) st).
Proof. intros H. by split. Qed.

Lemma num_digits st : num_open st → good (λ _ st', num_le st st') (parse_digits st).
Proof. apply digits_spec. Qed.

Lemma frac_spec st : num_open st → good (λ _ st', num_le st st') (parse_frac_part st).
Proof.
  intros H. unfold parse_frac_part.
  eapply good_bind; [apply have_num_spec;
    [ascii_all (λ c, implb (is_dot c) (negb (0x7f <? code c)%Z))|by right]|].
  intros [|] st1; [|by intros ->]. intros [H1 L1].
  eapply good_mono; [apply num_then|].
  - apply num_expect; [|done].
    ascii_all (λ c, implb (is_digit c) (negb (0x7f <? code c)%Z)).
  - intros _ st2 H2. by apply num_digits.
  - intros [] st2 [? ?]. split; [done|lia].
Qed.

Lemma exp_spec st : num_open st → good (λ _ st', num_le st st') (parse_exp_part st).
Proof.
  intros H. unfold parse_exp_part.
  eapply good_bind; [apply have_num_spec;
    [ascii_all (λ c, implb (is_eE c) (negb (0x7f <? code c)%Z))|by right]|].
  intros [|] st1; [|by intros ->]. intros [H1 L1].
  eapply good_bind with (R := λ _ st2, num_le st1 st2).
  { eapply good_mono; [apply have_num_spec;
      [ascii_all (λ c, implb (is_plusminus c) (negb (0x7f <? code c)%Z))|by right]|].
    intros [|] st2; [intros [? ?]; split; [done|lia]|by intros ->]. }
  intros _ st2 [H2 L2]. eapply good_mono; [apply num_then|].
  - apply num_expect; [|done].
    ascii_all (λ c, implb (is_digit c) (negb (0x7f <? code c)%Z)).
  - intros _ st3 H3. by apply num_digits.
  - intros [] st3 [? ?]. split; [done|lia].
Qed.

Lemma num_built st : num_open st → built c0 (cbs st).
Proof. intros [_ [s ->]]. apply built_leaf. Qed.

(** The integer part: something was read, or nothing has changed. *)
Lemma int_part_spec st :
  num_inv st →
  good (λ (b : bool) st', if b then num_open st' ∧ (len st' < len st)%nat else st' = st)
    ((z ← have_do is_0 number_adapter;
      if z : bool then mret true else parse_int_part) st).
Proof.
  intros H. eapply good_bind; [apply have_num_spec;
    [ascii_all (λ c, implb (is_0 c) (negb (0x7f <? code c)%Z))|done]|].
  intros [|] st1; [intros [? ?]; split; [done|lia]|]. intros ->.
  unfold parse_int_part. eapply good_bind; [apply have_num_spec;
    [ascii_all (λ c, implb (is_digit0 c) (negb (0x7f <? code c)%Z))|done]|].
  intros [|] st1; [|by intros ->]. intros [H1 L1].
  eapply good_bind; [by apply digits_spec|]. intros _ st2 [? ?].
  split; [done|lia].
Qed.

Lemma parse_number_spec st :
  normalize (cbs st) = c0 → good (reads (built c0) st) (parse_number st).
Proof.
  intros Hn. unfold parse_number.
  eapply good_bind; [apply skip_ws_spec|]. intros _ st1 (H1 & _ & L1).
  eapply good_bind with (R := λ _ st2, first st2 = true ∧ cbs st2 = cbs st ∧
    (len st2 ≤ len st)%nat); [done|]. intros _ st2 (F2 & H2 & L2).
  eapply good_bind; [apply have_num_spec;
    [ascii_all (λ c, implb (is_minus c) (negb (0x7f <? code c)%Z))|]|].
  { left. split; [done|congruence]. }
  intros started st3 H3.
  eapply good_bind; [apply int_part_spec|].
  { destruct started; [right; by destruct H3|].
    subst st3. left. split; [done|congruence]. }
  intros [|] st4; [intros [H4 L4]|intros ->].
  - eapply good_bind; [by apply frac_spec|]. intros _ st5 [H5 L5].
    eapply good_bind; [by apply exp_spec|]. intros _ st6 [H6 L6].
    split; [by apply num_built|]. destruct started; [|subst st3; lia].
    destruct H3. lia.
  - destruct started; [jerr|]. subst st3. split; [done|lia].
Qed.

Lemma parse_scalar_spec st :
  normalize (cbs st) = c0 →
  good (λ _ st', built c0 (cbs st') ∧ (len st' < len st)%nat) (parse_scalar st).
Proof.
  intros Hn. unfold parse_scalar.
  eapply good_bind; [by apply parse_string_value|]. intros [|] st1; [by intros []|].
  intros [H1 L1]. eapply good_bind; [apply parse_boolean_spec; congruence|].
  intros [|] st2; [intros [? ?]; split; [done|lia]|]. intros [H2 L2].
  eapply good_bind; [apply parse_null_spec; congruence|].
  intros [|] st3; [intros [? ?]; split; [done|lia]|]. intros [H3 L3].
  eapply good_bind; [apply parse_number_spec; congruence|].
  intros [|] st4; [intros [? ?]; split; [done|lia]|]. intros _. jerr.
Qed.
End Values.

(** *** Containers *)

Lemma with_key_self c : with_key (key_buffer c) c = c.
Proof. by destruct c. Qed.

Lemma attach_normal c v kb :
  can_attach c → normalize (with_key kb (attach v c)) = with_key kb (attach v c).
Proof.
  unfold can_attach, normalize, with_key, with_stack, attach.
  by destruct c as [rt kb' [|[[] r] st]].
Qed.

Lemma do_while_comma_spec (I : pstate → Prop) (bound : nat) (body : P unit) fuel st :
  (∀ st, I st → (len st < bound)%nat →
     good (λ _ st', I st' ∧ (len st' < len st)%nat) (body st)) →
  (∀ st st', I st → cbs st' = cbs st → I st') →
  I st → (len st < fuel)%nat → (len st < bound)%nat →
  good (λ _ st', I st' ∧ (len st' < len st)%nat) (do_while_comma body fuel st).
Proof.
  intros Hb HI. revert st; induction fuel as [|fuel IH]; intros st H Hf Hn; [lia|].
  cbn [do_while_comma]. eapply good_bind; [by apply Hb|]. intros _ st1 [H1 L1].
  eapply good_bind; [apply have_spec|]. intros [|] st2 (H2 & _ & L2).
  - eapply good_mono; [apply IH; [by eapply HI|lia|lia]|].
    intros _ st3 [? ?]. split; [done|lia].
  - subst st2. split; [done|lia].
Qed.

Section Containers.
(** [value] parses a value wherever one may begin, within [bound]. *)
Context (value : P unit) (bound : nat).
Hypothesis value_spec : ∀ c st,
  can_attach c → normalize (cbs st) = c → (len st < bound)%nat →
  good (λ _ st', built c (cbs st') ∧ (len st' < len st)%nat) (value st).
Context (c0 : callbacks) (Hc0 : can_attach c0).

(** A container of kind [kd] begun in [c0] is open. *)
Definition container_open (kd : kind) (st : pstate) : Prop :=
  ∃ n kb, normalize (cbs st) = with_key kb (opened kd c0 n).

Lemma container_open_cbs kd st st' :
  container_open kd st → cbs st' = cbs st → container_open kd st'.
Proof. unfold container_open. by intros H ->. Qed.

Lemma begin_spec kd st st0 :
  kd = Array ∨ kd = Object → normalize (cbs st) = c0 → (len st < len st0)%nat →
  good (λ _ st', container_open kd st' ∧ (len st' < len st0)%nat)
    (call (begin_container kd) st).
Proof.
  intros Hk Hn L. eapply call_spec.
  - rewrite (proj1 (begin_normalize kd _)), Hn. by apply opened_begin.
  - split; [|done]. exists ptree_new, (key_buffer (opened kd c0 ptree_new)).
    rewrite with_key_self. by destruct Hk as [-> | ->].
Qed.

Lemma end_spec kd st st0 :
  kd = Array ∨ kd = Object → container_open kd st → (len st < len st0)%nat →
  good (reads (built c0) st0) ((_ ← call end_container; mret true) st).
Proof.
  intros Hk (n & kb & Hn) L. eapply good_bind with
    (R := λ _ st', built c0 (cbs st') ∧ (len st' < len st0)%nat);
    [|by intros _ st' [? ?]].
  eapply call_spec; [by eapply end_container_opened|]. split; [|done].
  exists n, kb. by apply attach_normal.
Qed.

Lemma element_spec st :
  container_open Array st → (len st < bound)%nat →
  good (λ _ st', container_open Array st' ∧ (len st' < len st)%nat)
    ((_ ← value; skip_ws) st).
Proof.
  intros (n & kb & Hn) L. destruct (attach_array c0 n kb ptree_new Hc0) as [Hca _].
  eapply good_bind; [by eapply value_spec|]. intros _ st1 [(v & kb' & H1) L1].
  eapply good_mono; [apply skip_ws_spec|]. intros _ st2 (H2 & _ & L2).
  split; [|lia]. destruct (attach_array c0 n kb v Hc0) as [_ E].
  rewrite E in H1. eexists _, kb'. rewrite H2, H1. done.
Qed.

Lemma member_spec st :
  container_open Object st → (len st < bound)%nat →
  good (λ _ st', container_open Object st' ∧ (len st' < len st)%nat)
    (parse_member value st).
Proof.
  intros (n & kb & Hn) L. unfold parse_member.
  eapply good_bind; [apply (parse_string_spec (key_text c0 n)); [done|]|].
  { by rewrite begin_string_normalize, Hn. }
  intros [|] st1; [|intros _; jerr]. intros [[s H1] L1].
  eapply good_bind; [apply skip_ws_spec|]. intros _ st2 (H2 & _ & L2).
  apply expect_then. intros st3 H3 L3.
  destruct (attach_key c0 n s ptree_new Hc0) as [Hca _].
  eapply good_bind; [eapply value_spec; [exact Hca| |lia]|].
  { rewrite H3, H2, H1. by apply can_attach_norm. }
  intros _ st4 [(v & kb' & H4) L4].
  eapply good_mono; [apply skip_ws_spec|]. intros _ st5 (H5 & _ & L5).
  split; [|lia]. destruct (attach_key c0 n s v Hc0) as [_ E].
  rewrite E in H4. eexists _, kb'. rewrite H5, H4. done.
Qed.

Lemma parse_array_spec st :
  normalize (cbs st) = c0 → (len st ≤ bound)%nat →
  good (reads (built c0) st) (parse_array value st).
Proof.
  intros Hn L. apply start_spec. intros st1 H1 L1.
  eapply good_bind; [apply (begin_spec Array); [by left|congruence|done]|].
  intros _ st2 [H2 L2]. eapply good_bind; [apply skip_ws_spec|].
  intros _ st3 (H3 & _ & L3). eapply good_bind; [apply have_spec|].
  intros [|] st4 (H4 & _ & L4).
  - apply (end_spec Array); [by left| |lia].
    eapply container_open_cbs; [done|congruence].
  - subst st4. unfold with_fuel. eapply good_bind.
    { apply (do_while_comma_spec (container_open Array) bound).
      - apply element_spec.
      - apply container_open_cbs.
      - by eapply container_open_cbs.
      - unfold len; lia.
      - lia. }
    intros _ st4 [H5 L5]. apply expect_then. intros st5 H6 L6.
    apply (end_spec Array); [by left|by eapply container_open_cbs|lia].
Qed.

Lemma parse_object_spec st :
  normalize (cbs st) = c0 → (len st ≤ bound)%nat →
  good (reads (built c0) st) (parse_object value st).
Proof.
  intros Hn L. apply start_spec. intros st1 H1 L1.
  eapply good_bind; [apply (begin_spec Object); [by right|congruence|done]|].
  intros _ st2 [H2 L2]. eapply good_bind; [apply skip_ws_spec|].
  intros _ st3 (H3 & _ & L3). eapply good_bind; [apply have_spec|].
  intros [|] st4 (H4 & _ & L4).
  - apply (end_spec Object); [by right| |lia].
    eapply container_open_cbs; [done|congruence].
  - subst st4. unfold with_fuel. eapply good_bind.
    { apply (do_while_comma_spec (container_open Object) bound).
      - apply member_spec.
      - apply container_open_cbs.
      - by eapply container_open_cbs.
      - unfold len; lia.
      - lia. }
    intros _ st4 [H5 L5]. apply expect_then. intros st5 H6 L6.
    apply (end_spec Object); [by right|by eapply container_open_cbs|lia].
Qed.
End Containers.

Lemma parse_value_spec fuel c st :
  can_attach c → normalize (cbs st) = c → (len st < fuel)%nat →
  good (λ _ st', built c (cbs st') ∧ (len st' < len st)%nat) (parse_value fuel st).
Proof.
  revert c st; induction fuel as [|fuel IH]; intros c st Hc Hn L; [lia|].
  cbn [parse_value].
  eapply good_bind; [apply (parse_object_spec _ fuel IH c); [done..|lia]|].
  intros [|] st1; [by intros []|]. intros [H1 L1].
  eapply good_bind; [apply (parse_array_spec _ fuel IH c); [done|congruence|lia]|].
  intros [|] st2; [intros [? ?]; split; [done|lia]|]. intros [H2 L2].
  eapply good_mono; [apply (parse_scalar_spec c); [done|congruence]|].
  intros _ st3 [? ?]. split; [done|lia].
Qed.

(** What a caller of [read_json] has to expect. *)
Definition tree_or_parser_error (o : outcome ptree) : Prop :=
  (∃ t, o = Ok t) ∨ (∃ msg l, o = Fail (Exn (json_parser_error msg l))).

(** C20: on every byte string the JSON reader terminates, and ends with a tree or
    with [json_parser_error]: it never reads past the end of the input, pops an
    empty layer stack, writes through a dangling layer or fails an assertion. *)
Theorem read_json_total (body : string) : tree_or_parser_error (read_json body).
Proof.
  unfold read_json.
  set (st := {| src := set_input body; cbs := callbacks_new; first := true |}).
  assert (good (λ _ _, True) ((_ ← with_fuel parse_value; finish) st)) as H.
  { eapply good_bind; [apply (parse_value_spec _ callbacks_new);
      [reflexivity|reflexivity|unfold len; lia]|].
    intros _ st1 _. unfold finish. eapply good_bind; [apply skip_ws_spec|].
    intros _ st2 _. unfold done. st_unfold.
    destruct (cur (src st2)); [exact I|jerr]. }
  destruct ((_ ← with_fuel parse_value; finish) st) as [[[] st']|f]; cbn in *.
  - left. by eexists.
  - right. destruct H as (msg & l & ->). by exists msg, l.
Qed.
