(* ===== verification/JsonGrammar.v ===== *)
(** * The JSON texts the reader accepts

    A grammar of JSON texts with the property tree each denotes, written
    independently of the parser, and the proof that [read_json] reads every
    text of the grammar as that tree. *)

From S2P Require Import Prelude Ptree JsonRead JsonSafe.

Local Open Scope Z_scope.

(** ** The grammar *)

Definition is_hex (c : ascii) : bool := 0 <=? decode_hexdigit c.
Fixpoint hex_value (acc : Z) (q : string) : Z :=
  match q with
  | EmptyString => acc
  | String c q => hex_value (acc * 16 + decode_hexdigit c) q
  end.
Definition hex4 (q : string) (codepoint : Z) : Prop :=
  String.length q = 4%nat ∧ str_forallb is_hex q = true ∧ hex_value 0 q = codepoint.

(** A byte that stands for itself. *)
Definition plain (c : ascii) : bool :=
  (0x20 <=? code c) && (code c <=? 0x7f) && negb (is_quote c) && negb (is_backslash c).

(** The one-letter escapes. *)
Definition escape_value (c : ascii) : option Z :=
  (λ e, e.2) <$> find (λ e, e.1 c) escapes.

(** [string_text s x]: the string [s] may be written [x] between quotes. *)
Inductive string_text : string → string → Prop :=
| ST_nil : string_text EmptyString EmptyString
| ST_plain c s x :
    plain c = true → string_text s x → string_text (String c s) (String c x)
| ST_utf8 c t s x :
    0x7f < code c → 0 < trail_table c → Z.of_nat (String.length t) = trail_table c →
    str_forallb is_trail t = true → string_text s x →
    string_text (String c (t +:+ s)) (String c (t +:+ x))
| ST_escape c z s x :
    escape_value c = Some z → string_text s x →
    string_text (String (chr z) s) (String backslash (String c x))
| ST_unicode q z s x :
    hex4 q z → is_surrogate_low z = false → is_surrogate_high z = false →
    string_text s x →
    string_text (feed_codepoint z +:+ s) (String backslash (String "u" (q +:+ x)))
| ST_surrogates q h q' l s x :
    hex4 q h → is_surrogate_high h = true → hex4 q' l → is_surrogate_low l = true →
    string_text s x →
    string_text (feed_codepoint (combine_surrogates h l) +:+ s)
      (String backslash (String "u" (q +:+
        String backslash (String "u" (q' +:+ x))))).

Definition ws (w : string) : Prop := str_forallb is_ws w = true.
Definition digits (d : string) : Prop := str_forallb is_digit d = true.

(** Numbers: sign, integer part, fraction and exponent. *)
Definition int_text (x : string) : Prop :=
  x = "0" ∨ ∃ c d, x = String c d ∧ is_digit0 c = true ∧ digits d.
Definition frac_text (x : string) : Prop :=
  x = EmptyString ∨ ∃ d, x = String "." d ∧ digits d ∧ d ≠ EmptyString.
Definition exp_text (x : string) : Prop :=
  x = EmptyString ∨
  ∃ e sg d, x = String e (sg +:+ d) ∧ is_eE e = true ∧
    (sg = EmptyString ∨ sg = "+" ∨ sg = "-") ∧ digits d ∧ d ≠ EmptyString.
Definition number_text (x : string) : Prop :=
  ∃ sg i f e, x = sg +:+ i +:+ f +:+ e ∧ (sg = EmptyString ∨ sg = "-") ∧
    int_text i ∧ frac_text f ∧ exp_text e.

(** [value_text t x]: the text [x] denotes the tree [t].  Elements of an array
    are the children with the empty key. *)
Inductive value_text : ptree → string → Prop :=
| VT_string s x :
    string_text s x → value_text (Node s []) (QUOTE +:+ x +:+ QUOTE)
| VT_literal x :
    x ∈ ["null"; "true"; "false"] → value_text (Node x []) x
| VT_number x :
    number_text x → value_text (Node x []) x
| VT_array0 w :
    ws w → value_text ptree_new ("[" +:+ w +:+ "]")
| VT_array cs x :
    elements_text cs x → value_text (Node EmptyString cs) ("[" +:+ x +:+ "]")
| VT_object0 w :
    ws w → value_text ptree_new ("{" +:+ w +:+ "}")
| VT_object cs x :
    members_text cs x → value_text (Node EmptyString cs) ("{" +:+ x +:+ "}")
with elements_text : list (string * ptree) → string → Prop :=
| ET_one w v x w' :
    ws w → value_text v x → ws w' →
    elements_text [(EmptyString, v)] (w +:+ x +:+ w')
| ET_cons w v x w' cs y :
    ws w → value_text v x → ws w' → elements_text cs y →
    elements_text ((EmptyString, v) :: cs) (w +:+ x +:+ w' +:+ "," +:+ y)
with members_text : list (string * ptree) → string → Prop :=
| MT_one m kv : member_text kv m → members_text [kv] m
| MT_cons m kv cs y :
    member_text kv m → members_text cs y → members_text (kv :: cs) (m +:+ "," +:+ y)
with member_text : string * ptree → string → Prop :=
| MT w k kx w1 w2 v x w3 :
    ws w → string_text k kx → ws w1 → ws w2 → value_text v x → ws w3 →
    member_text (k, v)
      (w +:+ QUOTE +:+ kx +:+ QUOTE +:+ w1 +:+ ":" +:+ w2 +:+ x +:+ w3).

(** A whole document: white space may surround the value. *)
Definition json_text (t : ptree) (x : string) : Prop :=
  ∃ w y w', x = w +:+ y +:+ w' ∧ ws w ∧ value_text t y ∧ ws w'.

Scheme value_text_mind := Induction for value_text Sort Prop
with elements_text_mind := Induction for elements_text Sort Prop
with members_text_mind := Induction for members_text Sort Prop
with member_text_mind := Induction for member_text Sort Prop.
Combined Scheme value_text_mutind from value_text_mind, elements_text_mind,
  members_text_mind, member_text_mind.

(** ** Exact runs *)

(** [m] succeeds from [st] with a result and a state that satisfy [Q]. *)
Definition runs {A} (Q : A → pstate → Prop) (o : outcome (A * pstate)) : Prop :=
  match o with Ok (a, st) => Q a st | Fail _ => False end.

Lemma runs_bind {A B} (R : A → pstate → Prop) (Q : B → pstate → Prop)
    (m : P A) (f : A → P B) st :
  runs R (m st) → (∀ a st', R a st' → runs Q (f a st')) → runs Q ((m ≫= f) st).
Proof. unfold mbind, st_bind. destruct (m st) as [[a st']|e]; cbn; [auto|done]. Qed.
Lemma runs_mono {A} (R Q : A → pstate → Prop) o :
  runs R o → (∀ a st', R a st' → Q a st') → runs Q o.
Proof. destruct o as [[a st']|e]; cbn; auto. Qed.

(** Run the first statement with [t] and name its results. *)
Tactic Notation "rbind" tactic3(t) "as" simple_intropattern_list(p) :=
  eapply runs_bind; [t | cbv beta; intros p].

(** The input left is [x] and the callbacks are [c]. *)
Definition at_ (x : string) (c : callbacks) (st : pstate) : Prop :=
  cur (src st) = x ∧ cbs st = c.

Lemma next_run ch x c st :
  at_ (String ch x) c st → runs (λ _, at_ x c) (next st).
Proof.
  intros [H1 H2]. unfold next. rewrite H1. cbn. split; [by destruct (is_nl ch)|done].
Qed.

Lemma have_true p ch x c st :
  p ch = true → at_ (String ch x) c st →
  runs (λ b st', b = true ∧ at_ x c st') (have p st).
Proof.
  intros Hp [H1 H2]. unfold have, have_do. rewrite H1, Hp.
  st_unfold. unfold do_nothing, next. st_unfold. rewrite H1. cbn.
  split; [done|]. split; [by destruct (is_nl ch)|done].
Qed.

(** The first character of [x] fails [p], or there is none. *)
Definition stops (p : ascii → bool) (x : string) : Prop :=
  match x with EmptyString => True | String c _ => p c = false end.

Lemma have_false p x c st :
  stops p x → at_ x c st → have p st = Ok (false, st).
Proof.
  intros Hp [H1 H2]. unfold have, have_do. rewrite H1.
  destruct x as [|ch x]; [done|]. cbn in Hp. by rewrite Hp.
Qed.

Lemma expect_run p msg ch x c st :
  p ch = true → at_ (String ch x) c st → runs (λ _, at_ x c) (expect p msg st).
Proof.
  intros Hp H. unfold expect, expect_do. eapply runs_bind.
  - by apply (have_true p ch x c st).
  - intros b st' [-> H']. done.
Qed.

Lemma while_ws_run w x c fuel st :
  ws w → stops is_ws x → at_ (w +:+ x) c st → (len st < fuel)%nat →
  runs (λ _, at_ x c) (while_have is_ws do_nothing fuel st).
Proof.
  revert st fuel; induction w as [|ch w IH]; intros st [|fuel] Hw Hs H L; try lia.
  - cbn [while_have]. change (have_do is_ws do_nothing) with (have is_ws).
    unfold mbind, st_bind. by rewrite (have_false is_ws x c st Hs H).
  - cbn [while_have]. change (have_do is_ws do_nothing) with (have is_ws).
    apply andb_prop in Hw as [Hc Hw]. rewrite str_app_cons in H.
    rbind (by apply (have_true is_ws ch (w +:+ x) c)) as b st' [-> H']. apply IH; [done..|].
    unfold len in *. destruct H as [H _], H' as [H' _]. rewrite H in L. rewrite H'.
    cbn in L. lia.
Qed.

Lemma skip_ws_run w x c st :
  ws w → stops is_ws x → at_ (w +:+ x) c st → runs (λ _, at_ x c) (skip_ws st).
Proof. intros. eapply while_ws_run; [done..|unfold len; lia]. Qed.

(** ** Strings *)

Section Strings.
Context (T : string → callbacks).
Hypothesis T_unit : ∀ s ch, on_code_unit ch (T s) = Ok (T (s +:+ str1 ch)).

Lemma unit_run ch a x st :
  at_ x (T a) st → runs (λ _, at_ x (T (a +:+ str1 ch))) (call (on_code_unit ch) st).
Proof. intros [H1 H2]. unfold call. by rewrite H2, T_unit. Qed.

Lemma emit_run s a x st :
  at_ x (T a) st → runs (λ _, at_ x (T (a +:+ s))) (emit s st).
Proof.
  revert a st; induction s as [|ch s IH]; intros a st H.
  { cbn. by rewrite str_app_nil_r. }
  cbn [emit]. rbind (by apply unit_run) as _ st1 H1.
  rewrite <- str1_app, <- str_app_assoc. by apply IH.
Qed.

Lemma raw_next_run ch x c st :
  at_ (String ch x) c st → runs (λ _, at_ x c) (raw_next st).
Proof. intros [H1 H2]. unfold raw_next. by rewrite H1. Qed.

Lemma need_cur_run msg ch x c st :
  at_ (String ch x) c st → runs (λ ch' st', ch' = ch ∧ st' = st) (need_cur msg st).
Proof. intros [H1 H2]. unfold need_cur. by rewrite H1. Qed.

Lemma trail_run t a x st :
  str_forallb is_trail t = true → at_ (t +:+ x) (T a) st →
  runs (λ _, at_ x (T (a +:+ t))) (transcode_trail (String.length t) st).
Proof.
  revert a st; induction t as [|ch t IH]; intros a st Ht H.
  { cbn. by rewrite str_app_nil_r. }
  cbn in Ht. apply andb_prop in Ht as [Hch Ht]. rewrite str_app_cons in H.
  cbn [transcode_trail String.length].
  eapply runs_bind with (R := λ st' st'', st' = st ∧ st'' = st); [done|].
  intros ? ? [-> ->]. rewrite (proj1 H), Hch. cbn [negb].
  rbind (by apply unit_run) as _ st1 H1.
  rbind (by eapply raw_next_run) as _ st2 H2.
  rewrite <- str1_app, <- str_app_assoc. by apply IH.
Qed.

Lemma transcode_plain c a x st :
  0x20 ≤ code c ≤ 0x7f → at_ (String c x) (T a) st →
  runs (λ _, at_ x (T (a +:+ str1 c))) (transcode_codepoint st).
Proof.
  intros Hc H. rbind (by eapply need_cur_run) as ? ? [-> ->].
  rbind (by eapply raw_next_run) as _ st1 H1.
  replace (code c <=? 0x7f) with true by (symmetry; lia).
  replace (code c <? 0x20) with false by (symmetry; lia). by apply unit_run.
Qed.

Lemma transcode_utf8 c t a x st :
  0x7f < code c → 0 < trail_table c → Z.of_nat (String.length t) = trail_table c →
  str_forallb is_trail t = true → at_ (String c (t +:+ x)) (T a) st →
  runs (λ _, at_ x (T (a +:+ String c t))) (transcode_codepoint st).
Proof.
  intros Hc Hk Hl Ht H. rbind (by eapply need_cur_run) as ? ? [-> ->].
  rbind (by eapply raw_next_run) as _ st1 H1.
  replace (code c <=? 0x7f) with false by (symmetry; lia).
  replace (trail_table c =? -1) with false by (symmetry; lia).
  rbind (by apply unit_run) as _ st2 H2.
  rewrite <- Hl, Nat2Z.id. rewrite <- str1_app, <- str_app_assoc. by apply trail_run.
Qed.

Lemma escape_in_run es c z a x st :
  (λ e, e.2) <$> find (λ e, e.1 c) es = Some z → at_ (String c x) (T a) st →
  runs (λ _, at_ x (T (a +:+ feed_codepoint z))) (parse_escape_in es st).
Proof.
  intros Hz H. induction es as [|[p cp] es IH]; [done|]. cbn in Hz.
  destruct (p c) eqn:E; cbn [parse_escape_in].
  - cbn in Hz. simplify_eq. rbind (by eapply have_true) as b st1 [-> H1]. by apply emit_run.
  - unfold mbind, st_bind. erewrite have_false; [by apply IH| |done]. done.
Qed.

Lemma escape_u_run es Q c x st :
  find (λ e, e.1 "u"%char) es = None → at_ (String "u" x) c st →
  (∀ st', at_ x c st' → runs Q (parse_codepoint_ref st')) →
  runs Q (parse_escape_in es st).
Proof.
  intros Hz H Hr. induction es as [|[p cp] es IH]; cbn [parse_escape_in].
  - rbind (by eapply (have_true (is_letter "u") "u")) as b st1 [-> H1]. by apply Hr.
  - cbn in Hz. destruct (p "u"%char) eqn:E; [done|].
    unfold mbind, st_bind. erewrite have_false; [by apply IH| |done]. done.
Qed.

Lemma escape_value_feed c z :
  escape_value c = Some z → feed_codepoint z = str1 (chr z).
Proof.
  unfold escape_value. destruct (find _ escapes) as [[p cp]|] eqn:E; [|done].
  cbn. intros [= <-]. apply find_some in E as [E _]. cbn in E.
  by repeat destruct E as [[= _ <-]|E].
Qed.

Lemma hex_digit_bound c : is_hex c = true → 0 <= decode_hexdigit c < 16.
Proof.
  unfold is_hex, decode_hexdigit. intros H.
  repeat match goal with |- context [if ?b then _ else _] => destruct b eqn:? end; lia.
Qed.

Lemma hex_go_run q n acc c x st :
  n = String.length q → str_forallb is_hex q = true →
  0 <= acc → (acc + 1) * 16 ^ Z.of_nat n <= 2 ^ 32 →
  at_ (q +:+ x) c st →
  runs (λ z st', z = hex_value acc q ∧ at_ x c st') (parse_hex_quad_go n acc st).
Proof.
  revert n acc st; induction q as [|ch q IH]; intros n acc st -> Hq Ha Hb H; [done|].
  cbn in Hq. apply andb_prop in Hq as [Hc Hq]. rewrite str_app_cons in H.
  pose proof (hex_digit_bound ch Hc). cbn [parse_hex_quad_go String.length hex_value].
  rbind (by eapply need_cur_run) as ? ? [-> ->].
  replace (decode_hexdigit ch <? 0) with false by (symmetry; lia).
  rbind (by eapply next_run) as _ st1 H1.
  cbn [String.length] in Hb. rewrite Nat2Z.inj_succ, Z.pow_succ_r in Hb by lia.
  pose proof (Z.pow_pos_nonneg 16 (Z.of_nat (String.length q))).
  assert (acc * 16 + decode_hexdigit ch < 2 ^ 32) by nia.
  unfold u32. rewrite (Z.mod_small (acc * 16)), Z.mod_small by lia.
  apply IH; [done|done|lia| |done]. nia.
Qed.

Lemma hex_quad_run q z c x st :
  hex4 q z → at_ (q +:+ x) c st →
  runs (λ z' st', z' = z ∧ at_ x c st') (parse_hex_quad st).
Proof.
  intros (Hl & Hq & <-) H. apply hex_go_run; [done|done|lia| |done].
  cbn. lia.
Qed.

Lemma high_byte c : 0x7f < code c → is_quote c = false ∧ is_backslash c = false.
Proof.
  intros H. split; apply Ascii.eqb_neq; intros ->; by cbv in H.
Qed.

Lemma high_not_low z : is_surrogate_high z = true → is_surrogate_low z = false.
Proof. unfold is_surrogate_high, is_surrogate_low. lia. Qed.

Lemma string_loop_run s x rest :
  string_text s x → ∀ a fuel st,
  at_ (x +:+ String dquote rest) (T a) st → (len st < fuel)%nat →
  runs (λ _, at_ (String dquote rest) (T (a +:+ s))) (string_loop fuel st).
Proof.
  (* one turn of the loop on a unit that starts with [c] *)
  assert (∀ c y x' u s a fuel st,
    at_ (String c y) (T a) st → is_quote c = false → (len st < S fuel)%nat →
    (String.length x' ≤ String.length y)%nat →
    runs (λ _, at_ x' (T (a +:+ u)))
      ((if is_backslash c then _ ← next; parse_escape else transcode_codepoint) st) →
    (∀ st', at_ x' (T (a +:+ u)) st' → (len st' < fuel)%nat →
       runs (λ _, at_ (String dquote rest) (T ((a +:+ u) +:+ s)))
         (string_loop fuel st')) →
    runs (λ _, at_ (String dquote rest) (T (a +:+ (u +:+ s))))
      (string_loop (S fuel) st)) as turn.
  { intros c y x' u s' a fuel st H Hq L Hl Hb Hr. cbn [string_loop].
    rbind (by eapply need_cur_run) as ? ? [-> ->]. rewrite Hq.
    rbind (exact Hb) as _ st1 H1. rewrite <- str_app_assoc. apply Hr; [done|].
    unfold len in *. rewrite (proj1 H) in L. rewrite (proj1 H1). cbn in L. lia. }
  induction 1 as [|c s x Hp _ IH|c t s x Hc Hk Hl Ht _ IH|c z s x Hz _ IH
    |q z s x Hq Hlo Hhi _ IH|q h q' l s x Hq Hh Hq' Hl _ IH];
    intros a [|fuel] st H L; try lia.
  - cbn [string_loop]. rbind (by eapply need_cur_run) as ? ? [-> ->].
    rewrite str_app_nil_r. exact H.
  - unfold plain in Hp. rewrite !andb_true_iff, !negb_true_iff in Hp.
    destruct Hp as [[[? ?] ?] Hb]. change (String c s) with (str1 c +:+ s).
    eapply turn; [exact H|done|done|..]; [reflexivity| |intros; by apply IH].
    rewrite Hb. apply transcode_plain; [lia|exact H].
  - change (String c (t +:+ s)) with (String c t +:+ s).
    rewrite str_app_cons, str_app_assoc in H. destruct (high_byte c Hc) as [? Hb].
    eapply turn; [exact H|done|done|..]; [| |intros; by apply IH].
    { rewrite (str_length_app t). lia. }
    rewrite Hb. by apply transcode_utf8.
  - change (String (chr z) s) with (str1 (chr z) +:+ s).
    rewrite !str_app_cons in H.
    eapply turn; [exact H|done|done|..]; [| |intros; by apply IH].
    { cbn. lia. }
    cbn [is_backslash Ascii.eqb]. rbind (by eapply next_run) as _ st1 H1.
    rewrite <- (escape_value_feed c z Hz). by apply (escape_in_run escapes c z a).
  - rewrite !str_app_cons, str_app_assoc in H.
    eapply turn; [exact H|done|done|..]; [| |intros; by apply IH].
    { repeat (rewrite str_length_app || cbn [String.length]). lia. }
    rbind (by eapply next_run) as _ st1 H1.
    apply (escape_u_run escapes _ _ _ _ eq_refl H1). intros st2 H2.
    unfold parse_codepoint_ref. rbind (by eapply hex_quad_run) as ? st3 [-> H3].
    rewrite Hlo, Hhi. by apply emit_run.
  - rewrite !str_app_cons, str_app_assoc, !str_app_cons, str_app_assoc in H.
    eapply turn; [exact H|done|done|..]; [| |intros; by apply IH].
    { repeat (rewrite str_length_app || cbn [String.length]). lia. }
    rbind (by eapply next_run) as _ st1 H1.
    apply (escape_u_run escapes _ _ _ _ eq_refl H1). intros st2 H2.
    unfold parse_codepoint_ref. rbind (eapply hex_quad_run; [exact Hq|exact H2]) as ? st3 [-> H3].
    rewrite (high_not_low _ Hh), Hh.
    rbind (by eapply expect_run; [|exact H3]) as _ st4 H4.
    rbind (by eapply expect_run; [|exact H4]) as _ st5 H5.
    rbind (eapply hex_quad_run; [exact Hq'|exact H5]) as ? st6 [-> H6].
    rewrite Hl. by apply emit_run.
Qed.

(** A quoted string, after white space. *)
Lemma parse_string_run s x w rest c st :
  string_text s x → ws w → on_begin_string c = Ok (T EmptyString) →
  at_ (w +:+ QUOTE +:+ x +:+ QUOTE +:+ rest) c st →
  runs (λ b st', b = true ∧ at_ rest (T s) st') (parse_string st).
Proof.
  intros Hx Hw Hb H. unfold parse_string.
  rbind (eapply (skip_ws_run w); [done| |exact H]; done) as _ st1 H1.
  rbind (eapply have_true; [|exact H1]; done) as b st2 [-> H2]. cbn [negb].
  eapply runs_bind with (R := λ _, at_ (x +:+ QUOTE +:+ rest) (T EmptyString)).
  { unfold call. rewrite (proj2 H2), Hb. split; [apply H2|done]. }
  intros _ st3 H3.
  rbind (by apply (string_loop_run s x rest Hx EmptyString); [|unfold len; lia])
    as _ st4 H4.
  rbind (by eapply next_run) as _ st5 H5. done.
Qed.
End Strings.

(** ** Values *)

(** The tree [v] has been added to [c] and [rest] is left. *)
Definition parsed (v : ptree) (c : callbacks) (rest : string) (st : pstate) : Prop :=
  cur (src st) = rest ∧ ∃ kb, normalize (cbs st) = with_key kb (attach v c).

(** Ready to read [x] into [c]. *)
Definition before (x : string) (c : callbacks) (st : pstate) : Prop :=
  cur (src st) = x ∧ normalize (cbs st) = c.

Lemma at_before x c st : at_ x (cbs st) st → normalize (cbs st) = c → before x c st.
Proof. intros [? _] ?. done. Qed.
Lemma before_at x c st : before x c st → at_ x (cbs st) st.
Proof. by intros [? _]. Qed.

Lemma before_keep x y c st st' : before x c st → at_ y (cbs st) st' → before y c st'.
Proof. intros [_ <-] [? E]. split; [done|]. by rewrite E. Qed.

(** An alternative that does not apply consumes the white space only. *)
Lemma start_false p (f : P bool) w y c st :
  ws w → stops is_ws y → stops p y → before (w +:+ y) c st →
  runs (λ b st', b = false ∧ before y c st')
    ((_ ← skip_ws; b ← have p; if negb b then mret false else f) st).
Proof.
  intros Hw Hs Hp H. rbind (eapply (skip_ws_run w); [done..|by eapply before_at]) as _ st1 H1.
  unfold mbind, st_bind. rewrite (have_false p y (cbs st) st1 Hp H1).
  split; [done|by eapply before_keep].
Qed.

Lemma start_true p (f : P bool) w ch y c st Q :
  ws w → is_ws ch = false → p ch = true → before (w +:+ String ch y) c st →
  (∀ st', before y c st' → runs Q (f st')) →
  runs Q ((_ ← skip_ws; b ← have p; if negb b then mret false else f) st).
Proof.
  intros Hw Hs Hp H Hf.
  rbind (eapply (skip_ws_run w); [done| |by eapply before_at]; done) as _ st1 H1.
  rbind (eapply have_true; [exact Hp|exact H1]) as b st2 [-> H2].
  apply Hf. by eapply before_keep.
Qed.

Lemma expect_before p msg ch x c st :
  p ch = true → before (String ch x) c st → runs (λ _, before x c) (expect p msg st).
Proof.
  intros Hp H. eapply runs_mono; [eapply expect_run; [exact Hp|by eapply before_at]|].
  intros ? st' H'. by eapply before_keep.
Qed.

Lemma literal_step p msg ch x c st {A} (f : P A) Q :
  p ch = true → before (String ch x) c st →
  (∀ st', before x c st' → runs Q (f st')) → runs Q ((_ ← expect p msg; f) st).
Proof.
  intros Hp H Hf. rbind (by eapply expect_before) as _ st1 H1. by apply Hf.
Qed.

Lemma assign_run v x c st :
  can_attach c → before x c st →
  runs (λ b st', b = true ∧ parsed (Node v []) c x st')
    ((_ ← call (assign_new_value v); mret true) st).
Proof.
  intros Hc [H1 H2]. unfold call. st_unfold. rewrite assign_normalize, H2.
  rewrite assign_new_value_attach by done. split; [done|]. split; [exact H1|].
  exists (key_buffer c).
  change (normalize (opened Leaf c (Node v [])) = with_key (key_buffer c) (attach (Node v []) c)).
  rewrite normalize_opened_leaf. destruct (attach_stack (Node v []) (Node v []) c) as [_ <-].
  by rewrite with_key_self.
Qed.

(** The literals, through the alternatives of [parse_scalar]. *)
Lemma literal_run l w rest c st :
  l ∈ ["null"; "true"; "false"] → ws w → can_attach c →
  before (w +:+ l +:+ rest) c st →
  runs (λ _, parsed (Node l []) c rest) (parse_scalar st).
Proof.
  intros Hl Hw Hc H. unfold parse_scalar.
  assert (∃ ch y, l = String ch y ∧ is_ws ch = false ∧ is_quote ch = false) as
    (ch & y & El & Hs & Hq).
  { set_unfold in Hl. destruct Hl as [->|[->|[->|[]]]]; eauto. }
  rbind (eapply (start_false is_quote _ w (l +:+ rest)); [done| | |exact H];
    rewrite El; done) as b st1 [-> H1].
  set_unfold in Hl. destruct Hl as [->|[->|[->|[]]]].
  - eapply runs_bind with (R := λ b st', b = false ∧ before ("null" +:+ rest) c st').
    { unfold parse_boolean.
      rbind (eapply (skip_ws_run EmptyString ("null" +:+ rest)); [done..|];
        by eapply before_at) as _ st2 H2.
      unfold mbind, st_bind.
      rewrite (have_false (is_letter "t") ("null" +:+ rest) _ st2 eq_refl H2).
      rewrite (have_false (is_letter "f") ("null" +:+ rest) _ st2 eq_refl H2). split; [done|by eapply before_keep]. }
    intros b st2 [-> H2].
    eapply runs_bind.
    { eapply (start_true (is_letter "n") _ EmptyString "n"); [done..|exact H2|].
      intros st3 H3. cbn. do 3 (eapply literal_step; [|eassumption|];
        [done|clear; intros ? ?]). by apply assign_run. }
    by intros b st3 [-> H3].
  - eapply runs_bind.
    { unfold parse_boolean.
      rbind (eapply (skip_ws_run EmptyString ("true" +:+ rest)); [done..|];
        by eapply before_at) as _ st2 H2.
      rbind (eapply have_true; [|exact H2]; done) as b st3 [-> H3].
      assert (before ("rue" +:+ rest) c st3) as H4.
      { by eapply before_keep. }
      clear -H4 Hc. do 3 (eapply literal_step; [|eassumption|];
        [done|clear -Hc; intros ? ?]). by apply assign_run. }
    by intros b st3 [-> H3].
  - eapply runs_bind.
    { unfold parse_boolean.
      rbind (eapply (skip_ws_run EmptyString ("false" +:+ rest)); [done..|];
        by eapply before_at) as _ st2 H2.
      unfold mbind at 1, st_bind at 1.
      rewrite (have_false (is_letter "t") ("false" +:+ rest) _ st2 eq_refl H2).
      rbind (eapply have_true; [|exact H2]; done) as b st3 [-> H3].
      assert (before ("alse" +:+ rest) c st3) as H4.
      { by eapply before_keep. }
      clear -H4 Hc. do 4 (eapply literal_step; [|eassumption|];
        [done|clear -Hc; intros ? ?]). by apply assign_run. }
    by intros b st3 [-> H3].
Qed.

(** ** Numbers *)

Section Numbers.
Context (c : callbacks) (Hc : can_attach c).

(** [x] is left and the digits so far are [a]. *)
Definition num_at (x a : string) (st : pstate) : Prop :=
  cur (src st) = x ∧
  (first st = true ∧ a = EmptyString ∧ normalize (cbs st) = c ∨
   first st = false ∧ cbs st = leaf_text c a).

Lemma num_true p ch x a st :
  p ch = true → implb (p ch) (negb (0x7f <? code ch)) = true →
  num_at (String ch x) a st →
  runs (λ b st', b = true ∧ num_at x (a +:+ str1 ch) st') (have_do p number_adapter st).
Proof.
  intros Hp Hi [H1 H2]. rewrite Hp in Hi. cbn in Hi. apply negb_true_iff in Hi.
  unfold have_do. rewrite H1, Hp.
  eapply runs_bind with (R := λ _ st', cur (src st') = String ch x ∧
    first st' = false ∧ cbs st' = leaf_text c (a +:+ str1 ch)).
  - unfold number_adapter. rewrite Hi.
    eapply runs_bind with (R := λ _ st', cur (src st') = String ch x ∧
      cbs st' = leaf_text c a).
    + destruct H2 as [(-> & -> & Hn)|[-> Hn]]; [|done].
      unfold call. change on_begin_number with on_begin_string.
      rewrite begin_string_leaf by (by rewrite Hn). by rewrite Hn.
    + intros _ st1 [E1 E2]. st_unfold. unfold call. cbn. rewrite E2.
      unfold on_digit. by rewrite leaf_text_unit.
  - intros _ st1 (E1 & E2 & E3). st_unfold. unfold next. rewrite E1. cbn.
    split; [done|]. split; [by destruct (is_nl ch)|]. by right.
Qed.

Lemma num_false p x a st :
  stops p x → num_at x a st → have_do p number_adapter st = Ok (false, st).
Proof.
  intros Hp [H1 _]. unfold have_do. rewrite H1.
  destruct x as [|ch x]; [done|]. cbn in Hp. by rewrite Hp.
Qed.

Lemma digit_ascii ch : implb (is_digit ch) (negb (0x7f <? code ch)) = true.
Proof. revert ch. ascii_all (λ c, implb (is_digit c) (negb (0x7f <? code c)%Z)). Qed.

Lemma digits_run d x a st :
  digits d → stops is_digit x → num_at (d +:+ x) a st →
  runs (λ _, num_at x (a +:+ d)) (parse_digits st).
Proof.
  intros Hd Hs H. unfold parse_digits, with_fuel.
  assert (len st < S (String.length (cur (src st))))%nat as Hf by (unfold len; lia).
  revert Hf. generalize (S (String.length (cur (src st)))) as fuel. intros fuel.
  revert a st fuel H; induction d as [|ch d IH]; intros a st [|fuel] H Hf; try lia;
    cbn [while_have].
  - rewrite str_app_nil_r. unfold mbind, st_bind. by rewrite (num_false is_digit x a st).
  - apply andb_prop in Hd as [Hch Hd]. rewrite str_app_cons in H.
    rbind (by eapply num_true; [| |exact H]; [|apply digit_ascii]) as b st1 [-> H1].
    rewrite <- str1_app, <- str_app_assoc. apply IH; [done|done|].
    unfold len in *. destruct H as [H _], H1 as [H1 _]. rewrite H in Hf. rewrite H1.
    cbn in Hf. lia.
Qed.

(** [expect] of one digit, then the rest of the run. *)
Lemma some_digits_run msg d x a st :
  digits d → d ≠ EmptyString → stops is_digit x → num_at (d +:+ x) a st →
  runs (λ _, num_at x (a +:+ d))
    ((_ ← expect_do is_digit msg number_adapter; parse_digits) st).
Proof.
  intros Hd Hne Hs H. destruct d as [|ch d]; [done|]. apply andb_prop in Hd as [Hch Hd].
  rewrite str_app_cons in H. unfold expect_do.
  eapply runs_bind with (R := λ _, num_at (d +:+ x) (a +:+ str1 ch)).
  - rbind (by eapply num_true; [| |exact H]; [|apply digit_ascii]) as b st1 [-> H1]. done.
  - intros _ st1 H1. rewrite <- str1_app, <- str_app_assoc. by apply digits_run.
Qed.

Lemma frac_run f x a st :
  frac_text f → stops is_digit x → stops is_dot x → num_at (f +:+ x) a st →
  runs (λ _, num_at x (a +:+ f)) (parse_frac_part st).
Proof.
  intros Hf Hs Hd H. unfold parse_frac_part. destruct Hf as [->|(d & -> & Hg & Hne)].
  - unfold mbind, st_bind. rewrite (num_false is_dot x a st) by done.
    by rewrite str_app_nil_r.
  - rewrite str_app_cons in H.
    rbind (by eapply num_true; [| |exact H]) as b st1 [-> H1].
    rewrite <- str1_app, <- str_app_assoc. by apply some_digits_run.
Qed.

Lemma eE_ascii ch : implb (is_eE ch) (negb (0x7f <? code ch)) = true.
Proof. revert ch. ascii_all (λ c, implb (is_eE c) (negb (0x7f <? code c)%Z)). Qed.

Lemma exp_run e x a st :
  exp_text e → stops is_digit x → stops is_eE x → num_at (e +:+ x) a st →
  runs (λ _, num_at x (a +:+ e)) (parse_exp_part st).
Proof.
  intros He Hs Hd H. unfold parse_exp_part.
  destruct He as [->|(ch & sg & d & -> & Hch & Hsg & Hg & Hne)].
  - unfold mbind, st_bind. rewrite (num_false is_eE x a st) by done.
    by rewrite str_app_nil_r.
  - rewrite str_app_cons, str_app_assoc in H.
    rbind (by eapply num_true; [| |exact H]; [|apply eE_ascii]) as b st1 [-> H1].
    eapply runs_bind with (R := λ _, num_at (d +:+ x) (a +:+ str1 ch +:+ sg)).
    + assert (stops is_plusminus (d +:+ x)) as Hpm.
      { destruct d as [|dc d]; [done|]. rewrite str_app_cons. cbn.
        apply andb_prop in Hg as [Hg _].
        pose proof (all_ascii_spec (λ c, implb (is_digit c) (negb (is_plusminus c)))
          eq_refl dc) as E; cbv beta in E. rewrite Hg in E. by apply negb_true_iff in E. }
      destruct Hsg as [->|[->| ->]].
      * rewrite (num_false is_plusminus (d +:+ x) (a +:+ str1 ch) st1) by done.
        by rewrite str_app_nil_r.
      * eapply runs_mono; [by eapply num_true; [| |exact H1]|].
        intros b st2 [_ H2]. by rewrite str_app_assoc in H2.
      * eapply runs_mono; [by eapply num_true; [| |exact H1]|].
        intros b st2 [_ H2]. by rewrite str_app_assoc in H2.
    + intros _ st2 H2.
      replace (a +:+ String ch (sg +:+ d)) with ((a +:+ str1 ch +:+ sg) +:+ d)
        by (by rewrite !str_app_assoc, str1_app).
      by apply some_digits_run.
Qed.

Lemma int_run i x a st :
  int_text i → stops is_digit x → num_at (i +:+ x) a st →
  runs (λ b st', b = true ∧ num_at x (a +:+ i) st')
    ((z ← have_do is_0 number_adapter;
      if z : bool then mret true else parse_int_part) st).
Proof.
  intros Hi Hs H. destruct Hi as [->|(ch & d & -> & Hch & Hd)].
  - rbind (by eapply num_true; [| |exact H]) as b st1 [-> H1]. done.
  - rewrite str_app_cons in H.
    pose proof (all_ascii_spec (λ c, implb (is_digit0 c) (negb (is_0 c)
      && negb (0x7f <? code c)%Z)) eq_refl ch) as E; cbv beta in E. rewrite Hch in E.
    apply andb_prop in E as [E0 E1]. apply negb_true_iff in E0.
    unfold mbind at 1, st_bind at 1.
    rewrite (num_false is_0 (String ch (d +:+ x)) a st E0 H).
    unfold parse_int_part.
    rbind (by eapply num_true; [exact Hch|by rewrite Hch|exact H]) as b st1 [-> H1].
    rbind (by apply (digits_run d x)) as _ st2 H2. split; [done|].
    by rewrite str_app_assoc in H2.
Qed.
End Numbers.

(** What may follow a number: nothing that would continue it. *)
Definition number_end (rest : string) : Prop :=
  stops is_digit rest ∧ stops is_dot rest ∧ stops is_eE rest.

Lemma stops_app p x y : stops p x → stops p y → stops p (x +:+ y).
Proof. by destruct x. Qed.
Lemma stops_impl (p q : ascii → bool) x :
  (∀ c, q c = true → p c = false) → (∃ c y, x = String c y ∧ q c = true) → stops p x.
Proof. intros H (c & y & -> & Hc). by apply H. Qed.

Lemma parse_number_run x rest w c st :
  can_attach c → number_text x → number_end rest → ws w →
  before (w +:+ x +:+ rest) c st → stops is_ws (x +:+ rest) →
  runs (λ b st', b = true ∧ parsed (Node x []) c rest st') (parse_number st).
Proof.
  intros Hc (sg & i & f & e & -> & Hsg & Hi & Hf & He) (Ed & Edot & Ee) Hw H Hs.
  rewrite !str_app_assoc in H, Hs.
  assert (∀ y, stops is_digit y → stops is_digit (e +:+ y)) as Sde.
  { intros y Hy. destruct He as [->|(ch & s & d & -> & Hch & _)]; [done|]. cbn.
    pose proof (all_ascii_spec (λ c, implb (is_eE c) (negb (is_digit c))) eq_refl ch) as E; cbv beta in E.
    rewrite Hch in E. by apply negb_true_iff in E. }
  assert (stops is_dot (e +:+ rest)) as Sdot.
  { destruct He as [->|(ch & s & d & -> & Hch & _)]; [done|]. cbn.
    pose proof (all_ascii_spec (λ c, implb (is_eE c) (negb (is_dot c))) eq_refl ch) as E; cbv beta in E.
    rewrite Hch in E. by apply negb_true_iff in E. }
  assert (stops is_digit (f +:+ e +:+ rest)) as Sdf.
  { destruct Hf as [->|(d & -> & _)]; [by apply Sde|done]. }
  unfold parse_number.
  rbind (eapply (skip_ws_run w); [done..|by eapply before_at]) as _ st1 H1.
  eapply runs_bind with (R := λ _, num_at c (sg +:+ i +:+ f +:+ e +:+ rest) EmptyString).
  { split; [by apply H1|]. left. split_and!; [done|done|].
    destruct H as [_ <-], H1 as [_ E]. cbn. by rewrite E. }
  intros _ st2 H2.
  eapply runs_bind with (R := λ _, num_at c (i +:+ f +:+ e +:+ rest) sg).
  { destruct Hsg as [->| ->].
    - rewrite (num_false c is_minus (i +:+ f +:+ e +:+ rest) EmptyString st2); [done| |done].
      destruct Hi as [->|(ch & d & -> & Hch & _)]; [done|]. cbn.
      pose proof (all_ascii_spec (λ c, implb (is_digit0 c) (negb (is_minus c))) eq_refl ch)
        as E; cbv beta in E. rewrite Hch in E. by apply negb_true_iff in E.
    - eapply runs_mono; [by eapply (num_true c Hc); [| |exact H2]|]. by intros b st3 [_ H3]. }
  intros started st3 H3.
  rbind (by apply (int_run c Hc i (f +:+ e +:+ rest) sg)) as b st4 [-> H4].
  rbind (apply (frac_run c Hc f (e +:+ rest)); [done|by apply Sde|done|exact H4])
    as _ st5 H5.
  rbind (apply (exp_run c Hc e rest); [done..|exact H5]) as _ st6 H6.
  split; [done|]. destruct H6 as [E6 [(_ & En & _)|[_ Ec]]].
  - destruct sg; [|done]. destruct Hi as [->|(ch & d & -> & _)]; done.
  - split; [done|]. rewrite Ec. unfold leaf_text. rewrite normalize_opened_leaf.
    rewrite !str_app_assoc. exists (key_buffer c).
    destruct (attach_stack (Node (sg +:+ i +:+ f +:+ e) []) ptree_new c) as [_ <-].
    by rewrite with_key_self.
Qed.

(** ** Containers *)

Definition append_children (n : ptree) (cs : list (string * ptree)) : ptree :=
  Node (ptree_data n) (ptree_children n ++ cs).

Lemma append_push n kv cs :
  append_children (ptree_push_back kv n) cs = append_children n (kv :: cs).
Proof. destruct n as [d cs']. unfold append_children. cbn. by rewrite <- app_assoc. Qed.
Lemma append_one n kv : append_children n [kv] = ptree_push_back kv n.
Proof. by destruct n. Qed.

(** The first character of a value is none of these. *)
Definition start_char (ch : ascii) : bool :=
  negb (is_ws ch) && negb (is_close_bracket ch) && negb (is_close_brace ch).

Lemma number_starts x :
  number_text x → ∃ ch y, x = String ch y ∧ (is_minus ch || is_digit ch) = true.
Proof.
  intros (sg & i & f & e & -> & Hsg & Hi & _).
  destruct Hsg as [->| ->]; [|by eexists _, _].
  destruct Hi as [->|(ch & d & -> & Hch & _)]; [by eexists _, _|].
  eexists ch, _. split; [reflexivity|]. unfold is_digit0 in Hch. unfold is_digit.
  apply orb_true_intro. right. lia.
Qed.

Lemma value_starts t x :
  value_text t x → ∃ ch y, x = String ch y ∧ start_char ch = true.
Proof.
  destruct 1 as [| x Hx | x Hx | | | |].
  - by eexists _, _.
  - set_unfold in Hx. destruct Hx as [->|[->|[->|[]]]]; by eexists _, _.
  - destruct (number_starts x Hx) as (ch & y & -> & H). exists ch, y. split; [done|].
    pose proof (all_ascii_spec (λ c, implb (is_minus c || is_digit c) (start_char c))
      eq_refl ch) as E; cbv beta in E. by rewrite H in E.
  - by eexists _, _.
  - by eexists _, _.
  - by eexists _, _.
  - by eexists _, _.
Qed.

Lemma start_char_stops ch y :
  start_char ch = true →
  stops is_ws (String ch y) ∧ stops is_close_bracket (String ch y) ∧
  stops is_close_brace (String ch y).
Proof. unfold start_char. rewrite !andb_true_iff, !negb_true_iff. cbn. tauto. Qed.

Lemma number_end_ws w y : ws w → number_end y → number_end (w +:+ y).
Proof.
  destruct w as [|ch w]; [done|]. intros Hw _. apply andb_prop in Hw as [Hch _].
  pose proof (all_ascii_spec (λ c, implb (is_ws c)
    (negb (is_digit c) && negb (is_dot c) && negb (is_eE c))) eq_refl ch) as E;
    cbv beta in E. rewrite Hch in E. cbn in E.
  rewrite !andb_true_iff, !negb_true_iff in E. unfold number_end. cbn. tauto.
Qed.

Lemma ws_split w z w0 y :
  w +:+ z = w0 +:+ y → ws w → ws w0 → stops is_ws z →
  ∃ w', w = w0 +:+ w' ∧ y = w' +:+ z.
Proof.
  revert w; induction w0 as [|ch w0 IH]; intros w E Hw Hw0 Hz.
  - by exists w.
  - apply andb_prop in Hw0 as [Hch Hw0]. rewrite str_app_cons in E.
    destruct w as [|ch' w].
    + rewrite str_app_nil_l in E. subst z. cbn in Hz. congruence.
    + rewrite str_app_cons in E. injection E as -> E.
      apply andb_prop in Hw as [_ Hw].
      destruct (IH w E Hw Hw0 Hz) as (w' & -> & ->). by exists w'.
Qed.

Lemma ws_app w w' : ws (w +:+ w') ↔ ws w ∧ ws w'.
Proof. unfold ws. rewrite str_forallb_app. by rewrite andb_true_iff. Qed.

(** The callbacks in an open container, up to the key buffer. *)
Definition in_container (kd : kind) (c : callbacks) (n : ptree) (x : string)
    (st : pstate) : Prop :=
  cur (src st) = x ∧ ∃ kb, normalize (cbs st) = with_key kb (opened kd c n).

Lemma in_container_ws kd c n w x st :
  ws w → stops is_ws x → in_container kd c n (w +:+ x) st →
  runs (λ _, in_container kd c n x) (skip_ws st).
Proof.
  intros Hw Hs [H [kb E]].
  eapply runs_mono; [by eapply (skip_ws_run w x (cbs st))|].
  intros _ st' [? E']. split; [done|]. exists kb. by rewrite E'.
Qed.

Lemma in_container_have kd c n p ch x st :
  p ch = true → in_container kd c n (String ch x) st →
  runs (λ b st', b = true ∧ in_container kd c n x st') (have p st).
Proof.
  intros Hp [H [kb E]]. eapply runs_mono; [by eapply (have_true p ch x (cbs st))|].
  intros b st' [-> [? E']]. split; [done|]. split; [done|]. exists kb. by rewrite E'.
Qed.

Lemma in_container_expect kd c n p msg ch x st :
  p ch = true → in_container kd c n (String ch x) st →
  runs (λ _, in_container kd c n x) (expect p msg st).
Proof.
  intros Hp H. unfold expect, expect_do.
  rbind (by eapply in_container_have) as b st1 [-> H1]. done.
Qed.

Lemma begin_run kd x c st :
  kd = Array ∨ kd = Object → can_attach c → before x c st →
  runs (λ _, in_container kd c ptree_new x) (call (begin_container kd) st).
Proof.
  intros Hk Hc [H1 H2]. unfold call.
  rewrite (proj1 (begin_normalize kd _)), H2.
  destruct (opened_begin kd c Hc) as [-> _]. split; [done|].
  exists (key_buffer (opened kd c ptree_new)). rewrite with_key_self.
  by destruct Hk as [-> | ->].
Qed.

Lemma end_run kd c n x st :
  kd = Array ∨ kd = Object → can_attach c → in_container kd c n x st →
  runs (λ b st', b = true ∧ parsed n c x st') ((_ ← call end_container; mret true) st).
Proof.
  intros Hk Hc [H1 [kb H2]]. unfold call. st_unfold.
  rewrite (end_container_opened kd kb c (cbs st) n Hk H2).
  split; [done|]. split; [done|]. exists kb. by apply attach_normal.
Qed.

(** A parsed element of an array, a parsed member of an object. *)
Lemma parsed_element v c n kb x st :
  can_attach c → parsed v (with_key kb (opened Array c n)) x st →
  in_container Array c (ptree_push_back (EmptyString, v) n) x st.
Proof.
  intros Hc [H [kb' E]]. split; [done|]. exists kb'. rewrite E.
  by rewrite (proj2 (attach_array c n kb v Hc)).
Qed.
Lemma parsed_member v c n name x st :
  can_attach c → parsed v (with_key name (opened Key c n)) x st →
  in_container Object c (ptree_push_back (name, v) n) x st.
Proof.
  intros Hc [H [kb' E]]. split; [done|]. exists kb'. rewrite E.
  by rewrite (proj2 (attach_key c n name v Hc)).
Qed.

Ltac len_lia := unfold len in *; repeat match goal with
  | H : in_container _ _ _ _ _ |- _ => destruct H as [H _]
  | H : before _ _ _ |- _ => destruct H as [H _]
  | H : cur (src ?st) = _, L : context [cur (src ?st)] |- _ => rewrite H in L
  | H : cur (src ?st) = _ |- context [cur (src ?st)] => rewrite H
  end; repeat (rewrite str_length_app in * || cbn [String.length] in *); lia.

(** *** Values *)

Lemma scalar_run fuel w y c st Q :
  ws w → stops is_ws y → stops is_open_brace y → stops is_open_bracket y →
  before (w +:+ y) c st → (∀ st', before y c st' → runs Q (parse_scalar st')) →
  runs Q (parse_value (S fuel) st).
Proof.
  intros Hw Hs Hbr Hbk H Hq. cbn [parse_value].
  rbind (by eapply (start_false is_open_brace _ w y)) as b st1 [-> H1].
  rbind (by eapply (start_false is_open_bracket _ EmptyString y)) as b st2 [-> H2].
  by apply Hq.
Qed.

Lemma leaf_parsed c v rest st :
  can_attach c → at_ rest (leaf_text c v) st → parsed (Node v []) c rest st.
Proof.
  intros Hc [H E]. split; [done|]. rewrite E. unfold leaf_text.
  rewrite normalize_opened_leaf. exists (key_buffer c).
  destruct (attach_stack (Node v []) ptree_new c) as [_ <-]. by rewrite with_key_self.
Qed.

Lemma string_scalar_run s x rest c st :
  string_text s x → can_attach c → before (QUOTE +:+ x +:+ QUOTE +:+ rest) c st →
  runs (λ _, parsed (Node s []) c rest) (parse_scalar st).
Proof.
  intros Hx Hc H. unfold parse_scalar.
  eapply runs_bind.
  { eapply (parse_string_run (leaf_text c)).
    - intros. by apply leaf_text_unit.
    - exact Hx.
    - by instantiate (1 := EmptyString).
    - rewrite begin_string_leaf; [|by rewrite (proj2 H)]. by rewrite (proj2 H).
    - by eapply before_at. }
  intros b st' [-> H']. by apply leaf_parsed.
Qed.

(** A character that starts a number starts no string, boolean or null. *)
Lemma number_scalar_run x rest c st :
  number_text x → number_end rest → can_attach c → before (x +:+ rest) c st →
  runs (λ _, parsed (Node x []) c rest) (parse_scalar st).
Proof.
  intros Hx He Hc H. destruct (number_starts x Hx) as (ch & y & E & Hch).
  assert (∀ p, (∀ d, implb (is_minus d || is_digit d) (negb (p d)) = true) →
    stops p (x +:+ rest)) as Hstop.
  { intros p Hp. rewrite E, str_app_cons. cbn. specialize (Hp ch). rewrite Hch in Hp.
    by apply negb_true_iff in Hp. }
  assert (stops is_ws (x +:+ rest)) as Sw.
  { apply Hstop. ascii_all (λ d, implb (is_minus d || is_digit d) (negb (is_ws d))). }
  unfold parse_scalar.
  rbind (eapply (start_false is_quote _ EmptyString); [done|exact Sw| |exact H]) as b st1 [-> H1].
  { apply Hstop. ascii_all (λ d, implb (is_minus d || is_digit d) (negb (is_quote d))). }
  eapply runs_bind with (R := λ b st', b = false ∧ before (x +:+ rest) c st').
  { unfold parse_boolean.
    rbind (eapply (skip_ws_run EmptyString (x +:+ rest)); [done|exact Sw|by eapply before_at])
      as _ st2 H2.
    unfold mbind, st_bind.
    rewrite (have_false (is_letter "t") (x +:+ rest) (cbs st1) st2); [| |exact H2].
    2: { apply Hstop. ascii_all (λ d, implb (is_minus d || is_digit d) (negb (is_letter "t" d))). }
    rewrite (have_false (is_letter "f") (x +:+ rest) (cbs st1) st2); [| |exact H2].
    2: { apply Hstop. ascii_all (λ d, implb (is_minus d || is_digit d) (negb (is_letter "f" d))). }
    split; [done|by eapply before_keep]. }
  intros b st2 [-> H2].
  rbind (eapply (start_false (is_letter "n") _ EmptyString); [done|exact Sw| |exact H2])
    as b st3 [-> H3].
  { apply Hstop. ascii_all (λ d, implb (is_minus d || is_digit d) (negb (is_letter "n" d))). }
  eapply runs_bind; [by apply (parse_number_run x rest EmptyString c st3)|].
  intros b st4 [-> H4]. exact H4.
Qed.

(** *** Arrays and objects *)

(** What the text of a value promises. *)
Definition value_runs (t : ptree) (x : string) : Prop := ∀ c w rest fuel st,
  can_attach c → ws w → number_end rest → before (w +:+ x +:+ rest) c st →
  (len st < fuel)%nat → runs (λ _, parsed t c rest) (parse_value fuel st).

(** The body of a container's loop adds [cs] and leaves the closing [z]. *)
Definition loop_runs (kd : kind) (body : nat → P unit) (z : ascii)
    (cs : list (string * ptree)) (x : string) : Prop :=
  ∀ c n w0 y fuel fuel' rest st,
  can_attach c → x = w0 +:+ y → ws w0 → in_container kd c n (y +:+ String z rest) st →
  (len st < fuel)%nat → (len st < fuel')%nat →
  runs (λ _, in_container kd c (append_children n cs) (String z rest))
    (do_while_comma (body fuel) fuel' st).

Definition element_body (fuel : nat) : P unit := _ ← parse_value fuel; skip_ws.
Definition member_body (fuel : nat) : P unit := parse_member (parse_value fuel).

(** A character that may follow an element. *)
Definition follows (z : string) : Prop := number_end z ∧ stops is_ws z.

Lemma element_run v x c n w w' z fuel st :
  value_runs v x → can_attach c → ws w → ws w' → follows z →
  in_container Array c n (w +:+ x +:+ w' +:+ z) st → (len st < fuel)%nat →
  runs (λ _, in_container Array c (ptree_push_back (EmptyString, v) n) z)
    (element_body fuel st).
Proof.
  intros Hv Hc Hw Hw' [Hz Hs] [H [kb E]] L. unfold element_body.
  eapply runs_bind with (R := λ _, parsed v (with_key kb (opened Array c n)) (w' +:+ z)).
  { eapply (Hv (with_key kb (opened Array c n)) w (w' +:+ z)); [|done| |by split|done].
    - by apply (attach_array c n kb v Hc).
    - by apply number_end_ws. }
  intros _ st1 H1. apply (in_container_ws _ _ _ w'); [done..|].
  by eapply parsed_element.
Qed.

Lemma member_run k kx v x c n w w1 w2 w3 z fuel st :
  string_text k kx → value_text v x → value_runs v x → can_attach c →
  ws w → ws w1 → ws w2 → ws w3 → follows z →
  in_container Object c n
    (w +:+ QUOTE +:+ kx +:+ QUOTE +:+ w1 +:+ ":" +:+ w2 +:+ x +:+ w3 +:+ z) st →
  (len st < fuel)%nat →
  runs (λ _, in_container Object c (ptree_push_back (k, v) n) z) (member_body fuel st).
Proof.
  intros Hk Hx Hv Hc Hw Hw1 Hw2 Hw3 [Hz Hs] H L. unfold member_body, parse_member.
  pose proof H as [H0 [kb E]].
  eapply runs_bind.
  { eapply (parse_string_run (key_text c n)); [|exact Hk|exact Hw| |split; [exact H0|done]].
    - done.
    - by rewrite begin_string_normalize, E. }
  intros b st1 [-> [H1 E1]].
  rbind (eapply (skip_ws_run w1); [done| |split; [exact H1|exact E1]]; done) as _ st2 H2.
  rbind (by eapply expect_run; [|exact H2]) as _ st3 [H3 E3].
  destruct (attach_key c n k v Hc) as [Hca _].
  eapply runs_bind with (R := λ _, parsed v (with_key k (opened Key c n)) (w3 +:+ z)).
  { eapply (Hv (with_key k (opened Key c n)) w2 (w3 +:+ z)); [done|done| | |].
    - by apply number_end_ws.
    - split; [done|]. rewrite E3. by apply can_attach_norm.
    - assert (len st3 ≤ len st)%nat; [|lia]. unfold len. rewrite H3, H0.
      repeat (rewrite str_length_app || cbn [String.length]). lia. }
  intros _ st4 H4. apply (in_container_ws _ _ _ w3); [done..|].
  by apply parsed_member.
Qed.

(** The loop after one turn: the end of the container, or a comma. *)
Lemma loop_last kd c m body fuel z rest st :
  is_comma z = false →
  runs (λ _, in_container kd c m (String z rest)) (body st) →
  runs (λ _, in_container kd c m (String z rest)) (do_while_comma body (S fuel) st).
Proof.
  intros Hz H. cbn [do_while_comma]. rbind (exact H) as _ st1 [H1 E1].
  unfold mbind, st_bind.
  rewrite (have_false is_comma (String z rest) (cbs st1) st1 Hz (conj H1 eq_refl)). by split.
Qed.

Lemma loop_more kd c m y body fuel st Q :
  runs (λ _, in_container kd c m ("," +:+ y)) (body st) →
  (∀ st', in_container kd c m y st' → runs Q (do_while_comma body fuel st')) →
  runs Q (do_while_comma body (S fuel) st).
Proof.
  intros H Hq. cbn [do_while_comma]. rbind (exact H) as _ st1 H1.
  rbind (by eapply in_container_have; [|exact H1]) as b st2 [-> H2]. by apply Hq.
Qed.

Lemma follows_comma y : follows ("," +:+ y).
Proof. by repeat split. Qed.

Lemma elements_start cs x :
  elements_text cs x →
  ∃ w ch y, x = w +:+ String ch y ∧ ws w ∧ start_char ch = true.
Proof.
  destruct 1 as [w v x w' Hw Hv Hw'|w v x w' cs y Hw Hv Hw' Hes];
    destruct (value_starts v x Hv) as (ch & y' & -> & Hch); by eexists w, ch, _.
Qed.
Lemma members_start cs x :
  members_text cs x →
  ∃ w ch y, x = w +:+ String ch y ∧ ws w ∧ start_char ch = true.
Proof.
  intros [m kv Hm|m kv cs' y Hm Hes];
    destruct Hm as [w k kx w1 w2 v x' w3 Hw Hk Hw1 Hw2 Hv Hw3]; exists w, dquote.
  - by eexists.
  - rewrite str_app_assoc. by eexists.
Qed.

(** The close of a container after its opening bracket and its loop. *)
Lemma close_run kd c m (p : ascii → bool) msg z rest st :
  kd = Array ∨ kd = Object → can_attach c → p z = true →
  in_container kd c m (String z rest) st →
  runs (λ b st', b = true ∧ parsed m c rest st')
    ((_ ← expect p msg; _ ← call end_container; mret true) st).
Proof.
  intros Hk Hc Hp H. rbind (by eapply in_container_expect) as _ st1 H1.
  by eapply end_run.
Qed.

(** A non-empty container, after its opening bracket. *)
Lemma container_run kd (p : ascii → bool) msg (body : nat → P unit) fuel
    z cs x c rest st :
  kd = Array ∨ kd = Object → can_attach c → p z = true →
  (∀ ch, start_char ch = true → p ch = false) →
  (∃ w ch y, x = w +:+ String ch y ∧ ws w ∧ start_char ch = true) →
  loop_runs kd body z cs x → before (x +:+ String z rest) c st → (len st < fuel)%nat →
  runs (λ b st', b = true ∧ parsed (Node EmptyString cs) c rest st')
    ((_ ← call (begin_container kd); _ ← skip_ws; b ← have p;
      if b : bool then _ ← call end_container; mret true else
      _ ← with_fuel (do_while_comma (body fuel));
      _ ← expect p msg; _ ← call end_container; mret true) st).
Proof.
  intros Hk Hc Hp Hch (w & ch & y & -> & Hw & Hst) Hl H L.
  rbind (by eapply begin_run) as _ st1 H1. rewrite str_app_assoc in H1.
  destruct (start_char_stops ch (y +:+ String z rest) Hst) as [Hs _].
  pose proof H1 as [E1 _].
  rbind (by eapply in_container_ws) as _ st2 H2. pose proof H2 as [E2 K2].
  unfold mbind at 1, st_bind at 1.
  rewrite (have_false p (String ch (y +:+ String z rest)) (cbs st2) st2 (Hch ch Hst)
    (conj E2 eq_refl)).
  eapply runs_bind with (R := λ _, in_container kd c (Node EmptyString cs) (String z rest)).
  { unfold with_fuel. eapply (Hl c ptree_new w (String ch y)); [done|done|done|exact H2| |].
    - destruct H as [E _]. unfold len in *. rewrite E in L. rewrite E2.
      repeat (rewrite str_length_app in * || cbn [String.length] in * ). lia.
    - unfold len. lia. }
  intros _ st3 H3. by eapply close_run.
Qed.

(** An empty container, after its opening bracket. *)
Lemma empty_run kd (p : ascii → bool) (f : P bool) w z c rest st :
  kd = Array ∨ kd = Object → can_attach c → p z = true → is_ws z = false → ws w →
  before (w +:+ String z rest) c st →
  runs (λ b st', b = true ∧ parsed ptree_new c rest st')
    ((_ ← call (begin_container kd); _ ← skip_ws; b ← have p;
      if b : bool then _ ← call end_container; mret true else f) st).
Proof.
  intros Hk Hc Hp Hz Hw H. rbind (by eapply begin_run) as _ st1 H1.
  rbind (eapply (in_container_ws kd c ptree_new w (String z rest)); [exact Hw|exact Hz|exact H1])
    as _ st2 H2.
  rbind (eapply in_container_have; [exact Hp|exact H2]) as b st3 [-> H3].
  by eapply end_run.
Qed.

(** Enter a container: [parse_value] commits to the alternative [f]. *)
Lemma array_enter fuel w y t c rest st :
  ws w → before (w +:+ "[" +:+ y) c st → (len st < S fuel)%nat →
  (∀ st', before y c st' → (len st' < fuel)%nat →
    runs (λ b st', b = true ∧ parsed t c rest st')
      ((_ ← call on_begin_array; _ ← skip_ws; b ← have is_close_bracket;
        if b : bool then _ ← call on_end_array; mret true else
        _ ← with_fuel (do_while_comma (element_body fuel));
        _ ← expect is_close_bracket "expected ']' or ','";
        _ ← call on_end_array; mret true) st')) →
  runs (λ _, parsed t c rest) (parse_value (S fuel) st).
Proof.
  intros Hw H L Hf. cbn [parse_value].
  rbind (by eapply (start_false is_open_brace _ w ("[" +:+ y))) as b st1 [-> H1].
  eapply runs_bind.
  { eapply (start_true is_open_bracket _ EmptyString "[" y); [done..|exact H1|].
    intros st2 H2. apply Hf; [exact H2|].
    destruct H as [E _], H2 as [E2 _]. unfold len in *. rewrite E in L. rewrite E2.
    rewrite !str_length_app in L. cbn in L. lia. }
  intros b st2 [-> H2]. exact H2.
Qed.

Lemma object_enter fuel w y t c rest st :
  ws w → before (w +:+ "{" +:+ y) c st → (len st < S fuel)%nat →
  (∀ st', before y c st' → (len st' < fuel)%nat →
    runs (λ b st', b = true ∧ parsed t c rest st')
      ((_ ← call on_begin_object; _ ← skip_ws; b ← have is_close_brace;
        if b : bool then _ ← call on_end_object; mret true else
        _ ← with_fuel (do_while_comma (member_body fuel));
        _ ← expect is_close_brace "expected '}' or ','";
        _ ← call on_end_object; mret true) st')) →
  runs (λ _, parsed t c rest) (parse_value (S fuel) st).
Proof.
  intros Hw H L Hf. cbn [parse_value]. eapply runs_bind.
  { eapply (start_true is_open_brace _ w "{" y); [done..|exact H|].
    intros st2 H2. apply Hf; [exact H2|].
    destruct H as [E _], H2 as [E2 _]. unfold len in *. rewrite E in L. rewrite E2.
    rewrite !str_length_app in L. cbn in L. lia. }
  intros b st2 [-> H2]. exact H2.
Qed.

(** A text that starts like no container is a scalar. *)
Lemma value_scalar x t :
  (∃ ch y, x = String ch y ∧ start_char ch = true ∧
     is_open_brace ch = false ∧ is_open_bracket ch = false) →
  (∀ c rest st, can_attach c → number_end rest → before (x +:+ rest) c st →
     runs (λ _, parsed t c rest) (parse_scalar st)) →
  value_runs t x.
Proof.
  intros (ch & y & -> & Hst & H1 & H2) Hx c w rest [|fuel] st Hc Hw He H L; [lia|].
  destruct (start_char_stops ch (y +:+ rest) Hst) as [Hs _].
  eapply (scalar_run fuel w (String ch y +:+ rest) c st); [done..|].
  intros st' H'. by apply Hx.
Qed.

(** One turn of a container's loop reads [m] and adds [kv]. *)
Definition turn_runs (kd : kind) (body : nat → P unit) (kv : string * ptree)
    (m : string) : Prop := ∀ c n w0 y z fuel st,
  can_attach c → m = w0 +:+ y → ws w0 → follows z →
  in_container kd c n (y +:+ z) st → (len st < fuel)%nat →
  runs (λ _, in_container kd c (ptree_push_back kv n) z) (body fuel st).

Lemma loop_runs_one kd body z kv m :
  is_comma z = false → (∀ rest, follows (String z rest)) →
  turn_runs kd body kv m → loop_runs kd body z [kv] m.
Proof.
  intros Hz Hf Hm c n w0 y fuel [|fuel'] rest st Hc E Hw H L L'; [lia|].
  apply loop_last; [done|]. rewrite append_one.
  by apply (Hm c n w0 y (String z rest)).
Qed.

Lemma loop_runs_cons kd body z kv m cs y :
  (∃ w ch y', m = w +:+ String ch y' ∧ ws w ∧ start_char ch = true) →
  turn_runs kd body kv m → loop_runs kd body z cs y →
  loop_runs kd body z (kv :: cs) (m +:+ "," +:+ y).
Proof.
  intros (w & ch & y' & Em & Hw & Hst) Hm Hy c n w0 y0 fuel [|fuel'] rest st Hc E Hw0 H L L';
    [lia|].
  assert (∃ m', m = w0 +:+ m' ∧ y0 = m' +:+ "," +:+ y) as (m' & Em' & ->).
  { rewrite Em, str_app_assoc, str_app_cons in E.
    destruct (ws_split w (String ch (y' +:+ "," +:+ y)) w0 y0 E Hw Hw0) as (w' & -> & ->).
    { by apply start_char_stops. }
    exists (w' +:+ String ch y'). by rewrite Em, !str_app_assoc. }
  rewrite !str_app_assoc in H. pose proof H as [E0 _].
  eapply (loop_more kd c (ptree_push_back kv n) (y +:+ String z rest)).
  { eapply (Hm c n w0 m'); [done..|apply follows_comma|exact H|done]. }
  intros st' H'. rewrite <- append_push.
  assert (len st' < len st)%nat.
  { destruct H' as [E' _]. unfold len. rewrite E0, E'.
    rewrite !str_length_app. cbn [String.length]. lia. }
  eapply (Hy c _ EmptyString y); [done|done|done|exact H'|lia|lia].
Qed.

Lemma element_turn w v x w' :
  ws w → value_text v x → value_runs v x → ws w' →
  turn_runs Array element_body (EmptyString, v) (w +:+ x +:+ w').
Proof.
  intros Hw Hx Hv Hw' c n w0 y z fuel st Hc E Hw0 Hz H L.
  destruct (value_starts v x Hx) as (ch & x' & -> & Hch).
  destruct (ws_split w (String ch x' +:+ w') w0 y E Hw Hw0) as (w1 & -> & ->).
  { by apply start_char_stops. }
  apply ws_app in Hw as [_ Hw1]. rewrite !str_app_assoc in H.
  by apply (element_run v (String ch x') c n w1 w' z).
Qed.

Lemma member_turn k kx v x w w1 w2 w3 :
  ws w → string_text k kx → ws w1 → ws w2 → value_text v x → value_runs v x → ws w3 →
  turn_runs Object member_body (k, v)
    (w +:+ QUOTE +:+ kx +:+ QUOTE +:+ w1 +:+ ":" +:+ w2 +:+ x +:+ w3).
Proof.
  intros Hw Hk Hw1 Hw2 Hx Hv Hw3 c n w0 y z fuel st Hc E Hw0 Hz H L.
  destruct (ws_split w _ w0 y E Hw Hw0) as (w' & -> & ->); [done|].
  apply ws_app in Hw as [_ Hw']. rewrite !str_app_assoc in H.
  by eapply (member_run k kx v x c n w' w1 w2 w3).
Qed.

Lemma close_follows (z : ascii) rest :
  z = "]"%char ∨ z = "}"%char → follows (String z rest).
Proof. intros [-> | ->]; by repeat split. Qed.

Lemma member_start kv m :
  member_text kv m → ∃ w ch y, m = w +:+ String ch y ∧ ws w ∧ start_char ch = true.
Proof.
  destruct 1 as [w k kx w1 w2 v x' w3 Hw Hk Hw1 Hw2 Hv Hw3]. exists w, dquote. by eexists.
Qed.

Lemma value_runs_array x cs :
  elements_text cs x → loop_runs Array element_body "]" cs x →
  value_runs (Node EmptyString cs) ("[" +:+ x +:+ "]").
Proof.
  intros Hx Hl c w rest [|fuel] st Hc Hw _ H L; [lia|]. rewrite !str_app_assoc in H.
  eapply array_enter; [done|exact H|done|]. intros st' H' L'.
  eapply (container_run Array is_close_bracket _ element_body fuel "]" cs x); [by left|done|done| |
    by eapply elements_start|exact Hl|exact H'|done].
  intros ch Hst. by apply (start_char_stops ch EmptyString).
Qed.

Lemma value_runs_object x cs :
  members_text cs x → loop_runs Object member_body "}" cs x →
  value_runs (Node EmptyString cs) ("{" +:+ x +:+ "}").
Proof.
  intros Hx Hl c w rest [|fuel] st Hc Hw _ H L; [lia|]. rewrite !str_app_assoc in H.
  eapply object_enter; [done|exact H|done|]. intros st' H' L'.
  eapply (container_run Object is_close_brace _ member_body fuel "}" cs x); [by right|done|done| |
    by eapply members_start|exact Hl|exact H'|done].
  intros ch Hst. by apply (start_char_stops ch EmptyString).
Qed.

Lemma value_runs_text t x : value_text t x → value_runs t x.
Proof.
  revert t x. refine (proj1 (value_text_mutind
    (λ t x _, value_runs t x)
    (λ cs x _, loop_runs Array element_body "]" cs x)
    (λ cs x _, loop_runs Object member_body "}" cs x)
    (λ kv m _, turn_runs Object member_body kv m) _ _ _ _ _ _ _ _ _ _ _ _)).
  - intros s x Hx. apply value_scalar; [by eexists _, _|].
    intros c rest st Hc _ H. rewrite !str_app_assoc in H. by apply (string_scalar_run s x).
  - intros x Hx. apply value_scalar.
    + set_unfold in Hx. destruct Hx as [->|[->|[->|[]]]]; by eexists _, _.
    + intros c rest st Hc _ H. by apply (literal_run x EmptyString).
  - intros x Hx. apply value_scalar.
    + destruct (number_starts x Hx) as (ch & y & -> & Hch). exists ch, y. split; [done|].
      pose proof (all_ascii_spec (λ c, implb (is_minus c || is_digit c)
        (start_char c && negb (is_open_brace c) && negb (is_open_bracket c))) eq_refl ch)
        as E; cbv beta in E. rewrite Hch in E. cbn in E.
      rewrite !andb_true_iff, !negb_true_iff in E. tauto.
    + intros c rest st Hc He H. by apply number_scalar_run.
  - intros w Hw c w0 rest [|fuel] st Hc Hw0 _ H L; [lia|]. rewrite !str_app_assoc in H.
    eapply array_enter; [done|exact H|done|]. intros st' H' L'.
    eapply (empty_run Array is_close_bracket _ w "]"); [by left|done..|exact H'].
  - intros cs x Hx Hl. by apply value_runs_array.
  - intros w Hw c w0 rest [|fuel] st Hc Hw0 _ H L; [lia|]. rewrite !str_app_assoc in H.
    eapply object_enter; [done|exact H|done|]. intros st' H' L'.
    eapply (empty_run Object is_close_brace _ w "}"); [by right|done..|exact H'].
  - intros cs x Hx Hl. by apply value_runs_object.
  - intros w v x w' Hw Hx Hv Hw'. apply loop_runs_one; [done|intros; apply close_follows; by left|].
    by apply element_turn.
  - intros w v x w' cs y Hw Hx Hv Hw' Hes Hl.
    replace (w +:+ x +:+ w' +:+ "," +:+ y) with ((w +:+ x +:+ w') +:+ "," +:+ y)
      by (by rewrite !str_app_assoc).
    apply loop_runs_cons; [|by apply element_turn|done].
    eapply elements_start. by apply ET_one.
  - intros m kv Hm Ht. apply loop_runs_one; [done|intros; apply close_follows; by right|done].
  - intros m kv cs y Hm Ht Hes Hl. apply loop_runs_cons; [|done|done]. by eapply member_start.
  - intros. by apply member_turn.
Qed.

Lemma json_text_no_mark t x : json_text t x → skip_introduction x = x.
Proof.
  intros (w & y & w' & -> & Hw & Hy & _).
  assert (∀ ch s, (is_ws ch || start_char ch) && negb (code ch =? 0xef) = true →
    skip_introduction (String ch s) = String ch s) as Hch.
  { intros ch s Hc. apply andb_prop in Hc as [_ Hc]. apply negb_true_iff in Hc.
    cbn. by rewrite Hc. }
  destruct w as [|ch w].
  - destruct Hy as [| x Hx | x Hx | | | |]; try done.
    + set_unfold in Hx. by decompose [or] Hx; subst.
    + destruct (number_starts x Hx) as (ch & y & -> & Hn). apply Hch.
      pose proof (all_ascii_spec (λ c, implb (is_minus c || is_digit c)
        ((is_ws c || start_char c) && negb (code c =? 0xef))) eq_refl ch) as E.
      cbv beta in E. by rewrite Hn in E.
  - apply andb_prop in Hw as [Hc _]. apply Hch.
    pose proof (all_ascii_spec (λ c, implb (is_ws c)
      ((is_ws c || start_char c) && negb (code c =? 0xef))) eq_refl ch) as E.
    cbv beta in E. by rewrite Hc in E |- *.
Qed.

Lemma value_read t x : json_text t x → read_json x = Ok t.
Proof.
  intros Hx. pose proof (json_text_no_mark t x Hx) as Hi.
  destruct Hx as (w & y & w' & -> & Hw & Hy & Hw').
  unfold read_json. unfold set_input. rewrite Hi.
  set (st := {| src := _; cbs := callbacks_new; first := true |}).
  assert (runs (λ _ st', root (cbs st') = t) ((_ ← with_fuel parse_value; finish) st)) as H.
  { eapply runs_bind with (R := λ _, parsed t callbacks_new w').
    - unfold with_fuel. apply (value_runs_text t y Hy callbacks_new w); [done|done| |done|].
      + rewrite <- (str_app_nil_r w'). by apply number_end_ws.
      + unfold len. lia.
    - intros _ st1 [E1 [kb K1]]. unfold finish.
      rbind (apply (skip_ws_run w' EmptyString (cbs st1)); [done|done|by rewrite str_app_nil_r])
        as _ st2 [E2 K2].
      unfold done. st_unfold. rewrite E2. cbn. rewrite K2.
      change (root (cbs st1)) with (root (normalize (cbs st1))). rewrite K1.
      by destruct t. }
  destruct ((_ ← with_fuel parse_value; finish) st) as [[[] st']|f]; cbn in *; [by f_equal|done].
Qed.

(** C18: the JSON reader accepts every text of the grammar and builds the tree
    the grammar gives it: objects and arrays as children in source order,
    strings with their escapes and surrogate pairs decoded to UTF-8, numbers
    and literals as their text. *)
Theorem read_json_complete (t : ptree) (x : string) :
  json_text t x → read_json x = Ok t.
Proof.
  apply value_read.
Qed.

(** [{"line": 19, "flags":["-a"]}]. *)
Lemma read_json_complete_witness :
  read_json ("{" +:+ QUOTE +:+ "line" +:+ QUOTE +:+ ": 19," +:+
    QUOTE +:+ "flags" +:+ QUOTE +:+ ":[" +:+ QUOTE +:+ "-a" +:+ QUOTE +:+ "]}") =
  Ok (Node EmptyString [("line", Node "19" []);
    ("flags", Node EmptyString [(EmptyString, Node "-a" [])])]).
Proof.
  apply (read_json_complete (Node EmptyString [("line", Node "19" []);
    ("flags", Node EmptyString [(EmptyString, Node "-a" [])])])).
  assert (value_text (Node "19" []) "19") as H1.
  { apply VT_number. exists EmptyString, "19", EmptyString, EmptyString.
    split; [done|]. split; [by left|]. split; [|split; by left].
    right. by exists "1"%char, "9". }
  assert (value_text (Node "-a" []) (QUOTE +:+ "-a" +:+ QUOTE)) as H2.
  { apply VT_string. do 2 (apply ST_plain; [done|]). apply ST_nil. }
  assert (value_text (Node EmptyString [(EmptyString, Node "-a" [])])
    ("[" +:+ QUOTE +:+ "-a" +:+ QUOTE +:+ "]")) as H3.
  { apply (VT_array _ (QUOTE +:+ "-a" +:+ QUOTE)).
    by apply (ET_one EmptyString _ (QUOTE +:+ "-a" +:+ QUOTE) EmptyString). }
  exists EmptyString. eexists _, EmptyString. split; [|split; [done|split; [|done]]].
  2: { apply VT_object. eapply MT_cons; [|apply MT_one].
       - eapply (MT EmptyString "line" "line" EmptyString " " _ "19" EmptyString); try done.
         do 4 (apply ST_plain; [done|]). apply ST_nil.
       - eapply (MT EmptyString "flags" "flags" EmptyString EmptyString _ _ EmptyString);
           [done| |done|done|exact H3|done].
         do 5 (apply ST_plain; [done|]). apply ST_nil. }
  reflexivity.
Defined.
