(* ===== verification/JsonWrite.v ===== *)
(** * Writing JSON: boost::property_tree::write_json

    The writer of src/vendor/boost/boost/property_tree/json_parser/detail/
    write.hpp that the integration test's client uses to build its request
    bodies, and the round trip through the reader. *)

From S2P Require Import Prelude Ptree JsonRead JsonSafe JsonGrammar.

Local Open Scope Z_scope.

(** ** The writer *)

Definition hexdigits : string := "0123456789ABCDEF".
Definition hexdigit (d : Z) : ascii :=
  match char_at hexdigits (Z.to_nat d) with Some c => c | None => nul end.

Definition escape_char (b : ascii) : string :=
  let c := code b in
  if (c =? 0x20) || (c =? 0x21) || ((0x23 <=? c) && (c <=? 0x2E)) ||
     ((0x30 <=? c) && (c <=? 0x5B)) || ((0x5D <=? c) && (c <=? 0xFF)) then str1 b
  else if c =? 8 then String backslash "b"
  else if c =? 12 then String backslash "f"
  else if c =? 10 then String backslash "n"
  else if c =? 13 then String backslash "r"
  else if c =? 9 then String backslash "t"
  else if Ascii.eqb b "/" then String backslash "/"
  else if Ascii.eqb b dquote then String backslash QUOTE
  else if Ascii.eqb b backslash then String backslash (str1 backslash)
  else
    let u := Z.min c 0xFFFF in
    let d1 := u / 4096 in let u := u - d1 * 4096 in
    let d2 := u / 256 in let u := u - d2 * 256 in
    let d3 := u / 16 in let u := u - d3 * 16 in
    let d4 := u in
    String backslash (String "u" (String (hexdigit d1) (String (hexdigit d2)
      (String (hexdigit d3) (str1 (hexdigit d4)))))).

Fixpoint create_escapes (s : string) : string :=
  match s with
  | EmptyString => EmptyString
  | String b s => escape_char b +:+ create_escapes s
  end.

Section Writer.
Context (pretty : bool).

Definition line_end : string := if pretty then NL else EmptyString.
Definition pad (n : nat) : string :=
  if pretty then str_repeat (4 * n) " " else EmptyString.
Definition quoted (s : string) : string := QUOTE +:+ create_escapes s +:+ QUOTE.
Definition key_text_of (object : bool) (k : string) : string :=
  if object then quoted k +:+ ":" +:+ (if pretty then " " else EmptyString)
  else EmptyString.

(** One line per child; [text] is the child's own text. *)
Definition write_child (object : bool) (indent : nat) (text : string)
    (k : string) (last : bool) : string :=
  pad (S indent) +:+ key_text_of object k +:+ text +:+
  (if last then EmptyString else ",") +:+ line_end.

Definition is_last {A} (l : list A) : bool :=
  match l with [] => true | _ => false end.

(** The loops over the children; [write] writes a child. *)
Definition write_children (write : ptree → string) (object : bool) (indent : nat)
    : list (string * ptree) → string :=
  fix go cs :=
    match cs with
    | [] => EmptyString
    | (k, c) :: cs =>
        write_child object indent (write c) k (is_last cs) +:+ go cs
    end.

Fixpoint write_json_helper (pt : ptree) (indent : nat) : string :=
  let children := write_children (λ c, write_json_helper c (S indent)) in
  match pt with
  | Node data cs =>
      if (0 <? indent)%nat && ptree_empty pt then quoted data
      else if (0 <? indent)%nat && (ptree_count EmptyString pt =? ptree_size pt)%nat
      then "[" +:+ line_end +:+ children false indent cs +:+ pad indent +:+ "]"
      else "{" +:+ line_end +:+ children true indent cs +:+ pad indent +:+ "}"
  end.
End Writer.

Definition is_empty_string (s : string) : bool :=
  match s with EmptyString => true | _ => false end.

Fixpoint verify_json (pt : ptree) (depth : nat) : bool :=
  match pt with
  | Node data cs =>
      if (depth =? 0)%nat && negb (is_empty_string data) then false else
      if negb (is_empty_string data) && negb (ptree_empty pt) then false else
      forallb (λ kc, verify_json kc.2 (S depth)) cs
  end.

(** [write_json(stream, pt, pretty)]: what is written to a stream that stays
    good. *)
Definition write_json (pretty : bool) (pt : ptree) : outcome string :=
  if negb (verify_json pt 0)
  then Fail (Exn (json_parser_error
    "ptree contains data that cannot be represented in JSON format" 0))
  else Ok (write_json_helper pretty pt 0 +:+ NL).

(** ** UTF-8 as the reader checks it *)

(** [pending] trailing bytes are still due. *)
Fixpoint utf8_ok (pending : nat) (s : string) : bool :=
  match s, pending with
  | EmptyString, O => true
  | EmptyString, S _ => false
  | String c s, S n => is_trail c && utf8_ok n s
  | String c s, O =>
      if code c <=? 0x7f then utf8_ok O s
      else (0 <? trail_table c) && utf8_ok (Z.to_nat (trail_table c)) s
  end.

Fixpoint utf8_tree (t : ptree) : bool :=
  match t with
  | Node data cs =>
      utf8_ok 0 data && forallb (λ kc, utf8_ok 0 kc.1 && utf8_tree kc.2) cs
  end.

(** ** What is written is a text of the grammar *)

(** How the escape of an ASCII character reads back, decided. *)
Definition escape_reads (c : ascii) : bool :=
  match escape_char c with
  | String b EmptyString => Ascii.eqb b c && plain c
  | String b (String e EmptyString) =>
      Ascii.eqb b backslash && bool_decide (escape_value e = Some (code c))
  | String b (String u q) =>
      Ascii.eqb b backslash && Ascii.eqb u "u" && (String.length q =? 4)%nat &&
      str_forallb is_hex q && (hex_value 0 q =? code c) && (code c <? 0x20)
  | _ => false
  end.

Lemma escape_reads_ascii c : implb (code c <=? 0x7f) (escape_reads c) = true.
Proof. revert c. ascii_all (λ c, implb (code c <=? 0x7f)%Z (escape_reads c)). Qed.

Lemma control_feeds c : code c < 0x20 →
  is_surrogate_low (code c) = false ∧ is_surrogate_high (code c) = false ∧
  feed_codepoint (code c) = str1 c.
Proof.
  pose proof (all_ascii_spec (λ c, implb (code c <? 0x20)
    (negb (is_surrogate_low (code c)) && negb (is_surrogate_high (code c)) &&
     String.eqb (feed_codepoint (code c)) (str1 c))) eq_refl c) as E; cbv beta in E.
  intros H. rewrite (proj2 (Z.ltb_lt _ _) H) in E. cbn [implb] in E.
  rewrite !andb_true_iff, !negb_true_iff in E. destruct E as [[? ?] E].
  by apply String.eqb_eq in E.
Qed.

Lemma escape_char_text c s x :
  code c <= 0x7f → string_text s x → string_text (String c s) (escape_char c +:+ x).
Proof.
  intros Hc Hx. pose proof (escape_reads_ascii c) as E.
  rewrite (proj2 (Z.leb_le _ _) Hc) in E. cbn [implb] in E. unfold escape_reads in E.
  destruct (escape_char c) as [|b [|u q]]; [done| |].
  - apply andb_prop in E as [Eb Ep]. apply Ascii.eqb_eq in Eb as ->. by apply ST_plain.
  - destruct q as [|q0 q].
    + apply andb_prop in E as [Eb Ee]. apply Ascii.eqb_eq in Eb as ->.
      apply bool_decide_eq_true in Ee. rewrite <- (chr_code c).
      by apply (ST_escape u (code c)).
    + rewrite !andb_true_iff in E. destruct E as [[[[[Eb Eu] El] Eh] Ev] Es].
      apply Ascii.eqb_eq in Eb as ->. apply Ascii.eqb_eq in Eu as ->.
      apply Nat.eqb_eq in El. apply Z.eqb_eq in Ev. apply Z.ltb_lt in Es.
      destruct (control_feeds c Es) as (Hl & Hh & Hf).
      change (String c s) with (str1 c +:+ s). rewrite <- Hf.
      by apply (ST_unicode (String q0 q)).
Qed.

Lemma escape_char_high c : 0x7f < code c → escape_char c = str1 c.
Proof.
  intros H. pose proof (code_bounds c). unfold escape_char.
  replace (code c <=? 0xFF) with true by (symmetry; lia).
  replace (0x5D <=? code c) with true by (symmetry; lia).
  by rewrite !orb_true_r.
Qed.

Lemma trail_high c : is_trail c = true → 0x7f < code c.
Proof.
  pose proof (all_ascii_spec (λ c, implb (is_trail c) (0x7f <? code c)) eq_refl c) as E.
  cbv beta in E. intros H. rewrite H in E. cbn in E. lia.
Qed.

Lemma utf8_ok_split n s :
  utf8_ok n s = true →
  ∃ t s', s = t +:+ s' ∧ String.length t = n ∧ str_forallb is_trail t = true ∧
    utf8_ok 0 s' = true.
Proof.
  revert n; induction s as [|c s IH]; intros [|n] H; try done.
  - by exists EmptyString, EmptyString.
  - by exists EmptyString, (String c s).
  - cbn in H. apply andb_prop in H as [Hc H]. destruct (IH n H) as (t & s' & -> & Hl & Ht & Hs).
    exists (String c t), s'. cbn. by rewrite Hl, Hc, Ht.
Qed.

Lemma create_escapes_trail t s :
  str_forallb is_trail t = true → create_escapes (t +:+ s) = t +:+ create_escapes s.
Proof.
  induction t as [|c t IH]; [done|]. cbn. intros H. apply andb_prop in H as [Hc Ht].
  rewrite str_app_cons. cbn. rewrite (escape_char_high c) by (by apply trail_high).
  by rewrite IH.
Qed.

Lemma create_escapes_text s : utf8_ok 0 s = true → string_text s (create_escapes s).
Proof.
  remember (String.length s) as n eqn:E. assert (String.length s ≤ n)%nat as L by lia.
  clear E. revert s L; induction n as [|n IH]; intros [|c s] L H; cbn in L; try lia;
    [apply ST_nil..|].
  cbn [utf8_ok] in H. destruct (code c <=? 0x7f) eqn:Ec.
  - cbn. apply escape_char_text; [lia|]. apply IH; [lia|done].
  - apply andb_prop in H as [Hk H]. apply utf8_ok_split in H as (t & s' & -> & Hl & Ht & Hs).
    cbn. rewrite create_escapes_trail, (escape_char_high c) by (done || lia).
    rewrite str1_app. apply ST_utf8; [lia|lia|lia|done|].
    apply IH; [|done]. rewrite str_length_app in L. lia.
Qed.

Lemma str_repeat_ws n : ws (str_repeat n " ").
Proof. unfold ws. by induction n. Qed.

Section Text.
Context (pretty : bool).

Lemma pad_ws n : ws (pad pretty n).
Proof. unfold pad. destruct pretty; [apply str_repeat_ws|done]. Qed.
Lemma line_end_ws : ws (line_end pretty).
Proof. by destruct pretty. Qed.

Lemma ws_app2 a b : ws a → ws b → ws (a +:+ b).
Proof. intros. by apply ws_app. Qed.

Lemma elements_ws_l cs x w : elements_text cs x → ws w → elements_text cs (w +:+ x).
Proof.
  intros [w0 v y w' H1 H2 H3|w0 v y w' cs' z H1 H2 H3 H4] H; rewrite <- str_app_assoc.
  - apply ET_one; [by apply ws_app2|done..].
  - apply ET_cons; [by apply ws_app2|done..].
Qed.
Lemma elements_ws_r cs x w : elements_text cs x → ws w → elements_text cs (x +:+ w).
Proof.
  intros Hx Hw. induction Hx as [w0 v y w' H1 H2 H3|w0 v y w' cs' z H1 H2 H3 H4 IH];
    repeat rewrite str_app_assoc.
  - apply ET_one; [done..|by apply ws_app2].
  - by apply ET_cons.
Qed.
Lemma member_ws_l kv x w : member_text kv x → ws w → member_text kv (w +:+ x).
Proof.
  intros [w0 k kx w1 w2 v y w3 ? ? ? ? ? ?] Hw. rewrite <- str_app_assoc.
  apply MT; [by apply ws_app2|done..].
Qed.
Lemma member_ws_r kv x w : member_text kv x → ws w → member_text kv (x +:+ w).
Proof.
  intros [w0 k kx w1 w2 v y w3 ? ? ? ? ? ?] Hw. repeat rewrite str_app_assoc.
  apply MT; [done..|by apply ws_app2].
Qed.
Lemma members_ws_l cs x w : members_text cs x → ws w → members_text cs (w +:+ x).
Proof.
  intros [m kv Hm|m kv cs' y Hm H1] H.
  - apply MT_one. by apply member_ws_l.
  - rewrite <- str_app_assoc. apply MT_cons; [by apply member_ws_l|done].
Qed.
Lemma members_ws_r cs x w : members_text cs x → ws w → members_text cs (x +:+ w).
Proof.
  intros Hx Hw. induction Hx as [m kv Hm|m kv cs' y Hm H1 IH].
  - apply MT_one. by apply member_ws_r.
  - repeat rewrite str_app_assoc. by apply MT_cons.
Qed.

Abbreviation children_text indent :=
  (write_children pretty (λ c, write_json_helper pretty c (S indent))).

Lemma write_json_helper_eq data cs indent :
  write_json_helper pretty (Node data cs) indent =
  if (0 <? indent)%nat && ptree_empty (Node data cs) then quoted data
  else if (0 <? indent)%nat &&
    (ptree_count EmptyString (Node data cs) =? ptree_size (Node data cs))%nat
  then "[" +:+ line_end pretty +:+ children_text indent false indent cs +:+
    pad pretty indent +:+ "]"
  else "{" +:+ line_end pretty +:+ children_text indent true indent cs +:+
    pad pretty indent +:+ "}".
Proof. reflexivity. Qed.

(** The children of a node, once their values are written as their texts. *)
Definition children_ok (indent : nat) (cs : list (string * ptree)) : Prop :=
  Forall (λ kc, utf8_ok 0 kc.1 = true ∧
    value_text kc.2 (write_json_helper pretty kc.2 (S indent))) cs.

Lemma write_elements indent cs :
  cs ≠ [] → children_ok indent cs → Forall (λ kc, kc.1 = EmptyString) cs →
  elements_text cs (children_text indent false indent cs).
Proof.
  intros Hne Hok Hk. induction cs as [|[k c] cs IH]; [done|].
  inversion_clear Hok as [|?? [_ Hv] Hcs]. inversion_clear Hk as [|?? Ek Hks].
  cbn [fst snd] in *. subst k. cbn [write_children]. unfold write_child. cbn [key_text_of].
  rewrite str_app_nil_l. destruct cs as [|kc cs].
  - cbn [is_last write_children]. rewrite str_app_nil_r, str_app_nil_l.
    apply ET_one; [apply pad_ws|done|apply line_end_ws].
  - cbn [is_last]. rewrite !str_app_assoc.
    apply (ET_cons _ _ _ EmptyString); [apply pad_ws|done|done|].
    apply elements_ws_l; [by apply IH|apply line_end_ws].
Qed.

Lemma write_member indent k c :
  utf8_ok 0 k = true → value_text c (write_json_helper pretty c (S indent)) →
  member_text (k, c) (pad pretty (S indent) +:+ key_text_of pretty true k +:+
    write_json_helper pretty c (S indent)).
Proof.
  intros Hk Hc. unfold key_text_of, quoted. rewrite !str_app_assoc.
  rewrite <- (str_app_nil_r (write_json_helper pretty c (S indent))).
  apply (MT _ k (create_escapes k) EmptyString);
    [apply pad_ws|by apply create_escapes_text|done|by destruct pretty|done..].
Qed.

Lemma write_members indent cs :
  cs ≠ [] → children_ok indent cs →
  members_text cs (children_text indent true indent cs).
Proof.
  intros Hne Hok. induction cs as [|[k c] cs IH]; [done|].
  inversion_clear Hok as [|?? [Hk Hv] Hcs]. cbn [fst snd] in *.
  pose proof (write_member indent k c Hk Hv) as Hm.
  cbn [write_children]. unfold write_child. destruct cs as [|kc cs].
  - cbn [is_last write_children]. rewrite str_app_nil_r, str_app_nil_l.
    apply MT_one. rewrite <- !str_app_assoc. rewrite <- str_app_assoc in Hm.
    apply member_ws_r; [done|apply line_end_ws].
  - cbn [is_last]. rewrite <- str_app_assoc in Hm.
    replace (_ +:+ _) with (((pad pretty (S indent) +:+ key_text_of pretty true k) +:+
      write_json_helper pretty c (S indent)) +:+ "," +:+ line_end pretty +:+
      children_text indent true indent (kc :: cs)) by (by rewrite !str_app_assoc).
    apply MT_cons; [done|]. apply members_ws_l; [by apply IH|apply line_end_ws].
Qed.

Lemma count_all_empty cs :
  (length (List.filter (λ kv : string * ptree, String.eqb kv.1 EmptyString) cs)
    =? length cs)%nat = true → Forall (λ kc, kc.1 = EmptyString) cs.
Proof.
  rewrite Nat.eqb_eq. induction cs as [|[k c] cs IH]; [done|]. cbn.
  destruct (String.eqb_spec k EmptyString) as [->|]; cbn; intros H.
  - constructor; [done|]. apply IH. lia.
  - pose proof (List.filter_length_le (λ kv : string * ptree, String.eqb kv.1 EmptyString) cs).
    lia.
Qed.

Lemma str_app_mid o a b c z :
  o +:+ a +:+ b +:+ c +:+ z = o +:+ (a +:+ b +:+ c) +:+ z.
Proof. by rewrite !str_app_assoc. Qed.

Lemma write_container data cs indent :
  is_empty_string data = true → cs ≠ [] → children_ok indent cs →
  value_text (Node data cs) (write_json_helper pretty (Node data cs) indent).
Proof.
  intros Hd Hne Hok. destruct data; [|done]. rewrite write_json_helper_eq.
  destruct cs as [|kc cs]; [done|].
  change (ptree_empty (Node EmptyString (kc :: cs))) with false.
  destruct (0 <? indent)%nat; cbn [andb]; [destruct (_ =? _)%nat eqn:Ec|];
    rewrite str_app_mid.
  - apply VT_array, elements_ws_l; [|apply line_end_ws].
    apply elements_ws_r; [|apply pad_ws]. apply write_elements; [done..|].
    by apply count_all_empty.
  - apply VT_object, members_ws_l; [|apply line_end_ws].
    apply members_ws_r; [|apply pad_ws]. by apply write_members.
  - apply VT_object, members_ws_l; [|apply line_end_ws].
    apply members_ws_r; [|apply pad_ws]. by apply write_members.
Qed.

Lemma write_text t indent :
  verify_json t indent = true → utf8_tree t = true →
  value_text t (write_json_helper pretty t indent).
Proof.
  revert indent. induction t as [data cs IH] using ptree_ind'. intros indent Hv Hu.
  cbn [verify_json utf8_tree] in Hv, Hu. apply andb_prop in Hu as [Hd Hu].
  destruct ((indent =? 0)%nat && _) eqn:E0; [done|].
  destruct (negb (is_empty_string data) && _) eqn:E1; [done|].
  assert (children_ok indent cs) as Hok.
  { unfold children_ok. clear E0 E1. induction IH as [|[k c] cs Hc _ IHcs]; [done|].
    cbn [forallb fst snd] in *. rewrite !andb_true_iff in Hv, Hu.
    destruct Hv as [Hv1 Hv2], Hu as [Hk Hu2]. apply andb_prop in Hk as [Hk Hu1].
    constructor; [|by apply IHcs]. split; [done|]. by apply Hc. }
  destruct cs as [|kc cs].
  - rewrite write_json_helper_eq. destruct indent as [|indent]; cbn.
    + destruct data; [|done].
      rewrite str_app_nil_l, <- (str_app_assoc (line_end pretty)).
      apply VT_object0, ws_app2; [apply line_end_ws|apply pad_ws].
    + unfold quoted. by apply VT_string, create_escapes_text.
  - apply write_container; [|done|done]. destruct (is_empty_string data); [done|].
    by destruct kc.
Qed.
End Text.

Lemma write_json_text pretty t x :
  write_json pretty t = Ok x → utf8_tree t = true → json_text t x.
Proof.
  unfold write_json. destruct (verify_json t 0) eqn:E; [|done]. intros [= <-] Hu.
  exists EmptyString. eexists _, NL. split; [by rewrite str_app_nil_l|].
  split; [done|]. split; [by apply write_text|done].
Qed.

(** C19: a tree whose strings are well-formed UTF-8 and that [write_json] accepts
    is written, compactly or indented, as a text that [read_json] reads back as
    the same tree. *)
Theorem write_read_json (pretty : bool) (t : ptree) (x : string) :
  utf8_tree t = true → write_json pretty t = Ok x → read_json x = Ok t.
Proof.
  intros Hu Hx. apply value_read. by eapply write_json_text.
Qed.

(** An array of a string with a control character and an object. *)
Lemma write_read_json_witness :
  read_json ("{" +:+ QUOTE +:+ "a" +:+ QUOTE +:+ ":[" +:+ QUOTE +:+ "x\u0001" +:+ QUOTE +:+
    ",{" +:+ QUOTE +:+ "b" +:+ QUOTE +:+ ":" +:+ QUOTE +:+ "1" +:+ QUOTE +:+ "}]}" +:+ NL) =
  Ok (Node EmptyString [("a", Node EmptyString
    [(EmptyString, Node (String "x" (str1 (chr 1))) []);
     (EmptyString, Node EmptyString [("b", Node "1" [])])])]).
Proof.
  apply (write_read_json false); [reflexivity|]. vm_compute. reflexivity.
Defined.
