(* ===== verification/Logging.v ===== *)
(** * Logging: src/Logging.hpp and src/Logging.cpp

    A [Logger] writes lines to the two console streams.  [writeLock] and
    [writeUnLock] hold [ioMutex] around each line, so a line is one atom. *)

From S2P Require Import Prelude Owns.

Local Open Scope Z_scope.

(** ** Data *)

Inductive LogLevel := LogLevelError | LogLevelInfo | LogLevelExtreme.
#[export] Instance LogLevel_eq_dec : EqDecision LogLevel.
Proof. solve_decision. Defined.

(** The value of the enumerator. *)
Definition level_value (l : LogLevel) : Z :=
  match l with LogLevelError => 1 | LogLevelInfo => 2 | LogLevelExtreme => 3 end.

Record Logger := { _level : LogLevel; _messagePrefix : string }.
Definition make_Logger (level : LogLevel) (channel : string) : Logger :=
  {| _level := level; _messagePrefix := "__" +:+ channel +:+ ": " |}.

Inductive stream := Cout | Cerr.
(** The lines written, oldest first. *)
Definition console := list (stream * string).

(** ** Operations *)

Definition write_line (st : stream) (text : string) : thread console unit :=
  modify (λ c, c ++ [(st, text)]).

(** One line for each argument. *)
Fixpoint logArgs (lg : Logger) (level : LogLevel) (args : list string)
    : thread console unit :=
  match args with
  | [] => mret tt
  | arg :: args =>
      _ ← write_line (match level with LogLevelError => Cerr | _ => Cout end)
        (_messagePrefix lg +:+ arg);
      logArgs lg level args
  end.

Definition log (lg : Logger) (level : LogLevel) (args : list string)
    : thread console unit :=
  if level_value level <=? level_value (_level lg) then logArgs lg level args
  else mret tt.

(** [logger << arg]. *)
Definition log_info (lg : Logger) (arg : string) : thread console unit :=
  log lg LogLevelInfo [arg].

(** ** What is logged *)

(** The lines a call of [log] adds to the console. *)
Definition log_lines (lg : Logger) (level : LogLevel) (args : list string) : console :=
  if level_value level <=? level_value (_level lg)
  then map (λ arg, (match level with LogLevelError => Cerr | _ => Cout end,
                    _messagePrefix lg +:+ arg)) args
  else [].

Lemma run_logArgs lg level args c :
  run (logArgs lg level args) c =
  (Finished tt, c ++ map (λ arg, (match level with LogLevelError => Cerr | _ => Cout end,
    _messagePrefix lg +:+ arg)) args).
Proof.
  revert c; induction args as [|arg args IH]; intros c; cbn [logArgs map].
  - by rewrite app_nil_r.
  - unfold write_line. run_simpl. by rewrite IH, <- app_assoc.
Qed.

(** A message is written, one line per argument and each behind the
    logger's prefix, exactly when its level is at most the logger's; errors go
    to the error stream and everything else to the output stream; nothing else
    is written and logging never fails or blocks. *)
Theorem log_writes (lg : Logger) (level : LogLevel) (args : list string) (c : console) :
  run (log lg level args) c =
  (Finished tt, c ++
    if level_value level <=? level_value (_level lg)
    then map (λ arg, (if decide (level = LogLevelError) then Cerr else Cout,
                      _messagePrefix lg +:+ arg)) args
    else []).
Proof.
  unfold log. destruct (_ <=? _); [|by rewrite app_nil_r].
  rewrite run_logArgs. by destruct level.
Qed.

Lemma run_log lg level args c :
  run (log lg level args) c = (Finished tt, c ++ log_lines lg level args).
Proof.
  unfold log, log_lines. destruct (_ <=? _); [apply run_logArgs|by rewrite app_nil_r].
Qed.
(** Logging waits for nothing. *)
Lemma waitless_log lg level args : waitless (log lg level args).
Proof.
  unfold log. destruct (_ <=? _); [|done]. induction args as [|arg args IH]; [done|].
  apply waitless_bind; [done|by intros _].
Qed.
