(* ===== verification/LogLock.v ===== *)
(** * The lock around a line: src/Logging.cpp

    Logging.v takes a line for one atom.  Here the loggers are run character by
    character, with [ioMutex] as a lock that [writeLock] takes and [writeUnLock]
    gives back, and the machine is shown to implement the pools of Logging.v's
    threads: whatever the interleaving, the streams hold whole lines and, behind
    them, what the holder of the lock has written of its own. *)

From S2P Require Import Prelude Logging.

Local Open Scope Z_scope.

(** ** The code of a line *)

Inductive instr := ILock | IUnlock | IPut (st : stream) (ch : ascii).
#[export] Instance stream_eq_dec : EqDecision stream.
Proof. solve_decision. Defined.

(** [ioMutex.lock()], [ioMutex.unlock()] *)
Definition writeLock : list instr := [ILock].
Definition writeUnLock : list instr := [IUnlock].

(** [st << s], one character at a time: concurrent insertions may interleave at any. *)
Fixpoint put (st : stream) (s : string) : list instr :=
  match s with
  | EmptyString => []
  | String ch s => IPut st ch :: put st s
  end.

Definition stream_of (level : LogLevel) : stream :=
  match level with LogLevelError => Cerr | _ => Cout end.

(** [logArgs]; [std::endl] writes the end of the line. *)
Fixpoint logArgs_code (lg : Logger) (level : LogLevel) (args : list string) : list instr :=
  match args with
  | [] => []
  | arg :: args =>
      (match level with
       | LogLevelError =>
           writeLock ++ put Cerr (_messagePrefix lg) ++ put Cerr arg ++ put Cerr NL ++ writeUnLock
       | _ => writeLock ++ put Cout (_messagePrefix lg) ++ put Cout arg ++ put Cout NL ++ writeUnLock
       end) ++ logArgs_code lg level args
  end.
Definition log_code (lg : Logger) (level : LogLevel) (args : list string) : list instr :=
  if level_value level <=? level_value (_level lg) then logArgs_code lg level args else [].

(** ** The machine *)

Record io := { ioMutex : option nat; cout : string; cerr : string }.
Definition io_new : io := {| ioMutex := None; cout := EmptyString; cerr := EmptyString |}.
Definition text (st : stream) (w : io) : string :=
  match st with Cout => cout w | Cerr => cerr w end.
Definition set_mutex (h : option nat) (w : io) : io :=
  {| ioMutex := h; cout := cout w; cerr := cerr w |}.
Definition add_char (st : stream) (ch : ascii) (w : io) : io :=
  match st with
  | Cout => {| ioMutex := ioMutex w; cout := cout w +:+ String ch EmptyString; cerr := cerr w |}
  | Cerr => {| ioMutex := ioMutex w; cout := cout w; cerr := cerr w +:+ String ch EmptyString |}
  end.

(** The instruction by thread [i]: [None] while it cannot be executed.  A thread waits for
    the mutex; to unlock one that it does not hold has no behaviour. *)
Definition exec_instr (i : nat) (c : instr) (w : io) : option io :=
  match c with
  | ILock => match ioMutex w with None => Some (set_mutex (Some i) w) | Some _ => None end
  | IUnlock => if decide (ioMutex w = Some i) then Some (set_mutex None w) else None
  | IPut st ch => Some (add_char st ch w)
  end.

Definition machine : Type := list (list instr) * io.
Inductive io_step : machine → machine → Prop :=
| IoStep ts w i c code w' :
    ts !! i = Some (c :: code) → exec_instr i c w = Some w' →
    io_step (ts, w) (<[i := code]> ts, w').

(** The same steps, executable: which thread goes on. *)
Fixpoint run_schedule (sched : list nat) (m : machine) : option machine :=
  match sched with
  | [] => Some m
  | i :: sched =>
      match m.1 !! i with
      | Some (c :: code) => w ← exec_instr i c m.2; run_schedule sched (<[i := code]> m.1, w)
      | _ => None
      end
  end.
Lemma run_schedule_sound sched m m' : run_schedule sched m = Some m' → star io_step m m'.
Proof.
  revert m; induction sched as [|i sched IH]; intros [ts w] E; cbn in E; [simplify_eq; apply star_refl|].
  destruct (ts !! i) as [[|c code]|] eqn:Hi; [done| |done].
  apply bind_Some in E as (w' & He & E). eapply star_step; [by eapply IoStep|]. by apply IH.
Qed.

(** ** Threads that log *)

(** A call of [Logger::log]. *)
Record log_call := { by_logger : Logger; at_level : LogLevel; with_args : list string }.
Definition calls_code (cs : list log_call) : list instr :=
  concat (map (λ c, log_code (by_logger c) (at_level c) (with_args c)) cs).
(** The same calls as a thread of Logging.v. *)
Fixpoint calls_thread (cs : list log_call) : thread console unit :=
  match cs with
  | [] => mret tt
  | c :: cs => _ ← log (by_logger c) (at_level c) (with_args c); calls_thread cs
  end.
(** What the lines of a console leave in a stream. *)
Fixpoint render (st : stream) (c : console) : string :=
  match c with
  | [] => EmptyString
  | (st', line) :: c => (if decide (st' = st) then line +:+ NL else EmptyString) +:+ render st c
  end.

(** ** Lines *)

Definition line_code (l : stream * string) : list instr :=
  writeLock ++ put l.1 (l.2 +:+ NL) ++ writeUnLock.
Definition call_lines (c : log_call) : console :=
  log_lines (by_logger c) (at_level c) (with_args c).
Definition lines_code (ls : console) : list instr := concat (map line_code ls).

Lemma put_app st s t : put st (s +:+ t) = put st s ++ put st t.
Proof. induction s as [|ch s IH]; [done|]. rewrite str_app_cons. cbn [put]. by rewrite IH. Qed.
Lemma render_app st c c' : render st (c ++ c') = render st c +:+ render st c'.
Proof.
  induction c as [|[st' l] c IH]; [done|]. cbn. by rewrite IH, str_app_assoc.
Qed.
Lemma calls_code_lines cs : calls_code cs = lines_code (concat (map call_lines cs)).
Proof.
  unfold calls_code, lines_code. induction cs as [|[lg level args] cs IH]; [done|]. cbn [map concat].
  rewrite IH, map_app, concat_app. f_equal. unfold log_code, call_lines, log_lines. cbn.
  destruct (_ <=? _); [|done]. clear. induction args as [|arg args IH]; [done|].
  cbn [logArgs_code map concat]. rewrite IH. f_equal. unfold line_code. cbn [fst snd].
  rewrite !put_app, <- !app_assoc. by destruct level.
Qed.

(** The thread writes the lines, one at each of its steps, and ends. *)
Fixpoint writes (t : thread console unit) (ls : console) : Prop :=
  match ls with
  | [] => t = TRet tt
  | l :: ls => ∀ c, ∃ t', tstep t c = Some (t', c ++ [l]) ∧ writes t' ls
  end.
Lemma writes_calls cs : writes (calls_thread cs) (concat (map call_lines cs)).
Proof.
  induction cs as [|[lg level args] cs IH]; [done|]. cbn [map concat calls_thread].
  unfold log, call_lines, log_lines. cbn [by_logger at_level with_args].
  destruct (_ <=? _); [|exact IH]. induction args as [|arg args IHa]; [exact IH|].
  intros c. eexists. split; [reflexivity|]. exact IHa.
Qed.

(** ** The simulation *)

(** The thread holding the lock, the stream its line is for and what it has written of it. *)
Definition holding : Type := option (nat * stream * string).
Definition holder_of (h : holding) : option nat := (λ x, x.1.1) <$> h.
Definition partial (h : holding) (st : stream) : string :=
  match h with
  | Some (_, st', part) => if decide (st' = st) then part else EmptyString
  | None => EmptyString
  end.

(** Outside the lock a thread has whole lines to write, as the thread of Logging.v has;
    the holder has the rest of one before them. *)
Definition outside (code : list instr) (u : thread console unit) : Prop :=
  ∃ ls, writes u ls ∧ code = lines_code ls.
Definition inside (st : stream) (part : string) (code : list instr) (u : thread console unit)
    : Prop :=
  ∃ line rest ls, writes u ((st, line) :: ls) ∧ line +:+ NL = part +:+ rest ∧
    code = put st rest ++ writeUnLock ++ lines_code ls.
Definition thread_sim (h : holding) (i : nat) (code : list instr) (u : thread console unit) : Prop :=
  match h with
  | Some (j, st, part) => if decide (i = j) then inside st part code u else outside code u
  | None => outside code u
  end.
Record sim (h : holding) (m : machine) (us : list (thread console unit)) (c : console) : Prop := {
  sim_mutex : ioMutex m.2 = holder_of h;
  sim_length : length m.1 = length us;
  sim_thread i code u : m.1 !! i = Some code → us !! i = Some u → thread_sim h i code u;
  sim_holder i st part : h = Some (i, st, part) → (i < length us)%nat;
  sim_text st : text st m.2 = render st c +:+ partial h st;
}.

Lemma sim_start css : sim None (map calls_code css, io_new) (map calls_thread css) [].
Proof.
  split; cbn; try done.
  - by rewrite !length_map.
  - intros i code u Hc Hu. apply list_lookup_fmap_Some in Hc as (cs & -> & Hcs).
    apply list_lookup_fmap_Some in Hu as (cs' & -> & Hcs'). simplify_eq.
    exists (concat (map call_lines cs)). split; [apply writes_calls|apply calls_code_lines].
  - by intros [].
Qed.

Lemma thread_sim_other h h' i code u :
  thread_sim h i code u → (∀ st p, h ≠ Some (i, st, p)) → (∀ st p, h' ≠ Some (i, st, p)) →
  thread_sim h' i code u.
Proof.
  intros Ht Hh Hh'. assert (outside code u) as Ho.
  { destruct h as [[[k st] p]|]; [|done]. cbn in Ht. destruct (decide (i = k)) as [->|]; [|done].
    by destruct (Hh st p). }
  destruct h' as [[[k st] p]|]; [|done]. cbn. destruct (decide (i = k)) as [->|]; [|done].
  by destruct (Hh' st p).
Qed.

(** The first instruction of whole lines takes the lock. *)
Lemma outside_cons c code u :
  outside (c :: code) u → ∃ st line ls, c = ILock ∧ writes u ((st, line) :: ls) ∧
    code = put st (line +:+ NL) ++ writeUnLock ++ lines_code ls.
Proof.
  intros ([|[st line] ls] & Hw & E); [done|]. cbn in E. injection E as -> ->.
  exists st, line, ls. split; [done|]. split; [done|]. by rewrite <- app_assoc.
Qed.

Lemma add_char_text st st' ch w :
  text st (add_char st' ch w) = text st w +:+ (if decide (st' = st) then String ch EmptyString else EmptyString).
Proof. by destruct st, st'; cbn; rewrite ?str_app_nil_r. Qed.
Lemma add_char_mutex st ch w : ioMutex (add_char st ch w) = ioMutex w.
Proof. by destruct st. Qed.

(** The other threads of a pool in which the thread [i] has stepped. *)
Lemma sim_others h h' i (ts : list (list instr)) (us : list (thread console unit)) code u :
  (∀ j code u, ts !! j = Some code → us !! j = Some u → thread_sim h j code u) →
  (∀ j st p, j ≠ i → h ≠ Some (j, st, p)) → (∀ j st p, j ≠ i → h' ≠ Some (j, st, p)) →
  thread_sim h' i code u →
  ∀ j code' u', <[i := code]> ts !! j = Some code' → <[i := u]> us !! j = Some u' →
    thread_sim h' j code' u'.
Proof.
  intros Ht Hh Hh' Hi j code' u' Hc Hu.
  apply list_lookup_insert_Some in Hc as [(<- & <- & _)|[Hne Hc]];
    apply list_lookup_insert_Some in Hu as [(? & Eu & _)|[Hne' Hu]]; try done; [by subst u'|].
  apply (thread_sim_other h); [by apply Ht|..]; intros st p; [apply Hh|apply Hh']; congruence.
Qed.

Lemma sim_step h m m' us c :
  sim h m us c → io_step m m' →
  ∃ h' us' c', star pool_step (us, c) (us', c') ∧ sim h' m' us' c'.
Proof.
  intros [Hm Hl Ht Hh Hx] Hst. destruct Hst as [ts w i ins code w' Hi He].
  cbn [fst snd] in *. assert (is_Some (us !! i)) as [u Hu].
  { apply lookup_lt_is_Some. rewrite <- Hl. by eapply lookup_lt_Some. }
  assert (Hlt := lookup_lt_Some _ _ _ Hu). pose proof (Ht i _ _ Hi Hu) as Hsim.
  assert (length (<[i := code]> ts) = length us) as Hl' by (by rewrite length_insert).
  destruct h as [[[j st] part]|]; cbn in Hsim; [destruct (decide (i = j)) as [<-|Hne]|].
  - destruct Hsim as (line & rest & ls & Hw & El & Ec). destruct rest as [|ch rest]; cbn in Ec.
    + injection Ec as -> ->. cbn in He. rewrite Hm in He. cbn in He.
      rewrite decide_True in He by done. injection He as <-.
      destruct (Hw c) as (u' & Eu & Hw'). exists None, (<[i := u']> us), (c ++ [(st, line)]).
      split; [by apply star_one; econstructor|]. split; cbn [fst snd]; try done.
      * by rewrite Hl', length_insert.
      * apply (sim_others (Some (i, st, part)) None); [done|congruence|done|]. by exists ls.
      * intros st'. change (text st' w = _) with (text st' w = _). 
        replace (text st' (set_mutex None w)) with (text st' w) by (by destruct st').
        rewrite Hx, render_app. cbn. rewrite El, !str_app_nil_r. done.
    + injection Ec as -> ->. injection He as <-. exists (Some (i, st, part +:+ String ch EmptyString)), us, c.
      split; [apply star_refl|]. split; cbn [fst snd]; try done.
      * by rewrite add_char_mutex.
      * rewrite <- (list_insert_id us i u) by done.
        apply (sim_others (Some (i, st, part))); [done|congruence..|]. cbn. rewrite decide_True by done.
        exists line, rest, ls. split; [done|]. split; [|done]. by rewrite El, str_app_assoc.
      * intros i' st' p [= <- _ _]. done.
      * intros st'. rewrite add_char_text, Hx. cbn. destruct (decide _); by rewrite ?str_app_assoc, ?str_app_nil_r.
  - apply outside_cons in Hsim as (st' & line & ls & -> & _). cbn in He. by rewrite Hm in He.
  - apply outside_cons in Hsim as (st & line & ls & -> & Hw & ->). cbn in He. rewrite Hm in He.
    injection He as <-. exists (Some (i, st, EmptyString)), us, c.
    split; [apply star_refl|]. split; cbn [fst snd]; try done.
    + rewrite <- (list_insert_id us i u) by done.
      apply (sim_others None); [done|congruence..|]. cbn. rewrite decide_True by done.
      exists line, (line +:+ NL), ls. by rewrite str_app_nil_l.
    + intros i' st' p [= <- _ _]. done.
    + intros st'. replace (text st' (set_mutex (Some i) w)) with (text st' w) by (by destruct st').
      rewrite Hx. cbn. by destruct (decide _).
Qed.

Lemma sim_run css m :
  star io_step (map calls_code css, io_new) m →
  ∃ h us c, star pool_step (map calls_thread css, []) (us, c) ∧ sim h m us c.
Proof.
  intros Hs. remember (map calls_code css, io_new) as m0 eqn:E0.
  assert (∃ h us c, star pool_step (map calls_thread css, []) (us, c) ∧ sim h m0 us c) as Hsim.
  { subst m0. exists None, (map calls_thread css), []. split; [apply star_refl|apply sim_start]. }
  clear E0. induction Hs as [m|m m1 m2 Hst Hs IH]; [done|]. apply IH.
  destruct Hsim as (h & us & c & Hp & Hsim). destruct (sim_step _ _ _ _ _ Hsim Hst) as (h' & us' & c' & Hp' & Hsim').
  exists h', us', c'. split; [by eapply star_trans|done].
Qed.

(** ** What the lock promises *)

Definition remaining (m : machine) : nat := sum_list (map length m.1).
Definition finished (m : machine) : Prop := Forall (λ code, code = []) m.1.

Lemma remaining_step m m' : io_step m m' → (remaining m' < remaining m)%nat.
Proof.
  intros [ts w i c code w' Hi _]. unfold remaining. cbn [fst].
  revert i Hi. induction ts as [|code' ts IH]; intros [|i] Hi; [done..| |]; cbn in Hi.
  - simplify_eq. cbn. lia.
  - specialize (IH i Hi).
    change (<[S i := code]> (code' :: ts)) with (code' :: <[i := code]> ts).
    cbn [map sum_list sum_list_with foldr] in *. lia.
Qed.

Lemma sim_progress h m us c : sim h m us c → finished m ∨ ∃ m', io_step m m'.
Proof.
  destruct m as [ts w]. intros [Hm Hl Ht Hh Hx]. cbn [fst snd] in *.
  destruct h as [[[i st] part]|].
  - right. specialize (Hh i st part eq_refl). destruct (lookup_lt_is_Some_2 us i Hh) as [u Hu].
    destruct (lookup_lt_is_Some_2 ts i) as [code Hc]; [by rewrite Hl|].
    specialize (Ht i code u Hc Hu). cbn in Ht. rewrite decide_True in Ht by done.
    destruct Ht as (line & rest & ls & _ & _ & ->). destruct rest as [|ch rest].
    + eexists. eapply IoStep; [exact Hc|]. cbn. by rewrite decide_True.
    + eexists. by eapply IoStep; [exact Hc|].
  - destruct (decide (Forall (λ code, code = []) ts)) as [Hf|Hf]; [by left|right].
    apply not_Forall_Exists in Hf; [|apply _]. apply Exists_exists in Hf as (code & Hin & Hne).
    apply list_elem_of_lookup in Hin as [i Hi].
    destruct (lookup_lt_is_Some_2 us i) as [u Hu]; [rewrite <- Hl; by eapply lookup_lt_Some|].
    destruct (Ht i code u Hi Hu) as ([|[st line] ls] & _ & ->); [by destruct Hne|].
    eexists. eapply IoStep; [exact Hi|]. cbn. by rewrite Hm.
Qed.

Lemma sim_finished h m us c : sim h m us c → finished m → h = None ∧ Forall (λ u, u = TRet tt) us.
Proof.
  intros [Hm Hl Ht Hh Hx] Hf. assert (h = None) as ->.
  { destruct h as [[[i st] part]|]; [|done]. specialize (Hh i st part eq_refl).
    destruct (lookup_lt_is_Some_2 us i Hh) as [u Hu].
    destruct (lookup_lt_is_Some_2 m.1 i) as [code Hc]; [by rewrite Hl|].
    specialize (Ht i code u Hc Hu). cbn in Ht. rewrite decide_True in Ht by done.
    destruct Ht as (line & rest & ls & _ & _ & E). rewrite (proj1 (Forall_lookup _ _) Hf i code Hc) in E.
    destruct rest; discriminate E. }
  split; [done|]. apply Forall_lookup. intros i u Hu.
  destruct (lookup_lt_is_Some_2 m.1 i) as [code Hc]; [rewrite Hl; by eapply lookup_lt_Some|].
  destruct (Ht i code u Hc Hu) as (ls & Hw & E). rewrite (proj1 (Forall_lookup _ _) Hf i code Hc) in E.
  by destruct ls.
Qed.

(** The text a stream has beyond whole lines: nothing while the lock is free, and a part
    of the line that its holder's thread [u] is about to write. *)
Definition begun (h : option nat) (us : list (thread console unit)) (part : stream → string)
    : Prop :=
  match h with
  | None => ∀ st, part st = EmptyString
  | Some i => ∃ u st line, us !! i = Some u ∧
      (∀ c, ∃ u', tstep u c = Some (u', c ++ [(st, line)])) ∧
      (∃ rest, line +:+ NL = part st +:+ rest) ∧ ∀ st', st' ≠ st → part st' = EmptyString
  end.

Lemma sim_begun h m us c : sim h m us c → begun (ioMutex m.2) us (partial h).
Proof.
  intros [Hm Hl Ht Hh Hx]. rewrite Hm. destruct h as [[[i st] part]|]; [|done]. cbn [holder_of fmap option_fmap option_map fst].
  specialize (Hh i st part eq_refl). destruct (lookup_lt_is_Some_2 us i Hh) as [u Hu].
  destruct (lookup_lt_is_Some_2 m.1 i) as [code Hc]; [by rewrite Hl|].
  specialize (Ht i code u Hc Hu). cbn in Ht. rewrite decide_True in Ht by done.
  destruct Ht as (line & rest & ls & Hw & El & _). exists u, st, line. split; [done|].
  split; [intros c'; destruct (Hw c') as (u' & E & _); by exists u'|]. cbn. split.
  - exists rest. by rewrite decide_True.
  - intros st' Hne. by rewrite decide_False by congruence.
Qed.

(** C35: threads that log through [ioMutex], character by character and interleaved in any
    way, do what Logging.v's threads do, a line at a step: the streams hold the lines of
    such a run, whole and in its order, and behind them only what the lock's holder has
    written of its next line.  No state is stuck before every thread has written everything,
    and each step leaves less to do; at the end the lock is free and nothing is left over. *)
Theorem lines_stay_whole (css : list (list log_call)) (m : machine) :
  star io_step (map calls_code css, io_new) m →
  (∃ us c part, star pool_step (map calls_thread css, []) (us, c) ∧
    (∀ st, text st m.2 = render st c +:+ part st) ∧ begun (ioMutex m.2) us part ∧
    (finished m → ioMutex m.2 = None ∧ Forall (λ u, u = TRet tt) us)) ∧
  (finished m ∨ ∃ m', io_step m m') ∧ (∀ m', io_step m m' → (remaining m' < remaining m)%nat).
Proof.
  intros Hs. destruct (sim_run css m Hs) as (h & us & c & Hp & Hsim).
  split; [|split; [by eapply sim_progress|by apply remaining_step]].
  exists us, c, (partial h). split; [done|]. split; [apply Hsim|].
  split; [by eapply sim_begun|]. intros Hf. destruct (sim_finished _ _ _ _ Hsim Hf) as [-> ?].
  by rewrite (sim_mutex _ _ _ _ Hsim).
Qed.

(** Two threads: the second has logged its line, the first has begun its own. *)
Definition two_logs : list (list log_call) :=
  [[{| by_logger := make_Logger LogLevelInfo "A"; at_level := LogLevelInfo; with_args := ["x"; "y"] |}];
   [{| by_logger := make_Logger LogLevelInfo "B"; at_level := LogLevelInfo; with_args := ["z"] |};
    {| by_logger := make_Logger LogLevelInfo "B"; at_level := LogLevelExtreme; with_args := ["w"] |}]].
Definition two_logs_state : machine :=
  default ([], io_new) (run_schedule (repeat 1%nat 9 ++ repeat 0%nat 4) (map calls_code two_logs, io_new)).
Lemma lines_stay_whole_witness :
  cout two_logs_state.2 = "__B: z" +:+ NL +:+ "__A" ∧ ioMutex two_logs_state.2 = Some 0%nat ∧
  ∃ us c part, star pool_step (map calls_thread two_logs, []) (us, c) ∧
    (∀ st, text st two_logs_state.2 = render st c +:+ part st) ∧ begun (Some 0%nat) us part.
Proof.
  split; [vm_compute; reflexivity|]. split; [vm_compute; reflexivity|].
  destruct (lines_stay_whole two_logs two_logs_state) as [(us & c & part & Hp & Hx & Hb & _) _].
  { apply (run_schedule_sound (repeat 1%nat 9 ++ repeat 0%nat 4)). vm_compute. reflexivity. }
  exists us, c, part. split; [exact Hp|]. split; [exact Hx|].
  replace (Some 0%nat) with (ioMutex two_logs_state.2) by (vm_compute; reflexivity). exact Hb.
Defined.
