(* ===== verification/Futures.v ===== *)
(** * Futures: the FutureChannel of src/SwiftCompleter.cpp

    Promises are heap objects that the channel owns between [future] and
    [set]; a future shares a state with its promise that outlives it.  Both
    operations hold [_shared_mutex] throughout, so each is one atom. *)

From S2P Require Import Prelude.

(** ** Data *)

(** The state a promise shares with its future. *)
Inductive shared_state := Pending | Value (v : string) | Broken.

(** An object of the promise heap is named by its number; [alive] holds those
    not yet deleted, [retrieved] those whose future has been taken. *)
Record FutureChannel := {
  _promises : gmap string (list nat);
  next_promise : nat;
  alive : gset nat;
  retrieved : gset nat;
  shared : gmap nat shared_state;
}.

Definition channel_new : FutureChannel :=
  {| _promises := ∅; next_promise := 0; alive := ∅; retrieved := ∅; shared := ∅ |}.

(** ** std::promise *)

Definition promise_new (ch : FutureChannel) : nat * FutureChannel :=
  (next_promise ch,
   {| _promises := _promises ch; next_promise := S (next_promise ch);
      alive := {[next_promise ch]} ∪ alive ch; retrieved := retrieved ch;
      shared := <[next_promise ch := Pending]> (shared ch) |}).

Definition set_value (p : nat) (v : string) (ch : FutureChannel)
    : outcome FutureChannel :=
  if decide (p ∉ alive ch) then Fail (UndefinedBehavior "set_value on a deleted promise") else
  match shared ch !! p with
  | Some Pending =>
      Ok {| _promises := _promises ch; next_promise := next_promise ch;
            alive := alive ch; retrieved := retrieved ch;
            shared := <[p := Value v]> (shared ch) |}
  | _ => Fail (Exn (std_future_error "promise_already_satisfied"))
  end.

(** [delete promise]: an unsatisfied promise breaks its future. *)
Definition promise_delete (p : nat) (ch : FutureChannel) : outcome FutureChannel :=
  if decide (p ∉ alive ch) then Fail (UndefinedBehavior "double delete") else
  Ok {| _promises := _promises ch; next_promise := next_promise ch;
        alive := alive ch ∖ {[p]}; retrieved := retrieved ch;
        shared := match shared ch !! p with
                  | Some Pending => <[p := Broken]> (shared ch)
                  | _ => shared ch
                  end |}.

Definition get_future (p : nat) (ch : FutureChannel) : outcome (nat * FutureChannel) :=
  if decide (p ∉ alive ch) then Fail (UndefinedBehavior "get_future on a deleted promise") else
  if decide (p ∈ retrieved ch) then Fail (Exn (std_future_error "future_already_retrieved"))
  else Ok (p, {| _promises := _promises ch; next_promise := next_promise ch;
                 alive := alive ch; retrieved := {[p]} ∪ retrieved ch;
                 shared := shared ch |}).

(** ** The channel *)

Definition with_promises (m : gmap string (list nat)) (ch : FutureChannel)
    : FutureChannel :=
  {| _promises := m; next_promise := next_promise ch; alive := alive ch;
     retrieved := retrieved ch; shared := shared ch |}.

Fixpoint set_entries (ps : list nat) (value : string) (ch : FutureChannel)
    : outcome FutureChannel :=
  match ps with
  | [] => Ok ch
  | p :: ps =>
      ch ← set_value p value ch;
      ch ← promise_delete p ch;
      set_entries ps value ch
  end.

Definition set (key value : string) (ch : FutureChannel) : outcome FutureChannel :=
  match _promises ch !! key with
  | Some entries =>
      ch ← set_entries entries value ch;
      Ok (with_promises (delete key (_promises ch)) ch)
  | None => Ok ch
  end.

(** [_promises[key].push_back(promise)]: a missing entry is created empty. *)
Definition push_back (key : string) (p : nat) (ch : FutureChannel) : FutureChannel :=
  with_promises (<[key := default [] (_promises ch !! key) ++ [p]]> (_promises ch)) ch.

Definition future (key : string) (ch : FutureChannel) : outcome (nat * FutureChannel) :=
  let '(p, ch) := promise_new ch in
  get_future p (push_back key p ch).

(** [future.get()] waits for the shared state. *)
Definition future_ready (p : nat) (ch : FutureChannel) : option (outcome string) :=
  match shared ch !! p with
  | Some (Value v) => Some (Ok v)
  | Some Broken => Some (Fail (Exn (std_future_error "broken_promise")))
  | Some Pending => None
  | None => Some (Fail (Exn (std_future_error "no_state")))
  end.
Definition future_get (p : nat) : thread FutureChannel string :=
  TWait (future_ready p) TRet.

Definition lift_set (key value : string) : thread FutureChannel unit :=
  TAtom (λ ch, match set key value ch with
               | Ok ch => (TRet tt, ch)
               | Fail f => (TFail f, ch)
               end).
Definition lift_future (key : string) : thread FutureChannel nat :=
  TAtom (λ ch, match future key ch with
               | Ok (p, ch) => (TRet p, ch)
               | Fail f => (TFail f, ch)
               end).

(** ** Histories *)

(** The calls made on the channel, in the order the mutex serves them. *)
Inductive operation := OpSet (key value : string) | OpFuture (key : string).

Definition execute_op (o : operation) (ch : FutureChannel) : outcome FutureChannel :=
  match o with
  | OpSet k v => set k v ch
  | OpFuture k => '(_, ch) ← future k ch; Ok ch
  end.
Fixpoint execute (os : list operation) (ch : FutureChannel) : outcome FutureChannel :=
  match os with
  | [] => Ok ch
  | o :: os => ch ← execute_op o ch; execute os ch
  end.

(** The value of the first [set] on [key]. *)
Fixpoint first_set (key : string) (os : list operation) : option string :=
  match os with
  | [] => None
  | OpSet k v :: os => if String.eqb k key then Some v else first_set key os
  | OpFuture _ :: os => first_set key os
  end.

Definition futures_made (os : list operation) : nat :=
  length (List.filter (λ o, match o with OpFuture _ => true | _ => false end) os).

(** ** The invariant *)

(** A promise is registered under exactly one key, once; it is then alive and
    unsatisfied, and nothing else is alive. *)
Record well_formed (ch : FutureChannel) : Prop := {
  wf_alive p : p ∈ alive ch ↔ ∃ k ps, _promises ch !! k = Some ps ∧ p ∈ ps;
  wf_nodup k ps : _promises ch !! k = Some ps → NoDup ps;
  wf_disjoint k k' ps ps' p : _promises ch !! k = Some ps → _promises ch !! k' = Some ps' →
    p ∈ ps → p ∈ ps' → k = k';
  wf_pending p : p ∈ alive ch ↔ shared ch !! p = Some Pending;
  wf_fresh p : p < next_promise ch ↔ is_Some (shared ch !! p);
  wf_retrieved p : p ∈ retrieved ch ↔ p < next_promise ch;
  wf_unbroken p : shared ch !! p ≠ Some Broken;
}.

(** ** The operations from a well-formed channel *)

(** [set_entries] on distinct unsatisfied promises. *)
Lemma set_entries_spec ps v ch :
  NoDup ps → (∀ p, p ∈ ps → p ∈ alive ch ∧ shared ch !! p = Some Pending) →
  ∃ ch', set_entries ps v ch = Ok ch' ∧
    _promises ch' = _promises ch ∧ next_promise ch' = next_promise ch ∧
    retrieved ch' = retrieved ch ∧
    (∀ p, p ∈ alive ch' ↔ p ∈ alive ch ∧ p ∉ ps) ∧
    (∀ p, shared ch' !! p = if decide (p ∈ ps) then Some (Value v) else shared ch !! p).
Proof.
  revert ch; induction ps as [|p ps IH]; intros ch Hnd Hps.
  - exists ch. split_and!; try done. intros q. set_solver.
  - apply NoDup_cons in Hnd as [Hp Hnd].
    destruct (Hps p) as [Ha Hs]; [set_solver|].
    cbn [set_entries]. unfold set_value, promise_delete. rewrite Hs.
    rewrite decide_False by (by intros ?). cbn. rewrite decide_False by (by intros ?).
    rewrite lookup_insert_eq. cbn.
    match goal with |- context [set_entries ps v ?c] =>
      destruct (IH c Hnd) as (ch' & -> & Hm & Hn & Hr & Hal & Hsh) end.
    2: { exists ch'. split; [reflexivity|]. split; [exact Hm|]. split; [exact Hn|].
         split; [exact Hr|]. cbn in Hal, Hsh. split; [set_solver|]. intros q. rewrite Hsh.
         destruct (decide (q = p)) as [->|Hne].
         - rewrite (decide_False (P := p ∈ ps)) by done.
           rewrite (decide_True (P := p ∈ p :: ps)) by set_solver. by rewrite lookup_insert_eq.
         - rewrite lookup_insert_ne by done. destruct (decide (q ∈ ps)).
           + by rewrite decide_True by set_solver.
           + by rewrite decide_False by set_solver. }
    intros q Hq. cbn. destruct (Hps q) as [? ?]; [set_solver|].
    rewrite lookup_insert_ne by set_solver. set_solver.
Qed.

Definition registered (ch : FutureChannel) (key : string) (p : nat) : Prop :=
  ∃ ps, _promises ch !! key = Some ps ∧ p ∈ ps.

Lemma set_spec key v ch :
  well_formed ch →
  ∃ ch', set key v ch = Ok ch' ∧ well_formed ch' ∧
    _promises ch' = delete key (_promises ch) ∧ next_promise ch' = next_promise ch ∧
    (∀ p, registered ch key p → shared ch' !! p = Some (Value v)) ∧
    (∀ p, ¬ registered ch key p → shared ch' !! p = shared ch !! p).
Proof.
  intros Hwf. unfold set. destruct (_promises ch !! key) as [ps|] eqn:E.
  - destruct (set_entries_spec ps v ch) as (ch1 & -> & Hm & Hn & Hr & Hal & Hsh).
    { by eapply wf_nodup. }
    { intros p Hp. assert (p ∈ alive ch) by (apply wf_alive; eauto).
      split; [done|]. by apply wf_pending. }
    eexists; split; [reflexivity|]. cbn. rewrite Hm. split; [|split; [done|]].
    2: { split; [done|]. split; intros p Hp; rewrite Hsh.
         - destruct Hp as (ps' & ? & ?); simplify_eq. by rewrite decide_True.
         - rewrite decide_False; [done|]. intros ?. apply Hp. by exists ps. }
    assert (∀ k qs, delete key (_promises ch) !! k = Some qs ↔
      k ≠ key ∧ _promises ch !! k = Some qs) as Hd.
    { intros k qs. rewrite lookup_delete_Some. naive_solver. }
    constructor; cbn; rewrite ?Hm, ?Hn, ?Hr.
    + intros p. rewrite Hal, (wf_alive _ Hwf). setoid_rewrite Hd. split.
      * intros [(k & qs & Hk & Hp) Hnp]. exists k, qs. split_and!; try done. congruence.
      * intros (k & qs & [Hne Hk] & Hp). split; [by exists k, qs|]. intros Hps.
        apply Hne. by eapply (wf_disjoint _ Hwf k key qs ps p).
    + intros k qs [_ Hk]%Hd. by eapply wf_nodup.
    + intros k k' qs qs' p [_ Hk]%Hd [_ Hk']%Hd. by eapply (wf_disjoint _ Hwf).
    + intros p. rewrite Hal, Hsh, (wf_pending _ Hwf). case_decide; naive_solver.
    + intros p. rewrite Hsh, (wf_fresh _ Hwf). case_decide as Hp; [|done].
      split; [by eauto|]. intros _. exists Pending.
      apply (wf_pending _ Hwf), (wf_alive _ Hwf). by exists key, ps.
    + apply (wf_retrieved _ Hwf).
    + intros p. rewrite Hsh. case_decide; [done|]. apply (wf_unbroken _ Hwf).
  - exists ch. rewrite delete_id by done. split_and!; try done.
    intros p (ps & ? & _). congruence.
Qed.

Lemma future_spec key ch :
  well_formed ch →
  ∃ ch', future key ch = Ok (next_promise ch, ch') ∧ well_formed ch' ∧
    next_promise ch' = S (next_promise ch) ∧
    shared ch' = <[next_promise ch := Pending]> (shared ch) ∧
    registered ch' key (next_promise ch) ∧
    (∀ k p, p < next_promise ch → registered ch' k p ↔ registered ch k p).
Proof.
  intros Hwf. set (n := next_promise ch).
  assert (shared ch !! n = None) as Hn.
  { apply eq_None_not_Some. rewrite <- (wf_fresh _ Hwf). unfold n. lia. }
  assert (n ∉ alive ch) as Hna by (rewrite (wf_pending _ Hwf); congruence).
  assert (∀ k ps, _promises ch !! k = Some ps → n ∉ ps) as Hnp.
  { intros k ps Hk Hp. apply Hna, (wf_alive _ Hwf). eauto. }
  unfold future, promise_new, get_future. cbn. fold n.
  rewrite decide_False by set_solver.
  rewrite decide_False by (rewrite (wf_retrieved _ Hwf); unfold n; lia).
  eexists. split; [reflexivity|]. cbn.
  set (qs := default [] (_promises ch !! key)).
  assert (∀ p, p ∈ qs → registered ch key p) as Hqs.
  { unfold qs. intros p. destruct (_promises ch !! key) as [ps|] eqn:E; cbn; [|set_solver].
    intros ?. by exists ps. }
  split; [constructor; cbn|].
  - intros p. rewrite elem_of_union, elem_of_singleton, (wf_alive _ Hwf). split.
    + intros [->|(k & ps & Hk & Hp)].
      * exists key. rewrite lookup_insert_eq. eexists. split; [done|]. set_solver.
      * destruct (decide (k = key)) as [->|Hne].
        -- exists key. rewrite lookup_insert_eq. eexists; split; [done|].
           unfold qs. rewrite Hk. set_solver.
        -- exists k, ps. by rewrite lookup_insert_ne.
    + intros (k & ps & Hk & Hp). destruct (decide (k = key)) as [->|Hne].
      * rewrite lookup_insert_eq in Hk. simplify_eq. apply elem_of_app in Hp as [Hp|Hp].
        -- right. destruct (Hqs p Hp) as (ps & ? & ?). eauto.
        -- left. set_solver.
      * rewrite lookup_insert_ne in Hk by done. right. eauto.
  - intros k ps Hk. destruct (decide (k = key)) as [->|Hne].
    + rewrite lookup_insert_eq in Hk. simplify_eq. apply NoDup_app. split_and!.
      * unfold qs. destruct (_promises ch !! key) eqn:E; [by eapply wf_nodup|constructor].
      * intros p Hp. destruct (Hqs p Hp) as (ps & Hk & ?). specialize (Hnp _ _ Hk). set_solver.
      * apply NoDup_singleton.
    + rewrite lookup_insert_ne in Hk by done. by eapply wf_nodup.
  - intros k k' ps ps' p Hk Hk' Hp Hp'.
    assert (∀ k ps, <[key := qs ++ [n]]> (_promises ch) !! k = Some ps → p ∈ ps →
      registered ch k p ∨ k = key ∧ p = n) as Hc.
    { clear k k' ps ps' Hk Hk' Hp Hp'. intros k ps Hk Hp.
      destruct (decide (k = key)) as [->|Hne].
      - rewrite lookup_insert_eq in Hk. simplify_eq. apply elem_of_app in Hp as [Hp|Hp].
        + left. by apply Hqs.
        + right. set_solver.
      - rewrite lookup_insert_ne in Hk by done. left. by exists ps. }
    destruct (Hc _ _ Hk Hp) as [(?&?&?)|[-> ->]], (Hc _ _ Hk' Hp') as [(?&?&?)|[-> Hn']]; try done.
    + by eapply (wf_disjoint _ Hwf).
    + subst p. exfalso. by eapply Hnp.
    + exfalso. by eapply Hnp.
  - intros p. rewrite elem_of_union, elem_of_singleton, lookup_insert_Some, (wf_pending _ Hwf).
    destruct (decide (p = n)); naive_solver.
  - intros p. rewrite lookup_insert_is_Some, <- (wf_fresh _ Hwf). fold n. lia.
  - intros p. rewrite elem_of_union, elem_of_singleton, (wf_retrieved _ Hwf). fold n. lia.
  - intros p. destruct (decide (p = n)) as [->|]; [by rewrite lookup_insert_eq|].
    rewrite lookup_insert_ne by done. apply (wf_unbroken _ Hwf).
  - split; [done|]. split; [done|]. split.
    + exists (qs ++ [n]). cbn. rewrite lookup_insert_eq. split; [done|set_solver].
    + intros k p Hlt. unfold registered. cbn. destruct (decide (k = key)) as [->|Hne].
      * rewrite lookup_insert_eq. split.
        -- intros (ps & [= <-] & Hp). apply elem_of_app in Hp as [Hp|Hp]; [by apply Hqs|].
           apply list_elem_of_singleton in Hp. unfold n in *. lia.
        -- intros (ps & Hk & Hp). eexists; split; [done|]. unfold qs. rewrite Hk. set_solver.
      * by rewrite lookup_insert_ne.
Qed.

Lemma channel_new_wf : well_formed channel_new.
Proof.
  constructor; cbn; try (intros *; rewrite ?lookup_empty; naive_solver).
  - intros p. split; [set_solver|]. intros (k & ps & H & _). by rewrite lookup_empty in H.
  - intros p. rewrite lookup_empty. set_solver.
  - intros p. split; [lia|]. rewrite lookup_empty. by intros [].
  - intros p. split; [set_solver|lia].
Qed.

Lemma execute_set k v os ch ch' :
  set k v ch = Ok ch' → execute (OpSet k v :: os) ch = execute os ch'.
Proof. intros E. cbn [execute execute_op]. by rewrite E. Qed.
Lemma execute_future k os ch p ch' :
  future k ch = Ok (p, ch') → execute (OpFuture k :: os) ch = execute os ch'.
Proof. intros E. cbn [execute execute_op]. by rewrite E. Qed.

Lemma execute_wf os ch :
  well_formed ch → ∃ ch', execute os ch = Ok ch' ∧ well_formed ch' ∧
    next_promise ch' = futures_made os + next_promise ch.
Proof.
  revert ch; induction os as [|[k v|k] os IH]; intros ch Hwf; [by exists ch|..].
  - destruct (set_spec k v ch Hwf) as (ch1 & E & H1 & _ & Hn & _).
    rewrite (execute_set k v os ch ch1 E).
    destruct (IH ch1 H1) as (ch' & -> & ? & Hn'). exists ch'. by rewrite Hn', Hn.
  - destruct (future_spec k ch Hwf) as (ch1 & E & H1 & Hn & _).
    rewrite (execute_future k os ch _ ch1 E).
    destruct (IH ch1 H1) as (ch' & -> & ? & Hn'). exists ch'. rewrite Hn', Hn.
    split; [done|]. split; [done|]. unfold futures_made. cbn. lia.
Qed.

Lemma execute_app os os' ch :
  execute (os ++ os') ch = ch ← execute os ch; execute os' ch.
Proof.
  revert ch; induction os as [|o os IH]; intros ch; [done|]. cbn.
  destruct (execute_op o ch); [apply IH|done].
Qed.

(** A value, once there, stays. *)
Lemma execute_resolved os ch ch' p v :
  well_formed ch → execute os ch = Ok ch' → shared ch !! p = Some (Value v) →
  shared ch' !! p = Some (Value v).
Proof.
  revert ch; induction os as [|[k w|k] os IH]; intros ch Hwf E Hp; [cbn in E; by simplify_eq|..].
  - destruct (set_spec k w ch Hwf) as (ch1 & E1 & H1 & _ & _ & _ & Hu).
    rewrite (execute_set k w os ch ch1 E1) in E. apply (IH ch1 H1 E). rewrite Hu; [done|].
    intros (ps & Hk & Hin).
    assert (shared ch !! p = Some Pending); [|congruence].
    apply (wf_pending _ Hwf), (wf_alive _ Hwf). eauto.
  - destruct (future_spec k ch Hwf) as (ch1 & E1 & H1 & _ & Hs & _).
    rewrite (execute_future k os ch _ ch1 E1) in E. apply (IH ch1 H1 E). rewrite Hs.
    rewrite lookup_insert_ne; [done|]. intros <-.
    assert (next_promise ch < next_promise ch); [|lia]. apply (wf_fresh _ Hwf). eauto.
Qed.

(** A registered promise gets the value of the first [set] on its key. *)
Lemma execute_registered os ch ch' key p :
  well_formed ch → execute os ch = Ok ch' → registered ch key p →
  shared ch' !! p = Some (match first_set key os with Some v => Value v | None => Pending end).
Proof.
  revert ch; induction os as [|[k w|k] os IH]; intros ch Hwf E Hp.
  - cbn in E. simplify_eq. apply (wf_pending _ Hwf), (wf_alive _ Hwf). by exists key.
  - destruct (set_spec k w ch Hwf) as (ch1 & E1 & H1 & Hm & _ & Hr & Hu).
    rewrite (execute_set k w os ch ch1 E1) in E. cbn [first_set]. destruct (String.eqb_spec k key) as [->|Hne].
    + eapply execute_resolved; [exact H1|done|]. by apply Hr.
    + apply (IH ch1 H1 E). destruct Hp as (ps & Hk & Hin). exists ps.
      rewrite Hm, lookup_delete_ne; done.
  - destruct (future_spec k ch Hwf) as (ch1 & E1 & H1 & _ & _ & _ & Hr).
    rewrite (execute_future k os ch _ ch1 E1) in E. apply (IH ch1 H1 E). apply Hr; [|done].
    apply (wf_fresh _ Hwf). exists Pending. apply (wf_pending _ Hwf), (wf_alive _ Hwf).
    by exists key.
Qed.

(** C15: whatever calls reach the channel, in whatever order the mutex serves
    them, none fails: no promise is satisfied twice, used after its deletion or
    deleted twice, no future is retrieved twice and none is broken; every
    promise alive is registered under exactly one key and is unsatisfied. *)
Theorem channel_safe (os : list operation) :
  ∃ ch, execute os channel_new = Ok ch ∧ well_formed ch ∧
    next_promise ch = futures_made os.
Proof.
  destruct (execute_wf os channel_new channel_new_wf) as (ch & E & H & Hn).
  exists ch. cbn in Hn. by rewrite Nat.add_0_r in Hn.
Qed.

(** C14: a future receives the value of the first [set] on its key that comes
    after it was created, and no other; while there is none it stays pending,
    even when a [set] on the key came before. *)
Theorem future_value (pre post : list operation) (key : string) :
  ∃ ch, execute (pre ++ OpFuture key :: post) channel_new = Ok ch ∧
    future_ready (futures_made pre) ch =
      (Ok <$> first_set key post).
Proof.
  destruct (execute_wf pre channel_new channel_new_wf) as (ch1 & E1 & H1 & Hn).
  cbn in Hn. rewrite Nat.add_0_r in Hn.
  destruct (future_spec key ch1 H1) as (ch2 & E2 & H2 & _ & _ & Hr & _).
  destruct (execute_wf post ch2 H2) as (ch3 & E3 & _).
  exists ch3. rewrite execute_app, E1. cbn [mbind outcome_bind].
  rewrite (execute_future key post ch1 _ ch2 E2). split; [done|].
  unfold future_ready. rewrite <- Hn, (execute_registered post ch2 ch3 key _ H2 E3 Hr).
  by destruct (first_set key post).
Qed.

(** One [set] gives its value to every future waiting on the key and to no
    other, leaves the other keys' entries as they were and drops its own. *)
Theorem set_broadcasts (key value : string) (ch : FutureChannel) :
  well_formed ch →
  ∃ ch', set key value ch = Ok ch' ∧
    (∀ p, registered ch key p → future_ready p ch' = Some (Ok value)) ∧
    (∀ p, ¬ registered ch key p → future_ready p ch' = future_ready p ch) ∧
    _promises ch' = delete key (_promises ch).
Proof.
  intros Hwf. destruct (set_spec key value ch Hwf) as (ch' & E & _ & Hm & _ & Hr & Hu).
  exists ch'. split; [done|]. unfold future_ready. split_and!.
  - intros p Hp. by rewrite Hr.
  - intros p Hp. by rewrite Hu.
  - done.
Qed.

(** Two futures on one key and one on another. *)
Definition three_futures : FutureChannel :=
  match execute [OpFuture "a"; OpFuture "b"; OpFuture "a"] channel_new with
  | Ok ch => ch
  | Fail _ => channel_new
  end.

Lemma set_broadcasts_witness :
  ∃ ch', set "a" "v" three_futures = Ok ch' ∧ future_ready 0 ch' = Some (Ok "v") ∧
    future_ready 1 ch' = None ∧ future_ready 2 ch' = Some (Ok "v").
Proof.
  destruct (set_broadcasts "a" "v" three_futures) as (ch' & E & Hr & Hu & _).
  { destruct (execute_wf [OpFuture "a"; OpFuture "b"; OpFuture "a"] channel_new
      channel_new_wf) as (ch & E & H & _). unfold three_futures. by rewrite E. }
  exists ch'. split; [exact E|]. split_and!.
  - apply Hr. exists [0; 2]. split; [vm_compute; reflexivity|set_solver].
  - rewrite Hu; [vm_compute; reflexivity|]. intros (ps & Hps & Hp).
    vm_compute in Hps. injection Hps as <-. set_solver.
  - apply Hr. exists [0; 2]. split; [vm_compute; reflexivity|set_solver].
Defined.
