(* ===== verification/SourceKitD.v ===== *)
(** * The sourcekitd interface

    sourcekitd is a library the program only calls
    (src/vendor/sourcekitd/sourcekitd.h declares it).  Its answers are a
    parameter, the class [SourceKitD]: any function of the calls made so far.
    What the program does is the trace of its calls.  The ledger reads a trace
    with the header's documentation: who owns which request object and which
    response, and what a request holds. *)

From S2P Require Import Prelude.

Local Open Scope Z_scope.

(** ** Calls *)

(** A [sourcekitd_uid_t] is uniqued from its string, which names it. *)
Definition uid := string.
Definition sourcekitd_uid_get_from_cstr (s : string) : uid := c_str s.

(** Pointers to request objects and to responses. *)
Definition object_ptr := nat.
Definition response_ptr := nat.

Inductive skd_call :=
| DictionaryCreate (o : object_ptr)
| DictionarySetUid (o : object_ptr) (key u : uid)
| DictionarySetInt64 (o : object_ptr) (key : uid) (z : Z)
| DictionarySetString (o : object_ptr) (key : uid) (s : string)
| DictionarySetValue (o : object_ptr) (key : uid) (v : object_ptr)
| ArrayCreate (o : object_ptr)
| ArrayAppendString (o : object_ptr) (s : string)
| RequestRelease (o : object_ptr)
| RequestSendSync (o : object_ptr) (r : response_ptr)
| ResponseIsError (r : response_ptr)
| ResponseDump (r : response_ptr)
| ResponseGetValue (r : response_ptr)
| JsonDescriptionCopy (r : response_ptr)
| DictionaryGetString (r : response_ptr) (key : uid)
| ResponseDispose (r : response_ptr)
| Initialize
| SetNotificationHandler
| HandlerReceives (r : response_ptr).

Definition trace := list skd_call.

(** The answers.  A response's observers are asked with the calls so far; the
    description copied is a non-null C string. *)
Class SourceKitD := {
  skd_create : trace → object_ptr;
  skd_send : trace → object_ptr → response_ptr;
  skd_is_error : trace → response_ptr → bool;
  skd_payload_is_null : trace → response_ptr → bool;
  skd_json : trace → response_ptr → string;
  skd_get_string : trace → response_ptr → uid → option string;
}.

(** ** The functions the program calls *)

Section Api.
Context `{SourceKitD}.

Definition tell (c : skd_call) : thread trace unit := modify (λ tr, tr ++ [c]).
(** Answer from the calls so far and record the call. *)
Definition ask {A} (answer : trace → A) (c : A → skd_call) : thread trace A :=
  atomic (λ tr, (answer tr, tr ++ [c (answer tr)])).

Definition sourcekitd_request_dictionary_create := ask skd_create DictionaryCreate.
Definition sourcekitd_request_array_create := ask skd_create ArrayCreate.
Definition sourcekitd_request_dictionary_set_uid o key u := tell (DictionarySetUid o key u).
Definition sourcekitd_request_dictionary_set_int64 o key z :=
  tell (DictionarySetInt64 o key z).
Definition sourcekitd_request_dictionary_set_string o key s :=
  tell (DictionarySetString o key (c_str s)).
Definition sourcekitd_request_dictionary_set_value o key v :=
  tell (DictionarySetValue o key v).
(** At the index [SOURCEKITD_ARRAY_APPEND]. *)
Definition sourcekitd_request_array_set_string o s := tell (ArrayAppendString o (c_str s)).
Definition sourcekitd_request_release o := tell (RequestRelease o).
Definition sourcekitd_send_request_sync o :=
  ask (λ tr, skd_send tr o) (RequestSendSync o).
Definition sourcekitd_response_dispose r := tell (ResponseDispose r).
Definition sourcekitd_response_is_error r :=
  ask (λ tr, skd_is_error tr r) (λ _, ResponseIsError r).
Definition sourcekitd_response_description_dump r := tell (ResponseDump r).
(** The value's type is [SOURCEKITD_VARIANT_TYPE_NULL]. *)
Definition sourcekitd_response_get_value r :=
  ask (λ tr, skd_payload_is_null tr r) (λ _, ResponseGetValue r).
Definition sourcekitd_variant_json_description_copy r :=
  ask (λ tr, skd_json tr r) (λ _, JsonDescriptionCopy r).
Definition sourcekitd_variant_dictionary_get_string r key :=
  ask (λ tr, skd_get_string tr r key) (λ _, DictionaryGetString r key).
End Api.

(** ** The ledger *)

Inductive field := FUid (u : uid) | FInt (z : Z) | FString (s : string) | FRef (o : object_ptr).
Inductive node := NDictionary (m : gmap uid field) | NArray (l : list string).

(** What a request holds, with the objects it refers to read through. *)
Inductive request_value :=
| VUid (u : uid) | VInt (z : Z) | VString (s : string)
| VDictionary (m : gmap uid field) | VArray (l : list string) | VDangling.

Record ledger := {
  objects : gset object_ptr;     (** request objects the program owns *)
  responses : gset response_ptr; (** responses the program owns *)
  copies : nat;                  (** C strings copied for it *)
  heap : gmap object_ptr node;   (** what the request objects hold *)
  (** what the request a response answers held when it was sent *)
  answering : gmap response_ptr (gmap uid request_value);
}.

Definition ledger_new : ledger :=
  {| objects := ∅; responses := ∅; copies := 0; heap := ∅; answering := ∅ |}.

Definition with_heap (h : gmap object_ptr node) (l : ledger) : ledger :=
  {| objects := objects l; responses := responses l; copies := copies l; heap := h;
     answering := answering l |}.
Definition with_responses (rs : gset response_ptr) (l : ledger) : ledger :=
  {| objects := objects l; responses := rs; copies := copies l; heap := heap l;
     answering := answering l |}.

Definition create_object (o : object_ptr) (n : node) (l : ledger) : ledger :=
  {| objects := {[o]} ∪ objects l; responses := responses l; copies := copies l;
     heap := <[o := n]> (heap l); answering := answering l |}.

Definition set_field (o : object_ptr) (key : uid) (f : field) (l : ledger)
    : option ledger :=
  if decide (o ∈ objects l) then
    match heap l !! o with
    | Some (NDictionary m) => Some (with_heap (<[o := NDictionary (<[key := f]> m)]> (heap l)) l)
    | _ => None
    end
  else None.

Definition read_field (l : ledger) (f : field) : request_value :=
  match f with
  | FUid u => VUid u
  | FInt z => VInt z
  | FString s => VString s
  | FRef o => match heap l !! o with
              | Some (NDictionary m) => VDictionary m
              | Some (NArray a) => VArray a
              | None => VDangling
              end
  end.
Definition request_view (l : ledger) (o : object_ptr) : option (gmap uid request_value) :=
  match heap l !! o with
  | Some (NDictionary m) => Some (read_field l <$> m)
  | _ => None
  end.

(** A response comes into the program's hands; [v] is what it answers. *)
Definition with_response (r : response_ptr) (v : option (gmap uid request_value)) (l : ledger)
    : ledger :=
  {| objects := objects l; responses := {[r]} ∪ responses l; copies := copies l; heap := heap l;
     answering := partial_alter (λ _, v) r (answering l) |}.

Definition owns_response (r : response_ptr) (l : ledger) : option ledger :=
  if decide (r ∈ responses l) then Some l else None.

(** One call against the ledger; [None] is a misuse: an object or a response
    used or given up that the program does not own. *)
Definition account (c : skd_call) (l : ledger) : option ledger :=
  match c with
  | DictionaryCreate o => Some (create_object o (NDictionary ∅) l)
  | ArrayCreate o => Some (create_object o (NArray []) l)
  | DictionarySetUid o key u => set_field o key (FUid u) l
  | DictionarySetInt64 o key z => set_field o key (FInt z) l
  | DictionarySetString o key s => set_field o key (FString s) l
  | DictionarySetValue o key v =>
      if decide (v ∈ objects l) then set_field o key (FRef v) l else None
  | ArrayAppendString o s =>
      if decide (o ∈ objects l) then
        match heap l !! o with
        | Some (NArray a) => Some (with_heap (<[o := NArray (a ++ [s])]> (heap l)) l)
        | _ => None
        end
      else None
  | RequestRelease o =>
      if decide (o ∈ objects l)
      then Some {| objects := objects l ∖ {[o]}; responses := responses l;
                   copies := copies l; heap := heap l; answering := answering l |}
      else None
  | RequestSendSync o r =>
      if decide (o ∈ objects l) then Some (with_response r (request_view l o) l) else None
  | ResponseIsError r | ResponseDump r | ResponseGetValue r | DictionaryGetString r _ =>
      owns_response r l
  | JsonDescriptionCopy r =>
      l ← owns_response r l;
      Some {| objects := objects l; responses := responses l; copies := S (copies l);
              heap := heap l; answering := answering l |}
  | ResponseDispose r =>
      if decide (r ∈ responses l) then Some (with_responses (responses l ∖ {[r]}) l) else None
  | Initialize | SetNotificationHandler => Some l
  | HandlerReceives r => Some (with_response r None l)
  end.

Fixpoint accounts (tr : trace) (l : ledger) : option ledger :=
  match tr with
  | [] => Some l
  | c :: tr => l ← account c l; accounts tr l
  end.
Definition ledger_of (tr : trace) : option ledger := accounts tr ledger_new.

(** An object that is owned, or that an owned dictionary refers to. *)
Definition in_use (l : ledger) (o : object_ptr) : Prop :=
  o ∈ objects l ∨
  ∃ d m key, d ∈ objects l ∧ heap l !! d = Some (NDictionary m) ∧ m !! key = Some (FRef o).

(** sourcekitd hands out storage that is not in use: a new object is none the
    program can still reach, a new response none that it still owns. *)
Class FreshHandles `{SourceKitD} : Prop := {
  create_fresh tr l : ledger_of tr = Some l → ¬ in_use l (skd_create tr);
  send_fresh tr l o : ledger_of tr = Some l → skd_send tr o ∉ responses l;
}.

(** ** Lemmas *)

Lemma accounts_app tr tr' l :
  accounts (tr ++ tr') l = accounts tr l ≫= accounts tr'.
Proof.
  revert l; induction tr as [|c tr IH]; intros l; [done|]. cbn.
  destruct (account c l); cbn; [apply IH|done].
Qed.
Lemma ledger_of_snoc tr c l l' :
  ledger_of tr = Some l → account c l = Some l' → ledger_of (tr ++ [c]) = Some l'.
Proof. unfold ledger_of. rewrite accounts_app. intros -> H. cbn. by rewrite H. Qed.

Lemma run_tell c tr : run (tell c) tr = (Finished tt, tr ++ [c]).
Proof. reflexivity. Qed.
Lemma run_ask {A} (answer : trace → A) c tr :
  run (ask answer c) tr = (Finished (answer tr), tr ++ [c (answer tr)]).
Proof. reflexivity. Qed.
#[export] Hint Rewrite run_tell @run_ask : thread.

(** ** A concrete sourcekitd

    It hands out the number above every handle seen so far, answers every
    request with success and names the file [f] in its notifications. *)

Definition handles (c : skd_call) : list nat :=
  match c with
  | DictionaryCreate o | ArrayCreate o | RequestRelease o => [o]
  | DictionarySetUid o _ _ | DictionarySetInt64 o _ _ | DictionarySetString o _ _ => [o]
  | DictionarySetValue o _ v => [o; v]
  | ArrayAppendString o _ => [o]
  | RequestSendSync o r => [o; r]
  | ResponseIsError r | ResponseDump r | ResponseGetValue r | JsonDescriptionCopy r
  | DictionaryGetString r _ | ResponseDispose r | HandlerReceives r => [r]
  | Initialize | SetNotificationHandler => []
  end.
Definition highest (tr : trace) : nat := foldr Nat.max 0%nat (concat (map handles tr)).

#[export] Instance counting_skd : SourceKitD := {|
  skd_create tr := S (highest tr);
  skd_send tr _ := S (highest tr);
  skd_is_error _ _ := false;
  skd_payload_is_null _ _ := false;
  skd_json tr _ := "json " +:+ to_dec (Z.of_nat (length tr));
  skd_get_string _ _ _ := Some "f";
|}.

Definition bounded (n : nat) (l : ledger) : Prop :=
  (∀ o, o ∈ objects l → (o ≤ n)%nat) ∧ (∀ r, r ∈ responses l → (r ≤ n)%nat) ∧
  ∀ d m key o, heap l !! d = Some (NDictionary m) → m !! key = Some (FRef o) → (o ≤ n)%nat.

Lemma set_field_bounded n o key f l l' :
  set_field o key f l = Some l' → bounded n l → (∀ o', f = FRef o' → (o' ≤ n)%nat) →
  bounded n l'.
Proof.
  unfold set_field. intros H (Ho & Hr & Hh) Hf. case_decide; [|done].
  destruct (heap l !! o) as [[m|a]|] eqn:E; [|done..]. simplify_eq.
  split; [done|]. split; [done|]. cbn. intros d m' k o' Hd Hk.
  apply lookup_insert_Some in Hd as [[-> [= <-]]|[_ Hd]]; [|by eapply Hh].
  apply lookup_insert_Some in Hk as [[_ ->]|[_ Hk]]; [by apply Hf|by eapply Hh].
Qed.

Lemma account_bounded n c l l' :
  account c l = Some l' → bounded n l → Forall (λ x, x ≤ n)%nat (handles c) → bounded n l'.
Proof.
  intros H Hb Hc. assert (Hb' := Hb). destruct Hb' as (Ho & Hr & Hh).
  destruct c as [o|o k u|o k z|o k s|o k v|o|o s|o|o r|r|r|r|r|r k|r| | |r]; cbn in H, Hc;
    unfold owns_response in H; repeat apply Forall_cons in Hc as [? Hc];
    try (by eapply set_field_bounded; [exact H|done|intros ? [=]; subst]);
    try (case_decide; [|done]; try (by eapply set_field_bounded;
      [exact H|done|intros ? [=]; subst]); cbn in H);
    try (destruct (heap l !! o) as [[]|] eqn:E; [done| |done]); simplify_eq;
    split_and!; cbn; try done; try set_solver.
  - intros d m k o'. rewrite lookup_insert_Some. intros [[_ [= <-]]|[_ ?]]; [|by eapply Hh].
    by rewrite lookup_empty.
  - intros d m k o'. rewrite lookup_insert_Some. intros [[_ [=]]|[_ ?]]. by eapply Hh.
  - intros d m k o'. rewrite lookup_insert_Some. intros [[_ [=]]|[_ ?]]. by eapply Hh.
Qed.

Lemma foldr_max_le (l : list nat) n : (foldr Nat.max 0 l ≤ n)%nat → Forall (λ x, x ≤ n)%nat l.
Proof. induction l as [|x l IH]; cbn; constructor; [lia|]. apply IH. lia. Qed.

Lemma accounts_bounded n tr l l' :
  accounts tr l = Some l' → bounded n l → (highest tr ≤ n)%nat → bounded n l'.
Proof.
  revert l; induction tr as [|c tr IH]; intros l H Hb Hn; cbn in H; [by simplify_eq|].
  destruct (account c l) as [l1|] eqn:E; [|done].
  unfold highest in Hn. cbn in Hn. rewrite foldr_app in Hn. apply (IH l1 H).
  - eapply account_bounded; [exact E|done|]. apply foldr_max_le.
    assert (∀ xs m, (m ≤ foldr Nat.max m xs)%nat ∧
      (foldr Nat.max 0 xs ≤ foldr Nat.max m xs)%nat) as Hm.
    { clear. intros xs m. induction xs as [|x xs [IH1 IH2]]; cbn; lia. }
    destruct (Hm (handles c) (foldr Nat.max 0%nat (concat (map handles tr)))). lia.
  - unfold highest. assert (∀ xs m, (m ≤ foldr Nat.max m xs)%nat) as Hm.
    { clear. intros xs m. induction xs; cbn; lia. }
    pose proof (Hm (handles c) (foldr Nat.max 0%nat (concat (map handles tr)))). lia.
Qed.

#[export] Instance counting_fresh : FreshHandles.
Proof.
  assert (∀ tr l, ledger_of tr = Some l → bounded (highest tr) l) as Hb.
  { intros tr l H. eapply accounts_bounded; [exact H| |done].
    split_and!; cbn; try set_solver. }
  split.
  - intros tr l H. destruct (Hb _ _ H) as (Ho & _ & Hh). cbn.
    intros [Hi|(d & m & key & Hd & Hm & Hk)].
    + apply Ho in Hi. lia.
    + specialize (Hh _ _ _ _ Hm Hk). lia.
  - intros tr l o H Hi. destruct (Hb _ _ H) as (_ & Hr & _). apply Hr in Hi. cbn in Hi. lia.
Qed.
