(* ===== verification/Ledger.v ===== *)
(** * The ledger under the calls of one request

    How the ledger of SourceKitD.v changes while a request is built, sent and
    given up, call by call: the lemmas the components' proofs share, whether a
    thread is run alone (Requests.v) or among others (Ownership.v). *)

From S2P Require Import Prelude SourceKitD.

Local Open Scope Z_scope.

Definition with_copies (n : nat) (l : ledger) : ledger :=
  {| objects := objects l; responses := responses l; copies := (copies l + n)%nat;
     heap := heap l; answering := answering l |}.

(** [c] is no misuse of [l], and leaves a ledger that satisfies [P]. *)
Definition settles (c : skd_call) (l : ledger) (P : ledger → Prop) : Prop :=
  ∃ l', account c l = Some l' ∧ P l'.

Lemma settles_mono c l (P Q : ledger → Prop) :
  settles c l P → (∀ l', P l' → Q l') → settles c l Q.
Proof. intros (l' & E & HP) HQ. exists l'. auto. Qed.
Lemma settles_of tr c l (P : ledger → Prop) :
  ledger_of tr = Some l → settles c l P → ∃ l', ledger_of (tr ++ [c]) = Some l' ∧ P l'.
Proof. intros E (l' & Ec & HP). exists l'. split; [by eapply ledger_of_snoc|done]. Qed.

Lemma read_field_ext l l' (m : gmap uid field) :
  (∀ key o', m !! key = Some (FRef o') → heap l' !! o' = heap l !! o') →
  read_field l' <$> m = read_field l <$> m.
Proof.
  intros Hm. apply map_fmap_ext. intros key f Hf. destruct f; try done. cbn.
  by rewrite (Hm _ _ Hf).
Qed.

Definition node_value (n : node) : request_value :=
  match n with NDictionary m => VDictionary m | NArray a => VArray a end.

Section Ledger.
(** The ledger when the request began. *)
Context (l0 : ledger).

(** The program owns [own] besides what it owned in [l0]; the request [o]
    holds [v] and refers to none of [own]. *)
Definition holding (own : gset object_ptr) (o : object_ptr) (v : gmap uid request_value)
    (l : ledger) : Prop :=
  objects l = own ∪ objects l0 ∧ own ## objects l0 ∧
  responses l = responses l0 ∧ copies l = copies l0 ∧
  ∃ m, heap l !! o = Some (NDictionary m) ∧ read_field l <$> m = v ∧
    ∀ key o', m !! key = Some (FRef o') → o' ∉ own.
(** The object [o'] under construction beside it holds [n]. *)
Definition filled (o : object_ptr) (v : gmap uid request_value) (o' : object_ptr)
    (n : node) (l : ledger) : Prop :=
  holding {[o; o']} o v l ∧ o ≠ o' ∧ heap l !! o' = Some n.

Lemma holding_begin o :
  ¬ in_use l0 o → settles (DictionaryCreate o) l0 (holding {[o]} o ∅).
Proof.
  intros Hf. unfold in_use in Hf. eexists. split; [done|].
  split; [done|]. split; [set_solver|]. do 2 (split; [done|]).
  exists ∅. cbn. rewrite lookup_insert_eq. split_and!; [done|by rewrite fmap_empty|].
  intros key o'. by rewrite lookup_empty.
Qed.

(** Set a field of the request that refers to no object. *)
Lemma holding_scalar o v l key f x c :
  holding {[o]} o v l → (∀ l, account c l = set_field o key f l) →
  (∀ l, read_field l f = x) → (∀ o', f ≠ FRef o') →
  settles c l (holding {[o]} o (<[key := x]> v)).
Proof.
  intros (Ho & Hd & Hr & Hc & m & Hm & Hv & Hn) Ha Hx Hf. eexists. split.
  { rewrite Ha. unfold set_field. rewrite decide_True by set_solver. by rewrite Hm. }
  do 4 (split; [done|]). exists (<[key := f]> m). cbn. rewrite lookup_insert_eq.
  assert (∀ k o', <[key := f]> m !! k = Some (FRef o') → o' ∉ ({[o]} : gset _)) as Hn'.
  { intros k o' Hk. apply lookup_insert_Some in Hk as [[_ ->]|[_ Hk]]; [by destruct (Hf o')|].
    by eapply Hn. }
  split; [done|]. split; [|exact Hn'].
  rewrite <- Hv, fmap_insert, Hx. f_equal. apply read_field_ext. cbn.
  intros k o' Hk. rewrite lookup_insert_ne; [done|]. specialize (Hn k o' Hk). set_solver.
Qed.
Lemma holding_uid o v l key u :
  holding {[o]} o v l → settles (DictionarySetUid o key u) l (holding {[o]} o (<[key := VUid u]> v)).
Proof. intros Hb. by eapply (holding_scalar o v l key (FUid u)). Qed.
Lemma holding_int64 o v l key z :
  holding {[o]} o v l → settles (DictionarySetInt64 o key z) l (holding {[o]} o (<[key := VInt z]> v)).
Proof. intros Hb. by eapply (holding_scalar o v l key (FInt z)). Qed.
Lemma holding_string o v l key s :
  holding {[o]} o v l →
  settles (DictionarySetString o key s) l (holding {[o]} o (<[key := VString s]> v)).
Proof. intros Hb. by eapply (holding_scalar o v l key (FString s)). Qed.

(** Begin an object to be put into the request. *)
Lemma filled_begin o v l o' c n :
  holding {[o]} o v l → ¬ in_use l o' → (∀ l, account c l = Some (create_object o' n l)) →
  settles c l (filled o v o' n).
Proof.
  intros (Ho & Hd & Hr & Hc & m & Hm & Hv & Hn) Hf Ha. unfold in_use in Hf.
  assert (o ∈ objects l) as Hol by set_solver.
  assert (o ≠ o') as Hne by (intros E1; apply Hf; left; by rewrite <- E1).
  assert (∀ key o'', m !! key = Some (FRef o'') → o'' ≠ o') as Hk.
  { intros key o'' Hk ->. apply Hf. right. by exists o, m, key. }
  eexists. split; [apply Ha|].
  split; [|split; [done|by cbn; rewrite lookup_insert_eq]].
  split; [cbn; set_solver|]. split; [set_solver|]. do 2 (split; [done|]).
  exists m. cbn. rewrite lookup_insert_ne by done. split; [done|]. split.
  - rewrite <- Hv. apply read_field_ext. cbn. intros key o'' Hko.
    rewrite lookup_insert_ne; [done|]. by apply not_eq_sym, (Hk key).
  - intros key o'' Hko. specialize (Hk key o'' Hko). specialize (Hn key o'' Hko). set_solver.
Qed.

Lemma filled_append o v l o' a s :
  filled o v o' (NArray a) l →
  settles (ArrayAppendString o' s) l (filled o v o' (NArray (a ++ [s]))).
Proof.
  intros ((Ho & Hd & Hr & Hc & m & Hm & Hv & Hn) & Hne & Ha).
  eexists. split; [cbn; rewrite decide_True by set_solver; by rewrite Ha|].
  split; [|split; [done|by cbn; rewrite lookup_insert_eq]].
  do 4 (split; [done|]). exists m. cbn. rewrite lookup_insert_ne by done.
  split; [done|]. split; [|done]. rewrite <- Hv. apply read_field_ext. cbn.
  intros key o'' Hk. rewrite lookup_insert_ne; [done|]. specialize (Hn key o'' Hk). set_solver.
Qed.

(** Put the child into the request, then give up the program's own reference:
    the request keeps it. *)
Definition adopted (o : object_ptr) (v : gmap uid request_value) (o' : object_ptr)
    (l : ledger) : Prop :=
  objects l = {[o; o']} ∪ objects l0 ∧ {[o; o']} ## objects l0 ∧ o ≠ o' ∧
  responses l = responses l0 ∧ copies l = copies l0 ∧
  ∃ m, heap l !! o = Some (NDictionary m) ∧ read_field l <$> m = v ∧
    ∀ key o'', m !! key = Some (FRef o'') → o'' ≠ o.
Lemma filled_put o v l o' n key :
  filled o v o' n l →
  settles (DictionarySetValue o key o') l (adopted o (<[key := node_value n]> v) o').
Proof.
  intros ((Ho & Hd & Hr & Hc & m & Hm & Hv & Hn) & Hne & Ha). eexists. split.
  { cbn. rewrite decide_True by set_solver. unfold set_field.
    rewrite decide_True by set_solver. by rewrite Hm. }
  split; [done|]. split; [done|]. split; [done|]. do 2 (split; [done|]).
  exists (<[key := FRef o']> m). cbn. rewrite lookup_insert_eq. split; [done|]. split.
  - rewrite fmap_insert. cbn. rewrite lookup_insert_ne, Ha by done.
    replace (match n with NDictionary m0 => VDictionary m0 | NArray a => VArray a end)
      with (node_value n) by (by destruct n).
    f_equal. rewrite <- Hv. apply read_field_ext. cbn.
    intros k o'' Hk. rewrite lookup_insert_ne; [done|]. specialize (Hn k o'' Hk). set_solver.
  - intros k o'' Hk. apply lookup_insert_Some in Hk as [[_ [= <-]]|[_ Hk]]; [done|].
    specialize (Hn k o'' Hk). set_solver.
Qed.
Lemma adopted_release o v l o' :
  adopted o v o' l → settles (RequestRelease o') l (holding {[o]} o v).
Proof.
  intros (Ho & Hd & Hne & Hr & Hc & m & Hm & Hv & Hn). eexists. split.
  { cbn. by rewrite decide_True by set_solver. }
  split; [cbn; set_solver|]. split; [set_solver|]. do 2 (split; [done|]).
  exists m. split; [done|]. split; [done|].
  intros key o'' Hk. specialize (Hn key o'' Hk). set_solver.
Qed.

(** The request has been sent: its view, and what is owned then. *)
Lemma holding_view o v l : holding {[o]} o v l → request_view l o = Some v.
Proof. intros (_ & _ & _ & _ & m & Hm & Hv & _). unfold request_view. by rewrite Hm, Hv. Qed.
Lemma holding_object o v l : holding {[o]} o v l → o ∈ objects l.
Proof. intros (Ho & _). set_solver. Qed.
End Ledger.

(** A call that looks at a response that is owned. *)
Lemma owns_response_in r l : r ∈ responses l → owns_response r l = Some l.
Proof. intros Hr. unfold owns_response. by rewrite decide_True. Qed.
Lemma answering_new r v l : answering (with_response r v l) !! r = v.
Proof. apply lookup_partial_alter_eq. Qed.
