(* ===== verification/Offset.v ===== *)
(** * The completion point: CompletionContext and GetOffset of
    src/SwiftCompleter.cpp

    [GetOffset] cuts the unsaved file after the first point of interest at or
    before the cursor and gives the offset of the cut. *)

From S2P Require Import Prelude.

Local Open Scope Z_scope.

(** ** Data *)

(** src/SwiftCompleter.hpp *)
Record UnsavedFile := { contents : string; fileName : string }.

Record CompletionContext := {
  sourceFilename : string;
  line : Z;    (** an [unsigned] *)
  column : Z;  (** an [unsigned] *)
  flags : list string;
  unsavedFiles : list UnsavedFile;
}.

Definition DefaultOSXArgs : list string :=
  ["-sdk";
   "/Applications/Xcode.app/Contents/Developer/Platforms/" +:+
   "MacOSX.platform/Developer/SDKs/MacOSX.sdk";
   "-target"; "x86_64-apple-macosx10.12"].

Definition compilerArgs (ctx : CompletionContext) : list string :=
  if (length (flags ctx) =? 0)%nat then DefaultOSXArgs else flags ctx.

(** ** GetOffset *)

Definition is_nl_char (c : ascii) : bool := Ascii.eqb c nl.

(** [std::getline]: [None] when nothing is left; the line's newline is dropped. *)
Definition getline (s : string) : option (string * string) :=
  match s with
  | EmptyString => None
  | _ =>
      let '(l, rest) := str_span (λ c, negb (is_nl_char c)) s in
      Some (l, match rest with EmptyString => EmptyString | String _ r => r end)
  end.

Definition is_break (c : ascii) : bool := Ascii.eqb c " " || Ascii.eqb c ".".

(** The loop from [i] down to an interesting point: the partial line. *)
Fixpoint partial_line (someLine : string) (i : nat) : string :=
  let someChar := match char_at someLine i with Some c => c | None => nul end in
  let partial :=
    if (i =? 0)%nat then someLine
    else if (i <? String.length someLine)%nat then str_take (i + 1) someLine
    else EmptyString in
  if is_break someChar then partial
  else match i with
       | O => partial
       | S i => partial_line someLine i
       end.

(** The loop over the lines, on what is left of the stream. *)
Fixpoint offset_loop (fuel : nat) (sourceFile : string) (line column currentLine : Z)
    (offset : Z) (CleanFile : string) : outcome (Z * string) :=
  match fuel with
  | O => Fail OutOfFuel
  | S fuel =>
      match getline sourceFile with
      | None => Ok (offset, CleanFile)
      | Some (someLine, sourceFile) =>
          if u32 (currentLine + 1) =? line then
            let CleanFile := CleanFile +:+ partial_line someLine (Z.to_nat column) in
            Ok (u32 (strlenZ CleanFile), CleanFile)
          else
            offset_loop fuel sourceFile line column (u32 (currentLine + 1)) offset
              ((CleanFile +:+ someLine) +:+ NL)
      end
  end.

Definition find_unsaved (ctx : CompletionContext) : string :=
  match List.find (λ f, String.eqb (fileName f) (sourceFilename ctx)) (unsavedFiles ctx) with
  | Some f => contents f
  | None => EmptyString
  end.

Definition GetOffset (ctx : CompletionContext) (offset : Z) (CleanFile : string)
    : outcome (Z * string) :=
  let unsavedInput := find_unsaved ctx in
  match unsavedInput with
  | EmptyString => Fail (AssertionFailed "Missing unsaved file")
  | _ => offset_loop (S (String.length unsavedInput)) unsavedInput (line ctx) (column ctx)
           0 offset CleanFile
  end.

(** ** The specification *)

Definition no_nl (s : string) : Prop := str_forallb (λ c, negb (is_nl_char c)) s = true.

(** The lines [pre], each ended by a newline. *)
Definition join (pre : list string) : string := str_concat (map (λ l, l +:+ NL) pre).

(** A break character of [l] at [i], the first column aside. *)
Definition break_at (l : string) (i : nat) : Prop :=
  (1 ≤ i)%nat ∧ ∃ c, char_at l i = Some c ∧ is_break c = true.

(** The part of the line [l] kept for the cursor at [col]: up to and with the
    last break at or before the cursor, or all of it when there is none. *)
Definition kept (l : string) (col : nat) (p : string) : Prop :=
  (∃ j, (j ≤ col)%nat ∧ break_at l j ∧ (∀ k, (j < k ≤ col)%nat → ¬ break_at l k) ∧
    p = str_take (S j) l) ∨
  ((∀ k, (k ≤ col)%nat → ¬ break_at l k) ∧ p = l).

Lemma getline_cons l rest :
  no_nl l → getline (l +:+ String nl rest) = Some (l, rest).
Proof.
  intros H. unfold getline. destruct (l +:+ String nl rest) eqn:E; [by destruct l|].
  rewrite <- E. rewrite (str_span_stop _ l nl rest); done.
Qed.
Lemma getline_last l : no_nl l → l ≠ EmptyString → getline l = Some (l, EmptyString).
Proof.
  intros H Hne. unfold getline. destruct l; [done|]. by rewrite str_forallb_span.
Qed.

Lemma length_getline s l rest :
  getline s = Some (l, rest) → (String.length rest < String.length s)%nat.
Proof.
  unfold getline. destruct s as [|c s]; [done|].
  destruct (str_span _ (String c s)) as [a b] eqn:E. intros [= <- <-].
  pose proof (str_span_app _ _ _ _ E) as Hs.
  destruct b as [|d b]; [cbn; lia|]. rewrite Hs, str_length_app. cbn. lia.
Qed.

(** *** The partial line *)

Lemma partial_line_kept l i : kept l i (partial_line l i).
Proof.
  induction i as [|i IH]; cbn [partial_line].
  - right. split.
    + intros k Hk [H _]. lia.
    + by destruct (is_break _).
  - destruct (char_at l (S i)) as [c|] eqn:Ec; [destruct (is_break c) eqn:Eb|].
    + left. exists (S i). split; [lia|]. split; [|split; [lia|]].
      * split; [lia|]. by exists c.
      * assert (S i < String.length l)%nat as Hl by (apply char_at_is_Some; eauto).
        change (S i =? 0)%nat with false. cbn iota.
        by rewrite (proj2 (Nat.ltb_lt _ _) Hl), Nat.add_1_r.
    + destruct IH as [(j & Hj & Hb & Hk & Hp)|[Hk Hp]]; [left; exists j|right]; split_and!;
        try done; try lia; intros k ?; (destruct (decide (k = S i)) as [->|];
        [intros (_ & c' & ? & ?); congruence|apply Hk; lia]).
    + change (is_break nul) with false. cbn iota.
      destruct IH as [(j & Hj & Hb & Hk & Hp)|[Hk Hp]]; [left; exists j|right]; split_and!;
        try done; try lia; intros k ?; (destruct (decide (k = S i)) as [->|];
        [intros (_ & c' & ? & ?); congruence|apply Hk; lia]).
Qed.

Lemma kept_unique l i p q : kept l i p → kept l i q → p = q.
Proof.
  intros [(j & Hj & Hb & Hk & ->)|[Hk ->]] [(j' & Hj' & Hb' & Hk' & ->)|[Hk' ->]].
  - destruct (lt_eq_lt_dec j j') as [[?| ->]|?]; [|done|].
    + exfalso. by apply (Hk j').
    + exfalso. by apply (Hk' j).
  - exfalso. by apply (Hk' j).
  - exfalso. by apply (Hk j').
  - done.
Qed.

Lemma kept_prefix l i p : kept l i p → ∃ r, l = p +:+ r.
Proof.
  intros [(j & _ & _ & _ & ->)|[_ ->]].
  - exists (str_drop (S j) l). by rewrite str_take_drop.
  - exists EmptyString. by rewrite str_app_nil_r.
Qed.

(** *** The lines *)

Lemma join_cons l pre : join (l :: pre) = l +:+ String nl (join pre).
Proof. unfold join. cbn. by rewrite str_app_assoc. Qed.

(** The loop goes over the lines before [line]. *)
Lemma offset_loop_skip pre s fuel ln col n off clean :
  Forall no_nl pre → (String.length (join pre +:+ s) < fuel)%nat →
  0 ≤ n → n + Z.of_nat (length pre) < 2 ^ 32 → ¬ n < ln ≤ n + Z.of_nat (length pre) →
  ∃ fuel', (String.length s < fuel')%nat ∧
    offset_loop fuel (join pre +:+ s) ln col n off clean =
    offset_loop fuel' s ln col (n + Z.of_nat (length pre)) off (clean +:+ join pre).
Proof.
  revert fuel n clean; induction pre as [|l pre IH]; intros fuel n clean Hnl Hf Hn Hb Hne.
  - exists fuel. split; [done|]. cbn. by rewrite Z.add_0_r, str_app_nil_r.
  - apply Forall_cons in Hnl as [Hl Hnl]. destruct fuel as [|fuel]; [lia|].
    rewrite join_cons, str_app_assoc, str_app_cons in *. cbn [offset_loop length] in *.
    rewrite getline_cons by done.
    unfold u32. rewrite !Z.mod_small by lia.
    replace (n + 1 =? ln) with false by (symmetry; apply Z.eqb_neq; lia).
    destruct (IH fuel (n + 1) ((clean +:+ l) +:+ NL)) as (fuel' & Hf' & ->);
      [done| |lia|lia|lia|].
    + rewrite str_length_app in Hf. cbn [String.length] in Hf. lia.
    + exists fuel'. split; [done|]. f_equal; [lia|].
      by rewrite !str_app_assoc.
Qed.

Lemma offset_loop_hit fuel l tail ln col n off clean :
  no_nl l → (tail = EmptyString ∨ ∃ r, tail = String nl r) →
  (l ≠ EmptyString ∨ tail ≠ EmptyString) → u32 (n + 1) = ln →
  (String.length (l +:+ tail) < fuel)%nat →
  offset_loop fuel (l +:+ tail) ln col n off clean =
  Ok (u32 (strlenZ (clean +:+ partial_line l (Z.to_nat col))),
      clean +:+ partial_line l (Z.to_nat col)).
Proof.
  intros Hl Ht Hne Hn Hf. destruct fuel as [|fuel]; [lia|]. cbn [offset_loop].
  assert (∃ rest, getline (l +:+ tail) = Some (l, rest)) as [rest ->].
  { destruct Ht as [->|[r ->]].
    - exists EmptyString. rewrite str_app_nil_r. apply getline_last; [done|]. by destruct Hne.
    - exists r. by apply getline_cons. }
  by rewrite Hn, Z.eqb_refl.
Qed.

Lemma offset_loop_total fuel s ln col n off clean :
  (String.length s < fuel)%nat → ∃ r, offset_loop fuel s ln col n off clean = Ok r.
Proof.
  revert s n clean; induction fuel as [|fuel IH]; intros s n clean Hf; [lia|].
  cbn [offset_loop]. destruct (getline s) as [[l rest]|] eqn:E; [|by eexists].
  destruct (_ =? _); [by eexists|]. apply IH. apply length_getline in E. lia.
Qed.

Lemma GetOffset_eq ctx off clean :
  find_unsaved ctx ≠ EmptyString →
  GetOffset ctx off clean =
  offset_loop (S (String.length (find_unsaved ctx))) (find_unsaved ctx) (line ctx)
    (column ctx) 0 off clean.
Proof. unfold GetOffset. by destruct (find_unsaved ctx). Qed.


Definition cursor_on_dot : CompletionContext :=
  {| sourceFilename := "a.swift"; line := 2; column := 6; flags := [];
     unsavedFiles := [{| contents := "let x" +:+ NL +:+ "foo().bar baz" +:+ NL +:+ "y";
                         fileName := "a.swift" |}] |}.


(** The cut falls behind the dot: twelve characters are kept. *)
Example GetOffset_dot :
  GetOffset cursor_on_dot 0 EmptyString = Ok (12, "let x" +:+ NL +:+ "foo().").
Proof. vm_compute. reflexivity. Qed.

(** C39: when the cursor's line is 0 or beyond the end of the file, the offset
    stays 0 and the whole file is returned, a missing last newline added. *)
Theorem GetOffset_no_line (ctx : CompletionContext) (pre : list string) (l : string) :
  find_unsaved ctx = join pre +:+ l → find_unsaved ctx ≠ EmptyString →
  Forall no_nl pre → no_nl l → Z.of_nat (length pre) + 1 < 2 ^ 32 →
  line ctx = 0 ∨ Z.of_nat (length pre) + (if decide (l = EmptyString) then 0 else 1) < line ctx →
  GetOffset ctx 0 EmptyString =
    Ok (0, find_unsaved ctx +:+ (if decide (l = EmptyString) then EmptyString else NL)).
Proof.
  intros E Hne Hpre Hl Hb Hln. rewrite GetOffset_eq by done. rewrite E.
  destruct (offset_loop_skip pre l (S (String.length (join pre +:+ l)))
    (line ctx) (column ctx) 0 0 EmptyString) as (fuel & Hf & ->); [done|lia..| |].
  { destruct Hln; [lia|]. case_decide; lia. }
  rewrite str_app_nil_l. destruct (decide (l = EmptyString)) as [->|Hn].
  - destruct fuel as [|fuel]; [lia|]. cbn. by rewrite !str_app_nil_r.
  - destruct fuel as [|[|fuel]]; [lia|destruct l; [done|cbn in Hf; lia]|].
    cbn [offset_loop]. rewrite getline_last by done.
    unfold u32. rewrite Z.mod_small by lia.
    replace (_ =? line ctx) with false by (symmetry; apply Z.eqb_neq; lia). done.
Qed.

Definition cursor_past_end : CompletionContext :=
  {| sourceFilename := "a.swift"; line := 3; column := 0; flags := [];
     unsavedFiles := [{| contents := "x" +:+ NL +:+ "y"; fileName := "a.swift" |}] |}.
Lemma GetOffset_no_line_witness :
  GetOffset cursor_past_end 0 EmptyString = Ok (0, "x" +:+ NL +:+ "y" +:+ NL).
Proof.
  apply (GetOffset_no_line cursor_past_end ["x"] "y"); [reflexivity|done|
    by repeat constructor|reflexivity|reflexivity|right; reflexivity].
Defined.

(** [GetOffset] always ends; it fails exactly when no unsaved file has the
    source file's name or the first that has it is empty, and then by its
    assertion. *)
Theorem GetOffset_total (ctx : CompletionContext) (offset : Z) (CleanFile : string) :
  (find_unsaved ctx = EmptyString ∧
     GetOffset ctx offset CleanFile = Fail (AssertionFailed "Missing unsaved file")) ∨
  (find_unsaved ctx ≠ EmptyString ∧ ∃ r, GetOffset ctx offset CleanFile = Ok r).
Proof.
  destruct (decide (find_unsaved ctx = EmptyString)) as [E|Hne].
  - left. unfold GetOffset. by rewrite E.
  - right. split; [done|]. rewrite GetOffset_eq by done. apply offset_loop_total. lia.
Qed.
