(* ===== verification/SourceKit.v ===== *)
(** * Requests to sourcekitd: SourceKitService and NotificationReceiver of
    src/SwiftCompleter.cpp

    The state the completion code shares: the console, the future channel, the
    calls made to sourcekitd and whether its notification handler is installed.
    A C string returned through [char **oresponse] is an [option string]: the
    pointer's target, [None] for NULL. *)

From S2P Require Import Prelude Logging Futures SourceKitD Offset.

Local Open Scope Z_scope.

(** ** State *)

Record World := {
  console_of : console;
  channel_of : FutureChannel;   (** [SemaFutureChannel] *)
  calls_of : trace;
  handler_of : option Logger;   (** the handler's logger, once installed *)
}.

Definition set_console (c : console) (w : World) : World :=
  {| console_of := c; channel_of := channel_of w; calls_of := calls_of w;
     handler_of := handler_of w |}.
Definition set_channel (ch : FutureChannel) (w : World) : World :=
  {| console_of := console_of w; channel_of := ch; calls_of := calls_of w;
     handler_of := handler_of w |}.
Definition set_calls (tr : trace) (w : World) : World :=
  {| console_of := console_of w; channel_of := channel_of w; calls_of := tr;
     handler_of := handler_of w |}.

Definition world_new : World :=
  {| console_of := []; channel_of := channel_new; calls_of := []; handler_of := None |}.

#[export] Program Instance console_lens : Lens World console :=
  {| view := console_of; update := set_console |}.
Solve Obligations with by intros; repeat match goal with w : World |- _ => destruct w end.
#[export] Program Instance channel_lens : Lens World FutureChannel :=
  {| view := channel_of; update := set_channel |}.
Solve Obligations with by intros; repeat match goal with w : World |- _ => destruct w end.
#[export] Program Instance calls_lens : Lens World trace :=
  {| view := calls_of; update := set_calls |}.
Solve Obligations with by intros; repeat match goal with w : World |- _ => destruct w end.

(** ** Keys *)

Definition KeyRequest := sourcekitd_uid_get_from_cstr "key.request".
Definition KeyCompilerArgs := sourcekitd_uid_get_from_cstr "key.compilerargs".
Definition KeyOffset := sourcekitd_uid_get_from_cstr "key.offset".
Definition KeyCodeCompleteOptions :=
  sourcekitd_uid_get_from_cstr "key.codecomplete.options".
Definition KeyFilterText := sourcekitd_uid_get_from_cstr "key.codecomplete.filtertext".
Definition KeySourceFile := sourcekitd_uid_get_from_cstr "key.sourcefile".
Definition KeySourceText := sourcekitd_uid_get_from_cstr "key.sourcetext".
Definition KeyName := sourcekitd_uid_get_from_cstr "key.name".

Section Requests.
Context `{SourceKitD}.

(** A call of sourcekitd, a line of log. *)
Definition skd {A} (t : thread trace A) : thread World A := zoom t.
Definition say (lg : Logger) (level : LogLevel) (msg : string) : thread World unit :=
  zoom (log lg level [msg]).

(** The C string returned is allocated and never freed. *)
Definition PrintResponse (resp : response_ptr) : thread trace string :=
  _ ← sourcekitd_response_get_value resp;
  sourcekitd_variant_json_description_copy resp.

(** *** The notification receiver *)

Definition NotificationReceiver (logger : Logger) (resp : response_ptr)
    : thread World unit :=
  _ ← skd (sourcekitd_response_description_dump resp);
  is_null ← skd (sourcekitd_response_get_value resp);
  _ ← say logger LogLevelInfo "SEMA_RESP: ";
  s ← skd (PrintResponse resp);
  _ ← say logger LogLevelInfo s;
  if is_null : bool then say logger LogLevelInfo "GARBAGE_SEMA_RESP" else
  semaName ← skd (sourcekitd_variant_dictionary_get_string resp KeyName);
  match semaName with
  | None | Some EmptyString => say logger LogLevelInfo "DID_GET_SEMA:''"
  | Some semaName =>
      _ ← say logger LogLevelInfo "DID_GET_SEMA: ";
      _ ← say logger LogLevelInfo semaName;
      edReq ← skd sourcekitd_request_dictionary_create;
      _ ← skd (sourcekitd_request_dictionary_set_uid edReq KeyRequest
             (sourcekitd_uid_get_from_cstr "source.request.editor.replacetext"));
      _ ← skd (sourcekitd_request_dictionary_set_string edReq KeyName semaName);
      _ ← skd (sourcekitd_request_dictionary_set_string edReq KeySourceText "");
      semaResponse ← skd (sourcekitd_send_request_sync edReq);
      _ ← skd (sourcekitd_response_description_dump semaResponse);
      _ ← skd (sourcekitd_request_release edReq);
      _ ← say logger LogLevelInfo "SEMA_DONE";
      s ← skd (PrintResponse semaResponse);
      zoom (lift_set semaName s)
  end.

(** *** Requests *)

Definition CreateBaseRequest (requestUID : uid) (name : string) (offset : Z)
    : thread trace object_ptr :=
  request ← sourcekitd_request_dictionary_create;
  _ ← sourcekitd_request_dictionary_set_uid request KeyRequest requestUID;
  _ ← sourcekitd_request_dictionary_set_int64 request KeyOffset offset;
  _ ← sourcekitd_request_dictionary_set_string request KeyName name;
  mret request.

(** A callback on the response; it may store through the captured
    [oresponse], which it is given and gives back. *)
Definition HandlerFunc := response_ptr → option string → thread World (bool * option string).

Definition SendRequestSync (request : object_ptr) (func : HandlerFunc)
    (oresponse : option string) : thread World (bool * option string) :=
  response ← skd (sourcekitd_send_request_sync request);
  result ← func response oresponse;
  _ ← skd (sourcekitd_response_dispose response);
  mret result.

(** [for (auto arg : compilerArgs) array_set_string(args, APPEND, arg.c_str())] *)
Fixpoint append_args (args : object_ptr) (compilerArgs : list string)
    : thread trace unit :=
  match compilerArgs with
  | [] => mret tt
  | arg :: compilerArgs =>
      _ ← sourcekitd_request_array_set_string args arg;
      append_args args compilerArgs
  end.

Definition CodeCompleteRequest (requestUID : uid) (name : string) (offset : Z)
    (sourceText : string) (compilerArgs : list string) (filterText : option string)
    (func : HandlerFunc) (oresponse : option string)
    : thread World (bool * option string) :=
  request ← skd (CreateBaseRequest requestUID name offset);
  _ ← skd (sourcekitd_request_dictionary_set_string request KeySourceFile name);
  _ ← skd (sourcekitd_request_dictionary_set_string request KeySourceText sourceText);
  opts ← skd sourcekitd_request_dictionary_create;
  _ ← match filterText with
      | Some filterText =>
          skd (sourcekitd_request_dictionary_set_string opts KeyFilterText filterText)
      | None => mret tt
      end;
  _ ← skd (sourcekitd_request_dictionary_set_value request KeyCodeCompleteOptions opts);
  _ ← skd (sourcekitd_request_release opts);
  args ← skd sourcekitd_request_array_create;
  _ ← skd (sourcekitd_request_array_set_string args name);
  _ ← skd (append_args args compilerArgs);
  _ ← skd (sourcekitd_request_dictionary_set_value request KeyCompilerArgs args);
  _ ← skd (sourcekitd_request_release args);
  result ← SendRequestSync request func oresponse;
  _ ← skd (sourcekitd_request_release request);
  mret result.

Definition BasicRequest (requestUID : uid) (name sourceText : string)
    (compilerArgs : list string) (func : HandlerFunc) (oresponse : option string)
    : thread World (bool * option string) :=
  request ← skd sourcekitd_request_dictionary_create;
  _ ← skd (sourcekitd_request_dictionary_set_uid request KeyRequest requestUID);
  _ ← skd (sourcekitd_request_dictionary_set_string request KeyName name);
  _ ← skd (sourcekitd_request_dictionary_set_string request KeySourceText sourceText);
  let KeySyntacticOnly := sourcekitd_uid_get_from_cstr "key.syntactic_only" in
  let KeyEnableSubStructure := sourcekitd_uid_get_from_cstr "key.enablesubstructure" in
  _ ← skd (sourcekitd_request_dictionary_set_int64 request KeyEnableSubStructure 1);
  _ ← skd (sourcekitd_request_dictionary_set_int64 request KeySyntacticOnly 0);
  args ← skd sourcekitd_request_array_create;
  _ ← skd (sourcekitd_request_array_set_string args name);
  _ ← skd (append_args args compilerArgs);
  _ ← skd (sourcekitd_request_dictionary_set_value request KeyCompilerArgs args);
  _ ← skd (sourcekitd_request_release args);
  result ← SendRequestSync request func oresponse;
  _ ← skd (sourcekitd_request_release request);
  mret result.

(** *** SourceKitService *)

Record SourceKitService := { skt_logger : Logger }.

(** The constructor; [dispatch_once] installs the handler the first time. *)
Definition SourceKitService_new (logLevel : LogLevel) : thread World SourceKitService :=
  _ ← modify (λ w, match handler_of w with
                   | Some _ => w
                   | None =>
                       {| console_of := console_of w; channel_of := channel_of w;
                          calls_of := calls_of w ++ [Initialize; SetNotificationHandler];
                          handler_of := Some (make_Logger logLevel "SKT") |}
                   end);
  mret {| skt_logger := make_Logger logLevel "SKT" |}.

(** The lambda each operation passes to its request. *)
Definition store_response (this : SourceKitService) : HandlerFunc :=
  λ response oresponse,
    is_error ← skd (sourcekitd_response_is_error response);
    if is_error : bool then mret (true, oresponse) else
    s ← skd (PrintResponse response);
    _ ← say (skt_logger this) LogLevelExtreme s;
    mret (false, Some s).

Definition completion (uidName will did : string) (this : SourceKitService)
    (ctx : CompletionContext) (oresponse : option string)
    : thread World (bool * option string) :=
  _ ← say (skt_logger this) LogLevelInfo will;
  '(offset, CleanFile) ← of_outcome (GetOffset ctx 0 EmptyString);
  result ← CodeCompleteRequest (sourcekitd_uid_get_from_cstr uidName)
    (sourceFilename ctx) offset CleanFile (compilerArgs ctx) None
    (store_response this) oresponse;
  _ ← say (skt_logger this) LogLevelInfo did;
  mret result.

Definition CompletionUpdate :=
  completion "source.request.codecomplete.update" "WILL_COMPLETION_UPDATE"
    "DID_COMPLETION_UPDATE".
Definition CompletionOpen :=
  completion "source.request.codecomplete.open" "WILL_COMPLETION_OPEN"
    "DID_COMPLETION_OPEN".

Definition editor (uidName will did : string) (this : SourceKitService)
    (ctx : CompletionContext) (oresponse : option string)
    : thread World (bool * option string) :=
  _ ← say (skt_logger this) LogLevelInfo will;
  text ← of_outcome (match unsavedFiles ctx with
                     | f :: _ => Ok (contents f)
                     | [] => Fail (UndefinedBehavior "ctx.unsavedFiles[0]")
                     end);
  result ← BasicRequest (sourcekitd_uid_get_from_cstr uidName) (sourceFilename ctx) text
    (compilerArgs ctx) (store_response this) oresponse;
  _ ← say (skt_logger this) LogLevelInfo did;
  mret result.

Definition EditorOpen :=
  editor "source.request.editor.open" "WILL_EDITOR_OPEN" "DID_EDITOR_OPEN".
Definition EditorReplaceText :=
  editor "source.request.editor.replacetext" "WILL_EDITOR_REPLACETEXT"
    "DID_EDITOR_REPLACETEXT".
End Requests.
