(* ===== verification/Requests.v ===== *)
(** * What the requests hold and who owns what: proofs about SourceKit.v

    The ledger of SourceKitD.v replayed over the calls each operation makes. *)

From S2P Require Import Prelude Logging Futures SourceKitD Ledger Offset SourceKit.

Local Open Scope Z_scope.

(** [t] runs to its end from the state [w]; its result and the state it leaves
    satisfy [Q]. *)
Definition finishes {W A} (t : thread W A) (w : W) (Q : A → W → Prop) : Prop :=
  ∃ a w', run t w = (Finished a, w') ∧ Q a w'.

Lemma finishes_bind {W A B} (t : thread W A) (k : A → thread W B) w R Q :
  finishes t w R → (∀ a w', R a w' → finishes (k a) w' Q) → finishes (t ≫= k) w Q.
Proof.
  intros (a & w1 & E & HR) Hk. destruct (Hk a w1 HR) as (b & w2 & E2 & HQ).
  exists b, w2. by rewrite run_bind, E.
Qed.
Lemma finishes_ret {W A} (a : A) (w : W) (Q : A → W → Prop) : Q a w → finishes (mret a) w Q.
Proof. intros H. by exists a, w. Qed.
Lemma finishes_mono {W A} (t : thread W A) w (R Q : A → W → Prop) :
  finishes t w R → (∀ a w', R a w' → Q a w') → finishes t w Q.
Proof. intros (a & w1 & E & HR) Hk. exists a, w1. auto. Qed.

Tactic Notation "step" tactic3(t) "as" simple_intropattern_list(p) :=
  eapply finishes_bind; [t | cbv beta; intros p].

(** The calls after [tr0] in [tr], none of which sends a request. *)
Definition is_send (c : skd_call) : bool :=
  match c with RequestSendSync _ _ => true | _ => false end.
Definition quiet (tr0 tr : trace) : Prop :=
  ∃ pre, tr = tr0 ++ pre ∧ forallb (λ c, negb (is_send c)) pre = true.

Lemma quiet_refl tr : quiet tr tr.
Proof. exists []. by rewrite app_nil_r. Qed.
Lemma quiet_snoc tr0 tr c : quiet tr0 tr → is_send c = false → quiet tr0 (tr ++ [c]).
Proof.
  intros (pre & -> & Hp) Hc. exists (pre ++ [c]). rewrite app_assoc. split; [done|].
  rewrite forallb_app, Hp. cbn. by rewrite Hc.
Qed.
Lemma quiet_trans tr0 tr1 tr2 : quiet tr0 tr1 → quiet tr1 tr2 → quiet tr0 tr2.
Proof.
  intros (p1 & -> & H1) (p2 & -> & H2). exists (p1 ++ p2). rewrite app_assoc.
  split; [done|]. by rewrite forallb_app, H1.
Qed.
#[export] Hint Resolve quiet_refl quiet_snoc : cpp.

(** *** Steps *)

(** A call of sourcekitd from the world [w] with the calls [tr]. *)
Lemma skd_step {A B} (t : thread trace A) (k : A → thread World B) w tr a tr' Q :
  run t tr = (Finished a, tr') → finishes (k a) (set_calls tr' w) Q →
  finishes (skd t ≫= k) (set_calls tr w) Q.
Proof.
  intros E (b & w' & E' & HQ). exists b, w'. split; [|done].
  unfold skd. rewrite run_bind, run_zoom. cbn. by rewrite E.
Qed.
Lemma say_step {B} lg level msg (k : unit → thread World B) w tr Q :
  (∀ c, finishes (k tt) (set_calls tr (set_console c w)) Q) →
  finishes (say lg level msg ≫= k) (set_calls tr w) Q.
Proof.
  intros Hk. destruct (Hk (console_of w ++ log_lines lg level [msg])) as (b & w' & E & HQ).
  exists b, w'. split; [|done]. unfold say. rewrite run_bind, run_zoom, run_log. exact E.
Qed.
Lemma set_calls_self w : set_calls (calls_of w) w = w.
Proof. by destruct w. Qed.

Section Ledger.
Context `{FreshHandles} (l0 : ledger).

Definition building (o : object_ptr) (v : gmap uid request_value) (tr : trace) : Prop :=
  ∃ l, ledger_of tr = Some l ∧ holding l0 {[o]} o v l.
Definition filling (o : object_ptr) (v : gmap uid request_value) (o' : object_ptr)
    (n : node) (tr : trace) : Prop :=
  ∃ l, ledger_of tr = Some l ∧ filled l0 o v o' n l.

Lemma begin_request tr :
  ledger_of tr = Some l0 →
  building (skd_create tr) ∅ (tr ++ [DictionaryCreate (skd_create tr)]).
Proof. intros E. by eapply settles_of, holding_begin, create_fresh. Qed.
Lemma set_uid o v tr key u :
  building o v tr → building o (<[key := VUid u]> v) (tr ++ [DictionarySetUid o key u]).
Proof. intros (l & E & Hh). by eapply settles_of, holding_uid. Qed.
Lemma set_int64 o v tr key z :
  building o v tr → building o (<[key := VInt z]> v) (tr ++ [DictionarySetInt64 o key z]).
Proof. intros (l & E & Hh). by eapply settles_of, holding_int64. Qed.
Lemma set_string o v tr key s :
  building o v tr → building o (<[key := VString s]> v) (tr ++ [DictionarySetString o key s]).
Proof. intros (l & E & Hh). by eapply settles_of, holding_string. Qed.
Lemma begin_child o v tr c n :
  building o v tr → (∀ l, account c l = Some (create_object (skd_create tr) n l)) →
  filling o v (skd_create tr) n (tr ++ [c]).
Proof. intros (l & E & Hh) Ha. eapply settles_of, filled_begin; eauto using create_fresh. Qed.
Lemma append_string o v tr o' a s :
  filling o v o' (NArray a) tr →
  filling o v o' (NArray (a ++ [s])) (tr ++ [ArrayAppendString o' s]).
Proof. intros (l & E & Hf). by eapply settles_of, filled_append. Qed.
Lemma put_child_object o v tr o' n key :
  filling o v o' n tr →
  building o (<[key := node_value n]> v)
    ((tr ++ [DictionarySetValue o key o']) ++ [RequestRelease o']).
Proof.
  intros (l & E & Hf).
  destruct (settles_of _ _ _ _ E (filled_put l0 o v l o' n key Hf)) as (l1 & E1 & H1).
  by eapply settles_of, adopted_release.
Qed.
End Ledger.

(** ** The requests *)

Section Requests.
Context `{FreshHandles}.

Lemma run_append_args args l tr :
  run (append_args args l) tr =
  (Finished tt, tr ++ map (λ s, ArrayAppendString args (c_str s)) l).
Proof.
  revert tr; induction l as [|s l IH]; intros tr; cbn [append_args map].
  - by rewrite app_nil_r.
  - unfold sourcekitd_request_array_set_string. rewrite run_bind, run_tell. cbn.
    by rewrite IH, <- app_assoc.
Qed.

Lemma append_strings l0 o v o' a l tr :
  filling l0 o v o' (NArray a) tr →
  filling l0 o v o' (NArray (a ++ map c_str l))
    (tr ++ map (λ s, ArrayAppendString o' (c_str s)) l).
Proof.
  revert a tr; induction l as [|s l IH]; intros a tr Hf; cbn.
  - by rewrite !app_nil_r.
  - replace (tr ++ _) with ((tr ++ [ArrayAppendString o' (c_str s)]) ++
      map (λ s, ArrayAppendString o' (c_str s)) l) by (by rewrite <- app_assoc).
    replace (a ++ _) with ((a ++ [c_str s]) ++ map c_str l) by (by rewrite <- app_assoc).
    apply IH. by apply append_string.
Qed.

Lemma quiet_append tr0 tr o l :
  quiet tr0 tr → quiet tr0 (tr ++ map (λ s, ArrayAppendString o (c_str s)) l).
Proof.
  intros Hq. eapply quiet_trans; [exact Hq|]. eexists. split; [done|].
  induction l as [|s l IH]; [done|exact IH].
Qed.

(** What CodeCompleteRequest asks. *)
Definition complete_request (requestUID : uid) (name : string) (offset : Z)
    (text : string) (args : list string) : gmap uid request_value :=
  <[KeyCompilerArgs := VArray (c_str name :: map c_str args)]>
  (<[KeyCodeCompleteOptions := VDictionary ∅]>
  (<[KeySourceText := VString (c_str text)]>
  (<[KeySourceFile := VString (c_str name)]>
  (<[KeyName := VString (c_str name)]>
  (<[KeyOffset := VInt offset]>
  (<[KeyRequest := VUid requestUID]> ∅)))))).

(** What BasicRequest asks. *)
Definition basic_request (requestUID : uid) (name text : string) (args : list string)
    : gmap uid request_value :=
  <[KeyCompilerArgs := VArray (c_str name :: map c_str args)]>
  (<[("key.syntactic_only" : uid) := VInt 0]>
  (<[("key.enablesubstructure" : uid) := VInt 1]>
  (<[KeySourceText := VString (c_str text)]>
  (<[KeyName := VString (c_str name)]>
  (<[KeyRequest := VUid requestUID]> ∅))))).

(** A request is built, sent and released. *)
Lemma CodeCompleteRequest_builds l0 u name off text args func o w tr Q :
  ledger_of tr = Some l0 →
  (∀ req tr', building l0 req (complete_request u name off text args) tr' →
    quiet tr tr' →
    finishes (SendRequestSync req func o) (set_calls tr' w)
      (λ res w', Q res (set_calls (calls_of w' ++ [RequestRelease req]) w'))) →
  finishes (CodeCompleteRequest u name off text args None func o) (set_calls tr w) Q.
Proof.
  intros E Hs. unfold CodeCompleteRequest.
  eapply skd_step; [reflexivity|]. do 2 (eapply skd_step; [reflexivity|]).
  eapply skd_step; [reflexivity|]. cbn [mbind thread_bind thread_bind_go mret thread_ret].
  do 4 (eapply skd_step; [reflexivity|]).
  eapply skd_step; [apply run_append_args|].
  do 2 (eapply skd_step; [reflexivity|]).
  eapply finishes_bind.
  { apply Hs.
    - apply (put_child_object l0 _ _ _ _ (NArray _)), (append_strings l0 _ _ _ [c_str name] args), (append_string l0 _ _ _ _ []).
      eapply (begin_child l0); [|reflexivity].
      apply (put_child_object l0 _ _ _ _ (NDictionary ∅)).
      eapply (begin_child l0); [|reflexivity].
      do 2 apply set_string. apply set_string, set_int64, set_uid, begin_request, E.
    - do 2 (apply quiet_snoc; [|done]). apply quiet_append. auto 20 with cpp. }
  intros res w' HQ. rewrite <- (set_calls_self w').
  eapply skd_step; [reflexivity|]. by apply finishes_ret.
Qed.

Lemma BasicRequest_builds l0 u name text args func o w tr Q :
  ledger_of tr = Some l0 →
  (∀ req tr', building l0 req (basic_request u name text args) tr' → quiet tr tr' →
    finishes (SendRequestSync req func o) (set_calls tr' w)
      (λ res w', Q res (set_calls (calls_of w' ++ [RequestRelease req]) w'))) →
  finishes (BasicRequest u name text args func o) (set_calls tr w) Q.
Proof.
  intros E Hs. unfold BasicRequest.
  do 8 (eapply skd_step; [reflexivity|]).
  eapply skd_step; [apply run_append_args|].
  do 2 (eapply skd_step; [reflexivity|]).
  eapply finishes_bind.
  { apply Hs.
    - apply (put_child_object l0 _ _ _ _ (NArray _)), (append_strings l0 _ _ _ [c_str name] args), (append_string l0 _ _ _ _ []).
      eapply (begin_child l0); [|reflexivity].
      apply set_int64, set_int64, set_string, set_string, set_uid, begin_request, E.
    - do 2 (apply quiet_snoc; [|done]). apply quiet_append. auto 20 with cpp. }
  intros res w' HQ. rewrite <- (set_calls_self w').
  eapply skd_step; [reflexivity|]. by apply finishes_ret.
Qed.
End Requests.

(** ** The operations of the service *)

Section Service.
Context `{FreshHandles}.

(** The description of the response [r] that [tr] ends by receiving. *)
Definition description_of (tr : trace) (r : response_ptr) : string :=
  skd_json (tr ++ [ResponseIsError r] ++ [ResponseGetValue r]) r.

(** From [w] to [w'] exactly one request was sent; sourcekitd received [v].
    The error flag is its answer's, and [oresponse] became the answer's
    description unless that was an error.  The program owns what it owned
    before, and one more C string after a success. *)
Definition answered (v : gmap uid request_value) (oresponse : option string)
    (w : World) (res : bool * option string) (w' : World) : Prop :=
  ∃ tr l req, quiet (calls_of w) tr ∧ ledger_of tr = Some l ∧ request_view l req = Some v ∧
    let r := skd_send tr req in
    let sent := tr ++ [RequestSendSync req r] in
    let err := skd_is_error sent r in
    quiet sent (calls_of w') ∧
    res = (err, if err then oresponse else Some (description_of sent r)) ∧
    channel_of w' = channel_of w ∧ handler_of w' = handler_of w ∧
    ∀ l0, ledger_of (calls_of w) = Some l0 →
    ∃ l', ledger_of (calls_of w') = Some l' ∧ objects l' = objects l0 ∧
      responses l' = responses l0 ∧
      copies l' = (copies l0 + if err then 0 else 1)%nat.

(** Account for the calls that handle one's own response. *)
Lemma own_response tr l c r :
  ledger_of tr = Some l → r ∈ responses l →
  (∀ l, account c l = owns_response r l) → ledger_of (tr ++ [c]) = Some l.
Proof.
  intros E Hr Ha. eapply ledger_of_snoc; [exact E|]. rewrite Ha. unfold owns_response.
  by rewrite decide_True.
Qed.

Lemma send_answered l0 req v this oresponse w0 tr w :
  building l0 req v tr → quiet (calls_of w0) tr → ledger_of (calls_of w0) = Some l0 →
  channel_of w = channel_of w0 → handler_of w = handler_of w0 →
  finishes (SendRequestSync req (store_response this) oresponse) (set_calls tr w)
    (λ res w', answered v oresponse w0 res
                 (set_calls (calls_of w' ++ [RequestRelease req]) w')).
Proof.
  intros (l & E & Ho & Hd & Hr & Hc & m & Hm & Hv & _) Hq E0 Hch Hh.
  unfold SendRequestSync. eapply skd_step; [reflexivity|].
  set (r := skd_send tr req). set (sent := tr ++ [RequestSendSync req r]).
  pose proof (send_fresh tr l req E) as Hf. fold r in Hf.
  assert (request_view l req = Some v) as Hview.
  { unfold request_view. by rewrite Hm, Hv. }
  assert (ledger_of sent = Some (with_response r (Some v) l)) as E1.
  { eapply ledger_of_snoc; [exact E|]. cbn. rewrite decide_True by set_solver. by rewrite Hview. }
  assert (r ∈ {[r]} ∪ responses l) as Hrin by (by apply elem_of_union_l, elem_of_singleton).
  assert (∀ res w' l', quiet sent (calls_of w') → ledger_of (calls_of w') = Some l' →
    objects l' = objects l → responses l' = {[r]} ∪ responses l →
    copies l' = (copies l0 + if skd_is_error sent r then 0 else 1)%nat →
    channel_of w' = channel_of w0 → handler_of w' = handler_of w0 →
    res = (skd_is_error sent r,
           if skd_is_error sent r then oresponse else Some (description_of sent r)) →
    answered v oresponse w0 res (set_calls (calls_of (set_calls
      (calls_of w' ++ [ResponseDispose r]) w') ++ [RequestRelease req]) w')) as Hend.
  { intros res w' l' Hq' E' Ho' Hr' Hc' Hch' Hh' ->.
    exists tr, l, req. do 3 (split; [done|]). fold r. fold sent. cbn zeta.
    cbn [calls_of set_calls channel_of handler_of].
    split; [auto with cpp|]. do 3 (split; [done|]). intros l0' E0'. simplify_eq. eexists. split.
    { eapply ledger_of_snoc; [eapply ledger_of_snoc; [exact E'|]|]; cbn.
      - by rewrite decide_True by set_solver.
      - by rewrite decide_True by (cbn; set_solver). }
    cbn. split_and!; [set_solver|set_solver|done]. }
  eapply finishes_bind with (R := λ res w', ∃ l',
    quiet sent (calls_of w') ∧ ledger_of (calls_of w') = Some l' ∧
    objects l' = objects l ∧ responses l' = {[r]} ∪ responses l ∧
    copies l' = (copies l0 + if skd_is_error sent r then 0 else 1)%nat ∧
    channel_of w' = channel_of w0 ∧ handler_of w' = handler_of w0 ∧
    res = (skd_is_error sent r,
           if skd_is_error sent r then oresponse else Some (description_of sent r))).
  2: { intros res w' (l' & ? & ? & ? & ? & ? & ? & ? & ?). rewrite <- (set_calls_self w').
       eapply skd_step; [reflexivity|]. apply finishes_ret. by apply (Hend res w' l'). }
  unfold store_response. eapply skd_step; [reflexivity|].
  assert (ledger_of (sent ++ [ResponseIsError r]) = Some (with_response r (Some v) l))
    as E2 by (eapply own_response; [exact E1|exact Hrin|done]).
  change (tr ++ [RequestSendSync req (skd_send tr req)]) with sent.
  destruct (skd_is_error sent r).
  - apply finishes_ret. eexists. split; [cbn; auto with cpp|]. split; [exact E2|].
    split_and!; try done. cbn. lia.
  - eapply skd_step; [reflexivity|]. apply say_step. intros c.
    apply finishes_ret. eexists. split; [cbn; auto with cpp|]. split.
    { eapply ledger_of_snoc.
      - by eapply own_response; [exact E2|exact Hrin|].
      - cbn. unfold owns_response. by rewrite decide_True by exact Hrin. }
    split_and!; try done; [cbn; lia|]. unfold description_of. by rewrite app_assoc.
Qed.

Lemma answered_console v o w res w' c tr :
  answered v o w res w' → tr = calls_of w' → answered v o w res (set_calls tr (set_console c w')).
Proof. intros Ha ->. exact Ha. Qed.

Lemma finish_say {A} lg level msg (a : A) w (Q : A → World → Prop) :
  (∀ c, Q a (set_calls (calls_of w) (set_console c w))) →
  finishes (_ ← say lg level msg; mret a) w Q.
Proof.
  intros HQ. rewrite <- (set_calls_self w). apply say_step. intros c.
  apply finishes_ret. apply HQ.
Qed.

Lemma last_say lg level msg w (Q : unit → World → Prop) :
  (∀ c, Q tt (set_console c w)) → finishes (say lg level msg) w Q.
Proof.
  intros HQ. unfold finishes, say. rewrite run_zoom, run_log.
  eexists tt, _. split; [reflexivity|]. apply HQ.
Qed.

Lemma completion_answered uidName will did this ctx oresponse w l0 off clean :
  ledger_of (calls_of w) = Some l0 → GetOffset ctx 0 EmptyString = Ok (off, clean) →
  finishes (completion uidName will did this ctx oresponse) w
    (answered (complete_request (c_str uidName) (sourceFilename ctx) off clean
      (compilerArgs ctx)) oresponse w).
Proof.
  intros E EG. unfold completion. rewrite <- (set_calls_self w) at 1. apply say_step.
  intros c. rewrite EG. cbn [of_outcome mbind thread_bind thread_bind_go].
  eapply finishes_bind.
  { eapply CodeCompleteRequest_builds; [exact E|]. intros req tr' Hb Hq.
    by eapply (send_answered l0 req _ this oresponse w). }
  intros res w' Ha. apply finish_say. intros c'. by apply answered_console.
Qed.

Lemma editor_answered uidName will did this ctx f fs oresponse w l0 :
  ledger_of (calls_of w) = Some l0 → unsavedFiles ctx = f :: fs →
  finishes (editor uidName will did this ctx oresponse) w
    (answered (basic_request (c_str uidName) (sourceFilename ctx) (contents f)
      (compilerArgs ctx)) oresponse w).
Proof.
  intros E EF. unfold editor. rewrite <- (set_calls_self w) at 1. apply say_step.
  intros c. rewrite EF. cbn [of_outcome mbind thread_bind thread_bind_go].
  eapply finishes_bind.
  { eapply BasicRequest_builds; [exact E|]. intros req tr' Hb Hq.
    by eapply (send_answered l0 req _ this oresponse w). }
  intros res w' Ha. apply finish_say. intros c'. by apply answered_console.
Qed.

(** C9: a completion request always finishes.  Exactly one request reaches
    sourcekitd; it names the operation, the source file, the text cut at the
    completion point with its offset, and the compiler arguments behind the
    file's name, each as the C string the callee sees.  The answer decides the
    error flag and, unless it is an error, the response; every request object
    created and the response are given up, nothing is used that is not owned,
    and one C string per success stays allocated. *)
Theorem completion_requests (this : SourceKitService) (ctx : CompletionContext)
    (oresponse : option string) (w : World) (l0 : ledger) (off : Z) (clean : string) :
  ledger_of (calls_of w) = Some l0 → GetOffset ctx 0 EmptyString = Ok (off, clean) →
  let request name := complete_request name (sourceFilename ctx) off clean
    (compilerArgs ctx) in
  finishes (CompletionOpen this ctx oresponse) w
    (answered (request "source.request.codecomplete.open") oresponse w) ∧
  finishes (CompletionUpdate this ctx oresponse) w
    (answered (request "source.request.codecomplete.update") oresponse w).
Proof.
  intros E EG request. unfold CompletionOpen, CompletionUpdate. split.
  - exact (completion_answered "source.request.codecomplete.open" _ _ this ctx oresponse
      w l0 off clean E EG).
  - exact (completion_answered "source.request.codecomplete.update" _ _ this ctx oresponse
      w l0 off clean E EG).
Qed.

(** C32: an editor request always finishes when there is an unsaved file.
    Exactly one request reaches sourcekitd, with the first unsaved file's
    contents; objects, response and copies are accounted for as above. *)
Theorem editor_requests (this : SourceKitService) (ctx : CompletionContext)
    (f : UnsavedFile) (fs : list UnsavedFile) (oresponse : option string) (w : World)
    (l0 : ledger) :
  ledger_of (calls_of w) = Some l0 → unsavedFiles ctx = f :: fs →
  let request name := basic_request name (sourceFilename ctx) (contents f)
    (compilerArgs ctx) in
  finishes (EditorOpen this ctx oresponse) w
    (answered (request "source.request.editor.open") oresponse w) ∧
  finishes (EditorReplaceText this ctx oresponse) w
    (answered (request "source.request.editor.replacetext") oresponse w).
Proof.
  intros E EF request. unfold EditorOpen, EditorReplaceText. split.
  - exact (editor_answered "source.request.editor.open" _ _ this ctx f fs oresponse
      w l0 E EF).
  - exact (editor_answered "source.request.editor.replacetext" _ _ this ctx f fs oresponse
      w l0 E EF).
Qed.
End Service.

(** ** The notification receiver *)

Section Receiver.
Context `{FreshHandles}.

(** What the receiver's own request holds. *)
Definition sema_request (name : string) : gmap uid request_value :=
  <[KeySourceText := VString EmptyString]>
  (<[KeyName := VString (c_str name)]>
  (<[KeyRequest := VUid "source.request.editor.replacetext"]> ∅)).

(** The calls made before the name is looked at, and the name. *)
Definition received (tr : trace) (resp : response_ptr) : trace :=
  (((tr ++ [ResponseDump resp]) ++ [ResponseGetValue resp]) ++ [ResponseGetValue resp])
    ++ [JsonDescriptionCopy resp].
Definition sema_name (tr : trace) (resp : response_ptr) : string :=
  if skd_payload_is_null (tr ++ [ResponseDump resp]) resp then EmptyString
  else default EmptyString (skd_get_string (received tr resp) resp KeyName).

Lemma received_ledger tr resp l :
  ledger_of tr = Some l → resp ∈ responses l →
  ledger_of (received tr resp) = Some (with_copies 1 l).
Proof.
  intros E Hr. unfold received. eapply ledger_of_snoc.
  - do 3 (eapply own_response; [|exact Hr|done]). exact E.
  - cbn. unfold owns_response. rewrite decide_True by done. cbn.
    by rewrite <- Nat.add_1_r.
Qed.

Lemma own_description tr r l :
  ledger_of tr = Some l → r ∈ responses l →
  ledger_of ((tr ++ [ResponseGetValue r]) ++ [JsonDescriptionCopy r]) =
  Some (with_copies 1 l).
Proof.
  intros E Hr. eapply ledger_of_snoc; [by eapply own_response|].
  cbn. unfold owns_response. rewrite decide_True by done. cbn. by rewrite <- Nat.add_1_r.
Qed.

(** The receiver's request from the calls [tr] on, its response and the value
    it sets. *)
Definition set_by (tr0 : trace) (l0 : ledger) (name : string) (ch : FutureChannel)
    (w' : World) : Prop :=
  ∃ tr l req, quiet tr0 tr ∧ ledger_of tr = Some l ∧
    request_view l req = Some (sema_request name) ∧
    let r := skd_send tr req in
    let sent := tr ++ [RequestSendSync req r] in
    quiet sent (calls_of w') ∧
    set name (skd_json (((sent ++ [ResponseDump r]) ++ [RequestRelease req]) ++
      [ResponseGetValue r]) r) ch = Ok (channel_of w') ∧
    ∃ l', ledger_of (calls_of w') = Some l' ∧ objects l' = objects l0 ∧
      responses l' = {[r]} ∪ responses l0 ∧ copies l' = (copies l0 + 1)%nat.

Lemma sema_sent tr0 tr l0 req name :
  building l0 req (sema_request name) tr → quiet tr0 tr →
  let r := skd_send tr req in
  let tr' := (((((tr ++ [RequestSendSync req r]) ++ [ResponseDump r]) ++
    [RequestRelease req]) ++ [ResponseGetValue r]) ++ [JsonDescriptionCopy r]) in
  ∀ w' ch, calls_of w' = tr' →
  set name (skd_json ((((tr ++ [RequestSendSync req r]) ++ [ResponseDump r]) ++
    [RequestRelease req]) ++ [ResponseGetValue r]) r) ch = Ok (channel_of w') →
  set_by tr0 l0 name ch w'.
Proof.
  intros (l & E & Ho & Hd & Hr & Hc & m & Hm & Hv & _) Hq r tr' w' ch Ew Es.
  assert (r ∈ {[r]} ∪ responses l) as Hrin by (by apply elem_of_union_l, elem_of_singleton).
  exists tr, l, req. split; [done|]. split; [done|].
  split; [unfold request_view; by rewrite Hm, Hv|].
  fold r. cbn zeta. rewrite Ew. split; [unfold tr'; auto 10 with cpp|]. split; [exact Es|].
  eexists. split.
  { eapply own_description; [|].
    - eapply ledger_of_snoc; [eapply own_response; [eapply ledger_of_snoc; [exact E|]| |done]|].
      + cbn. rewrite decide_True by set_solver. reflexivity.
      + exact Hrin.
      + cbn. rewrite decide_True by set_solver. reflexivity.
    - exact Hrin. }
  cbn. split; [set_solver|]. rewrite Hr, Hc. done.
Qed.

Lemma received_name (lg : Logger) (resp : response_ptr) (w : World) (l0 : ledger)
    (name : string) :
  ledger_of (calls_of w) = Some l0 → well_formed (channel_of w) →
  finishes
    (edReq ← skd sourcekitd_request_dictionary_create;
     _ ← skd (sourcekitd_request_dictionary_set_uid edReq KeyRequest
            (sourcekitd_uid_get_from_cstr "source.request.editor.replacetext"));
     _ ← skd (sourcekitd_request_dictionary_set_string edReq KeyName name);
     _ ← skd (sourcekitd_request_dictionary_set_string edReq KeySourceText "");
     semaResponse ← skd (sourcekitd_send_request_sync edReq);
     _ ← skd (sourcekitd_response_description_dump semaResponse);
     _ ← skd (sourcekitd_request_release edReq);
     _ ← say lg LogLevelInfo "SEMA_DONE";
     s ← skd (PrintResponse semaResponse);
     zoom (lift_set name s)) w
    (λ _ w', set_by (calls_of w) l0 name (channel_of w) w').
Proof.
  intros E Hwf. rewrite <- (set_calls_self w) at 1.
  do 7 (eapply skd_step; [reflexivity|]). apply say_step. intros c.
  eapply skd_step; [reflexivity|].
  set (tr0 := (_ ++ [DictionarySetUid _ _ _])).
  match goal with |- finishes (zoom (lift_set name ?s)) _ _ =>
    destruct (set_spec name s (channel_of w) Hwf) as (ch' & Es & _) end.
  unfold finishes. rewrite run_zoom. unfold lift_set. cbn [run]. cbn [view channel_lens].
  cbn [channel_of set_calls set_console]. rewrite Es. cbn [fst snd run update channel_lens].
  eexists tt, _. split; [reflexivity|]. eapply sema_sent; [| |reflexivity|exact Es].
  - apply set_string, set_string, set_uid, begin_request, E.
  - unfold tr0. auto 10 with cpp.
Qed.

Lemma receiver_spec (lg : Logger) (resp : response_ptr) (w : World) (l0 : ledger) :
  ledger_of (calls_of w) = Some l0 → resp ∈ responses l0 → well_formed (channel_of w) →
  finishes (NotificationReceiver lg resp) w (λ _ w',
    let name := sema_name (calls_of w) resp in
    if decide (name = EmptyString) then
      channel_of w' = channel_of w ∧ quiet (calls_of w) (calls_of w') ∧
      ledger_of (calls_of w') = Some (with_copies 1 l0)
    else set_by (calls_of w) (with_copies 1 l0) name (channel_of w) w').
Proof.
  intros E Hr Hwf. unfold NotificationReceiver. rewrite <- (set_calls_self w) at 1.
  do 2 (eapply skd_step; [reflexivity|]). apply say_step. intros c1.
  eapply skd_step; [reflexivity|]. apply say_step. intros c2.
  pose proof (received_ledger _ _ _ E Hr) as E1. unfold sema_name.
  destruct (skd_payload_is_null (calls_of w ++ [ResponseDump resp]) resp).
  { apply last_say. intros c3. cbn. split; [done|]. split; [auto 10 with cpp|exact E1]. }
  eapply skd_step; [reflexivity|]. change (_ ++ [JsonDescriptionCopy resp])
    with (received (calls_of w) resp).
  assert (ledger_of (received (calls_of w) resp ++ [DictionaryGetString resp KeyName]) =
    Some (with_copies 1 l0)) as E2 by (by eapply own_response).
  assert (quiet (calls_of w) (received (calls_of w) resp ++ [DictionaryGetString resp KeyName]))
    as Hq by (unfold received; auto 10 with cpp).
  destruct (skd_get_string (received (calls_of w) resp) resp KeyName) as [[|ch name]|];
    cbn [default from_option]; cbn zeta.
  1, 3: (apply last_say; intros c3; cbv beta zeta; by rewrite decide_True).
  do 2 (apply say_step; intros ?).
  eapply finishes_mono; [by apply received_name|]. cbv beta zeta.
  intros _ w' (tr & l & req & Hq' & Hset). rewrite decide_False by done.
  exists tr, l, req. split; [|exact Hset]. eapply quiet_trans; [exact Hq|exact Hq'].
Qed.
(** C33: a notification that carries no name (or an error's null payload) is
    only logged.  One that does makes the receiver ask sourcekitd for that
    document's semantic information, exactly once, and give the answer's
    description to every future waiting on the name.  The receiver never
    fails; of the two responses it owns it disposes of neither. *)
Theorem notification_received (lg : Logger) (resp : response_ptr) (w : World) (l0 : ledger) :
  ledger_of (calls_of w) = Some l0 → resp ∈ responses l0 → well_formed (channel_of w) →
  finishes (NotificationReceiver lg resp) w (λ _ w',
    let name := sema_name (calls_of w) resp in
    if decide (name = EmptyString) then
      channel_of w' = channel_of w ∧ quiet (calls_of w) (calls_of w') ∧
      ledger_of (calls_of w') = Some (with_copies 1 l0)
    else set_by (calls_of w) (with_copies 1 l0) name (channel_of w) w').
Proof. apply receiver_spec. Qed.
End Receiver.

(** ** The hypotheses can hold *)

Definition quiet_service : SourceKitService := {| skt_logger := make_Logger LogLevelError "SKT" |}.

Lemma completion_requests_witness :
  let request name := complete_request name "a.swift" 12 ("let x" +:+ NL +:+ "foo().")
    DefaultOSXArgs in
  finishes (CompletionOpen quiet_service cursor_on_dot None) world_new
    (answered (request "source.request.codecomplete.open") None world_new) ∧
  finishes (CompletionUpdate quiet_service cursor_on_dot None) world_new
    (answered (request "source.request.codecomplete.update") None world_new).
Proof.
  apply (completion_requests quiet_service cursor_on_dot None world_new ledger_new);
    [reflexivity|vm_compute; reflexivity].
Defined.

Lemma editor_requests_witness :
  let request name := basic_request name "a.swift" ("let x" +:+ NL +:+ "foo().bar baz" +:+ NL +:+ "y")
    DefaultOSXArgs in
  finishes (EditorOpen quiet_service cursor_on_dot None) world_new
    (answered (request "source.request.editor.open") None world_new) ∧
  finishes (EditorReplaceText quiet_service cursor_on_dot None) world_new
    (answered (request "source.request.editor.replacetext") None world_new).
Proof.
  apply (editor_requests quiet_service cursor_on_dot
    {| contents := "let x" +:+ NL +:+ "foo().bar baz" +:+ NL +:+ "y"; fileName := "a.swift" |} []
    None world_new ledger_new); reflexivity.
Defined.

(** A notification for the document [f] with one future waiting. *)
Definition one_waiting : World :=
  set_calls [Initialize; SetNotificationHandler; HandlerReceives 7%nat]
    (set_channel (match execute [OpFuture "f"] channel_new with
                  | Ok ch => ch
                  | Fail _ => channel_new
                  end) world_new).

Lemma notification_received_witness :
  finishes (NotificationReceiver (make_Logger LogLevelError "SKT") 7%nat) one_waiting (λ _ w',
    set_by (calls_of one_waiting)
      (with_copies 1 (with_responses {[7%nat]} ledger_new)) "f" (channel_of one_waiting) w').
Proof.
  assert (well_formed (channel_of one_waiting)) as Hwf.
  { destruct (execute_wf [OpFuture "f"] channel_new channel_new_wf) as (ch & E & H & _).
    unfold one_waiting. by rewrite E. }
  pose proof (notification_received (make_Logger LogLevelError "SKT") 7%nat one_waiting
    (with_responses {[7%nat]} ledger_new) eq_refl) as Hn.
  apply Hn; [set_solver|exact Hwf].
Defined.
