(* ===== verification/Completer.v ===== *)
(** * SwiftCompleter of src/SwiftCompleter.cpp

    The two queries the endpoints make, composed of requests to sourcekitd, and
    the notification handler that completes the second. *)

From S2P Require Import Prelude Logging Futures SourceKitD Offset SourceKit Requests.

Local Open Scope Z_scope.

(** ** Definitions *)

Record SwiftCompleter := { completer_logger : Logger }.
Definition SwiftCompleter_new (logLevel : LogLevel) : SwiftCompleter :=
  {| completer_logger := make_Logger logLevel "COMPLETER" |}.

(** Transform completion flags into diagnostic flags: the file's own name is
    left out. *)
Fixpoint DiagnosticFlagsFromFlags (filename : string) (flags : list string) : list string :=
  match flags with
  | [] => []
  | f :: flags =>
      if String.eqb f filename then DiagnosticFlagsFromFlags filename flags
      else f :: DiagnosticFlagsFromFlags filename flags
  end.

Definition EmptyCandidates : string := "{ 'key.results':[] }".
Definition EmptyDiagnostics : string := "{ 'key.diagnostics':[] }".

Section Completer.
Context `{SourceKitD}.

Definition completion_context (filename : string) (line column : Z)
    (unsavedFiles : list UnsavedFile) (flags : list string) : CompletionContext :=
  {| sourceFilename := filename; line := u32 line; column := u32 column;
     flags := flags; unsavedFiles := unsavedFiles |}.

(** [line] and [column] are [int]s; the context keeps them as [unsigned]. *)
Definition CandidatesForLocationInFile (this : SwiftCompleter) (filename : string)
    (line column : Z) (unsavedFiles : list UnsavedFile) (flags : list string)
    : thread World string :=
  let ctx := completion_context filename line column unsavedFiles flags in
  sktService ← SourceKitService_new (_level (completer_logger this));
  '(_, response) ← CompletionOpen sktService ctx None;
  '(_, response) ← CompletionUpdate sktService ctx response;
  match response with
  | None =>
      _ ← say (completer_logger this) LogLevelInfo "Empty response";
      mret EmptyCandidates
  | Some response => mret response
  end.

(** The requests of [DiagnosticsForFile], then its wait for the notification. *)
Definition diagnostics_requests (this : SwiftCompleter) (filename : string)
    (unsavedFiles : list UnsavedFile) (flags : list string)
    : thread World (option string) :=
  let ctx := completion_context filename 0 0 unsavedFiles
    (DiagnosticFlagsFromFlags filename flags) in
  sktService ← SourceKitService_new (_level (completer_logger this));
  '(_, response) ← EditorOpen sktService ctx None;
  '(_, response) ← EditorReplaceText sktService ctx response;
  mret response.

Definition await_semantic (filename : string) : thread World string :=
  future ← zoom (lift_future filename);
  zoom (future_get future).

Definition DiagnosticsForFile (this : SwiftCompleter) (filename : string)
    (unsavedFiles : list UnsavedFile) (flags : list string) : thread World string :=
  response ← diagnostics_requests this filename unsavedFiles flags;
  match response with
  | None =>
      _ ← say (completer_logger this) LogLevelInfo "Empty response";
      mret EmptyDiagnostics
  | Some _ => await_semantic filename
  end.

(** The block sourcekitd calls with a notification: it queues the receiver
    with the logger of the installing service. *)
Definition notification_handler (resp : response_ptr) : thread World unit :=
  _ ← skd (tell (HandlerReceives resp));
  handler ← gets handler_of;
  match handler with
  | Some logger => NotificationReceiver logger resp
  | None => mret tt
  end.
End Completer.

(** ** Candidates *)

Section Queries.
Context `{FreshHandles}.

(** The world after the service's constructor. *)
Definition installed (lg : LogLevel) (w : World) : World :=
  match handler_of w with
  | Some _ => w
  | None =>
      {| console_of := console_of w; channel_of := channel_of w;
         calls_of := calls_of w ++ [Initialize; SetNotificationHandler];
         handler_of := Some (make_Logger lg "SKT") |}
  end.

Lemma installed_ledger lg w l0 :
  ledger_of (calls_of w) = Some l0 → ledger_of (calls_of (installed lg w)) = Some l0.
Proof.
  intros E. unfold installed. destruct (handler_of w); [done|]. cbn.
  change [Initialize; SetNotificationHandler] with ([Initialize] ++ [SetNotificationHandler]).
  rewrite app_assoc. do 2 (eapply ledger_of_snoc; [|reflexivity]). exact E.
Qed.
Lemma installed_channel lg w : channel_of (installed lg w) = channel_of w.
Proof. unfold installed. by destruct (handler_of w). Qed.

Lemma service_new lg w {B} (k : SourceKitService → thread World B) Q :
  finishes (k {| skt_logger := make_Logger lg "SKT" |}) (installed lg w) Q →
  finishes (SourceKitService_new lg ≫= k) w Q.
Proof.
  intros (b & w' & E & HQ). exists b, w'. split; [|done].
  unfold SourceKitService_new. rewrite !run_bind, run_modify. exact E.
Qed.

Lemma answered_ledger v o w res w' l0 :
  answered v o w res w' → ledger_of (calls_of w) = Some l0 →
  ∃ l', ledger_of (calls_of w') = Some l' ∧ objects l' = objects l0 ∧
    responses l' = responses l0.
Proof.
  intros (tr & l & req & _ & _ & _ & _ & _ & _ & _ & Hl) E.
  destruct (Hl l0 E) as (l' & ? & ? & ? & _). by exists l'.
Qed.
Lemma answered_channel v o w res w' :
  answered v o w res w' → channel_of w' = channel_of w ∧ handler_of w' = handler_of w.
Proof. by intros (tr & l & req & _ & _ & _ & _ & _ & ? & ? & _). Qed.

(** What a query for candidates does and replies. *)
Definition candidates_answered (this : SwiftCompleter) (filename : string)
    (flags : list string) (off : Z) (clean : string) (w : World) (l0 : ledger)
    (reply : string) (w' : World) : Prop :=
  let request name := complete_request name filename off clean
    (if (length flags =? 0)%nat then DefaultOSXArgs else flags) in
  ∃ e1 o1 w1 e2 o2 w2,
    answered (request "source.request.codecomplete.open") None
      (installed (_level (completer_logger this)) w) (e1, o1) w1 ∧
    answered (request "source.request.codecomplete.update") o1 w1 (e2, o2) w2 ∧
    reply = default EmptyCandidates o2 ∧
    calls_of w' = calls_of w2 ∧ channel_of w' = channel_of w ∧
    ∃ l', ledger_of (calls_of w') = Some l' ∧ objects l' = objects l0 ∧
      responses l' = responses l0.

Lemma candidates_spec this filename line column files flags w l0 off clean :
  ledger_of (calls_of w) = Some l0 →
  GetOffset (completion_context filename line column files flags) 0 EmptyString =
    Ok (off, clean) →
  finishes (CandidatesForLocationInFile this filename line column files flags) w
    (candidates_answered this filename flags off clean w l0).
Proof.
  intros E EG. pose (ctx := completion_context filename line column files flags).
  pose (request name := complete_request name filename off clean
    (if (length flags =? 0)%nat then DefaultOSXArgs else flags)).
  unfold CandidatesForLocationInFile, candidates_answered. apply service_new.
  pose proof (installed_ledger (_level (completer_logger this)) w l0 E) as E1.
  eapply finishes_bind.
  { exact (completion_answered "source.request.codecomplete.open" _ _ _ ctx None _ l0
      off clean E1 EG). }
  intros [e1 o1] w1 A1. destruct (answered_ledger _ _ _ _ _ _ A1 E1) as (l1 & L1 & O1 & R1).
  eapply finishes_bind.
  { exact (completion_answered "source.request.codecomplete.update" _ _ _ ctx o1 _ l1
      off clean L1 EG). }
  intros [e2 o2] w2 A2. destruct (answered_ledger _ _ _ _ _ _ A2 L1) as (l2 & L2 & O2 & R2).
  destruct (answered_channel _ _ _ _ _ A1) as [C1 _], (answered_channel _ _ _ _ _ A2) as [C2 _].
  rewrite installed_channel in C1.
  assert (∀ c, ∃ e1 o1 w1 e2' o2' w2',
    answered (request "source.request.codecomplete.open") None
      (installed (_level (completer_logger this)) w) (e1, o1) w1 ∧
    answered (request "source.request.codecomplete.update") o1 w1 (e2', o2') w2' ∧
    default EmptyCandidates o2 = default EmptyCandidates o2' ∧
    calls_of (set_calls (calls_of w2) (set_console c w2)) = calls_of w2' ∧
    channel_of (set_calls (calls_of w2) (set_console c w2)) = channel_of w ∧
    ∃ l', ledger_of (calls_of (set_calls (calls_of w2) (set_console c w2))) = Some l' ∧
      objects l' = objects l0 ∧ responses l' = responses l0) as Hd.
  { intros c. exists e1, o1, w1, e2, o2, w2. split_and!; [done..| |].
    - cbn. congruence.
    - exists l2. split; [exact L2|]. split; congruence. }
  destruct o2 as [s|].
  - apply finishes_ret. specialize (Hd (console_of w2)). by destruct w2.
  - apply finish_say. intros c. apply (Hd c).
Qed.

Lemma candidates_fail this filename line column files flags w f :
  GetOffset (completion_context filename line column files flags) 0 EmptyString = Fail f →
  ∃ w', run (CandidatesForLocationInFile this filename line column files flags) w =
    (Failed f, w').
Proof.
  intros EG. eexists. unfold CandidatesForLocationInFile, SourceKitService_new.
  rewrite !run_bind, run_modify. cbn. unfold CompletionOpen, completion, say.
  rewrite !run_bind, run_zoom, run_log, EG. reflexivity.
Qed.

(** C30: a query for candidates with a non-empty unsaved file of that name
    always finishes.  It asks sourcekitd to open and then to update a
    completion of the same text, offset and arguments, the conventional flags
    when it was given none; the reply is the second answer, the first when
    that is an error, and the empty reply when both are.  Every request object
    and response is given up and no future is touched. *)
Theorem candidates_reply (this : SwiftCompleter) (filename : string) (line column : Z)
    (files : list UnsavedFile) (flags : list string) (w : World) (l0 : ledger) :
  ledger_of (calls_of w) = Some l0 →
  match GetOffset (completion_context filename line column files flags) 0 EmptyString with
  | Ok (off, clean) =>
      finishes (CandidatesForLocationInFile this filename line column files flags) w
        (candidates_answered this filename flags off clean w l0)
  | Fail f =>
      (run (CandidatesForLocationInFile this filename line column files flags) w).1 = Failed f
  end.
Proof.
  intros E. destruct (GetOffset _ _ _) as [[off clean]|f] eqn:EG; [by apply candidates_spec|].
  destruct (candidates_fail this filename line column files flags w f EG) as [w' ->]. done.
Qed.

(** A query for candidates whose file has no unsaved contents, under its
    own name or at all, ends in [GetOffset]'s assertion. *)
Theorem candidates_assertion (this : SwiftCompleter) (filename : string) (line column : Z)
    (files : list UnsavedFile) (flags : list string) (w : World) :
  find_unsaved (completion_context filename line column files flags) = EmptyString →
  (run (CandidatesForLocationInFile this filename line column files flags) w).1 =
  Failed (AssertionFailed "Missing unsaved file").
Proof.
  intros E. unfold CandidatesForLocationInFile, SourceKitService_new.
  rewrite !run_bind, run_modify. cbn. unfold CompletionOpen, completion, say, GetOffset.
  rewrite E. rewrite !run_bind, run_zoom, run_log. reflexivity.
Qed.

(** *** Diagnostics *)

Lemma diagnostics_requests_spec (this : SwiftCompleter) filename f fs flags w l0 :
  let request name := basic_request name filename (contents f)
    (compilerArgs (completion_context filename 0 0 (f :: fs)
      (DiagnosticFlagsFromFlags filename flags))) in
  ledger_of (calls_of w) = Some l0 →
  finishes (diagnostics_requests this filename (f :: fs) flags) w
    (λ response w', ∃ e1 o1 w1 e2,
       answered (request "source.request.editor.open") None
         (installed (_level (completer_logger this)) w) (e1, o1) w1 ∧
       answered (request "source.request.editor.replacetext") o1 w1 (e2, response) w' ∧
       channel_of w' = channel_of w ∧
       handler_of w' = handler_of (installed (_level (completer_logger this)) w) ∧
       ∃ l', ledger_of (calls_of w') = Some l' ∧ objects l' = objects l0 ∧
         responses l' = responses l0).
Proof.
  intros request E. unfold diagnostics_requests. cbv zeta. apply service_new.
  pose proof (installed_ledger (_level (completer_logger this)) w l0 E) as E1.
  set (ctx := completion_context _ _ _ _ _).
  eapply finishes_bind.
  { exact (editor_answered "source.request.editor.open" _ _ _ ctx f fs None _ l0 E1 eq_refl). }
  intros [e1 o1] w1 A1. destruct (answered_ledger _ _ _ _ _ _ A1 E1) as (l1 & L1 & O1 & R1).
  eapply finishes_bind.
  { exact (editor_answered "source.request.editor.replacetext" _ _ _ ctx f fs o1 _ l1 L1
      eq_refl). }
  intros [e2 o2] w2 A2. destruct (answered_ledger _ _ _ _ _ _ A2 L1) as (l2 & L2 & O2 & R2).
  destruct (answered_channel _ _ _ _ _ A1) as [C1 H1], (answered_channel _ _ _ _ _ A2) as [C2 H2].
  rewrite installed_channel in C1. apply finishes_ret. exists e1, o1, w1, e2.
  split; [exact A1|]. split; [exact A2|]. split; [congruence|]. split; [congruence|].
  exists l2. split; [exact L2|]. split; congruence.
Qed.

Lemma await_blocks filename w :
  well_formed (channel_of w) →
  ∃ ch', run (zoom (lift_future filename)) w = (Finished (next_promise (channel_of w)),
      set_channel ch' w) ∧ well_formed ch' ∧
    future_ready (next_promise (channel_of w)) ch' = None ∧
    registered ch' filename (next_promise (channel_of w)).
Proof.
  intros Hwf. destruct (future_spec filename _ Hwf) as (ch' & E & Hwf' & _ & Hs & Hr & _).
  exists ch'. rewrite run_zoom. unfold lift_future. cbn [run view channel_lens]. rewrite E.
  split; [done|]. split; [done|]. split; [|done].
  unfold future_ready. by rewrite Hs, lookup_insert_eq.
Qed.

Definition diagnostics_waits (w' : World) (filename : string) : Prop :=
  ∃ p, registered (channel_of w') filename p ∧ future_ready p (channel_of w') = None.


(** *** The notification and the wait *)

(** What the receiver hands over for [name]: the description of the answer to
    its own request. *)
Definition semantic_answer (name v : string) : Prop :=
  ∃ tr l req, ledger_of tr = Some l ∧ request_view l req = Some (sema_request name) ∧
    let r := skd_send tr req in
    v = skd_json ((((tr ++ [RequestSendSync req r]) ++ [ResponseDump r]) ++
      [RequestRelease req]) ++ [ResponseGetValue r]) r.

Lemma handler_runs resp w lg l0 name :
  handler_of w = Some lg → ledger_of (calls_of w) = Some l0 → well_formed (channel_of w) →
  sema_name (calls_of w ++ [HandlerReceives resp]) resp = name → name ≠ EmptyString →
  finishes (notification_handler resp) w (λ _ w', ∃ v, semantic_answer name v ∧
    set name v (channel_of w) = Ok (channel_of w')).
Proof.
  intros Hh E Hwf Hn Hne.
  assert (ledger_of (calls_of w ++ [HandlerReceives resp]) =
    Some (with_response resp None l0)) as E1
    by (by eapply ledger_of_snoc).
  destruct (receiver_spec lg resp (set_calls (calls_of w ++ [HandlerReceives resp]) w) _
    E1) as (a & w' & Er & Hq); [|exact Hwf|].
  { by apply elem_of_union_l, elem_of_singleton. }
  cbn [calls_of set_calls] in Hq. cbv zeta in Hq. rewrite Hn, decide_False in Hq by done.
  exists a, w'. split.
  - unfold notification_handler, skd. rewrite run_bind, run_zoom. cbn [run tell].
    cbn [fst snd modify atomic run]. rewrite run_bind, run_gets. cbn. by rewrite Hh.
  - destruct Hq as (tr & l & req & _ & Hl & Hv & _ & Hs & _).
    eexists. split; [|exact Hs]. by exists tr, l, req.
Qed.

Lemma future_get_ready p w v :
  future_ready p (channel_of w) = Some (Ok v) →
  run (zoom (future_get p)) w = (Finished v, w).
Proof. intros Hp. unfold future_get. cbn. by rewrite Hp. Qed.

Lemma race_left {A B} (t : thread World B) (k : B → thread World A) t2 b w w' :
  run t w = (Finished b, w') → star pool_step ([t ≫= k; t2], w) ([k b; t2], w').
Proof. exact (pool_run t k [t ≫= k; t2] 0 b w w' eq_refl). Qed.
Lemma race_right {A B} t1 (t : thread World B) (k : B → thread World A) b w w' :
  run t w = (Finished b, w') → star pool_step ([t1; t ≫= k], w) ([t1; k b], w').
Proof. exact (pool_run t k [t1; t ≫= k] 1 b w w' eq_refl). Qed.

(** Two threads: the query, and the handler with a notification. *)
Definition race (this : SwiftCompleter) (filename : string) (files : list UnsavedFile)
    (flags : list string) (resp : response_ptr) : list (thread World string) :=
  [DiagnosticsForFile this filename files flags;
   _ ← notification_handler resp; mret EmptyString].

End Queries.

(** ** The hypotheses can hold *)

Definition quiet_completer : SwiftCompleter := SwiftCompleter_new LogLevelError.
Definition file_f : UnsavedFile := {| contents := "foo.bar"; fileName := "f" |}.

Lemma candidates_reply_witness :
  finishes (CandidatesForLocationInFile quiet_completer "f" 1 5 [file_f] []) world_new
    (candidates_answered quiet_completer "f" [] 4 "foo." world_new ledger_new).
Proof.
  apply (candidates_reply quiet_completer "f" 1 5 [file_f] [] world_new ledger_new).
  reflexivity.
Defined.

Lemma candidates_assertion_witness :
  (run (CandidatesForLocationInFile quiet_completer "g" 1 5 [file_f] []) world_new).1 =
  Failed (AssertionFailed "Missing unsaved file").
Proof. apply candidates_assertion. reflexivity. Defined.


(** The world when the two requests have been answered, and what they answered. *)
Definition after_requests : World :=
  (run (diagnostics_requests quiet_completer "f" [file_f] []) world_new).2.
Definition text_answer : string :=
  match (run (diagnostics_requests quiet_completer "f" [file_f] []) world_new).1 with
  | Finished (Some s) => s
  | _ => EmptyString
  end.

