(* ===== verification/Ownership.v ===== *)
(** * Who owns what of sourcekitd's, among threads

    A thread's part of the ledger (SourceKitD.v): the request objects and the
    responses it owns, with what they hold.  A call of the thread changes its own
    part and is no misuse of the whole whenever it is none of the part (the frame
    rule).  [owns] says of a thread that, whatever the others do between its atoms,
    its calls keep to its part; the operations of SwiftCompleter.cpp do. *)

From S2P Require Import Prelude Owns Logging Futures SourceKitD Ledger Offset SourceKit Requests Completer.

Local Open Scope Z_scope.

(** ** Parts of a ledger *)

(** What a call is handed by sourcekitd is not in use. *)
Definition mints (c : skd_call) (l : ledger) : Prop :=
  match c with
  | DictionaryCreate o | ArrayCreate o => ¬ in_use l o
  | RequestSendSync _ r | HandlerReceives r => r ∉ responses l
  | _ => True
  end.

Record part (l li : ledger) : Prop := {
  part_objects : objects li ⊆ objects l;
  part_responses : responses li ⊆ responses l;
  part_heap o : in_use li o → heap li !! o = heap l !! o;
  part_answering r : r ∈ responses li → answering li !! r = answering l !! r;
}.
(** The ledger is shared out: every object and every response owned is in one part. *)
Record shares (l : ledger) (ls : list ledger) : Prop := {
  sh_part i li : ls !! i = Some li → part l li;
  sh_object o : o ∈ objects l → ∃ i li, ls !! i = Some li ∧ o ∈ objects li;
  sh_response r : r ∈ responses l → ∃ i li, ls !! i = Some li ∧ r ∈ responses li;
  sh_apart i j li lj o :
    ls !! i = Some li → ls !! j = Some lj → in_use li o → in_use lj o → i = j;
  sh_apart_response i j li lj r :
    ls !! i = Some li → ls !! j = Some lj → r ∈ responses li → r ∈ responses lj → i = j;
}.

Lemma owned_in_use l o : o ∈ objects l → in_use l o.
Proof. by left. Qed.
Lemma part_in_use l li o : part l li → in_use li o → in_use l o.
Proof.
  intros [Ho _ Hh _] [Hi|(d & m & key & Hd & Hm & Hk)]; [left; set_solver|].
  right. exists d, m, key. split; [set_solver|]. split; [|done].
  rewrite <- Hh; [done|]. by left.
Qed.
Lemma part_mints c l li : part l li → mints c l → mints c li.
Proof.
  intros Hp. destruct c; cbn; try done; try (by intros Hm Hi; eapply Hm, part_in_use);
    intros Hm Hi; apply Hm; by apply (part_responses _ _ Hp).
Qed.
Lemma part_view l li o : part l li → o ∈ objects li → request_view l o = request_view li o.
Proof.
  intros Hp Ho. unfold request_view. rewrite <- (part_heap _ _ Hp) by (by apply owned_in_use).
  destruct (heap li !! o) as [[m|a]|] eqn:E; [|done..]. f_equal. apply read_field_ext.
  intros key o' Hk. symmetry. apply (part_heap _ _ Hp). right. by exists o, m, key.
Qed.

(** A change from [li] to [li'] of a part, seen from the whole. *)
Record moved (l li l' li' : ledger) : Prop := {
  mv_objects : objects l' = (objects l ∖ objects li) ∪ objects li';
  mv_responses : responses l' = (responses l ∖ responses li) ∪ responses li';
  mv_heap o : in_use li' o → heap li' !! o = heap l' !! o;
  mv_frame o : in_use l o → ¬ in_use li o → heap l' !! o = heap l !! o;
  mv_use o : in_use li' o → in_use li o ∨ ¬ in_use l o;
  mv_response r : r ∈ responses li' → r ∈ responses li ∨ r ∉ responses l;
  mv_answering r : r ∈ responses li' → answering li' !! r = answering l' !! r;
  mv_answers r : r ∈ responses l → r ∉ responses li → answering l' !! r = answering l !! r;
}.

Lemma shares_moved l ls i li l' li' :
  shares l ls → ls !! i = Some li → moved l li l' li' → shares l' (<[i := li']> ls).
Proof.
  intros Hs Hi Hm. assert (Hlt := lookup_lt_Some _ _ _ Hi).
  assert (∀ j lj, <[i := li']> ls !! j = Some lj →
    j = i ∧ lj = li' ∨ j ≠ i ∧ ls !! j = Some lj) as Hl.
  { intros j lj Hj. apply list_lookup_insert_Some in Hj as [(-> & -> & _)|[Hne Hj]]; naive_solver. }
  assert (∀ j lj o, j ≠ i → ls !! j = Some lj → in_use lj o → ¬ in_use li o ∧ ¬ in_use li' o)
    as Hout.
  { intros j lj o Hne Hj Hu. assert (¬ in_use li o) as Hn.
    { intros Hu'. by apply Hne, (sh_apart _ _ Hs j i lj li o). }
    split; [done|]. intros [?|Hf]%(mv_use _ _ _ _ Hm); [done|].
    by eapply Hf, part_in_use, Hu; eapply sh_part. }
  assert (∀ j lj r, j ≠ i → ls !! j = Some lj → r ∈ responses lj →
    r ∉ responses li ∧ r ∉ responses li') as Hout'.
  { intros j lj r Hne Hj Hu. assert (r ∉ responses li) as Hn.
    { intros Hu'. by apply Hne, (sh_apart_response _ _ Hs j i lj li r). }
    split; [done|]. intros [?|Hf]%(mv_response _ _ _ _ Hm); [done|].
    apply Hf. by apply (part_responses _ _ (sh_part _ _ Hs j lj Hj)). }
  split.
  - intros j lj [[-> ->]|[Hne Hj]]%Hl.
    + destruct Hm as [Ho Hr Hh _ _ _ Ha _]. split; [set_solver|set_solver|done|done].
    + destruct (sh_part _ _ Hs j lj Hj) as [Ho Hr Hh Ha]. split.
      * intros o Hin. rewrite (mv_objects _ _ _ _ Hm).
        destruct (Hout j lj o Hne Hj (owned_in_use _ _ Hin)) as [Hn _]. unfold in_use in Hn. set_solver.
      * intros r Hin. rewrite (mv_responses _ _ _ _ Hm).
        destruct (Hout' j lj r Hne Hj Hin) as [Hn _]. set_solver.
      * intros o Hu. rewrite Hh by done. symmetry. apply (mv_frame _ _ _ _ Hm).
        -- by eapply part_in_use, Hu; eapply sh_part.
        -- by apply (Hout j lj o Hne Hj).
      * intros r Hin. rewrite Ha by done. symmetry. apply (mv_answers _ _ _ _ Hm); [by apply Hr|].
        by apply (Hout' j lj r Hne Hj).
  - intros o. rewrite (mv_objects _ _ _ _ Hm). intros [[Ho Hn]%elem_of_difference|Ho]%elem_of_union.
    + destruct (sh_object _ _ Hs o Ho) as (j & lj & Hj & Hoj). exists j, lj. split; [|done].
      rewrite list_lookup_insert_ne; [done|]. intros <-. rewrite Hi in Hj. by injection Hj as <-.
    + exists i, li'. by rewrite list_lookup_insert_eq.
  - intros r. rewrite (mv_responses _ _ _ _ Hm). intros [[Hr Hn]%elem_of_difference|Hr]%elem_of_union.
    + destruct (sh_response _ _ Hs r Hr) as (j & lj & Hj & Hrj). exists j, lj. split; [|done].
      rewrite list_lookup_insert_ne; [done|]. intros <-. rewrite Hi in Hj. by injection Hj as <-.
    + exists i, li'. by rewrite list_lookup_insert_eq.
  - intros j k lj lk o [[-> ->]|[Hj Ej]]%Hl [[-> ->]|[Hk Ek]]%Hl Uj Uk; [done|..].
    + by destruct (Hout k lk o Hk Ek Uk).
    + by destruct (Hout j lj o Hj Ej Uj).
    + by apply (sh_apart _ _ Hs j k lj lk o).
  - intros j k lj lk r [[-> ->]|[Hj Ej]]%Hl [[-> ->]|[Hk Ek]]%Hl Uj Uk; [done|..].
    + by destruct (Hout' k lk r Hk Ek Uk).
    + by destruct (Hout' j lj r Hj Ej Uj).
    + by apply (sh_apart_response _ _ Hs j k lj lk r).
Qed.

(** A thread that owns nothing joins. *)
Lemma shares_new l ls : shares l ls → shares l (ls ++ [ledger_new]).
Proof.
  assert (∀ o, ¬ in_use ledger_new o) as Hn.
  { intros o [Ho|(d & m & k & Hd & _)]; set_solver. }
  intros Hs. assert (∀ j lj, (ls ++ [ledger_new]) !! j = Some lj →
    ls !! j = Some lj ∨ lj = ledger_new) as Hl.
  { intros j lj [Hj|[_ Hj]]%lookup_app_Some; [by left|].
    apply list_lookup_singleton_Some in Hj as [_ <-]. by right. }
  split.
  - intros j lj [Hj| ->]%Hl; [by eapply sh_part|]. split; [set_solver..| |cbn; set_solver].
    by intros o Hu%Hn.
  - intros o (j & lj & Hj & Ho)%(sh_object _ _ Hs). exists j, lj. split; [|done].
    by apply lookup_app_l_Some.
  - intros r (j & lj & Hj & Hr)%(sh_response _ _ Hs). exists j, lj. split; [|done].
    by apply lookup_app_l_Some.
  - intros j k lj lk o [Hj| ->]%Hl [Hk| ->]%Hl Uj Uk; try (by destruct (Hn o)).
    by apply (sh_apart _ _ Hs j k lj lk o).
  - intros j k lj lk r [Hj| ->]%Hl [Hk| ->]%Hl Uj Uk; try (by cbn in *; set_solver).
    by apply (sh_apart_response _ _ Hs j k lj lk r).
Qed.
Lemma shares_nil : shares ledger_new [].
Proof. split; try done; cbn; set_solver. Qed.

(** ** The frame rule *)

Lemma moved_refl l li : part l li → moved l li l li.
Proof.
  intros [Ho Hr Hh Ha]. split; try done; [| |by left|by left].
  - apply leibniz_equiv. intros o. destruct (decide (o ∈ objects li)); set_solver.
  - apply leibniz_equiv. intros r. destruct (decide (r ∈ responses li)); set_solver.
Qed.

Lemma frame_set_field l li li' o key f :
  part l li → (∀ o', f = FRef o' → o' ∈ objects li) → set_field o key f li = Some li' →
  ∃ l', set_field o key f l = Some l' ∧ moved l li l' li'.
Proof.
  intros Hp Hf. unfold set_field. case_decide as Ho; [|done].
  rewrite <- (part_heap _ _ Hp) by (by apply owned_in_use).
  rewrite decide_True by (by apply (part_objects _ _ Hp)).
  destruct (heap li !! o) as [[m|a]|] eqn:E; [|done..]. intros [= <-].
  eexists. split; [done|].
  assert (∀ o', in_use (with_heap (<[o := NDictionary (<[key := f]> m)]> (heap li)) li) o' →
    in_use li o') as Hu.
  { intros o' [Hi|(d & m' & k & Hd & Hm & Hk)]; [by left|]. cbn in *.
    apply lookup_insert_Some in Hm as [[<- [= <-]]|[_ Hm]]; [|right; by exists d, m', k].
    apply lookup_insert_Some in Hk as [[_ ->]|[_ Hk]]; [left; by apply Hf|right; by exists o, m, k]. }
  split; cbn; try apply (moved_refl _ _ Hp).
  - intros o' Hi%Hu. destruct (decide (o = o')) as [<-|Hne]; [by rewrite !lookup_insert_eq|].
    rewrite !lookup_insert_ne by done. by apply (part_heap _ _ Hp).
  - intros o' _ Hn. rewrite lookup_insert_ne; [done|]. intros <-. by apply Hn, owned_in_use.
  - intros o' Hi%Hu. by left.
Qed.

Lemma frame_append l li li' o s :
  part l li → account (ArrayAppendString o s) li = Some li' →
  ∃ l', account (ArrayAppendString o s) l = Some l' ∧ moved l li l' li'.
Proof.
  intros Hp. cbn. case_decide as Ho; [|done].
  rewrite <- (part_heap _ _ Hp) by (by apply owned_in_use).
  rewrite decide_True by (by apply (part_objects _ _ Hp)).
  destruct (heap li !! o) as [[m|a]|] eqn:E; [done| |done]. intros [= <-].
  eexists. split; [done|].
  assert (∀ o', in_use (with_heap (<[o := NArray (a ++ [s])]> (heap li)) li) o' → in_use li o') as Hu.
  { intros o' [Hi|(d & m' & k & Hd & Hm & Hk)]; [by left|]. cbn in *.
    apply lookup_insert_Some in Hm as [[_ [=]]|[_ Hm]]. right; by exists d, m', k. }
  split; cbn; try apply (moved_refl _ _ Hp).
  - intros o' Hi%Hu. destruct (decide (o = o')) as [<-|Hne]; [by rewrite !lookup_insert_eq|].
    rewrite !lookup_insert_ne by done. by apply (part_heap _ _ Hp).
  - intros o' _ Hn. rewrite lookup_insert_ne; [done|]. intros <-. by apply Hn, owned_in_use.
  - intros o' Hi%Hu. by left.
Qed.

Lemma frame_create l li o n :
  part l li → ¬ in_use l o → (∀ m k o', n = NDictionary m → m !! k ≠ Some (FRef o')) →
  moved l li (create_object o n l) (create_object o n li).
Proof.
  intros Hp Hf Hn. assert (¬ in_use li o) as Hfi by (by intros Hi; eapply Hf, part_in_use).
  assert (∀ o', in_use (create_object o n li) o' → o' = o ∨ o' ≠ o ∧ in_use li o') as Hu.
  { intros o' Hi. destruct (decide (o' = o)) as [->|Hne]; [by left|right; split; [done|]].
    destruct Hi as [Hi|(d & m & k & Hd & Hm & Hk)]; cbn in *; [left; set_solver|].
    apply lookup_insert_Some in Hm as [[_ Hm]|[Hno Hm]]; [by destruct (Hn _ k o' Hm)|].
    right. exists d, m, k. set_solver. }
  split; cbn; try apply (moved_refl _ _ Hp).
  - apply leibniz_equiv. intros x. pose proof (part_objects _ _ Hp x). 
    destruct (decide (x ∈ objects li)); unfold in_use in Hf; set_solver.
  - intros o' [->|[Hne Hi]]%Hu; [by rewrite !lookup_insert_eq|].
    rewrite !lookup_insert_ne by done. by apply (part_heap _ _ Hp).
  - intros o' Hi _. rewrite lookup_insert_ne; [done|]. by intros ->.
  - intros o' [->|[Hne Hi]]%Hu; [by right|by left].
Qed.

Lemma frame_response l li r v :
  part l li → r ∉ responses l → moved l li (with_response r v l) (with_response r v li).
Proof.
  intros Hp Hf. pose proof (moved_refl _ _ Hp) as [Ho Hr Hh Hfr Hu _ Ha _].
  split; cbn; try done.
  - apply leibniz_equiv. intros x. pose proof (part_responses _ _ Hp x).
    destruct (decide (x ∈ responses li)); set_solver.
  - intros x. set_solver.
  - intros x Hx. destruct (decide (r = x)) as [<-|Hne]; [by rewrite !lookup_partial_alter_eq|].
    rewrite !lookup_partial_alter_ne by done. apply Ha. set_solver.
  - intros x Hx _. rewrite lookup_partial_alter_ne; [done|]. by intros ->.
Qed.

(** What is no misuse of a part is none of the whole, and leaves the rest alone. *)
Lemma account_frame c l li li' :
  part l li → mints c l → account c li = Some li' →
  ∃ l', account c l = Some l' ∧ moved l li l' li'.
Proof.
  intros Hp Hm E. pose proof (moved_refl _ _ Hp) as Hr.
  pose proof (part_objects _ _ Hp) as Ho. pose proof (part_responses _ _ Hp) as Hq.
  assert (∀ r x, owns_response r li = Some x → r ∈ responses l ∧ x = li) as Hown.
  { intros r x. unfold owns_response. case_decide; [|done]. intros [= <-]. split; [set_solver|done]. }
  destruct c as [o|o k u|o k z|o k s|o k v|o|o s|o|o r|r|r|r|r|r k|r| | |r];
    try (by eapply frame_set_field in E); cbn in E, Hm |- *;
    try (apply Hown in E as [Hin ->]; exists l; split; [by apply owns_response_in|done]);
    try (by simplify_eq; eexists).
  - simplify_eq. eexists. split; [done|]. apply frame_create; [done..|].
    intros m k o' [= <-]. by rewrite lookup_empty.
  - case_decide as Hv; [|done]. rewrite decide_True by set_solver.
    eapply frame_set_field; [done| |done]. by intros o' [= <-].
  - simplify_eq. eexists. split; [done|]. by apply frame_create.
  - by apply (frame_append l li li' o s) in E.
  - case_decide as Hi; [|done]. rewrite decide_True by set_solver. simplify_eq.
    eexists. split; [done|].
    assert (∀ o' x, in_use {| objects := objects x ∖ {[o]}; responses := responses x;
      copies := copies x; heap := heap x; answering := answering x |} o' → in_use x o') as Hu.
    { intros o' x [?|(d & m & k & Hd & ?)]; cbn in *; [left; set_solver|].
      right. exists d, m, k. set_solver. }
    split; cbn; try apply Hr.
    + apply leibniz_equiv. intros x. destruct (decide (x ∈ objects li)); set_solver.
    + intros o' H'%Hu. by apply (part_heap _ _ Hp).
    + intros o' H'%Hu. by left.
  - case_decide; [|done]. rewrite decide_True by set_solver. simplify_eq.
    eexists. split; [done|]. rewrite (part_view _ _ _ Hp) by done. by apply frame_response.
  - destruct (owns_response r li) as [x|] eqn:Er; [|done]. cbn in E. simplify_eq.
    apply Hown in Er as [Hin ->]. rewrite owns_response_in by done.
    eexists. split; [done|]. destruct Hr. by split.
  - case_decide; [|done]. rewrite decide_True by set_solver. simplify_eq.
    eexists. split; [done|]. destruct Hr as [Hr1 Hr2 Hr3 Hr4 Hr5 Hr6 Hr7 Hr8].
    split; cbn; try done.
    + apply leibniz_equiv. intros x. destruct (decide (x ∈ responses li)); set_solver.
    + intros x Hx. left. set_solver.
    + intros x Hx. apply Hr7. set_solver.
  - simplify_eq. eexists. split; [done|]. by apply frame_response.
Qed.

(** ** Threads that keep to their part *)

(** A text is sourcekitd's description of a response which answers a request for [v], made
    while the program owned it. *)
Definition described `{SourceKitD} (final : trace) (v : gmap uid request_value) (s : string) : Prop :=
  ∃ tr r l, tr ++ [JsonDescriptionCopy r] `prefix_of` final ∧ ledger_of tr = Some l ∧
    r ∈ responses l ∧ answering l !! r = Some v ∧ s = skd_json tr r.

(** A name sourcekitd gave for a notification it delivered. *)
Definition notified `{SourceKitD} (final : trace) (name : string) : Prop :=
  ∃ tr resp, tr ++ [DictionaryGetString resp KeyName] `prefix_of` final ∧
    HandlerReceives resp ∈ final ∧ skd_get_string tr resp KeyName = Some name ∧ name ≠ EmptyString.
(** What the receiver sets for a document. *)
Definition told `{SourceKitD} (final : trace) (name s : string) : Prop :=
  notified final name ∧ described final (sema_request name) s.

Section Owns.
Context `{SourceKitD}.

(** The calls to the end, and what a request may ask. *)
Context (final : trace) (asked : gmap uid request_value → Prop).

(** What the call is handed is sourcekitd's answer. *)
Definition genuine (tr : trace) (c : skd_call) : Prop :=
  match c with
  | DictionaryCreate o | ArrayCreate o => o = skd_create tr
  | RequestSendSync o r => r = skd_send tr o
  | _ => True
  end.
(** A request that is sent asks what it may. *)
Definition proper (c : skd_call) (l : ledger) : Prop :=
  match c with
  | RequestSendSync o _ => ∃ v, request_view l o = Some v ∧ asked v
  | _ => True
  end.
Definition idle_call (c : skd_call) : Prop := c = Initialize ∨ c = SetNotificationHandler.

(** From the part [l]: no call that needs any of it, or one that is no misuse of it.
    The call may be known to be fresh, to be one of the final ones and to be made when
    [l] is a part of the ledger. *)
Inductive part_acts (l : ledger) (tr tr' : trace) (P : ledger → Prop) : Prop :=
| ActsIdle cs : tr' = tr ++ cs → Forall idle_call cs → P l → part_acts l tr tr' P
| ActsCall c :
    tr' = tr ++ [c] → genuine tr c →
    (tr' `prefix_of` final → proper c l ∧
      ∀ lg, ledger_of tr = Some lg → part lg l → mints c l → settles c l P) →
    part_acts l tr tr' P.
Definition trace_rules : rules trace ledger :=
  {| acts := part_acts; holds _ _ := True; stalls _ _ := False |}.

#[global] Instance trace_rules_monotone : Monotone trace_rules.
Proof.
  intros l tr tr' P R [cs E Hc HP|c E Hg HP] HR; [eapply ActsIdle; eauto|eapply ActsCall; [done..|]].
  intros Hf. destruct (HP Hf) as [Hp Hs]. split; [done|].
  intros lg E' Hpart Hm. eapply settles_mono; eauto.
Qed.
Lemma acts_nothing l tr (P : ledger → Prop) : P l → part_acts l tr tr P.
Proof. intros HP. by apply (ActsIdle _ _ _ _ []); [rewrite app_nil_r|..]. Qed.

(** The same of a thread of the completer: a call of it keeps to its part, and what it sets
    in the channel of futures is what the receiver may set. *)
Inductive world_acts (l : ledger) (w w' : World) (P : ledger → Prop) : Prop :=
| WorldCalls :
    channel_of w' = channel_of w → part_acts l (calls_of w) (calls_of w') P → world_acts l w w' P
| WorldSets name s :
    calls_of w' = calls_of w → told final name s →
    set name s (channel_of w) = Ok (channel_of w') → P l → world_acts l w w' P.
Definition world_rules : rules World ledger :=
  {| acts := world_acts; holds _ _ := True; stalls _ _ := False |}.
#[global] Instance world_rules_monotone : Monotone world_rules.
Proof.
  intros l w w' P R [Hc Ha|n s Hc Ht Hs HP] HR; [|by eapply WorldSets; [..|apply HR]].
  apply WorldCalls; [done|]. by eapply (trace_rules_monotone l).
Qed.

(** *** Calls *)

Notation owns_trace := (owns trace_rules).
Notation owns_world := (owns world_rules).

Lemma owns_ask {A} (answer : trace → A) (c : A → skd_call) (Q : A → ledger → Prop) l :
  (∀ tr, genuine tr (c (answer tr))) →
  (∀ tr, tr ++ [c (answer tr)] `prefix_of` final →
    proper (c (answer tr)) l ∧
    ∀ lg, ledger_of tr = Some lg → part lg l → mints (c (answer tr)) l →
      settles (c (answer tr)) l (Q (answer tr))) →
  owns_trace Q (ask answer c) l.
Proof.
  intros Hg Hs tr _. cbn. eapply ActsCall; [done..|]. intros Hf. by apply Hs.
Qed.
Lemma owns_tell c (Q : unit → ledger → Prop) l :
  (∀ tr, genuine tr c) → proper c l → (mints c l → settles c l (Q tt)) →
  owns_trace Q (tell c) l.
Proof. intros Hg Hp Hs tr _. cbn. eapply ActsCall; eauto. Qed.
(** A look at a response. *)
Lemma owns_look {A} (answer : trace → A) c r l :
  (∀ l, account c l = owns_response r l) → (∀ tr, genuine tr c) → (∀ l, proper c l) →
  r ∈ responses l → owns_trace (λ _ l', l' = l) (ask answer (λ _, c)) l.
Proof.
  intros Ha Hg Hp Hr. apply owns_ask; [done|]. intros tr _. split; [done|]. intros _ _ _ _.
  exists l. split; [|done]. by rewrite Ha, owns_response_in.
Qed.
Lemma owns_dump r l :
  r ∈ responses l → owns_trace (λ _ l', l' = l) (sourcekitd_response_description_dump r) l.
Proof.
  intros Hr. apply owns_tell; [done..|]. intros _. exists l. split; [|done]. cbn.
  by rewrite owns_response_in.
Qed.
(** What has been printed of a response describes the answer to the request it is known to
    answer. *)
Lemma owns_print r l :
  r ∈ responses l →
  owns_trace (λ s l', l' = with_copies 1 l ∧ ∀ v, answering l !! r = Some v → described final v s)
    (PrintResponse r) l.
Proof.
  intros Hr. owns_step; [by eapply owns_look|]. intros a l' ->.
  apply owns_ask; [done|]. intros tr Hf. split; [done|]. intros lg E Hp _.
  eexists. split; [cbn; by rewrite owns_response_in|]. unfold with_copies. rewrite Nat.add_1_r.
  split; [done|]. intros v Hv. exists tr, r, lg. split; [done|]. split; [done|].
  split; [by apply (part_responses _ _ Hp)|]. by rewrite <- (part_answering _ _ Hp).
Qed.

Lemma owns_skd {A B} (Q : A → ledger → Prop) (R : B → ledger → Prop) t k l :
  owns_trace Q t l → (∀ a l', Q a l' → owns_world R (k a) l') →
  owns_world R (skd t ≫= k) l.
Proof.
  intros Ht Hk. owns_step.
  - apply (owns_zoom world_rules trace_rules id); [|exact Ht]. split; [done| |done].
    intros g w s P Ha. apply WorldCalls; [done|]. eapply (trace_rules_monotone g); [exact Ha|]. eauto.
  - cbv beta. intros a x (l' & -> & HQ). by apply Hk.
Qed.
Lemma owns_console {A} (t : thread console A) l :
  waitless t → owns_world (λ _ l', l' = l) (zoom t) l.
Proof. intros Ht. apply owns_apart; [done|]. intros g w s P HP. apply WorldCalls; [done|]. by apply acts_nothing. Qed.
Lemma owns_set (Q : unit → ledger → Prop) name s l :
  told final name s → Q tt l → owns_world Q (zoom (lift_set name s)) l.
Proof.
  intros Ht HQ w _. cbn. destruct (set name s (channel_of w)) as [ch|f] eqn:E.
  - by eapply WorldSets.
  - apply WorldCalls; [done|]. by apply acts_nothing.
Qed.
Lemma owns_say {B} (R : B → ledger → Prop) lg level msg k l :
  owns_world R (k tt) l → owns_world R (say lg level msg ≫= k) l.
Proof.
  intros Hk. owns_step; [apply owns_console, waitless_log|]. by intros [] l' ->.
Qed.
Lemma owns_last_say (Q : unit → ledger → Prop) lg level msg l :
  Q tt l → owns_world Q (say lg level msg) l.
Proof.
  intros HQ. owns_weaken; [apply owns_console, waitless_log|]. by intros [] l' ->.
Qed.
End Owns.

(** ** Threads that only add calls *)

Fixpoint grows {W A} (calls : W → trace) (t : thread W A) : Prop :=
  match t with
  | TRet _ | TFail _ => True
  | TAtom m => ∀ w, let '(t', w') := m w in grows calls t' ∧ calls w `prefix_of` calls w'
  | TWait _ k => ∀ v, grows calls (k v)
  end.

Lemma grows_bind {W A B} (calls : W → trace) (t : thread W A) (k : A → thread W B) :
  grows calls t → (∀ x, grows calls (k x)) → grows calls (t ≫= k).
Proof.
  intros Ht Hk. induction t as [a|f|m IH|r k' IH] using thread_ind'; cbn in *; [done..| |].
  - intros w. specialize (Ht w). specialize (IH w). destruct (m w) as [t' w'].
    destruct Ht as [Hg Hp]. split; [by apply IH|done].
  - intros v. by apply IH.
Qed.
Lemma grows_zoom {W S A} `{!Lens W S} calls calls' (t : thread S A) :
  (∀ w, calls w = calls' (view w)) → grows calls' t → grows calls (zoom t : thread W A).
Proof.
  intros Hc Ht. induction t as [a|f|m IH|r k' IH] using thread_ind'; cbn in *; [done..| |].
  - intros w. specialize (Ht (view w)). specialize (IH (view w)).
    destruct (m (view w)) as [t' s']. destruct Ht as [Hg Hp]. split; [by apply IH|].
    by rewrite !Hc, view_update.
  - intros v. by apply IH.
Qed.
Lemma grows_apart {W S A} `{!Lens W S} calls (t : thread S A) :
  (∀ w s, calls (update s w) = calls w) → grows calls (zoom t : thread W A).
Proof.
  intros Hc. induction t as [a|f|m IH|r k' IH] using thread_ind'; cbn in *; [done..| |].
  - intros w. specialize (IH (view w)). destruct (m (view w)) as [t' s'].
    split; [done|]. by rewrite Hc.
  - intros v. by apply IH.
Qed.
Lemma grows_atomic {W A} calls (f : W → A * W) :
  (∀ w, calls w `prefix_of` calls (f w).2) → grows calls (atomic f).
Proof. intros Hf w. specialize (Hf w). cbn. by destruct (f w). Qed.
Lemma grows_outcome {W A} calls (o : outcome A) : grows calls (of_outcome o : thread W A).
Proof. by destruct o. Qed.
Lemma grows_ask {A} (answer : trace → A) c : grows (λ tr, tr) (ask answer c).
Proof. apply grows_atomic. intros tr. by apply prefix_app_r. Qed.
Lemma grows_tell c : grows (λ tr, tr) (tell c).
Proof. apply grows_atomic. intros tr. by apply prefix_app_r. Qed.
Lemma grows_skd `{SourceKitD} {A} (t : thread trace A) :
  grows (λ tr, tr) t → grows calls_of (skd t).
Proof. by apply grows_zoom. Qed.
Lemma grows_say lg level msg : grows calls_of (say lg level msg).
Proof. by apply grows_apart. Qed.
Lemma grows_channel {A} (t : thread FutureChannel A) : grows calls_of (zoom t : thread World A).
Proof. by apply grows_apart. Qed.
Create HintDb grows.
#[export] Hint Resolve grows_ask grows_tell grows_skd grows_say grows_channel grows_outcome : grows.
Ltac grow := repeat match goal with
  | |- grows _ (_ ≫= _) => apply grows_bind
  | |- ∀ _, _ => intros ?
  | |- grows _ (match ?x with _ => _ end) => destruct x
  | |- _ => done
  | |- grows (λ tr, tr) _ => first [apply grows_tell | apply grows_ask]
  | |- _ => solve [auto with grows]
  | |- grows _ (skd _) => apply grows_skd
  end.

Section Grows.
Context `{SourceKitD}.

Lemma grows_append_args o l : grows (λ tr, tr) (append_args o l).
Proof. induction l as [|s l IH]; [done|]. apply grows_bind; [apply grows_tell|done]. Qed.
Hint Resolve grows_append_args : grows.
Lemma grows_base u name off : grows (λ tr, tr) (CreateBaseRequest u name off).
Proof. unfold CreateBaseRequest. grow. Qed.
Lemma grows_print r : grows (λ tr, tr) (PrintResponse r).
Proof. unfold PrintResponse. grow. Qed.
Hint Resolve grows_base grows_print : grows.
Lemma grows_send o this res : grows calls_of (SendRequestSync o (store_response this) res).
Proof. unfold SendRequestSync, store_response. grow. Qed.
Hint Resolve grows_send : grows.
Lemma grows_completion u will did this ctx o : grows calls_of (completion u will did this ctx o).
Proof. unfold completion, CodeCompleteRequest. grow. Qed.
Lemma grows_editor u will did this ctx o : grows calls_of (editor u will did this ctx o).
Proof. unfold editor, BasicRequest. grow. Qed.
Lemma grows_service_new level : grows calls_of (SourceKitService_new level).
Proof.
  apply grows_bind; [|done]. apply grows_atomic. intros w. cbn.
  destruct (handler_of w); [done|by apply prefix_app_r].
Qed.
Hint Resolve grows_completion grows_editor grows_service_new : grows.
Lemma grows_candidates this filename line column files flags :
  grows calls_of (CandidatesForLocationInFile this filename line column files flags).
Proof. unfold CandidatesForLocationInFile, CompletionOpen, CompletionUpdate. grow. Qed.
Lemma grows_diagnostics this filename files flags :
  grows calls_of (DiagnosticsForFile this filename files flags).
Proof.
  unfold DiagnosticsForFile, diagnostics_requests, EditorOpen, EditorReplaceText, await_semantic. grow.
Qed.
Lemma grows_handler resp : grows calls_of (notification_handler resp).
Proof. unfold notification_handler, NotificationReceiver. grow. Qed.
End Grows.

(** ** The operations of the service *)

(** The same objects and responses are owned. *)
Definition same (l l' : ledger) : Prop := objects l' = objects l ∧ responses l' = responses l.

Section Operations.
Context `{SourceKitD} (final : trace) (asked : gmap uid request_value → Prop).

Notation owns_trace := (owns (trace_rules final asked)).
Notation owns_world := (owns (world_rules final asked)).

Lemma owns_settles (P : ledger → Prop) c l :
  (∀ tr, genuine tr c) → (∀ l, proper asked c l) → settles c l P →
  owns_trace (λ _, P) (tell c) l.
Proof. intros Hg Hp Hs. by apply owns_tell. Qed.
Ltac calls := eapply owns_skd; [apply owns_settles; [done|done|] | cbv beta; intros [] ? ?].

Lemma owns_create l :
  owns_trace (λ o l', holding l {[o]} o ∅ l') sourcekitd_request_dictionary_create l.
Proof. apply owns_ask; [done|]. intros tr _. split; [done|]. intros _ _ _. apply holding_begin. Qed.
Lemma owns_child l0 o v l (answer : trace → object_ptr) (c : object_ptr → skd_call) n :
  (∀ o' l, account (c o') l = Some (create_object o' n l)) →
  (∀ o' l, mints (c o') l → ¬ in_use l o') → (∀ o' l, proper asked (c o') l) →
  (∀ tr, genuine tr (c (answer tr))) → holding l0 {[o]} o v l →
  owns_trace (λ o', filled l0 o v o' n) (ask answer c) l.
Proof.
  intros Ha Hm Hp Hg Hh. apply owns_ask; [done|]. intros tr _. split; [apply Hp|].
  intros _ _ _ Hf. eapply filled_begin; [done|by apply Hm|apply Ha].
Qed.
Lemma owns_put l0 o v o' n key l {B} (Q : B → ledger → Prop) k :
  filled l0 o v o' n l →
  (∀ l', holding l0 {[o]} o (<[key := node_value n]> v) l' → owns_world Q k l') →
  owns_world Q (_ ← skd (sourcekitd_request_dictionary_set_value o key o');
                _ ← skd (sourcekitd_request_release o'); k) l.
Proof.
  intros Hf Hk. calls; [by apply (filled_put l0 o v l o' n key)|].
  calls; [by eapply adopted_release|]. by apply Hk.
Qed.
Lemma owns_append_args l0 o v o' args a l :
  filled l0 o v o' (NArray a) l →
  owns_trace (λ _, filled l0 o v o' (NArray (a ++ map c_str args))) (append_args o' args) l.
Proof.
  revert a l; induction args as [|s args IH]; intros a l Hf; cbn [append_args map].
  - by rewrite app_nil_r.
  - owns_step; [by eapply (owns_settles (filled l0 o v o' (NArray (a ++ [c_str s]))));
      [..|apply filled_append]|]. cbv beta. intros _ l' Hf'.
    replace (a ++ _) with ((a ++ [c_str s]) ++ map c_str args) by (by rewrite <- app_assoc).
    by apply IH.
Qed.

Lemma owns_base u name off l :
  owns_trace (λ o, holding l {[o]} o
      (<[KeyName := VString (c_str name)]> (<[KeyOffset := VInt off]> (<[KeyRequest := VUid u]> ∅))))
    (CreateBaseRequest u name off) l.
Proof.
  owns_step; [apply owns_create|]. cbv beta. intros o l1 H1.
  owns_step; [by apply (owns_settles (holding l {[o]} o (<[KeyRequest := VUid u]> ∅)));
    [..|apply holding_uid]|]. cbv beta. intros _ l2 H2.
  owns_step; [by eapply owns_settles; [..|apply holding_int64; exact H2]|].
  cbv beta. intros _ l3 H3.
  owns_step; [by eapply owns_settles; [..|apply holding_string; exact H3]|].
  by cbv beta; intros _ l4 H4.
Qed.

(** What is known of the result of a request: an error, or what describes its answer. *)
Definition tells_of (v : gmap uid request_value) (o : option string) (res : bool * option string)
    : Prop :=
  if res.1 then res.2 = o else ∃ s, res.2 = Some s ∧ described final v s.
(** A callback that looks at the response it is given, tells of it and leaves it be. *)
Definition handler_ok (func : HandlerFunc) : Prop :=
  ∀ r o l v, r ∈ responses l → answering l !! r = Some v →
    owns_world (λ res l', same l l' ∧ tells_of v o res) (func r o) l.

Lemma owns_send req v func o l :
  handler_ok func → req ∈ objects l → request_view l req = Some v → asked v →
  owns_world (λ res l', same l l' ∧ tells_of v o res) (SendRequestSync req func o) l.
Proof.
  intros Hf Ho Hv Ha. eapply owns_skd.
  { apply owns_ask with (Q := λ r l1, r ∉ responses l ∧ l1 = with_response r (Some v) l);
      [done|]. intros tr _. split; [by exists v|]. intros lg _ _ Hm. eexists. split; [|done].
    cbn. by rewrite decide_True, Hv. }
  cbv beta. intros r l1 [Hr ->].
  owns_step; [apply (Hf r o _ v); [cbn; set_solver|apply answering_new]|].
  cbv beta. intros res l2 [[Ho2 Hr2] Ht]. cbn in Ho2, Hr2. eapply owns_skd.
  { apply (owns_settles (same l)); [done..|]. eexists. split.
    - cbn. by rewrite decide_True by set_solver.
    - split; [done|]. cbn. set_solver. }
  by cbv beta; intros _ l3 H3.
Qed.
(** Send and release. *)
Lemma owns_send_release l0 req v func o l :
  handler_ok func → holding l0 {[req]} req v l → asked v →
  owns_world (λ res l', same l0 l' ∧ tells_of v o res)
    (result ← SendRequestSync req func o;
     _ ← skd (sourcekitd_request_release req); mret result) l.
Proof.
  intros Hf Hh Ha. owns_step.
  { eapply owns_send; [done|by eapply holding_object|by eapply holding_view|done]. }
  cbv beta. intros res l1 [[Ho1 Hr1] Ht]. destruct Hh as (Ho & Hd & Hr & _).
  eapply owns_skd; [apply (owns_settles (same l0)); [done..|]|by cbv beta; intros _ l2 H2].
  eexists. split; [cbn; by rewrite decide_True by set_solver|].
  split; cbn; [set_solver|congruence].
Qed.

Lemma owns_CodeCompleteRequest u name off text args func o l :
  handler_ok func → asked (complete_request u name off text args) →
  owns_world (λ res l', same l l' ∧ tells_of (complete_request u name off text args) o res)
    (CodeCompleteRequest u name off text args None func o) l.
Proof.
  intros Hf Ha. eapply owns_skd; [apply owns_base|]. cbv beta. intros req l1 H1.
  calls; [apply holding_string; exact H1|]. calls; [by apply holding_string|].
  eapply owns_skd; [by eapply (owns_child l req _ _ _ _ (NDictionary ∅)); try done|].
  cbv beta. intros opts l4 H4. cbn [mbind thread_bind thread_bind_go mret thread_ret].
  eapply owns_put; [exact H4|]. intros l5 H5.
  eapply owns_skd; [by eapply (owns_child l req _ _ _ _ (NArray [])); try done|].
  cbv beta. intros args' l6 H6. calls; [by apply filled_append|].
  eapply owns_skd; [by apply owns_append_args|]. cbv beta. intros _ l8 H8.
  eapply owns_put; [exact H8|]. intros l9 H9.
  by eapply owns_send_release.
Qed.
Lemma owns_BasicRequest u name text args func o l :
  handler_ok func → asked (basic_request u name text args) →
  owns_world (λ res l', same l l' ∧ tells_of (basic_request u name text args) o res)
    (BasicRequest u name text args func o) l.
Proof.
  intros Hf Ha. eapply owns_skd; [apply owns_create|]. cbv beta. intros req l1 H1.
  calls; [apply holding_uid; exact H1|]. calls; [by apply holding_string|].
  calls; [by apply holding_string|]. calls; [by apply holding_int64|].
  calls; [by apply holding_int64|].
  eapply owns_skd; [by eapply (owns_child l req _ _ _ _ (NArray [])); try done|].
  cbv beta. intros args' l6 H6. calls; [by apply filled_append|].
  eapply owns_skd; [by apply owns_append_args|]. cbv beta. intros _ l8 H8.
  eapply owns_put; [exact H8|]. intros l9 H9.
  by eapply owns_send_release.
Qed.
End Operations.

(** ** The queries and the receiver *)

Section Queries.
Context `{SourceKitD} (final : trace) (asked : gmap uid request_value → Prop).

Notation owns_trace := (owns (trace_rules final asked)).
Notation owns_world := (owns (world_rules final asked)).

Lemma same_trans l1 l2 l3 : same l1 l2 → same l2 l3 → same l1 l3.
Proof. intros [? ?] [? ?]. split; congruence. Qed.

Lemma store_response_ok this : handler_ok final asked (store_response this).
Proof.
  intros r o l v Hr Hv. unfold store_response. eapply owns_skd; [by eapply owns_look|].
  cbv beta. intros err l1 ->. destruct err; [by split|].
  eapply owns_skd; [by apply owns_print|]. cbv beta. intros s l2 [-> Hs]. apply owns_say.
  split; [done|]. exists s. auto.
Qed.

(** What a query for candidates, or for diagnostics, asks. *)
Definition completion_asks (ctx : CompletionContext) (v : gmap uid request_value) : Prop :=
  ∃ off clean name, GetOffset ctx 0 EmptyString = Ok (off, clean) ∧
    name ∈ ["source.request.codecomplete.open"; "source.request.codecomplete.update"] ∧
    v = complete_request name (sourceFilename ctx) off clean (compilerArgs ctx).
Definition editor_asks (ctx : CompletionContext) (v : gmap uid request_value) : Prop :=
  ∃ f fs name, unsavedFiles ctx = f :: fs ∧
    name ∈ ["source.request.editor.open"; "source.request.editor.replacetext"] ∧
    v = basic_request name (sourceFilename ctx) (contents f) (compilerArgs ctx).

Lemma owns_completion name will did this ctx o l :
  c_str name ∈ ["source.request.codecomplete.open"; "source.request.codecomplete.update"] →
  (∀ v, completion_asks ctx v → asked v) →
  owns_world (λ res l', same l l' ∧ ∃ v, completion_asks ctx v ∧ tells_of final v o res)
    (completion name will did this ctx o) l.
Proof.
  intros Hn Ha. unfold completion. apply owns_say. owns_step.
  { apply owns_outcome with (Q := λ x l', l' = l ∧ GetOffset ctx 0 EmptyString = Ok x). by intros x ->. }
  cbv beta. intros [off clean] l1 [-> E]. owns_step.
  - apply owns_CodeCompleteRequest; [apply store_response_ok|]. apply Ha. by exists off, clean, (c_str name).
  - cbv beta. intros res l2 [H2 Ht]. apply owns_say. split; [done|]. eexists. split; [|exact Ht].
    by exists off, clean, (c_str name).
Qed.
Lemma owns_editor name will did this ctx o l :
  c_str name ∈ ["source.request.editor.open"; "source.request.editor.replacetext"] →
  (∀ v, editor_asks ctx v → asked v) →
  owns_world (λ res l', same l l' ∧ ∃ v, editor_asks ctx v ∧ tells_of final v o res)
    (editor name will did this ctx o) l.
Proof.
  intros Hn Ha. unfold editor. apply owns_say. owns_step.
  { apply owns_outcome with (Q := λ x l', l' = l ∧ ∃ f fs, unsavedFiles ctx = f :: fs ∧ x = contents f).
    intros x. destruct (unsavedFiles ctx) as [|f fs]; [done|]. intros [= <-]. eauto. }
  cbv beta. intros text l1 (-> & f & fs & E & ->). owns_step.
  - apply owns_BasicRequest; [apply store_response_ok|]. apply Ha. by exists f, fs, (c_str name).
  - cbv beta. intros res l2 [H2 Ht]. apply owns_say. split; [done|]. eexists. split; [|exact Ht].
    by exists f, fs, (c_str name).
Qed.
(** The strings passed name the operations. *)
Lemma completion_names :
  Forall (λ name, c_str name ∈ ["source.request.codecomplete.open"; "source.request.codecomplete.update"])
    ["source.request.codecomplete.open"; "source.request.codecomplete.update"].
Proof. apply (bool_decide_unpack _). vm_compute. exact I. Qed.
Lemma editor_names :
  Forall (λ name, c_str name ∈ ["source.request.editor.open"; "source.request.editor.replacetext"])
    ["source.request.editor.open"; "source.request.editor.replacetext"].
Proof. apply (bool_decide_unpack _). vm_compute. exact I. Qed.
Lemma owns_service_new level l :
  owns_world (λ _ l', l' = l) (SourceKitService_new level) l.
Proof.
  intros w _. cbn. apply WorldCalls; [by destruct (handler_of w)|]. cbn. destruct (handler_of w).
  - apply (ActsIdle _ _ _ _ _ _ []); [by rewrite app_nil_r|done..].
  - apply (ActsIdle _ _ _ _ _ _ [Initialize; SetNotificationHandler]); [done| |done].
    apply Forall_forall. intros c Hc. unfold idle_call. set_solver.
Qed.

Lemma owns_candidates this filename line column files flags l :
  (∀ v, completion_asks (completion_context filename line column files flags) v → asked v) →
  owns_world (λ cs l', same l l' ∧ (cs = EmptyCandidates ∨
      ∃ v, completion_asks (completion_context filename line column files flags) v ∧
        described final v cs))
    (CandidatesForLocationInFile this filename line column files flags) l.
Proof.
  intros Ha. unfold CandidatesForLocationInFile, CompletionOpen, CompletionUpdate.
  owns_step; [apply owns_service_new|]. cbv beta. intros s l1 ->.
  pose proof completion_names as [Hopen [Hupdate _]%Forall_cons]%Forall_cons.
  owns_step; [apply owns_completion; [exact Hopen|exact Ha]|]. cbv beta. intros [e1 o1] l2 (H2 & v1 & Hv1 & T1).
  owns_step; [apply owns_completion; [exact Hupdate|exact Ha]|].
  cbv beta. intros [e2 o2] l3 (H3 & v2 & Hv2 & T2). pose proof (same_trans _ _ _ H2 H3).
  destruct o2 as [cs|]; [|by apply owns_say; split; [|left]]. split; [done|]. right.
  unfold tells_of in *. cbn in *. destruct e2; [destruct e1|]; [by simplify_eq|..].
  - destruct T1 as (s1 & E & Hd). exists v1. by simplify_eq.
  - destruct T2 as (s2 & E & Hd). exists v2. by simplify_eq.
Qed.
Lemma owns_diagnostics_requests this filename files flags l :
  (∀ v, editor_asks (completion_context filename 0 0 files (DiagnosticFlagsFromFlags filename flags)) v
    → asked v) →
  owns_world (λ _, same l) (diagnostics_requests this filename files flags) l.
Proof.
  intros Ha. unfold diagnostics_requests, EditorOpen, EditorReplaceText.
  pose proof editor_names as [Hopen [Hreplace _]%Forall_cons]%Forall_cons.
  owns_step; [apply owns_service_new|]. cbv beta. intros s l1 ->.
  owns_step; [apply owns_editor; [by left|exact Ha]|]. cbv beta. intros [e1 o1] l2 [H2 _].
  owns_step; [apply owns_editor; [exact Hreplace|exact Ha]|].
  cbv beta. intros [e2 o2] l3 [H3 _]. exact (same_trans _ _ _ H2 H3).
Qed.

(** *** The receiver *)

(** The responses the receiver does not dispose of: the notification's, and the answer to
    its own request. *)
Definition kept (r : response_ptr) : Prop :=
  HandlerReceives r ∈ final ∨
  ∃ pre o l name, pre ++ [RequestSendSync o r] `prefix_of` final ∧ ledger_of pre = Some l ∧
    request_view l o = Some (sema_request name).
Definition nearly (l l' : ledger) : Prop :=
  objects l' = objects l ∧ ∀ r, r ∈ responses l' → r ∈ responses l ∨ kept r.

Lemma owns_receiver lg resp l :
  HandlerReceives resp ∈ final → resp ∈ responses l →
  (∀ name, notified final name → asked (sema_request name)) →
  owns_world (λ _, nearly l) (NotificationReceiver lg resp) l.
Proof.
  intros Hn Hr Ha. assert (∀ n, nearly l (with_copies n l)) as Hl by (split; [done|by left]).
  unfold NotificationReceiver.
  eapply owns_skd; [by apply owns_dump|]. cbv beta. intros _ l1 ->.
  eapply owns_skd; [by eapply owns_look|]. cbv beta. intros null l1 ->. apply owns_say.
  eapply owns_skd; [by apply owns_print|]. cbv beta. intros s l1 [-> _]. apply owns_say.
  destruct null; [by apply owns_last_say|]. eapply owns_skd.
  { apply owns_ask with (Q := λ x l', l' = with_copies 1 l ∧ ∀ name, x = Some name →
      name ≠ EmptyString → notified final name); [done|]. intros tr Hf. split; [done|]. intros _ _ _ _.
    eexists. split; [by cbn; rewrite owns_response_in|]. split; [done|]. intros name E Hne.
    by exists tr, resp. }
  cbv beta. intros [[|ch name]|] l1 [-> Hname]; [by apply owns_last_say| |by apply owns_last_say].
  specialize (Hname (String ch name) eq_refl ltac:(done)). specialize (Ha _ Hname).
  apply owns_say, owns_say. set (name' := String ch name) in *. clearbody name'.
  eapply owns_skd; [apply owns_create|]. cbv beta. intros req l2 H2.
  eapply owns_skd; [by eapply owns_settles; [..|apply holding_uid; exact H2]|].
  cbv beta. intros _ l3 H3.
  eapply owns_skd; [by eapply owns_settles; [..|apply holding_string; exact H3]|].
  cbv beta. intros _ l4 H4.
  eapply owns_skd; [by eapply owns_settles; [..|apply holding_string; exact H4]|].
  cbv beta. intros _ l5 H5. change (c_str "") with EmptyString in H5.
  pose proof (holding_view _ _ _ _ H5) as Hv. pose proof (holding_object _ _ _ _ H5) as Hreq.
  eapply owns_skd.
  { apply owns_ask with (Q := λ r l', kept r ∧ l' = with_response r (Some (sema_request name')) l5);
      [done|]. intros tr Hf. split; [by exists (sema_request name')|].
    intros lg' E Hp _. eexists. split; [by cbn; rewrite decide_True, Hv|]. split; [|done].
    right. exists tr, req, lg', name'. split; [done|]. split; [done|].
    by rewrite (part_view _ _ _ Hp). }
  cbv beta. intros r l6 [Hk ->].
  eapply owns_skd; [apply owns_dump; cbn; set_solver|]. cbv beta. intros _ l6 ->.
  destruct H5 as (Ho & Hd & Hr5 & _). cbn in Ho, Hd, Hr5.
  eapply owns_skd.
  { apply (owns_settles _ _ (λ l', objects l' = objects l ∧ responses l' = {[r]} ∪ responses l ∧
      answering l' !! r = Some (sema_request name'))); [done..|].
    eexists. split; [cbn; by rewrite decide_True|].
    split; [cbn; set_solver|]. split; [cbn; by rewrite Hr5|apply answering_new]. }
  cbv beta. intros _ l7 (Ho7 & Hr7 & Ha7). apply owns_say.
  eapply owns_skd; [apply owns_print; set_solver|]. cbv beta. intros s' l8 [-> Hs'].
  apply owns_set; [by split; [|apply Hs']|].
  split; [done|]. cbn. rewrite Hr7. intros r'. set_solver.
Qed.
Lemma owns_handler resp l :
  (∀ name, notified final name → asked (sema_request name)) →
  owns_world (λ _, nearly l) (notification_handler resp) l.
Proof.
  intros Ha. eapply owns_skd with (Q := λ _ l', HandlerReceives resp ∈ final ∧
    l' = with_response resp None l).
  { apply (owns_ask _ _ (λ _, tt) (λ _, HandlerReceives resp)); [done|]. intros tr Hf.
    split; [done|]. intros _ _ _ _. eexists. split; [done|]. split; [|done].
    eapply elem_of_prefix; [|exact Hf]. set_solver. }
  cbv beta. intros _ l1 [Hf ->].
  assert (∀ l', nearly (with_response resp None l) l' → nearly l l') as Hl.
  { intros l' [Ho Hr]. split; [done|]. intros r [Hr'|?]%Hr; [|by right]. cbn in Hr'.
    apply elem_of_union in Hr' as [->%elem_of_singleton|?]; [right; by left|by left]. }
  intros w _. cbn. apply WorldCalls; [done|]. apply acts_nothing.
  destruct (handler_of w) as [lg|].
  - owns_weaken; [apply owns_receiver; [done|cbn; set_solver|done]|]. cbv beta. auto.
  - apply Hl. split; [done|by left].
Qed.
End Queries.
