(* ===== verification/Shares.v ===== *)
(** * The shares of the completer's threads

    A thread's share is its part of the ledger (Ownership.v) and the future it pending.
    [granted]: what all threads hold adds up to the state, in which the calls made never
    misuse anything, every request sent asks what it may, and every value in the channel
    of futures is what sourcekitd told the receiver for its key. *)

From S2P Require Import Prelude Owns Logging Futures SourceKitD Ledger Offset SourceKit Requests Completer Ownership.

(** Every request sent so far, as it was when it was sent. *)
Definition all_asked `{SourceKitD} (asked : gmap uid request_value → Prop) (calls : trace) : Prop :=
  ∀ pre o r post, calls = pre ++ RequestSendSync o r :: post →
    ∃ l v, ledger_of pre = Some l ∧ request_view l o = Some v ∧ asked v.

(** A notification's response is none the program owns when it is delivered. *)
Definition fresh_notifications (calls : trace) : Prop :=
  ∀ pre r post l, calls = pre ++ HandlerReceives r :: post → ledger_of pre = Some l →
    r ∉ responses l.

(** The future awaited, if any, is named by its promise, with the key it was made for. *)
Record share := { owned : ledger; pending : option (nat * string) }.
Definition share_new : share := {| owned := ledger_new; pending := None |}.

Section Shares.
(** The calls to the end; what may be asked, and the documents that may be awaited. *)
Context `{SourceKitD} (final : trace) (asked : gmap uid request_value → Prop)
  (documents : string → Prop).

Inductive share_acts (g : share) (w w' : World) (P : share → Prop) : Prop :=
| ShareActs :
    world_acts final asked (owned g) w w' (λ l, P {| owned := l; pending := pending g |}) →
    share_acts g w w' P
| ShareFuture key p :
    calls_of w' = calls_of w → documents key → future key (channel_of w) = Ok (p, channel_of w') →
    P {| owned := owned g; pending := Some (p, key) |} → share_acts g w w' P.
(** The future awaited is still registered for its key, or has what was told for it. *)
Definition share_holds (g : share) (w : World) : Prop :=
  well_formed (channel_of w) ∧
  ∀ p key, pending g = Some (p, key) → documents key ∧
    (registered (channel_of w) key p ∨
     ∃ v, shared (channel_of w) !! p = Some (Value v) ∧ told final key v).
(** A thread waits for nothing else. *)
Definition share_stalls (g : share) (ready : World → option (outcome string)) : Prop :=
  ∃ p key, pending g = Some (p, key) ∧ ∀ w, ready w = future_ready p (channel_of w).
Definition share_rules : rules World share :=
  {| acts := share_acts; holds := share_holds; stalls := share_stalls |}.
#[global] Instance share_rules_monotone : Monotone share_rules.
Proof.
  intros g w w' P R [Ha|key p Ec Hd Ef HP] HR; [|by eapply ShareFuture, HR].
  apply ShareActs. eapply (world_rules_monotone final asked (owned g)); [exact Ha|]. auto.
Qed.

Notation owns_share := (owns share_rules).

(** A thread that does nothing with futures. *)
Lemma owns_owned {A} (Q : A → ledger → Prop) (t : thread World A) g :
  owns (world_rules final asked) Q t (owned g) →
  owns_share (λ a g', pending g' = pending g ∧ Q a (owned g')) t g.
Proof.
  intros Ht. destruct g as [l aw]. cbn [owned pending] in *. owns_weaken.
  - apply (owns_lift share_rules (world_rules final asked)
      (λ l, {| owned := l; pending := aw |})); [|exact Ht]. split; [done| |done].
    intros l' w w' P Ha. apply ShareActs.
    eapply (world_rules_monotone final asked l'); [exact Ha|]. eauto.
  - by intros a g' (l' & -> & HQ).
Qed.
Lemma owns_future key g :
  documents key → owns_share (λ p g', g' = {| owned := owned g; pending := Some (p, key) |})
    (zoom (lift_future key)) g.
Proof.
  intros Hd w _. cbn -[future]. destruct (future key (channel_of w)) as [[p ch]|f] eqn:E.
  - by eapply ShareFuture.
  - apply ShareActs, WorldCalls; [done|]. by apply acts_nothing.
Qed.
Lemma owns_await g filename :
  documents filename →
  owns_share (λ s g', owned g' = owned g ∧ told final filename s) (await_semantic filename) g.
Proof.
  intros Hd. owns_step; [by apply owns_future|]. cbv beta. intros p g' ->.
  split; [by exists p, filename|]. intros w v [Hwf Hp] Hv. split; [done|].
  change (future_ready p (channel_of w) = Some (Ok v)) in Hv. unfold future_ready in Hv.
  destruct (Hp p filename eq_refl) as [_ [Hr|(v' & Hs & Ht)]].
  - assert (shared (channel_of w) !! p = Some Pending) as Hs.
    { apply (wf_pending _ Hwf), (wf_alive _ Hwf). destruct Hr as (ps & ? & ?). eauto. }
    by rewrite Hs in Hv.
  - rewrite Hs in Hv. by simplify_eq.
Qed.
Lemma owns_diagnostics this filename files flags g :
  (∀ v, editor_asks (completion_context filename 0 0 files (DiagnosticFlagsFromFlags filename flags)) v
    → asked v) → documents filename →
  owns_share (λ cs g', same (owned g) (owned g') ∧
      (cs = EmptyDiagnostics ∨ told final filename cs))
    (DiagnosticsForFile this filename files flags) g.
Proof.
  intros Ha Hd. unfold DiagnosticsForFile. owns_step.
  { apply owns_owned, owns_diagnostics_requests. exact Ha. }
  cbv beta. intros [s|] g1 [_ H1].
  - owns_weaken; [by apply owns_await|]. cbv beta. intros cs g2 [-> Ht]. auto.
  - owns_weaken.
    { apply owns_owned, owns_say with (R := λ cs l, cs = EmptyDiagnostics ∧ l = owned g1). by cbn. }
    cbv beta. intros cs g2 (_ & -> & ->). auto.
Qed.

(** ** What all threads hold *)

Record granted (gs : list share) (w : World) (l : ledger) : Prop := {
  gr_shares : shares l (map owned gs);
  gr_ledger : ledger_of (calls_of w) = Some l;
  gr_asked : all_asked asked (calls_of w);
  gr_channel : well_formed (channel_of w);
  gr_holds i g : gs !! i = Some g → share_holds g w;
}.

Lemma granted_start : granted [] world_new ledger_new.
Proof. split; [apply shares_nil|done|by intros [] ? ? ?|apply channel_new_wf|done]. Qed.
Lemma granted_quiet gs w w' l :
  granted gs w l → calls_of w' = calls_of w → channel_of w' = channel_of w → granted gs w' l.
Proof.
  intros [Hs E Ha Hc Hh] Ec Ech. split; [done|by rewrite Ec|by rewrite Ec|by rewrite Ech|].
  intros i g Hi. unfold share_holds. rewrite Ech. by eapply Hh.
Qed.
Lemma granted_join gs w l : granted gs w l → granted (gs ++ [share_new]) w l.
Proof.
  intros [Hs E Ha Hc Hh]. split; try done.
  - rewrite map_app. by apply shares_new.
  - intros i g [Hi|[_ Hi]]%lookup_app_Some; [by eapply Hh|].
    apply list_lookup_singleton_Some in Hi as [_ <-]. by split.
Qed.
End Shares.

(** *** An atom of one of them *)

Section Atoms.
Context `{FreshHandles} (final : trace) (asked : gmap uid request_value → Prop)
  (documents : string → Prop).
Hypothesis notifications : fresh_notifications final.

Lemma all_asked_snoc tr c l :
  all_asked asked tr → ledger_of tr = Some l →
  (∀ o r, c = RequestSendSync o r → ∃ v, request_view l o = Some v ∧ asked v) →
  all_asked asked (tr ++ [c]).
Proof.
  intros Ha E Hc pre o r post Et. destruct post as [|x post _] using rev_ind.
  - apply app_inj_tail in Et as [-> ->]. destruct (Hc o r eq_refl) as (v & Hv & Hav). by exists l, v.
  - rewrite app_comm_cons, app_assoc in Et. apply app_inj_tail in Et as [-> _]. by eapply Ha.
Qed.
Lemma accounts_idle cs l : Forall idle_call cs → accounts cs l = Some l.
Proof. induction 1 as [|c cs [->| ->] _ IH]; cbn; done. Qed.
Lemma all_asked_idle tr cs l :
  all_asked asked tr → ledger_of tr = Some l → Forall idle_call cs → all_asked asked (tr ++ cs).
Proof.
  intros Ha E Hc. induction cs as [|c cs IH] using rev_ind; [by rewrite app_nil_r|].
  apply Forall_app in Hc as [Hcs Hc]. rewrite app_assoc. eapply all_asked_snoc; [by apply IH| |].
  - unfold ledger_of in *. rewrite accounts_app, E. by apply accounts_idle.
  - intros o r ->. by inversion Hc as [|? ? [|] _].
Qed.
Lemma mints_here tr c l :
  ledger_of tr = Some l → genuine tr c → tr ++ [c] `prefix_of` final → mints c l.
Proof.
  intros E Hg Hp. destruct c as [o|o k u|o k z|o k s|o k v|o|o s|o|o r|r|r|r|r|r k|r| | |r]; cbn in *;
    subst; try done; try (by eapply create_fresh); try (by eapply send_fresh).
  destruct Hp as [k ->]. eapply (notifications tr r k); [by rewrite <- app_assoc|done].
Qed.

(** A call, or none, by the thread that has the part [li]. *)
Lemma shares_acts ls l i li tr tr' (P : ledger → Prop) :
  shares l ls → ledger_of tr = Some l → all_asked asked tr → ls !! i = Some li →
  part_acts final asked li tr tr' P → tr' `prefix_of` final →
  ∃ li' l', P li' ∧ shares l' (<[i := li']> ls) ∧ ledger_of tr' = Some l' ∧ all_asked asked tr'.
Proof.
  intros Hs E Ha Hi Hact Hp. destruct Hact as [cs Ec Hid Ho|c Ec Hg Hc]; subst tr'.
  - exists li, l. rewrite list_insert_id by done. do 2 (split; [done|]).
    split; [|by eapply all_asked_idle]. unfold ledger_of in *. rewrite accounts_app, E.
    by apply accounts_idle.
  - destruct (Hc Hp) as [Hpr Hset]. pose proof (mints_here _ _ _ E Hg Hp) as Hm.
    pose proof (sh_part _ _ Hs i li Hi) as Hpart.
    destruct (Hset l E Hpart (part_mints _ _ _ Hpart Hm)) as (li' & El & Ho).
    destruct (account_frame c l li li' Hpart Hm El) as (l' & El' & Hmv).
    exists li', l'. split; [done|]. split; [by eapply shares_moved|].
    split; [by eapply ledger_of_snoc|]. eapply all_asked_snoc; [done..|]. intros o r ->.
    destruct Hpr as (v & Hv & Hav). exists v. split; [|done].
    rewrite (part_view _ _ _ Hpart); [done|]. cbn in El. by destruct (decide (o ∈ objects li)).
Qed.

(** A value set for a key leaves every future awaited with what was told for its key. *)
Lemma holds_set g w w' name s :
  share_holds final documents g w → told final name s →
  set name s (channel_of w) = Ok (channel_of w') → share_holds final documents g w'.
Proof.
  intros [Hwf Hp] Ht Es. destruct (set_spec name s _ Hwf) as (ch & Es' & Hwf' & Hm & _ & Hv & Hu).
  rewrite Es in Es'. injection Es' as <-. split; [done|]. intros p key Ea.
  destruct (decide (key = name)) as [->|Hne]; destruct (Hp p _ Ea) as [Hd [Hr|(v & Hs & Htv)]];
    (split; [done|]).
  - right. exists s. auto.
  - right. exists v. split; [|done]. rewrite Hu; [done|]. intros (ps & Hk & Hin).
    assert (shared (channel_of w) !! p = Some Pending); [|congruence].
    apply (wf_pending _ Hwf), (wf_alive _ Hwf). eauto.
  - left. destruct Hr as (ps & Hk & Hin). exists ps. by rewrite Hm, lookup_delete_ne by done.
  - right. exists v. split; [|done]. rewrite Hu; [done|]. intros (ps & Hk & Hin).
    assert (shared (channel_of w) !! p = Some Pending); [|congruence].
    apply (wf_pending _ Hwf), (wf_alive _ Hwf). eauto.
Qed.
(** Neither does a new future. *)
Lemma holds_future g w w' key p :
  share_holds final documents g w → future key (channel_of w) = Ok (p, channel_of w') →
  share_holds final documents g w' ∧ registered (channel_of w') key p.
Proof.
  intros [Hwf Hp] Ef. destruct (future_spec key _ Hwf) as (ch & Ef' & Hwf' & _ & Hs & Hr & Ho).
  rewrite Ef in Ef'. injection Ef' as -> <-. split; [|done]. split; [done|]. intros p key' Ea.
  assert (∀ x, shared (channel_of w) !! p = Some x → p < next_promise (channel_of w)) as Hlt.
  { intros x Hx. apply (wf_fresh _ Hwf). eauto. }
  destruct (Hp p key' Ea) as [Hd [Hr'|(v & Hv & Ht)]]; (split; [done|]).
  - left. apply Ho; [|done]. apply (Hlt Pending), (wf_pending _ Hwf), (wf_alive _ Hwf).
    destruct Hr' as (ps & ? & ?). eauto.
  - right. exists v. split; [|done]. rewrite Hs, lookup_insert_ne; [done|].
    intros <-. specialize (Hlt _ Hv). lia.
Qed.

Lemma granted_acts gs i g w w' l (P : share → Prop) :
  granted final asked documents gs w l → gs !! i = Some g → share_acts final asked documents g w w' P →
  calls_of w' `prefix_of` final →
  ∃ g' l', P g' ∧ granted final asked documents (<[i := g']> gs) w' l'.
Proof.
  intros Hg Hi Hact Hp. destruct Hg as [Hs E Ha Hc Hh].
  assert (map owned gs !! i = Some (owned g)) as Hio by (rewrite list_lookup_fmap, Hi; done).
  assert (∀ g', map owned (<[i := g']> gs) = <[i := owned g']> (map owned gs)) as Hins
    by (intros g'; apply list_fmap_insert).
  assert (∀ g', (∀ j x, gs !! j = Some x → share_holds final documents x w') → share_holds final documents g' w' →
    ∀ j x, <[i := g']> gs !! j = Some x → share_holds final documents x w') as Hj.
  { intros g' Hold Hnew j x [(-> & -> & _)|[_ Hj]]%list_lookup_insert_Some; [done|by eapply Hold]. }
  destruct Hact as [[Ech Hact|name s Ec Ht Eset HP]|key p Ec Hd Ef HP].
  - destruct (shares_acts _ _ _ _ _ _ _ Hs E Ha Hio Hact Hp) as (li' & l' & HP & Hs' & E' & Ha').
    eexists _, l'. split; [exact HP|]. split; [by rewrite Hins|done|done|by rewrite Ech|].
    apply Hj; unfold share_holds; rewrite Ech; [by intros j x ?; apply (Hh j)|].
    exact (Hh i g Hi).
  - exists {| owned := owned g; pending := pending g |}, l. split; [done|].
    split; [by rewrite Hins, list_insert_id|by rewrite Ec|by rewrite Ec| |].
    + by destruct (holds_set g w w' name s (Hh i g Hi) Ht Eset).
    + apply Hj; [by intros j x ?; eapply holds_set; [eapply Hh|..]|].
      by destruct (holds_set g w w' name s (Hh i g Hi) Ht Eset).
  - exists {| owned := owned g; pending := Some (p, key) |}, l. split; [done|].
    destruct (holds_future g w w' key p (Hh i g Hi) Ef) as [Hg' Hr].
    split; [by rewrite Hins, list_insert_id|by rewrite Ec|by rewrite Ec|apply Hg'|].
    apply Hj; [by intros j x ?; eapply holds_future; [eapply Hh|]|].
    split; [apply Hg'|]. intros p' key' [= <- <-]. split; [done|by left].
Qed.
End Atoms.
