(* ===== verification/HttpMessage.v ===== *)
(** * HTTP messages: beast::http

    The part of src/vendor/beast/include/beast/http/ the server composes its
    responses with and the test client its requests: the fields container, the
    token lists of RFC 7230, [prepare] and the serialisation of a message with a
    [string_body]. *)

From S2P Require Import Prelude.

Local Open Scope Z_scope.

(** ** Characters (detail/rfc7230.hpp, core/detail/ci_char_traits.hpp) *)

(** The table of [is_tchar]. *)
Definition is_alpha_char (c : ascii) : bool :=
  ((65 <=? code c) && (code c <=? 90)) || ((97 <=? code c) && (code c <=? 122)).
Definition is_tchar (c : ascii) : bool :=
  is_digit_char c || is_alpha_char c ||
  existsb (Ascii.eqb c) ["!"; "#"; "$"; "%"; "&"; "'"; "*"; "+"; "-"; "."; "^"; "_"; "`";
                         "|"; "~"]%char.

Definition is_ows (c : ascii) : bool := Ascii.eqb c " " || Ascii.eqb c tab.

(** [ci_equal]: equal up to the case of ASCII letters. *)
Fixpoint ci_equal (s t : string) : bool :=
  match s, t with
  | EmptyString, EmptyString => true
  | String c s, String d t => Ascii.eqb (tolower c) (tolower d) && ci_equal s t
  | _, _ => false
  end.

Definition skip_ows (s : string) : string := (str_span is_ows s).2.
Fixpoint trim_right (s : string) : string :=
  match s with
  | EmptyString => EmptyString
  | String c s =>
      match trim_right s with
      | EmptyString => if is_ows c then EmptyString else str1 c
      | t => String c t
      end
  end.
Definition trim (s : string) : string := trim_right (skip_ows s).

(** ** Token lists (impl/rfc7230.ipp) *)

(** [token_list::const_iterator::increment] from the position of the iterator:
    the next token and what is left, [None] at the end or on an error. *)
Fixpoint next_token (fuel : nat) (need_comma : bool) (s : string)
    : option (string * string) :=
  match fuel with
  | O => None
  | S fuel =>
      match skip_ows s with
      | EmptyString => None
      | String c s' =>
          if is_tchar c then
            if need_comma then None else Some (str_span is_tchar (String c s'))
          else if negb (Ascii.eqb c ",") then None
          else next_token fuel false s'
      end
  end.

Fixpoint tokens_from (fuel : nat) (need_comma : bool) (s : string) : list string :=
  match fuel with
  | O => []
  | S fuel =>
      match next_token (S (String.length s)) need_comma s with
      | None => []
      | Some (t, rest) => t :: tokens_from fuel true rest
      end
  end.
Definition token_list (s : string) : list string := tokens_from (S (String.length s)) false s.
(** [token_list{s}.exists(t)] *)
Definition token_exists (t s : string) : bool := existsb (λ v, ci_equal t v) (token_list s).

(** ** Fields (basic_fields.hpp, impl/basic_fields.ipp)

    The list in insertion order; the set orders the same elements by name and
    keeps equal names in that order. *)

Definition fields := list (string * string).

Fixpoint fields_find (name : string) (fs : fields) : option string :=
  match fs with
  | [] => None
  | (n, v) :: fs => if ci_equal name n then Some v else fields_find name fs
  end.
Definition fields_exists (name : string) (fs : fields) : bool :=
  match fields_find name fs with Some _ => true | None => false end.
Definition fields_count (name : string) (fs : fields) : nat :=
  length (List.filter (λ nv, ci_equal name nv.1) fs).
(** [operator[]] *)
Definition fields_get (name : string) (fs : fields) : string :=
  default EmptyString (fields_find name fs).
Definition fields_insert (name value : string) (fs : fields) : fields :=
  fs ++ [(name, trim value)].
(** [erase], and the number of fields it removes. *)
Definition fields_erase (name : string) (fs : fields) : fields :=
  List.filter (λ nv, negb (ci_equal name nv.1)) fs.
Definition fields_erased (name : string) (fs : fields) : nat := fields_count name fs.
Definition fields_replace (name value : string) (fs : fields) : fields :=
  fields_insert name value (fields_erase name fs).

(** ** Messages (message.hpp, string_body.hpp) *)

Record request := {
  req_version : Z; req_method : string; req_url : string;
  req_fields : fields; req_body : string;
}.
Record response := {
  res_version : Z; res_status : Z; res_reason : string;
  res_fields : fields; res_body : string;
}.

Definition req_with_fields (fs : fields) (m : request) : request :=
  {| req_version := req_version m; req_method := req_method m; req_url := req_url m;
     req_fields := fs; req_body := req_body m |}.
Definition res_with_fields (fs : fields) (m : response) : response :=
  {| res_version := res_version m; res_status := res_status m; res_reason := res_reason m;
     res_fields := fs; res_body := res_body m |}.

(** *** prepare (impl/message.ipp), without options *)

Definition content_length (body : string) : Z := u64 (strlenZ body).

Definition prepare_guard (fs : fields) : outcome unit :=
  if fields_exists "Connection" fs
  then Fail (Exn (std_invalid_argument "prepare called with Connection field set")) else
  if fields_exists "Content-Length" fs
  then Fail (Exn (std_invalid_argument "prepare called with Content-Length field set")) else
  if token_exists "chunked" (fields_get "Transfer-Encoding" fs)
  then Fail (Exn (std_invalid_argument "prepare called with Transfer-Encoding: chunked set"))
  else Ok tt.

Definition prepare_upgrade (version : Z) (fs : fields) : outcome unit :=
  if (version <? 11) && token_exists "upgrade" (fields_get "Connection" fs)
  then Fail (Exn (std_invalid_argument "invalid version for Connection: upgrade"))
  else Ok tt.

Definition prepare_request (m : request) : outcome request :=
  _ ← prepare_guard (req_fields m);
  let n := content_length (req_body m) in
  let fs := if (n >? 0) || ci_equal (req_method m) "POST"
            then fields_insert "Content-Length" (to_dec n) (req_fields m)
            else req_fields m in
  _ ← prepare_upgrade (req_version m) fs;
  Ok (req_with_fields fs m).

Definition prepare_response (m : response) : outcome response :=
  _ ← prepare_guard (res_fields m);
  let n := content_length (res_body m) in
  let fs := if negb (Z.quot (res_status m) 100 =? 1) && negb (res_status m =? 204) &&
               negb (res_status m =? 304)
            then fields_insert "Content-Length" (to_dec n) (res_fields m)
            else res_fields m in
  _ ← prepare_upgrade (res_version m) fs;
  Ok (res_with_fields fs m).

(** *** is_keep_alive *)

Definition is_keep_alive (version : Z) (fs : fields) : outcome bool :=
  if negb ((version =? 10) || (version =? 11))
  then Fail (AssertionFailed "msg.version == 10 || msg.version == 11") else
  Ok (if version =? 11 then negb (token_exists "close" (fields_get "Connection" fs))
      else token_exists "keep-alive" (fields_get "Connection" fs)).

(** *** Serialisation (impl/write.ipp) *)

Definition http_version (version : Z) : outcome string :=
  if version =? 10 then Ok "HTTP/1.0"
  else if version =? 11 then Ok "HTTP/1.1"
  else Fail (AssertionFailed "msg.version == 10 || msg.version == 11").

Definition request_line (m : request) : outcome string :=
  v ← http_version (req_version m);
  Ok (req_method m +:+ " " +:+ req_url m +:+ " " +:+ v +:+ CRLF).
Definition status_line (m : response) : outcome string :=
  v ← http_version (res_version m);
  Ok (v +:+ " " +:+ to_dec (res_status m) +:+ " " +:+ res_reason m +:+ CRLF).

Definition write_fields (fs : fields) : string :=
  str_concat (map (λ nv, nv.1 +:+ ": " +:+ nv.2 +:+ CRLF) fs).

(** [chunk_encode_delim] and [chunk_encode] of one buffer (chunk_encode.hpp). *)
Fixpoint to_hex (fuel : nat) (n : Z) (acc : string) : string :=
  match fuel with
  | O => acc
  | S fuel =>
      if n =? 0 then acc
      else to_hex fuel (Z.shiftr n 4)
        (String (match char_at "0123456789abcdef" (Z.to_nat (Z.land n 0xf)) with
                 | Some c => c | None => nul end) acc)
  end.
Definition chunk_encode_delim (n : Z) : string :=
  (if n =? 0 then "0" else to_hex 16 n EmptyString) +:+ CRLF.
Definition chunk_encode (fin : bool) (buffer : string) : string :=
  chunk_encode_delim (content_length buffer) +:+ buffer +:+
  (if fin then CRLF +:+ "0" +:+ CRLF +:+ CRLF else CRLF).
Definition chunk_encode_final : string := "0" +:+ CRLF +:+ CRLF.

(** [write_preparation] and the states of [write_op] for a [string_body], whose
    writer hands over the whole body at once: the buffers written in order, and
    whether the operation ends with the error [eof]. *)
Definition write_message (start_line : outcome string) (version : Z) (fs : fields)
    (body : string) : outcome (list string * bool) :=
  let chunked := token_exists "chunked" (fields_get "Transfer-Encoding" fs) in
  let close := token_exists "close" (fields_get "Connection" fs) ||
               ((version <? 11) && negb (fields_exists "Content-Length" fs)) in
  line ← start_line;
  let sb := line +:+ write_fields fs +:+ CRLF in
  let first := sb +:+ (if chunked then chunk_encode false body else body) in
  Ok (first :: (if chunked then [chunk_encode_final] else []), close).

Definition write_request (m : request) : outcome (list string * bool) :=
  write_message (request_line m) (req_version m) (req_fields m) (req_body m).
Definition write_response (m : response) : outcome (list string * bool) :=
  write_message (status_line m) (res_version m) (res_fields m) (res_body m).

(** ** Lemmas *)

Lemma ci_equal_iff s t : ci_equal s t = true ↔ str_map tolower s = str_map tolower t.
Proof.
  revert t; induction s as [|c s IH]; intros [|d t]; cbn; try done.
  rewrite andb_true_iff, IH, Ascii.eqb_eq. split; [by intros [-> ->]|by intros [= -> ->]].
Qed.
Lemma ci_equal_refl s : ci_equal s s = true.
Proof. by apply ci_equal_iff. Qed.
Lemma ci_equal_trans s t u : ci_equal s t = true → ci_equal s u = ci_equal t u.
Proof. rewrite ci_equal_iff. intros E. apply eq_true_iff_eq. by rewrite !ci_equal_iff, E. Qed.
Lemma ci_equal_sym s t : ci_equal s t = ci_equal t s.
Proof. apply eq_true_iff_eq. rewrite !ci_equal_iff. by split. Qed.

Lemma fields_find_app name fs gs :
  fields_find name (fs ++ gs) =
  match fields_find name fs with Some v => Some v | None => fields_find name gs end.
Proof. induction fs as [|[n v] fs IH]; cbn; [done|]. by destruct (ci_equal name n). Qed.
Lemma fields_find_insert name n v fs :
  fields_find name (fields_insert n v fs) =
  match fields_find name fs with
  | Some w => Some w
  | None => if ci_equal name n then Some (trim v) else None
  end.
Proof. unfold fields_insert. rewrite fields_find_app. by destruct (fields_find name fs). Qed.
Lemma fields_find_erase name n fs :
  fields_find name (fields_erase n fs) =
  if ci_equal name n then None else fields_find name fs.
Proof.
  unfold fields_erase. induction fs as [|[k v] fs IH]; cbn; [by destruct (ci_equal name n)|].
  destruct (ci_equal n k) eqn:E; cbn; rewrite IH.
  - destruct (ci_equal name k) eqn:E2; [|done].
    by rewrite (ci_equal_trans name k n E2), ci_equal_sym, E.
  - destruct (ci_equal name k) eqn:E2; [|by destruct (ci_equal name n)].
    rewrite (ci_equal_trans name k n E2), ci_equal_sym, E. done.
Qed.
Lemma fields_count_erase n fs : fields_count n (fields_erase n fs) = 0%nat.
Proof.
  unfold fields_count, fields_erase. induction fs as [|[k v] fs IH]; cbn; [done|].
  destruct (ci_equal n k) eqn:E; cbn; [done|]. by rewrite E.
Qed.
Lemma fields_exists_insert name n v fs :
  fields_exists name (fields_insert n v fs) = fields_exists name fs || ci_equal name n.
Proof.
  unfold fields_exists. rewrite fields_find_insert.
  destruct (fields_find name fs); [done|]. by destruct (ci_equal name n).
Qed.
Lemma fields_get_absent name fs : fields_exists name fs = false → fields_get name fs = EmptyString.
Proof. unfold fields_exists, fields_get. by destruct (fields_find name fs). Qed.
Lemma token_exists_nil t : token_exists t EmptyString = false.
Proof. reflexivity. Qed.

(** The fields behave as a multimap with case-insensitive names: a lookup
    finds the value inserted first under the name in any case, with the blanks
    around it removed; erasing a name removes all its values and no other;
    replacing leaves exactly one. *)
Theorem fields_multimap (name n v : string) (fs : fields) :
  fields_find name (fields_insert n v fs) =
    match fields_find name fs with
    | Some w => Some w
    | None => if ci_equal name n then Some (trim v) else None
    end ∧
  fields_find name (fields_erase n fs) =
    (if ci_equal name n then None else fields_find name fs) ∧
  (length (fields_erase n fs) + fields_erased n fs = length fs)%nat ∧
  fields_count n (fields_replace n v fs) = 1%nat ∧
  fields_find name (fields_replace n v fs) =
    (if ci_equal name n then Some (trim v) else fields_find name fs).
Proof.
  split; [apply fields_find_insert|]. split; [apply fields_find_erase|]. split; [|split].
  - unfold fields_erase, fields_erased, fields_count.
    induction fs as [|[k w] fs IH]; cbn; [done|]. destruct (ci_equal n k); cbn; lia.
  - pose proof (fields_count_erase n fs) as E.
    unfold fields_replace, fields_insert, fields_count in *.
    rewrite List.filter_app, length_app, E. cbn. by rewrite ci_equal_refl.
  - unfold fields_replace. rewrite fields_find_insert, fields_find_erase.
    destruct (ci_equal name n); [done|]. by destruct (fields_find name fs).
Qed.

(** *** Responses on the wire *)

Lemma dec_digits_digits fuel z : str_forallb is_digit_char (dec_digits fuel z) = true.
Proof.
  revert z; induction fuel as [|fuel IH]; intros z; [done|]. cbn [dec_digits].
  rewrite str_forallb_app. apply andb_true_iff. split; [by destruct (z <? 10)|].
  unfold str1, is_digit_char. cbn. pose proof (Z.mod_pos_bound z 10).
  rewrite code_chr by lia. rewrite andb_true_r. apply andb_true_iff. lia.
Qed.
Lemma trim_no_ows s : str_forallb (λ c, negb (is_ows c)) s = true → trim s = s.
Proof.
  intros H. assert (∀ s, str_forallb (λ c, negb (is_ows c)) s = true → trim_right s = s) as Hr.
  { clear. induction s as [|c s IH]; cbn; [done|]. intros [Hc Hs]%andb_prop. rewrite IH by done.
    apply negb_true_iff in Hc. rewrite Hc. by destruct s. }
  unfold trim, skip_ows. destruct s as [|c s]; [done|]. cbn in H. apply andb_prop in H as [Hc Hs].
  pose proof Hc as E. apply negb_true_iff in E. cbn [str_span]. rewrite E. cbn [snd].
  apply Hr. cbn. by rewrite Hc.
Qed.
Lemma digits_no_ows s :
  str_forallb is_digit_char s = true → str_forallb (λ c, negb (is_ows c)) s = true.
Proof.
  induction s as [|c s IH]; cbn; [done|]. intros [Hc Hs]%andb_prop. rewrite IH by done.
  pose proof (all_ascii_spec (λ c, implb (is_digit_char c) (negb (is_ows c))) eq_refl c) as E;
    cbv beta in E. rewrite Hc in E. cbn in E. by rewrite E.
Qed.
Lemma trim_digits s : str_forallb is_digit_char s = true → trim s = s.
Proof. intros H. by apply trim_no_ows, digits_no_ows. Qed.
Lemma trim_length body : trim (to_dec (content_length body)) = to_dec (content_length body).
Proof.
  apply trim_digits. unfold to_dec, content_length, u64.
  pose proof (Z.mod_pos_bound (strlenZ body) (2 ^ 64)).
  replace (_ <? 0) with false by (symmetry; apply Z.ltb_ge; lia). apply dec_digits_digits.
Qed.

(** No field that [prepare] objects to or that changes the framing. *)
Definition plain_fields (fs : fields) : Prop :=
  fields_exists "Connection" fs = false ∧ fields_exists "Content-Length" fs = false ∧
  fields_exists "Transfer-Encoding" fs = false.

Definition has_body (status : Z) : Prop :=
  Z.quot status 100 ≠ 1 ∧ status ≠ 204 ∧ status ≠ 304.

Lemma prepare_response_plain m :
  plain_fields (res_fields m) → has_body (res_status m) →
  prepare_response m =
    Ok (res_with_fields (fields_insert "Content-Length" (to_dec (content_length (res_body m)))
          (res_fields m)) m).
Proof.
  intros (Hc & Hl & Ht) (H1 & H2 & H3). unfold prepare_response, prepare_guard.
  rewrite Hc, Hl, (fields_get_absent _ _ Ht), token_exists_nil. cbn.
  rewrite (proj2 (Z.eqb_neq _ _) H1), (proj2 (Z.eqb_neq _ _) H2), (proj2 (Z.eqb_neq _ _) H3).
  cbn. unfold prepare_upgrade. rewrite fields_get_absent, token_exists_nil, andb_false_r; [done|].
  by rewrite fields_exists_insert, Hc.
Qed.

Lemma write_response_plain m v n :
  plain_fields (res_fields m) → http_version (res_version m) = Ok v →
  write_response (res_with_fields (fields_insert "Content-Length" n (res_fields m)) m) =
  Ok ([((v +:+ " " +:+ to_dec (res_status m) +:+ " " +:+ res_reason m +:+ CRLF) +:+
        write_fields (fields_insert "Content-Length" n (res_fields m)) +:+ CRLF) +:+
       res_body m], false).
Proof.
  intros (Hc & Hl & Ht) Hv. unfold write_response, write_message, status_line.
  cbn [res_version res_fields res_body res_status res_reason res_with_fields].
  rewrite Hv.
  rewrite (fields_get_absent "Transfer-Encoding"), (fields_get_absent "Connection"),
    !token_exists_nil, fields_exists_insert by (by rewrite fields_exists_insert, ?Hc, ?Ht).
  rewrite ci_equal_refl, orb_true_r, andb_false_r. reflexivity.
Qed.

(** C29: preparing and writing a response with plain fields puts exactly one
    buffer on the wire: the status line, the fields in the order they were
    inserted, one [Content-Length] with the body's size, a blank line and the
    body; the connection is kept open.  At another HTTP version the writer fails
    its assertion. *)
Theorem response_on_the_wire (m : response) :
  plain_fields (res_fields m) → has_body (res_status m) →
  ∃ m', prepare_response m = Ok m' ∧
  match http_version (res_version m) with
  | Fail f => write_response m' = Fail f
  | Ok v =>
      write_response m' = Ok ([v +:+ " " +:+ to_dec (res_status m) +:+ " " +:+ res_reason m +:+
        CRLF +:+ write_fields (res_fields m) +:+ "Content-Length: " +:+
        to_dec (content_length (res_body m)) +:+ CRLF +:+ CRLF +:+ res_body m], false)
  end.
Proof.
  intros Hp Hs. eexists. split; [by apply prepare_response_plain|].
  destruct (http_version (res_version m)) as [v|f] eqn:Hv.
  - rewrite (write_response_plain m v) by done. f_equal. f_equal. f_equal.
    unfold fields_insert, write_fields. rewrite trim_length, map_app, str_concat_app. cbn.
    by rewrite !str_app_assoc.
  - unfold write_response, write_message, status_line. cbn. by rewrite Hv.
Qed.

Lemma response_on_the_wire_witness :
  ∃ m', prepare_response {| res_version := 11; res_status := 200; res_reason := EmptyString;
      res_fields := [("Server", "SSVIM")]; res_body := "Hello World" |} = Ok m' ∧
    write_response m' = Ok (["HTTP/1.1 200 " +:+ CRLF +:+ "Server: SSVIM" +:+ CRLF +:+
      "Content-Length: 11" +:+ CRLF +:+ CRLF +:+ "Hello World"], false).
Proof.
  pose proof (response_on_the_wire {| res_version := 11; res_status := 200;
    res_reason := EmptyString; res_fields := [("Server", "SSVIM")];
    res_body := "Hello World" |}) as H.
  apply H; [done|]. split; [|split]; discriminate.
Defined.
