(* ===== verification/HttpParser.v ===== *)
(** * The parser of HTTP messages: beast::http::basic_parser_v1, parser_v1

    The state machine of [basic_parser_v1::write] (impl/basic_parser_v1.ipp) with
    [parser_v1] over a [string_body] (parser_v1.hpp) as the class it calls back,
    and the operations that feed it what a socket reads (impl/parse.ipp,
    impl/read.ipp).  One definition per state of the machine; a pointer into the
    buffer is an offset. *)

From S2P Require Import Prelude HttpMessage.

Local Open Scope Z_scope.

(** ** Characters (detail/rfc7230.hpp) *)

Definition is_text (c : ascii) : bool :=
  (code c =? 9) || ((32 <=? code c) && negb (code c =? 127)).
(** Lower case, NUL when not a token character. *)
Definition to_field_char (c : ascii) : ascii := if is_tchar c then tolower c else nul.
(** Lower case, NUL when not a text character. *)
Definition to_value_char (c : ascii) : ascii := if is_text c then tolower c else nul.
Definition unhex (c : ascii) : Z :=
  if is_digit_char c then code c - 48
  else if (65 <=? code c) && (code c <=? 70) then code c - 55
  else if (97 <=? code c) && (code c <=? 102) then code c - 87
  else -1.

(** ** The data of the parser *)

Inductive parse_error :=
| connection_closed
| bad_method | bad_uri | bad_version | bad_crlf
| bad_status | bad_reason
| bad_field | bad_value | bad_content_length | illegal_content_length
| invalid_chunk_size | invalid_ext_name | invalid_ext_val
| header_too_big | body_too_big | short_read.

(** [parse_flag] *)
Definition chunked : Z := 1.
Definition connection_keep_alive : Z := 2.
Definition connection_close : Z := 4.
Definition connection_upgrade : Z := 8.
Definition trailing : Z := 16.
Definition upgrade : Z := 32.
Definition skipbody : Z := 64.
Definition contentlength : Z := 128.
Definition paused : Z := 256.

Inductive body_what := bw_normal | bw_skip | bw_upgrade | bw_pause.

Definition no_content_length : Z := 2 ^ 64 - 1.

Inductive state :=
| s_dead
| s_req_start | s_req_method0 | s_req_method | s_req_url0 | s_req_url | s_req_http
| s_req_http_H | s_req_http_HT | s_req_http_HTT | s_req_http_HTTP | s_req_major
| s_req_dot | s_req_minor | s_req_cr | s_req_lf
| s_res_start | s_res_H | s_res_HT | s_res_HTT | s_res_HTTP | s_res_major | s_res_dot
| s_res_minor | s_res_space_1 | s_res_status0 | s_res_status1 | s_res_status2
| s_res_space_2 | s_res_reason0 | s_res_reason | s_res_line_lf | s_res_line_done
| s_header_name0 | s_header_name | s_header_value0_lf | s_header_value0_almost_done
| s_header_value0 | s_header_value | s_header_value_lf | s_header_value_almost_done
| s_header_value_unfold
| s_headers_almost_done | s_headers_done
| s_chunk_size0 | s_chunk_size | s_chunk_ext_name0 | s_chunk_ext_name | s_chunk_ext_val
| s_chunk_size_lf | s_chunk_data0 | s_chunk_data | s_chunk_data_cr | s_chunk_data_lf
| s_body_pause | s_body_identity0 | s_body_identity | s_body_identity_eof0
| s_body_identity_eof
| s_complete | s_restart | s_closed_complete.

Inductive field_state :=
| h_general | h_C | h_CO | h_CON
| h_matching_connection | h_matching_proxy_connection | h_matching_content_length
| h_matching_transfer_encoding | h_matching_upgrade
| h_connection | h_content_length0 | h_content_length | h_content_length_ows
| h_transfer_encoding | h_upgrade
| h_matching_transfer_encoding_chunked | h_matching_transfer_encoding_general
| h_matching_connection_keep_alive | h_matching_connection_close
| h_matching_connection_upgrade
| h_transfer_encoding_chunked | h_transfer_encoding_chunked_ows
| h_connection_keep_alive | h_connection_keep_alive_ows
| h_connection_close | h_connection_close_ows
| h_connection_upgrade | h_connection_upgrade_ows
| h_connection_token | h_connection_token_ows.

Definition is_content_length0 (f : field_state) : bool :=
  match f with h_content_length0 => true | _ => false end.
Definition is_h_upgrade (f : field_state) : bool :=
  match f with h_upgrade => true | _ => false end.

(** The callbacks [cb_] points to. *)
Inductive pmf :=
| call_on_method | call_on_uri | call_on_reason | call_on_field | call_on_value
| call_on_body.

(** The message being built; a request has no status and no reason, a response
    no method and no URL.  Members a constructor leaves uninitialised are 0. *)
Record message := {
  m_version : Z; m_status : Z; m_method : string; m_url : string; m_reason : string;
  m_fields : fields; m_body : string;
}.
(** The members of [parser_v1]; [r_] is whether the body's reader is there. *)
Record parser_v1 := {
  method_ : string; uri_ : string; reason_ : string;
  field_ : string; value_ : string; m_ : message; r_ : bool; skip_body_ : bool;
  flush_ : bool;
}.
(** The members of [basic_parser_v1], and the derived object. *)
Record parser := {
  h_max_ : Z; h_left_ : Z; b_max_ : Z; b_left_ : Z; content_length_ : Z;
  cb_ : option pmf; s_ : state; fs_ : field_state; pos_ : Z;
  http_major_ : Z; http_minor_ : Z; status_code_ : Z; flags_ : Z; upgrade_ : bool;
  derived : parser_v1;
}.
(** The variables of [write]: [begin], [p] and [ec], and the object. *)
Record ctx := { c_begin : nat; c_p : nat; c_ec : option parse_error; c_P : parser }.

(** *** Assignment to one member *)

Ltac set_field eta proj v r :=
  let e := eval unfold eta in (eta r) in
  match eval pattern (proj r) in e with
  | ?g _ => let e' := eval cbv beta in (g v) in exact e'
  end.

Definition message_eta (r : message) : message :=
  Build_message (m_version r) (m_status r) (m_method r) (m_url r) (m_reason r) (m_fields r)
    (m_body r).
Definition parser_v1_eta (r : parser_v1) : parser_v1 :=
  Build_parser_v1 (method_ r) (uri_ r) (reason_ r) (field_ r) (value_ r) (m_ r) (r_ r)
    (skip_body_ r) (flush_ r).
Definition parser_eta (r : parser) : parser :=
  Build_parser (h_max_ r) (h_left_ r) (b_max_ r) (b_left_ r) (content_length_ r) (cb_ r)
    (s_ r) (fs_ r) (pos_ r) (http_major_ r) (http_minor_ r) (status_code_ r) (flags_ r)
    (upgrade_ r) (derived r).
Definition ctx_eta (r : ctx) : ctx := Build_ctx (c_begin r) (c_p r) (c_ec r) (c_P r).

Definition set_m_version (v : Z) (r : message) : message :=
  ltac:(set_field message_eta m_version v r).
Definition set_m_status (v : Z) (r : message) : message :=
  ltac:(set_field message_eta m_status v r).
Definition set_m_method (v : string) (r : message) : message :=
  ltac:(set_field message_eta m_method v r).
Definition set_m_url (v : string) (r : message) : message :=
  ltac:(set_field message_eta m_url v r).
Definition set_m_reason (v : string) (r : message) : message :=
  ltac:(set_field message_eta m_reason v r).
Definition set_m_fields (v : fields) (r : message) : message :=
  ltac:(set_field message_eta m_fields v r).
Definition set_m_body (v : string) (r : message) : message :=
  ltac:(set_field message_eta m_body v r).

Definition set_method_ (v : string) (r : parser_v1) : parser_v1 :=
  ltac:(set_field parser_v1_eta method_ v r).
Definition set_uri_ (v : string) (r : parser_v1) : parser_v1 :=
  ltac:(set_field parser_v1_eta uri_ v r).
Definition set_reason_ (v : string) (r : parser_v1) : parser_v1 :=
  ltac:(set_field parser_v1_eta reason_ v r).
Definition set_field_ (v : string) (r : parser_v1) : parser_v1 :=
  ltac:(set_field parser_v1_eta field_ v r).
Definition set_value_ (v : string) (r : parser_v1) : parser_v1 :=
  ltac:(set_field parser_v1_eta value_ v r).
Definition set_m_ (v : message) (r : parser_v1) : parser_v1 :=
  ltac:(set_field parser_v1_eta m_ v r).
Definition set_r_ (v : bool) (r : parser_v1) : parser_v1 :=
  ltac:(set_field parser_v1_eta r_ v r).
Definition set_flush_ (v : bool) (r : parser_v1) : parser_v1 :=
  ltac:(set_field parser_v1_eta flush_ v r).

Definition set_h_left (v : Z) (r : parser) : parser := ltac:(set_field parser_eta h_left_ v r).
Definition set_b_left (v : Z) (r : parser) : parser := ltac:(set_field parser_eta b_left_ v r).
Definition set_content_length (v : Z) (r : parser) : parser :=
  ltac:(set_field parser_eta content_length_ v r).
Definition set_cb (v : option pmf) (r : parser) : parser :=
  ltac:(set_field parser_eta cb_ v r).
Definition set_s (v : state) (r : parser) : parser := ltac:(set_field parser_eta s_ v r).
Definition set_fs (v : field_state) (r : parser) : parser := ltac:(set_field parser_eta fs_ v r).
(** The members with a width in bits. *)
Definition set_pos (v : Z) (r : parser) : parser :=
  let w := v mod 2 ^ 8 in ltac:(set_field parser_eta pos_ w r).
Definition set_http_major (v : Z) (r : parser) : parser :=
  let w := v mod 2 ^ 16 in ltac:(set_field parser_eta http_major_ w r).
Definition set_http_minor (v : Z) (r : parser) : parser :=
  let w := v mod 2 ^ 16 in ltac:(set_field parser_eta http_minor_ w r).
Definition set_status_code (v : Z) (r : parser) : parser :=
  let w := v mod 2 ^ 16 in ltac:(set_field parser_eta status_code_ w r).
Definition set_flags (v : Z) (r : parser) : parser :=
  let w := v mod 2 ^ 9 in ltac:(set_field parser_eta flags_ w r).
Definition set_upgrade (v : bool) (r : parser) : parser :=
  ltac:(set_field parser_eta upgrade_ v r).
Definition set_derived (v : parser_v1) (r : parser) : parser :=
  ltac:(set_field parser_eta derived v r).

Definition set_begin (v : nat) (r : ctx) : ctx := ltac:(set_field ctx_eta c_begin v r).
Definition set_p (v : nat) (r : ctx) : ctx := ltac:(set_field ctx_eta c_p v r).
Definition set_ec (v : option parse_error) (r : ctx) : ctx := ltac:(set_field ctx_eta c_ec v r).
Definition set_P (v : parser) (r : ctx) : ctx := ltac:(set_field ctx_eta c_P v r).

(** ** The code of [write] as state passing *)

Notation M := (ST ctx).

Definition getP : M parser := x ← st_get; mret (c_P x).
Definition updP (f : parser → parser) : M unit := st_modify (λ x, set_P (f (c_P x)) x).
Definition updD (f : parser_v1 → parser_v1) : M unit :=
  updP (λ P, set_derived (f (derived P)) P).
Definition BOOST_ASSERT (b : bool) (what : string) : M unit :=
  if b then mret tt else st_throw (AssertionFailed what).

(** How an arm of the switch ends: [break], [goto redo] or [return used()]. *)
Inductive flow := Break | Redo | Return.

Definition goto (s : state) : M flow := _ ← updP (set_s s); mret Break.
Definition redo (s : state) : M flow := _ ← updP (set_s s); mret Redo.
(** [err(ev)] and [errc()] *)
Definition err (ev : parse_error) : M flow :=
  _ ← st_modify (set_ec (Some ev)); _ ← updP (set_s s_dead); mret Return.
Definition errc : M flow := _ ← updP (set_s s_dead); mret Return.
(** [if(ec) return errc();] *)
Definition if_ec (k : M flow) : M flow :=
  x ← st_get; match c_ec x with Some _ => errc | None => k end.

Definition set_flag (f : Z) : M unit := updP (λ P, set_flags (Z.lor (flags_ P) f) P).
Definition has_flag (f : Z) (P : parser) : bool := negb (Z.land (flags_ P) f =? 0).

(** *** What the derived class does (parser_v1.hpp, string_body.hpp) *)

Definition flush : M unit :=
  P ← getP;
  let d := derived P in
  if negb (flush_ d) then mret tt else
  _ ← updD (set_flush_ false);
  _ ← BOOST_ASSERT (negb (String.eqb (field_ d) EmptyString)) "! field_.empty()";
  updD (λ d, set_value_ EmptyString (set_field_ EmptyString
    (set_m_ (set_m_fields (fields_insert (field_ d) (value_ d) (m_fields (m_ d))) (m_ d)) d))).

Definition on_start : M unit := mret tt.
Definition on_method (s : string) : M unit := updD (λ d, set_method_ (method_ d +:+ s) d).
Definition on_uri (s : string) : M unit := updD (λ d, set_uri_ (uri_ d +:+ s) d).
Definition on_reason (s : string) : M unit := updD (λ d, set_reason_ (reason_ d +:+ s) d).
(** [std::move] leaves the strings empty. *)
Definition on_request : M unit :=
  updD (λ d, set_method_ EmptyString (set_uri_ EmptyString
    (set_m_ (set_m_url (uri_ d) (set_m_method (method_ d) (m_ d))) d))).
Definition on_response : M unit :=
  P ← getP;
  updD (λ d, set_reason_ EmptyString
    (set_m_ (set_m_reason (reason_ d) (set_m_status (status_code_ P) (m_ d))) d)).
Definition on_field (s : string) : M unit :=
  _ ← flush; updD (λ d, set_field_ (field_ d +:+ s) d).
Definition on_value (s : string) : M unit :=
  updD (λ d, set_flush_ true (set_value_ (value_ d +:+ s) d)).
Definition on_header : M unit :=
  _ ← flush;
  P ← getP;
  updD (λ d, set_m_ (set_m_version (10 * http_major_ P + http_minor_ P) (m_ d)) d).
Definition on_body_what : M body_what :=
  P ← getP;
  if skip_body_ (derived P) then mret bw_skip else
  _ ← updD (set_r_ true); mret bw_normal.
(** [string_body::reader::write] *)
Definition reader_write (s : string) : M unit :=
  updD (λ d, set_m_ (set_m_body (m_body (m_ d) +:+ s) (m_ d)) d).
Definition on_body (s : string) : M unit :=
  P ← getP;
  _ ← BOOST_ASSERT (r_ (derived P)) "this->is_initialized()";
  reader_write s.
Definition on_complete : M unit := mret tt.

(** *** The calls of the base class (basic_parser_v1.hpp) *)

Definition within_header (s : string) (k : M unit) : M unit :=
  P ← getP;
  if negb (h_max_ P =? 0) && (h_left_ P <? strlenZ s)
  then st_modify (set_ec (Some header_too_big)) else
  _ ← updP (λ P, set_h_left (u64 (h_left_ P - strlenZ s)) P); k.
Definition within_body (s : string) (k : M unit) : M unit :=
  P ← getP;
  if negb (b_max_ P =? 0) && (b_left_ P <? strlenZ s)
  then st_modify (set_ec (Some body_too_big)) else
  _ ← updP (λ P, set_b_left (u64 (b_left_ P - strlenZ s)) P); k.

Definition call_on_start : M unit := on_start.
Definition call_on_complete : M unit := on_complete.
Definition call_on_headers : M unit := on_header.
Definition call_on_body_what : M body_what := on_body_what.

(** The strings of [detail::parser_str], and the character at an index of their
    arrays, the terminating NUL included. *)
Definition str_close : string := "close".
Definition str_chunked : string := "chunked".
Definition str_keep_alive : string := "keep-alive".
Definition str_upgrade : string := "upgrade".
Definition str_connection : string := "connection".
Definition str_content_length : string := "content-length".
Definition str_proxy_connection : string := "proxy-connection".
Definition str_transfer_encoding : string := "transfer-encoding".
Definition str_index (s : string) (i : Z) : M ascii :=
  match char_at (s +:+ str1 nul) (Z.to_nat i) with
  | Some c => mret c
  | None => st_throw (UndefinedBehavior "index out of the array")
  end.

Section Parser.
Context (isRequest : bool).

Definition call_on_method_ (s : string) : M unit :=
  if isRequest then within_header s (on_method s) else mret tt.
Definition call_on_uri_ (s : string) : M unit :=
  if isRequest then within_header s (on_uri s) else mret tt.
Definition call_on_reason_ (s : string) : M unit :=
  if isRequest then mret tt else within_header s (on_reason s).
Definition call_on_request : M unit := if isRequest then on_request else mret tt.
Definition call_on_response : M unit := if isRequest then mret tt else on_response.
Definition call_on_field_ (s : string) : M unit := within_header s (on_field s).
Definition call_on_value_ (s : string) : M unit := within_header s (on_value s).
Definition call_on_body_ (s : string) : M unit := within_body s (on_body s).

(** [(this->*f)(ec, s)] *)
Definition call_pmf (f : pmf) (s : string) : M unit :=
  match f with
  | call_on_method => call_on_method_ s
  | call_on_uri => call_on_uri_ s
  | call_on_reason => call_on_reason_ s
  | call_on_field => call_on_field_ s
  | call_on_value => call_on_value_ s
  | call_on_body => call_on_body_ s
  end.

(** *** The parser's own operations *)

Definition reset (P : parser) : parser :=
  set_s (if isRequest then s_req_start else s_res_start)
    (set_b_left (b_max_ P) (set_h_left (h_max_ P) (set_cb None P))).
Definition needs_eof (P : parser) : bool :=
  if isRequest then false else
  if (Z.quot (status_code_ P) 100 =? 1) || (status_code_ P =? 204) ||
     (status_code_ P =? 304) || has_flag skipbody P then false else
  if has_flag chunked P || negb (content_length_ P =? no_content_length) then false
  else true.
Definition keep_alive (P : parser) : bool :=
  if (1 <=? http_major_ P) && (1 <=? http_minor_ P) then
    if has_flag connection_close P then false else negb (needs_eof P)
  else
    if negb (has_flag connection_keep_alive P) then false else negb (needs_eof P).
Definition complete (P : parser) : bool :=
  match s_ P with s_restart | s_closed_complete => true | _ => has_flag paused P end.

Definition message_new : message :=
  {| m_version := 0; m_status := 0; m_method := EmptyString; m_url := EmptyString;
     m_reason := EmptyString; m_fields := []; m_body := EmptyString |}.
Definition parser_v1_new : parser_v1 :=
  {| method_ := EmptyString; uri_ := EmptyString; reason_ := EmptyString;
     field_ := EmptyString; value_ := EmptyString; m_ := message_new; r_ := false;
     skip_body_ := false; flush_ := false |}.
(** A header of at most 16KB; a request's body of at most 4MB. *)
Definition init : parser :=
  let b_max := if isRequest then 4 * 1024 * 1024 else 0 in
  reset
    {| h_max_ := 16 * 1024; h_left_ := 0; b_max_ := b_max; b_left_ := 0;
       content_length_ := 0; cb_ := None; s_ := s_dead; fs_ := h_general; pos_ := 0;
       http_major_ := 0; http_minor_ := 0; status_code_ := 0; flags_ := 0;
       upgrade_ := false; derived := parser_v1_new |}.

(** ** The state machine

    [data] is the buffer. *)

Section Write.
Context (data : string).

Definition size : nat := String.length data.

Definition piece : M string :=
  x ← st_get; mret (str_take (c_p x - c_begin x) (str_drop (c_begin x) data)).
(** The lambda [cb]: true for an error. *)
Definition cb (next : option pmf) : M bool :=
  x ← st_get;
  failed ← match cb_ (c_P x) with
           | Some f =>
               if (c_p x =? c_begin x)%nat then mret false else
               s ← piece;
               _ ← call_pmf f s;
               x ← st_get;
               mret (match c_ec x with Some _ => true | None => false end)
           | None => mret false
           end;
  if (failed : bool) then mret true else
  _ ← updP (set_cb next);
  match next with
  | Some _ => _ ← st_modify (λ x, set_begin (c_p x) x); mret false
  | None => mret false
  end.
(** [BOOST_ASSERT(! cb_); cb(next);] *)
Definition assert_no_cb : M unit :=
  P ← getP; BOOST_ASSERT (match cb_ P with None => true | Some _ => false end) "! cb_".
Definition begin_cb (next : pmf) : M unit := _ ← assert_no_cb; _ ← cb (Some next); mret tt.
(** [if(cb(nullptr)) return errc(); s_ = next; break;] *)
Definition end_cb (next : state) : M flow :=
  e ← cb None; if (e : bool) then errc else goto next.

(** [p += n - 1;] a pointer before the buffer is undefined. *)
Definition advance (n : nat) : M unit :=
  x ← st_get;
  match (c_p x + n)%nat with
  | O => st_throw (UndefinedBehavior "pointer before the buffer")
  | S q => st_put (set_p q x)
  end.
Definition next_char : M unit := advance 2.

(** *** The request line *)

(** [if(ch != c) return err(ev); s_ = next; break;] *)
Definition expect (c : ascii) (ev : parse_error) (next : state) (ch : ascii) : M flow :=
  if negb (Ascii.eqb ch c) then err ev else goto next.

Definition at_req_start : M flow :=
  _ ← updP (set_flags 0);
  _ ← updP (set_cb None);
  _ ← updP (set_content_length no_content_length);
  redo s_req_method0.
Definition at_req_method0 (ch : ascii) : M flow :=
  if negb (is_tchar ch) then err bad_method else
  _ ← call_on_start;
  if_ec (_ ← begin_cb call_on_method; goto s_req_method).
Definition at_req_method (ch : ascii) : M flow :=
  if Ascii.eqb ch " " then end_cb s_req_url0 else
  if negb (is_tchar ch) then err bad_method else mret Break.
Definition at_req_url0 (ch : ascii) : M flow :=
  if Ascii.eqb ch " " then err bad_uri else
  if negb (is_text ch) then err bad_uri else
  _ ← begin_cb call_on_uri; goto s_req_url.
Definition at_req_url (ch : ascii) : M flow :=
  if Ascii.eqb ch " " then end_cb s_req_http else
  if negb (is_text ch) then err bad_uri else mret Break.
Definition at_major (next : state) (ch : ascii) : M flow :=
  if negb (is_digit_char ch) then err bad_version else
  _ ← updP (set_http_major (code ch - 48)); goto next.
Definition at_minor (next : state) (ch : ascii) : M flow :=
  if negb (is_digit_char ch) then err bad_version else
  _ ← updP (set_http_minor (code ch - 48)); goto next.
Definition at_req_lf (ch : ascii) : M flow :=
  if negb (Ascii.eqb ch nl) then err bad_crlf else
  _ ← call_on_request;
  if_ec (goto s_header_name0).

(** *** The status line *)

Definition at_res_start (ch : ascii) : M flow :=
  _ ← updP (set_flags 0);
  _ ← updP (set_cb None);
  _ ← updP (set_content_length no_content_length);
  if negb (Ascii.eqb ch "H") then err bad_version else
  _ ← call_on_start;
  if_ec (goto s_res_H).
Definition at_res_status0 (ch : ascii) : M flow :=
  if negb (is_digit_char ch) then err bad_status else
  _ ← updP (set_status_code (code ch - 48)); goto s_res_status1.
Definition at_res_status (next : state) (ch : ascii) : M flow :=
  if negb (is_digit_char ch) then err bad_status else
  _ ← updP (λ P, set_status_code (status_code_ P * 10 + code ch - 48) P); goto next.
Definition at_res_reason0 (ch : ascii) : M flow :=
  if Ascii.eqb ch cr then goto s_res_line_lf else
  if negb (is_text ch) then err bad_reason else
  _ ← begin_cb call_on_reason; goto s_res_reason.
Definition at_res_reason (ch : ascii) : M flow :=
  if Ascii.eqb ch cr then end_cb s_res_line_lf else
  if negb (is_text ch) then err bad_reason else mret Break.
Definition at_res_line_done : M flow :=
  _ ← call_on_response;
  if_ec (redo s_header_name0).

(** *** Header names *)

Definition goto_fs (f : field_state) : M flow := _ ← updP (set_fs f); mret Break.
(** [pos_ = 0; fs_ = f;] *)
Definition start_matching (f : field_state) : M flow :=
  _ ← updP (set_pos 0); goto_fs f.
Definition incr_pos : M unit := updP (λ P, set_pos (pos_ P + 1) P).
(** [++pos_; if(c != str[pos_]) fs_ = miss; else if(pos_ == sizeof(str)-2) hit]:
    the array of [str] has a terminating NUL. *)
Definition matching (str : string) (miss : field_state) (hit : M flow) (c : ascii) : M flow :=
  _ ← incr_pos;
  P ← getP;
  d ← str_index str (pos_ P);
  if negb (Ascii.eqb c d) then goto_fs miss
  else if pos_ P =? strlenZ str + 1 - 2 then hit
  else mret Break.

Definition at_header_name0 (ch : ascii) : M flow :=
  if Ascii.eqb ch cr then goto s_headers_almost_done else
  let c := to_field_char ch in
  if Ascii.eqb c nul then err bad_field else
  _ ← (if Ascii.eqb c "c" then start_matching h_C
       else if Ascii.eqb c "p" then start_matching h_matching_proxy_connection
       else if Ascii.eqb c "t" then start_matching h_matching_transfer_encoding
       else if Ascii.eqb c "u" then start_matching h_matching_upgrade
       else goto_fs h_general);
  _ ← begin_cb call_on_field;
  goto s_header_name.

(** The switch on [fs_] for one character of a name. *)
Definition name_char (c : ascii) : M flow :=
  P ← getP;
  match fs_ P with
  | h_C => _ ← incr_pos; goto_fs (if Ascii.eqb c "o" then h_CO else h_general)
  | h_CO => _ ← incr_pos; goto_fs (if Ascii.eqb c "n" then h_CON else h_general)
  | h_CON =>
      _ ← incr_pos;
      goto_fs (if Ascii.eqb c "n" then h_matching_connection
               else if Ascii.eqb c "t" then h_matching_content_length else h_general)
  | h_matching_connection =>
      matching str_connection h_general (goto_fs h_connection) c
  | h_matching_proxy_connection =>
      matching str_proxy_connection h_general (goto_fs h_connection) c
  | h_matching_content_length =>
      matching str_content_length h_general
        (P ← getP;
         if has_flag contentlength P then err bad_content_length
         else goto_fs h_content_length0) c
  | h_matching_transfer_encoding =>
      matching str_transfer_encoding h_general (goto_fs h_transfer_encoding) c
  | h_matching_upgrade => matching str_upgrade h_general (goto_fs h_upgrade) c
  | h_connection | h_content_length0 | h_transfer_encoding | h_upgrade =>
      goto_fs h_general
  | _ => mret Break
  end.

(** The loop over a name, and what follows it. *)
Fixpoint name_loop (fuel : nat) : M flow :=
  match fuel with
  | O => st_throw OutOfFuel
  | S fuel =>
      x ← st_get;
      match char_at data (c_p x) with
      | None => _ ← advance 0; mret Break
      | Some ch =>
          let c := to_field_char ch in
          if Ascii.eqb c nul then
            if Ascii.eqb ch ":" then end_cb s_header_value0 else err bad_field
          else
            f ← name_char c;
            match f with
            | Return => mret Return
            | _ => _ ← next_char; name_loop fuel
            end
      end
  end.
Definition at_header_name : M flow :=
  x ← st_get; name_loop (S (size - c_p x)).

(** *** Header values *)

Definition token_fs (f : field_state) (ch : ascii) : M flow :=
  if is_tchar ch then goto_fs f else err bad_value.

(** The switch on [fs_] for one character of a value: the [Connection] field. *)
Definition connection_char (ch c : ascii) : M flow :=
  if Ascii.eqb c "k" then start_matching h_matching_connection_keep_alive
  else if Ascii.eqb c "c" then start_matching h_matching_connection_close
  else if Ascii.eqb c "u" then start_matching h_matching_connection_upgrade
  else if is_ows ch || Ascii.eqb ch "," then mret Break
  else token_fs h_connection_token ch.
(** A complete option: it counts when a comma follows. *)
Definition option_char (flag : Z) (ows : field_state) (ch : ascii) : M flow :=
  if Ascii.eqb ch "," then _ ← updP (set_fs h_connection); _ ← set_flag flag; mret Break
  else if is_ows ch then goto_fs ows
  else token_fs h_connection_token ch.
Definition option_ows_char (flag : Z) (ch : ascii) : M flow :=
  if Ascii.eqb ch "," then _ ← updP (set_fs h_connection); _ ← set_flag flag; mret Break
  else if is_ows ch then mret Break
  else err bad_value.

(** [Content-Length] *)
Definition content_length_char0 (ch : ascii) : M flow :=
  if negb (is_digit_char ch) then err bad_content_length else
  _ ← updP (set_content_length (code ch - 48)); goto_fs h_content_length.
Definition content_length_char (ch : ascii) : M flow :=
  if is_ows ch then goto_fs h_content_length_ows else
  if negb (is_digit_char ch) then err bad_content_length else
  P ← getP;
  if (no_content_length - 10) / 10 <? content_length_ P then err bad_content_length else
  _ ← updP (set_content_length (u64 (content_length_ P * 10 + code ch - 48))); mret Break.

(** [Transfer-Encoding] *)
Definition transfer_encoding_char (c : ascii) : M flow :=
  if Ascii.eqb c "c" then start_matching h_matching_transfer_encoding_chunked
  else if negb (is_ows c) && negb (Ascii.eqb c ",")
  then goto_fs h_matching_transfer_encoding_general
  else mret Break.

Definition value_char (ch c : ascii) : M flow :=
  P ← getP;
  match fs_ P with
  | h_connection => connection_char ch c
  | h_matching_connection_keep_alive =>
      matching str_keep_alive h_connection_token (goto_fs h_connection_keep_alive) c
  | h_matching_connection_close =>
      matching str_close h_connection_token (goto_fs h_connection_close) c
  | h_matching_connection_upgrade =>
      matching str_upgrade h_connection_token (goto_fs h_connection_upgrade) c
  | h_connection_close => option_char connection_close h_connection_close_ows ch
  | h_connection_close_ows => option_ows_char connection_close ch
  | h_connection_keep_alive =>
      option_char connection_keep_alive h_connection_keep_alive_ows ch
  | h_connection_keep_alive_ows => option_ows_char connection_keep_alive ch
  | h_connection_upgrade => option_char connection_upgrade h_connection_upgrade_ows ch
  | h_connection_upgrade_ows => option_ows_char connection_upgrade ch
  | h_connection_token =>
      if Ascii.eqb ch "," then goto_fs h_connection
      else if is_ows ch then goto_fs h_connection_token_ows
      else if negb (is_tchar ch) then err bad_value else mret Break
  | h_connection_token_ows =>
      if Ascii.eqb ch "," then goto_fs h_connection
      else if is_ows ch then mret Break
      else err bad_value
  | h_content_length0 => content_length_char0 ch
  | h_content_length => content_length_char ch
  | h_content_length_ows => if negb (is_ows ch) then err bad_content_length else mret Break
  | h_transfer_encoding => transfer_encoding_char c
  | h_matching_transfer_encoding_chunked =>
      matching str_chunked h_matching_transfer_encoding_general
        (goto_fs h_transfer_encoding_chunked) c
  | h_matching_transfer_encoding_general =>
      if Ascii.eqb c "," then goto_fs h_transfer_encoding else mret Break
  | h_transfer_encoding_chunked =>
      if negb (is_ows c) && negb (Ascii.eqb c ",") then goto_fs h_transfer_encoding
      else mret Break
  | h_upgrade => _ ← set_flag upgrade; goto_fs h_general
  | _ => mret Break
  end.

(** The loop over a value. *)
Fixpoint value_loop (fuel : nat) : M flow :=
  match fuel with
  | O => st_throw OutOfFuel
  | S fuel =>
      x ← st_get;
      match char_at data (c_p x) with
      | None => _ ← advance 0; mret Break
      | Some ch =>
          if Ascii.eqb ch cr then end_cb s_header_value_lf else
          let c := to_value_char ch in
          if Ascii.eqb c nul then err bad_value else
          f ← value_char ch c;
          match f with
          | Return => mret Return
          | _ => _ ← next_char; value_loop fuel
          end
      end
  end.
Definition at_header_value : M flow :=
  x ← st_get; value_loop (S (size - c_p x)).

Definition at_header_value0 (ch : ascii) : M flow :=
  if is_ows ch then mret Break else
  if Ascii.eqb ch cr then goto s_header_value0_lf else
  P ← getP;
  _ ← (if is_content_length0 (fs_ P)
       then _ ← updP (set_content_length 0); set_flag contentlength else mret tt);
  _ ← begin_cb call_on_value;
  _ ← updP (set_s s_header_value);
  at_header_value.
Definition at_header_value0_almost_done (ch : ascii) : M flow :=
  if is_ows ch then goto s_header_value0 else
  P ← getP;
  if is_content_length0 (fs_ P) then err bad_content_length else
  _ ← (if is_h_upgrade (fs_ P) then set_flag upgrade else mret tt);
  _ ← assert_no_cb;
  _ ← call_on_value_ EmptyString;
  if_ec (redo s_header_name0).

(** The value goes on in the next line. *)
Definition folded_fs (f : field_state) : field_state :=
  match f with
  | h_matching_connection_keep_alive | h_matching_connection_close
  | h_matching_connection_upgrade => h_connection_token_ows
  | h_connection_close => h_connection_close_ows
  | h_connection_keep_alive => h_connection_keep_alive_ows
  | h_connection_upgrade => h_connection_upgrade_ows
  | h_content_length => h_content_length_ows
  | h_matching_transfer_encoding_chunked => h_matching_transfer_encoding_general
  | f => f
  end.
(** The flag a value that has ended adds. *)
Definition value_flag (f : field_state) : option Z :=
  match f with
  | h_connection_keep_alive | h_connection_keep_alive_ows => Some connection_keep_alive
  | h_connection_close | h_connection_close_ows => Some connection_close
  | h_connection_upgrade | h_connection_upgrade_ows => Some connection_upgrade
  | h_transfer_encoding_chunked | h_transfer_encoding_chunked_ows => Some chunked
  | _ => None
  end.
(** What [call_on_value] does to [ec] here is not looked at. *)
Definition at_header_value_almost_done (ch : ascii) : M flow :=
  if is_ows ch then
    _ ← updP (λ P, set_fs (folded_fs (fs_ P)) P);
    _ ← call_on_value_ " ";
    goto s_header_value_unfold
  else
    P ← getP;
    _ ← match value_flag (fs_ P) with Some f => set_flag f | None => mret tt end;
    redo s_header_name0.
Definition at_header_value_unfold : M flow :=
  _ ← begin_cb call_on_value; redo s_header_value.

(** *** The end of the header *)

Definition has_body (P : parser) : bool :=
  has_flag chunked P ||
  ((0 <? content_length_ P) && negb (content_length_ P =? no_content_length)).
Definition at_headers_done : M flow :=
  _ ← assert_no_cb;
  if_ec (
    P ← getP;
    if upgrade_ P && (has_flag skipbody P || negb (has_body P)) then redo s_complete
    else if has_flag skipbody P || (content_length_ P =? 0) then redo s_complete
    else if has_flag chunked P then goto s_chunk_size0
    else if negb (content_length_ P =? no_content_length) then goto s_body_identity0
    else if negb (needs_eof P) then redo s_complete
    else goto s_body_identity_eof0).

(** [upgrade_ = true; flags_ |= parse_flag::skipbody;] *)
Definition body_upgrade : M unit := _ ← updP (set_upgrade true); set_flag skipbody.
Definition upgrade_wanted (P : parser) : bool :=
  Z.land (flags_ P) (Z.lor upgrade connection_upgrade) =? Z.lor upgrade connection_upgrade.
Definition at_headers_almost_done (ch : ascii) : M flow :=
  if negb (Ascii.eqb ch nl) then err bad_crlf else
  P ← getP;
  if has_flag trailing P then redo s_complete else
  if has_flag chunked P && has_flag contentlength P then err illegal_content_length else
  _ ← updP (set_upgrade (upgrade_wanted P));
  _ ← call_on_headers;
  if_ec (
    what ← call_on_body_what;
    if_ec (
      match what with
      | bw_normal => redo s_headers_done
      | bw_upgrade => _ ← body_upgrade; redo s_headers_done
      | bw_skip => _ ← set_flag skipbody; redo s_headers_done
      | bw_pause =>
          _ ← next_char; _ ← updP (set_s s_body_pause); _ ← set_flag paused; mret Return
      end)).
Definition at_body_pause : M flow :=
  what ← call_on_body_what;
  if_ec (
    let resume := _ ← advance 0; _ ← updP (set_s s_headers_done); at_headers_done in
    match what with
    | bw_normal => resume
    | bw_upgrade => _ ← body_upgrade; resume
    | bw_skip => _ ← set_flag skipbody; resume
    | bw_pause => mret Return
    end).

(** *** Bodies *)

(** The bytes of the body the buffer has at [p]. *)
Definition available (x : ctx) : nat :=
  if Z.of_nat (size - c_p x) <? content_length_ (c_P x) then size - c_p x
  else Z.to_nat (content_length_ (c_P x)).
Definition at_body_identity : M flow :=
  x ← st_get;
  let n := available x in
  _ ← BOOST_ASSERT (negb (content_length_ (c_P x) =? 0) &&
                    negb (content_length_ (c_P x) =? no_content_length))
        "content_length_ != 0 && content_length_ != no_content_length";
  _ ← updP (λ P, set_content_length (u64 (content_length_ P - Z.of_nat n)) P);
  P ← getP;
  _ ← advance n;
  if content_length_ P =? 0 then redo s_complete else mret Break.
Definition at_body_identity0 : M flow :=
  _ ← begin_cb call_on_body; _ ← updP (set_s s_body_identity); at_body_identity.
(** [p = end - 1;] *)
Definition at_body_identity_eof : M flow :=
  x ← st_get; _ ← advance (size - c_p x); mret Break.
Definition at_body_identity_eof0 : M flow :=
  _ ← begin_cb call_on_body; _ ← updP (set_s s_body_identity_eof); at_body_identity_eof.

Definition at_chunk_size0 (ch : ascii) : M flow :=
  let v := unhex ch in
  if v =? -1 then err invalid_chunk_size else
  _ ← updP (set_content_length v); goto s_chunk_size.
Definition at_chunk_size (ch : ascii) : M flow :=
  if Ascii.eqb ch cr then goto s_chunk_size_lf else
  if Ascii.eqb ch ";" then goto s_chunk_ext_name0 else
  let v := unhex ch in
  if v =? -1 then err invalid_chunk_size else
  P ← getP;
  if (no_content_length - 16) / 16 <? content_length_ P then err bad_content_length else
  _ ← updP (set_content_length (u64 (content_length_ P * 16 + v))); mret Break.
Definition at_chunk_ext_name0 (ch : ascii) : M flow :=
  if negb (is_tchar ch) then err invalid_ext_name else goto s_chunk_ext_name.
Definition at_chunk_ext_name (ch : ascii) : M flow :=
  if Ascii.eqb ch cr then goto s_chunk_size_lf else
  if Ascii.eqb ch "=" then goto s_chunk_ext_val else
  if Ascii.eqb ch ";" then goto s_chunk_ext_name0 else
  if negb (is_tchar ch) then err invalid_ext_name else mret Break.
Definition at_chunk_ext_val (ch : ascii) : M flow :=
  if Ascii.eqb ch cr then goto s_chunk_size_lf else mret Break.
Definition at_chunk_size_lf (ch : ascii) : M flow :=
  if negb (Ascii.eqb ch nl) then err bad_crlf else
  P ← getP;
  if content_length_ P =? 0 then _ ← set_flag trailing; goto s_header_name0
  else goto s_chunk_data0.
Definition at_chunk_data0 : M flow := _ ← begin_cb call_on_body; redo s_chunk_data.
Definition at_chunk_data : M flow :=
  x ← st_get;
  let n := available x in
  _ ← updP (λ P, set_content_length (u64 (content_length_ P - Z.of_nat n)) P);
  _ ← advance n;
  P ← getP;
  if content_length_ P =? 0 then goto s_chunk_data_cr else mret Break.
Definition at_chunk_data_cr (ch : ascii) : M flow :=
  if negb (Ascii.eqb ch cr) then err bad_crlf else end_cb s_chunk_data_lf.
Definition at_chunk_data_lf (ch : ascii) : M flow :=
  if negb (Ascii.eqb ch nl) then err bad_crlf else goto s_chunk_size0.

(** *** The end of the message *)

Definition at_complete : M flow :=
  _ ← next_char;
  e ← cb None;
  if (e : bool) then errc else
  _ ← call_on_complete;
  if_ec (_ ← updP (set_s s_restart); mret Return).
Definition at_restart : M flow :=
  P ← getP;
  _ ← updP (if keep_alive P then reset else set_s s_dead);
  mret Redo.

(** *** The switch and the loop *)

Definition step (ch : ascii) : M flow :=
  P ← getP;
  match s_ P with
  | s_dead | s_closed_complete => err connection_closed
  | s_req_start => at_req_start
  | s_req_method0 => at_req_method0 ch
  | s_req_method => at_req_method ch
  | s_req_url0 => at_req_url0 ch
  | s_req_url => at_req_url ch
  | s_req_http => expect "H" bad_version s_req_http_H ch
  | s_req_http_H => expect "T" bad_version s_req_http_HT ch
  | s_req_http_HT => expect "T" bad_version s_req_http_HTT ch
  | s_req_http_HTT => expect "P" bad_version s_req_http_HTTP ch
  | s_req_http_HTTP => expect "/" bad_version s_req_major ch
  | s_req_major => at_major s_req_dot ch
  | s_req_dot => expect "." bad_version s_req_minor ch
  | s_req_minor => at_minor s_req_cr ch
  | s_req_cr => expect cr bad_version s_req_lf ch
  | s_req_lf => at_req_lf ch
  | s_res_start => at_res_start ch
  | s_res_H => expect "T" bad_version s_res_HT ch
  | s_res_HT => expect "T" bad_version s_res_HTT ch
  | s_res_HTT => expect "P" bad_version s_res_HTTP ch
  | s_res_HTTP => expect "/" bad_version s_res_major ch
  | s_res_major => at_major s_res_dot ch
  | s_res_dot => expect "." bad_version s_res_minor ch
  | s_res_minor => at_minor s_res_space_1 ch
  | s_res_space_1 => expect " " bad_version s_res_status0 ch
  | s_res_status0 => at_res_status0 ch
  | s_res_status1 => at_res_status s_res_status2 ch
  | s_res_status2 => at_res_status s_res_space_2 ch
  | s_res_space_2 => expect " " bad_status s_res_reason0 ch
  | s_res_reason0 => at_res_reason0 ch
  | s_res_reason => at_res_reason ch
  | s_res_line_lf => expect nl bad_crlf s_res_line_done ch
  | s_res_line_done => at_res_line_done
  | s_header_name0 => at_header_name0 ch
  | s_header_name => at_header_name
  | s_header_value0 => at_header_value0 ch
  | s_header_value => at_header_value
  | s_header_value0_lf => expect nl bad_crlf s_header_value0_almost_done ch
  | s_header_value0_almost_done => at_header_value0_almost_done ch
  | s_header_value_lf => expect nl bad_crlf s_header_value_almost_done ch
  | s_header_value_almost_done => at_header_value_almost_done ch
  | s_header_value_unfold => at_header_value_unfold
  | s_headers_almost_done => at_headers_almost_done ch
  | s_body_pause => at_body_pause
  | s_headers_done => at_headers_done
  | s_body_identity0 => at_body_identity0
  | s_body_identity => at_body_identity
  | s_body_identity_eof0 => at_body_identity_eof0
  | s_body_identity_eof => at_body_identity_eof
  | s_chunk_size0 => at_chunk_size0 ch
  | s_chunk_size => at_chunk_size ch
  | s_chunk_ext_name0 => at_chunk_ext_name0 ch
  | s_chunk_ext_name => at_chunk_ext_name ch
  | s_chunk_ext_val => at_chunk_ext_val ch
  | s_chunk_size_lf => at_chunk_size_lf ch
  | s_chunk_data0 => at_chunk_data0
  | s_chunk_data => at_chunk_data
  | s_chunk_data_cr => at_chunk_data_cr ch
  | s_chunk_data_lf => at_chunk_data_lf ch
  | s_complete => at_complete
  | s_restart => at_restart
  end.

(** [for(;p != end;++p)]; with [at_redo] the control is at the label [redo]. *)
Fixpoint write_loop (fuel : nat) (at_redo : option ascii) : M flow :=
  match fuel with
  | O => st_throw OutOfFuel
  | S fuel =>
      x ← st_get;
      match (match at_redo with Some ch => Some ch | None => char_at data (c_p x) end) with
      | None => mret Break
      | Some ch =>
          f ← step ch;
          match f with
          | Break => _ ← next_char; write_loop fuel None
          | Redo => write_loop fuel (Some ch)
          | Return => mret Return
          end
      end
  end.
(** At most three arms run for a character. *)
Definition write_fuel : nat := 4 * size + 1.

(** The loop, and the callback for what is left of the buffer. *)
Definition write_body : M flow :=
  f ← write_loop write_fuel None;
  match f with
  | Return => mret Return
  | _ =>
      P ← getP;
      match cb_ P with
      | Some g => s ← piece; _ ← call_pmf g s; if_ec (mret Return)
      | None => mret Return
      end
  end.

End Write.

(** What a call of [write] gives: the number of bytes it used, the error, which
    callers pass in clear, and the parser. *)
Definition written : Type := nat * option parse_error * parser.
Definition write (data : string) (P : parser) : outcome written :=
  if (size data =? 0)%nat && (match s_ P with s_dead => false | _ => true end)
  then Ok (0%nat, None, P) else
  '(_, x) ← write_body data {| c_begin := 0; c_p := 0; c_ec := None; c_P := P |};
  Ok (c_p x, c_ec x, c_P x).

Definition write_eof (P : parser) : outcome (option parse_error * parser) :=
  match s_ P with
  | s_restart => Ok (None, set_s s_closed_complete P)
  | s_dead | s_closed_complete => Ok (None, P)
  | s_body_identity_eof0 | s_body_identity_eof =>
      '(_, x) ← (_ ← updP (set_cb None); call_on_complete)
        {| c_begin := 0; c_p := 0; c_ec := None; c_P := P |};
      match c_ec x with
      | Some e => Ok (Some e, set_s s_dead (c_P x))
      | None => Ok (None, set_s s_closed_complete (c_P x))
      end
  | _ => Ok (Some short_read, set_s s_dead P)
  end.

(** ** Reading from a socket (impl/parse.ipp, impl/read.ipp) *)

(** What the socket gives a read. *)
Inductive read_result := Got (bytes : string) | Eof | ReadError (what : string).
(** The error an operation ends with. *)
Inductive read_error := ParseError (e : parse_error) | EndOfFile | SocketError (what : string).

(** [parse_op]: the dynamic buffer, the parser and [got_some], until the handler
    is called with the error, if any. *)
Record parse_data := { db : string; op_parser : parser; got_some : bool }.
Inductive parse_op := Reading (d : parse_data) | Parsed (ec : option read_error) (d : parse_data).

(** State 0. *)
Definition parse_start (buffer : string) (P : parser) : outcome parse_op :=
  if complete P then Fail (AssertionFailed "! p.complete()") else
  '(used, ec, P) ← write buffer P;
  match ec with
  | Some e => Ok (Parsed (Some (ParseError e)) {| db := buffer; op_parser := P; got_some := false |})
  | None =>
      let d := {| db := str_drop used buffer; op_parser := P; got_some := (0 <? used)%nat |} in
      if complete P then Ok (Parsed None d) else
      if negb (String.length (db d) =? 0)%nat
      then Fail (AssertionFailed "d.db.size() == 0") else
      Ok (Reading d)
  end.
(** State 2, and state 1 again. *)
Definition parse_read (d : parse_data) (r : read_result) : outcome parse_op :=
  match r with
  | Eof =>
      if negb (got_some d) then Ok (Parsed (Some EndOfFile) d) else
      '(ec, P) ← write_eof (op_parser d);
      let d := {| db := db d; op_parser := P; got_some := got_some d |} in
      match ec with
      | Some e => Ok (Parsed (Some (ParseError e)) d)
      | None =>
          if complete P then Ok (Parsed None d)
          else Fail (AssertionFailed "ec || d.p.complete()")
      end
  | ReadError what => Ok (Parsed (Some (SocketError what)) d)
  | Got bytes =>
      if (String.length bytes =? 0)%nat then Fail (AssertionFailed "bytes_transferred > 0") else
      '(used, ec, P) ← write (db d +:+ bytes) (op_parser d);
      match ec with
      | Some e =>
          Ok (Parsed (Some (ParseError e))
                {| db := db d +:+ bytes; op_parser := P; got_some := got_some d |})
      | None =>
          if (used =? 0)%nat then Fail (AssertionFailed "used > 0") else
          let d := {| db := str_drop used (db d +:+ bytes); op_parser := P; got_some := true |} in
          if complete P then Ok (Parsed None d) else
          if negb (used =? String.length bytes)%nat
          then Fail (AssertionFailed "used == bytes_transferred") else
          Ok (Reading d)
      end
  end.
(** The reads the operation makes, one after the other. *)
Fixpoint parse_reads (op : parse_op) (reads : list read_result) : outcome parse_op :=
  match op, reads with
  | Reading d, r :: reads => op ← parse_read d r; parse_reads op reads
  | _, _ => Ok op
  end.

(** [read_op]: the message it gives the caller, the error, and what the buffer
    has left; [None] while it waits for the socket. *)
Definition async_read (buffer : string) (reads : list read_result)
    : outcome (option (message + read_error) * string) :=
  op ← parse_start buffer init;
  op ← parse_reads op reads;
  match op with
  | Reading d => Ok (None, db d)
  | Parsed None d => Ok (Some (inl (m_ (derived (op_parser d)))), db d)
  | Parsed (Some e) d => Ok (Some (inr e), db d)
  end.

End Parser.

(** The messages of the two kinds. *)
Definition to_request (m : message) : request :=
  {| req_version := m_version m; req_method := m_method m; req_url := m_url m;
     req_fields := m_fields m; req_body := m_body m |}.
Definition to_response (m : message) : response :=
  {| res_version := m_version m; res_status := m_status m; res_reason := m_reason m;
     res_fields := m_fields m; res_body := m_body m |}.
