(* ===== verification/HttpParserSafe.v ===== *)
(** * The HTTP parser is total and keeps its contract

    The invariant of the parser between the arms of its switch, and what follows:
    no assertion of the code fails, no index or pointer leaves its array, the loop
    ends, and a call of [write] uses all it is given unless it reports an error or
    the end of the message, which is what [parse_op] asserts. *)

From Stdlib Require Import ZifyBool.
From S2P Require Import Prelude HttpMessage HttpParser.

Local Open Scope Z_scope.

(** ** Weakest preconditions of the state passing *)

Definition wp {A} (m : M A) (Q : A → ctx → Prop) (x : ctx) : Prop :=
  match m x with Ok (a, x') => Q a x' | Fail _ => False end.

Lemma wp_bind {A B} (m : M A) (k : A → M B) Q x :
  wp m (λ a x, wp (k a) Q x) x → wp (m ≫= k) Q x.
Proof.
  unfold wp. change ((m ≫= k) x) with (match m x with Ok (a, s') => k a s' | Fail f => Fail f end).
  by destruct (m x) as [[a x']|f].
Qed.
Lemma wp_mono {A} (m : M A) (Q R : A → ctx → Prop) x :
  wp m Q x → (∀ a x, Q a x → R a x) → wp m R x.
Proof. unfold wp. destruct (m x) as [[a x']|f]; [|done]. auto. Qed.
Lemma wp_ret {A} (a : A) Q x : Q a x → wp (mret a) Q x.
Proof. done. Qed.
Lemma wp_get Q x : Q x x → wp (st_get : M ctx) Q x.
Proof. done. Qed.
Lemma wp_getP Q x : Q (c_P x) x → wp getP Q x.
Proof. done. Qed.
Lemma wp_modify f Q x : Q tt (f x) → wp (st_modify f : M unit) Q x.
Proof. done. Qed.
Lemma wp_updP f Q x : Q tt (set_P (f (c_P x)) x) → wp (updP f) Q x.
Proof. done. Qed.
Lemma wp_assert b what Q x : b = true → Q tt x → wp (BOOST_ASSERT b what) Q x.
Proof. by intros ->. Qed.
Lemma wp_if {A} (b : bool) (m m' : M A) Q x :
  (b = true → wp m Q x) → (b = false → wp m' Q x) → wp (if b then m else m') Q x.
Proof. destruct b; auto. Qed.
Lemma wp_if_ec k Q x :
  (c_ec x = None → wp k Q x) →
  (∀ e, c_ec x = Some e → Q Return (set_P (set_s s_dead (c_P x)) x)) → wp (if_ec k) Q x.
Proof.
  intros Hk He. unfold if_ec. apply wp_bind, wp_get. destruct (c_ec x) as [e|] eqn:E; [|auto].
  by apply He with e.
Qed.
Lemma wp_advance n Q x :
  (0 < c_p x + n)%nat → Q tt (set_p (c_p x + n - 1) x) → wp (advance n) Q x.
Proof.
  intros Hp H. unfold advance. apply wp_bind, wp_get.
  destruct (c_p x + n)%nat as [|q] eqn:E; [lia|].
  change (Q tt (set_p q x)). by replace q with (S q - 1)%nat by lia.
Qed.

Lemma wp_goto s Q x : Q Break (set_P (set_s s (c_P x)) x) → wp (goto s) Q x.
Proof. done. Qed.
Lemma wp_redo s Q x : Q Redo (set_P (set_s s (c_P x)) x) → wp (redo s) Q x.
Proof. done. Qed.
Lemma wp_goto_fs f Q x : Q Break (set_P (set_fs f (c_P x)) x) → wp (goto_fs f) Q x.
Proof. done. Qed.
Lemma wp_errc Q x : Q Return (set_P (set_s s_dead (c_P x)) x) → wp errc Q x.
Proof. done. Qed.
Lemma wp_err e Q x :
  Q Return (set_P (set_s s_dead (c_P x)) (set_ec (Some e) x)) → wp (err e) Q x.
Proof. done. Qed.
Lemma wp_set_flag f Q x :
  Q tt (set_P (set_flags (Z.lor (flags_ (c_P x)) f) (c_P x)) x) → wp (set_flag f) Q x.
Proof. done. Qed.

Ltac wp_step :=
  lazymatch goal with
  | |- wp (mbind _ _) _ _ => apply wp_bind
  | |- wp (mret _) _ _ => apply wp_ret
  | |- wp getP _ _ => apply wp_getP
  | |- wp st_get _ _ => apply wp_get
  | |- wp (updP _) _ _ => apply wp_updP
  | |- wp (updD _) _ _ => apply wp_updP
  | |- wp (st_modify _) _ _ => apply wp_modify
  | |- wp (goto _) _ _ => apply wp_goto
  | |- wp (redo _) _ _ => apply wp_redo
  | |- wp (goto_fs _) _ _ => apply wp_goto_fs
  | |- wp errc _ _ => apply wp_errc
  | |- wp (err _) _ _ => apply wp_err
  | |- wp (set_flag _) _ _ => apply wp_set_flag
  | |- wp (if_ec _) _ _ => apply wp_if_ec; [intros ?|intros ? ?]
  | |- wp (if _ then _ else _) _ _ => apply wp_if; intros ?
  end;
  cbn [c_P c_p c_begin c_ec set_P set_p set_ec set_begin].
Ltac wp_steps := repeat wp_step.

(** ** The invariant *)

(** What the position in a string to match is for a state of the field. *)
Definition pos_ok (f : field_state) (pos : Z) : Prop :=
  match f with
  | h_C => pos = 0 | h_CO => pos = 1 | h_CON => pos = 2
  | h_matching_connection => 3 ≤ pos < 9
  | h_matching_proxy_connection => 0 ≤ pos < 15
  | h_matching_content_length => 3 ≤ pos < 13
  | h_matching_transfer_encoding => 0 ≤ pos < 16
  | h_matching_upgrade | h_matching_connection_upgrade => 0 ≤ pos < 6
  | h_matching_transfer_encoding_chunked => 0 ≤ pos < 6
  | h_matching_connection_keep_alive => 0 ≤ pos < 9
  | h_matching_connection_close => 0 ≤ pos < 4
  | _ => True
  end.

Definition named (P : parser) : Prop := field_ (derived P) ≠ EmptyString.
Definition has_reader (P : parser) : Prop := r_ (derived P) = true.

(** The bytes of the header, handed over or in the message, and the limits on
    them and on the body. *)
Definition fields_size (fs : fields) : Z :=
  foldr (λ nv z, strlenZ nv.1 + strlenZ nv.2 + z) 0 fs.
Definition message_size (m : message) : Z :=
  strlenZ (m_method m) + strlenZ (m_url m) + strlenZ (m_reason m) + fields_size (m_fields m).
Definition header_size (d : parser_v1) : Z :=
  strlenZ (method_ d) + strlenZ (uri_ d) + strlenZ (reason_ d) + strlenZ (field_ d) +
  strlenZ (value_ d) + message_size (m_ d).
Record budget (h_max h_left b_max b_left : Z) (d : parser_v1) : Prop := {
  bu_max : 0 ≤ h_max < 2 ^ 64 ∧ 0 ≤ b_max < 2 ^ 64;
  bu_header : h_max ≠ 0 → 0 ≤ h_left ∧ h_left + header_size d ≤ h_max;
  bu_body : b_max ≠ 0 → 0 ≤ b_left ∧ b_left + strlenZ (m_body (m_ d)) ≤ b_max;
}.

(** What each state says of the callback, the field and the body. *)
Definition state_ok (P : parser) : Prop :=
  match s_ P with
  | s_dead => True
  | s_req_method => cb_ P = Some call_on_method
  | s_req_url => cb_ P = Some call_on_uri
  | s_res_reason => cb_ P = Some call_on_reason
  | s_header_name => cb_ P = Some call_on_field
  | s_header_value => cb_ P = Some call_on_value ∧ named P
  | s_header_value0_lf | s_header_value0_almost_done | s_header_value0
  | s_header_value_lf | s_header_value_almost_done | s_header_value_unfold =>
      cb_ P = None ∧ named P
  | s_headers_done => cb_ P = None ∧ (has_reader P ∨ has_flag skipbody P = true)
  | s_chunk_size0 | s_chunk_size | s_chunk_ext_name0 | s_chunk_ext_name
  | s_chunk_ext_val | s_chunk_size_lf | s_chunk_data_lf | s_body_identity_eof0 =>
      cb_ P = None ∧ has_reader P
  | s_chunk_data0 => cb_ P = None ∧ has_reader P ∧ content_length_ P ≠ 0
  | s_chunk_data => cb_ P = Some call_on_body ∧ content_length_ P ≠ 0
  | s_chunk_data_cr | s_body_identity_eof => cb_ P = Some call_on_body
  | s_body_identity0 =>
      cb_ P = None ∧ has_reader P ∧ content_length_ P ≠ 0 ∧
      content_length_ P ≠ no_content_length
  | s_body_identity =>
      cb_ P = Some call_on_body ∧ content_length_ P ≠ 0 ∧
      content_length_ P ≠ no_content_length
  | s_complete => cb_ P = None ∨ cb_ P = Some call_on_body
  | s_body_pause => False
  | _ => cb_ P = None
  end.

(** The limits of the parser the program uses. *)
Definition header_limit : Z := 16 * 1024.
Definition body_limit (isRequest : bool) : Z := if isRequest then 4 * 1024 * 1024 else 0.

Section Invariant.
Context (isRequest : bool).

Record general_ok (P : parser) : Prop := {
  ok_limits : h_max_ P = header_limit ∧ b_max_ P = body_limit isRequest;
  ok_flush : flush_ (derived P) = true → named P;
  ok_reader : cb_ P = Some call_on_body → has_reader P;
  ok_length : 0 ≤ content_length_ P < 2 ^ 64;
  ok_pos : s_ P ≠ s_dead → pos_ok (fs_ P) (pos_ P);
  ok_flags : 0 ≤ flags_ P < 2 ^ 8;
  ok_budget : budget (h_max_ P) (h_left_ P) (b_max_ P) (b_left_ P) (derived P);
}.
(** The invariant of a parser between two calls of [write]. *)
Definition parser_ok (P : parser) : Prop :=
  general_ok P ∧ state_ok P ∧
  (s_ P = s_header_name → named P ∧ flush_ (derived P) = false).

(** The states in which a message is being parsed. *)
Definition live (s : state) : bool :=
  match s with s_dead | s_restart | s_closed_complete => false | _ => true end.
(** The invariant in the loop: a name whose first piece has not been handed over
    is in the buffer before [p]. *)
Definition name_ok (x : ctx) : Prop :=
  s_ (c_P x) = s_header_name →
  (named (c_P x) ∧ flush_ (derived (c_P x)) = false) ∨ (c_begin x < c_p x)%nat.
Record loop_ok (x : ctx) : Prop := {
  lo_general : general_ok (c_P x);
  lo_state : state_ok (c_P x);
  lo_name : name_ok x;
  lo_begin : (c_begin x ≤ c_p x)%nat;
  lo_live : live (s_ (c_P x)) = true;
}.

(** The arms still to run for the same character. *)
Definition rank (s : state) : nat :=
  match s with
  | s_restart | s_headers_almost_done => 3
  | s_req_start | s_headers_done | s_header_value0_almost_done
  | s_header_value_almost_done | s_header_value_unfold | s_res_line_done
  | s_chunk_data0 | s_body_identity | s_body_identity0 => 2
  | _ => 1
  end.

(** What a step of the loop leaves. *)
Definition step_post (data : string) (x : ctx) (f : flow) (x' : ctx) : Prop :=
  match f with
  | Break => (c_p x ≤ c_p x' < size data)%nat ∧ loop_ok (set_p (S (c_p x')) x')
  | Redo =>
      (c_p x ≤ c_p x' < size data)%nat ∧ loop_ok x' ∧ (rank (s_ (c_P x')) < rank (s_ (c_P x)))%nat
  | Return =>
      (c_p x' ≤ size data)%nat ∧ parser_ok (c_P x') ∧
      (c_ec x' = None → s_ (c_P x') = s_restart ∧ (c_p x < c_p x')%nat)
  end.

(** *** The callbacks *)

(** [P] after a callback: the limits and the derived object changed. *)
Definition after (h b : Z) (d : parser_v1) (P : parser) : parser :=
  set_derived d (set_b_left b (set_h_left h P)).

Lemma after_same P : after (h_left_ P) (b_left_ P) (derived P) P = P.
Proof. by destruct P. Qed.

(** What a callback does to the derived object. *)
Record delivered (f : pmf) (P : parser) (h b : Z) (d : parser_v1) : Prop := {
  dl_flush : flush_ d = true → field_ d ≠ EmptyString;
  dl_reader : r_ d = r_ (derived P);
  dl_field : f ≠ call_on_field → field_ d = field_ (derived P);
  dl_budget : budget (h_max_ P) h (b_max_ P) b d;
}.

Lemma fields_size_app fs gs : fields_size (fs ++ gs) = fields_size fs + fields_size gs.
Proof. induction fs as [|nv fs IH]; cbn; [done|]. unfold fields_size in *. lia. Qed.
Lemma fields_size_nonneg fs : 0 ≤ fields_size fs.
Proof.
  induction fs as [|[n v] fs IH]; [done|]. cbn. unfold fields_size in IH.
  pose proof (strlenZ_nonneg n). pose proof (strlenZ_nonneg v). lia.
Qed.
Lemma strlenZ_trim s : strlenZ (trim s) ≤ strlenZ s.
Proof.
  assert (∀ s, strlenZ (trim_right s) ≤ strlenZ s) as Hr.
  { clear. induction s as [|c s IH]; [done|]. cbn [trim_right].
    destruct (trim_right s); [destruct (is_ows c)|]; cbn in *;
      pose proof (strlenZ_nonneg s); lia. }
  unfold trim, skip_ows. destruct (str_span is_ows s) as [a b] eqn:E.
  apply str_span_app in E. cbn. rewrite E, strlenZ_app.
  pose proof (strlenZ_nonneg a). pose proof (Hr b). lia.
Qed.
Lemma fields_size_insert n v fs :
  fields_size (fields_insert n v fs) ≤ fields_size fs + strlenZ n + strlenZ v.
Proof.
  unfold fields_insert. rewrite fields_size_app. cbn. pose proof (strlenZ_trim v). lia.
Qed.
Lemma header_size_nonneg d : 0 ≤ header_size d.
Proof.
  unfold header_size, message_size. pose proof (fields_size_nonneg (m_fields (m_ d))).
  repeat match goal with |- context [strlenZ ?t] =>
    lazymatch goal with H : 0 ≤ strlenZ t |- _ => fail | _ => pose proof (strlenZ_nonneg t) end
  end.
  lia.
Qed.
(** The object is as large as it was. *)
Lemma budget_le hm hl bm bl d d' :
  budget hm hl bm bl d → header_size d' ≤ header_size d →
  strlenZ (m_body (m_ d')) ≤ strlenZ (m_body (m_ d)) → budget hm hl bm bl d'.
Proof. intros [Hm Hh Hb] ? ?. split; [done| |]; intros Hn; [apply Hh in Hn|apply Hb in Hn]; lia. Qed.
Lemma budget_body hm hl bm bl d d' s :
  budget hm hl bm bl d → (bm ≠ 0 → strlenZ s ≤ bl) → header_size d' = header_size d →
  m_body (m_ d') = m_body (m_ d) +:+ s → budget hm hl bm (u64 (bl - strlenZ s)) d'.
Proof.
  intros [Hm Hh Hb] Hs Eh Eb. split; [done|by rewrite Eh|]. intros Hn.
  pose proof (Hb Hn). pose proof (Hs Hn). pose proof (strlenZ_nonneg s).
  pose proof (strlenZ_nonneg (m_body (m_ d))). rewrite Eb, strlenZ_app.
  unfold u64. rewrite Z.mod_small; lia.
Qed.
(** A piece of the header has been handed over. *)
Lemma budget_header hm hl bm bl d d' s :
  budget hm hl bm bl d → (hm ≠ 0 → strlenZ s ≤ hl) →
  header_size d' ≤ header_size d + strlenZ s →
  strlenZ (m_body (m_ d')) ≤ strlenZ (m_body (m_ d)) →
  budget hm (u64 (hl - strlenZ s)) bm bl d'.
Proof.
  intros [Hm Hh Hb] Hs ? ?. split; [done| |]; intros Hn; [|apply Hb in Hn; lia].
  pose proof (Hh Hn). pose proof (Hs Hn). pose proof (strlenZ_nonneg s).
  pose proof (header_size_nonneg d). pose proof (header_size_nonneg d').
  unfold u64. rewrite Z.mod_small; lia.
Qed.

Lemma within_header_wp s k Q x :
  Q tt (set_ec (Some header_too_big) x) →
  ((h_max_ (c_P x) ≠ 0 → strlenZ s ≤ h_left_ (c_P x)) →
   wp k Q (set_P (set_h_left (u64 (h_left_ (c_P x) - strlenZ s)) (c_P x)) x)) →
  wp (within_header s k) Q x.
Proof.
  intros He Hk. apply wp_bind, wp_getP, wp_if; intros E; [exact He|].
  apply wp_bind, wp_updP. apply Hk. lia.
Qed.
Lemma within_body_wp s k Q x :
  Q tt (set_ec (Some body_too_big) x) →
  ((b_max_ (c_P x) ≠ 0 → strlenZ s ≤ b_left_ (c_P x)) →
   wp k Q (set_P (set_b_left (u64 (b_left_ (c_P x) - strlenZ s)) (c_P x)) x)) →
  wp (within_body s k) Q x.
Proof.
  intros He Hk. apply wp_bind, wp_getP, wp_if; intros E; [exact He|].
  apply wp_bind, wp_updP. apply Hk. lia.
Qed.
Lemma flush_wp Q x :
  (flush_ (derived (c_P x)) = true → named (c_P x)) →
  (flush_ (derived (c_P x)) = false → Q tt x) →
  (∀ d, flush_ d = false → field_ d = EmptyString → r_ d = r_ (derived (c_P x)) →
     header_size d ≤ header_size (derived (c_P x)) → m_body (m_ d) = m_body (m_ (derived (c_P x))) →
     flush_ (derived (c_P x)) = true → Q tt (set_P (set_derived d (c_P x)) x)) →
  wp flush Q x.
Proof.
  intros Hn Hf Ht. apply wp_bind, wp_getP, wp_if; intros E.
  - apply wp_ret, Hf. by destruct (flush_ _).
  - assert (flush_ (derived (c_P x)) = true) as Ef by by destruct (flush_ _).
    apply wp_bind, wp_updP, wp_bind, wp_assert.
    + apply negb_true_iff, String.eqb_neq, Hn, Ef.
    + apply wp_updP. cbn [c_P set_P derived set_derived]. apply Ht; try done.
      unfold header_size, message_size.
      cbn -[fields_size fields_insert strlenZ]. change (strlenZ EmptyString) with 0.
      pose proof (fields_size_insert (field_ (derived (c_P x))) (value_ (derived (c_P x)))
        (m_fields (m_ (derived (c_P x))))). lia.
Qed.

Lemma call_pmf_wp f s x Q :
  budget (h_max_ (c_P x)) (h_left_ (c_P x)) (b_max_ (c_P x)) (b_left_ (c_P x))
    (derived (c_P x)) →
  (flush_ (derived (c_P x)) = true → named (c_P x)) →
  (f = call_on_body → has_reader (c_P x)) → (f = call_on_value → named (c_P x)) →
  (∀ e, Q tt (set_ec (Some e) x)) →
  (∀ h b d, delivered f (c_P x) h b d →
     (f = call_on_field → s ≠ EmptyString ∨ (named (c_P x) ∧ flush_ (derived (c_P x)) = false) →
      field_ d ≠ EmptyString ∧ flush_ d = false) →
     Q tt (set_P (after h b d (c_P x)) x)) →
  wp (call_pmf isRequest f s) Q x.
Proof.
  intros Hbu Hf Hb Hv He Hok. destruct x as [bg p ec P]. cbn in *.
  assert (f ≠ call_on_field → Q () {| c_begin := bg; c_p := p; c_ec := ec; c_P := P |}) as Hid.
  { intros Hn. specialize (Hok (h_left_ P) (b_left_ P) (derived P)).
    rewrite after_same in Hok. by apply Hok. }
  destruct f; cbn [call_pmf];
    unfold call_on_method_, call_on_uri_, call_on_reason_, call_on_field_, call_on_value_,
      call_on_body_;
    [destruct isRequest; [|by apply Hid]|destruct isRequest; [|by apply Hid]
    |destruct isRequest; [by apply Hid|]| | |];
    (apply within_header_wp || apply within_body_wp); try apply He;
    cbn [c_P set_P set_ec].
  1-3: intros Hs; apply wp_updP; apply (Hok _ (b_left_ P)); [|done]; split; try done; cbn;
    eapply budget_header; [exact Hbu|exact Hs| |done];
    unfold header_size; cbn; rewrite strlenZ_app; lia.
  - intros Hs. apply wp_bind, flush_wp; [done|intros E|intros d Ed Ef Er Eh Em Ht];
      apply wp_updP; apply (Hok _ (b_left_ P)); cbn in *.
    + split; cbn; [congruence|done|done|].
      eapply budget_header; [exact Hbu|exact Hs| |done].
      unfold header_size; cbn; rewrite strlenZ_app; lia.
    + intros _ Hne. split; [|done].
      destruct Hne as [Hne|[Hne _]]; [by destruct (field_ (derived P)), s|].
      unfold named in Hne. cbn in Hne. by destruct (field_ (derived P)).
    + split; cbn; [congruence|done|done|].
      eapply budget_header; [exact Hbu|exact Hs| |cbn; by rewrite Em].
      unfold header_size in *; cbn in *; rewrite strlenZ_app; lia.
    + intros _ [Hne|[_ Hne]]; [|congruence]. rewrite Ef. split; [by destruct s|done].
  - intros Hs. apply wp_updP. apply (Hok _ (b_left_ P)); [|done]. split; cbn; try done.
    + intros _. by apply Hv.
    + eapply budget_header; [exact Hbu|exact Hs| |done].
      unfold header_size; cbn; rewrite strlenZ_app; lia.
  - intros Hs. apply wp_bind, wp_getP, wp_bind, wp_assert; [by apply Hb|].
    apply wp_updP. apply (Hok (h_left_ P) _); [|done]. split; cbn; try done.
    by apply (budget_body _ _ _ _ (derived P)).
Qed.

Lemma str_sub_nonempty i j s :
  (i < j)%nat → (j ≤ String.length s)%nat → str_take (j - i) (str_drop i s) ≠ EmptyString.
Proof.
  revert i j; induction s as [|c s IH]; intros i j H Hl; cbn in Hl; [lia|].
  destruct i as [|i]; cbn [str_drop].
  - destruct j as [|j]; [lia|done].
  - destruct j as [|j]; [lia|]. apply (IH i j); lia.
Qed.

(** The field's name has been handed over, with this piece or before. *)
Definition name_done (f : pmf) (d : parser_v1) : Prop :=
  f = call_on_field → field_ d ≠ EmptyString ∧ flush_ d = false.

Lemma cb_none_wp data f x (Q : bool → ctx → Prop) :
  general_ok (c_P x) → cb_ (c_P x) = Some f → (f = call_on_value → named (c_P x)) →
  (c_begin x ≤ c_p x ≤ size data)%nat →
  (f = call_on_field → (c_begin x < c_p x)%nat ∨ (named (c_P x) ∧ flush_ (derived (c_P x)) = false)) →
  (∀ e h b d, delivered f (c_P x) h b d →
     Q true (set_ec (Some e) (set_P (after h b d (c_P x)) x))) →
  (∀ h b d, delivered f (c_P x) h b d → name_done f d →
     Q false (set_P (set_cb None (after h b d (c_P x))) x)) →
  wp (cb isRequest data None) Q x.
Proof.
  intros Hg Hcb Hv Hp Hn Ht Hf. destruct Hg as [_ G1 G2 _ _ _ G6].
  unfold cb. apply wp_bind, wp_get. rewrite Hcb. apply wp_bind, wp_if; intros E.
  - apply Nat.eqb_eq in E. apply wp_ret, wp_bind, wp_updP, wp_ret.
    specialize (Hf (h_left_ (c_P x)) (b_left_ (c_P x)) (derived (c_P x))).
    rewrite after_same in Hf. apply Hf.
    + by split.
    + intros ->. destruct Hn as [?|[? ?]]; [done|lia|]. by split.
  - apply Nat.eqb_neq in E. apply wp_bind. unfold piece. apply wp_bind, wp_get, wp_ret.
    apply wp_bind, call_pmf_wp; [done|done|by intros ->; auto|done| |].
    + intros e. apply wp_bind, wp_get, wp_ret. cbn.
      specialize (Ht e (h_left_ (c_P x)) (b_left_ (c_P x)) (derived (c_P x))).
      rewrite after_same in Ht. apply wp_ret. destruct x. apply Ht. by split.
    + intros h b d Hd Hne. apply wp_bind, wp_get, wp_ret.
      cbn [c_ec set_P]. destruct (c_ec x) as [e|] eqn:Ee.
      * apply wp_ret. specialize (Ht e h b d Hd). destruct x; cbn in *. by subst.
      * apply wp_bind, wp_updP, wp_ret. apply Hf; [done|].
        intros Hf'. apply Hne; [done|]. left. apply str_sub_nonempty; unfold size in Hp; lia.
Qed.

Lemma cb_quiet_wp data x (Q : bool → ctx → Prop) :
  cb_ (c_P x) = None → Q false (set_P (set_cb None (c_P x)) x) → wp (cb isRequest data None) Q x.
Proof.
  intros Hcb HQ. unfold cb. apply wp_bind, wp_get. rewrite Hcb.
  apply wp_bind, wp_ret, wp_bind, wp_updP, wp_ret, HQ.
Qed.

Lemma begin_cb_wp data f x (Q : unit → ctx → Prop) :
  cb_ (c_P x) = None →
  Q tt (set_begin (c_p x) (set_P (set_cb (Some f) (c_P x)) x)) →
  wp (begin_cb isRequest data f) Q x.
Proof.
  intros Hcb HQ. unfold begin_cb, assert_no_cb.
  apply wp_bind, wp_bind, wp_getP, wp_assert; [by rewrite Hcb|].
  apply wp_bind. unfold cb. apply wp_bind, wp_get. rewrite Hcb.
  apply wp_bind, wp_ret, wp_bind, wp_updP, wp_bind, wp_modify, wp_ret, wp_ret. exact HQ.
Qed.

(** *** The arms of the switch *)


Lemma lor_range a b : 0 ≤ a < 2 ^ 8 → 0 ≤ b < 2 ^ 8 → 0 ≤ Z.lor a b < 2 ^ 8.
Proof.
  intros Ha Hb. split; [apply Z.lor_nonneg; lia|].
  assert (∀ z, 0 ≤ z < 2 ^ 8 → Z.log2 z < 8) as Hl.
  { intros z Hz. destruct (Z.eq_dec z 0) as [->|]; [reflexivity|].
    apply Z.log2_lt_pow2; lia. }
  destruct (Z.eq_dec (Z.lor a b) 0) as [->|Hn]; [lia|].
  assert (0 ≤ Z.lor a b) by (apply Z.lor_nonneg; lia).
  apply Z.log2_lt_pow2; [lia|]. rewrite Z.log2_lor by lia.
  by apply Z.max_lub_lt; apply Hl.
Qed.
Lemma flags_range a b : 0 ≤ a < 2 ^ 8 → 0 ≤ b < 2 ^ 8 → 0 ≤ Z.lor a b mod 2 ^ 9 < 2 ^ 8.
Proof. intros Ha Hb. pose proof (lor_range a b Ha Hb). rewrite Z.mod_small; lia. Qed.
Lemma has_flag_set g P :
  0 ≤ flags_ P < 2 ^ 8 → 0 < g < 2 ^ 8 →
  has_flag g (set_flags (Z.lor (flags_ P) g) P) = true.
Proof.
  intros Hf Hg. unfold has_flag. cbn [flags_ set_flags].
  pose proof (lor_range (flags_ P) g Hf ltac:(lia)). rewrite Z.mod_small by lia.
  replace (Z.land _ g) with g; [lia|]. apply Z.bits_inj'. intros n _.
  rewrite Z.land_spec, Z.lor_spec. by destruct (Z.testbit (flags_ P) n), (Z.testbit g n).
Qed.
Lemma digit_value c : is_digit_char c = true → 0 ≤ code c - 48 < 10.
Proof. unfold is_digit_char. lia. Qed.
Lemma unhex_bound c : unhex c = -1 ∨ 0 ≤ unhex c < 16.
Proof. unfold unhex, is_digit_char. repeat case_match; lia. Qed.

Lemma u64_bound z : 0 ≤ u64 z < 2 ^ 64.
Proof. unfold u64. by apply Z.mod_pos_bound. Qed.
Lemma pos_ok_folded f pos : pos_ok f pos → pos_ok (folded_fs f) pos.
Proof. by destruct f. Qed.
Lemma value_flag_range f g : value_flag f = Some g → 0 ≤ g < 2 ^ 8.
Proof. by destruct f; intros [= <-]. Qed.

Ltac ok_simpl :=
  unfold state_ok in *; unfold name_ok, named, has_reader, name_done in *;
  cbn [c_P c_p c_begin c_ec set_P set_p set_ec set_begin] in *; cbn in *;
  repeat match goal with E : s_ ?P = _ |- context [s_ ?P] => rewrite E end; cbn.
Ltac ok_solve :=
  ok_simpl; first [done | lia | congruence | intuition (congruence || lia)].
Ltac pos_tac :=
  repeat match goal with E : fs_ _ = _ |- _ => rewrite E end; cbn;
  repeat match goal with E : pos_ _ = _ |- _ => rewrite E end; cbn;
  rewrite ?Z.mod_small by lia; lia.
Ltac general_tac :=
  match goal with H : general_ok _ |- _ => destruct H as [?G ?G ?G ?G ?G ?G ?G] end;
  match goal with
  | G : s_ ?P ≠ s_dead → _ |- _ => try (specialize (G ltac:(congruence)))
  end;
  constructor; cbn; first
    [ assumption | done | apply u64_bound
    | by apply flags_range
    | eapply budget_le; [eassumption|apply Z.le_refl|apply Z.le_refl] | ok_solve | intros _; pos_tac ].
Ltac live_tac :=
  cbn; repeat match goal with E : s_ ?P = _ |- context [s_ ?P] => rewrite E end; reflexivity.
(** The end of an arm. *)
Ltac arm_end :=
  lazymatch goal with
  | |- step_post _ _ Break _ =>
      split; [cbn; lia|]; constructor; [general_tac|ok_solve|intros ?; ok_solve|cbn; lia|live_tac]
  | |- step_post _ _ Redo _ =>
      split; [cbn; lia|];
      split; [constructor; [general_tac|ok_solve|intros ?; ok_solve|cbn; lia|live_tac]|];
      match goal with E : s_ ?P = _ |- _ => cbn; rewrite E; cbn; lia end
  | |- step_post _ _ Return _ =>
      split; [cbn; lia|];
      split; [split; [general_tac|split; [ok_solve|intros ?; ok_solve]]|intros ?; ok_solve]
  end.
Ltac arm_start :=
  intros [bg p ec P] [Hg Hs Hn Hb Hlive] Hp E; cbn [c_P c_p c_begin c_ec] in *;
  unfold state_ok in Hs; rewrite E in Hs;
  repeat match goal with H : _ ∧ _ |- _ => destruct H end.

(** An arm keeps the invariant and moves on. *)
Definition arm_ok (data : string) (s : state) (m : M flow) : Prop :=
  ∀ x, loop_ok x → (c_p x < size data)%nat → s_ (c_P x) = s → wp m (step_post data x) x.

Section Steps.
Context (data : string).

Ltac arm_unfold :=
  unfold expect, at_req_start, at_req_method0, at_req_method, at_req_url0, at_req_url,
    at_major, at_minor, at_req_lf, at_res_start, at_res_status0, at_res_status,
    at_res_reason0, at_res_reason, at_res_line_done, call_on_start, on_start,
    call_on_request, on_request, call_on_response, on_response,
    at_header_name0, at_header_value_almost_done, at_header_value_unfold, 
    at_chunk_size0, at_chunk_size, at_chunk_ext_name0, at_chunk_ext_name, at_chunk_ext_val,
    at_chunk_size_lf, at_chunk_data0, at_chunk_data_cr, at_chunk_data_lf, at_headers_done,
    call_on_complete, on_complete, start_matching, assert_no_cb, next_char, end_cb.
Ltac wp_cbn := cbn [c_P c_p c_begin c_ec set_P set_p set_ec set_begin].
Ltac intro_delivered Hd :=
  let Hf := fresh "Hfield" in
  destruct Hd as [? ? Hf ?]; try (specialize (Hf ltac:(done))).
Ltac exact_budget :=
  match goal with H : general_ok _ |- _ => exact (ok_budget _ H) end.
Ltac wp_more :=
  first
    [ wp_step
    | apply wp_advance; [cbn; lia|]; wp_cbn
    | apply wp_assert; [cbn; match goal with H : cb_ _ = None |- _ => by rewrite H end|]
    | apply begin_cb_wp; [ok_solve|]; wp_cbn
    | apply cb_quiet_wp; [cbn; assumption|]; wp_cbn
    | eapply cb_none_wp;
      [ eassumption || general_tac | first [eassumption|ok_solve] | ok_solve | cbn; lia | ok_solve
      | intros ? ? ? ? Hd; intro_delivered Hd | intros ? ? ? Hd ?; intro_delivered Hd ]; wp_cbn
    | apply (call_pmf_wp call_on_value);
      [exact_budget|ok_solve|done|ok_solve|intros ?|intros ? ? ? Hd _; intro_delivered Hd]; wp_cbn ].
Ltac arm := arm_start; arm_unfold; repeat wp_more; arm_end.

Lemma arm_chunk_size0 ch : arm_ok data s_chunk_size0 (at_chunk_size0 ch).
Proof. pose proof (unhex_bound ch). arm. Qed.
Lemma arm_chunk_size ch : arm_ok data s_chunk_size (at_chunk_size ch).
Proof. pose proof (unhex_bound ch). arm. Qed.
Lemma available_bounds x :
  (c_p x < size data)%nat → 0 < content_length_ (c_P x) →
  (1 ≤ available data x ≤ size data - c_p x)%nat ∧
  Z.of_nat (available data x) ≤ content_length_ (c_P x).
Proof. intros. unfold available. case_match; lia. Qed.
Lemma arm_chunk_data : arm_ok data s_chunk_data (at_chunk_data data).
Proof.
  arm_start. destruct (available_bounds {| c_begin := bg; c_p := p; c_ec := ec; c_P := P |})
    as [Ha Hl]; cbn in *; [done|destruct Hg; lia|].
  unfold at_chunk_data. repeat wp_more; arm_end.
Qed.
Lemma arm_complete : arm_ok data s_complete (at_complete isRequest data).
Proof. arm_start. unfold at_complete. arm_unfold. destruct Hs; repeat wp_more; arm_end. Qed.
Lemma arm_value_almost_done ch :
  arm_ok data s_header_value_almost_done (at_header_value_almost_done ch).
Proof.
  arm_start. pose proof (pos_ok_folded _ _ (ok_pos _ Hg ltac:(congruence))). arm_unfold. repeat wp_more.
  3: destruct (value_flag (fs_ P)) as [g|] eqn:Eg; [apply value_flag_range in Eg|].
  all: repeat wp_more; arm_end.
Qed.
Lemma arm_value0_almost_done ch :
  arm_ok data s_header_value0_almost_done (at_header_value0_almost_done ch).
Proof. arm_start. unfold at_header_value0_almost_done. arm_unfold. repeat wp_more; arm_end. Qed.
Lemma arm_headers_done : arm_ok data s_headers_done (at_headers_done isRequest).
Proof. arm. Qed.
Lemma arm_restart : arm_ok data s_restart (at_restart isRequest).
Proof.
  arm_start. by rewrite E in Hlive.
Qed.
Lemma arm_body_pause : arm_ok data s_body_pause (at_body_pause isRequest).
Proof. by arm_start. Qed.
Lemma arm_body_identity_eof : arm_ok data s_body_identity_eof (at_body_identity_eof data).
Proof. arm_start. unfold at_body_identity_eof. repeat wp_more; arm_end. Qed.
Lemma arm_body_identity_eof0 : arm_ok data s_body_identity_eof0 (at_body_identity_eof0 isRequest data).
Proof. arm_start. unfold at_body_identity_eof0, at_body_identity_eof. repeat wp_more; arm_end. Qed.
Lemma step_post_from x y f z :
  c_p y = c_p x → (rank (s_ (c_P y)) ≤ rank (s_ (c_P x)))%nat →
  step_post data y f z → step_post data x f z.
Proof.
  intros Ep Er. destruct f; unfold step_post; rewrite Ep; [done| |done]. intros (? & ? & ?).
  split; [done|]. split; [done|lia].
Qed.
(** An arm that falls through to the next after calling [cb]. *)
Lemma fall_through x y m s :
  arm_ok data s m → loop_ok y → s_ (c_P y) = s → c_p y = c_p x → (c_p x < size data)%nat →
  (rank s ≤ rank (s_ (c_P x)))%nat → wp m (step_post data x) y.
Proof.
  intros Hm Hy Es Ep Hp Hr. apply (wp_mono m (step_post data y)).
  - apply Hm; [done|lia|done].
  - intros f z. apply step_post_from; [done|by rewrite Es].
Qed.
Ltac loop_tac := constructor; [general_tac|ok_solve|intros ?; ok_solve|cbn; lia|live_tac].

Lemma arm_body_identity : arm_ok data s_body_identity (at_body_identity data).
Proof.
  arm_start. destruct (available_bounds {| c_begin := bg; c_p := p; c_ec := ec; c_P := P |})
    as [Ha Hl]; cbn in *; [done|destruct Hg; lia|].
  unfold at_body_identity. wp_steps. apply wp_assert; [lia|]. wp_steps.
  assert (u64 (content_length_ P - Z.of_nat (available data
    {| c_begin := bg; c_p := p; c_ec := ec; c_P := P |})) = content_length_ P - Z.of_nat (available data
    {| c_begin := bg; c_p := p; c_ec := ec; c_P := P |})) as Eu.
  { unfold u64. destruct Hg. apply Z.mod_small. lia. }
  assert (content_length_ P < 2 ^ 64) by (destruct Hg; lia).
  unfold no_content_length in *.
  repeat wp_more; [arm_end|]. split; [cbn; lia|].
  constructor; [general_tac| |intros ?; ok_solve|cbn; lia|live_tac].
  ok_simpl. unfold no_content_length. split; [done|lia].
Qed.
Lemma arm_body_identity0 : arm_ok data s_body_identity0 (at_body_identity0 isRequest data).
Proof.
  arm_start. unfold at_body_identity0. repeat wp_more.
  apply (fall_through _ _ _ _ arm_body_identity); [loop_tac|done|done|done|cbn; rewrite E; cbn; lia].
Qed.

(** *** Names and values *)

(** The parser changed in nothing the callbacks depend on. *)
Record quiet (P P' : parser) : Prop := {
  q_general : general_ok P';
  q_s : s_ P' = s_ P;
  q_cb : cb_ P' = cb_ P;
  q_derived : derived P' = derived P;
}.
(** What reading one character of a name or value does. *)
Definition char_post (x : ctx) (f : flow) (y : ctx) : Prop :=
  c_p y = c_p x ∧ c_begin y = c_begin x ∧
  match f with
  | Return => general_ok (c_P y) ∧ s_ (c_P y) = s_dead ∧ c_ec y ≠ None
  | _ => c_ec y = c_ec x ∧ quiet (c_P x) (c_P y)
  end.
Ltac char_end :=
  lazymatch goal with
  | |- char_post _ Return _ => split; [done|split; [done|split; [general_tac|done]]]
  | |- char_post _ _ _ =>
      split; [done|split; [done|split; [done|split; [general_tac|done|done|done]]]]
  end.

Lemma strlenZ_char_at s i :
  0 ≤ i < strlenZ s → is_Some (char_at (s +:+ str1 nul) (Z.to_nat i)).
Proof.
  intros Hi. rewrite strlenZ_length in Hi. apply char_at_is_Some.
  rewrite str_length_app. lia.
Qed.
Lemma matching_wp str miss hit c Q x :
  general_ok (c_P x) → 0 ≤ pos_ (c_P x) < strlenZ str - 1 → strlenZ str < 2 ^ 8 →
  Q Break (set_P (set_fs miss (set_pos (pos_ (c_P x) + 1) (c_P x))) x) →
  wp hit Q (set_P (set_pos (pos_ (c_P x) + 1) (c_P x)) x) →
  (pos_ (c_P x) + 1 < strlenZ str - 1 →
   Q Break (set_P (set_pos (pos_ (c_P x) + 1) (c_P x)) x)) →
  wp (matching str miss hit c) Q x.
Proof.
  intros Hg Hp Hs Hmiss Hhit Hmore. unfold matching, incr_pos. wp_steps. unfold str_index.
  assert (pos_ (set_pos (pos_ (c_P x) + 1) (c_P x)) = pos_ (c_P x) + 1) as Ep.
  { cbn. apply Z.mod_small. lia. }
  rewrite Ep. destruct (strlenZ_char_at str (pos_ (c_P x) + 1)) as [d Ed]; [lia|].
  rewrite Ed. wp_steps; [exact Hmiss|exact Hhit|]. apply Hmore. lia.
Qed.

Lemma name_char_wp c x :
  general_ok (c_P x) → s_ (c_P x) ≠ s_dead → wp (name_char c) (char_post x) x.
Proof.
  destruct x as [bg p ec P]; cbn. intros Hg Hd. pose proof (ok_pos _ Hg Hd) as Hpos.
  unfold name_char, incr_pos. wp_steps.
  destruct (fs_ P) eqn:Ef; cbn in Hpos; try (wp_steps; char_end).
  1-3: wp_steps; repeat case_match; char_end.
  all: apply matching_wp; cbn; [done|lia|done|char_end|wp_steps; char_end|intros ?; char_end].
Qed.

Lemma value_char_wp ch c x :
  general_ok (c_P x) → s_ (c_P x) ≠ s_dead → wp (value_char ch c) (char_post x) x.
Proof.
  destruct x as [bg p ec P]; cbn. intros Hg Hd. pose proof (ok_pos _ Hg Hd) as Hpos.
  unfold value_char, connection_char, option_char, option_ows_char, token_fs,
    content_length_char0, content_length_char, transfer_encoding_char, start_matching. wp_steps.
  destruct (fs_ P) eqn:Ef; cbn in Hpos; try (wp_steps; char_end).
  all: try (apply matching_wp; cbn; [done|lia|done|char_end|wp_steps; char_end|intros ?; char_end]).
  wp_steps; [char_end|]. pose proof (digit_value ch ltac:(by destruct (is_digit_char ch))).
  char_end.
Qed.

(** What a loop over a name or a value that began at [n] leaves. *)
Definition field_post (n : nat) (f : flow) (y : ctx) : Prop :=
  match f with
  | Break => (n ≤ c_p y < size data)%nat ∧ loop_ok (set_p (S (c_p y)) y)
  | Redo => False
  | Return => (c_p y ≤ size data)%nat ∧ parser_ok (c_P y) ∧ c_ec y ≠ None
  end.
Lemma field_step_post x f y : field_post (c_p x) f y → step_post data x f y.
Proof. destruct f; [done|done|]. intros (? & ? & ?). by split; [|split]. Qed.
Ltac field_end :=
  lazymatch goal with
  | |- field_post _ Break _ =>
      split; [cbn; lia|]; constructor; [general_tac|ok_solve|intros ?; ok_solve|cbn; lia|live_tac]
  | |- field_post _ Return _ =>
      split; [cbn; lia|]; split; [split; [general_tac|split; [ok_solve|intros ?; ok_solve]]|done]
  end.
(** A name or value of which every character has been read. *)
Lemma field_stop_wp n x :
  loop_ok x → (n < size data)%nat → c_p x = size data →
  wp (_ ← advance 0; mret Break) (field_post n) x.
Proof.
  destruct x as [bg p ec P]. intros Hx Hn Hp. cbn in Hp. subst p. wp_step.
  apply wp_advance; [cbn; lia|]. wp_step. split; [cbn; lia|].
  assert (S (size data + 0 - 1) = size data) as Ep by lia.
  unfold set_p. cbn [c_p c_begin c_ec c_P]. by rewrite Ep.
Qed.
(** After a character of a name or a value. *)
Lemma char_next_wp n x y f (m : M flow) :
  loop_ok x → s_ (c_P x) = s_header_name ∨ s_ (c_P x) = s_header_value →
  (n ≤ c_p x < size data)%nat → char_post x f y →
  (∀ z, loop_ok z → s_ (c_P z) = s_ (c_P x) → c_p z = S (c_p x) → wp m (field_post n) z) →
  wp (match f with Return => mret Return | _ => _ ← next_char; m end) (field_post n) y.
Proof.
  intros Hx Hs Hp (Ep & Eb & Hy) Hm.
  assert (f ≠ Return → wp (_ ← next_char; m) (field_post n) y) as Hnext.
  { intros Hf. assert (c_ec y = c_ec x ∧ quiet (c_P x) (c_P y)) as [Ee [Qg Qs Qc Qd]]
      by by destruct f.
    wp_step. apply wp_advance; [lia|]. destruct Hx as [Hg Ho Hn Hb Hlive].
    apply Hm; [|exact Qs|cbn; lia]. destruct x as [bx px ex Px], y as [by_ py ey Py]. cbn in *.
    constructor; cbn; [done| |intros ?; right; cbn; lia|lia|by rewrite Qs].
    unfold state_ok, named in *. rewrite Qs, Qc, Qd. by destruct Hs as [E|E]; rewrite E in *. }
  destruct f; [by apply Hnext|by apply Hnext|].
  destruct Hy as (Hg & Hs' & He). apply wp_ret. split; [lia|]. split; [|done].
  split; [done|]. unfold state_ok. rewrite Hs'. done.
Qed.

Lemma name_loop_wp fuel n x :
  loop_ok x → s_ (c_P x) = s_header_name → (n < size data)%nat → (n ≤ c_p x ≤ size data)%nat → 
  (size data - c_p x < fuel)%nat →
  wp (name_loop isRequest data fuel) (field_post n) x.
Proof.
  revert x; induction fuel as [|fuel IH]; intros x Hx Es Hn Hp Hf; [lia|].
  cbn [name_loop]. wp_step. wp_step. destruct (char_at data (c_p x)) as [ch|] eqn:Hch.
  - assert (c_p x < size data)%nat by (apply char_at_is_Some; by rewrite Hch).
    wp_step; [|].
    + clear IH. destruct x as [bg p ec P], Hx as [Hg Hs Hna Hb Hlive]; cbn in *. unfold state_ok in Hs.
      rewrite Es in Hs. arm_unfold. repeat wp_more; field_end.
    + wp_step. eapply wp_mono; [apply name_char_wp; [apply Hx|congruence]|].
      intros f y Hy. apply (char_next_wp n x); [done|by left|lia|done|].
      intros z Hz Ez Ep. apply IH; [done|congruence|lia|lia|lia].
  - apply field_stop_wp; [done|done|]. apply char_at_None in Hch. unfold size in *. lia.
Qed.
Lemma value_loop_wp fuel n x :
  loop_ok x → s_ (c_P x) = s_header_value → (n < size data)%nat → (n ≤ c_p x ≤ size data)%nat → 
  (size data - c_p x < fuel)%nat →
  wp (value_loop isRequest data fuel) (field_post n) x.
Proof.
  revert x; induction fuel as [|fuel IH]; intros x Hx Es Hn Hp Hf; [lia|].
  cbn [value_loop]. wp_step. wp_step. destruct (char_at data (c_p x)) as [ch|] eqn:Hch.
  - assert (c_p x < size data)%nat by (apply char_at_is_Some; by rewrite Hch).
    wp_step; [|wp_step].
    1-2: clear IH; destruct x as [bg p ec P], Hx as [Hg Hs Hna Hb Hlive]; cbn in *;
      unfold state_ok in Hs; rewrite Es in Hs; destruct Hs; arm_unfold; repeat wp_more; field_end.
    wp_step. eapply wp_mono; [apply value_char_wp; [apply Hx|congruence]|].
    intros f y Hy. apply (char_next_wp n x); [done|by right|lia|done|].
    intros z Hz Ez Ep. apply IH; [done|congruence|lia|lia|lia].
  - apply field_stop_wp; [done|done|]. apply char_at_None in Hch. unfold size in *. lia.
Qed.

Lemma arm_header_name : arm_ok data s_header_name (at_header_name isRequest data).
Proof.
  intros x Hx Hp Es. unfold at_header_name. wp_step. wp_step.
  eapply wp_mono; [apply (name_loop_wp _ (c_p x)); (done || lia)|].
  intros f y. apply field_step_post.
Qed.
Lemma arm_header_value : arm_ok data s_header_value (at_header_value isRequest data).
Proof.
  intros x Hx Hp Es. unfold at_header_value. wp_step. wp_step.
  eapply wp_mono; [apply (value_loop_wp _ (c_p x)); (done || lia)|].
  intros f y. apply field_step_post.
Qed.
Lemma arm_header_value0 ch :
  arm_ok data s_header_value0 (at_header_value0 isRequest data ch).
Proof.
  arm_start. unfold at_header_value0. wp_steps; [arm_end|arm_end| |];
    (apply begin_cb_wp; [ok_solve|]); wp_steps;
    (eapply (fall_through _ _ _ _ arm_header_value);
      [loop_tac|done|done|done|cbn; rewrite E; cbn; lia]).
Qed.
Lemma arm_header_name0 ch : arm_ok data s_header_name0 (at_header_name0 isRequest data ch).
Proof. arm. Qed.
Lemma on_header_wp Q x :
  (flush_ (derived (c_P x)) = true → named (c_P x)) →
  (∀ d, flush_ d = false → header_size d ≤ header_size (derived (c_P x)) →
     m_body (m_ d) = m_body (m_ (derived (c_P x))) →
     Q tt (set_P (set_derived d (c_P x)) x)) → wp on_header Q x.
Proof.
  intros Hf HQ. unfold on_header. wp_step.
  apply flush_wp; [done|intros ?|intros d ? _ _ Hs Hb _]; repeat wp_step; by apply HQ.
Qed.
Lemma arm_headers_almost_done ch :
  arm_ok data s_headers_almost_done (at_headers_almost_done ch).
Proof.
  arm_start. unfold at_headers_almost_done, call_on_headers, call_on_body_what, on_body_what.
  wp_steps; [arm_end|arm_end|arm_end|].
  apply on_header_wp; [cbn; apply Hg|intros d Hd Hsz Hbody].
  pose proof (budget_le _ _ _ _ _ d (ok_budget _ Hg) Hsz ltac:(cbn; by rewrite Hbody)).
  wp_step; [|arm_end]. wp_step. wp_step. wp_step. wp_step; wp_steps.
  - split; [cbn; lia|]; split; [|cbn; rewrite E; cbn; lia].
    constructor; [general_tac| |intros ?; ok_solve|cbn; lia|live_tac]; split; [done|right].
    apply (has_flag_set skipbody P (ok_flags _ Hg)). by split.
  - arm_end.
  - arm_end.
  - arm_end.
Qed.
Lemma arm_chunk_data_cr ch : arm_ok data s_chunk_data_cr (at_chunk_data_cr isRequest data ch).
Proof. arm_start. pose proof (ok_reader _ Hg ltac:(done)). arm_unfold. repeat wp_more; arm_end. Qed.

Lemma arm_req_lf ch : arm_ok data s_req_lf (at_req_lf isRequest ch).
Proof.
  arm_start. assert (budget (h_max_ P) (h_left_ P) (b_max_ P) (b_left_ P)
    (set_method_ EmptyString (set_uri_ EmptyString
       (set_m_ (set_m_url (uri_ (derived P)) (set_m_method (method_ (derived P))
         (m_ (derived P)))) (derived P))))) as Hbu.
  { eapply budget_le; [exact (ok_budget _ Hg)| |apply Z.le_refl].
    unfold header_size, message_size. cbn -[fields_size strlenZ]. change (strlenZ EmptyString) with 0.
    pose proof (strlenZ_nonneg (m_method (m_ (derived P)))).
    pose proof (strlenZ_nonneg (m_url (m_ (derived P)))). lia. }
  arm_unfold. repeat wp_more; arm_end.
Qed.
Lemma arm_res_line_done : arm_ok data s_res_line_done (at_res_line_done isRequest).
Proof.
  arm_start. assert (budget (h_max_ P) (h_left_ P) (b_max_ P) (b_left_ P)
    (set_reason_ EmptyString (set_m_ (set_m_reason (reason_ (derived P))
       (set_m_status (status_code_ P) (m_ (derived P)))) (derived P)))) as Hbu.
  { eapply budget_le; [exact (ok_budget _ Hg)| |apply Z.le_refl].
    unfold header_size, message_size. cbn -[fields_size strlenZ]. change (strlenZ EmptyString) with 0.
    pose proof (strlenZ_nonneg (m_reason (m_ (derived P)))). lia. }
  arm_unfold. repeat wp_more; arm_end.
Qed.

Create HintDb arms.
#[local] Hint Resolve arm_req_lf arm_res_line_done arm_chunk_data_cr arm_chunk_size0 arm_chunk_size arm_chunk_data arm_complete arm_value_almost_done
  arm_value0_almost_done arm_headers_done arm_restart arm_body_pause
  arm_body_identity_eof arm_body_identity_eof0 arm_body_identity
  arm_body_identity0 arm_header_name arm_header_value arm_header_value0
  arm_header_name0 arm_headers_almost_done : arms.

(** Every arm of the switch keeps the invariant and moves on. *)
Lemma step_ok ch x :
  loop_ok x → (c_p x < size data)%nat → wp (step isRequest data ch) (step_post data x) x.
Proof.
  intros Hx Hp. unfold step. apply wp_bind, wp_getP.
  destruct (s_ (c_P x)) eqn:E; revert x Hx Hp E;
    change (∀ x, loop_ok x → (c_p x < size data)%nat → s_ (c_P x) = ?s → wp ?m _ x)
      with (arm_ok data s m).
  all: first [solve [auto with arms nocore]|arm].
Qed.

(** *** The loop *)

(** What the loop leaves: all of the buffer read, or a return. *)
Definition loop_post (f : flow) (y : ctx) : Prop :=
  match f with
  | Return =>
      (c_p y ≤ size data)%nat ∧ parser_ok (c_P y) ∧
      (c_ec y = None → s_ (c_P y) = s_restart ∧ (0 < c_p y)%nat)
  | _ => c_p y = size data ∧ loop_ok y
  end.

(** The fuel the loop needs: an arm for each character left, and those that the
    current character still has to run. *)
Definition needed (at_redo : option ascii) (x : ctx) : nat :=
  match at_redo with
  | None => 4 * (size data - c_p x) + 1
  | Some _ => 4 * (size data - c_p x - 1) + rank (s_ (c_P x)) + 1
  end.

Lemma rank_bound s : (1 ≤ rank s ≤ 3)%nat.
Proof. destruct s; cbn; lia. Qed.

Lemma write_loop_wp fuel at_redo x :
  loop_ok x → (c_p x ≤ size data)%nat → (is_Some at_redo → (c_p x < size data)%nat) →
  (needed at_redo x ≤ fuel)%nat → wp (write_loop isRequest data fuel at_redo) loop_post x.
Proof.
  revert at_redo x; induction fuel as [|fuel IH]; intros at_redo x Hx Hp Hr Hf.
  { unfold needed in Hf. destruct at_redo; lia. }
  cbn [write_loop]. wp_step. wp_step.
  assert (∀ ch, (c_p x < size data)%nat → (4 * (size data - c_p x - 1) + rank (s_ (c_P x)) ≤ fuel)%nat →
    wp (f ← step isRequest data ch;
        match f with
        | Break => _ ← next_char; write_loop isRequest data fuel None
        | Redo => write_loop isRequest data fuel (Some ch)
        | Return => mret Return
        end) loop_post x) as Hstep.
  { intros ch Hlt Hf'. wp_step. eapply wp_mono; [by apply step_ok|].
    intros [] y Hy; cbn in Hy.
    - destruct Hy as (Hy & Hl). wp_step. apply wp_advance; [lia|].
      replace (c_p y + 2 - 1)%nat with (S (c_p y)) by lia.
      apply IH; [done|cbn; lia|by intros []|]. unfold needed; cbn.
      pose proof (rank_bound (s_ (c_P x))). lia.
    - destruct Hy as (Hy & Hl & Hk). apply IH; [done|lia|lia|]. unfold needed. lia.
    - wp_step. destruct Hy as (Hy & Hl & Hk). split; [done|]. split; [done|].
      intros He. destruct (Hk He). split; [done|lia]. }
  destruct at_redo as [ch|]; [apply Hstep; [by apply Hr|unfold needed in Hf; lia]|].
  destruct (char_at data (c_p x)) as [ch|] eqn:Hch.
  - assert (c_p x < size data)%nat by (apply char_at_is_Some; by rewrite Hch).
    apply Hstep; [done|]. unfold needed in Hf. pose proof (rank_bound (s_ (c_P x))). lia.
  - apply char_at_None in Hch. wp_step. split; [unfold size in *; lia|done].
Qed.

End Steps.
End Invariant.
