(* ===== verification/HttpParserReads.v ===== *)
(** * What a call of the parser and a read of a message come to

    The contract of [write], of [parse_op] and of [async_read]: from the invariant
    of HttpParserSafe.v. *)

From Stdlib Require Import ZifyBool.
From S2P Require Import Prelude HttpMessage HttpParser HttpParserSafe.

Local Open Scope Z_scope.

Section Reads.
Context (isRequest : bool).

(** ** A call of [write] *)

(** A parser that can be written to. *)
Definition parser_live (P : parser) : Prop :=
  parser_ok isRequest P ∧ live (s_ P) = true.

(** What a call of [write] leaves: it uses all it is given unless it reports an
    error or the end of the message. *)
Record write_post (data : string) (w : written) : Prop := {
  wr_used : (w.1.1 ≤ size data)%nat;
  wr_ok : parser_ok isRequest w.2;
  wr_all : w.1.2 = None → s_ w.2 = s_restart ∨ (w.1.1 = size data ∧ parser_live w.2);
  wr_some : w.1.2 = None → (0 < size data)%nat → (0 < w.1.1)%nat;
}.

Lemma loop_ok_quiet x : loop_ok isRequest x → cb_ (c_P x) = None → parser_ok isRequest (c_P x).
Proof.
  intros [Hg Hs _ _ _] Hcb. split; [done|]. split; [done|]. intros E.
  unfold state_ok in Hs. rewrite E in Hs. congruence.
Qed.
Lemma cb_named P : state_ok P → s_ P ≠ s_dead → cb_ P = Some call_on_value → named P.
Proof.
  unfold state_ok. intros Hs Hd Hcb.
  destruct (s_ P); try congruence; try tauto; destruct Hs; try congruence; tauto.
Qed.
Lemma cb_field P :
  state_ok P → s_ P ≠ s_dead → cb_ P = Some call_on_field → s_ P = s_header_name.
Proof.
  unfold state_ok. intros Hs Hd Hcb.
  destruct (s_ P); try congruence; try tauto; destruct Hs; congruence.
Qed.

Lemma parser_ok_dead P : general_ok isRequest P → parser_ok isRequest (set_s s_dead P).
Proof.
  intros [? ? ? ? ? ? ?]. split; [|by split]. split; cbn; try done.
Qed.
(** The invariant after a callback on the piece the buffer ends with. *)
Lemma parser_ok_after g h b d P :
  general_ok isRequest P → state_ok P → s_ P ≠ s_dead → cb_ P = Some g → delivered g P h b d →
  (s_ P = s_header_name → field_ d ≠ EmptyString ∧ flush_ d = false) →
  parser_ok isRequest (after h b d P).
Proof.
  intros [G0 G1 G2 G3 G4 G5 G6] Hs Hd Hcb [D1 D2 D3 D4] Hn.
  split; [|split; [|exact Hn]].
  - split; cbn; try done. intros E. unfold has_reader in *. cbn. rewrite D2. auto.
  - unfold state_ok, named, has_reader in *. cbn. rewrite D2. rewrite Hcb in *.
    destruct (s_ P); cbn; try done; try (destruct Hs; congruence).
    destruct Hs as [[= ->] Hf]. split; [done|]. by rewrite D3.
Qed.

(** The callback for what is left of the buffer. *)
Lemma write_end_wp data y :
  c_p y = size data → loop_ok isRequest y →
  wp (P ← getP;
      match cb_ P with
      | Some g => s ← piece data; _ ← call_pmf isRequest g s; if_ec (mret Return)
      | None => mret Return
      end) (λ _ z, write_post data (c_p z, c_ec z, c_P z)) y.
Proof.
  intros Hp Hy. wp_step. wp_step. destruct (cb_ (c_P y)) as [g|] eqn:Hcb.
  2:{ wp_step. pose proof (loop_ok_quiet _ Hy Hcb).
      split; cbn; [lia|done| |lia]. intros _. right. split; [done|]. split; [done|apply Hy]. }
  unfold piece. repeat wp_step. destruct Hy as [Hg Hs Hn Hb Hl].
  assert (s_ (c_P y) ≠ s_dead) as Hd by by intros E; rewrite E in Hl.
  destruct y as [bg p ec P]; cbn in *. subst p.
  apply call_pmf_wp; cbn; [apply Hg|apply Hg|intros ->; by apply Hg| | |].
  - intros ->. by apply cb_named.
  - intros e. wp_step; [done|]. split; cbn; [lia| |done|done]. apply parser_ok_dead, Hg.
  - intros h b d Hdl Hname.
    assert (parser_ok isRequest (after h b d P)) as Hok.
    { apply (parser_ok_after g); try done. intros E. assert (g = call_on_field) as ->.
      { unfold state_ok in Hs. rewrite E in Hs. congruence. }
      apply Hname; [done|]. destruct (Hn E) as [Hf|Hlt]; [by right|left].
      apply str_sub_nonempty; [done|]. unfold size. lia. }
    wp_step.
    + wp_step. split; cbn; [lia|done| |lia]. intros _. right. split; [done|]. by split.
    + split; cbn in *; [lia| |congruence|congruence]. by apply parser_ok_dead, Hok.
Qed.

Lemma write_ok data P :
  parser_live P → ∃ w, write isRequest data P = Ok w ∧ write_post data w.
Proof.
  intros (HP & Hl). unfold write. case_match.
  { eexists. split; [done|]. split; cbn; [lia|done| |lia].
    intros _. right. split; [lia|]. by split. }
  destruct HP as (Hg & Hs & Hn).
  set (x := {| c_begin := 0; c_p := 0; c_ec := None; c_P := P |}).
  assert (wp (write_body isRequest data) (λ _ y, write_post data (c_p y, c_ec y, c_P y)) x) as Hwp.
  2:{ unfold wp in Hwp. destruct (write_body isRequest data x) as [[f y]|]; [|done].
      by exists (c_p y, c_ec y, c_P y). }
  unfold write_body. apply wp_bind. eapply wp_mono.
  { apply write_loop_wp with (x := x); [|cbn; lia|by intros []|].
    - split; cbn; [done|done| |lia|done]. intros E. left. by apply Hn.
    - unfold needed, write_fuel. cbn. lia. }
  intros [] y Hy; [by apply write_end_wp; apply Hy|by apply write_end_wp; apply Hy|].
  wp_step. destruct Hy as (Hp & Hok & He). split; cbn; [done|done| |].
  - intros E. left. by apply He.
  - intros E _. by apply He.
Qed.

(** ** The parser of a new message *)

Lemma init_ok : parser_live (init isRequest).
Proof.
  split; [|by destruct isRequest]. split; [|split; by destruct isRequest].
  split; try done. destruct isRequest; split; try done; cbn; lia.
Qed.
Lemma paused_range P : 0 ≤ flags_ P < 2 ^ 8 → has_flag paused P = false.
Proof.
  intros Hf. unfold has_flag.
  assert (Z.land (flags_ P) paused = 0) as ->; [|done]. apply Z.bits_inj'. intros n Hn.
  rewrite Z.land_spec, Z.bits_0. change paused with (2 ^ 8).
  rewrite Z.pow2_bits_eqb by lia. destruct (Z.eqb_spec 8 n) as [<-|]; [|apply andb_false_r].
  rewrite andb_true_r. apply Z.bits_above_log2; [lia|].
  destruct (Z.eq_dec (flags_ P) 0) as [->|]; [done|]. apply Z.log2_lt_pow2; lia.
Qed.
Lemma has_flag_paused P : general_ok isRequest P → has_flag paused P = false.
Proof. intros Hg. apply paused_range, Hg. Qed.
Lemma complete_live P : parser_live P → complete P = false.
Proof.
  intros [[Hg _] Hl]. unfold complete. rewrite (has_flag_paused _ Hg).
  by destruct (s_ P).
Qed.
Lemma complete_restart P : s_ P = s_restart → complete P = true.
Proof. intros E. unfold complete. by rewrite E. Qed.

(** ** The operation that feeds the parser *)

(** The state of the operation between reads: the buffer is empty. *)
Definition op_ok (op : parse_op) : Prop :=
  match op with
  | Reading d => parser_live (op_parser d) ∧ db d = EmptyString
  | Parsed None d => general_ok isRequest (op_parser d) ∧ complete (op_parser d) = true
  | Parsed (Some _) d => True
  end.
(** What a socket can give: at least a byte. *)
Definition some_bytes (r : read_result) : Prop :=
  match r with Got b => b ≠ EmptyString | _ => True end.

Lemma str_drop_all s : str_drop (String.length s) s = EmptyString.
Proof. induction s; cbn; done. Qed.
Lemma parse_start_ok buffer P :
  parser_live P → ∃ op, parse_start isRequest buffer P = Ok op ∧ op_ok op.
Proof.
  intros HP. unfold parse_start. rewrite (complete_live _ HP).
  destruct (write_ok buffer P HP) as ([[used ec] P'] & -> & [W1 W2 W3 W4]). cbn in *.
  destruct ec as [e|]; [by eexists|]. destruct (W3 eq_refl) as [E|[-> Hl]].
  - rewrite (complete_restart _ E). eexists. split; [done|]. split; [apply W2|].
    by apply complete_restart.
  - rewrite (complete_live _ Hl). cbn. unfold size. rewrite str_drop_all. cbn.
    eexists. split; [done|]. by split.
Qed.
Lemma write_eof_ok P :
  parser_live P → ∃ ec P', write_eof P = Ok (ec, P') ∧
  (ec = None → complete P' = true ∧ general_ok isRequest P').
Proof.
  intros [[[G0 G1 G2 G3 G4 G5 G6] Hs] Hl]. unfold write_eof.
  destruct (s_ P) eqn:E; try done; try (do 2 eexists; split; [done|done]).
  all: do 2 eexists; split; [reflexivity|]; intros _; split; [done|]; split; cbn in *; try done.
  all: intros _; apply G4; congruence.
Qed.
Lemma parse_read_ok d r :
  op_ok (Reading d) → some_bytes r → ∃ op, parse_read isRequest d r = Ok op ∧ op_ok op.
Proof.
  intros [HP Hdb] Hr. destruct r as [bytes| |what]; cbn [parse_read].
  - cbn in Hr. destruct (String.length bytes) as [|n] eqn:En; [by destruct bytes|].
    rewrite Hdb. rewrite str_app_nil_l. cbn [Nat.eqb].
    destruct (write_ok bytes (op_parser d) HP)
      as ([[used ec] P'] & -> & [W1 W2 W3 W4]). cbn in *.
    destruct ec as [e|]; [by eexists|]. unfold size in *.
    destruct (Nat.eqb_spec used 0) as [->|]; [exfalso; specialize (W4 eq_refl); lia|].
    destruct (W3 eq_refl) as [E|[-> Hl]].
    + rewrite (complete_restart _ E). eexists. split; [done|]. split; [apply W2|].
      by apply complete_restart.
    + rewrite (complete_live _ Hl), En, Nat.eqb_refl. eexists. split; [done|].
      rewrite <- En, str_drop_all. by split.
  - destruct (got_some d); cbn; [|by eexists].
    destruct (write_eof_ok _ HP) as (ec & P' & -> & He). cbn.
    destruct ec as [e|]; [by eexists|]. destruct (He eq_refl) as [Hc Hg].
    rewrite Hc. eexists. split; [done|]. by split.
  - by eexists.
Qed.
Lemma parse_reads_ok op reads :
  op_ok op → Forall some_bytes reads →
  ∃ op', parse_reads isRequest op reads = Ok op' ∧ op_ok op' ∧
    (∀ d, op' = Reading d → Forall (λ r, ∃ b, r = Got b) reads).
Proof.
  revert op; induction reads as [|r reads IH]; intros op Hop Hr.
  { exists op. split; [by destruct op|]. split; [done|]. by constructor. }
  inversion_clear Hr as [|? ? Hr1 Hr2]. destruct op as [d|ec d]; [|by exists (Parsed ec d)].
  cbn [parse_reads]. destruct (parse_read_ok d r Hop Hr1) as (op & E & Hop').
  rewrite E. destruct (IH op Hop' Hr2) as (op' & E' & Ho & Hall).
  exists op'. split; [exact E'|]. split; [done|]. intros d' ->. specialize (Hall d' eq_refl).
  constructor; [|done]. destruct r as [b| |w]; [by exists b| |].
  - exfalso. revert E E'. cbn [parse_read]. destruct (negb (got_some d)); [intros [= <-]; by destruct reads|].
    destruct (write_eof (op_parser d)) as [[[e|] P']|]; cbn; [|case_match|]; intros [= <-]; by destruct reads.
  - injection E as <-. by destruct reads.
Qed.

End Reads.

(** What a read of a message gives: the message, the error it ended with, or
    nothing yet; and what the buffer holds then. *)
Definition read_outcome : Type := option (message + read_error) * string.

(** C21: reading a message never fails an assertion, leaves a buffer or runs on: for
    every content of the session's buffer and everything the socket may give, the
    operation ends with a message or an error, or waits for the socket having used
    all it was given. *)
Theorem async_read_total (isRequest : bool) (buffer : string) (reads : list read_result) :
  Forall some_bytes reads →
  ∃ o : read_outcome, async_read isRequest buffer reads = Ok o ∧
    (o.1 = None → o.2 = EmptyString ∧ Forall (λ r, ∃ b, r = Got b) reads).
Proof.
  intros Hr. unfold async_read.
  destruct (parse_start_ok isRequest buffer _ (init_ok isRequest)) as (op & -> & Hop).
  cbn [mbind outcome_bind].
  destruct (parse_reads_ok isRequest op reads Hop Hr) as (op' & -> & Hop' & Hall). cbn.
  destruct op' as [d|[e|] d]; eexists; (split; [done|]); [|done|done].
  intros _. split; [apply Hop'|by apply (Hall d)].
Qed.
Lemma async_read_total_witness :
  ∃ o : read_outcome, async_read true "GET / " [Got "HTTP/1."; Got ("1" +:+ CRLF)] = Ok o ∧
    (o.1 = None → o.2 = EmptyString ∧
      Forall (λ r, ∃ b, r = Got b) [Got "HTTP/1."; Got ("1" +:+ CRLF)]).
Proof.
  apply (async_read_total true "GET / " [Got "HTTP/1."; Got ("1" +:+ CRLF)]).
  repeat constructor; discriminate.
Defined.

(** C22: a request that is read is within the parser's limits, whatever the peer
    sends: at most 16KB of method, URL, field names and values, and at most 4MB of
    body. *)
Theorem request_within_limits (buffer : string) (reads : list read_result) (m : message)
    (rest : string) :
  Forall some_bytes reads →
  async_read true buffer reads = Ok (Some (inl m), rest) →
  strlenZ (req_method (to_request m)) + strlenZ (req_url (to_request m)) +
    fields_size (req_fields (to_request m)) ≤ 16384 ∧
  strlenZ (req_body (to_request m)) ≤ 4194304.
Proof.
  intros Hr. unfold async_read.
  destruct (parse_start_ok true buffer _ (init_ok true)) as (op & -> & Hop).
  cbn [mbind outcome_bind].
  destruct (parse_reads_ok true op reads Hop Hr) as (op' & -> & Hop' & _). cbn.
  destruct op' as [d|[e|] d]; intros [= <- <-]. destruct Hop' as [Hg _].
  destruct (ok_limits _ _ Hg) as [Eh Eb], (ok_budget _ _ Hg) as [_ Hh Hb].
  rewrite Eh in Hh. rewrite Eb in Hb. specialize (Hh ltac:(done)). specialize (Hb ltac:(done)).
  set (o := derived (op_parser d)) in *. unfold header_size, message_size in Hh.
  unfold header_limit, body_limit in *. unfold to_request. cbn [req_method req_url req_fields req_body].
  fold (fields_size (m_fields (m_ o))).
  pose proof (strlenZ_nonneg (method_ o)). pose proof (strlenZ_nonneg (uri_ o)).
  pose proof (strlenZ_nonneg (reason_ o)). pose proof (strlenZ_nonneg (field_ o)).
  pose proof (strlenZ_nonneg (value_ o)). pose proof (strlenZ_nonneg (m_reason (m_ o))). lia.
Qed.
Lemma request_within_limits_witness :
  let m := {| m_version := 11; m_status := 0; m_method := "GET"; m_url := "/status";
              m_reason := EmptyString; m_fields := [("Host", "h")]; m_body := EmptyString |} in
  strlenZ (req_method (to_request m)) + strlenZ (req_url (to_request m)) +
    fields_size (req_fields (to_request m)) ≤ 16384 ∧
  strlenZ (req_body (to_request m)) ≤ 4194304.
Proof.
  apply (request_within_limits EmptyString
    [Got ("GET /status HTTP/1.1" +:+ CRLF +:+ "Host: h" +:+ CRLF +:+ CRLF)] _ EmptyString).
  - repeat constructor; discriminate.
  - vm_compute. reflexivity.
Defined.
