(* ===== verification/SyncRead.v ===== *)
(** * The synchronous read of a message

    [beast::http::read] with the loop of [parse] below it, which the test client
    uses, and its equivalence with the asynchronous read of the server. *)

From S2P Require Import Prelude HttpMessage HttpParser HttpParserSafe HttpParserReads.

Section SyncRead.
Context (isRequest : bool).

(** ** The code (impl/parse.ipp, impl/read.ipp) *)

(** How a read has ended, if it has; the parser and the buffer. *)
Definition parsed : Type := option (option read_error) * parser * string.

(** The loop of [parse], given the results of the [read_some] it makes; it blocks
    when there is none left. *)
Fixpoint parse (reads : list read_result) (P : parser) (dynabuf : string) (got_some : bool)
    : outcome parsed :=
  '(used, ec, P) ← write isRequest dynabuf P;
  match ec with
  | Some e => Ok (Some (Some (ParseError e)), P, dynabuf)
  | None =>
      let dynabuf := str_drop used dynabuf in
      let got_some := if (0 <? used)%nat then true else got_some in
      if complete P then Ok (Some None, P, dynabuf) else
      match reads with
      | [] => Ok (None, P, dynabuf)
      | ReadError what :: _ => Ok (Some (Some (SocketError what)), P, dynabuf)
      | Eof :: _ =>
          if negb got_some then Ok (Some (Some EndOfFile), P, dynabuf) else
          '(ec, P) ← write_eof P;
          match ec with
          | Some e => Ok (Some (Some (ParseError e)), P, dynabuf)
          | None =>
              if complete P then Ok (Some None, P, dynabuf)
              else Fail (AssertionFailed "parser.complete()")
          end
      | Got bytes :: reads => parse reads P (dynabuf +:+ bytes) got_some
      end
  end.

(** [read(stream, dynabuf, m, ec)]; [None] while it blocks. *)
Definition read (dynabuf : string) (reads : list read_result) : outcome read_outcome :=
  '(ended, P, dynabuf) ← parse reads (init isRequest) dynabuf false;
  match ended with
  | None => Ok (None, dynabuf)
  | Some (Some e) => Ok (Some (inr e), dynabuf)
  | Some None =>
      if complete P then Ok (Some (inl (m_ (derived P))), dynabuf)
      else Fail (AssertionFailed "p.complete()")
  end.

(** ** It is the asynchronous one *)

(** What an operation has come to, as [parse] says it. *)
Definition parsed_of (op : parse_op) : parsed :=
  match op with
  | Reading d => (None, op_parser d, db d)
  | Parsed ec d => (Some ec, op_parser d, db d)
  end.
(** The loop where it reads. *)
Definition parse_more (reads : list read_result) (d : parse_data) : outcome parsed :=
  match reads with
  | [] => Ok (parsed_of (Reading d))
  | Got bytes :: reads => parse reads (op_parser d) (db d +:+ bytes) (got_some d)
  | ReadError what :: _ => Ok (Some (Some (SocketError what)), op_parser d, db d)
  | Eof :: _ =>
      if negb (got_some d) then Ok (Some (Some EndOfFile), op_parser d, db d) else
      '(ec, P) ← write_eof (op_parser d);
      match ec with
      | Some e => Ok (Some (Some (ParseError e)), P, db d)
      | None =>
          if complete P then Ok (Some None, P, db d)
          else Fail (AssertionFailed "parser.complete()")
      end
  end.
Lemma parse_eq reads P buf g :
  parse reads P buf g =
  ('(used, ec, P') ← write isRequest buf P;
   match ec with
   | Some e => Ok (Some (Some (ParseError e)), P', buf)
   | None =>
       if complete P' then Ok (Some None, P', str_drop used buf) else
       parse_more reads {| db := str_drop used buf; op_parser := P';
                           got_some := if (0 <? used)%nat then true else g |}
   end).
Proof.
  destruct reads as [|r reads]; cbn [parse];
    (destruct (write isRequest buf P) as [[[used [e|]] P']|]; [done| |done]);
    cbn [mbind outcome_bind]; (destruct (complete P'); [done|]).
  { done. }
  by destruct r.
Qed.

Lemma parse_more_reads reads d :
  op_ok isRequest (Reading d) → Forall some_bytes reads →
  parse_more reads d = (op ← parse_reads isRequest (Reading d) reads; Ok (parsed_of op)).
Proof.
  revert d; induction reads as [|r reads IH]; intros d Hd Hr; [done|].
  inversion_clear Hr as [|? ? Hr1 Hr2]. cbn [parse_reads].
  destruct (parse_read_ok isRequest d r Hd Hr1) as (op & E & Hop).
  assert (∀ ec d', parse_reads isRequest (Parsed ec d') reads = Ok (Parsed ec d')) as Hp by by destruct reads.
  destruct r as [b| |what].
  3: by injection E as <-; cbn [parse_read mbind outcome_bind]; rewrite Hp.
  2: { rewrite E. cbn [mbind outcome_bind]. revert E. cbn [parse_more parse_read]. destruct (negb (got_some d)).
       { intros [= <-]. by rewrite Hp. }
       destruct (write_eof (op_parser d)) as [[[e|] P2]|]; [| |done]; cbn [mbind outcome_bind].
       { intros [= <-]. by rewrite Hp. }
       destruct (complete P2); [|done]. intros [= <-]. by rewrite Hp. }
  unfold parse_more. rewrite parse_eq, E. cbn [mbind outcome_bind].
  revert E. cbn [parse_read]. destruct (_ =? 0)%nat; [done|].
  destruct (write isRequest (db d +:+ b) (op_parser d)) as [[[used ec] P']|]; [|done].
  cbn [mbind outcome_bind]. destruct ec as [e|]; [intros [= <-]; by rewrite Hp|].
  destruct (Nat.eqb_spec used 0) as [|Hu]; [done|]. replace (0 <? used)%nat with true by (symmetry; apply Nat.ltb_lt; lia).
  destruct (complete P'); [intros [= <-]; by rewrite Hp|].
  destruct (negb _); [done|]. intros [= <-]. by apply IH.
Qed.
Lemma read_async buffer reads :
  Forall some_bytes reads → read buffer reads = async_read isRequest buffer reads.
Proof.
  intros Hr. unfold read, async_read. rewrite parse_eq.
  destruct (parse_start_ok isRequest buffer _ (init_ok isRequest)) as (op & E & Hop).
  rewrite E. cbn [mbind outcome_bind].
  assert (∀ ec d', parse_reads isRequest (Parsed ec d') reads = Ok (Parsed ec d')) as Hp by by destruct reads.
  revert E. unfold parse_start. rewrite (complete_live _ _ (init_ok isRequest)).
  destruct (write isRequest buffer (init isRequest)) as [[[used ec] P']|]; [|done].
  cbn [mbind outcome_bind]. destruct ec as [e|]; [intros [= <-]; by rewrite Hp|].
  destruct (complete P') eqn:Hc; [intros [= <-]; rewrite Hp; cbn; by rewrite Hc|].
  destruct (negb _); [done|]. intros [= <-].
  replace (if (0 <? used)%nat then true else false) with (0 <? used)%nat by by destruct (0 <? used)%nat.
  rewrite (parse_more_reads reads _ Hop Hr).
  destruct (parse_reads_ok isRequest _ reads Hop Hr) as (op & -> & Hop' & _). cbn.
  destruct op as [d|[e|] d]; cbn; [done|done|]. by destruct Hop' as [_ ->].
Qed.
Lemma async_read_outcome buffer reads :
  Forall some_bytes reads → ∃ o, async_read isRequest buffer reads = Ok o.
Proof.
  intros Hr. unfold async_read.
  destruct (parse_start_ok isRequest buffer _ (init_ok isRequest)) as (op & -> & Hop). cbn [mbind outcome_bind].
  destruct (parse_reads_ok isRequest op reads Hop Hr) as (op' & -> & _). cbn.
  destruct op' as [d|[e|] d]; by eexists.
Qed.
End SyncRead.

(** C27: the synchronous read of the test client and the asynchronous one of the
    server are the same function of the buffer and of what the socket gives: the
    same message or error, at the same point, with the same bytes left; so neither
    ever fails an assertion. *)
Theorem read_is_async_read (isRequest : bool) (buffer : string) (reads : list read_result) :
  Forall some_bytes reads → read isRequest buffer reads = async_read isRequest buffer reads.
Proof. apply read_async. Qed.
Lemma read_is_async_read_witness :
  let reads := [Got ("HTTP/1.1 200 OK" +:+ CRLF); Got ("Content-Length: 2" +:+ CRLF +:+ CRLF +:+ "{"); Got "}"] in
  read false EmptyString reads = async_read false EmptyString reads.
Proof. apply read_is_async_read. repeat constructor; discriminate. Defined.
