(* ===== verification/HttpParserBytes.v ===== *)
(** * A parser in the middle of a buffer

    A parser whose piece is still in the buffer and one that has been handed it:
    the callbacks get the same characters, whatever the pieces, and the switch
    does the same for the next byte. *)

From Stdlib Require Import ZifyBool.
From S2P Require Import Prelude HttpMessage HttpParser HttpParserSafe HttpParserReads.

Local Open Scope Z_scope.

Lemma bind_ok {A B} (m : M A) (k : A → M B) x a y : m x = Ok (a, y) → (m ≫= k) x = k a y.
Proof.
  change ((m ≫= k) x) with (match m x with Ok (a, y) => k a y | Fail f => Fail f end).
  by intros ->.
Qed.
Lemma bind_inv {A B} (m : M A) (k : A → M B) x r :
  (m ≫= k) x = Ok r → ∃ a y, m x = Ok (a, y) ∧ k a y = Ok r.
Proof.
  change ((m ≫= k) x) with (match m x with Ok (a, y) => k a y | Fail f => Fail f end).
  destruct (m x) as [[a y]|]; [|done]. by exists a, y.
Qed.

(** ** Code that does not look at the buffer *)

Definition local {A} (m : M A) : Prop := ∀ x a y,
  m x = Ok (a, y) →
  c_begin y = c_begin x ∧ c_p y = c_p x ∧
  (cb_ (c_P y) = cb_ (c_P x) ∨ cb_ (c_P y) = None) ∧
  ∀ x', c_ec x' = c_ec x → c_P x' = c_P x →
    m x' = Ok (a, {| c_begin := c_begin x'; c_p := c_p x'; c_ec := c_ec y; c_P := c_P y |}).

Lemma local_bind' {A B} (m : M A) (k : A → M B) :
  local m → (∀ x a y, m x = Ok (a, y) → local (k a)) → local (m ≫= k).
Proof.
  intros Hm Hk x b z. change ((m ≫= k) x) with (match m x with Ok (a, y) => k a y | Fail f => Fail f end).
  destruct (m x) as [[a y]|] eqn:Em; [|done]. intros Ek.
  destruct (Hm _ _ _ Em) as (Eb & Ep & Ec & Hm'). destruct (Hk _ _ _ Em _ _ _ Ek) as (Eb' & Ep' & Ec' & Hk').
  split; [congruence|]. split; [congruence|]. split.
  { destruct Ec' as [->|]; [done|by right]. }
  intros x' Ex EP. change ((m ≫= k) x') with (match m x' with Ok (a, y) => k a y | Fail f => Fail f end).
  rewrite (Hm' _ Ex EP). by rewrite (Hk' {| c_begin := c_begin x'; c_p := c_p x'; c_ec := c_ec y; c_P := c_P y |}).
Qed.
Lemma local_bind {A B} (m : M A) (k : A → M B) :
  local m → (∀ a, local (k a)) → local (m ≫= k).
Proof. intros Hm Hk. apply local_bind'; [done|]. intros x a y _. apply Hk. Qed.
Lemma local_ret {A} (a : A) : local (mret a).
Proof. intros x b y [= <- <-]. repeat split; auto. intros [] ? ?; cbn in *. by subst. Qed.
Lemma local_getP : local getP.
Proof. intros x b y [= <- <-]. repeat split; auto. intros [] ? ?; cbn in *. by subst. Qed.
Lemma local_updP f :
  (∀ P, cb_ (f P) = cb_ P ∨ cb_ (f P) = None) → local (updP f).
Proof.
  intros Hf x b y [= <- <-]. repeat split; cbn; auto.
  intros [] E1 E2; cbn in *. by subst.
Qed.
Lemma local_set_ec e : local (st_modify (set_ec e) : M unit).
Proof. intros x b y [= <- <-]. repeat split; cbn; auto. intros [] E1 E2; cbn in *. by subst. Qed.
Lemma local_throw {A} f : local (st_throw f : M A).
Proof. by intros x b y. Qed.
Lemma if_ec_eq k x : if_ec k x = (match c_ec x with Some _ => errc | None => k end) x.
Proof. done. Qed.
Lemma local_errc : local errc.
Proof. apply local_bind; [apply local_updP; auto|intros _; apply local_ret]. Qed.
Lemma local_if_ec k : local k → local (if_ec k).
Proof.
  intros Hk x b y. rewrite if_ec_eq. intros E.
  assert (local (match c_ec x with Some _ => errc | None => k end)) as Hl
    by (destruct (c_ec x); [apply local_errc|done]).
  destruct (Hl _ _ _ E) as (? & ? & ? & Hx). repeat split; try done.
  intros x' Ex EP. rewrite if_ec_eq, Ex. by apply Hx.
Qed.
Lemma local_if {A} (b : bool) (m m' : M A) : local m → local m' → local (if b then m else m').
Proof. by destruct b. Qed.

Ltac local_step :=
  lazymatch goal with
  | |- local (mbind _ call_on_body_what) => fail
  | |- local (mbind _ _) => apply local_bind; [|intros ?]
  | |- local (mret _) => apply local_ret
  | |- local getP => apply local_getP
  | |- local (updP _) => apply local_updP; intros ?; cbn; auto
  | |- local (st_modify (set_ec _)) => apply local_set_ec
  | |- local (st_throw _) => apply local_throw
  | |- local errc => apply local_errc
  | |- local (if_ec _) => apply local_if_ec
  | |- local (if _ then _ else _) => apply local_if
  | |- local (match ?e with _ => _ end) => destruct e
  | |- local (let _ := _ in _) => cbv zeta
  | |- local (?m _ _ _ _) => unfold m
  | |- local (?m _ _ _) => unfold m
  | |- local (?m _ _) => unfold m
  | |- local (?m _) => unfold m
  | |- local ?m => unfold m
  end.
Ltac local_tac := repeat local_step.

Lemma local_flush : local flush.
Proof. local_tac. Qed.
Lemma local_call_pmf isRequest f s : local (call_pmf isRequest f s).
Proof. destruct f; cbn [call_pmf]; local_tac. Qed.
Lemma local_name_char c : local (name_char c).
Proof. local_tac. Qed.
Lemma local_value_char ch c : local (value_char ch c).
Proof. local_tac. Qed.

(** [parser_v1] never asks for a pause. *)
Lemma on_body_what_no_pause x y : on_body_what x ≠ Ok (bw_pause, y).
Proof.
  unfold on_body_what. change ((getP ≫= ?k) x) with (k (c_P x) x). cbv beta.
  case_match; cbn; intros [=].
Qed.
Lemma local_headers_almost_done ch : local (at_headers_almost_done ch).
Proof.
  unfold at_headers_almost_done. repeat local_step. apply local_bind'; [local_tac|].
  intros x what y E. destruct what; [local_tac..|exfalso; by apply on_body_what_no_pause in E].
Qed.

(** The states whose arm does not look at the buffer. *)
Definition is_local (s : state) : bool :=
  match s with
  | s_req_method0 | s_req_method | s_req_url0 | s_req_url | s_res_reason0 | s_res_reason
  | s_header_name0 | s_header_name | s_header_value0 | s_header_value
  | s_header_value_unfold | s_body_pause | s_body_identity0 | s_body_identity
  | s_body_identity_eof0 | s_body_identity_eof | s_chunk_data0 | s_chunk_data
  | s_chunk_data_cr | s_complete | s_restart => false
  | _ => true
  end.
Lemma step_local isRequest s ch :
  is_local s = true →
  ∃ m, local m ∧ ∀ data x, s_ (c_P x) = s → step isRequest data ch x = m x.
Proof.
  intros Hl.
  destruct s; try discriminate Hl; eexists;
    (split; [|intros data x Es; unfold step; rewrite (bind_ok getP _ x (c_P x) x), Es by done;
               reflexivity]);
    try apply local_headers_almost_done; local_tac.
Qed.

(** ** What a callback does, as a function *)

Definition flushed (d : parser_v1) : option parser_v1 :=
  if negb (flush_ d) then Some d
  else if String.eqb (field_ d) EmptyString then None
  else Some (set_value_ EmptyString (set_field_ EmptyString (set_m_
         (set_m_fields (fields_insert (field_ d) (value_ d) (m_fields (m_ d))) (m_ d))
         (set_flush_ false d)))).
Definition fits (limit left : Z) (s : string) : bool := (limit =? 0) || (strlenZ s <=? left).
Definition in_header (s : string) (d : option parser_v1) (P : parser) : option parser :=
  if fits (h_max_ P) (h_left_ P) s then
    option_map (λ d, after (u64 (h_left_ P - strlenZ s)) (b_left_ P) d P) d
  else None.
Definition in_body (s : string) (d : option parser_v1) (P : parser) : option parser :=
  if fits (b_max_ P) (b_left_ P) s then
    option_map (λ d, after (h_left_ P) (u64 (b_left_ P - strlenZ s)) d P) d
  else None.
Definition deliver (isRequest : bool) (f : pmf) (s : string) (P : parser) : option parser :=
  let d := derived P in
  match f with
  | call_on_method =>
      if isRequest then in_header s (Some (set_method_ (method_ d +:+ s) d)) P else Some P
  | call_on_uri =>
      if isRequest then in_header s (Some (set_uri_ (uri_ d +:+ s) d)) P else Some P
  | call_on_reason =>
      if isRequest then Some P else in_header s (Some (set_reason_ (reason_ d +:+ s) d)) P
  | call_on_field =>
      in_header s (option_map (λ d, set_field_ (field_ d +:+ s) d) (flushed d)) P
  | call_on_value =>
      in_header s (Some (set_flush_ true (set_value_ (value_ d +:+ s) d))) P
  | call_on_body =>
      in_body s (if r_ d then Some (set_m_ (set_m_body (m_body (m_ d) +:+ s) (m_ d)) d)
                 else None) P
  end.

Section Bytes.
Context (isRequest : bool).

Lemma within_header_eq s k x :
  within_header s k x =
  if fits (h_max_ (c_P x)) (h_left_ (c_P x)) s
  then k (set_P (set_h_left (u64 (h_left_ (c_P x) - strlenZ s)) (c_P x)) x)
  else Ok (tt, set_ec (Some header_too_big) x).
Proof.
  unfold within_header, fits. change ((getP ≫= ?k) x) with (k (c_P x) x). cbv beta.
  destruct (Z.eqb_spec (h_max_ (c_P x)) 0); [done|]. cbn [negb andb orb].
  rewrite Z.ltb_antisym. by destruct (strlenZ s <=? h_left_ (c_P x)).
Qed.
Lemma within_body_eq s k x :
  within_body s k x =
  if fits (b_max_ (c_P x)) (b_left_ (c_P x)) s
  then k (set_P (set_b_left (u64 (b_left_ (c_P x) - strlenZ s)) (c_P x)) x)
  else Ok (tt, set_ec (Some body_too_big) x).
Proof.
  unfold within_body, fits. change ((getP ≫= ?k) x) with (k (c_P x) x). cbv beta.
  destruct (Z.eqb_spec (b_max_ (c_P x)) 0); [done|]. cbn [negb andb orb].
  rewrite Z.ltb_antisym. by destruct (strlenZ s <=? b_left_ (c_P x)).
Qed.
Lemma flush_eq x :
  flush x =
  match flushed (derived (c_P x)) with
  | Some d => Ok (tt, set_P (set_derived d (c_P x)) x)
  | None => Fail (AssertionFailed "! field_.empty()")
  end.
Proof.
  unfold flush, flushed. change ((getP ≫= ?k) x) with (k (c_P x) x). cbv beta zeta.
  destruct (negb (flush_ (derived (c_P x)))); [by destruct x as [? ? ? []]|].
  change ((updD ?f ≫= ?k) x) with (k tt (set_P (set_derived (f (derived (c_P x))) (c_P x)) x)).
  cbv beta. by destruct (String.eqb (field_ (derived (c_P x))) EmptyString).
Qed.

Lemma on_field_eq s x :
  on_field s x =
  match flushed (derived (c_P x)) with
  | Some d => Ok (tt, set_P (set_derived (set_field_ (field_ d +:+ s) d) (c_P x)) x)
  | None => Fail (AssertionFailed "! field_.empty()")
  end.
Proof.
  unfold on_field.
  change ((flush ≫= ?k) x) with (match flush x with Ok (a, y) => k a y | Fail f => Fail f end).
  rewrite flush_eq. by destruct (flushed (derived (c_P x))).
Qed.
Lemma on_body_eq s x :
  on_body s x =
  if r_ (derived (c_P x)) then reader_write s x
  else Fail (AssertionFailed "this->is_initialized()").
Proof.
  unfold on_body. change ((getP ≫= ?k) x) with (k (c_P x) x). cbv beta.
  by destruct (r_ (derived (c_P x))).
Qed.

(** A callback succeeds where [deliver] does, with its result. *)
Lemma call_pmf_deliver f s x y :
  c_ec x = None → (call_pmf isRequest f s x = Ok (tt, y) ∧ c_ec y = None) ↔
  ∃ P, deliver isRequest f s (c_P x) = Some P ∧ y = set_P P x.
Proof.
  intros Ex. destruct x as [bg p ec P]. cbn in Ex. subst ec.
  destruct f; cbn [call_pmf deliver];
    unfold call_on_method_, call_on_uri_, call_on_reason_, call_on_field_, call_on_value_,
      call_on_body_, in_header, in_body;
    [destruct isRequest|destruct isRequest|destruct isRequest| | |];
    rewrite ?within_header_eq, ?within_body_eq; cbn [c_P].
  all: try (case_match; cbn [option_map]).
  all: try (split; [intros [[= <-] ?]; cbn in *; first [done|by eexists]
                   |intros (P0 & [=] & ->); subst; by split]).
  - rewrite on_field_eq. cbn [c_P set_P set_h_left derived]. destruct (flushed (derived P)); cbn;
      (split; [intros [[= <-] ?]; by eexists|intros (P0 & [=] & ->); subst; by split]).
  - rewrite on_body_eq. cbn [c_P set_P set_b_left derived]. destruct (r_ (derived P)); cbn;
      (split; [intros [[= <-] ?]; by eexists|intros (P0 & [=] & ->); subst; by split]).
Qed.

(** What a callback depends on. *)
Definition limits (P : parser) : Z * Z * Z * Z * parser_v1 :=
  (h_max_ P, h_left_ P, b_max_ P, b_left_ P, derived P).

Ltac same_limits :=
  let E1 := fresh in let E2 := fresh in let E3 := fresh in let E4 := fresh in let E5 := fresh in
  intros ? [= E1 E2 E3 E4 E5]; rewrite ?E1, ?E2, ?E3, ?E4, ?E5.
Lemma deliver_after f s P P1 :
  deliver isRequest f s P = Some P1 →
  ∃ h b d, P1 = after h b d P ∧
  ∀ P', limits P' = limits P → deliver isRequest f s P' = Some (after h b d P').
Proof.
  assert (∃ h b d, Some P = Some (after h b d P) ∧
    ∀ P', limits P' = limits P → Some P' = Some (after h b d P')) as Hid.
  { exists (h_left_ P), (b_left_ P), (derived P). rewrite after_same. split; [done|].
    intros P' [= _ <- _ <- <-]. by rewrite after_same. }
  unfold deliver, in_header, in_body.
  destruct f; [destruct isRequest|destruct isRequest|destruct isRequest| | |];
    try (intros [= <-]; destruct Hid as (h & b & d & [= E] & Hd); exists h, b, d; by split);
    (destruct (fits _ _ s) eqn:Ef; [|done]).
  1-3,5: intros [= <-]; do 3 eexists; (split; [reflexivity|]); same_limits; by rewrite Ef.
  - destruct (flushed (derived P)) as [d|] eqn:Ed; intros [= <-]. do 3 eexists.
    split; [reflexivity|]. same_limits. by rewrite Ef, Ed.
  - destruct (r_ (derived P)) eqn:Er; intros [= <-]. do 3 eexists.
    split; [reflexivity|]. same_limits. by rewrite Ef, Er.
Qed.

Lemma u64_minus l s t : u64 (u64 (l - s) - t) = u64 (l - (s + t)).
Proof. unfold u64. rewrite Zminus_mod_idemp_l. f_equal. lia. Qed.
Lemma fits_app limit l s t :
  (limit ≠ 0 → 0 ≤ l < 2 ^ 64) → fits limit l s = true →
  fits limit (u64 (l - strlenZ s)) t = true → fits limit l (s +:+ t) = true.
Proof.
  unfold fits. intros Hl Hs Ht. destruct (Z.eqb_spec limit 0) as [|Hn]; [done|]. cbn in *.
  specialize (Hl Hn). rewrite strlenZ_app. pose proof (strlenZ_nonneg s). unfold u64 in Ht.
  rewrite Z.mod_small in Ht; lia.
Qed.
Lemma left_range P :
  general_ok isRequest P →
  (h_max_ P ≠ 0 → 0 ≤ h_left_ P < 2 ^ 64) ∧ (b_max_ P ≠ 0 → 0 ≤ b_left_ P < 2 ^ 64).
Proof.
  intros Hg. destruct (ok_budget _ _ Hg) as [Hm Hh Hb].
  pose proof (header_size_nonneg (derived P)).
  pose proof (strlenZ_nonneg (m_body (m_ (derived P)))). split; intros Hn.
  - specialize (Hh Hn). lia.
  - specialize (Hb Hn). lia.
Qed.
Lemma flushed_idle d : flush_ d = false → flushed d = Some d.
Proof. unfold flushed. by intros ->. Qed.
Lemma flushed_false d d' : flushed d = Some d' → flush_ d' = false.
Proof.
  unfold flushed. destruct (flush_ d) eqn:E; cbn; [|by intros [= <-]].
  by destruct (String.eqb _ _); intros [= <-].
Qed.
(** Two pieces delivered one after the other are one piece. *)
Lemma deliver_app f s t P P1 P2 :
  general_ok isRequest P →
  deliver isRequest f s P = Some P1 → deliver isRequest f t P1 = Some P2 →
  deliver isRequest f (s +:+ t) P = Some P2.
Proof.
  intros Hg. destruct (left_range P Hg) as [Hh Hb].
  unfold deliver, in_header, in_body.
  destruct f; [destruct isRequest|destruct isRequest|destruct isRequest| | |];
    try (by intros [= <-]);
    (destruct (fits _ _ s) eqn:Es; [|done]).
  1-3,5: intros [= <-]; cbn [after set_derived set_b_left set_h_left h_max_ h_left_ b_max_ b_left_ derived];
    (destruct (fits _ _ t) eqn:Et; [|done]); rewrite (fits_app _ _ _ _ Hh Es Et), u64_minus, strlenZ_app;
    intros [= <-]; cbn [option_map]; f_equal; unfold after; cbn; by rewrite str_app_assoc.
  - destruct (flushed (derived P)) as [d|] eqn:Ed; [|done]. intros [= <-].
    pose proof (flushed_false _ _ Ed) as Ef.
    cbn [after set_derived set_b_left set_h_left h_max_ h_left_ b_max_ b_left_ derived].
    rewrite (flushed_idle (set_field_ _ d)) by done.
    destruct (fits _ _ t) eqn:Et; [|done]. rewrite (fits_app _ _ _ _ Hh Es Et), u64_minus, strlenZ_app.
    intros [= <-]. cbn [option_map]. f_equal. unfold after. cbn. by rewrite str_app_assoc.
  - destruct (r_ (derived P)) eqn:Er; [|done]. intros [= <-].
    cbn [after set_derived set_b_left set_h_left h_max_ h_left_ b_max_ b_left_ derived].
    cbn [r_ set_m_]. rewrite Er.
    destruct (fits _ _ t) eqn:Et; [|done]. rewrite (fits_app _ _ _ _ Hb Es Et), u64_minus, strlenZ_app.
    intros [= <-]. cbn [option_map]. f_equal. unfold after. cbn. by rewrite str_app_assoc.
Qed.

(** ** A parser in the middle of a buffer and one that has handed over its piece *)

Definition piece_of (data : string) (x : ctx) : string :=
  str_take (c_p x - c_begin x) (str_drop (c_begin x) data).
(** [Q] is what the parser in [x] is once the piece before [p] is handed over. *)
Record settled (data : string) (x : ctx) (Q : parser) : Prop := {
  se_ec : c_ec x = None;
  se_general : general_ok isRequest (c_P x);
  se_begin : (c_begin x ≤ c_p x)%nat;
  se_parser : match cb_ (c_P x) with
              | None => Q = c_P x
              | Some f =>
                  if (c_p x =? c_begin x)%nat then Q = c_P x
                  else deliver isRequest f (piece_of data x) (c_P x) = Some Q
              end;
}.
(** The start of a buffer. *)
Definition start (P : parser) : ctx := {| c_begin := 0; c_p := 0; c_ec := None; c_P := P |}.

Lemma settled_start data P : general_ok isRequest P → settled data (start P) P.
Proof. intros Hg. split; cbn; [done|done|lia|]. by destruct (cb_ P). Qed.
(** Handing a piece over changes the limits and the object alone. *)
Lemma settled_after data x Q :
  settled data x Q → ∃ h b d, Q = after h b d (c_P x) ∧
  ∀ P', general_ok isRequest P' → cb_ P' = cb_ (c_P x) → limits P' = limits (c_P x) →
    settled data (set_P P' x) (after h b d P').
Proof.
  intros [He Hg Hb Hs].
  assert (Q = c_P x → ∃ h b d, Q = after h b d (c_P x) ∧
    ∀ P', limits P' = limits (c_P x) → P' = after h b d P') as Hid.
  { intros ->. exists (h_left_ (c_P x)), (b_left_ (c_P x)), (derived (c_P x)).
    split; [by rewrite after_same|]. intros P' [= _ <- _ <- <-]. by rewrite after_same. }
  destruct (cb_ (c_P x)) as [f|] eqn:Ef; [destruct (c_p x =? c_begin x)%nat eqn:Ep|].
  1,3: destruct (Hid Hs) as (h & b & d & E & Hd); exists h, b, d; (split; [done|]);
    intros P' Hg' Ec El; (split; [done|done|done|]); cbn; rewrite Ec, ?Ep; symmetry; by apply Hd.
  destruct (deliver_after _ _ _ _ Hs) as (h & b & d & E & Hd). exists h, b, d. split; [done|].
  intros P' Hg' Ec El. split; [done|done|done|]. cbn. rewrite Ec, Ep. by apply Hd.
Qed.
Lemma settled_idle data x Q : settled data x Q → cb_ Q = None → c_P x = Q ∧ cb_ (c_P x) = None.
Proof.
  intros Hs Hcb. destruct (settled_after _ _ _ Hs) as (h & b & d & E & _).
  destruct Hs as [_ _ _ Hs]. assert (cb_ (c_P x) = None) as Ec by (rewrite E in Hcb; exact Hcb).
  rewrite Ec in Hs. by split.
Qed.
Lemma settled_none data x :
  c_ec x = None → general_ok isRequest (c_P x) → (c_begin x ≤ c_p x)%nat →
  cb_ (c_P x) = None → settled data x (c_P x).
Proof. intros ? ? ? Ec. split; try done. by rewrite Ec. Qed.
Lemma settled_fresh data x :
  c_ec x = None → general_ok isRequest (c_P x) → c_begin x = c_p x → settled data x (c_P x).
Proof.
  intros ? ? Eb. split; try done; [lia|]. rewrite Eb, Nat.eqb_refl. by destruct (cb_ (c_P x)).
Qed.

(** [cb(nullptr)] gives the same parser wherever the piece began. *)
Lemma cb_settled data x Q :
  settled data x Q → cb isRequest data None x = Ok (false, set_P (set_cb None Q) x).
Proof.
  intros [He Hg Hb Hs]. unfold cb. change ((st_get ≫= ?k) x) with (k x x). cbv beta.
  destruct (cb_ (c_P x)) as [f|]; [destruct (c_p x =? c_begin x)%nat eqn:Ep|].
  1,3: subst Q; by destruct x.
  destruct (proj2 (call_pmf_deliver f (piece_of data x) x (set_P Q x) He)) as [E _]; [by exists Q|].
  cbv beta.
  rewrite (bind_ok _ _ x false (set_P Q x)).
  { by destruct x. }
  rewrite (bind_ok (piece data) _ x (piece_of data x) x) by done.
  rewrite (bind_ok _ _ _ _ _ E), (bind_ok st_get _ _ (set_P Q x) (set_P Q x)) by done.
  cbn [c_ec set_P]. by rewrite He.
Qed.
Lemma begin_cb_eq data f x :
  cb_ (c_P x) = None →
  begin_cb isRequest data f x =
  Ok (tt, {| c_begin := c_p x; c_p := c_p x; c_ec := c_ec x; c_P := set_cb (Some f) (c_P x) |}).
Proof.
  intros Ec. unfold begin_cb.
  rewrite (bind_ok (assert_no_cb) _ x tt x).
  2:{ unfold assert_no_cb. rewrite (bind_ok getP _ x (c_P x) x) by done. by rewrite Ec. }
  unfold cb. rewrite (bind_ok _ _ x false {| c_begin := c_p x; c_p := c_p x; c_ec := c_ec x;
    c_P := set_cb (Some f) (c_P x) |}); [done|].
  rewrite (bind_ok st_get _ x x x), Ec by done. done.
Qed.

(** ** Code that begins a piece *)

(** Where no piece is under way, code that does not depend on the buffer or the
    position but for the piece it may begin at [p]. *)
Definition beginning {A} (m : string → M A) : Prop := ∀ data data' x x' a y,
  m data x = Ok (a, y) → cb_ (c_P x) = None → c_ec x' = c_ec x → c_P x' = c_P x →
  c_p y = c_p x ∧
  ∃ b, m data' x' = Ok (a, {| c_begin := b; c_p := c_p x'; c_ec := c_ec y; c_P := c_P y |}) ∧
    (cb_ (c_P y) ≠ None → b = c_p x') ∧ (b = c_begin x' ∨ b = c_p x').

Lemma beginning_local {A} (m : M A) : local m → beginning (λ _, m).
Proof.
  intros Hm data data' x x' a y E Ec Ex EP. destruct (Hm _ _ _ E) as (Hb & Hp & Hc & Hx).
  split; [done|]. exists (c_begin x'). split; [by apply Hx|]. split; [|by left].
  intros Hn. destruct Hc; congruence.
Qed.
Lemma beginning_bind_l {A B} (m : M A) (k : A → string → M B) :
  local m → (∀ a, beginning (k a)) → beginning (λ data, m ≫= λ a, k a data).
Proof.
  intros Hm Hk data data' x x' b z E Ec Ex EP. apply bind_inv in E as (a & y & Em & Ek).
  destruct (Hm _ _ _ Em) as (Hb & Hp & Hc & Hx). rewrite (bind_ok _ _ _ _ _ (Hx x' Ex EP)).
  destruct (Hk a data data' y {| c_begin := c_begin x'; c_p := c_p x'; c_ec := c_ec y; c_P := c_P y |} _ _ Ek)
    as (Ep & b' & E' & H1 & H2); [destruct Hc; congruence|done|done|].
  split; [congruence|]. by exists b'.
Qed.
Lemma beginning_bind_r {A B} (m : string → M A) (k : A → M B) :
  beginning m → (∀ a, local (k a)) → beginning (λ data, m data ≫= k).
Proof.
  intros Hm Hk data data' x x' b z E Ec Ex EP. apply bind_inv in E as (a & y & Em & Ek).
  destruct (Hm data data' x x' a y Em Ec Ex EP) as (Ep & b' & E' & H1 & H2).
  rewrite (bind_ok _ _ _ _ _ E'). destruct (Hk a _ _ _ Ek) as (Hb & Hp & Hc & Hx).
  split; [congruence|]. exists b'. split; [by rewrite Hx|]. split; [|done].
  intros Hn. apply H1. destruct Hc; congruence.
Qed.
Lemma beginning_begin_cb f : beginning (λ data, begin_cb isRequest data f).
Proof.
  intros data data' x x' [] y E Ec Ex EP. rewrite begin_cb_eq in E by done. injection E as <-.
  split; [done|]. exists (c_p x'). rewrite begin_cb_eq by congruence. cbn. rewrite Ex, EP.
  split; [done|]. split; [done|by right].
Qed.
Lemma beginning_if {A} (b : bool) (m m' : string → M A) :
  beginning m → beginning m' → beginning (λ data, if b then m data else m' data).
Proof. by destruct b. Qed.
Lemma beginning_if_ec (k : string → M flow) : beginning k → beginning (λ data, if_ec (k data)).
Proof.
  intros Hk data data' x x' a y E Ec Ex EP. rewrite if_ec_eq in E. rewrite if_ec_eq, Ex.
  destruct (c_ec x) eqn:Ee; [|apply (Hk data data' x x'); congruence].
  apply (beginning_local _ local_errc data data' x x'); congruence.
Qed.

Ltac beginning_step :=
  lazymatch goal with
  | |- beginning (λ data, begin_cb _ data _) => apply beginning_begin_cb
  | |- beginning (λ data, mbind _ (begin_cb _ data _)) =>
      apply beginning_bind_r; [apply beginning_begin_cb|intros ?; local_tac]
  | |- beginning (λ data, if _ then _ else _) => apply beginning_if
  | |- beginning (λ data, if_ec _) => apply beginning_if_ec
  | |- beginning (λ data, mbind _ _) => apply beginning_bind_l; [local_tac|intros ?]
  | |- beginning (λ data, _) => apply beginning_local; local_tac
  end.
Lemma beginning_method0 ch : beginning (λ data, at_req_method0 isRequest data ch).
Proof. unfold at_req_method0. repeat beginning_step. Qed.
Lemma beginning_url0 ch : beginning (λ data, at_req_url0 isRequest data ch).
Proof. unfold at_req_url0. repeat beginning_step. Qed.
Lemma beginning_reason0 ch : beginning (λ data, at_res_reason0 isRequest data ch).
Proof. unfold at_res_reason0. repeat beginning_step. Qed.
Lemma beginning_name0 ch : beginning (λ data, at_header_name0 isRequest data ch).
Proof. unfold at_header_name0. repeat beginning_step. Qed.
Lemma beginning_unfold : beginning (λ data, at_header_value_unfold isRequest data).
Proof. unfold at_header_value_unfold. repeat beginning_step. Qed.
Lemma beginning_chunk_data0 : beginning (λ data, at_chunk_data0 isRequest data).
Proof. unfold at_chunk_data0. repeat beginning_step. Qed.

(** ** A buffer and its next byte *)

(** The loop goes from one point to another. *)
Definition goes (data : string) (a : option ascii) (x : ctx) (b : option ascii) (x' : ctx) : Prop :=
  ∀ fuel r, write_loop isRequest data fuel b x' = Ok r →
  ∃ fuel', write_loop isRequest data fuel' a x = Ok r.

Lemma goes_refl data a x : goes data a x a x.
Proof. intros fuel r E. by exists fuel. Qed.
Lemma goes_trans data a x b y c z : goes data a x b y → goes data b y c z → goes data a x c z.
Proof. intros H1 H2 fuel r E. destruct (H2 _ _ E) as [fuel' E']. by apply (H1 fuel'). Qed.
Lemma loop_step data fuel c x f y :
  step isRequest data c x = Ok (f, y) →
  write_loop isRequest data (S fuel) (Some c) x =
  match f with
  | Break => (_ ← next_char; write_loop isRequest data fuel None) y
  | Redo => write_loop isRequest data fuel (Some c) y
  | Return => Ok (Return, y)
  end.
Proof.
  intros E. cbn [write_loop]. rewrite (bind_ok st_get _ x x x) by done.
  rewrite (bind_ok _ _ _ _ _ E). by destruct f.
Qed.
Lemma next_char_eq x : next_char x = Ok (tt, set_p (S (c_p x)) x).
Proof.
  unfold next_char, advance. rewrite (bind_ok st_get _ x x x) by done.
  by replace (c_p x + 2)%nat with (S (S (c_p x))) by lia.
Qed.
Lemma goes_redo data c x y :
  step isRequest data c x = Ok (Redo, y) → goes data (Some c) x (Some c) y.
Proof. intros E fuel r Er. exists (S fuel). by rewrite (loop_step _ _ _ _ _ _ E). Qed.
Lemma goes_break data c x y :
  step isRequest data c x = Ok (Break, y) →
  goes data (Some c) x None (set_p (S (c_p y)) y).
Proof.
  intros E fuel r Er. exists (S fuel). rewrite (loop_step _ _ _ _ _ _ E).
  by rewrite (bind_ok _ _ _ _ _ (next_char_eq y)).
Qed.
Lemma goes_fetch data c x :
  char_at data (c_p x) = Some c → goes data None x (Some c) x.
Proof.
  intros Ec [|fuel] r Er; [done|]. exists (S fuel). cbn [write_loop] in *.
  rewrite (bind_ok st_get _ x x x) in * by done. by rewrite Ec.
Qed.

(** What the switch does for the byte in the buffer, when [y] is what it does for
    the byte on its own. *)
Definition matched (data : string) (c : ascii) (x : ctx) (f : flow) (y : ctx) : Prop :=
  match f with
  | Redo =>
      y = start (c_P y) ∧
      ∃ x', goes data (Some c) x (Some c) x' ∧ c_p x' = c_p x ∧ settled data x' (c_P y)
  | Break =>
      y = start (c_P y) ∧
      ∃ x', goes data (Some c) x None (set_p (S (c_p x)) x') ∧ c_p x' = c_p x ∧
        settled data x' (c_P y)
  | Return =>
      c_p y = 1%nat ∧
      ∃ b, step isRequest data c x =
        Ok (Return, {| c_begin := b; c_p := S (c_p x); c_ec := None; c_P := c_P y |})
  end.
Lemma matched_step data c x f y x' :
  f ≠ Return → step isRequest data c x = Ok (f, x') → c_p x' = c_p x →
  y = start (c_P y) → settled data x' (c_P y) → matched data c x f y.
Proof.
  intros Hf E Ep Ey Hs. destruct f; [| |done]; (split; [done|]); exists x'.
  - split; [|by split]. rewrite <- Ep. by apply goes_break.
  - split; [by apply goes_redo|by split].
Qed.

(** The hypotheses of the step for one byte. *)
Record byte_step (data : string) (c : ascii) (x : ctx) (Q : parser) (f : flow) (y : ctx) : Prop := {
  by_char : char_at data (c_p x) = Some c;
  by_settled : settled data x Q;
  by_live : parser_live isRequest Q;
  by_step : step isRequest (str1 c) c (start Q) = Ok (f, y);
  by_ec : c_ec y = None;
}.
Lemma start_loop_ok Q : parser_live isRequest Q → loop_ok isRequest (start Q).
Proof.
  intros [(Hg & Hs & Hn) Hl]. split; cbn; [done|done| |lia|done]. intros E. left. by apply Hn.
Qed.
Lemma by_post data c x Q f y :
  byte_step data c x Q f y → step_post isRequest (str1 c) (start Q) f y.
Proof.
  intros [_ _ Hl E _]. pose proof (step_ok isRequest (str1 c) c (start Q) (start_loop_ok _ Hl)) as H.
  unfold wp in H. rewrite E in H. apply H. cbn. lia.
Qed.
Lemma by_general data c x Q f y : byte_step data c x Q f y → general_ok isRequest (c_P y).
Proof.
  intros H. pose proof (by_post _ _ _ _ _ _ H) as Hp. destruct f; cbn in Hp.
  - destruct Hp as [_ Hl]. apply Hl.
  - destruct Hp as (_ & Hl & _). apply Hl.
  - destruct Hp as (_ & Hl & _). apply Hl.
Qed.

(** An arm that may begin a piece. *)
Lemma sim_beginning m data c x Q f y :
  beginning m → byte_step data c x Q f y → cb_ Q = None →
  (∀ data x, c_P x = Q → step isRequest data c x = m data x) → matched data c x f y.
Proof.
  intros Hm Hb Hcb Hstep. pose proof (by_general _ _ _ _ _ _ Hb) as Hg.
  pose proof (by_post _ _ _ _ _ _ Hb) as Hpost. destruct Hb as [Hch Hs Hl E Ey].
  destruct (settled_idle _ _ _ Hs Hcb) as [EP Hcx]. rewrite Hstep in E by done.
  destruct (Hm (str1 c) (str1 c) (start Q) (start Q) f y E Hcb eq_refl eq_refl) as (Ep & b & E' & _ & Hb).
  destruct (Hm (str1 c) data (start Q) x f y E Hcb) as (_ & b' & Ex & H1 & H2);
    [apply Hs|done|].
  assert (y = start (c_P y)) as Est.
  { assert (b = 0%nat) as -> by by destruct Hb. rewrite E in E'. injection E' as E'.
    rewrite Ey in E'. exact E'. }
  assert (f ≠ Return) as Hf.
  { intros ->. destruct Hpost as (_ & _ & Hr). destruct (Hr Ey) as [_ Hr']. cbn in *. lia. }
  set (x' := {| c_begin := b'; c_p := c_p x; c_ec := c_ec y; c_P := c_P y |}) in *.
  apply (matched_step data c x f y x' Hf); [by rewrite Hstep|done|done|].
  destruct (cb_ (c_P y)) as [g|] eqn:Eg.
  - apply (settled_fresh data x'); [done|done|by apply H1].
  - apply (settled_none data x'); [done|done| |done].
    cbn. pose proof (se_begin _ _ _ Hs). destruct H2; lia.
Qed.

(** An arm that looks at the byte alone. *)
Lemma sim_local data c x Q f y :
  byte_step data c x Q f y → cb_ Q = None → is_local (s_ Q) = true → matched data c x f y.
Proof.
  intros Hb Hcb Hl. destruct (step_local isRequest (s_ Q) c Hl) as (m & Hm & Hstep).
  apply (sim_beginning (λ _, m) data c x Q f y); [by apply beginning_local|done|done|].
  intros data' x' EP. apply Hstep. by rewrite EP.
Qed.

(** An arm at which a piece ends: the callback has the same to say. *)
Lemma end_cb_settled data x Q s :
  settled data x Q →
  end_cb isRequest data s x = Ok (Break, set_P (set_s s (set_cb None Q)) x).
Proof. intros Hs. unfold end_cb. by rewrite (bind_ok _ _ _ _ _ (cb_settled _ _ _ Hs)). Qed.
Lemma sim_end data c x Q f y s :
  byte_step data c x Q f y →
  (∀ data x, s_ (c_P x) = s_ Q → char_at data (c_p x) = Some c →
     step isRequest data c x = end_cb isRequest data s x) →
  matched data c x f y.
Proof.
  intros Hb H. pose proof (by_general _ _ _ _ _ _ Hb) as Hg. destruct Hb as [Hch Hs Hl E Ey].
  destruct (settled_after _ _ _ Hs) as (h & b & d & EQ & _).
  rewrite H, (end_cb_settled _ _ Q) in E by (done || apply settled_start, Hl).
  injection E as <- <-.
  apply (matched_step data c x Break _ (set_P (set_s s (set_cb None Q)) x)); [done| |done|done|].
  - rewrite H by (done || by rewrite EQ). by apply end_cb_settled.
  - apply (settled_none data (set_P (set_s s (set_cb None Q)) x)); [apply Hs|done|apply Hs|done].
Qed.
(** An arm that leaves the byte to the piece. *)
Lemma sim_keep data c x Q f y :
  byte_step data c x Q f y → step isRequest (str1 c) c (start Q) = Ok (Break, start Q) →
  step isRequest data c x = Ok (Break, x) → matched data c x f y.
Proof.
  intros [Hch Hs Hl E Ey] E1 E2. rewrite E1 in E. injection E as <- <-.
  by apply (matched_step data c x Break _ x).
Qed.

End Bytes.
