(* ===== verification/HttpParserStream.v ===== *)
(** * However the bytes arrive

    Writing a buffer to the parser is the same as writing its bytes one at a time,
    so what a read gives does not depend on how the bytes of a message reach the
    socket. *)

From Stdlib Require Import ZifyBool.
From S2P Require Import Prelude HttpMessage HttpParser HttpParserSafe HttpParserReads HttpParserBytes.

Local Open Scope Z_scope.

(** The bytes one at a time, until an error or the end of the message. *)
Fixpoint write_bytes (isRequest : bool) (data : string) (P : parser) : outcome written :=
  match data with
  | EmptyString => Ok (0%nat, None, P)
  | String c rest =>
      '(n, ec, P1) ← write isRequest (str1 c) P;
      match ec with
      | Some e => Ok (n, Some e, P1)
      | None =>
          if complete P1 then Ok (n, None, P1) else
          '(k, ec, P2) ← write_bytes isRequest rest P1;
          Ok ((n + k)%nat, ec, P2)
      end
  end.

Section Stream.
Context (isRequest : bool).

(** ** The arms, one byte at a time *)

Lemma step_eq data c x s :
  s_ (c_P x) = s → step isRequest data c x = (match s with
  | s_req_method0 => at_req_method0 isRequest data c
  | s_req_method => at_req_method isRequest data c
  | s_req_url0 => at_req_url0 isRequest data c
  | s_req_url => at_req_url isRequest data c
  | s_res_reason0 => at_res_reason0 isRequest data c
  | s_res_reason => at_res_reason isRequest data c
  | s_header_name0 => at_header_name0 isRequest data c
  | s_header_name => at_header_name isRequest data
  | s_header_value0 => at_header_value0 isRequest data c
  | s_header_value => at_header_value isRequest data
  | s_header_value_unfold => at_header_value_unfold isRequest data
  | s_body_identity0 => at_body_identity0 isRequest data
  | s_body_identity => at_body_identity data
  | s_body_identity_eof0 => at_body_identity_eof0 isRequest data
  | s_body_identity_eof => at_body_identity_eof data
  | s_chunk_data0 => at_chunk_data0 isRequest data
  | s_chunk_data => at_chunk_data data
  | s_chunk_data_cr => at_chunk_data_cr isRequest data c
  | s_complete => at_complete isRequest data
  | _ => step isRequest data c
  end) x.
Proof.
  intros E. destruct s; try done; unfold step; rewrite (bind_ok getP _ x (c_P x) x) by done;
    by rewrite E.
Qed.
Lemma settled_s data x Q :
  settled isRequest data x Q → s_ (c_P x) = s_ Q ∧ cb_ (c_P x) = cb_ Q ∧
  content_length_ (c_P x) = content_length_ Q.
Proof. intros Hs. by destruct (settled_after _ _ _ _ Hs) as (h & b & d & -> & _). Qed.
Lemma live_state Q : parser_live isRequest Q → state_ok Q.
Proof. intros [(_ & H & _) _]. exact H. Qed.

Definition byte_ok (s : state) : Prop := ∀ data c x Q f y,
  byte_step isRequest data c x Q f y → s_ Q = s → matched isRequest data c x f y.

Ltac cb_none := match goal with
  | Hb : byte_step _ _ _ _ _ _ _, E : s_ _ = _ |- _ =>
    let H := fresh in pose proof (live_state _ (by_live _ _ _ _ _ _ _ Hb)) as H;
    unfold state_ok in H; rewrite E in H; tauto
  end.
Ltac arm_beginning lem :=
  intros data c x Q f y Hb E; eapply sim_beginning; [apply lem|exact Hb|cb_none|];
  intros data' x' Ex; subst Q; rewrite (step_eq _ _ _ _ E); reflexivity.
Lemma byte_method0 : byte_ok s_req_method0.
Proof. arm_beginning beginning_method0. Qed.
Lemma byte_url0 : byte_ok s_req_url0.
Proof. arm_beginning beginning_url0. Qed.
Lemma byte_reason0 : byte_ok s_res_reason0.
Proof. arm_beginning beginning_reason0. Qed.
Lemma byte_name0 : byte_ok s_header_name0.
Proof. arm_beginning beginning_name0. Qed.
Lemma byte_unfold : byte_ok s_header_value_unfold.
Proof. arm_beginning beginning_unfold. Qed.
Lemma byte_chunk_data0 : byte_ok s_chunk_data0.
Proof. arm_beginning beginning_chunk_data0. Qed.
Lemma byte_local s : is_local s = true → byte_ok s.
Proof.
  intros Hl data c x Q f y Hb E. apply sim_local with Q; [done| |by rewrite E].
  pose proof (live_state _ (by_live _ _ _ _ _ _ _ Hb)) as Hs. pose proof (by_live _ _ _ _ _ _ _ Hb) as [_ Hv].
  unfold state_ok in Hs. rewrite E in *. destruct s; try done; tauto.
Qed.

(** An arm that ends a piece at a byte, refuses another, and keeps the rest. *)
Lemma byte_until (stop : bool) (ok : bool) e s data c x Q f y :
  byte_step isRequest data c x Q f y →
  (∀ data x, s_ (c_P x) = s_ Q → step isRequest data c x =
     (if stop then end_cb isRequest data s else if negb ok then err e else mret Break) x) →
  matched isRequest data c x f y.
Proof.
  intros Hb H. destruct (settled_s _ _ _ (by_settled _ _ _ _ _ _ _ Hb)) as (Es & _).
  destruct stop; [apply sim_end with Q s; [done|intros d' x' Ex _; by apply H]|].
  destruct ok; [apply sim_keep with Q; [done|by apply H|by apply H]|].
  destruct Hb as [_ _ _ E Ey]. rewrite H in E by done. injection E as <- <-. done.
Qed.
Lemma byte_method : byte_ok s_req_method.
Proof.
  intros data c x Q f y Hb E. eapply byte_until; [done|]. intros d' x' Ex. rewrite E in Ex.
  by rewrite (step_eq _ _ _ _ Ex).
Qed.
Lemma byte_url : byte_ok s_req_url.
Proof.
  intros data c x Q f y Hb E. eapply byte_until; [done|]. intros d' x' Ex. rewrite E in Ex.
  by rewrite (step_eq _ _ _ _ Ex).
Qed.
Lemma byte_reason : byte_ok s_res_reason.
Proof.
  intros data c x Q f y Hb E. eapply byte_until; [done|]. intros d' x' Ex. rewrite E in Ex.
  by rewrite (step_eq _ _ _ _ Ex).
Qed.
Lemma byte_chunk_data_cr : byte_ok s_chunk_data_cr.
Proof.
  intros data c x Q f y Hb E. destruct (Ascii.eqb c cr) eqn:Ec.
  - eapply sim_end; [done|]. intros d' x' Ex _. rewrite E in Ex. rewrite (step_eq _ _ _ _ Ex).
    unfold at_chunk_data_cr. by rewrite Ec.
  - destruct Hb as [_ _ _ Es Ey]. rewrite (step_eq _ _ (start Q) _ E) in Es.
    unfold at_chunk_data_cr in Es. rewrite Ec in Es. injection Es as <- <-. done.
Qed.

(** *** Arms that take many bytes at once *)

Lemma complete_return data x f y : at_complete isRequest data x = Ok (f, y) → f = Return.
Proof.
  intros E. apply bind_inv in E as (_ & x1 & _ & E). apply bind_inv in E as ([] & x2 & _ & E).
  { by injection E. }
  apply bind_inv in E as (_ & x3 & _ & E). rewrite if_ec_eq in E. by destruct (c_ec x3); injection E.
Qed.
(** An arm that takes the next byte as it would take it by itself. *)
Lemma goes_absorb data c c' x z :
  step isRequest data c x = step isRequest data c' z → char_at data (c_p z) = Some c' →
  (∀ y, step isRequest data c x = Ok (Redo, y) → s_ (c_P y) = s_complete) →
  goes isRequest data (Some c) x None z.
Proof.
  intros E Ec Hr fuel r Er. exists fuel. destruct fuel as [|fuel]; [done|].
  cbn [write_loop] in *. rewrite (bind_ok st_get _ x x x) by done.
  rewrite (bind_ok st_get _ z z z), Ec in Er by done.
  apply bind_inv in Er as (f & y & Es & Er). rewrite <- E in Es.
  rewrite (bind_ok _ _ _ _ _ Es). destruct f; [done| |done].
  specialize (Hr y Es). destruct fuel as [|fuel]; [done|].
  cbn [write_loop] in *. rewrite (bind_ok st_get _ y y y) by done.
  rewrite (bind_ok st_get _ y y y) in Er by done.
  apply bind_inv in Er as (f & y' & Es' & Er).
  pose proof (complete_return _ _ _ _ (eq_trans (eq_sym (step_eq data c' y _ Hr)) Es')) as ->.
  rewrite (bind_ok _ _ y Return y'); [done|].
  exact (eq_trans (step_eq data c y _ Hr) (eq_trans (eq_sym (step_eq data c' y _ Hr)) Es')).
Qed.
(** A change the callbacks do not depend on. *)
Lemma settled_set data x Q g :
  settled isRequest data x Q → (∀ h b d P, g (after h b d P) = after h b d (g P)) →
  cb_ (g (c_P x)) = cb_ (c_P x) → limits (g (c_P x)) = limits (c_P x) →
  general_ok isRequest (g (c_P x)) →
  settled isRequest data (set_P (g (c_P x)) x) (g Q).
Proof.
  intros Hs Hg Ec El Ho. destruct (settled_after _ _ _ _ Hs) as (h & b & d & EQ & H).
  rewrite EQ, Hg. by apply H.
Qed.
Lemma general_length v P :
  general_ok isRequest P → 0 ≤ v < 2 ^ 64 → general_ok isRequest (set_content_length v P).
Proof. intros [] ?. by split. Qed.
Lemma general_s s P :
  general_ok isRequest P → s_ P ≠ s_dead → general_ok isRequest (set_s s P).
Proof. intros [] ?. split; auto. Qed.

(** The bytes of a body of a known length. *)
Lemma take_eq data x k :
  content_length_ (c_P x) = k → 0 < k < 2 ^ 64 → (c_p x < size data)%nat →
  ∃ n, available data x = S n ∧ u64 (k - Z.of_nat (S n)) = k - Z.of_nat (S n) ∧
    (S n = (size data - c_p x)%nat ∧ Z.of_nat (S n) < k ∨
     (S n ≤ size data - c_p x)%nat ∧ Z.of_nat (S n) = k).
Proof.
  intros Ek Hk Hp. destruct (available_bounds data x Hp ltac:(lia)) as [Ha Hl]. rewrite Ek in Hl.
  exists (available data x - 1)%nat. replace (S (available data x - 1)) with (available data x) by lia.
  split; [done|]. split; [unfold u64; rewrite Z.mod_small; lia|].
  unfold available in *. rewrite Ek in *. case_match; lia.
Qed.
Lemma identity_eq data x n :
  available data x = S n → content_length_ (c_P x) ≠ 0 → content_length_ (c_P x) ≠ no_content_length →
  at_body_identity data x =
  let P := set_content_length (u64 (content_length_ (c_P x) - Z.of_nat (S n))) (c_P x) in
  let y := {| c_begin := c_begin x; c_p := c_p x + n; c_ec := c_ec x; c_P := P |} in
  if content_length_ P =? 0 then Ok (Redo, set_P (set_s s_complete P) y) else Ok (Break, y).
Proof.
  intros En H0 H1. unfold at_body_identity. rewrite (bind_ok st_get _ x x x) by done. rewrite En.
  destruct (Z.eqb_spec (content_length_ (c_P x)) 0); [done|].
  destruct (Z.eqb_spec (content_length_ (c_P x)) no_content_length); [done|]. cbn [negb andb].
  rewrite (bind_ok (BOOST_ASSERT true _) _ x tt x) by done.
  set (P := set_content_length _ _). cbv zeta. set (z := set_P P x).
  rewrite (bind_ok (updP _) _ x tt z), (bind_ok getP _ z P z) by done.
  rewrite (bind_ok (advance (S n)) _ z tt (set_p (c_p x + n) z)).
  2:{ unfold advance. rewrite (bind_ok st_get _ z z z) by done. cbn [c_p z set_P].
      by replace (c_p x + S n)%nat with (S (c_p x + n)) by lia. }
  by destruct (content_length_ P =? 0).
Qed.
Lemma chunk_data_eq data x n :
  available data x = S n →
  at_chunk_data data x =
  let P := set_content_length (u64 (content_length_ (c_P x) - Z.of_nat (S n))) (c_P x) in
  let y := {| c_begin := c_begin x; c_p := c_p x + n; c_ec := c_ec x; c_P := P |} in
  Ok (Break, if content_length_ P =? 0 then set_P (set_s s_chunk_data_cr P) y else y).
Proof.
  intros En. unfold at_chunk_data. rewrite (bind_ok st_get _ x x x) by done. rewrite En.
  set (P := set_content_length _ _). cbv zeta. set (z := set_P P x).
  rewrite (bind_ok (updP _) _ x tt z) by done.
  rewrite (bind_ok (advance (S n)) _ z tt (set_p (c_p x + n) z)).
  2:{ unfold advance. rewrite (bind_ok st_get _ z z z) by done. cbn [c_p z set_P].
      by replace (c_p x + S n)%nat with (S (c_p x + n)) by lia. }
  rewrite (bind_ok getP _ (set_p (c_p x + n) z) P (set_p (c_p x + n) z)) by done.
  by destruct (content_length_ P =? 0).
Qed.

Ltac take_simpl E :=
  cbv zeta in E; cbn [start c_P c_p c_begin c_ec content_length_ set_content_length] in E.
(** An arm that takes what there is of the bytes it expects. *)
Lemma byte_take f_end s_end data c x Q f y :
  byte_step isRequest data c x Q f y → f_end ≠ Return → (f_end = Redo → s_end = s_complete) →
  0 < content_length_ Q →
  (∀ data c x n, s_ (c_P x) = s_ Q → 0 < content_length_ (c_P x) ≤ content_length_ Q →
     available data x = S n →
     step isRequest data c x =
     let P := set_content_length (u64 (content_length_ (c_P x) - Z.of_nat (S n))) (c_P x) in
     let y := {| c_begin := c_begin x; c_p := c_p x + n; c_ec := c_ec x; c_P := P |} in
     if content_length_ P =? 0 then Ok (f_end, set_P (set_s s_end P) y) else Ok (Break, y)) →
  matched isRequest data c x f y.
Proof.
  intros [Hch Hs Hl E Ey] Hf He Hk H.
  destruct (settled_s _ _ _ Hs) as (Es & _ & Ek). destruct Hl as [(Hg & _ & _) Hlive].
  assert (s_ Q ≠ s_dead) as Hd by by intros Ed; rewrite Ed in Hlive.
  assert (c_p x < size data)%nat as Hp by (apply char_at_is_Some; by rewrite Hch).
  pose proof (ok_length _ _ Hg) as Hr. set (k := content_length_ Q) in *.
  destruct (take_eq (str1 c) (start Q) k eq_refl ltac:(lia) ltac:(cbn; lia)) as (n0 & En0 & Eu0 & Hn0).
  assert (n0 = 0%nat) as -> by (cbn in Hn0; lia). change (Z.of_nat 1) with 1 in Eu0.
  rewrite (H _ _ _ 0%nat) in E by (done || cbn; lia).
  take_simpl E. fold k in E. change (Z.of_nat 1) with 1 in E. rewrite Eu0 in E.
  destruct (take_eq data x k Ek ltac:(lia) Hp) as (n & En & Eu & Hn).
  pose proof (H data c x n Es ltac:(lia) En) as Ex. take_simpl Ex. rewrite Ek, Eu in Ex.
  assert (general_ok isRequest (set_content_length (k - 1) (c_P x))) as Hgx
    by (apply general_length; [apply Hs|lia]).
  destruct (Z.eqb_spec (k - 1) 0) as [E1|E1]; injection E as <- <-.
  - assert (n = 0%nat) as -> by lia. change (Z.of_nat 1) with 1 in Ex.
    rewrite (proj2 (Z.eqb_eq _ _) E1), Nat.add_0_r in Ex. eapply matched_step; [done|exact Ex|done|done|].
    apply (settled_set data x Q (λ P, set_s s_end (set_content_length (k - 1) P))); [done|done|done|done|].
    apply general_s; [done|]. cbn. congruence.
  - assert (settled isRequest data (set_P (set_content_length (k - 1) (c_P x)) x)
              (set_content_length (k - 1) Q)) as Hset
      by by apply (settled_set data x Q (set_content_length (k - 1))).
    set (z := set_P (set_content_length (k - 1) (c_P x)) x) in *.
    destruct (char_at data (S (c_p x))) as [c'|] eqn:Hc'.
    + assert (S (c_p x) < size data)%nat as Hp' by (apply char_at_is_Some; by rewrite Hc').
      set (z' := set_p (S (c_p x)) z).
      destruct (take_eq data z' (k - 1) eq_refl ltac:(lia) Hp') as (n' & En' & Eu' & Hn').
      cbn [z' c_p set_p] in Hn'.
      pose proof (H data c' z' n' Es ltac:(cbn; lia) En') as Ez. take_simpl Ez.
      cbn [z' z c_P c_p c_begin c_ec set_p set_P content_length_ set_content_length] in Ez. rewrite Eu' in Ez.
      assert (n = S n') as -> by lia.
      replace (k - 1 - Z.of_nat (S n')) with (k - Z.of_nat (S (S n'))) in Ez by lia.
      replace (c_p x + S n')%nat with (S (c_p x + n')) in Ex by lia.
      assert (step isRequest data c x = step isRequest data c' z') as Exz by (rewrite Ex, Ez; done).
      split; [done|]. exists z. split; [|done].
      apply goes_absorb with c'; [done|done|]. rewrite Ex.
      intros w. destruct (_ =? 0); [|done]. intros [= Ef <-]. cbn. by apply He.
    + apply char_at_None in Hc'. assert (n = 0%nat) as -> by (unfold size in *; lia).
      change (Z.of_nat 1) with 1 in Ex. rewrite (proj2 (Z.eqb_neq _ _) E1), Nat.add_0_r in Ex.
      by apply (matched_step _ data c x Break _ z).
Qed.
Lemma byte_identity : byte_ok s_body_identity.
Proof.
  intros data c x Q f y Hb E. pose proof (live_state _ (by_live _ _ _ _ _ _ _ Hb)) as Hs.
  destruct (by_live _ _ _ _ _ _ _ Hb) as [(Hg & _ & _) _]. pose proof (ok_length _ _ Hg) as Hk.
  unfold state_ok in Hs. rewrite E in Hs. unfold no_content_length in Hs.
  apply byte_take with Redo s_complete Q; [done|done|done|lia|].
  intros d' c' x' n Es Hl En. rewrite E in Es. rewrite (step_eq _ _ _ _ Es).
  apply identity_eq; [done|lia|unfold no_content_length; lia].
Qed.
Lemma byte_chunk_data : byte_ok s_chunk_data.
Proof.
  intros data c x Q f y Hb E. pose proof (live_state _ (by_live _ _ _ _ _ _ _ Hb)) as Hs.
  destruct (by_live _ _ _ _ _ _ _ Hb) as [(Hg & _ & _) _]. pose proof (ok_length _ _ Hg) as Hk.
  unfold state_ok in Hs. rewrite E in Hs.
  apply byte_take with Break s_chunk_data_cr Q; [done|done|done|lia|].
  intros d' c' x' n Es Hl En. rewrite E in Es. rewrite (step_eq _ _ _ _ Es), (chunk_data_eq _ _ _ En).
  cbn. by destruct (_ =? 0).
Qed.

(** The bytes of a body that ends with the connection. *)
Lemma eof_eq data x :
  (c_p x < size data)%nat → at_body_identity_eof data x = Ok (Break, set_p (size data - 1) x).
Proof.
  intros Hp. unfold at_body_identity_eof. rewrite (bind_ok st_get _ x x x) by done.
  unfold advance. rewrite (bind_ok _ _ x tt (set_p (size data - 1) x)); [done|].
  rewrite (bind_ok st_get _ x x x) by done.
  by replace (c_p x + (size data - c_p x))%nat with (S (size data - 1)) by lia.
Qed.
Lemma byte_eof : byte_ok s_body_identity_eof.
Proof.
  intros data c x Q f y Hb E. destruct Hb as [Hch Hs Hl E' Ey].
  destruct (settled_s _ _ _ Hs) as (Es & _). rewrite E in Es.
  assert (c_p x < size data)%nat as Hp by (apply char_at_is_Some; by rewrite Hch).
  rewrite (step_eq _ _ (start Q) _ E), eof_eq in E' by (cbn; lia). injection E' as <- <-.
  pose proof (step_eq data c x _ Es) as Ex. cbv iota in Ex. rewrite eof_eq in Ex by done.
  destruct (char_at data (S (c_p x))) as [c'|] eqn:Hc'.
  - assert (S (c_p x) < size data)%nat as Hp' by (apply char_at_is_Some; by rewrite Hc').
    split; [done|]. exists x. split; [|done].
    apply goes_absorb with c'; [|done|by rewrite Ex].
    rewrite Ex, (step_eq data c' (set_p (S (c_p x)) x) _ Es). by rewrite eof_eq.
  - apply char_at_None in Hc'. apply (matched_step _ data c x Break _ x); [done| |done|done|done].
    rewrite Ex. replace (size data - 1)%nat with (c_p x) by (unfold size in *; lia). by destruct x.
Qed.

(** An arm that falls through to another. *)
Lemma byte_through s0 data c x Q f y x0 Q0 :
  byte_ok s0 → byte_step isRequest data c x Q f y → s_ Q0 = s0 → c_p x0 = c_p x →
  settled isRequest data x0 Q0 → parser_live isRequest Q0 →
  step isRequest (str1 c) c (start Q) = step isRequest (str1 c) c (start Q0) →
  step isRequest data c x = step isRequest data c x0 → matched isRequest data c x f y.
Proof.
  intros H0 [Hch Hs Hl E Ey] E0 Ep Hs0 Hl0 Eq Ex.
  assert (matched isRequest data c x0 f y) as Hm.
  { apply H0 with Q0; [|done]. split; [by rewrite Ep|done|done|congruence|done]. }
  assert (∀ b z, goes isRequest data (Some c) x0 b z →
    goes isRequest data (Some c) x b z) as Hg.
  { intros b z Hz fuel r Er. destruct (Hz _ _ Er) as [[|fuel'] Er']; [done|].
    exists (S fuel'). cbn [write_loop] in *. rewrite (bind_ok st_get _ x x x) by done.
    rewrite (bind_ok st_get _ x0 x0 x0) in Er' by done.
    apply bind_inv in Er' as (g & w & Ew & Er'). rewrite <- Ex in Ew.
    by rewrite (bind_ok _ _ _ _ _ Ew). }
  destruct f; cbn in Hm |- *.
  - destruct Hm as (? & x' & ? & ? & ?). split; [done|]. exists x'. rewrite Ep in *. auto.
  - destruct Hm as (? & x' & ? & ? & ?). split; [done|]. exists x'. rewrite Ep in *. auto.
  - destruct Hm as (? & b & Eb). split; [done|]. exists b. by rewrite Ex, Eb, Ep.
Qed.
(** An arm that begins a piece and falls through. *)
Lemma byte_begin s0 g data c x Q f y P :
  let Q0 := set_s s0 (set_cb (Some g) P) in
  byte_ok s0 → byte_step isRequest data c x Q f y → cb_ Q = None → parser_live isRequest Q0 →
  (∀ data x, c_P x = Q → c_ec x = None →
     step isRequest data c x =
     step isRequest data c {| c_begin := c_p x; c_p := c_p x; c_ec := None; c_P := Q0 |}) →
  matched isRequest data c x f y.
Proof.
  intros Q0 H0 Hb Hcb Hl0 H. pose proof Hb as [Hch Hs Hl E Ey].
  destruct (settled_idle _ _ _ _ Hs Hcb) as [EP _].
  apply (byte_through s0 data c x Q f y
    {| c_begin := c_p x; c_p := c_p x; c_ec := None; c_P := Q0 |} Q0); try done.
  - apply (settled_fresh isRequest data {| c_begin := c_p x; c_p := c_p x; c_ec := None; c_P := Q0 |});
      [done|apply Hl0|done].
  - by rewrite (H (str1 c) (start Q)).
  - apply H; [done|apply Hs].
Qed.
Lemma live_begin s0 g P :
  general_ok isRequest P → s_ P ≠ s_dead → (g = call_on_body → has_reader P) →
  state_ok (set_s s0 (set_cb (Some g) P)) → s0 ≠ s_header_name → live s0 = true →
  parser_live isRequest (set_s s0 (set_cb (Some g) P)).
Proof.
  intros [] Hd Hr Hs Hn Hl. split; [|done]. split; [|by split]. split; auto. cbn. by intros [= ->]; apply Hr.
Qed.
Lemma begin_eq {A} data g x (m : M A) s0 :
  cb_ (c_P x) = None → c_ec x = None →
  (_ ← begin_cb isRequest data g; _ ← updP (set_s s0); m) x =
  m {| c_begin := c_p x; c_p := c_p x; c_ec := None; c_P := set_s s0 (set_cb (Some g) (c_P x)) |}.
Proof.
  intros Hcb Ee. rewrite (bind_ok _ _ _ _ _ (begin_cb_eq isRequest data g x Hcb)), Ee. done.
Qed.
Lemma live_dead Q : parser_live isRequest Q → s_ Q ≠ s_dead.
Proof. intros [_ Hl] E. by rewrite E in Hl. Qed.
Ltac begin_arm s0 g lem :=
  intros data c x Q f y Hb E; pose proof (by_live _ _ _ _ _ _ _ Hb) as Hl;
  pose proof (live_state _ Hl) as Hs; unfold state_ok in Hs; rewrite E in Hs;
  apply (byte_begin s0 g data c x Q f y Q); [exact lem|exact Hb|tauto| |];
  [apply live_begin; [apply Hl|by apply live_dead|tauto|unfold state_ok; cbn; split_and?; first [done|apply Hs]|done|done]|];
  intros d' x' Ex Ee; subst Q; rewrite (step_eq _ _ _ _ E); 
  rewrite (step_eq _ _ {| c_P := set_s s0 _ |} s0) by done; apply begin_eq; tauto.
Lemma byte_identity0 : byte_ok s_body_identity0.
Proof. begin_arm s_body_identity call_on_body byte_identity. Qed.
Lemma byte_eof0 : byte_ok s_body_identity_eof0.
Proof. begin_arm s_body_identity_eof call_on_body byte_eof. Qed.

(** *** The end of the message *)
Lemma piece_succ data x c :
  char_at data (c_p x) = Some c → (c_begin x ≤ c_p x)%nat →
  piece_of data (set_p (S (c_p x)) x) = piece_of data x +:+ str1 c.
Proof.
  intros Ec Hb. unfold piece_of. cbn [c_p c_begin set_p].
  replace (S (c_p x) - c_begin x)%nat with (S (c_p x - c_begin x)) by lia.
  apply str_take_snoc. rewrite char_at_drop. by replace (c_begin x + (c_p x - c_begin x))%nat with (c_p x) by lia.
Qed.
(** The next byte belongs to the piece. *)
Definition grown (c : ascii) (Q Q2 : parser) : Prop :=
  match cb_ Q with
  | None => Q2 = Q
  | Some g => deliver isRequest g (str1 c) Q = Some Q2
  end.
Lemma settled_next data x Q c Q2 :
  settled isRequest data x Q → char_at data (c_p x) = Some c → grown c Q Q2 →
  settled isRequest data (set_p (S (c_p x)) x) Q2.
Proof.
  intros Hs Ec Hg. destruct (settled_s _ _ _ Hs) as (_ & Ecb & _).
  destruct Hs as [He Ho Hb Hs]. unfold grown in Hg. rewrite <- Ecb in Hg.
  split; [done|done|cbn; lia|]. cbn [c_P set_p].
  destruct (cb_ (c_P x)) as [g|]; [|congruence].
  cbn [c_p c_begin set_p]. destruct (Nat.eqb_spec (S (c_p x)) (c_begin x)); [lia|].
  fold (set_p (S (c_p x)) x). rewrite (piece_succ _ _ _ Ec Hb).
  destruct (Nat.eqb_spec (c_p x) (c_begin x)) as [Ep|Ep].
  - subst Q. unfold piece_of. by rewrite Ep, Nat.sub_diag.
  - by apply (deliver_app isRequest g _ _ _ Q).
Qed.
(** The callback on the byte itself. *)
Lemma cb_grown c Q e y :
  cb isRequest (str1 c) None (set_p 1 (start Q)) = Ok (e, y) → c_ec y = None →
  ∃ Q2, grown c Q Q2 ∧ e = false ∧ y = set_P (set_cb None Q2) (set_p 1 (start Q)).
Proof.
  unfold cb, grown. change ((st_get ≫= ?k) ?x) with (k x x). cbn [c_P set_p start].
  destruct (cb_ Q) as [g|].
  2:{ intros [= <- <-] _. by exists Q. }
  cbn [c_p c_begin set_p start Nat.eqb]. set (x := {| c_begin := 0; c_p := 1; c_ec := None; c_P := Q |}).
  change (set_p 1 (start Q)) with x.
  intros E Hy. apply bind_inv in E as (b & z & E & Ez).
  apply bind_inv in E as (s & x1 & E1 & E). injection E1 as <- <-.
  apply bind_inv in E as (u & z' & Ec & E). destruct u. injection E as <- <-.
  destruct (c_ec z') eqn:He.
  - injection Ez as <- <-. congruence.
  - injection Ez as <- <-. destruct (proj1 (call_pmf_deliver isRequest g _ x z' eq_refl) (conj Ec He))
      as (P & HP & ->). by exists P.
Qed.
Lemma byte_complete : byte_ok s_complete.
Proof.
  intros data c x Q f y Hb E. destruct Hb as [Hch Hs Hl E' Ey].
  destruct (settled_s _ _ _ Hs) as (Es & _). rewrite E in Es.
  rewrite (step_eq _ _ (start Q) _ E) in E'. unfold at_complete in E'.
  rewrite (bind_ok _ _ _ _ _ (next_char_eq _)) in E'. cbn [c_p start] in E'.
  apply bind_inv in E' as (e & z & Ez & E').
  assert (c_ec z = None) as Hz.
  { destruct e; [by injection E' as <- <-|]. apply bind_inv in E' as (u & z' & Eu & E').
    injection Eu as <- <-. rewrite if_ec_eq in E'. destruct (c_ec z) eqn:?; [|done].
    injection E' as <- <-. cbn in Ey. congruence. }
  destruct (cb_grown c Q e z Ez Hz) as (Q2 & Hg & -> & ->). injection E' as <- <-.
  split; [done|]. exists (c_begin x). rewrite (step_eq _ _ _ _ Es). unfold at_complete.
  rewrite (bind_ok _ _ _ _ _ (next_char_eq _)).
  rewrite (bind_ok _ _ _ _ _ (cb_settled _ _ _ _ (settled_next data x Q c Q2 Hs Hch Hg))).
  cbv beta iota. change ((call_on_complete ≫= ?k) ?w) with (k tt w). cbv beta.
  rewrite if_ec_eq. cbn [c_ec set_P set_p]. rewrite (se_ec _ _ _ _ Hs).
  destruct x as [b p ec P]. pose proof (se_ec _ _ _ _ Hs) as He. cbn in He. by subst ec.
Qed.

(** *** Names and values *)

(** Code that changes nothing the callbacks depend on, nor depends on it. *)
Definition blind {A} (m : M A) : Prop := ∀ x a y,
  m x = Ok (a, y) →
  c_begin y = c_begin x ∧ c_p y = c_p x ∧ cb_ (c_P y) = cb_ (c_P x) ∧
  limits (c_P y) = limits (c_P x) ∧
  ∀ bg p h b d,
    m {| c_begin := bg; c_p := p; c_ec := c_ec x; c_P := after h b d (c_P x) |} =
    Ok (a, {| c_begin := bg; c_p := p; c_ec := c_ec y; c_P := after h b d (c_P y) |}).

Lemma blind_bind {A B} (m : M A) (k : A → M B) :
  blind m → (∀ a, blind (k a)) → blind (m ≫= k).
Proof.
  intros Hm Hk x b z E. apply bind_inv in E as (a & y & Em & Ek).
  destruct (Hm _ _ _ Em) as (? & ? & ? & ? & Em'), (Hk _ _ _ _ Ek) as (? & ? & ? & ? & Ek').
  split_and!; [congruence..|]. intros. by rewrite (bind_ok _ _ _ _ _ (Em' _ _ _ _ _)).
Qed.
Lemma blind_getP {A} (k : parser → M A) :
  (∀ P, blind (k P)) → (∀ P h b d x, k (after h b d P) x = k P x) → blind (getP ≫= k).
Proof.
  intros Hk Ha x a y E. destruct (Hk _ _ _ _ E) as (? & ? & ? & ? & E').
  split_and!; try done. intros. rewrite (bind_ok getP _ _ _ _ eq_refl). cbn [c_P]. by rewrite Ha.
Qed.
Lemma blind_ret {A} (a : A) : blind (mret a).
Proof. by intros x b y [= <- <-]. Qed.
Lemma blind_updP f :
  (∀ P, cb_ (f P) = cb_ P) → (∀ P, limits (f P) = limits P) →
  (∀ h b d P, f (after h b d P) = after h b d (f P)) → blind (updP f).
Proof.
  intros H1 H2 H3 x a y [= <- <-]. split_and!; [done..|apply H1|apply H2|].
  intros. cbn. by rewrite <- H3.
Qed.
Lemma blind_set_ec e : blind (st_modify (set_ec e) : M unit).
Proof. by intros x a y [= <- <-]. Qed.
Lemma blind_throw {A} f : blind (st_throw f : M A).
Proof. by intros x b y. Qed.

Ltac blind_step :=
  lazymatch goal with
  | |- blind (mbind _ getP) => apply blind_getP; [intros ?|by intros [] ? ? ? ?]
  | |- blind (mbind _ _) => apply blind_bind; [|intros ?]
  | |- blind (mret _) => apply blind_ret
  | |- blind (updP _) => by apply blind_updP
  | |- blind (st_modify (set_ec _)) => apply blind_set_ec
  | |- blind (st_throw _) => apply blind_throw
  | |- blind (match ?e with _ => _ end) => destruct e
  | |- blind (?m _ _ _ _) => unfold m
  | |- blind (?m _ _ _) => unfold m
  | |- blind (?m _ _) => unfold m
  | |- blind (?m _) => unfold m
  | |- blind ?m => unfold m
  end.
Lemma blind_name_char c : blind (name_char c).
Proof. repeat blind_step. Qed.
Lemma blind_value_char ch c : blind (value_char ch c).
Proof. repeat blind_step. Qed.

Lemma after_back P h b d :
  after (h_left_ P) (b_left_ P) (derived P) (after h b d P) = P.
Proof. by destruct P. Qed.
Lemma after_limits P Q h b d h' b' d' :
  limits P = limits (after h b d Q) → after h b d (after h' b' d' P) = P.
Proof. destruct P, Q. by intros [= -> -> -> -> ->]. Qed.

(** The loops over a name and over a value: characters that end the loop, and the
    switch for the others. *)
Definition ended data (e : state + parse_error) : M flow :=
  match e with inl s => end_cb isRequest data s | inr e => err e end.
Definition loops (stop : ascii → option (state + parse_error)) (act : ascii → M flow)
    (loop : string → nat → M flow) : Prop := ∀ data fuel x,
  loop data fuel x =
  match fuel with
  | O => Fail OutOfFuel
  | S fuel =>
      match char_at data (c_p x) with
      | None => (_ ← advance 0; mret Break) x
      | Some ch =>
          match stop ch with
          | Some e => ended data e x
          | None => (f ← act ch;
                     match f with
                     | Return => mret Return
                     | _ => _ ← next_char; loop data fuel
                     end) x
          end
      end
  end.
Lemma loops_redo stop act loop data fuel x y :
  loops stop act loop → loop data fuel x ≠ Ok (Redo, y).
Proof.
  intros H. revert x; induction fuel as [|fuel IH]; intros x E; rewrite H in E; [done|].
  destruct (char_at data (c_p x)) as [ch|]; [|by apply bind_inv in E as (? & ? & _ & [=])].
  destruct (stop ch) as [[s|e]|].
  - by apply bind_inv in E as ([] & ? & _ & [=]).
  - done.
  - apply bind_inv in E as ([] & w & _ & E); [| |done];
      apply bind_inv in E as (u & w' & _ & E); by apply IH in E.
Qed.
(** What a character that the switch takes leaves. *)
Lemma loops_next stop act loop data fuel x c g z :
  loops stop act loop → char_at data (c_p x) = Some c → stop c = None →
  act c x = Ok (g, z) → g ≠ Return → loop data (S fuel) x = loop data fuel (set_p (S (c_p z)) z).
Proof.
  intros H Hc Hs E Hg. rewrite H, Hc, Hs, (bind_ok _ _ _ _ _ E).
  by destruct g; [rewrite (bind_ok _ _ _ _ _ (next_char_eq z))..|].
Qed.
Lemma loops_stop stop act loop data fuel x :
  loops stop act loop → size data = S (c_p x) →
  loop data (S fuel) (set_p (S (c_p x)) x) = Ok (Break, x).
Proof.
  intros H Hp. rewrite H. destruct (char_at data (c_p (set_p (S (c_p x)) x))) eqn:Ec.
  { assert (c_p (set_p (S (c_p x)) x) < size data)%nat by (apply char_at_is_Some; by rewrite Ec).
    cbn in *. lia. }
  rewrite (bind_ok _ _ _ tt x); [done|]. unfold advance.
  rewrite (bind_ok st_get _ _ (set_p (S (c_p x)) x) (set_p (S (c_p x)) x)) by done.
  cbn [c_p set_p]. rewrite Nat.add_0_r. by destruct x.
Qed.

(** A character the switch takes is taken alike before and after the piece is
    handed over. *)
Lemma settled_blind (m : M flow) data x Q g z :
  blind m → settled isRequest data x Q → parser_live isRequest Q →
  (∀ x, general_ok isRequest (c_P x) → s_ (c_P x) ≠ s_dead → wp m (char_post isRequest x) x) →
  m (start Q) = Ok (g, z) → c_ec z = None →
  g ≠ Return ∧ z = start (c_P z) ∧ s_ (c_P z) = s_ Q ∧
  ∃ x1, m x = Ok (g, x1) ∧ c_p x1 = c_p x ∧ s_ (c_P x1) = s_ Q ∧ settled isRequest data x1 (c_P z).
Proof.
  intros Hm Hs Hl Hwp E Ez. destruct (settled_s _ _ _ Hs) as (Es & _).
  pose proof (live_dead _ Hl) as Hd. destruct Hl as [(Hg & _ & _) _].
  destruct (Hm _ _ _ E) as (Eb & Ep & Ec & El & Hafter).
  pose proof (Hwp (start Q) Hg Hd) as Hz. unfold wp in Hz. rewrite E in Hz.
  assert (g ≠ Return) as Hgr by (intros ->; destruct Hz as (_ & _ & _ & _ & Hn); by apply Hn).
  assert (quiet isRequest Q (c_P z)) as [_ Hsz _ _] by (destruct Hz as (_ & _ & Hz); destruct g; [apply Hz|apply Hz|congruence]).
  destruct (settled_after _ _ _ _ Hs) as (h & b & d & EQ & Hset).
  set (P := c_P x) in *. set (P1 := after (h_left_ P) (b_left_ P) (derived P) (c_P z)).
  assert (m x = Ok (g, {| c_begin := c_begin x; c_p := c_p x; c_ec := None; c_P := P1 |})) as Ex.
  { specialize (Hafter (c_begin x) (c_p x) (h_left_ P) (b_left_ P) (derived P)).
    rewrite EQ in Hafter. cbn [c_ec c_P start] in Hafter. rewrite after_back, Ez in Hafter. 
    etransitivity; [|exact Hafter]. f_equal. subst P. pose proof (se_ec _ _ _ _ Hs) as He.
    destruct x; cbn in *. by subst. }
  pose proof (Hwp x (se_general _ _ _ _ Hs) ltac:(by subst P; rewrite Es)) as Hx.
  unfold wp in Hx. rewrite Ex in Hx.
  assert (quiet isRequest P P1) as [Hg1 _ _ _] by (destruct Hx as (_ & _ & Hx); destruct g; [apply Hx|apply Hx|congruence]).
  split; [done|]. split; [destruct z; cbn in *; by subst|]. split; [done|].
  eexists. split; [exact Ex|]. split; [done|]. split; [exact Hsz|].
  assert (after h b d P1 = c_P z) as E1 by (apply after_limits with P; by rewrite <- EQ).
  rewrite <- E1. 
  assert (settled isRequest data (set_P P1 x) (after h b d P1)) as Hset'.
  { apply Hset; [done| |].
    - subst P1. cbn. rewrite Ec. cbn. by rewrite EQ.
    - subst P1. unfold limits in *. cbn in *. rewrite EQ in El. cbn in El. by injection El as -> _ -> _ _. }
  pose proof (se_ec _ _ _ _ Hs) as He. destruct x; cbn in *. by subst.
Qed.

Lemma byte_loop s stop act loop :
  loops stop act loop →
  (∀ data c x, s_ (c_P x) = s → step isRequest data c x = loop data (S (size data - c_p x)) x) →
  (∀ c, blind (act c)) →
  (∀ c x, general_ok isRequest (c_P x) → s_ (c_P x) ≠ s_dead → wp (act c) (char_post isRequest x) x) →
  byte_ok s.
Proof.
  intros Hloop Hstep Hact Hwp data c x Q f y Hb E.
  destruct (settled_s _ _ _ (by_settled _ _ _ _ _ _ _ Hb)) as (Es & _).
  destruct (stop c) as [[s'|e]|] eqn:Hstop.
  - apply sim_end with Q s'; [done|]. intros d' x' Ex Hc. rewrite E in Ex.
    by rewrite (Hstep _ _ _ Ex), Hloop, Hc, Hstop.
  - destruct Hb as [_ _ _ E' Ey]. rewrite (Hstep _ _ (start Q) E), Hloop in E'. cbn in E'.
    rewrite Hstop in E'. by injection E' as <- <-.
  - destruct Hb as [Hch Hset Hl E' Ey].
    assert (c_p x < size data)%nat as Hp by (apply char_at_is_Some; by rewrite Hch).
    rewrite (Hstep (str1 c) c (start Q) E) in E'. change (size (str1 c) - c_p (start Q))%nat with 1%nat in E'.
    rewrite Hloop in E'. change (char_at (str1 c) (c_p (start Q))) with (Some c) in E'. cbv iota in E'.
    rewrite Hstop in E'. apply bind_inv in E' as (g & z & Ez & E').
    assert (c_p z = 0%nat) as Hp0 by apply (Hact c _ _ _ Ez).
    assert (f = g ∧ g = Return ∨ f = Break ∧ y = z) as Hf.
    { destruct g; [right..|left; by injection E' as <- <-].
      all: rewrite (bind_ok _ _ _ _ _ (next_char_eq z)) in E';
        rewrite (loops_stop _ _ _ _ _ _ Hloop) in E' by (by rewrite Hp0); by injection E' as <- <-. }
    assert (c_ec z = None) as Hz.
    { destruct Hf as [[-> ->]|[-> ->]]; [by injection E' as <-|done]. }
    destruct (settled_blind (act c) data x Q g z) as (Hg & Eqz & Esz & x1 & Ex1 & Ep1 & Es1 & Hs1);
      [auto..|].
    destruct Hf as [[_ ->]|[-> ->]]; [done|].
    pose proof (loops_next _ _ _ data (size data - c_p x) x c g x1 Hloop Hch Hstop Ex1 Hg) as En.
    rewrite Ep1 in En. rewrite E in *. rewrite <- (Hstep data c x Es) in En.
    destruct (char_at data (S (c_p x))) as [c'|] eqn:Hc'.
    + assert (S (c_p x) < size data)%nat as Hp' by (apply char_at_is_Some; by rewrite Hc').
      split; [done|]. exists x1. split; [|done].
      apply goes_absorb with c'; [|done|].
      * rewrite En, (Hstep data c' (set_p (S (c_p x)) x1) Es1). cbn [c_p set_p].
        by replace (size data - c_p x)%nat with (S (size data - S (c_p x))) by lia.
      * intros w Ew. rewrite (Hstep data c x Es) in Ew. by apply (loops_redo _ _ _ _ _ _ _ Hloop) in Ew.
    + apply char_at_None in Hc'. apply (matched_step _ data c x Break _ x1); [done| |done|done|done].
      rewrite En. replace (size data - c_p x)%nat with 1%nat by (unfold size in *; lia).
      rewrite <- Ep1. apply (loops_stop _ _ _ _ _ _ Hloop). unfold size in *. lia.
Qed.
Definition name_stop (ch : ascii) : option (state + parse_error) :=
  if Ascii.eqb (to_field_char ch) nul then
    Some (if Ascii.eqb ch ":" then inl s_header_value0 else inr bad_field) else None.
Definition value_stop (ch : ascii) : option (state + parse_error) :=
  if Ascii.eqb ch cr then Some (inl s_header_value_lf)
  else if Ascii.eqb (to_value_char ch) nul then Some (inr bad_value) else None.
Lemma name_loops : loops name_stop (λ ch, name_char (to_field_char ch)) (name_loop isRequest).
Proof.
  intros data [|fuel] x; [done|]. cbn [name_loop]. rewrite (bind_ok st_get _ x x x) by done.
  unfold name_stop. destruct (char_at data (c_p x)) as [ch|]; [|done].
  destruct (Ascii.eqb (to_field_char ch) nul); [|done]. by destruct (Ascii.eqb ch ":").
Qed.
Lemma value_loops : loops value_stop (λ ch, value_char ch (to_value_char ch)) (value_loop isRequest).
Proof.
  intros data [|fuel] x; [done|]. cbn [value_loop]. rewrite (bind_ok st_get _ x x x) by done.
  unfold value_stop. destruct (char_at data (c_p x)) as [ch|]; [|done].
  destruct (Ascii.eqb ch cr); [done|]. by destruct (Ascii.eqb (to_value_char ch) nul).
Qed.
Lemma byte_name : byte_ok s_header_name.
Proof.
  apply (byte_loop _ _ _ _ name_loops); [|intros c; apply blind_name_char|intros c; apply name_char_wp].
  intros data c x E. by rewrite (step_eq _ _ _ _ E).
Qed.
Lemma byte_value : byte_ok s_header_value.
Proof.
  apply (byte_loop _ _ _ _ value_loops); [|intros c; apply blind_value_char|intros c; apply value_char_wp].
  intros data c x E. by rewrite (step_eq _ _ _ _ E).
Qed.

(** The parser at the first character of a value. *)
Definition value_begun (P : parser) : parser :=
  if is_content_length0 (fs_ P)
  then set_flags (Z.lor (flags_ P) contentlength) (set_content_length 0 P) else P.
Lemma general_value_begun P : general_ok isRequest P → general_ok isRequest (value_begun P).
Proof.
  intros Hg. unfold value_begun. destruct (is_content_length0 (fs_ P)); [|done].
  destruct Hg. split; try done. by apply flags_range.
Qed.
Lemma byte_value0 : byte_ok s_header_value0.
Proof.
  intros data c x Q f y Hb E. pose proof (by_live _ _ _ _ _ _ _ Hb) as Hl.
  pose proof (live_state _ Hl) as Hs. unfold state_ok in Hs. rewrite E in Hs. destruct Hs as [Hcb Hn].
  destruct (is_ows c || Ascii.eqb c cr) eqn:Ec.
  - eapply (sim_beginning isRequest (λ _, if is_ows c then mret Break else goto s_header_value0_lf));
      [apply beginning_local; local_tac|exact Hb|done|].
    intros d' x' <-. rewrite (step_eq _ _ _ _ E). unfold at_header_value0.
    destruct (is_ows c); [done|]. cbn in Ec. by rewrite Ec.
  - apply orb_false_iff in Ec as [Ec1 Ec2].
    assert (s_ (value_begun Q) = s_ Q ∧ cb_ (value_begun Q) = cb_ Q ∧ named (value_begun Q))
      as (Es & Ecb & Hn') by by unfold value_begun; destruct (is_content_length0 (fs_ Q)).
    apply (byte_begin s_header_value call_on_value data c x Q f y (value_begun Q));
      [apply byte_value|done|done| |].
    + apply live_begin; [apply general_value_begun, Hl|rewrite Es; by apply live_dead|done|by split|done|done].
    + intros d' x' Ex Ee. subst Q. rewrite (step_eq _ _ _ _ E).
      rewrite (step_eq _ _ {| c_P := set_s s_header_value _ |} s_header_value) by done.
      unfold at_header_value0. rewrite Ec1, Ec2, (bind_ok getP _ x' (c_P x') x') by done.
      rewrite (bind_ok _ _ x' tt (set_P (value_begun (c_P x')) x')).
      * apply (begin_eq d' call_on_value (set_P (value_begun (c_P x')) x')); [by rewrite <- Hcb|done].
      * unfold value_begun. destruct (is_content_length0 (fs_ (c_P x'))); [done|by destruct x'].
Qed.

(** Every arm. *)
Lemma byte_step_matched data c x Q f y :
  byte_step isRequest data c x Q f y → matched isRequest data c x f y.
Proof.
  intros Hb. destruct (s_ Q) eqn:E;
    (revert data c x Q f y Hb E;
     match goal with |- ∀ _ _ _ _ _ _, _ → _ = ?s → _ => change (byte_ok s) end).
  all: first
    [ by apply byte_local
    | apply byte_method0 | apply byte_method | apply byte_url0 | apply byte_url
    | apply byte_reason0 | apply byte_reason | apply byte_name0 | apply byte_name
    | apply byte_value0 | apply byte_value | apply byte_unfold | apply byte_identity0
    | apply byte_identity | apply byte_eof0 | apply byte_eof | apply byte_chunk_data0
    | apply byte_chunk_data | apply byte_chunk_data_cr | apply byte_complete | idtac ].
  - intros data c x Q f y Hb E. pose proof (live_state _ (by_live _ _ _ _ _ _ _ Hb)) as Hs.
    unfold state_ok in Hs. by rewrite E in Hs.
  - intros data c x Q f y Hb E. destruct (by_live _ _ _ _ _ _ _ Hb) as [_ Hl]. by rewrite E in Hl.
Qed.

(** ** An error stays *)

Definition keeps {A} (m : M A) : Prop := ∀ x a y, m x = Ok (a, y) → c_ec y = None → c_ec x = None.
Lemma errors_bind {A B} (m : M A) (k : A → M B) :
  keeps m → (∀ a, keeps (k a)) → keeps (m ≫= k).
Proof. intros Hm Hk x b z E Ez. apply bind_inv in E as (a & y & Em & Ek).
  apply (Hm _ _ _ Em), (Hk _ _ _ _ Ek), Ez.
Qed.
Lemma keeps_ret {A} (a : A) : keeps (mret a).
Proof. by intros x b y [= <- <-]. Qed.
Lemma keeps_get : keeps (st_get : M ctx).
Proof. by intros x b y [= <- <-]. Qed.
Lemma errors_modify f : (∀ x, c_ec (f x) = None → c_ec x = None) → keeps (st_modify f : M unit).
Proof. intros H x b y [= <- <-]. apply H. Qed.
Lemma keeps_throw {A} f : keeps (st_throw f : M A).
Proof. by intros x b y. Qed.
Lemma keeps_advance n : keeps (advance n).
Proof.
  intros x a y E. unfold advance in E. apply bind_inv in E as (w & z & E & E').
  injection E as <- <-. by destruct (c_p x + n)%nat; [|injection E' as <- <-].
Qed.

Ltac keeps_step :=
  lazymatch goal with
  | |- keeps (mbind _ _) => apply errors_bind; [|intros ?]
  | |- keeps (mret _) => apply keeps_ret
  | |- keeps st_get => apply keeps_get
  | |- keeps (st_modify _) => by apply errors_modify
  | |- keeps (st_throw _) => apply keeps_throw
  | |- keeps (advance _) => apply keeps_advance
  | |- keeps (match ?e with _ => _ end) => destruct e
  | |- keeps (let _ := _ in _) => cbv zeta
  | |- keeps (?m _ _ _ _ _) => unfold m
  | |- keeps (?m _ _ _ _) => unfold m
  | |- keeps (?m _ _ _) => unfold m
  | |- keeps (?m _ _) => unfold m
  | |- keeps (?m _) => unfold m
  | |- keeps ?m => unfold m
  end.
Lemma keeps_call_pmf f s : keeps (call_pmf isRequest f s).
Proof. destruct f; cbn [call_pmf]; repeat keeps_step. Qed.
Lemma keeps_cb data next : keeps (cb isRequest data next).
Proof.
  unfold cb. apply errors_bind; [apply keeps_get|intros x].
  apply errors_bind; [|intros b; repeat keeps_step].
  destruct (cb_ (c_P x)); [|apply keeps_ret]. case_match; [apply keeps_ret|].
  repeat (apply errors_bind; [first [apply keeps_call_pmf|repeat keeps_step]|intros ?]). apply keeps_ret.
Qed.
Lemma keeps_name_loop data fuel : keeps (name_loop isRequest data fuel).
Proof.
  induction fuel as [|fuel IH]; cbn [name_loop]; [apply keeps_throw|].
  repeat first [apply IH|apply keeps_cb|keeps_step].
Qed.
Lemma keeps_value_loop data fuel : keeps (value_loop isRequest data fuel).
Proof.
  induction fuel as [|fuel IH]; cbn [value_loop]; [apply keeps_throw|].
  repeat first [apply IH|apply keeps_cb|keeps_step].
Qed.
Lemma keeps_switch data c : keeps (step isRequest data c).
Proof.
  repeat first [apply keeps_name_loop|apply keeps_value_loop|apply keeps_cb|keeps_step].
Qed.
Lemma keeps_write_loop data fuel a : keeps (write_loop isRequest data fuel a).
Proof.
  revert a; induction fuel as [|fuel IH]; intros a; cbn [write_loop]; [apply keeps_throw|].
  repeat first [apply IH|apply keeps_switch|keeps_step].
Qed.

(** ** A call of [write] for one byte *)

(** What [write_body] does after the loop. *)
Definition finish (data : string) (f : flow) : M flow :=
  match f with
  | Return => mret Return
  | _ =>
      P ← getP;
      match cb_ P with
      | Some g => s ← piece data; _ ← call_pmf isRequest g s; if_ec (mret Return)
      | None => mret Return
      end
  end.
Lemma write_body_eq data :
  write_body isRequest data = (f ← write_loop isRequest data (write_fuel data) None; finish data f).
Proof. done. Qed.
(** The loop and its end, with some fuel. *)
Definition ends (data : string) (a : option ascii) (x w : ctx) : Prop :=
  ∃ fuel, (f ← write_loop isRequest data fuel a; finish data f) x = Ok (Return, w).
Lemma goes_ends data a x b x' w : goes isRequest data a x b x' → ends data b x' w → ends data a x w.
Proof.
  intros Hg [fuel E]. apply bind_inv in E as (f & z & Ez & E). destruct (Hg _ _ Ez) as [fuel' E'].
  exists fuel'. by rewrite (bind_ok _ _ _ _ _ E').
Qed.
Lemma keeps_finish data f : keeps (finish data f).
Proof. repeat first [apply keeps_call_pmf|keeps_step]. Qed.

(** The end of a buffer, for a parser whose piece is settled. *)
Lemma settled_ends data x Q :
  settled isRequest data x Q → (c_begin x < c_p x)%nat → size data = c_p x →
  ends data None x (set_P Q x).
Proof.
  intros [He _ Hb Hs] Hlt Hp. exists 1%nat.
  rewrite (bind_ok _ _ x Break x).
  2:{ cbn [write_loop]. rewrite (bind_ok st_get _ x x x) by done.
      destruct (char_at data (c_p x)) eqn:Ec; [|done].
      assert (c_p x < size data)%nat by (apply char_at_is_Some; by rewrite Ec). lia. }
  cbn [finish]. rewrite (bind_ok getP _ x (c_P x) x) by done.
  destruct (cb_ (c_P x)) as [g|]; [|subst Q; by destruct x].
  destruct (Nat.eqb_spec (c_p x) (c_begin x)); [lia|].
  rewrite (bind_ok (piece data) _ x (piece_of data x) x) by done.
  destruct (proj2 (call_pmf_deliver isRequest g (piece_of data x) x (set_P Q x) He)) as [E _];
    [by exists Q|].
  rewrite (bind_ok _ _ _ _ _ E), if_ec_eq. cbn [c_ec set_P]. by rewrite He.
Qed.
(** The end of the buffer of one byte. *)
Lemma finish_grown c Q w f :
  f ≠ Return → finish (str1 c) f (set_p 1 (start Q)) = Ok (Return, w) → c_ec w = None →
  c_p w = 1%nat ∧ grown c Q (c_P w).
Proof.
  intros Hf E Hw. set (x := set_p 1 (start Q)) in *.
  assert (∃ P, grown c Q P ∧ w = set_P P x) as (P & HP & ->); [|done].
  unfold grown. assert (finish (str1 c) Break x = Ok (Return, w)) as E' by by destruct f.
  clear E. cbn [finish] in E'. rewrite (bind_ok getP _ x Q x) in E' by done.
  destruct (cb_ Q) as [g|]; [|exists Q; injection E' as <-; by subst x].
  rewrite (bind_ok (piece (str1 c)) _ x (str1 c) x) in E' by done.
  apply bind_inv in E' as ([] & z & Ez & E'). rewrite if_ec_eq in E'.
  destruct (c_ec z) eqn:Hz; [injection E' as <-; cbn in Hw; congruence|injection E' as <-].
  by apply (call_pmf_deliver isRequest g (str1 c) x z eq_refl).
Qed.

Lemma grown_s c Q Q2 : grown c Q Q2 → s_ Q2 = s_ Q.
Proof.
  unfold grown. destruct (cb_ Q) as [g|]; [|by intros ->].
  intros H. by destruct (deliver_after _ _ _ _ _ H) as (h & b & d & -> & _).
Qed.
Lemma loop_ok_live P : loop_ok isRequest (start P) → parser_live isRequest P.
Proof.
  intros [Hg Hs Hn _ Hl]. split; [|done]. split; [done|]. split; [done|]. intros E.
  destruct (Hn E) as [?|?]; [done|]. cbn in *. lia.
Qed.

(** The byte in the middle of the buffer: the parser is settled behind it, or the
    message has ended. *)
Lemma byte_run fuel data c x Q w :
  char_at data (c_p x) = Some c → settled isRequest data x Q → parser_live isRequest Q →
  (f ← write_loop isRequest (str1 c) fuel (Some c); finish (str1 c) f) (start Q) = Ok (Return, w) →
  c_ec w = None →
  c_p w = 1%nat ∧
  ((live (s_ (c_P w)) = true ∧ ∃ x', goes isRequest data (Some c) x None x' ∧
      c_p x' = S (c_p x) ∧ (c_begin x' < c_p x')%nat ∧ settled isRequest data x' (c_P w)) ∨
   (s_ (c_P w) = s_restart ∧ ∃ z, ends data (Some c) x z ∧ c_p z = S (c_p x) ∧ c_ec z = None ∧
      c_P z = c_P w)).
Proof.
  revert x Q; induction fuel as [|fuel IH]; intros x Q Hch Hs Hl E Hw; [done|].
  apply bind_inv in E as (f' & z' & E & Ef). cbn [write_loop] in E.
  rewrite (bind_ok st_get _ (start Q) (start Q) (start Q)) in E by done.
  apply bind_inv in E as (f & y & Ey & E).
  assert (c_ec y = None) as Hy.
  { pose proof (keeps_finish _ _ _ _ _ Ef Hw) as Hz. destruct f.
    - apply bind_inv in E as (u & z & Ez & E).
      exact (keeps_advance 2 _ _ _ Ez (keeps_write_loop _ _ _ _ _ _ E Hz)).
    - exact (keeps_write_loop _ _ _ _ _ _ E Hz).
    - by injection E as <- <-. }
  assert (byte_step isRequest data c x Q f y) as Hb by by split.
  pose proof (byte_step_matched _ _ _ _ _ _ Hb) as Hm. pose proof (by_post _ _ _ _ _ _ _ Hb) as Hpost.
  destruct f; cbn in Hm, Hpost.
  - destruct Hm as (Ey' & x' & Hgo & Ep & Hs'). rewrite Ey', (bind_ok _ _ _ _ _ (next_char_eq _)) in E.
    cbn [c_p start] in E. destruct fuel as [|fuel]; [done|].
    assert (f' ≠ Return ∧ z' = set_p 1 (start (c_P y))) as [Hf ->]
      by (cbn in E; injection E as <- <-; done).
    destruct (finish_grown _ _ _ _ Hf Ef Hw) as [Hw1 Hg]. split; [done|]. left. split.
    + destruct Hpost as (_ & [_ _ _ _ Hlive]). cbn in Hlive. by rewrite (grown_s _ _ _ Hg).
    + exists (set_p (S (c_p x)) x'). split; [done|]. split; [done|].
      rewrite <- Ep in Hch |- *. split; [pose proof (se_begin _ _ _ _ Hs'); cbn; lia|].
      by apply settled_next with (c_P y) c.
  - destruct Hm as (Ey' & x' & Hgo & Ep & Hs'). destruct Hpost as (_ & Hlo & _).
    rewrite Ey' in E.
    destruct (IH x' (c_P y)) as (Hw1 & H).
    + by rewrite Ep.
    + done.
    + apply loop_ok_live. by rewrite <- Ey'.
    + by rewrite (bind_ok _ _ _ _ _ E).
    + done.
    + rewrite Ep in H. split; [done|]. destruct H as [(? & x2 & H2 & ?)|(? & z & Hz & ?)].
      * left. split; [done|]. exists x2. split; [by apply goes_trans with (Some c) x'|done].
      * right. split; [done|]. exists z. split; [by apply goes_ends with (Some c) x'|done].
  - injection E as <- <-. cbn [finish] in Ef. injection Ef as <-.
    destruct Hm as (Ep & b & Ex). split; [done|]. right. destruct Hpost as (_ & _ & Hr).
    destruct (Hr Hy) as [Hr' _]. split; [done|].
    exists {| c_begin := b; c_p := S (c_p x); c_ec := None; c_P := c_P y |}. split; [|done].
    exists 1%nat. rewrite (bind_ok _ _ _ _ _ (loop_step isRequest data 0 c x _ _ Ex)). done.
Qed.

(** ** A buffer *)

Lemma write_loop_mono data fuel k a x r :
  write_loop isRequest data fuel a x = Ok r → write_loop isRequest data (fuel + k) a x = Ok r.
Proof.
  revert a x; induction fuel as [|fuel IH]; intros a x E; [done|].
  cbn [write_loop Nat.add] in *. rewrite (bind_ok st_get _ x x x) by done.
  rewrite (bind_ok st_get _ x x x) in E by done.
  destruct (match a with Some ch => Some ch | None => char_at data (c_p x) end); [|done].
  apply bind_inv in E as (f & y & Ey & E). rewrite (bind_ok _ _ _ _ _ Ey).
  destruct f; [|by apply IH|done].
  apply bind_inv in E as (u & z & Ez & E). rewrite (bind_ok _ _ _ _ _ Ez). by apply IH.
Qed.
Lemma ends_unique data a x w fuel f z w' :
  ends data a x w → write_loop isRequest data fuel a x = Ok (f, z) →
  finish data f z = Ok (Return, w') → w' = w.
Proof.
  intros [fuel' E] Ez Ew. apply bind_inv in E as (f' & z' & Ez' & Ew').
  apply (write_loop_mono _ _ fuel') in Ez. apply (write_loop_mono _ _ fuel) in Ez'.
  rewrite Nat.add_comm in Ez'. rewrite Ez in Ez'. injection Ez' as -> ->. congruence.
Qed.
Lemma write_nonempty data P :
  data ≠ EmptyString →
  write isRequest data P = ('(_, x) ← write_body isRequest data (start P); Ok (c_p x, c_ec x, c_P x)).
Proof. intros Hd. unfold write, size. by destruct data. Qed.
Lemma finish_return data f x g w : finish data f x = Ok (g, w) → g = Return.
Proof.
  destruct f; [..|by intros [= <- <-]]; intros E; apply bind_inv in E as (P & z & _ & E);
    (destruct (cb_ P); [|by injection E as <- <-]);
    do 2 (apply bind_inv in E as (? & ? & _ & E)); rewrite if_ec_eq in E;
    by destruct (c_ec _); injection E as <- <-.
Qed.
Lemma write_body_finish data x g w :
  write_body isRequest data x = Ok (g, w) →
  ∃ f z, write_loop isRequest data (write_fuel data) None x = Ok (f, z) ∧
    finish data f z = Ok (Return, w).
Proof.
  rewrite write_body_eq. intros E. apply bind_inv in E as (f & z & Ez & E).
  pose proof (finish_return _ _ _ _ _ E) as ->. by exists f, z.
Qed.

(** The bytes of the rest of a buffer. *)
Lemma rest_run data rest x Q n P :
  str_drop (c_p x) data = rest → (c_p x ≤ size data)%nat → settled isRequest data x Q →
  parser_live isRequest Q → (c_begin x < c_p x)%nat ∨ rest ≠ EmptyString →
  write_bytes isRequest rest Q = Ok (n, None, P) →
  ∃ w, ends data None x w ∧ c_p w = (c_p x + n)%nat ∧ c_ec w = None ∧ c_P w = P.
Proof.
  revert x Q n; induction rest as [|c rest IH]; intros x Q n Hd Hp Hs Hl Hlt E.
  { injection E as <- <-. exists (set_P Q x). rewrite Nat.add_0_r.
    assert (c_begin x < c_p x)%nat by by destruct Hlt.
    split; [|split; [done|split; [apply Hs|done]]]. apply settled_ends; [done|done|].
    apply (f_equal String.length) in Hd. rewrite length_str_drop in Hd. cbn in Hd. unfold size in *. lia. }
  assert (char_at data (c_p x) = Some c) as Hch.
  { pose proof (char_at_drop data (c_p x) 0) as Hc. by rewrite Hd, Nat.add_0_r in Hc. }
  cbn [write_bytes] in E. destruct (write_ok isRequest (str1 c) Q Hl) as (r & Er & Hr). rewrite Er in E.
  rewrite write_nonempty in Er by done.
  destruct (write_body isRequest (str1 c) (start Q)) as [[g w]|] eqn:Ew; [|done].
  injection Er as <-. cbn in E. destruct (c_ec w) eqn:Hw; [done|].
  destruct (write_body_finish _ _ _ _ Ew) as (f & z & Ez & Ef).
  destruct (byte_run 5 data c x Q w) as (Hw1 & H); [done..| |done|].
  { by rewrite (bind_ok _ _ (start Q) f z). }
  destruct H as [(Hlive & x' & Hgo & Ep & Hlt' & Hs')|(Hrs & v & Hv & Ep & Hev & EP)].
  - assert (parser_live isRequest (c_P w)) as Hl' by (split; [apply Hr|done]).
    rewrite (complete_live _ _ Hl') in E.
    destruct (write_bytes isRequest rest (c_P w)) as [[[k ec] P2]|] eqn:Ek; [|done].
    injection E as <- -> ->. rewrite Hw1.
    destruct (IH x' (c_P w) k) as (v & Hv & Epv & ?); [|by rewrite Ep; apply char_at_is_Some|done|done|by left|done|].
    { rewrite Ep. rewrite (str_drop_char _ _ _ Hch) in Hd. by injection Hd. }
    exists v. split; [|split; [lia|done]].
    apply goes_ends with (Some c) x; [by apply goes_fetch|]. by apply goes_ends with None x'.
  - rewrite (complete_restart _ Hrs) in E. injection E as <- <-. exists v.
    split; [|split; [lia|done]]. apply goes_ends with (Some c) x; [by apply goes_fetch|done].
Qed.

(** The bytes of a buffer. *)
Lemma write_of_bytes data n P P' :
  parser_live isRequest P → write_bytes isRequest data P = Ok (n, None, P') →
  write isRequest data P = Ok (n, None, P').
Proof.
  intros Hl E. destruct data as [|c rest].
  { injection E as <- <-. unfold write. cbn. destruct Hl as [_ Hl]. by destruct (s_ P). }
  destruct (rest_run (String c rest) (String c rest) (start P) P n P') as (w & Hw & Ep & Ee & EP);
    [done|cbn; lia|apply settled_start, Hl|done|by right|done|].
  destruct (write_ok isRequest (String c rest) P Hl) as (r & Er & _). rewrite Er.
  rewrite write_nonempty in Er by done.
  destruct (write_body isRequest (String c rest) (start P)) as [[g z]|] eqn:Eb; [|done].
  injection Er as <-. destruct (write_body_finish _ _ _ _ Eb) as (f & y & Ey & Ef).
  rewrite (ends_unique _ _ _ _ _ _ _ _ Hw Ey Ef). cbn. by rewrite Ep, Ee, EP.
Qed.

End Stream.

(** ** The reads of a socket *)

Section Reads.
Context (isRequest : bool).

(** Bytes that come in two parts. *)
Lemma write_bytes_app s t n P P' :
  parser_live isRequest P → write_bytes isRequest (s +:+ t) P = Ok (n, None, P') →
  (complete P' = true ∧ (n ≤ String.length s)%nat ∧ write_bytes isRequest s P = Ok (n, None, P')) ∨
  (∃ k P1, parser_live isRequest P1 ∧ n = (String.length s + k)%nat ∧
     write_bytes isRequest s P = Ok (String.length s, None, P1) ∧
     write_bytes isRequest t P1 = Ok (k, None, P')).
Proof.
  revert n P; induction s as [|c s IH]; intros n P Hl E.
  { right. exists n, P. by split_and!. }
  rewrite str_app_cons in E. cbn [write_bytes] in E |- *.
  destruct (write_ok isRequest (str1 c) P Hl) as ([[k ec] P1] & Ew & [Hu Hok Hall _]).
  rewrite Ew in *. cbn in *. destruct ec as [e|]; [done|]. destruct (Hall eq_refl) as [Hr|[-> Hl1]].
  - rewrite (complete_restart _ Hr) in *. injection E as -> ->. left. split_and!; [by apply complete_restart|lia|done].
  - rewrite (complete_live _ _ Hl1) in *.
    destruct (write_bytes isRequest (s +:+ t) P1) as [[[k ec] P2]|] eqn:Ek; [|done].
    injection E as <- -> ->. destruct (IH k P1 Hl1 Ek) as [(Hc & Hn & E)|(j & P2 & ? & -> & E & Et)].
    + left. rewrite E. split_and!; [done|cbn; lia|done].
    + right. exists j, P2. rewrite E. split_and!; [done|cbn; lia|done|done].
Qed.

Lemma parse_read_bytes d b n P' :
  parser_live isRequest (op_parser d) → db d = EmptyString → b ≠ EmptyString →
  write_bytes isRequest b (op_parser d) = Ok (n, None, P') →
  complete P' = true ∨ n = String.length b →
  parse_read isRequest d (Got b) =
    let d' := {| db := str_drop n b; op_parser := P'; got_some := true |} in
    Ok (if complete P' then Parsed None d' else Reading d').
Proof.
  intros Hl Hd Hb E Hn. cbn [parse_read]. rewrite Hd, str_app_nil_l.
  destruct (Nat.eqb_spec (String.length b) 0) as [Eb|Eb]; [by destruct b|].
  pose proof (write_of_bytes _ _ _ _ _ Hl E) as Ew. rewrite Ew. cbn.
  destruct (write_ok isRequest b (op_parser d) Hl) as (r & Er & [_ _ _ Hs]).
  rewrite Ew in Er. injection Er as <-. unfold size in Hs. specialize (Hs eq_refl ltac:(lia)). cbn in Hs.
  destruct (Nat.eqb_spec n 0); [lia|]. destruct (complete P'); [done|].
  destruct Hn as [|Hn]; [done|]. by rewrite Hn, Nat.eqb_refl.
Qed.
(** Reads that the parser has been given. *)
Lemma reads_stream segs n d P' :
  parser_live isRequest (op_parser d) → db d = EmptyString → Forall (λ b, b ≠ EmptyString) segs →
  write_bytes isRequest (str_concat segs) (op_parser d) = Ok (n, None, P') →
  ∃ d', parse_reads isRequest (Reading d) (map Got segs) =
      Ok (if complete P' then Parsed None d' else Reading d') ∧ op_parser d' = P' ∧
    ∃ unread, db d' +:+ unread = str_drop n (str_concat segs).
Proof.
  revert n d; induction segs as [|b segs IH]; intros n d Hl Hd Hne E.
  - injection E as <- <-. rewrite (complete_live _ _ Hl). exists d. split_and!; [done..|].
    exists EmptyString. by rewrite Hd.
  - inversion_clear Hne as [|? ? Hb Hne']. cbn [str_concat] in E |- *. cbn [map parse_reads].
    destruct (write_bytes_app _ _ _ _ _ Hl E) as [(Hc & Hn & Eb)|(k & P1 & Hl1 & -> & Eb & Ek)].
    + rewrite (parse_read_bytes _ _ _ _ Hl Hd Hb Eb) by auto. rewrite Hc. cbn.
      exists {| db := str_drop n b; op_parser := P'; got_some := true |}. split_and!; [by destruct segs|done|].
      exists (str_concat segs). cbn. by rewrite str_drop_app_le.
    + rewrite (parse_read_bytes _ _ _ _ Hl Hd Hb Eb) by auto. rewrite (complete_live _ _ Hl1). cbn.
      destruct (IH k {| db := str_drop (String.length b) b; op_parser := P1; got_some := true |})
        as (d' & Er & Ed & unread & Eu); [done|apply str_drop_all|done|done|].
      exists d'. split_and!; [exact Er|done|]. exists unread. by rewrite Eu, str_drop_app_ge.
Qed.

Lemma async_read_of_bytes buffer segs n P' :
  Forall (λ b, b ≠ EmptyString) segs →
  write_bytes isRequest (buffer +:+ str_concat segs) (init isRequest) = Ok (n, None, P') →
  ∃ rest unread,
    async_read isRequest buffer (map Got segs) =
      Ok (if complete P' then Some (inl (m_ (derived P'))) else None, rest) ∧
    rest +:+ unread = str_drop n (buffer +:+ str_concat segs).
Proof.
  intros Hne E. pose proof (init_ok isRequest) as Hl. unfold async_read, parse_start.
  rewrite (complete_live _ _ Hl).
  destruct (write_bytes_app _ _ _ _ _ Hl E) as [(Hc & Hn & Eb)|(k & P1 & Hl1 & -> & Eb & Ek)];
    rewrite (write_of_bytes _ _ _ _ _ Hl Eb).
  - cbn. rewrite Hc. cbn. replace (parse_reads _ _ _) with
      (Ok (Parsed None {| db := str_drop n buffer; op_parser := P'; got_some := (0 <? n)%nat |}))
      by by destruct segs. cbn.
    exists (str_drop n buffer), (str_concat segs). by rewrite str_drop_app_le.
  - cbn. rewrite (complete_live _ _ Hl1), str_drop_all. cbn.
    match goal with |- context [Reading ?d] => set (d0 := d) end.
    destruct (reads_stream segs k d0 P') as (d & Er & Ed & unread & Eu); [done..|].
    rewrite Er. cbn.
    exists (db d), unread. rewrite Eu, str_drop_app_ge. split; [|done].
    by destruct (complete P'); cbn; rewrite ?Ed.
Qed.

End Reads.

(** Writing a buffer to the parser is the same as writing its bytes one at a
    time: the same bytes are used and the parser is left the same, with the same
    message, limits and state. *)
Theorem write_is_bytes (isRequest : bool) (data : string) (n : nat) (P P' : parser) :
  parser_live isRequest P → write_bytes isRequest data P = Ok (n, None, P') →
  write isRequest data P = Ok (n, None, P').
Proof. apply write_of_bytes. Qed.
Lemma write_is_bytes_witness :
  let data := "GET / HTTP/1.1" +:+ CRLF +:+ "A: b" +:+ CRLF +:+ CRLF in
  ∃ P', write_bytes true data (init true) = Ok (size data, None, P') ∧
    write true data (init true) = Ok (size data, None, P').
Proof.
  eexists. split; [vm_compute; reflexivity|].
  apply (write_is_bytes true _ _ (init true)); [apply init_ok|vm_compute; reflexivity].
Defined.

(** C24: what a read gives does not depend on how the bytes reach the socket: when
    the bytes one at a time make a message, or none yet, every way to cut them into
    the session's buffer and the reads of the socket gives that message, or waits,
    and leaves the bytes behind the message. *)
Theorem async_read_stream (isRequest : bool) (buffer : string) (segs : list string) (n : nat)
    (P : parser) :
  Forall (λ b, b ≠ EmptyString) segs →
  write_bytes isRequest (buffer +:+ str_concat segs) (init isRequest) = Ok (n, None, P) →
  ∃ rest unread,
    async_read isRequest buffer (map Got segs) =
      Ok (if complete P then Some (inl (m_ (derived P))) else None, rest) ∧
    rest +:+ unread = str_drop n (buffer +:+ str_concat segs).
Proof. apply async_read_of_bytes. Qed.
Lemma async_read_stream_witness :
  let segs := ["T / HT"; "TP/1.1" +:+ CRLF; "A: b" +:+ CRLF +:+ CRLF +:+ "GET"] in
  ∃ rest unread,
    async_read true "GE" (map Got segs) =
      Ok (Some (inl {| m_version := 11; m_status := 0; m_method := "GET"; m_url := "/";
                       m_reason := EmptyString; m_fields := [("A", "b")];
                       m_body := EmptyString |}), rest) ∧
    rest +:+ unread = "GET".
Proof.
  edestruct (async_read_stream true "GE"
    ["T / HT"; "TP/1.1" +:+ CRLF; "A: b" +:+ CRLF +:+ CRLF +:+ "GET"]) as (rest & unread & E & Eu).
  - repeat constructor; discriminate.
  - vm_compute. reflexivity.
  - exists rest, unread. split; [exact E|exact Eu].
Defined.
