(* ===== verification/HttpNames.v ===== *)
(** * How the parser reads a field's name

    What the parser makes of bytes whose effect is known, byte by byte, and the
    automaton over the name of a field: it knows exactly the names that change how
    a message is read, in any case. *)

From Stdlib Require Import ZifyBool.
From S2P Require Import Prelude HttpMessage HttpParser HttpParserSafe HttpParserReads HttpParserBytes HttpParserStream.

Local Open Scope Z_scope.

(** ** Bytes with a known effect *)

Section Known.
Context (isRequest : bool).

(** After the bytes [s] the parser [P] is [Q], and no message has ended. *)
Definition reads (s : string) (P Q : parser) : Prop := ∀ t,
  write_bytes isRequest (s +:+ t) P =
  ('(n, ec, P') ← write_bytes isRequest t Q; Ok ((String.length s + n)%nat, ec, P')).

Lemma reads_nil P : reads EmptyString P P.
Proof. intros t. rewrite str_app_nil_l. cbn. by destruct (write_bytes isRequest t P) as [[[]]|]. Qed.
Lemma reads_app s t P Q R : reads s P Q → reads t Q R → reads (s +:+ t) P R.
Proof.
  intros H1 H2 u. rewrite str_app_assoc, H1, H2, str_length_app.
  destruct (write_bytes isRequest u R) as [[[n ec] P']|]; [|done]. cbn. by rewrite Nat.add_assoc.
Qed.
Lemma reads_write c P Q :
  write isRequest (str1 c) P = Ok (1%nat, None, Q) → complete Q = false → reads (str1 c) P Q.
Proof. intros E Hc t. unfold str1. rewrite str_app_cons, str_app_nil_l. cbn [write_bytes]. rewrite E. cbn. by rewrite Hc. Qed.
Lemma reads_bytes s P Q :
  reads s P Q → write_bytes isRequest s P = Ok (String.length s, None, Q).
Proof. intros H. specialize (H EmptyString). rewrite str_app_nil_r in H. rewrite H. cbn. by rewrite Nat.add_0_r. Qed.

Lemma reads_of_bytes s P Q :
  parser_live isRequest P → write_bytes isRequest s P = Ok (String.length s, None, Q) →
  complete Q = false → reads s P Q.
Proof.
  revert P; induction s as [|c s IH]; intros P Hl E Hc t.
  { injection E as ->. apply reads_nil. }
  rewrite str_app_cons. cbn [write_bytes] in E |- *.
  destruct (write_ok isRequest (str1 c) P Hl) as ([[k ec] P1] & Ew & [_ _ Hall _]).
  rewrite Ew in *. cbn in *. destruct ec as [e|]; [done|]. destruct (Hall eq_refl) as [Hr|[-> Hl1]].
  - rewrite (complete_restart _ Hr) in E. injection E as _ ->. by rewrite (complete_restart _ Hr) in Hc.
  - rewrite (complete_live _ _ Hl1) in *.
    destruct (write_bytes isRequest s P1) as [[[n ec] P2]|] eqn:E2; [|done]. cbn in E.
    injection E as -> -> ->. rewrite (IH P1 Hl1 E2 Hc t).
    by destruct (write_bytes isRequest t Q) as [[[]]|].
Qed.

(** The byte [c], with as many arms as [k]. *)
Definition byte_at (k : nat) (c : ascii) (P Q : parser) : Prop := ∃ b,
  (f ← write_loop isRequest (str1 c) k (Some c); finish isRequest (str1 c) f) (start P) =
  Ok (Return, {| c_begin := b; c_p := 1; c_ec := None; c_P := Q |}).

Lemma byte_at_break c P P1 Q :
  step isRequest (str1 c) c (start P) = Ok (Break, start P1) → grown isRequest c P1 Q →
  byte_at 2 c P Q.
Proof.
  intros E Hg. exists 0%nat.
  rewrite (bind_ok _ _ _ Break (set_p 1 (start P1))).
  2:{ rewrite (loop_step isRequest _ _ _ _ _ _ E). by rewrite (bind_ok _ _ _ _ _ (next_char_eq _)). }
  unfold grown in Hg. cbn [finish]. set (x := set_p 1 (start P1)).
  rewrite (bind_ok getP _ x P1 x) by done.
  destruct (cb_ P1) as [g|]; [|by subst Q].
  rewrite (bind_ok (piece (str1 c)) _ x (str1 c) x) by done.
  destruct (proj2 (call_pmf_deliver isRequest g (str1 c) x (set_P Q x) eq_refl)) as [E' _]; [by exists Q|].
  by rewrite (bind_ok _ _ _ _ _ E').
Qed.
Lemma byte_at_redo k c P P1 Q :
  step isRequest (str1 c) c (start P) = Ok (Redo, start P1) → byte_at k c P1 Q → byte_at (S k) c P Q.
Proof.
  intros E [b Hk]. exists b. apply bind_inv in Hk as (f & z & Ez & Hk).
  rewrite (bind_ok _ _ _ f z); [done|]. by rewrite (loop_step isRequest _ _ _ _ _ _ E).
Qed.
Lemma byte_at_return b c P Q :
  step isRequest (str1 c) c (start P) = Ok (Return, {| c_begin := b; c_p := 1; c_ec := None; c_P := Q |}) →
  byte_at 1 c P Q.
Proof. intros E. exists b. by rewrite (bind_ok _ _ _ _ _ (loop_step isRequest _ 0 _ _ _ _ E)). Qed.
Lemma byte_at_write k c P Q :
  (k ≤ 5)%nat → byte_at k c P Q → write isRequest (str1 c) P = Ok (1%nat, None, Q).
Proof.
  intros Hk [b H]. rewrite write_nonempty by done. apply bind_inv in H as (f & z & Ez & H).
  apply (write_loop_mono isRequest _ _ (5 - k)) in Ez. replace (k + (5 - k))%nat with 5%nat in Ez by lia.
  rewrite write_body_eq, (bind_ok _ _ _ f z); [by rewrite H|]. exact Ez.
Qed.

(** The byte [c] is taken by [P1], after other arms. *)
Definition begins (k : nat) (c : ascii) (P P1 : parser) : Prop :=
  ∀ Q, grown isRequest c P1 Q → byte_at k c P Q.
Lemma begins_break c P P1 :
  step isRequest (str1 c) c (start P) = Ok (Break, start P1) → begins 2 c P P1.
Proof. intros E Q. by apply byte_at_break. Qed.
Lemma begins_redo k c P P' P1 :
  step isRequest (str1 c) c (start P) = Ok (Redo, start P') → begins k c P' P1 → begins (S k) c P P1.
Proof. intros E H Q Hg. apply byte_at_redo with P'; [done|by apply H]. Qed.
Lemma begins_reads k c P P1 Q :
  begins k c P P1 → (k ≤ 5)%nat → grown isRequest c P1 Q → complete Q = false → reads (str1 c) P Q.
Proof. intros H Hk Hg Hc. apply reads_write; [|done]. apply (byte_at_write k); [done|by apply H]. Qed.
(** A byte that an arm takes, or ends a piece with. *)
Lemma reads_break c P P1 Q :
  step isRequest (str1 c) c (start P) = Ok (Break, start P1) → grown isRequest c P1 Q →
  complete Q = false → reads (str1 c) P Q.
Proof. intros. apply reads_write; [|done]. apply (byte_at_write 2); [lia|]. by apply byte_at_break with P1. Qed.

(** *** Pieces *)

Definition lefts (P : parser) : Prop :=
  (h_max_ P ≠ 0 → 0 ≤ h_left_ P < 2 ^ 64) ∧ (b_max_ P ≠ 0 → 0 ≤ b_left_ P < 2 ^ 64).
Lemma lefts_limits P Q : limits P = limits Q → lefts Q → lefts P.
Proof. unfold lefts, limits. by intros [= -> -> -> -> _]. Qed.
Lemma fits_split limit l s t :
  (limit ≠ 0 → 0 ≤ l < 2 ^ 64) → fits limit l (s +:+ t) = true →
  fits limit l s = true ∧ fits limit (u64 (l - strlenZ s)) t = true.
Proof.
  unfold fits. intros Hl H. destruct (Z.eqb_spec limit 0) as [|Hn]; [done|]. cbn in *.
  specialize (Hl Hn). rewrite strlenZ_app in H. pose proof (strlenZ_nonneg s).
  pose proof (strlenZ_nonneg t). unfold u64. rewrite Z.mod_small; lia.
Qed.
(** One piece delivered is two delivered one after the other. *)
Lemma deliver_split g s t P R :
  lefts P → deliver isRequest g (s +:+ t) P = Some R →
  ∃ P1, deliver isRequest g s P = Some P1 ∧ deliver isRequest g t P1 = Some R ∧ lefts P1.
Proof.
  intros [Hh Hb] H. unfold deliver, in_header, in_body in *.
  destruct g; [destruct isRequest|destruct isRequest|destruct isRequest| | |];
    try (by exists P);
    (destruct (fits _ _ (s +:+ t)) eqn:Ef; [|done]).
  1-3,5: destruct (fits_split _ _ _ _ Hh Ef) as [E1 E2]; rewrite E1; eexists; split; [reflexivity|];
    cbn [option_map after set_derived set_b_left set_h_left h_max_ h_left_ b_max_ b_left_ derived];
    rewrite E2; rewrite <- H, u64_minus, strlenZ_app; split;
    [cbn [option_map]; f_equal; unfold after; cbn; by rewrite str_app_assoc
    |split; cbn; intros; [apply u64_bound|auto]].
  - destruct (fits_split _ _ _ _ Hh Ef) as [E1 E2]. rewrite E1.
    destruct (flushed (derived P)) as [d|] eqn:Ed; [|done]. pose proof (flushed_false _ _ Ed) as Efl.
    eexists. split; [reflexivity|].
    cbn [option_map after set_derived set_b_left set_h_left h_max_ h_left_ b_max_ b_left_ derived].
    rewrite (flushed_idle (set_field_ _ d)) by done. rewrite E2, <- H, u64_minus, strlenZ_app. split.
    + cbn [option_map]. f_equal. unfold after. cbn. by rewrite str_app_assoc.
    + split; cbn; intros; [apply u64_bound|auto].
  - destruct (fits_split _ _ _ _ Hb Ef) as [E1 E2]. rewrite E1.
    destruct (r_ (derived P)) eqn:Er; [|done]. eexists. split; [reflexivity|].
    cbn [option_map after set_derived set_b_left set_h_left h_max_ h_left_ b_max_ b_left_ derived].
    cbn [r_ set_m_]. rewrite Er, E2, <- H, u64_minus, strlenZ_app. split.
    + cbn [option_map]. f_equal. unfold after. cbn. by rewrite str_app_assoc.
    + split; cbn; intros; [auto|apply u64_bound].
Qed.

(** The characters of a piece: [T] is what the switch does for one, and [I] the
    invariant with what is left of the piece. *)
Section Chars.
Context (g : pmf) (I : string → parser → Prop) (T : ascii → parser → parser).
Context (HT : ∀ c s P, I (String c s) P →
  step isRequest (str1 c) c (start P) = Ok (Break, start (T c P)) ∧ I s (T c P)).
Context (HI : ∀ s P, I s P → cb_ P = Some g ∧ complete P = false).
Context (Ha : ∀ c h b d P, T c (after h b d P) = after h b d (T c P)).
Context (HIa : ∀ s h b d P, I s P → I s (after h b d P)).
Context (Hl : ∀ c P, limits (T c P) = limits P).

Fixpoint chars (s : string) (P : parser) : parser :=
  match s with EmptyString => P | String c s => chars s (T c P) end.
Lemma chars_after s h b d P : chars s (after h b d P) = after h b d (chars s P).
Proof. revert P; induction s as [|c s IH]; intros P; cbn; [done|]. by rewrite Ha, IH. Qed.
Lemma after_inj h b d h' b' d' P :
  after h b d P = after h' b' d' P → h = h' ∧ b = b' ∧ d = d'.
Proof. destruct P. by intros [= -> -> ->]. Qed.
Lemma deliver_same s P Q h b d :
  deliver isRequest g s P = Some (after h b d P) → limits Q = limits P →
  deliver isRequest g s Q = Some (after h b d Q).
Proof.
  intros H Hq. destruct (deliver_after isRequest _ _ _ _ H) as (h' & b' & d' & E & Hd).
  apply after_inj in E as (-> & -> & ->). by apply Hd.
Qed.

Lemma reads_char c s P h b d :
  I (String c s) P → deliver isRequest g (str1 c) P = Some (after h b d P) →
  reads (str1 c) P (after h b d (T c P)) ∧ I s (after h b d (T c P)).
Proof.
  intros HP Hd. destruct (HT c s P HP) as [Est HP1]. split; [|by apply HIa].
  apply reads_break with (T c P); [done| |].
  - unfold grown. rewrite (proj1 (HI _ _ HP1)). by apply (deliver_same _ P).
  - by eapply HI, HIa.
Qed.
Lemma reads_chars s P h b d :
  I s P → lefts P → s ≠ EmptyString →
  deliver isRequest g s P = Some (after h b d P) → reads s P (after h b d (chars s P)).
Proof.
  revert P h b d; induction s as [|c s IH]; intros P h b d HP Hlf Hs Hd; [done|].
  destruct s as [|c' s']; [by apply (reads_char c EmptyString)|].
  set (s := String c' s') in *. change (String c s) with (str1 c +:+ s) in Hd |- *.
  destruct (deliver_split _ _ _ _ _ Hlf Hd) as (Q & Hq & Hd' & Hlq).
  destruct (deliver_after isRequest _ _ _ _ Hq) as (h1 & b1 & d1 & -> & _).
  destruct (reads_char c s P h1 b1 d1 HP Hq) as [Hr HP1].
  apply reads_app with (after h1 b1 d1 (T c P)); [done|].
  replace (after h b d (chars (str1 c +:+ s) P)) with (after h b d (chars s (after h1 b1 d1 (T c P)))).
  2:{ rewrite chars_after. unfold str1. by rewrite str_app_cons. }
  assert (limits (after h1 b1 d1 (T c P)) = limits (after h1 b1 d1 P)) as El.
  { specialize (Hl c P). unfold limits in *. cbn. by injection Hl as -> _ -> _ _. }
  apply IH; [done| |done|].
  - by apply (lefts_limits _ _ El).
  - apply (deliver_same s (after h1 b1 d1 P)); [exact Hd'|exact El].
Qed.
(** The first character begins the piece. *)
Lemma reads_begin k c s P P1 h b d :
  begins k c P P1 → (k ≤ 5)%nat → I s P1 → lefts P1 →
  deliver isRequest g (String c s) P1 = Some (after h b d P1) →
  reads (String c s) P (after h b d (chars s P1)).
Proof.
  intros Est Hk HP1 Hlf Hd. change (String c s) with (str1 c +:+ s) in *.
  destruct s as [|c' s'].
  - rewrite str_app_nil_r in *. apply (begins_reads k _ _ P1); [done|done| |by eapply HI, HIa].
    unfold grown. by rewrite (proj1 (HI _ _ HP1)).
  - set (s := String c' s') in *.
    destruct (deliver_split _ _ _ _ _ Hlf Hd) as (Q & Hq & Hd' & Hlq).
    destruct (deliver_after isRequest _ _ _ _ Hq) as (h1 & b1 & d1 & -> & _).
    apply reads_app with (after h1 b1 d1 P1).
    + apply (begins_reads k _ _ P1); [done|done| |by eapply HI, HIa]. unfold grown. by rewrite (proj1 (HI _ _ HP1)).
    + replace (after h b d (chars s P1)) with (after h b d (chars s (after h1 b1 d1 P1)))
        by by rewrite chars_after.
      apply reads_chars; [by apply HIa|done|done|exact Hd'].
Qed.

End Chars.

End Known.

(** ** The automaton over a name *)

Definition matching_step (str : string) (miss hit : field_state) (c : ascii) (P : parser) : parser :=
  let P' := set_pos (pos_ P + 1) P in
  match char_at (str +:+ str1 nul) (Z.to_nat (pos_ P')) with
  | Some d =>
      if negb (Ascii.eqb c d) then set_fs miss P'
      else if pos_ P' =? strlenZ str + 1 - 2 then set_fs hit P' else P'
  | None => P
  end.
(** [name_char] where it does not fail. *)
Definition name_step (c : ascii) (P : parser) : parser :=
  match fs_ P with
  | h_C => set_fs (if Ascii.eqb c "o" then h_CO else h_general) (set_pos (pos_ P + 1) P)
  | h_CO => set_fs (if Ascii.eqb c "n" then h_CON else h_general) (set_pos (pos_ P + 1) P)
  | h_CON =>
      set_fs (if Ascii.eqb c "n" then h_matching_connection
              else if Ascii.eqb c "t" then h_matching_content_length else h_general)
        (set_pos (pos_ P + 1) P)
  | h_matching_connection => matching_step str_connection h_general h_connection c P
  | h_matching_proxy_connection => matching_step str_proxy_connection h_general h_connection c P
  | h_matching_content_length => matching_step str_content_length h_general h_content_length0 c P
  | h_matching_transfer_encoding => matching_step str_transfer_encoding h_general h_transfer_encoding c P
  | h_matching_upgrade => matching_step str_upgrade h_general h_upgrade c P
  | h_connection | h_content_length0 | h_transfer_encoding | h_upgrade => set_fs h_general P
  | _ => P
  end.

Lemma matching_eq str miss hit f c x :
  0 ≤ pos_ (c_P x) < strlenZ str - 1 → strlenZ str < 2 ^ 8 →
  (∀ P, flags_ P = flags_ (c_P x) → hit (set_P P x) = Ok (Break, set_P (set_fs f P) x)) →
  matching str miss hit c x = Ok (Break, set_P (matching_step str miss f c (c_P x)) x).
Proof.
  intros Hp Hs Hhit. unfold matching, matching_step, incr_pos. set (P' := set_pos _ _).
  assert (pos_ P' = pos_ (c_P x) + 1) as Ep by (apply Z.mod_small; lia).
  rewrite (bind_ok (updP _) _ x tt (set_P P' x)) by done.
  rewrite (bind_ok getP _ _ P' (set_P P' x)) by done. unfold str_index. cbv zeta. rewrite Ep.
  destruct (strlenZ_char_at str (pos_ (c_P x) + 1)) as [d ->]; [lia|].
  rewrite (bind_ok (mret d) _ _ d (set_P P' x)) by done.
  destruct (negb (Ascii.eqb c d)); [done|]. destruct (_ =? _); [by apply Hhit|done].
Qed.
Lemma name_char_eq c x :
  pos_ok (fs_ (c_P x)) (pos_ (c_P x)) → has_flag contentlength (c_P x) = false →
  name_char c x = Ok (Break, set_P (name_step c (c_P x)) x).
Proof.
  intros Hp Hf. unfold name_char, name_step. rewrite (bind_ok getP _ x (c_P x) x) by done.
  destruct (fs_ (c_P x)) eqn:E; cbn in Hp; try (by destruct x); try done.
  all: apply matching_eq; rewrite ?E; [cbn; lia|done|intros P HP]; try done.
  rewrite (bind_ok getP _ _ P (set_P P x)) by done.
  assert (has_flag contentlength P = false) as -> by (unfold has_flag in *; by rewrite HP). done.
Qed.

Fixpoint is_prefix (s t : string) : bool :=
  match s, t with
  | EmptyString, _ => true
  | String c s, String d t => Ascii.eqb c d && is_prefix s t
  | _, _ => false
  end.
(** The names the parser knows, in lower case. *)
Definition known_names : list string :=
  [str_connection; str_proxy_connection; str_content_length; str_transfer_encoding; str_upgrade].

(** The parser has read [p], a name's beginning in lower case. *)
Definition name_inv (p : string) (P : parser) : Prop :=
  let on w lo := lo ≤ pos_ P < strlenZ w - 1 ∧ p = str_take (Z.to_nat (pos_ P + 1)) w in
  match fs_ P with
  | h_C => pos_ P = 0 ∧ p = "c"
  | h_CO => pos_ P = 1 ∧ p = "co"
  | h_CON => pos_ P = 2 ∧ p = "con"
  | h_matching_connection => on str_connection 3
  | h_matching_proxy_connection => on str_proxy_connection 0
  | h_matching_content_length => on str_content_length 3
  | h_matching_transfer_encoding => on str_transfer_encoding 0
  | h_matching_upgrade => on str_upgrade 0
  | h_connection => p = str_connection ∨ p = str_proxy_connection
  | h_content_length0 => p = str_content_length
  | h_transfer_encoding => p = str_transfer_encoding
  | h_upgrade => p = str_upgrade
  | h_general => forallb (λ w, negb (is_prefix p w)) known_names = true
  | _ => False
  end.

Lemma range_cases lo n (Q : Z → Prop) :
  Forall (λ i, Q (lo + Z.of_nat i)) (seq 0 n) → ∀ z, lo ≤ z < lo + Z.of_nat n → Q z.
Proof.
  rewrite Forall_forall. intros H z Hz. replace z with (lo + Z.of_nat (Z.to_nat (z - lo))) by lia.
  apply H, elem_of_seq. lia.
Qed.
Lemma is_prefix_snoc p c w : is_prefix p w = false → is_prefix (p +:+ str1 c) w = false.
Proof.
  revert w; induction p as [|d p IH]; intros [|e w]; cbn; try done.
  rewrite str_app_cons. cbn. destruct (Ascii.eqb d e); [apply IH|done].
Qed.
Ltac enum_pos lo n :=
  match goal with |- ∀ z, _ ≤ z < _ → @?Q z =>
    apply (range_cases lo n Q); repeat constructor end.
Ltac name_case :=
  let P := fresh in intros P c; destruct P; cbn; intros -> ->;
  cbv -[Ascii.eqb];
  match goal with |- context [Ascii.eqb c ?d] => destruct (Ascii.eqb_spec c d) as [->|] end;
  vm_compute; repeat split; first [reflexivity|discriminate|left; reflexivity|right; reflexivity].
(** One character of a name being matched. *)
Lemma matching_inv f w lo miss hit z P c :
  (f, w, lo, hit) ∈ [(h_matching_connection, str_connection, 3, h_connection);
    (h_matching_proxy_connection, str_proxy_connection, 0, h_connection);
    (h_matching_content_length, str_content_length, 3, h_content_length0);
    (h_matching_transfer_encoding, str_transfer_encoding, 0, h_transfer_encoding);
    (h_matching_upgrade, str_upgrade, 0, h_upgrade)] → miss = h_general →
  lo ≤ z < strlenZ w - 1 → fs_ P = f → pos_ P = z →
  name_inv (str_take (Z.to_nat (z + 1)) w +:+ str1 c) (matching_step w miss hit c P).
Proof.
  intros Hf -> Hz. revert z Hz P c.
  repeat match type of Hf with _ ∈ _ :: _ => apply elem_of_cons in Hf as [[= -> -> -> ->]|Hf] end.
  6: by apply elem_of_nil in Hf.
  - enum_pos 3 6%nat; name_case.
  - enum_pos 0 15%nat; name_case.
  - enum_pos 3 10%nat; name_case.
  - enum_pos 0 16%nat; name_case.
  - enum_pos 0 6%nat; name_case.
Qed.
Lemma name_step_inv p c P : name_inv p P → name_inv (p +:+ str1 c) (name_step c P).
Proof.
  intros H. unfold name_step. unfold name_inv in H. cbv zeta in H.
  destruct (fs_ P) eqn:E; try done.
  - unfold name_inv. rewrite E. rewrite forallb_forall in *. intros w Hw.
    by rewrite is_prefix_snoc; [|apply negb_true_iff, H].
  - destruct H as [Hp ->]. revert c. destruct P; cbn in E, Hp; subst. intros c. cbv -[Ascii.eqb].
    destruct (Ascii.eqb_spec c "o") as [->|]; by vm_compute.
  - destruct H as [Hp ->]. revert c. destruct P; cbn in E, Hp; subst. intros c. cbv -[Ascii.eqb].
    destruct (Ascii.eqb_spec c "n") as [->|]; by vm_compute.
  - destruct H as [Hp ->]. revert c. destruct P; cbn in E, Hp; subst. intros c. cbv -[Ascii.eqb].
    destruct (Ascii.eqb_spec c "n") as [->|]; [by vm_compute|].
    destruct (Ascii.eqb_spec c "t") as [->|]; by vm_compute.
  - destruct H as [Hp ->].
    by apply (matching_inv h_matching_connection _ 3 _ h_connection); [set_solver|..].
  - destruct H as [Hp ->].
    by apply (matching_inv h_matching_proxy_connection _ 0 _ h_connection); [set_solver|..].
  - destruct H as [Hp ->].
    by apply (matching_inv h_matching_content_length _ 3 _ h_content_length0); [set_solver|..].
  - destruct H as [Hp ->].
    by apply (matching_inv h_matching_transfer_encoding _ 0 _ h_transfer_encoding); [set_solver|..].
  - destruct H as [Hp ->].
    by apply (matching_inv h_matching_upgrade _ 0 _ h_upgrade); [set_solver|..].
  - by destruct H as [->| ->].
  - by subst p.
  - by subst p.
  - by subst p.
Qed.

(** What the first character of a name does. *)
Definition name_first (c : ascii) (P : parser) : parser :=
  if Ascii.eqb c "c" then set_fs h_C (set_pos 0 P)
  else if Ascii.eqb c "p" then set_fs h_matching_proxy_connection (set_pos 0 P)
  else if Ascii.eqb c "t" then set_fs h_matching_transfer_encoding (set_pos 0 P)
  else if Ascii.eqb c "u" then set_fs h_matching_upgrade (set_pos 0 P)
  else set_fs h_general P.
Lemma name_first_inv c P : name_inv (str1 c) (name_first c P).
Proof.
  unfold name_first.
  destruct (Ascii.eqb_spec c "c") as [->|H1]; [done|].
  destruct (Ascii.eqb_spec c "p") as [->|H2]; [by vm_compute|].
  destruct (Ascii.eqb_spec c "t") as [->|H3]; [by vm_compute|].
  destruct (Ascii.eqb_spec c "u") as [->|H4]; [by vm_compute|].
  unfold name_inv. cbn -[Ascii.eqb]. apply Ascii.eqb_neq in H1, H2, H3, H4.
  by rewrite H1, H2, H3, H4.
Qed.

(** The kind of a field: its name in lower case, when the parser knows it. *)
Definition name_kind (name : string) : field_state :=
  if ci_equal name "Connection" || ci_equal name "Proxy-Connection" then h_connection
  else if ci_equal name "Content-Length" then h_content_length0
  else if ci_equal name "Transfer-Encoding" then h_transfer_encoding
  else if ci_equal name "Upgrade" then h_upgrade
  else h_general.
(** The kind a state of the automaton stands for at the end of the name. *)
Definition fs_kind (f : field_state) : field_state :=
  match f with
  | h_connection | h_content_length0 | h_transfer_encoding | h_upgrade => f
  | _ => h_general
  end.

Lemma take_not_known w lo : ∀ z,
  (w, lo) ∈ [(str_connection, 3); (str_proxy_connection, 0); (str_content_length, 3);
    (str_transfer_encoding, 0); (str_upgrade, 0)] →
  lo ≤ z < strlenZ w - 1 → existsb (String.eqb (str_take (Z.to_nat (z + 1)) w)) known_names = false.
Proof.
  intros z Hf. revert z.
  repeat match type of Hf with _ ∈ _ :: _ => apply elem_of_cons in Hf as [[= -> ->]|Hf] end.
  6: by apply elem_of_nil in Hf.
  - enum_pos 3 6%nat.
  - enum_pos 0 15%nat.
  - enum_pos 3 10%nat.
  - enum_pos 0 16%nat.
  - enum_pos 0 6%nat.
Qed.
Lemma is_prefix_refl s : is_prefix s s = true.
Proof. induction s as [|c s IH]; cbn; [done|]. by rewrite Ascii.eqb_refl. Qed.
Lemma name_kind_lower name :
  name_kind name = 
  let l := str_map tolower name in
  if String.eqb l str_connection || String.eqb l str_proxy_connection then h_connection
  else if String.eqb l str_content_length then h_content_length0
  else if String.eqb l str_transfer_encoding then h_transfer_encoding
  else if String.eqb l str_upgrade then h_upgrade
  else h_general.
Proof.
  assert (∀ t, ci_equal name t = String.eqb (str_map tolower name) (str_map tolower t)) as E.
  { intros t. apply eq_bool_prop_intro. rewrite !Is_true_true. rewrite ci_equal_iff. symmetry. apply String.eqb_eq. }
  unfold name_kind. by rewrite !E.
Qed.
Lemma not_known_general l :
  existsb (String.eqb l) known_names = false → 
  (if String.eqb l str_connection || String.eqb l str_proxy_connection then h_connection
  else if String.eqb l str_content_length then h_content_length0
  else if String.eqb l str_transfer_encoding then h_transfer_encoding
  else if String.eqb l str_upgrade then h_upgrade
  else h_general) = h_general.
Proof.
  unfold known_names. cbn [existsb]. 
  by destruct (String.eqb l str_connection), (String.eqb l str_proxy_connection),
    (String.eqb l str_content_length), (String.eqb l str_transfer_encoding), (String.eqb l str_upgrade).
Qed.
(** At the end of a name the automaton knows its kind. *)
Lemma name_inv_kind name P : name_inv (str_map tolower name) P → fs_kind (fs_ P) = name_kind name.
Proof.
  rewrite name_kind_lower. cbv zeta. set (l := str_map tolower name). clearbody l. unfold name_inv.
  destruct (fs_ P); cbn [fs_kind]; try done; intros H; symmetry.
  - apply not_known_general. rewrite <- not_true_iff_false, existsb_exists. intros (w & Hw & ->%String.eqb_eq).
    rewrite forallb_forall in H. specialize (H w Hw). by rewrite is_prefix_refl in H.
  - by destruct H as [_ ->].
  - by destruct H as [_ ->].
  - by destruct H as [_ ->].
  - destruct H as [Hp ->]. eapply not_known_general, take_not_known; [|exact Hp]. set_solver.
  - destruct H as [Hp ->]. eapply not_known_general, take_not_known; [|exact Hp]. set_solver.
  - destruct H as [Hp ->]. eapply not_known_general, take_not_known; [|exact Hp]. set_solver.
  - destruct H as [Hp ->]. eapply not_known_general, take_not_known; [|exact Hp]. set_solver.
  - destruct H as [Hp ->]. eapply not_known_general, take_not_known; [|exact Hp]. set_solver.
  - by destruct H as [->| ->].
  - by subst l.
  - by subst l.
  - by subst l.
Qed.

(** ** A name and its colon *)

Section Name.
Context (isRequest : bool).

(** The parser up to the automaton. *)
Definition blank (P : parser) : parser := set_fs h_general (set_pos 0 P).
Lemma blank_after h b d P Q : blank P = blank Q → blank (after h b d P) = blank (after h b d Q).
Proof. intros E. change (after h b d (blank P) = after h b d (blank Q)). by rewrite E. Qed.
Lemma blank_name_step c P : blank (name_step c P) = blank P.
Proof. unfold name_step, matching_step. repeat case_match; by destruct P. Qed.
Lemma blank_name_first c P : blank (name_first c P) = blank P.
Proof. unfold name_first. repeat case_match; by destruct P. Qed.

(** [P0] is [P] where a line of the header begins: the arms between the end of a line
    and the next have still to run in [P], for a character that does not fold. *)
Definition line_start (P P0 : parser) : Prop :=
  s_ P0 = s_header_name0 ∧ cb_ P0 = None ∧
  (P = P0 ∨
   ∀ c, is_ows c = false → step isRequest (str1 c) c (start P) = Ok (Redo, start P0)).
Lemma line_begins c P P0 P1 :
  line_start P P0 → is_ows c = false → begins isRequest 2 c P0 P1 →
  ∃ k, (k ≤ 3)%nat ∧ begins isRequest k c P P1.
Proof.
  intros (_ & _ & [->|E]) Hc H.
  - exists 2%nat. split; [lia|done].
  - exists 3%nat. split; [done|]. apply begins_redo with P0; [by apply E|done].
Qed.
Lemma line_start_first P : s_ P = s_header_name0 → cb_ P = None → line_start P P.
Proof. by repeat split; [..|left]. Qed.
(** Behind a value that adds no flag. *)
Lemma line_start_next P :
  s_ P = s_header_value_almost_done → cb_ P = None → value_flag (fs_ P) = None →
  line_start P (set_s s_header_name0 P).
Proof.
  intros E Hcb Ef. repeat split; [done|]. right. intros c Hc. unfold step.
  rewrite (bind_ok getP _ (start P) P (start P)), E by done.
  unfold at_header_value_almost_done. by rewrite Hc, (bind_ok getP _ (start P) P (start P)), Ef.
Qed.

Lemma tchar_field c : is_tchar c = true → to_field_char c = tolower c ∧ Ascii.eqb (tolower c) nul = false.
Proof.
  unfold to_field_char. intros Hc. rewrite Hc. split; [done|]. revert Hc. by destruct c as [[] [] [] [] [] [] [] []].
Qed.
Lemma tchar_not_ows c : is_tchar c = true → is_ows c = false ∧ Ascii.eqb c cr = false.
Proof. by destruct c as [[] [] [] [] [] [] [] []]. Qed.

Lemma name0_step c P :
  s_ P = s_header_name0 → cb_ P = None → is_tchar c = true →
  step isRequest (str1 c) c (start P) =
  Ok (Break, start (set_s s_header_name (set_cb (Some call_on_field) (name_first (tolower c) P)))).
Proof.
  intros Es Hcb Hc. rewrite (step_eq isRequest _ _ (start P) _ Es). unfold at_header_name0.
  destruct (tchar_not_ows c Hc) as [_ ->], (tchar_field c Hc) as [-> ->]. 
  rewrite (bind_ok _ _ (start P) Break (start (name_first (tolower c) P))).
  2:{ unfold name_first. by repeat case_match. }
  set (x := start (name_first (tolower c) P)).
  assert (cb_ (c_P x) = None) as Hx
    by exact (eq_trans (f_equal cb_ (blank_name_first (tolower c) P)) Hcb).
  by rewrite (bind_ok _ _ _ _ _ (begin_cb_eq isRequest (str1 c) call_on_field x Hx)).
Qed.

Definition name_here (s : string) (P : parser) : Prop :=
  s_ P = s_header_name ∧ cb_ P = Some call_on_field ∧ has_flag contentlength P = false ∧
  has_flag paused P = false ∧ str_forallb is_tchar s = true ∧ ∃ p, name_inv p P.
Lemma name_inv_pos p P : name_inv p P → pos_ok (fs_ P) (pos_ P).
Proof.
  unfold name_inv, pos_ok. destruct (fs_ P); try done; cbv zeta; intros [H _]; try done; cbn in H; lia.
Qed.
Lemma name_step_here c s P :
  name_here (String c s) P →
  step isRequest (str1 c) c (start P) = Ok (Break, start (name_step (to_field_char c) P)) ∧
  name_here s (name_step (to_field_char c) P).
Proof.
  intros (Es & Hcb & Hf & Hp & Hs & p & Hi). cbn in Hs. apply andb_true_iff in Hs as [Hc Hs]. split.
  - rewrite (step_eq isRequest _ _ (start P) _ Es). unfold at_header_name.
    rewrite (bind_ok st_get _ _ (start P) (start P)) by done.
    pose proof (name_char_eq (to_field_char c) (start P) (name_inv_pos _ _ Hi) Hf) as En.
    assert (name_stop c = None) as Hst
      by (unfold name_stop; by destruct (tchar_field c Hc) as [-> ->]).
    assert (Break ≠ Return) as Hbr by done.
    pose proof (loops_next isRequest _ _ _ (str1 c) 1%nat (start P) c _ _ (name_loops isRequest)
      eq_refl Hst En Hbr) as Ex.
    refine (eq_trans Ex _).
    by apply (loops_stop isRequest _ _ _ (str1 c) 0%nat (start (name_step (to_field_char c) P))
      (name_loops isRequest)).
  - pose proof (blank_name_step (to_field_char c) P) as Eb.
    repeat split; [exact (eq_trans (f_equal s_ Eb) Es)|exact (eq_trans (f_equal cb_ Eb) Hcb)
      |exact (eq_trans (f_equal (has_flag contentlength) Eb) Hf)
      |exact (eq_trans (f_equal (has_flag paused) Eb) Hp)|done|].
    exists (p +:+ str1 (to_field_char c)). by apply name_step_inv.
Qed.
Definition name_chars := chars (λ c, name_step (to_field_char c)).
Lemma name_chars_inv p s P :
  str_forallb is_tchar s = true → name_inv p P →
  name_inv (p +:+ str_map tolower s) (name_chars s P) ∧ blank (name_chars s P) = blank P.
Proof.
  revert p P; induction s as [|c s IH]; intros p P; cbn; [by rewrite str_app_nil_r|].
  intros [Hc Hs]%andb_prop Hi. destruct (tchar_field c Hc) as [-> _].
  destruct (IH (p +:+ str1 (tolower c)) (name_step (tolower c) P) Hs) as [H1 H2];
    [by apply name_step_inv|]. rewrite str_app_assoc in H1. split; [exact H1|].
  unfold name_chars in *. by rewrite H2, blank_name_step.
Qed.

Lemma end_cb_start data s P :
  end_cb isRequest data s (start P) = Ok (Break, start (set_s s (set_cb None P))).
Proof.
  unfold end_cb, cb. rewrite (bind_ok _ _ _ false (start (set_cb None P))); [done|].
  change ((st_get ≫= ?k) (start P)) with (k (start P) (start P)). cbn [c_P start].
  by destruct (cb_ P).
Qed.
Lemma name_step_after c h b d P : name_step c (after h b d P) = after h b d (name_step c P).
Proof.
  unfold name_step, matching_step. cbn [fs_ after set_derived set_b_left set_h_left].
  destruct (fs_ P); try done; cbv zeta; cbn [pos_ set_pos after set_derived set_b_left set_h_left];
    repeat case_match; done.
Qed.
Lemma name_here_complete s P : name_here s P → cb_ P = Some call_on_field ∧ complete P = false.
Proof. intros (Es & Hcb & _ & Hp & _). split; [done|]. unfold complete. by rewrite Es, Hp. Qed.

(** The parser reads a name and its colon: the name is the field's, and its kind is
    known. *)
Lemma reads_name name P0 P h b d :
  line_start P0 P → has_flag contentlength P = false → has_flag paused P = false → lefts P →
  name ≠ EmptyString → str_forallb is_tchar name = true →
  deliver isRequest call_on_field name P = Some (after h b d P) →
  ∃ Q, reads isRequest (name +:+ ":") P0 Q ∧ name_inv (str_map tolower name) Q ∧
    blank Q = blank (set_s s_header_value0 (set_cb None (after h b d P))).
Proof.
  intros Hls Hf Hp Hlf Hne Ht Hd. destruct name as [|c s]; [done|].
  cbn [str_forallb] in Ht. apply andb_true_iff in Ht as [Hc Hs].
  set (P1 := set_s s_header_name (set_cb (Some call_on_field) (name_first (tolower c) P))).
  assert (blank P1 = blank (set_s s_header_name (set_cb (Some call_on_field) P))) as Eb.
  { change (blank P1) with (set_s s_header_name (set_cb (Some call_on_field) (blank (name_first (tolower c) P)))).
    by rewrite blank_name_first. }
  destruct (line_begins c P0 P P1 Hls) as (k & Hk & Hbeg); [by apply tchar_not_ows| |].
  { apply begins_break, name0_step; [apply Hls|apply Hls|done]. }
  assert (name_inv (str1 (tolower c)) P1) as Hi by apply name_first_inv.
  assert (name_here s P1) as Hn.
  { repeat split; [exact (eq_trans (f_equal (has_flag contentlength) Eb) Hf)
      |exact (eq_trans (f_equal (has_flag paused) Eb) Hp)|done|by eexists]. }
  destruct (name_chars_inv _ s P1 Hs Hi) as [Hi' Eb'].
  set (N := name_chars s P1) in *. set (N1 := after h b d N).
  exists (set_s s_header_value0 (set_cb None N1)). split; [|split].
  - apply reads_app with N1.
    + apply (reads_begin isRequest call_on_field name_here (λ c, name_step (to_field_char c))) with k;
        [apply name_step_here|apply name_here_complete|intros; apply name_step_after|done
        |intros c' P'; apply (f_equal limits (blank_name_step _ P'))|done|lia|done| |].
      * exact (lefts_limits _ _ (f_equal limits Eb) Hlf).
      * apply (deliver_same isRequest call_on_field (String c s) P); [done|].
        exact (f_equal limits Eb).
    + apply reads_break with (set_s s_header_value0 (set_cb None N1)); [|done|].
      * assert (s_ N1 = s_header_name) as Es
          by exact (eq_trans (f_equal s_ Eb') (f_equal s_ Eb)).
        rewrite (step_eq isRequest _ _ (start N1) _ Es). apply end_cb_start.
      * unfold complete. cbn.
        exact (eq_trans (f_equal (has_flag paused) Eb') (eq_trans (f_equal (has_flag paused) Eb) Hp)).
  - exact Hi'.
  - change (set_s s_header_value0 (set_cb None (after h b d (blank N))) =
            set_s s_header_value0 (set_cb None (after h b d (blank P)))).
    rewrite Eb', Eb. done.
Qed.

End Name.

(** C28: the parser knows a field by its name, in any case of its letters: when it has
    read a name and its colon at the start of a line, the state of its automaton says
    whether the name is one of those that change how the message is read, and which;
    the name has been handed over to the message, and nothing else has changed. *)
Theorem field_name_classified (isRequest : bool) (name : string) (P P1 : parser) :
  parser_live isRequest P → s_ P = s_header_name0 → has_flag contentlength P = false →
  name ≠ EmptyString → str_forallb is_tchar name = true →
  deliver isRequest call_on_field name P = Some P1 →
  ∃ Q, write isRequest (name +:+ ":") P = Ok (S (String.length name), None, Q) ∧
    fs_kind (fs_ Q) = name_kind name ∧
    blank Q = blank (set_s s_header_value0 (set_cb None P1)).
Proof.
  intros Hl Es Hf Hne Ht Hd. destruct (deliver_after isRequest _ _ _ _ Hd) as (h & b & d & -> & _).
  assert (line_start isRequest P P) as Hls.
  { apply line_start_first; [done|]. pose proof (live_state _ _ Hl) as Hs. unfold state_ok in Hs.
    by rewrite Es in Hs. }
  destruct (reads_name isRequest name P P h b d) as (Q & Hr & Hi & Eb);
    [done|done|eapply has_flag_paused, Hl|apply (left_range isRequest), Hl|done|done|done|].
  exists Q. split; [|split; [by apply name_inv_kind|done]].
  apply reads_bytes in Hr. rewrite str_length_app, Nat.add_1_r in Hr. by apply write_of_bytes.
Qed.
Lemma field_name_classified_witness :
  let P := set_s s_header_name0 (init true) in
  ∃ P1 Q, deliver true call_on_field "Proxy-CONNECTION" P = Some P1 ∧
    write true ("Proxy-CONNECTION" +:+ ":") P = Ok (17%nat, None, Q) ∧
    fs_kind (fs_ Q) = h_connection ∧
    blank Q = blank (set_s s_header_value0 (set_cb None P1)).
Proof.
  intros P. assert (parser_live true P) as Hl.
  { destruct (init_ok true) as [(Hg & _) _]. split; [|done]. split; [|by split].
    apply general_s; [exact Hg|discriminate]. }
  eexists. destruct (field_name_classified true "Proxy-CONNECTION" P
    (after 16368 4194304 (set_field_ "Proxy-CONNECTION" parser_v1_new) P)) as (Q & HQ);
    [exact Hl|done|done|done|done|done|].
  exists Q. split; [reflexivity|exact HQ].
Defined.
