(* ===== verification/HttpText.v ===== *)
(** * The text of a message

    What the parser makes of the lines of a header, of their end, of a body and of a
    word of a start line: each is read as a function of the text, whatever follows
    it. *)

From Stdlib Require Import ZifyBool.
From S2P Require Import Prelude Ptree HttpMessage HttpParser HttpParserSafe HttpParserReads HttpParserBytes HttpParserStream HttpNames.

Local Open Scope Z_scope.

Section Lines.
Context (isRequest : bool).

Lemma reads_seq c s P Q R :
  reads isRequest (str1 c) P Q → reads isRequest s Q R → reads isRequest (String c s) P R.
Proof. intros H1 H2. by apply (reads_app isRequest (str1 c) s P Q R). Qed.

(** ** Values *)

(** The states of the automaton of a name that say nothing about its value. *)
Definition neutral (f : field_state) : bool :=
  match f with
  | h_general | h_C | h_CO | h_CON | h_matching_connection | h_matching_proxy_connection
  | h_matching_content_length | h_matching_transfer_encoding | h_matching_upgrade => true
  | _ => false
  end.
Lemma name_inv_neutral name P :
  name_inv (str_map tolower name) P → name_kind name = h_general → neutral (fs_ P) = true.
Proof.
  intros Hi Hk. pose proof (name_inv_kind _ _ Hi) as E. rewrite Hk in E.
  unfold name_inv in Hi. by destruct (fs_ P).
Qed.
Lemma text_value c :
  is_text c = true → Ascii.eqb c cr = false ∧ Ascii.eqb (to_value_char c) nul = false.
Proof. by destruct c as [[] [] [] [] [] [] [] []]. Qed.

(** A character of a value the automaton takes no notice of. *)
Definition value_here (s : string) (P : parser) : Prop :=
  s_ P = s_header_value ∧ cb_ P = Some call_on_value ∧ has_flag paused P = false ∧
  neutral (fs_ P) = true ∧ str_forallb is_text s = true.
Lemma value_char_neutral ch c x :
  neutral (fs_ (c_P x)) = true → value_char ch c x = Ok (Break, x).
Proof.
  intros Hn. unfold value_char. rewrite (bind_ok getP _ x (c_P x) x) by done.
  by destruct (fs_ (c_P x)).
Qed.
(** A character in the loop over a value. *)
Lemma value_step c P P1 :
  s_ P = s_header_value → value_stop c = None →
  value_char c (to_value_char c) (start P) = Ok (Break, start P1) →
  step isRequest (str1 c) c (start P) = Ok (Break, start P1).
Proof.
  intros Es Hst E. rewrite (step_eq isRequest _ _ (start P) _ Es). unfold at_header_value.
  rewrite (bind_ok st_get _ _ (start P) (start P)) by done.
  assert (Break ≠ Return) as Hbr by done.
  pose proof (loops_next isRequest _ _ _ (str1 c) 1%nat (start P) c _ _ (value_loops isRequest)
    eq_refl Hst E Hbr) as Ex.
  refine (eq_trans Ex _).
  by apply (loops_stop isRequest _ _ _ (str1 c) 0%nat (start P1) (value_loops isRequest)).
Qed.
Lemma text_stop c : is_text c = true → value_stop c = None.
Proof. intros Hc. unfold value_stop. by destruct (text_value c Hc) as [-> ->]. Qed.
Lemma value_step_here c s P :
  value_here (String c s) P →
  step isRequest (str1 c) c (start P) = Ok (Break, start P) ∧ value_here s P.
Proof.
  intros (Es & Hcb & Hp & Hn & Hs). cbn in Hs. apply andb_true_iff in Hs as [Hc Hs].
  split; [|by repeat split]. apply value_step; [done|by apply text_stop|by apply value_char_neutral].
Qed.
(** The first character of a value. *)
Lemma value0_step c P P1 :
  s_ P = s_header_value0 → cb_ P = None → is_ows c = false → is_text c = true →
  value_char c (to_value_char c)
    (start (set_s s_header_value (set_cb (Some call_on_value) (value_begun P)))) =
  Ok (Break, start P1) →
  step isRequest (str1 c) c (start P) = Ok (Break, start P1).
Proof.
  intros Es Hcb Ho Hc E. rewrite (step_eq isRequest _ _ (start P) _ Es). unfold at_header_value0.
  rewrite Ho, (proj1 (text_value c Hc)), (bind_ok getP _ (start P) P (start P)) by done.
  rewrite (bind_ok _ _ (start P) tt (start (value_begun P))).
  2:{ unfold value_begun. by destruct (is_content_length0 (fs_ P)). }
  rewrite (begin_eq isRequest (str1 c) call_on_value (start (value_begun P)));
    [|unfold value_begun; by destruct (is_content_length0 (fs_ P))|done].
  apply (value_step c (set_s s_header_value (set_cb (Some call_on_value) (value_begun P))))
    in E; [|done|by apply text_stop].
  rewrite <- E. symmetry. by rewrite (step_eq isRequest _ _ _ s_header_value).
Qed.

(** [s], then the end of a piece. *)
Lemma complete_s P s : has_flag paused P = false →
  match s with s_restart | s_closed_complete => False | _ => True end →
  complete (set_s s P) = false.
Proof. intros Hp Hs. unfold complete. cbn. by destruct s. Qed.

(** The line break behind a value. *)
Lemma reads_value_end P :
  s_ P = s_header_value → has_flag paused P = false →
  reads isRequest CRLF P (set_s s_header_value_almost_done (set_cb None P)).
Proof.
  intros Es Hp. apply reads_seq with (set_s s_header_value_lf (set_cb None P)).
  - apply reads_break with (set_s s_header_value_lf (set_cb None P)); [|done|by apply complete_s].
    rewrite (step_eq isRequest _ _ (start P) _ Es). unfold at_header_value.
    rewrite (bind_ok st_get _ _ (start P) (start P)) by done.
    refine (eq_trans (value_loops isRequest _ _ _) _). apply end_cb_start.
  - by apply reads_break with (set_s s_header_value_almost_done (set_cb None P)); [..|apply complete_s].
Qed.
(** A space before a value. *)
Lemma reads_value_space P :
  s_ P = s_header_value0 → cb_ P = None → has_flag paused P = false → reads isRequest " " P P.
Proof.
  intros Es Hcb Hp. apply reads_break with P; [|unfold grown; by rewrite Hcb|].
  - by rewrite (step_eq isRequest _ _ (start P) _ Es).
  - unfold complete. by rewrite Es.
Qed.
Lemma chars_id s P : chars (λ _ P, P) s P = P.
Proof. by induction s. Qed.

(** A value that says nothing about the message. *)
Lemma reads_value v P h b d :
  s_ P = s_header_value0 → cb_ P = None → neutral (fs_ P) = true → has_flag paused P = false →
  lefts P → str_forallb is_text v = true → (∃ c s, v = String c s ∧ is_ows c = false) →
  deliver isRequest call_on_value v P = Some (after h b d P) →
  reads isRequest (" " +:+ v +:+ CRLF) P (after h b d (set_s s_header_value_almost_done P)).
Proof.
  intros Es Hcb Hn Hp Hlf Ht (c & s & -> & Ho) Hd. apply reads_app with P; [by apply reads_value_space|].
  cbn in Ht. apply andb_true_iff in Ht as [Hc Hs].
  set (P1 := set_s s_header_value (set_cb (Some call_on_value) P)).
  apply reads_app with (after h b d P1).
  - rewrite <- (chars_id s P1).
    apply (reads_begin isRequest call_on_value value_here (λ _ P, P)) with 2%nat;
      [apply value_step_here| |done|done|done| |lia|by repeat split|done|].
    + intros ? ? (E & ? & Hp' & _). split; [done|]. unfold complete. by rewrite E.
    + apply begins_break. apply value0_step; [done..|].
      assert (value_begun P = P) as -> by (unfold value_begun; by destruct (fs_ P)).
      by apply value_char_neutral.
    + by apply (deliver_same isRequest call_on_value _ P).
  - replace (after h b d (set_s s_header_value_almost_done P)) with
      (set_s s_header_value_almost_done (set_cb None (after h b d P1))).
    + by apply reads_value_end.
    + change (after h b d (set_s s_header_value_almost_done (set_cb None P)) =
              after h b d (set_s s_header_value_almost_done P)).
      rewrite <- Hcb. by destruct P.
Qed.

(** *** [Content-Length] *)

Definition length_step (c : ascii) (P : parser) : parser :=
  set_content_length (u64 (content_length_ P * 10 + code c - 48)) P.
(** The largest length that can be read. *)
Definition length_limit : Z := (no_content_length - 10) / 10.
Definition length_here (s : string) (P : parser) : Prop :=
  s_ P = s_header_value ∧ cb_ P = Some call_on_value ∧ has_flag paused P = false ∧
  fs_ P = h_content_length ∧ str_forallb is_digit_char s = true ∧ 0 ≤ content_length_ P ∧
  digits_value (content_length_ P) s ≤ length_limit.
Lemma digits_value_le acc s :
  0 ≤ acc → str_forallb is_digit_char s = true → acc ≤ digits_value acc s.
Proof.
  revert acc; induction s as [|c s IH]; intros acc Ha; cbn; [lia|]. intros [Hc Hs]%andb_prop.
  pose proof (digit_value c Hc). specialize (IH (10 * acc + (code c - 48)) ltac:(lia) Hs). lia.
Qed.
Lemma digit_text c :
  is_digit_char c = true → is_text c = true ∧ is_ows c = false.
Proof. by destruct c as [[] [] [] [] [] [] [] []]. Qed.
Lemma length_step_here c s P :
  length_here (String c s) P →
  step isRequest (str1 c) c (start P) = Ok (Break, start (length_step c P)) ∧
  length_here s (length_step c P).
Proof.
  intros (Es & Hcb & Hp & Hf & Hs & H0 & Hle). cbn in Hs, Hle. apply andb_true_iff in Hs as [Hc Hs].
  pose proof (digit_value c Hc) as Hd. destruct (digit_text c Hc) as [Ht Ho].
  pose proof (digits_value_le (10 * content_length_ P + (code c - 48)) s ltac:(lia) Hs) as Hle'.
  assert (length_limit < 2 ^ 61) as Hll by done.
  split.
  - apply value_step; [done|by apply text_stop|]. unfold value_char.
    rewrite (bind_ok getP _ (start P) P (start P)), Hf by done. unfold content_length_char.
    rewrite Ho, Hc. cbn [negb]. rewrite (bind_ok getP _ (start P) P (start P)) by done. fold length_limit.
    by rewrite (proj2 (Z.ltb_ge length_limit (content_length_ P))) by lia.
  - unfold length_here, length_step. cbn [s_ cb_ fs_ content_length_ set_content_length].
    assert (u64 (content_length_ P * 10 + code c - 48) = 10 * content_length_ P + (code c - 48)) as ->
      by (unfold u64; rewrite Z.mod_small; lia).
    repeat split; [done..|lia|done].
Qed.
Lemma length_chars s P :
  str_forallb is_digit_char s = true → 0 ≤ content_length_ P →
  digits_value (content_length_ P) s ≤ length_limit →
  chars length_step s P = set_content_length (digits_value (content_length_ P) s) P.
Proof.
  revert P; induction s as [|c s IH]; intros P; cbn; [by destruct P|]. intros [Hc Hs]%andb_prop H0 Hle.
  pose proof (digit_value c Hc) as Hd.
  pose proof (digits_value_le (10 * content_length_ P + (code c - 48)) s ltac:(lia) Hs) as Hle'.
  assert (length_limit < 2 ^ 61) as Hll by done.
  assert (content_length_ (length_step c P) = 10 * content_length_ P + (code c - 48)) as E.
  { unfold length_step, u64. cbn. rewrite Z.mod_small; lia. }
  rewrite IH by (rewrite ?E; done || lia). by rewrite E.
Qed.
(** The value of [Content-Length]. *)
Lemma reads_length v P h b d :
  s_ P = s_header_value0 → cb_ P = None → fs_ P = h_content_length0 → has_flag paused P = false →
  0 ≤ flags_ P < 2 ^ 8 → lefts P → str_forallb is_digit_char v = true → v ≠ EmptyString →
  digits_value 0 v ≤ length_limit →
  deliver isRequest call_on_value v P = Some (after h b d P) →
  ∃ Q, reads isRequest (" " +:+ v +:+ CRLF) P Q ∧ fs_ Q = h_content_length ∧
    blank Q = blank (after h b d (set_s s_header_value_almost_done
      (set_content_length (digits_value 0 v) (set_flags (Z.lor (flags_ P) contentlength) P)))).
Proof.
  intros Es Hcb Hf Hp Hfl Hlf Ht Hv Hle Hd. destruct v as [|c s]; [done|]. clear Hv.
  cbn in Ht. apply andb_true_iff in Ht as [Hc Hs].
  pose proof (digit_value c Hc) as Hdv. destruct (digit_text c Hc) as [Htx Ho].
  change (digits_value 0 (String c s)) with (digits_value (code c - 48) s) in *.
  assert (value_begun P = set_flags (Z.lor (flags_ P) contentlength) (set_content_length 0 P)) as Eb
    by (unfold value_begun; by rewrite Hf).
  set (P1 := set_fs h_content_length (set_content_length (code c - 48)
    (set_s s_header_value (set_cb (Some call_on_value) (value_begun P))))).
  assert (has_flag paused P1 = false) as Hp1.
  { apply paused_range. unfold P1. rewrite Eb. by apply flags_range. }
  assert (limits P1 = limits P) as El by (unfold P1; by rewrite Eb).
  exists (set_s s_header_value_almost_done (set_cb None (after h b d (chars length_step s P1)))).
  split; [|split].
  - apply reads_app with P; [by apply reads_value_space|].
    apply reads_app with (after h b d (chars length_step s P1)).
    + apply (reads_begin isRequest call_on_value length_here length_step) with 2%nat;
        [apply length_step_here| |done|done|done| |lia| |exact (lefts_limits P1 P El Hlf)| ].
      * intros ? ? (E & ? & Hp' & _). split; [done|]. unfold complete. by rewrite E.
      * apply begins_break. apply value0_step; [done..|]. unfold value_char.
        set (Q := set_s _ _). rewrite (bind_ok getP _ (start Q) Q (start Q)) by done.
        replace (fs_ Q) with h_content_length0 by (unfold Q; rewrite Eb; by rewrite <- Hf).
        unfold content_length_char0. by rewrite Hc.
      * unfold length_here. repeat split; [done|done|cbn; lia|done].
      * apply (deliver_same isRequest call_on_value _ P); [done|]. unfold P1. by rewrite Eb.
    + rewrite length_chars by (done || cbn; lia).
      apply reads_value_end; [done|exact Hp1].
  - by rewrite length_chars by (done || cbn; lia).
  - rewrite length_chars by (done || cbn; lia). unfold P1. rewrite Eb.
    change (after h b d (set_s s_header_value_almost_done (set_cb None (set_content_length (digits_value (code c - 48) s)
      (set_flags (Z.lor (flags_ P) contentlength) (blank P))))) = after h b d (set_s s_header_value_almost_done
      (set_content_length (digits_value (code c - 48) s) (set_flags (Z.lor (flags_ P) contentlength) (blank P))))).
    f_equal. rewrite <- Hcb. by destruct P.
Qed.

(** ** The lines of a header *)

(** [P] is [B], up to the automaton, where a line begins. *)
Definition at_line (P B : parser) : Prop := ∃ P0, line_start isRequest P P0 ∧ blank P0 = blank B.

Lemma blank_eq {A} (f : parser → A) P Q :
  blank P = blank Q → (∀ P, f (blank P) = f P) → f P = f Q.
Proof. intros E H. by rewrite <- (H P), <- (H Q), E. Qed.

(** The derived object with nothing pending, and with a field pending. *)
Definition clean (d : parser_v1) : Prop :=
  flush_ d = false ∧ field_ d = EmptyString ∧ value_ d = EmptyString.
Definition pend (n v : string) (d : parser_v1) : parser_v1 :=
  set_flush_ true (set_value_ v (set_field_ n d)).
Definition ins (n v : string) (d : parser_v1) : parser_v1 :=
  set_m_ (set_m_fields (fields_insert n v (m_fields (m_ d))) (m_ d)) d.
Lemma flushed_pend n v d : clean d → n ≠ EmptyString → flushed (pend n v d) = Some (ins n v d).
Proof.
  intros (H1 & H2 & H3) Hn. unfold flushed, pend. cbn.
  destruct (String.eqb_spec n EmptyString); [done|]. destruct d. cbn in *. by subst.
Qed.
Lemma clean_ins n v d : clean d → clean (ins n v d).
Proof. done. Qed.

Lemma fits_le limit left s : strlenZ s ≤ left → fits limit left s = true.
Proof. unfold fits. intros ?. destruct (limit =? 0); [done|]. cbn. lia. Qed.
Lemma u64_sub l s : 0 ≤ l < 2 ^ 64 → strlenZ s ≤ l → u64 (l - strlenZ s) = l - strlenZ s.
Proof. intros. pose proof (strlenZ_nonneg s). unfold u64. apply Z.mod_small. lia. Qed.

(** A line of the header, for the two kinds of value. *)
Section Field.
Context (P B : parser) (n v : string) (d : parser_v1).
Context (HP : at_line P B) (Hd : flushed (derived B) = Some d) (Hcl : clean d).
Context (Hfl : flags_ B = 0) (Hl : 0 ≤ h_left_ B < 2 ^ 64) (Hlb : 0 ≤ b_left_ B < 2 ^ 64).
Context (Hn : n ≠ EmptyString) (Ht : str_forallb is_tchar n = true).
Context (Hsz : strlenZ n + strlenZ v ≤ h_left_ B).

Definition left1 : Z := h_left_ B - strlenZ n.
Definition left2 : Z := left1 - strlenZ v.

Lemma reads_field_name :
  ∃ Q, reads isRequest (n +:+ ":") P Q ∧ name_inv (str_map tolower n) Q ∧
    blank Q = blank (set_s s_header_value0 (set_cb None (after left1 (b_left_ B) (set_field_ n d) B))).
Proof.
  destruct HP as (P0 & Hls & Eb). pose proof (strlenZ_nonneg v).
  assert (limits P0 = limits B) as El by by apply (blank_eq limits).
  assert (flags_ P0 = 0) as Ef by (rewrite <- Hfl; by apply (blank_eq flags_)).
  destruct (reads_name isRequest n P P0 left1 (b_left_ B) (set_field_ n d)) as (Q & Hr & Hi & EQ); [done| | | |done|done| |].
  - unfold has_flag. by rewrite Ef.
  - unfold has_flag. by rewrite Ef.
  - apply (lefts_limits _ B El). by split.
  - apply (deliver_same isRequest call_on_field n B); [|done].
    cbn [deliver]. unfold in_header. rewrite Hd, fits_le by lia. cbn [option_map].
    rewrite u64_sub by lia. do 2 f_equal. destruct Hcl as (_ & E & _). by rewrite E.
  - exists Q. split; [done|]. split; [done|]. rewrite EQ.
    change (set_s s_header_value0 (set_cb None (after left1 (b_left_ B) (set_field_ n d) (blank P0))) =
            set_s s_header_value0 (set_cb None (after left1 (b_left_ B) (set_field_ n d) (blank B)))).
    by rewrite Eb.
Qed.
Lemma deliver_value Q :
  blank Q = blank (set_s s_header_value0 (set_cb None (after left1 (b_left_ B) (set_field_ n d) B))) →
  deliver isRequest call_on_value v Q = Some (after left2 (b_left_ B) (pend n v d) Q).
Proof.
  intros EQ. pose proof (strlenZ_nonneg n). pose proof (strlenZ_nonneg v).
  apply (deliver_same isRequest call_on_value v
    (set_s s_header_value0 (set_cb None (after left1 (b_left_ B) (set_field_ n d) B)))); [|by apply (blank_eq limits)].
  cbn [deliver]. unfold in_header. cbn [h_left_ h_max_ b_left_ derived set_s set_cb after set_derived set_b_left set_h_left].
  unfold left2. rewrite fits_le, u64_sub by (unfold left1; lia). cbn [option_map]. do 2 f_equal.
  destruct Hcl as (_ & _ & E). unfold pend. cbn. by rewrite E.
Qed.

Lemma lefts_name :
  lefts (set_s s_header_value0 (set_cb None (after left1 (b_left_ B) (set_field_ n d) B))).
Proof.
  pose proof (strlenZ_nonneg n). pose proof (strlenZ_nonneg v). unfold left1. split; cbn; lia.
Qed.
(** A field the parser takes no notice of. *)
Lemma reads_field :
  name_kind n = h_general → str_forallb is_text v = true → (∃ c s, v = String c s ∧ is_ows c = false) →
  s_ B = s_header_name0 → cb_ B = None →
  ∃ P', reads isRequest (n +:+ ": " +:+ v +:+ CRLF) P P' ∧
    at_line P' (after left2 (b_left_ B) (pend n v d) B).
Proof.
  intros Hk Hv Hc Es Hcb. destruct reads_field_name as (Q & Hr & Hi & EQ).
  pose proof (name_inv_neutral _ _ Hi Hk) as Hneu.
  exists (after left2 (b_left_ B) (pend n v d) (set_s s_header_value_almost_done Q)). split.
  - replace (n +:+ ": " +:+ v +:+ CRLF) with ((n +:+ ":") +:+ (" " +:+ v +:+ CRLF))
      by (rewrite !str_app_assoc; done).
    apply reads_app with Q; [done|]. apply reads_value; [by apply (blank_eq s_ _ _ EQ)|by apply (blank_eq cb_ _ _ EQ)
      |done| | |done|done|by apply deliver_value].
    + pose proof (blank_eq (has_flag paused) _ _ EQ (λ _, eq_refl)) as ->. unfold has_flag. cbn. by rewrite Hfl.
    + pose proof (blank_eq limits _ _ EQ (λ _, eq_refl)) as El. by apply (lefts_limits _ _ El), lefts_name.
  - eexists. split; [apply line_start_next; [done| |]|].
    + by apply (blank_eq cb_ _ _ EQ).
    + cbn. by destruct (fs_ Q).
    + change (set_s s_header_name0 (after left2 (b_left_ B) (pend n v d) (blank Q)) =
        blank (after left2 (b_left_ B) (pend n v d) B)). rewrite EQ, <- Es, <- Hcb. by destruct B.
Qed.
(** The length of the body. *)
Lemma reads_field_length :
  name_kind n = h_content_length0 → str_forallb is_digit_char v = true → v ≠ EmptyString →
  digits_value 0 v ≤ length_limit → s_ B = s_header_name0 → cb_ B = None →
  ∃ P', reads isRequest (n +:+ ": " +:+ v +:+ CRLF) P P' ∧
    at_line P' (set_content_length (digits_value 0 v) (set_flags contentlength
      (after left2 (b_left_ B) (pend n v d) B))).
Proof.
  intros Hk Hv Hne Hle Es Hcb. destruct reads_field_name as (Q & Hr & Hi & EQ).
  pose proof (name_inv_kind _ _ Hi) as Ek. rewrite Hk in Ek.
  assert (fs_ Q = h_content_length0) as Ef by (unfold fs_kind in Ek; by destruct (fs_ Q)).
  assert (flags_ Q = 0) as Efl by (rewrite <- Hfl; by apply (blank_eq flags_ _ _ EQ)).
  destruct (reads_length v Q left2 (b_left_ B) (pend n v d)) as (R & Hr' & EfR & ER).
  - by apply (blank_eq s_ _ _ EQ).
  - by apply (blank_eq cb_ _ _ EQ).
  - done.
  - unfold has_flag. by rewrite Efl.
  - by rewrite Efl.
  - pose proof (blank_eq limits _ _ EQ (λ _, eq_refl)) as El. by apply (lefts_limits _ _ El), lefts_name.
  - done.
  - done.
  - done.
  - by apply deliver_value.
  - exists R. split.
    + replace (n +:+ ": " +:+ v +:+ CRLF) with ((n +:+ ":") +:+ (" " +:+ v +:+ CRLF))
        by (rewrite !str_app_assoc; done).
      by apply reads_app with Q.
    + assert (cb_ R = None) as Hcb'.
      { transitivity (cb_ Q); [by apply (blank_eq cb_ _ _ ER)|by apply (blank_eq cb_ _ _ EQ)]. }
      exists (set_s s_header_name0 R). split.
      * apply line_start_next; [by apply (blank_eq s_ _ _ ER)|done|by rewrite EfR].
      * change (blank (set_s s_header_name0 R)) with (set_s s_header_name0 (blank R)). rewrite ER, Efl.
        change (set_s s_header_name0 (set_content_length (digits_value 0 v) (set_flags contentlength
          (after left2 (b_left_ B) (pend n v d) (blank Q)))) =
          blank (set_content_length (digits_value 0 v) (set_flags contentlength
            (after left2 (b_left_ B) (pend n v d) B)))).
        rewrite EQ, <- Es, <- Hcb. by destruct B.
Qed.

End Field.

(** Fields that say nothing about how the message is read, as they are stored. *)
Definition plain_field (nv : string * string) : Prop :=
  nv.1 ≠ EmptyString ∧ str_forallb is_tchar nv.1 = true ∧ name_kind nv.1 = h_general ∧
  nv.2 ≠ EmptyString ∧ str_forallb is_text nv.2 = true ∧ trim nv.2 = nv.2.
Lemma trim_first c s : trim (String c s) = String c s → is_ows c = false.
Proof.
  intros E. destruct (is_ows c) eqn:Ec; [|done]. exfalso.
  assert (trim (String c s) = trim s) as Es.
  { unfold trim, skip_ows. cbn [str_span]. rewrite Ec. by destruct (str_span is_ows s). }
  pose proof (strlenZ_trim s) as H. rewrite <- Es, E in H. cbn in H. lia.
Qed.
Definition add_fields (fs : fields) (d : parser_v1) : parser_v1 :=
  set_m_ (set_m_fields (m_fields (m_ d) ++ fs) (m_ d)) d.

(** The lines of plain fields. *)
Lemma reads_fields fs P B d :
  at_line P B → flushed (derived B) = Some d → clean d → flags_ B = 0 →
  0 ≤ h_left_ B < 2 ^ 64 → 0 ≤ b_left_ B < 2 ^ 64 → s_ B = s_header_name0 → cb_ B = None →
  Forall plain_field fs → fields_size fs ≤ h_left_ B →
  ∃ P' D, reads isRequest (write_fields fs) P P' ∧
    at_line P' (after (h_left_ B - fields_size fs) (b_left_ B) D B) ∧
    flushed D = Some (add_fields fs d).
Proof.
  revert P B d; induction fs as [|[n v] fs IH]; intros P B d HP Hd Hcl Hfl Hl Hlb Es Hcb Hfs Hsz.
  - exists P, (derived B). split; [apply reads_nil|]. rewrite Hd. cbn. rewrite Z.sub_0_r, after_same.
    split; [done|]. unfold add_fields. rewrite app_nil_r. by destruct d as [? ? ? ? ? []].
  - apply Forall_cons in Hfs as [(Hn & Ht & Hk & Hv & Htx & Htr) Hfs']. cbn in Hn, Ht, Hk, Hv, Htx, Htr.
    change (fields_size ((n, v) :: fs)) with (strlenZ n + strlenZ v + fields_size fs) in *.
    pose proof (fields_size_nonneg fs). pose proof (strlenZ_nonneg n). pose proof (strlenZ_nonneg v).
    destruct (reads_field P B n v d) as (P1 & Hr & HP1); try done; [lia| |].
    { destruct v as [|c s]; [done|]. exists c, s. split; [done|]. by apply trim_first in Htr. }
    set (B1 := after (left2 B n v) (b_left_ B) (pend n v d) B) in *. unfold left2, left1 in *.
    assert (h_left_ B1 = h_left_ B - strlenZ n - strlenZ v) as El1 by done.
    destruct (IH P1 B1 (ins n v d)) as (P2 & D & Hr' & HP2 & HD); try done.
    { by apply flushed_pend. } { rewrite El1. lia. } { rewrite El1. lia. }
    exists P2, D. split; [|split].
    + change (write_fields ((n, v) :: fs)) with ((n +:+ ": " +:+ v +:+ CRLF) +:+ write_fields fs).
      by apply reads_app with P1.
    + rewrite El1 in HP2. by replace (h_left_ B - (strlenZ n + strlenZ v + fields_size fs)) with
        (h_left_ B - strlenZ n - strlenZ v - fields_size fs) by lia.
    + rewrite HD. unfold add_fields, ins, fields_insert. cbn. by rewrite Htr, <- app_assoc.
Qed.

(** ** The end of the header *)

(** The bytes [s] are the rest of a message, which is [m]. *)
Definition ends_with (s : string) (P : parser) (m : message) : Prop := ∃ Q,
  (∀ t, write_bytes isRequest (s +:+ t) P = Ok (String.length s, None, Q)) ∧
  complete Q = true ∧ m_ (derived Q) = m.
Lemma ends_app s t P Q m : reads isRequest s P Q → ends_with t Q m → ends_with (s +:+ t) P m.
Proof.
  intros Hr (R & Ht & Hc & Hm). exists R. split; [|done]. intros u.
  rewrite str_app_assoc, (Hr (t +:+ u)), Ht, str_length_app. done.
Qed.
Lemma ends_byte k c P Q m :
  byte_at isRequest k c P Q → (k ≤ 5)%nat → complete Q = true → m_ (derived Q) = m →
  ends_with (str1 c) P m.
Proof.
  intros Hb Hk Hc Hm. exists Q. split; [|done]. intros t. unfold str1.
  rewrite str_app_cons. cbn [write_bytes].
  rewrite (byte_at_write isRequest k c P Q Hk Hb). cbn. by rewrite Hc.
Qed.

(** What the end of the header does to the derived object. *)
Definition headed (P : parser) (d : parser_v1) : parser_v1 :=
  set_r_ true (set_m_ (set_m_version (10 * http_major_ P + http_minor_ P) (m_ d)) d).
Lemma almost_done_step P d :
  s_ P = s_headers_almost_done → flags_ P = 0 ∨ flags_ P = contentlength →
  flushed (derived P) = Some d → skip_body_ d = false →
  step isRequest (str1 nl) nl (start P) =
  Ok (Redo, start (set_s s_headers_done (set_derived (headed P d) (set_upgrade false P)))).
Proof.
  intros Es Hf Hd Hsk. unfold step. rewrite (bind_ok getP _ (start P) P (start P)), Es by done.
  unfold at_headers_almost_done. cbn [Ascii.eqb nl Bool.eqb negb].
  rewrite (bind_ok getP _ (start P) P (start P)) by done.
  assert (has_flag trailing P = false ∧ has_flag chunked P = false ∧ upgrade_wanted P = false) as (-> & -> & ->).
  { unfold has_flag, upgrade_wanted. by destruct Hf as [-> | ->]. }
  cbn [andb]. set (x1 := start (set_upgrade false P)).
  rewrite (bind_ok (updP _) _ (start P) tt x1) by done.
  set (x2 := start (set_derived (set_m_ (set_m_version (10 * http_major_ P + http_minor_ P) (m_ d)) d) (set_upgrade false P))).
  rewrite (bind_ok call_on_headers _ x1 tt x2).
  2:{ unfold call_on_headers, on_header.
      rewrite (bind_ok flush _ x1 tt (start (set_derived d (set_upgrade false P)))); [done|].
      rewrite flush_eq. unfold x1. cbn [c_P start derived set_upgrade]. by rewrite Hd. }
  rewrite if_ec_eq. cbn [x2 start c_ec].
  assert (call_on_body_what x2 = Ok (bw_normal, start (set_derived (headed P d) (set_upgrade false P)))) as Eb.
  { unfold call_on_body_what, on_body_what. rewrite (bind_ok getP _ x2 (c_P x2) x2) by done.
    unfold x2. cbn [c_P start derived set_derived skip_body_ set_m_]. by rewrite Hsk. }
  rewrite (bind_ok _ _ _ _ _ Eb). rewrite if_ec_eq. done.
Qed.
Lemma headers_done_step P :
  s_ P = s_headers_done → cb_ P = None → flags_ P = 0 ∨ flags_ P = contentlength → upgrade_ P = false →
  step isRequest (str1 nl) nl (start P) =
  if content_length_ P =? 0 then Ok (Redo, start (set_s s_complete P))
  else if negb (content_length_ P =? no_content_length) then Ok (Break, start (set_s s_body_identity0 P))
  else if negb (needs_eof isRequest P) then Ok (Redo, start (set_s s_complete P))
  else Ok (Break, start (set_s s_body_identity_eof0 P)).
Proof.
  intros Es Hcb Hf Hu. unfold step. rewrite (bind_ok getP _ (start P) P (start P)), Es by done.
  unfold at_headers_done. rewrite (bind_ok assert_no_cb _ (start P) tt (start P)).
  2:{ unfold assert_no_cb. by rewrite (bind_ok getP _ (start P) P (start P)), Hcb. }
  rewrite if_ec_eq. cbn [c_ec start]. rewrite (bind_ok getP _ (start P) P (start P)), Hu by done.
  assert (has_flag skipbody P = false ∧ has_flag chunked P = false) as [-> ->].
  { unfold has_flag. by destruct Hf as [-> | ->]. }
  cbn [andb orb]. by destruct (content_length_ P =? 0), (content_length_ P =? no_content_length), (needs_eof isRequest P).
Qed.
Lemma cb_one c P Q :
  grown isRequest c P Q →
  cb isRequest (str1 c) None (set_p 1 (start P)) = Ok (false, set_P (set_cb None Q) (set_p 1 (start P))).
Proof.
  intros Hg. unfold grown in Hg. unfold cb. set (x := set_p 1 (start P)).
  change ((st_get ≫= ?k) x) with (k x x). cbv beta. change (cb_ (c_P x)) with (cb_ P).
  destruct (cb_ P) as [g|]; [|by subst Q].
  cbn [x c_p c_begin set_p start Nat.eqb]. fold x.
  destruct (proj2 (call_pmf_deliver isRequest g (str1 c) x (set_P Q x) eq_refl)) as [E _]; [by exists Q|].
  rewrite (bind_ok _ _ x false (set_P Q x)); [done|].
  rewrite (bind_ok (piece (str1 c)) _ x (str1 c) x) by done. by rewrite (bind_ok _ _ _ _ _ E).
Qed.
Lemma complete_step c P Q :
  s_ P = s_complete → grown isRequest c P Q → byte_at isRequest 1 c P (set_s s_restart (set_cb None Q)).
Proof.
  intros Es Hg. apply byte_at_return with 0%nat. rewrite (step_eq isRequest _ _ (start P) _ Es).
  unfold at_complete. rewrite (bind_ok _ _ _ _ _ (next_char_eq _)).
  by rewrite (bind_ok _ _ _ _ _ (cb_one c P Q Hg)).
Qed.

(** The blank line. *)
Lemma reads_cr P P0 :
  line_start isRequest P P0 → has_flag paused P0 = false →
  reads isRequest (str1 cr) P (set_s s_headers_almost_done P0).
Proof.
  intros Hls Hp. destruct (line_begins isRequest cr P P0 (set_s s_headers_almost_done P0) Hls) as (k & Hk & Hb);
    [done| |].
  { apply begins_break. by rewrite (step_eq isRequest _ _ (start P0) _ (proj1 Hls)). }
  apply (begins_reads isRequest k cr P (set_s s_headers_almost_done P0)); [done|lia| |by apply complete_s].
  unfold grown. cbn. by destruct Hls as (_ & -> & _).
Qed.
Section HeaderEnd.
Context (P B : parser) (d : parser_v1).
Context (HP : at_line P B) (Hd : flushed (derived B) = Some d) (Hsk : skip_body_ d = false).
Context (Hfl : flags_ B = 0 ∨ flags_ B = contentlength).

Lemma header_end_done :
  content_length_ B = 0 ∨ (isRequest = true ∧ content_length_ B = no_content_length) →
  ends_with CRLF P (m_ (headed B d)).
Proof.
  intros Hl. destruct HP as (P0 & Hls & Eb). pose proof Hls as (Es & Hcb & _).
  assert (flags_ P0 = flags_ B) as Ef by by apply (blank_eq flags_).
  assert (flushed (derived P0) = Some d) as Hd0
    by (rewrite <- Hd; f_equal; by apply (blank_eq derived)).
  apply ends_app with (s := str1 cr) (t := str1 nl) (Q := set_s s_headers_almost_done P0).
  { apply reads_cr; [done|]. unfold has_flag. rewrite Ef. by destruct Hfl as [-> | ->]. }
  set (P1 := set_s s_headers_almost_done P0).
  set (P2 := set_s s_headers_done (set_derived (headed P1 d) (set_upgrade false P1))).
  apply ends_byte with 3%nat (set_s s_restart (set_cb None (set_s s_complete P2))); [|lia|done|].
  - apply byte_at_redo with P2; [apply almost_done_step; [done|by rewrite <- Ef in Hfl|done|done]|].
    apply byte_at_redo with (set_s s_complete P2).
    + rewrite headers_done_step; [|done|done|by rewrite <- Ef in Hfl|done].
      change (content_length_ P2) with (content_length_ P0).
      rewrite (blank_eq content_length_ _ _ Eb (λ _, eq_refl)).
      destruct Hl as [-> | [Hr ->]]; [done|]. unfold needs_eof. by rewrite Hr.
    + apply complete_step; [done|]. unfold grown. cbn. by rewrite Hcb.
  - change (m_ (headed P0 d) = m_ (headed B d)). unfold headed.
    by rewrite (blank_eq http_major_ _ _ Eb (λ _, eq_refl)), (blank_eq http_minor_ _ _ Eb (λ _, eq_refl)).
Qed.
Lemma header_end_body :
  content_length_ B ≠ 0 → content_length_ B ≠ no_content_length →
  ∃ Q, reads isRequest CRLF P Q ∧
    blank Q = blank (set_s s_body_identity0 (set_derived (headed B d) (set_upgrade false (set_cb None B)))).
Proof.
  intros H0 H1. destruct HP as (P0 & Hls & Eb). pose proof Hls as (Es & Hcb & _).
  assert (flags_ P0 = flags_ B) as Ef by by apply (blank_eq flags_).
  assert (flushed (derived P0) = Some d) as Hd0
    by (rewrite <- Hd; f_equal; by apply (blank_eq derived)).
  assert (has_flag paused P0 = false) as Hp by (unfold has_flag; rewrite Ef; by destruct Hfl as [-> | ->]).
  set (P1 := set_s s_headers_almost_done P0).
  set (P2 := set_s s_headers_done (set_derived (headed P1 d) (set_upgrade false P1))).
  exists (set_s s_body_identity0 P2). split.
  - apply reads_seq with P1; [by apply reads_cr|].
    apply reads_write; [|by apply complete_s]. apply (byte_at_write isRequest 3); [lia|].
    apply byte_at_redo with P2; [apply almost_done_step; [done|by rewrite <- Ef in Hfl|done|done]|].
    apply byte_at_break with (set_s s_body_identity0 P2); [|unfold grown; cbn; by rewrite Hcb].
    rewrite headers_done_step; [|done|done|by rewrite <- Ef in Hfl|done].
    change (content_length_ P2) with (content_length_ P0).
    rewrite (blank_eq content_length_ _ _ Eb (λ _, eq_refl)).
    by rewrite (proj2 (Z.eqb_neq _ _) H0), (proj2 (Z.eqb_neq _ _) H1).
  - change (set_s s_body_identity0 (set_derived (headed (blank P0) d) (set_upgrade false (blank P0))) =
      set_s s_body_identity0 (set_derived (headed (blank B) d) (set_upgrade false (set_cb None (blank B))))).
    rewrite <- Eb, <- Hcb. by destruct P0.
Qed.
End HeaderEnd.

(** ** The body *)

Definition body_here (s : string) (P : parser) : Prop :=
  s_ P = s_body_identity ∧ cb_ P = Some call_on_body ∧ has_flag paused P = false ∧
  content_length_ P = strlenZ s + 1 ∧ strlenZ s + 1 < no_content_length.
Definition body_step (c : ascii) (P : parser) : parser :=
  set_content_length (content_length_ P - 1) P.
Lemma identity_step c P :
  s_ P = s_body_identity → 0 < content_length_ P < no_content_length →
  step isRequest (str1 c) c (start P) =
  let P1 := body_step c P in
  if content_length_ P1 =? 0 then Ok (Redo, start (set_s s_complete P1)) else Ok (Break, start P1).
Proof.
  intros Es Hl. rewrite (step_eq isRequest _ _ (start P) _ Es).
  destruct (take_eq (str1 c) (start P) (content_length_ P) eq_refl) as (n & En & Eu & Hn);
    [unfold no_content_length in Hl; lia|cbn; lia|].
  assert (n = 0%nat) as -> by (cbn in Hn; lia).
  rewrite (identity_eq _ (start P) 0 En); [|cbn; lia|cbn; lia]. cbn [start c_P c_p c_begin c_ec].
  by rewrite Eu.
Qed.
Lemma body_step_here c s P :
  body_here (String c s) P →
  step isRequest (str1 c) c (start P) = Ok (Break, start (body_step c P)) ∧
  body_here s (body_step c P).
Proof.
  intros (Es & Hcb & Hp & Hl & Hb). cbn [strlenZ] in Hl, Hb. pose proof (strlenZ_nonneg s).
  assert (content_length_ (body_step c P) = strlenZ s + 1) as Hl' by (cbn; lia). split.
  - rewrite identity_step by (done || lia). cbv zeta. rewrite Hl'.
    by rewrite (proj2 (Z.eqb_neq (strlenZ s + 1) 0)) by lia.
  - repeat split; [done..|lia].
Qed.
Lemma body_chars s P : chars body_step s P = set_content_length (content_length_ P - strlenZ s) P.
Proof.
  revert P; induction s as [|c s IH]; intros P; cbn [chars strlenZ].
  - rewrite Z.sub_0_r. by destruct P.
  - rewrite IH. unfold body_step. cbn [content_length_ set_content_length].
    by replace (content_length_ P - 1 - strlenZ s) with (content_length_ P - (1 + strlenZ s)) by lia.
Qed.
Lemma byte_at_same k c P P1 Q :
  step isRequest (str1 c) c (start P) = step isRequest (str1 c) c (start P1) →
  byte_at isRequest k c P1 Q → byte_at isRequest k c P Q.
Proof.
  intros Es [b H]. exists b. destruct k as [|k]; [done|].
  apply bind_inv in H as (f & z & Ez & H). rewrite (bind_ok _ _ _ f z); [done|].
  cbn [write_loop] in *. rewrite (bind_ok st_get _ (start P) (start P) (start P)) by done.
  rewrite (bind_ok st_get _ (start P1) (start P1) (start P1)) in Ez by done.
  apply bind_inv in Ez as (g & y & Ey & Ez). rewrite <- Es in Ey. by rewrite (bind_ok _ _ _ _ _ Ey).
Qed.
(** The last byte of the body ends the message. *)
Lemma last_byte c P h b d :
  s_ P = s_body_identity → cb_ P = Some call_on_body → content_length_ P = 1 →
  deliver isRequest call_on_body (str1 c) P = Some (after h b d P) →
  ∃ Q, byte_at isRequest 2 c P Q ∧ complete Q = true ∧ derived Q = d.
Proof.
  intros Es Hcb Hl Hd.
  exists (set_s s_restart (set_cb None (after h b d (set_s s_complete (body_step c P))))).
  split; [|done]. apply byte_at_redo with (set_s s_complete (body_step c P)).
  - rewrite identity_step by (done || rewrite Hl; by unfold no_content_length). cbv zeta.
    by replace (content_length_ (body_step c P)) with 0 by (cbn; lia).
  - apply complete_step; [done|]. unfold grown. cbn [cb_ set_s body_step set_content_length].
    rewrite Hcb. by apply (deliver_same isRequest call_on_body _ P).
Qed.
Lemma str_last s : s ≠ EmptyString → ∃ t c, s = t +:+ str1 c.
Proof.
  induction s as [|c s IH]; [done|]. intros _. destruct s as [|c' s'].
  - by exists EmptyString, c.
  - destruct IH as (t & e & E); [done|]. exists (String c t), e. by rewrite str_app_cons, <- E.
Qed.
Lemma reads_body body P h b d :
  s_ P = s_body_identity0 → cb_ P = None → has_flag paused P = false → lefts P →
  content_length_ P = strlenZ body → body ≠ EmptyString → strlenZ body < no_content_length →
  deliver isRequest call_on_body body P = Some (after h b d P) → ends_with body P (m_ d).
Proof.
  intros Es Hcb Hp Hlf Hl Hne Hb Hd.
  set (P1 := set_s s_body_identity (set_cb (Some call_on_body) P)).
  assert (∀ c, step isRequest (str1 c) c (start P) = step isRequest (str1 c) c (start P1)) as Hst.
  { intros c. rewrite (step_eq isRequest _ _ (start P) _ Es), (step_eq isRequest _ _ (start P1) s_body_identity) by done.
    by apply (begin_eq isRequest (str1 c) call_on_body (start P)). }
  destruct body as [|c s]; [done|]. cbn [strlenZ] in Hl, Hb. pose proof (strlenZ_nonneg s).
  destruct (String.eqb_spec s EmptyString) as [->|Hs].
  - destruct (last_byte c P1 h b d) as (Q & Hq & Hc & <-); [done|done|cbn in *; lia| |].
    { by apply (deliver_same isRequest call_on_body _ P). }
    apply ends_byte with 2%nat Q; [by apply byte_at_same with P1|lia|done|done].
  - destruct (str_last s Hs) as (t & e & ->). rewrite strlenZ_app in *. change (strlenZ (str1 e)) with 1 in *.
    pose proof (strlenZ_nonneg t).
    change (String c (t +:+ str1 e)) with (String c t +:+ str1 e) in *.
    destruct (deliver_split _ _ _ _ _ _ Hlf Hd) as (Q & Hq & Hd' & Hlq).
    destruct (deliver_after isRequest _ _ _ _ Hq) as (h1 & b1 & d1 & -> & _).
    set (P2 := body_step c P1).
    assert (content_length_ P2 = strlenZ t + 1) as Hl2 by (cbn; rewrite Hl; lia).
    apply ends_app with (after h1 b1 d1 (chars body_step t P2)).
    + apply (reads_begin isRequest call_on_body body_here body_step) with 2%nat;
        [apply body_step_here| |done|done|done| |lia| |done|].
      * intros ? ? (E & ? & Hp' & _). split; [done|]. unfold complete. by rewrite E.
      * apply begins_break. rewrite Hst, identity_step; [|done|cbn; lia]. cbv zeta. fold P2.
        by rewrite Hl2, (proj2 (Z.eqb_neq (strlenZ t + 1) 0)) by lia.
      * repeat split; [done|done|lia].
      * by apply (deliver_same isRequest call_on_body _ P).
    + rewrite body_chars, Hl2. set (P3 := after h1 b1 d1 _).
      destruct (last_byte e P3 h b d) as (Q & Hq' & Hc & <-); [done|done|cbn; lia| |].
      { apply (deliver_same isRequest call_on_body _ (after h1 b1 d1 P)); [|done].
        rewrite Hd'. by destruct P. }
      by apply ends_byte with 2%nat Q; [|lia|..].
Qed.

(** The blank line and the body. *)
Lemma ends_body P B d body :
  at_line P B → flushed (derived B) = Some d → skip_body_ d = false →
  flags_ B = 0 ∨ flags_ B = contentlength → lefts B →
  content_length_ B = strlenZ body → strlenZ body < no_content_length →
  fits (b_max_ B) (b_left_ B) body = true →
  ends_with (CRLF +:+ body) P (set_m_body (m_body (m_ (headed B d)) +:+ body) (m_ (headed B d))).
Proof.
  intros HP Hd Hsk Hfl Hlf Hl Hno Hfit. destruct (String.eqb_spec body EmptyString) as [->|Hb].
  - rewrite !str_app_nil_r. replace (set_m_body _ _) with (m_ (headed B d)) by by destruct (m_ (headed B d)).
    apply header_end_done; [done..|]. by left.
  - assert (0 < strlenZ body)
      by (destruct body as [|c s]; [done|cbn; pose proof (strlenZ_nonneg s); lia]).
    destruct (header_end_body P B d) as (Q & R & EQ); [done..|lia|lia|].
    apply ends_app with Q; [done|].
    pose proof (blank_eq s_ _ _ EQ (λ _, eq_refl)) as Es'.
    pose proof (blank_eq cb_ _ _ EQ (λ _, eq_refl)) as Ec'.
    pose proof (blank_eq content_length_ _ _ EQ (λ _, eq_refl)) as En'.
    pose proof (blank_eq derived _ _ EQ (λ _, eq_refl)) as Ed'.
    pose proof (blank_eq limits _ _ EQ (λ _, eq_refl)) as Elim.
    apply (reads_body body Q (h_left_ Q) (u64 (b_left_ Q - strlenZ body))
      (set_m_ (set_m_body (m_body (m_ (headed B d)) +:+ body) (m_ (headed B d))) (headed B d))); try done.
    + pose proof (blank_eq (has_flag paused) _ _ EQ (λ _, eq_refl)) as ->.
      unfold has_flag. cbn. by destruct Hfl as [-> | ->].
    + by apply (lefts_limits _ _ Elim).
    + by rewrite En'.
    + unfold deliver, in_body. rewrite Ed'. injection Elim as _ _ -> -> _.
      change (b_left_ _) with (b_left_ B). change (b_max_ _) with (b_max_ B). by rewrite Hfit.
Qed.

(** ** Start lines *)

(** A word: a piece whose characters the switch leaves to it. *)
Section Word.
Context (sw : state) (g : pmf) (ok : ascii → bool).
Context (Hstep : ∀ c P, s_ P = sw → ok c = true →
  step isRequest (str1 c) c (start P) = Ok (Break, start P)).
Context (Hsw : match sw with s_restart | s_closed_complete => False | _ => True end).
Definition word_here (s : string) (P : parser) : Prop :=
  s_ P = sw ∧ cb_ P = Some g ∧ has_flag paused P = false ∧ str_forallb ok s = true.
Lemma reads_word k c s P P1 h b d :
  begins isRequest k c P P1 → (k ≤ 5)%nat → s_ P1 = sw → cb_ P1 = Some g → has_flag paused P1 = false →
  lefts P1 → str_forallb ok (String c s) = true →
  deliver isRequest g (String c s) P1 = Some (after h b d P1) →
  reads isRequest (String c s) P (after h b d P1).
Proof.
  intros Hb Hk Es Hcb Hp Hlf Hok Hd. cbn in Hok. apply andb_true_iff in Hok as [_ Hok].
  rewrite <- (chars_id s P1).
  apply (reads_begin isRequest g word_here (λ _ P, P)) with k; try done.
  - intros c' s' P' (E & ? & ? & Hs). cbn in Hs. apply andb_true_iff in Hs as [Hc Hs].
    split; [by apply Hstep|by repeat split].
  - intros s' P' (E & ? & Hp' & _). split; [done|]. unfold complete. rewrite E. by destruct sw.
Qed.
End Word.

(** The byte that ends a word. *)
Lemma reads_stop c P s :
  step isRequest (str1 c) c (start P) = end_cb isRequest (str1 c) s (start P) →
  has_flag paused P = false →
  match s with s_restart | s_closed_complete => False | _ => True end →
  reads isRequest (str1 c) P (set_s s (set_cb None P)).
Proof.
  intros E Hp Hs. apply reads_break with (set_s s (set_cb None P)); [|done|by apply complete_s].
  rewrite E. apply end_cb_start.
Qed.

End Lines.

Lemma in_header_eq s d P l b :
  h_left_ P = l → b_left_ P = b → strlenZ s ≤ l < 2 ^ 64 →
  in_header s (Some d) P = Some (after (l - strlenZ s) b d P).
Proof.
  intros El <- Hl. pose proof (strlenZ_nonneg s). unfold in_header.
  by rewrite fits_le, El, u64_sub by lia.
Qed.

(** The next byte, for a parser in a known state without a piece under way. *)
Lemma reads_quiet isRequest s c P P1 :
  s_ P = s → (s_ P = s → step isRequest (str1 c) c (start P) = Ok (Break, start P1)) →
  cb_ P1 = None → complete P1 = false → reads isRequest (str1 c) P P1.
Proof.
  intros Es H Hcb Hc. apply reads_break with P1; [by apply H| |done].
  unfold grown. by rewrite Hcb.
Qed.
Ltac quiet_step :=
  let E := fresh in intros E; unfold step;
  change ((getP ≫= ?k) ?x) with (k (c_P x) x); cbn [c_P start]; rewrite E; reflexivity.
Lemma complete_flags s P : flags_ P = 0 → match s with s_restart | s_closed_complete => False | _ => True end →
  complete (set_s s P) = false.
Proof. intros Hf. apply complete_s. unfold has_flag. by rewrite Hf. Qed.
(** The next byte of a text, read in the state [s], leaves [Q]. *)
Ltac quiet_byte s Q :=
  apply reads_seq with Q; [apply (reads_quiet _ s); [done|quiet_step|done|by apply complete_flags]|].

(** ** A message from its header on *)

Section Rest.
Context (isRequest : bool) (P B : parser) (d : parser_v1) (fs : fields) (body : string).
Context (HP : at_line isRequest P B) (Hd : flushed (derived B) = Some d) (Hcl : clean d).
Context (Hsk : skip_body_ d = false) (Hfl : flags_ B = 0).
Context (Es : s_ B = s_header_name0) (Hcb : cb_ B = None).
Context (Hl : 0 ≤ h_left_ B < 2 ^ 64) (Hlb : 0 ≤ b_left_ B < 2 ^ 64).
Context (Hfs : Forall plain_field fs).

Definition version_of : Z := 10 * http_major_ B + http_minor_ B.
(** The message with the fields [gs] and the body. *)
Definition message_with (gs : fields) : message :=
  set_m_body (m_body (m_ d) +:+ body)
    (set_m_version version_of (set_m_fields (m_fields (m_ d) ++ gs) (m_ d))).

(** Without a length: the message of a request ends with its header. *)
Lemma rest_no_length :
  isRequest = true → content_length_ B = no_content_length → body = EmptyString →
  fields_size fs ≤ h_left_ B → 
  ends_with isRequest (write_fields fs +:+ CRLF) P (message_with fs).
Proof.
  intros Hr Hno Hb Hsz.
  destruct (reads_fields isRequest fs P B d) as (P1 & D & R1 & HP1 & HD); try done.
  set (B1 := after (h_left_ B - fields_size fs) (b_left_ B) D B) in *.
  apply ends_app with P1; [done|].
  replace (message_with fs) with (m_ (headed B1 (add_fields fs d))).
  - apply header_end_done; [done|done|done|by left|by right].
  - unfold message_with. rewrite Hb, str_app_nil_r. by destruct d as [? ? ? ? ? []].
Qed.

Definition length_field : string * string := ("Content-Length", to_dec (strlenZ body)).
Lemma rest_length :
  fields_size fs + 14 + strlenZ (to_dec (strlenZ body)) ≤ h_left_ B →
  strlenZ body ≤ length_limit → fits (b_max_ B) (b_left_ B) body = true →
  ends_with isRequest (write_fields (fs ++ [length_field]) +:+ CRLF +:+ body) P
    (message_with (fs ++ [length_field])).
Proof.
  intros Hsz Hlim Hfit. pose proof (strlenZ_nonneg body). pose proof (fields_size_nonneg fs).
  set (v := to_dec (strlenZ body)) in *. pose proof (strlenZ_nonneg v).
  destruct (to_dec_pos (strlenZ body)) as (Hv & Hvd & Hvn); [done|]. fold v in Hv, Hvd, Hvn.
  destruct (reads_fields isRequest fs P B d) as (P1 & D & R1 & HP1 & HD); try done; [lia|].
  set (B1 := after (h_left_ B - fields_size fs) (b_left_ B) D B) in *.
  set (d1 := add_fields fs d) in *.
  assert (h_left_ B1 = h_left_ B - fields_size fs) as El1 by done.
  destruct (reads_field_length isRequest P1 B1 "Content-Length" v d1) as (P2 & R2 & HP2); try done.
  { rewrite El1. lia. } { rewrite El1. change (strlenZ "Content-Length") with 14. lia. }
  { by rewrite Hv. }
  rewrite Hv in HP2. set (B2 := set_content_length _ _) in HP2.
  set (d2 := ins "Content-Length" v d1).
  assert (flushed (derived B2) = Some d2) as HD2 by by apply flushed_pend.
  assert (m_ (headed B2 d2) = set_m_version version_of
    (set_m_fields (m_fields (m_ d) ++ fs ++ [length_field]) (m_ d))) as Em.
  { unfold headed, d2, d1, ins, add_fields, fields_insert, length_field, version_of. fold v.
    cbn -[trim]. by rewrite (trim_digits v Hvd), app_assoc. }
  unfold write_fields. rewrite map_app, str_concat_app. fold (write_fields fs). rewrite !str_app_assoc.
  apply ends_app with P1; [done|].
  change (str_concat (map (λ nv, nv.1 +:+ ": " +:+ nv.2 +:+ CRLF) [length_field])) with
    (("Content-Length" +:+ ": " +:+ v +:+ CRLF) +:+ EmptyString).
  rewrite str_app_nil_r. apply ends_app with P2; [done|].
  assert (strlenZ body < no_content_length) as Hno
    by (pose proof (eq_refl : length_limit <? no_content_length = true); lia).
  replace (message_with _) with (set_m_body (m_body (m_ (headed B2 d2)) +:+ body) (m_ (headed B2 d2)))
    by (rewrite Em; by unfold message_with).
  apply ends_body; try done; [by right|]. split; [|done]. intros _. unfold left2, left1 in B2.
  change (h_left_ _) with (h_left_ B - fields_size fs - 14 - strlenZ v). lia.
Qed.

End Rest.
