(* ===== verification/HttpReadBack.v ===== *)
(** * A message that is written is read back

    The start lines of requests and responses, and the round trip: the bytes beast
    writes for a message are read as that message, however they reach the socket. *)

From Stdlib Require Import ZifyBool.
From S2P Require Import Prelude Ptree HttpMessage HttpParser HttpParserSafe HttpParserReads HttpParserBytes HttpParserStream HttpNames HttpText.

Local Open Scope Z_scope.

(** *** The request line *)

Definition url_char (c : ascii) : bool := is_text c && negb (Ascii.eqb c " ").
Lemma tchar_not_space c : is_tchar c = true → Ascii.eqb c " " = false.
Proof. by destruct c as [[] [] [] [] [] [] [] []]. Qed.

(** The parser of a request before its first line, and where its header begins. *)
Definition request_started : parser :=
  set_s s_req_method (set_cb (Some call_on_method)
    (set_content_length no_content_length (set_flags 0 (init true)))).
Definition line_object (meth url : string) : parser_v1 :=
  set_m_ (set_m_url url (set_m_method meth message_new)) parser_v1_new.
Definition request_begun (meth url : string) (minor : Z) : parser :=
  set_derived (line_object meth url) (set_s s_header_name0 (set_http_minor minor (set_http_major 1
    (set_h_left (header_limit - strlenZ meth - strlenZ url) (set_cb None request_started))))).

Lemma request_begins c : is_tchar c = true → begins true 3 c (init true) request_started.
Proof.
  intros Hc. apply begins_redo with (set_s s_req_method0 (set_content_length no_content_length (set_flags 0 (init true)))).
  - done.
  - apply begins_break. rewrite (step_eq true _ _ _ s_req_method0) by done.
    unfold at_req_method0. rewrite Hc. done.
Qed.
(** The version and the end of the line. *)
Definition request_lined (v : Z) (P : parser) : parser :=
  let d := derived P in
  set_s s_header_name0 (set_derived (set_method_ EmptyString (set_uri_ EmptyString
    (set_m_ (set_m_url (uri_ d) (set_m_method (method_ d) (m_ d))) d)))
    (set_http_minor (v mod 10) (set_http_major 1 P))).
Lemma reads_version v vs P :
  http_version v = Ok vs → s_ P = s_req_http → cb_ P = None → flags_ P = 0 →
  reads true (vs +:+ CRLF) P (request_lined v P).
Proof.
  intros Hv Es Hcb Hf.
  set (P1 := set_s s_req_dot (set_http_major 1 P)).
  set (P2 := set_s s_req_cr (set_http_minor (v mod 10) P1)).
  assert (reads true "HTTP/1." P (set_s s_req_minor P1)) as R1.
  { quiet_byte s_req_http (set_s s_req_http_H P). quiet_byte s_req_http_H (set_s s_req_http_HT P).
    quiet_byte s_req_http_HT (set_s s_req_http_HTT P). quiet_byte s_req_http_HTT (set_s s_req_http_HTTP P).
    quiet_byte s_req_http_HTTP (set_s s_req_major P). quiet_byte s_req_major P1.
    quiet_byte s_req_dot (set_s s_req_minor P1). apply reads_nil. }
  assert (reads true CRLF P2 (request_lined v P)) as R3.
  { quiet_byte s_req_cr (set_s s_req_lf P2). quiet_byte s_req_lf (request_lined v P). apply reads_nil. }
  unfold http_version in Hv.
  destruct (Z.eqb_spec v 10) as [->|]; [|destruct (Z.eqb_spec v 11) as [->|]; [|done]];
    injection Hv as <-.
  - apply (reads_app true "HTTP/1." ("0" +:+ CRLF) _ (set_s s_req_minor P1)); [done|].
    by quiet_byte s_req_minor P2.
  - apply (reads_app true "HTTP/1." ("1" +:+ CRLF) _ (set_s s_req_minor P1)); [done|].
    by quiet_byte s_req_minor P2.
Qed.
Lemma reads_method meth :
  meth ≠ EmptyString → str_forallb is_tchar meth = true → strlenZ meth ≤ header_limit →
  reads true meth (init true)
    (after (header_limit - strlenZ meth) (body_limit true) (set_method_ meth parser_v1_new) request_started).
Proof.
  intros Hm Hmt Hsz. destruct meth as [|c m]; [done|]. set (meth := String c m) in *.
  apply (reads_word true s_req_method call_on_method is_tchar) with 3%nat; try done.
  - intros c' P' Es Hc'. rewrite (step_eq true _ _ (start P') _ Es). unfold at_req_method.
    by rewrite (tchar_not_space c' Hc'), Hc'.
  - apply request_begins. cbn in Hmt. by apply andb_true_iff in Hmt as [? _].
  - lia.
  - apply in_header_eq; [done|done|unfold header_limit in *; lia].
Qed.
Lemma reads_url url P :
  s_ P = s_req_url0 → cb_ P = None → flags_ P = 0 → lefts P → h_left_ P < 2 ^ 64 →
  url ≠ EmptyString → str_forallb url_char url = true → strlenZ url ≤ h_left_ P →
  reads true url P (after (h_left_ P - strlenZ url) (b_left_ P) (set_uri_ (uri_ (derived P) +:+ url) (derived P))
    (set_s s_req_url (set_cb (Some call_on_uri) P))).
Proof.
  intros Es Hcb Hf Hlf Hl64 Hu Hut Hsz. destruct url as [|e u]; [done|]. set (url := String e u) in *.
  apply (reads_word true s_req_url call_on_uri url_char) with 2%nat; try done.
  - intros c' P' Es' [Hc Hsp]%andb_prop. rewrite (step_eq true _ _ (start P') _ Es'). unfold at_req_url.
    apply negb_true_iff in Hsp. by rewrite Hsp, Hc.
  - apply begins_break. rewrite (step_eq true _ _ (start P) _ Es).
    cbn in Hut. apply andb_true_iff in Hut as [[Hc Hsp]%andb_prop _]. apply negb_true_iff in Hsp.
    unfold at_req_url0. rewrite Hsp, Hc. cbn [negb].
    by rewrite (bind_ok _ _ _ _ _ (begin_cb_eq true (str1 e) call_on_uri (start P) Hcb)).
  - lia.
  - unfold has_flag. cbn. by rewrite Hf.
  - apply (in_header_eq url _ (set_s s_req_url (set_cb (Some call_on_uri) P))); [done|done|done].
Qed.
Lemma reads_request_line meth url v vs :
  http_version v = Ok vs → meth ≠ EmptyString → str_forallb is_tchar meth = true →
  url ≠ EmptyString → str_forallb url_char url = true → strlenZ meth + strlenZ url ≤ header_limit →
  ∃ P, reads true (meth +:+ " " +:+ url +:+ " " +:+ vs +:+ CRLF) (init true) P ∧
    at_line true P (request_begun meth url (v mod 10)).
Proof.
  intros Hv Hm Hmt Hu Hut Hsz. pose proof (strlenZ_nonneg meth). pose proof (strlenZ_nonneg url).
  set (P1 := after (header_limit - strlenZ meth) (body_limit true) (set_method_ meth parser_v1_new) request_started).
  set (P2 := set_s s_req_url0 (set_cb None P1)).
  set (P3 := after (header_limit - strlenZ meth - strlenZ url) (body_limit true)
    (set_uri_ url (set_method_ meth parser_v1_new)) (set_s s_req_url (set_cb (Some call_on_uri) P2))).
  set (P4 := set_s s_req_http (set_cb None P3)).
  assert (reads true meth (init true) P1) as R1 by (apply reads_method; [done|done|lia]).
  assert (reads true " " P1 P2) as R2 by by apply reads_stop.
  assert (reads true url P2 P3) as R3.
  { apply (reads_url url P2); try done; unfold header_limit in *; cbn -[strlenZ]; [split; cbn -[strlenZ]|..]; lia. }
  assert (reads true " " P3 P4) as R4 by by apply reads_stop.
  assert (reads true (vs +:+ CRLF) P4 (request_lined v P4)) as R5 by by apply reads_version.
  exists (request_lined v P4). split.
  - by repeat (eapply reads_app; [eassumption|]).
  - exists (request_lined v P4). split; [by apply line_start_first|]. done.
Qed.

(** *** The status line *)

(** The parser of a response behind the version of the status line, and where its
    header begins. *)
Definition response_started (v : Z) : parser :=
  set_s s_res_status0 (set_http_minor (v mod 10) (set_http_major 1
    (set_content_length no_content_length (set_cb None (set_flags 0 (init false)))))).
Definition status_object (status : Z) (reason : string) : parser_v1 :=
  set_m_ (set_m_reason reason (set_m_status status message_new)) parser_v1_new.
Definition response_begun (v status : Z) (reason : string) : parser :=
  set_derived (status_object status reason) (set_s s_header_name0
    (set_h_left (header_limit - strlenZ reason) (set_status_code status (response_started v)))).

Lemma reads_response_version v vs :
  http_version v = Ok vs → reads false (vs +:+ " ") (init false) (response_started v).
Proof.
  intros Hv. unfold http_version in Hv.
  destruct (Z.eqb_spec v 10) as [->|]; [|destruct (Z.eqb_spec v 11) as [->|]; [|done]];
    injection Hv as <-; (apply reads_of_bytes; [apply init_ok|vm_compute; reflexivity|done]).
Qed.
Lemma text_not_cr c : is_text c = true → Ascii.eqb c cr = false.
Proof. by destruct c as [[] [] [] [] [] [] [] []]. Qed.
(** A status of three digits. *)
Definition status_digits (z : Z) : bool :=
  match to_dec z with
  | String a (String b (String c EmptyString)) =>
      is_digit_char a && is_digit_char b && is_digit_char c &&
      (((code a - 48) * 10 + code b - 48) * 10 + code c - 48 =? z)
  | _ => false
  end.
Lemma three_digits z : 100 ≤ z ≤ 999 → status_digits z = true.
Proof.
  intros Hz. assert (forallb status_digits (seqZ 100 900) = true) as H by by vm_compute.
  eapply forallb_forall in H; [exact H|]. apply list_elem_of_In, elem_of_seqZ. lia.
Qed.
Ltac digit_byte s Q arm H :=
  apply reads_seq with Q;
  [apply (reads_quiet false s);
     [done
     |let E := fresh in intros E; unfold step;
      change ((getP ≫= ?k) ?x) with (k (c_P x) x); cbn [c_P start]; rewrite E;
      unfold arm; rewrite H; reflexivity
     |done|by apply complete_flags]
  |].
Lemma reads_status z P :
  100 ≤ z ≤ 999 → s_ P = s_res_status0 → cb_ P = None → flags_ P = 0 →
  reads false (to_dec z +:+ " ") P (set_s s_res_reason0 (set_status_code z P)).
Proof.
  intros Hz Es Hcb Hf. pose proof (three_digits z Hz) as H. unfold status_digits in H.
  destruct (to_dec z) as [|a [|b [|c []]]]; try done.
  apply andb_prop in H as [[[Ha Hb]%andb_prop Hc]%andb_prop Ez].
  pose proof (code_bounds a). pose proof (code_bounds b). pose proof (code_bounds c).
  set (P1 := set_s s_res_status1 (set_status_code (code a - 48) P)).
  set (P2 := set_s s_res_status2 (set_status_code (status_code_ P1 * 10 + code b - 48) P1)).
  set (P3 := set_s s_res_space_2 (set_status_code (status_code_ P2 * 10 + code c - 48) P2)).
  digit_byte s_res_status0 P1 at_res_status0 Ha.
  digit_byte s_res_status1 P2 at_res_status Hb.
  digit_byte s_res_status2 P3 at_res_status Hc.
  replace (set_s s_res_reason0 (set_status_code z P)) with (set_s s_res_reason0 P3).
  { quiet_byte s_res_space_2 (set_s s_res_reason0 P3). apply reads_nil. }
  assert (∀ f v w Q, set_status_code v (set_s f (set_status_code w Q)) = set_s f (set_status_code v Q)) as Ew
    by done.
  assert (status_code_ P1 = code a - 48) as E1 by (apply Z.mod_small; unfold is_digit_char in *; lia).
  assert (status_code_ P2 = status_code_ P1 * 10 + code b - 48) as E2
    by (apply Z.mod_small; unfold is_digit_char in *; lia).
  unfold P3. rewrite E2, E1, (proj1 (Z.eqb_eq _ _) Ez). unfold P2, P1. by rewrite !Ew.
Qed.

(** The reason and the end of the line. *)
Lemma reads_reason reason P :
  s_ P = s_res_reason0 → cb_ P = None → flags_ P = 0 → lefts P → h_left_ P < 2 ^ 64 →
  str_forallb is_text reason = true → strlenZ reason ≤ h_left_ P → reason_ (derived P) = EmptyString →
  reads false (reason +:+ CRLF) P (set_s s_res_line_done
    (after (h_left_ P - strlenZ reason) (b_left_ P) (set_reason_ reason (derived P)) P)).
Proof.
  intros Es Hcb Hf Hlf Hl64 Ht Hsz Er.
  destruct (String.eqb_spec reason EmptyString) as [->|Hr].
  - quiet_byte s_res_reason0 (set_s s_res_line_lf P).
    replace (after _ _ _ P) with P.
    + quiet_byte s_res_line_lf (set_s s_res_line_done P). apply reads_nil.
    + cbn [strlenZ]. rewrite Z.sub_0_r, <- Er. destruct P as [? ? ? ? ? ? ? ? ? ? ? ? ? ? []]. done.
  - set (P1 := after (h_left_ P - strlenZ reason) (b_left_ P) (set_reason_ reason (derived P))
      (set_s s_res_reason (set_cb (Some call_on_reason) P))).
    apply reads_app with P1; [|apply reads_seq with (set_s s_res_line_lf (set_cb None P1))].
    + destruct reason as [|e r]; [done|]. set (reason := String e r) in *.
      apply (reads_word false s_res_reason call_on_reason is_text) with 2%nat; try done.
      * intros c P' Es' Hc. rewrite (step_eq false _ _ (start P') _ Es'). unfold at_res_reason.
        by rewrite (text_not_cr c Hc), Hc.
      * apply begins_break. rewrite (step_eq false _ _ (start P) _ Es).
        cbn in Ht. apply andb_true_iff in Ht as [Hc _].
        unfold at_res_reason0. rewrite (text_not_cr e Hc), Hc. cbn [negb].
        by rewrite (bind_ok _ _ _ _ _ (begin_cb_eq false (str1 e) call_on_reason (start P) Hcb)).
      * lia.
      * unfold has_flag. cbn. by rewrite Hf.
      * unfold deliver. cbn [derived set_s set_cb]. rewrite Er, str_app_nil_l.
        by apply (in_header_eq reason _ (set_s s_res_reason (set_cb (Some call_on_reason) P))).
    + apply reads_stop; [by rewrite (step_eq false _ _ (start P1) s_res_reason)| |done].
      unfold has_flag. cbn. by rewrite Hf.
    + replace (set_s s_res_line_done _) with (set_s s_res_line_done (set_cb None P1)).
      * quiet_byte s_res_line_lf (set_s s_res_line_done (set_cb None P1)). apply reads_nil.
      * unfold P1. rewrite <- Hcb. by destruct P.
Qed.
Lemma reads_status_line v vs status reason :
  http_version v = Ok vs → 100 ≤ status ≤ 999 → str_forallb is_text reason = true →
  strlenZ reason ≤ header_limit →
  ∃ P, reads false (vs +:+ " " +:+ to_dec status +:+ " " +:+ reason +:+ CRLF) (init false) P ∧
    at_line false P (response_begun v status reason).
Proof.
  intros Hv Hst Hr Hsz. pose proof (strlenZ_nonneg reason).
  assert (status mod 2 ^ 16 = status) as E16 by (apply Z.mod_small; lia).
  set (P1 := response_started v). set (P2 := set_s s_res_reason0 (set_status_code status P1)).
  assert (reads false (vs +:+ " ") (init false) P1) as R1 by by apply reads_response_version.
  assert (reads false (to_dec status +:+ " ") P1 P2) as R2 by by apply reads_status.
  set (P3 := set_s s_res_line_done
    (after (header_limit - strlenZ reason) (b_left_ P2) (set_reason_ reason (derived P2)) P2)).
  assert (reads false (reason +:+ CRLF) P2 P3) as R3.
  { by apply (reads_reason reason P2). }
  exists P3. split.
  - replace (vs +:+ _) with ((vs +:+ " ") +:+ (to_dec status +:+ " ") +:+ (reason +:+ CRLF))
      by (by rewrite !str_app_assoc).
    by repeat (eapply reads_app; [eassumption|]).
  - exists (response_begun v status reason). split; [|done].
    split; [done|]. split; [done|]. right. intros c _.
    unfold response_begun. rewrite <- E16 at 1.
    unfold step. by change ((getP ≫= ?k) ?x) with (k (c_P x) x).
Qed.

(** ** Requests *)

(** What a request must be for its text to be one: a method and a URL of the
    characters the grammar has for them, a version the writer knows, and fields
    that do not frame the message. *)
Definition sendable (m : request) : Prop :=
  (req_version m = 10 ∨ req_version m = 11) ∧
  req_method m ≠ EmptyString ∧ str_forallb is_tchar (req_method m) = true ∧
  req_url m ≠ EmptyString ∧ str_forallb url_char (req_url m) = true ∧
  Forall plain_field (req_fields m).
(** What the parser counts against the limit of the header. *)
Definition request_header_size (m : request) : Z :=
  strlenZ (req_method m) + strlenZ (req_url m) + fields_size (req_fields m).

Lemma general_name n name :
  name_kind n = h_general →
  name ∈ ["Connection"; "Content-Length"; "Transfer-Encoding"] → ci_equal name n = false.
Proof.
  intros Hk Hin. rewrite ci_equal_sym. unfold name_kind in Hk.
  repeat (apply elem_of_cons in Hin as [->|Hin]); [| | |by apply not_elem_of_nil in Hin];
    repeat case_match; repeat match goal with H : _ || _ = false |- _ => apply orb_false_iff in H as [] end;
    done.
Qed.
Lemma fields_find_plain fs name :
  Forall plain_field fs → name ∈ ["Connection"; "Content-Length"; "Transfer-Encoding"] →
  fields_find name fs = None.
Proof.
  intros Hfs Hin. induction Hfs as [|[n v] fs (_ & _ & Hk & _) _ IH]; [done|]. cbn in Hk |- *.
  by rewrite (general_name n name Hk Hin).
Qed.
Lemma plain_fields_of fs : Forall plain_field fs → plain_fields fs.
Proof.
  intros H. unfold plain_fields, fields_exists.
  rewrite !(fields_find_plain fs) by (done || by repeat constructor). done.
Qed.
(** The fields [prepare] leaves. *)
Definition prepared_fields (m : request) : fields :=
  if (strlenZ (req_body m) >? 0) || ci_equal (req_method m) "POST"
  then req_fields m ++ [length_field (req_body m)] else req_fields m.
Lemma prepared_no_framing m :
  Forall plain_field (req_fields m) →
  ∀ name, name ∈ ["Connection"; "Transfer-Encoding"] → fields_exists name (prepared_fields m) = false.
Proof.
  intros Hf name Hin. unfold prepared_fields, fields_exists.
  assert (fields_find name (req_fields m) = None) as E by (apply fields_find_plain; [done|set_solver]).
  destruct (_ || _); rewrite ?fields_find_app, E; [|done].
  by repeat (apply elem_of_cons in Hin as [->|Hin]); [..|apply not_elem_of_nil in Hin].
Qed.
Lemma length_u64 body : strlenZ body ≤ body_limit true → content_length body = strlenZ body.
Proof.
  intros H. unfold content_length, u64. apply Z.mod_small. pose proof (strlenZ_nonneg body).
  unfold body_limit in H. lia.
Qed.
Lemma prepare_sendable m :
  Forall plain_field (req_fields m) → strlenZ (req_body m) ≤ body_limit true →
  prepare_request m = Ok (req_with_fields (prepared_fields m) m).
Proof.
  intros Hf Hb. destruct (plain_fields_of _ Hf) as (Hc & Hl & Ht).
  unfold prepare_request, prepare_guard, prepared_fields.
  rewrite Hc, Hl, (fields_get_absent _ _ Ht), token_exists_nil, (length_u64 _ Hb).
  cbn [mbind outcome_bind]. unfold fields_insert. rewrite trim_digits by (apply to_dec_pos, strlenZ_nonneg).
  fold (length_field (req_body m)). set (fs := if _ : bool then _ else _).
  unfold prepare_upgrade. rewrite (fields_get_absent "Connection" fs), token_exists_nil, andb_false_r; [done|].
  apply (prepared_no_framing m Hf "Connection"). by repeat constructor.
Qed.
Lemma write_sendable m v :
  Forall plain_field (req_fields m) → http_version (req_version m) = Ok v →
  ∃ close, write_request (req_with_fields (prepared_fields m) m) =
    Ok ([(req_method m +:+ " " +:+ req_url m +:+ " " +:+ v +:+ CRLF) +:+
         write_fields (prepared_fields m) +:+ CRLF +:+ req_body m], close).
Proof.
  intros Hf Hv. unfold write_request, write_message, request_line.
  cbn [req_version req_fields req_body req_method req_url req_with_fields]. rewrite Hv.
  rewrite (fields_get_absent "Transfer-Encoding"), token_exists_nil.
  - cbn [mbind outcome_bind]. eexists. by rewrite !str_app_assoc.
  - apply prepared_no_framing; [done|by repeat constructor].
Qed.

Lemma fields_size_length fs body :
  fields_size (fs ++ [length_field body]) = fields_size fs + 14 + strlenZ (to_dec (strlenZ body)).
Proof.
  rewrite fields_size_app. unfold length_field. cbn -[to_dec strlenZ].
  change (strlenZ "Content-Length") with 14. lia.
Qed.
(** The text of a request is read as the request. *)
Lemma request_ends m v :
  sendable m → http_version (req_version m) = Ok v →
  request_header_size (req_with_fields (prepared_fields m) m) ≤ header_limit →
  strlenZ (req_body m) ≤ body_limit true →
  ∃ msg, to_request msg = req_with_fields (prepared_fields m) m ∧
  ends_with true ((req_method m +:+ " " +:+ req_url m +:+ " " +:+ v +:+ CRLF) +:+
    write_fields (prepared_fields m) +:+ CRLF +:+ req_body m) (init true) msg.
Proof.
  intros (Hver & Hm & Hmt & Hu & Hut & Hf) Hv Hh Hb.
  unfold request_header_size in Hh. cbn [req_method req_url req_fields req_with_fields] in Hh.
  pose proof (strlenZ_nonneg (req_method m)). pose proof (strlenZ_nonneg (req_url m)).
  pose proof (fields_size_nonneg (prepared_fields m)).
  destruct (reads_request_line (req_method m) (req_url m) _ v Hv) as (P & Hr & HP); [done..|lia|].
  set (B := request_begun (req_method m) (req_url m) (req_version m mod 10)) in *.
  assert (∀ gs, to_request (message_with B (line_object (req_method m) (req_url m)) (req_body m) gs) =
    req_with_fields gs m) as Em.
  { intros gs. unfold message_with, to_request, req_with_fields, version_of. cbn.
    f_equal. by destruct Hver as [-> | ->]. }
  exists (message_with B (line_object (req_method m) (req_url m)) (req_body m) (prepared_fields m)).
  split; [apply Em|]. apply ends_app with P; [done|].
  assert (h_left_ B = header_limit - strlenZ (req_method m) - strlenZ (req_url m)) as El by done.
  unfold header_limit, body_limit in *. unfold prepared_fields in *. case_match eqn:Eg.
  - rewrite fields_size_length in *. apply rest_length; try done; rewrite ?El; try lia.
    + pose proof (eq_refl : 4 * 1024 * 1024 <=? length_limit = true). lia.
    + apply fits_le. unfold B. cbn. lia.
  - apply orb_false_iff in Eg as [Eg _]. pose proof (strlenZ_nonneg (req_body m)).
    assert (req_body m = EmptyString) as Eb.
    { destruct (req_body m) as [|c s]; [done|]. cbn in Eg. pose proof (strlenZ_nonneg s). lia. }
    rewrite Eb, str_app_nil_r. rewrite Eb in Em. apply rest_no_length; try done; rewrite El; lia.
Qed.

(** ** Responses *)

(** The same for a response, of a status that has a body. *)
Definition sendable_response (m : response) : Prop :=
  (res_version m = 10 ∨ res_version m = 11) ∧
  100 ≤ res_status m ≤ 999 ∧ HttpMessage.has_body (res_status m) ∧ str_forallb is_text (res_reason m) = true ∧
  Forall plain_field (res_fields m).
Definition response_header_size (m : response) : Z :=
  strlenZ (res_reason m) + fields_size (res_fields m).
Definition prepared_response (m : response) : response :=
  res_with_fields (res_fields m ++ [length_field (res_body m)]) m.

Lemma length_field_insert body fs :
  strlenZ body ≤ length_limit →
  fields_insert "Content-Length" (to_dec (content_length body)) fs = fs ++ [length_field body].
Proof.
  intros H. pose proof (strlenZ_nonneg body). pose proof (eq_refl : length_limit <? 2 ^ 64 = true).
  assert (content_length body = strlenZ body) as -> by (apply Z.mod_small; lia).
  unfold fields_insert. by rewrite trim_digits by by apply to_dec_pos.
Qed.
Lemma prepare_sendable_response m :
  sendable_response m → strlenZ (res_body m) ≤ length_limit →
  prepare_response m = Ok (prepared_response m).
Proof.
  intros (_ & _ & Hb & _ & Hf) Hl.
  by rewrite (prepare_response_plain m (plain_fields_of _ Hf) Hb), length_field_insert.
Qed.
Lemma write_sendable_response m v :
  Forall plain_field (res_fields m) → strlenZ (res_body m) ≤ length_limit →
  http_version (res_version m) = Ok v →
  write_response (prepared_response m) =
    Ok ([(v +:+ " " +:+ to_dec (res_status m) +:+ " " +:+ res_reason m +:+ CRLF) +:+
         write_fields (res_fields m ++ [length_field (res_body m)]) +:+ CRLF +:+ res_body m], false).
Proof.
  intros Hf Hl Hv. unfold prepared_response. rewrite <- (length_field_insert _ _ Hl).
  rewrite (write_response_plain m v _ (plain_fields_of _ Hf) Hv). by rewrite !str_app_assoc.
Qed.
(** The text of a response is read as the response. *)
Lemma response_ends m v :
  sendable_response m → http_version (res_version m) = Ok v →
  response_header_size (prepared_response m) ≤ header_limit → strlenZ (res_body m) ≤ length_limit →
  ∃ msg, to_response msg = prepared_response m ∧
  ends_with false ((v +:+ " " +:+ to_dec (res_status m) +:+ " " +:+ res_reason m +:+ CRLF) +:+
    write_fields (res_fields m ++ [length_field (res_body m)]) +:+ CRLF +:+ res_body m) (init false) msg.
Proof.
  intros (Hver & Hst & _ & Hr & Hf) Hv Hh Hb.
  unfold response_header_size, prepared_response in Hh. cbn [res_reason res_fields res_with_fields] in Hh.
  rewrite fields_size_length in Hh.
  pose proof (strlenZ_nonneg (res_reason m)). pose proof (fields_size_nonneg (res_fields m)).
  pose proof (strlenZ_nonneg (to_dec (strlenZ (res_body m)))).
  destruct (reads_status_line _ v (res_status m) (res_reason m) Hv) as (P & Hp & HP); [done..|lia|].
  set (B := response_begun (res_version m) (res_status m) (res_reason m)) in *.
  exists (message_with B (status_object (res_status m) (res_reason m)) (res_body m)
    (res_fields m ++ [length_field (res_body m)])). split.
  - unfold message_with, to_response, prepared_response, res_with_fields, version_of. cbn.
    f_equal. by destruct Hver as [-> | ->].
  - apply ends_app with P; [done|].
    assert (h_left_ B = header_limit - strlenZ (res_reason m)) as El by done. unfold header_limit in *.
    apply rest_length; try done; rewrite ?El; lia.
Qed.

(** ** The round trip *)

(** However the bytes of the text [wire], and what follows it, come as the buffer and
    the reads of the socket, the message read is [m] and what follows is left. *)
Definition delivered (isRequest : bool) (wire : string) (m : message) : Prop :=
  ∀ buffer segs more,
    Forall (λ b, b ≠ EmptyString) segs → buffer +:+ str_concat segs = wire +:+ more →
    ∃ rest unread,
      async_read isRequest buffer (map Got segs) = Ok (Some (inl m), rest) ∧ rest +:+ unread = more.

Lemma ends_delivered isRequest wire m :
  ends_with isRequest wire (init isRequest) m → delivered isRequest wire m.
Proof.
  intros (Q & Hw & Hc & Hm) buffer segs more Hne E. specialize (Hw more). rewrite <- E in Hw.
  destruct (async_read_of_bytes isRequest buffer segs _ Q Hne Hw) as (rest & unread & Hr & Hu).
  rewrite Hc, Hm in Hr. exists rest, unread. split; [done|].
  rewrite Hu, E, <- (Nat.add_0_r (String.length wire)). apply str_drop_app_ge.
Qed.
Lemma http_version_known v : v = 10 ∨ v = 11 → ∃ s, http_version v = Ok s.
Proof. by intros [-> | ->]; eexists. Qed.

Lemma request_delivered m :
  sendable m →
  request_header_size (req_with_fields (prepared_fields m) m) ≤ header_limit →
  strlenZ (req_body m) ≤ body_limit true →
  prepare_request m = Ok (req_with_fields (prepared_fields m) m) ∧
  ∃ wire close msg,
    write_request (req_with_fields (prepared_fields m) m) = Ok ([wire], close) ∧
    to_request msg = req_with_fields (prepared_fields m) m ∧ delivered true wire msg.
Proof.
  intros Hs Hh Hb. pose proof Hs as (Hver & _ & _ & _ & _ & Hf).
  destruct (http_version_known _ Hver) as [v Hv].
  destruct (write_sendable m v Hf Hv) as [close Hw].
  destruct (request_ends m v Hs Hv Hh Hb) as (msg & Em & He).
  split; [by apply prepare_sendable|]. do 3 eexists. split_and!; [done|done|by apply ends_delivered].
Qed.
Lemma response_delivered m :
  sendable_response m →
  response_header_size (prepared_response m) ≤ header_limit → strlenZ (res_body m) ≤ length_limit →
  prepare_response m = Ok (prepared_response m) ∧
  ∃ wire msg,
    write_response (prepared_response m) = Ok ([wire], false) ∧
    to_response msg = prepared_response m ∧ delivered false wire msg.
Proof.
  intros Hs Hh Hb. pose proof Hs as (Hver & _ & _ & _ & Hf).
  destruct (http_version_known _ Hver) as [v Hv].
  destruct (response_ends m v Hs Hv Hh Hb) as (msg & Em & He).
  split; [by apply prepare_sendable_response|]. do 2 eexists.
  split_and!; [by apply write_sendable_response|done|by apply ends_delivered].
Qed.

(** C23: a request that is prepared and written is read back as it was prepared,
    with what follows it left in the buffer, however its bytes reach the socket:
    the method, the URL, the version, the fields with the length of the body and
    the body are those of the request, for a header of at most 16KB and a body of
    at most 4MB. *)
Theorem request_read_back (m m' : request) :
  sendable m → prepare_request m = Ok m' →
  request_header_size m' ≤ header_limit → strlenZ (req_body m) ≤ body_limit true →
  ∃ wire close msg,
    write_request m' = Ok ([wire], close) ∧ to_request msg = m' ∧ delivered true wire msg.
Proof.
  intros Hs Hp Hh Hb. pose proof (prepare_sendable m ltac:(by apply Hs) Hb) as E.
  rewrite Hp in E. injection E as ->. by apply request_delivered.
Qed.
Lemma request_read_back_witness :
  let fs := [("Host", "localhost:8080"); ("Accept", "*/*")] in
  let m := {| req_version := 11; req_method := "POST"; req_url := "/status";
              req_fields := fs; req_body := "{}" |} in
  let m' := req_with_fields (fs ++ [("Content-Length", "2")]) m in
  prepare_request m = Ok m' ∧
  ∃ wire close msg,
    write_request m' = Ok ([wire], close) ∧ to_request msg = m' ∧ delivered true wire msg.
Proof.
  intros fs m m'. assert (prepare_request m = Ok m') as E by (vm_compute; reflexivity).
  split; [exact E|]. apply (request_read_back m).
  - split_and!; try done; [by right|]. repeat constructor; discriminate.
  - exact E.
  - vm_compute. discriminate.
  - vm_compute. discriminate.
Defined.
