(* ===== verification/Endpoints.v ===== *)
(** * Sessions and endpoints: src/SemanticHTTPServer.cpp

    The state of the server's process and the code its threads run: a session's
    handlers and the five endpoints.  What a thread starts and does not wait for
    (an asynchronous operation, a block put on a dispatch queue, a timer) is
    recorded in the state; Server.v says when each is run. *)

From S2P Require Import Prelude Ptree JsonRead.
From S2P Require Import Logging Futures SourceKitD Offset SourceKit Completer HttpMessage.

Local Open Scope Z_scope.

(** ** State *)

(** src/SemanticHTTPServer.hpp *)
Record ServiceContext := { secret : string; logLevel : LogLevel }.

Inductive endpoint := Status | Shutdown | Completions | Diagnostics | SlowTest.
#[export] Instance endpoint_eq_dec : EqDecision endpoint.
Proof. solve_decision. Defined.

Record session := {
  s_context : ServiceContext;
  s_request : request;
  s_endpoints : gmap string endpoint;
  s_endpoint : option endpoint;
  s_logger : Logger;
}.

(** An asynchronous operation on a session's socket.  A write refers to the
    message it was given; [close] when it will end with the error [eof], [sent]
    once its bytes are on the wire. *)
Inductive op := OpRead | OpWrite (message : nat) (close sent : bool).

(** A block given to [dispatch_async] or [dispatch_after], by what it runs. *)
Inductive block :=
| BEndpoint (e : endpoint) (sid : nat)
| BExit (sid : nat)
| BSlow (sid : nat).

(** How the process ended: [exit(0)], or an exception nobody caught, a failed
    assertion or undefined behaviour. *)
Inductive ending := Exited | Crashed (f : failure).

Record App := {
  world : World;
  sessions : gmap nat session;
  next_session : nat;
  ops : list (nat * op);
  messages : gmap nat response;      (** the responses alive *)
  next_message : nat;
  blocks : list block;               (** on a queue *)
  timers : list (Z * block);         (** due after so many seconds *)
  acceptor_open : bool;
  accepting : bool;                  (** an [async_accept] is outstanding *)
  wire : list (nat * string);        (** sent to each session's peer *)
  ended : option ending;
}.

Definition set_world (w : World) (a : App) : App :=
  {| world := w; sessions := sessions a; next_session := next_session a; ops := ops a;
     messages := messages a; next_message := next_message a; blocks := blocks a;
     timers := timers a; acceptor_open := acceptor_open a; accepting := accepting a;
     wire := wire a; ended := ended a |}.
Definition set_sessions (ss : gmap nat session) (a : App) : App :=
  {| world := world a; sessions := ss; next_session := next_session a; ops := ops a;
     messages := messages a; next_message := next_message a; blocks := blocks a;
     timers := timers a; acceptor_open := acceptor_open a; accepting := accepting a;
     wire := wire a; ended := ended a |}.
Definition set_ops (os : list (nat * op)) (a : App) : App :=
  {| world := world a; sessions := sessions a; next_session := next_session a; ops := os;
     messages := messages a; next_message := next_message a; blocks := blocks a;
     timers := timers a; acceptor_open := acceptor_open a; accepting := accepting a;
     wire := wire a; ended := ended a |}.
Definition set_messages (ms : gmap nat response) (n : nat) (a : App) : App :=
  {| world := world a; sessions := sessions a; next_session := next_session a; ops := ops a;
     messages := ms; next_message := n; blocks := blocks a;
     timers := timers a; acceptor_open := acceptor_open a; accepting := accepting a;
     wire := wire a; ended := ended a |}.
Definition set_blocks (bs : list block) (a : App) : App :=
  {| world := world a; sessions := sessions a; next_session := next_session a; ops := ops a;
     messages := messages a; next_message := next_message a; blocks := bs;
     timers := timers a; acceptor_open := acceptor_open a; accepting := accepting a;
     wire := wire a; ended := ended a |}.
Definition set_timers (ts : list (Z * block)) (a : App) : App :=
  {| world := world a; sessions := sessions a; next_session := next_session a; ops := ops a;
     messages := messages a; next_message := next_message a; blocks := blocks a;
     timers := ts; acceptor_open := acceptor_open a; accepting := accepting a;
     wire := wire a; ended := ended a |}.
Definition set_accepting (b : bool) (a : App) : App :=
  {| world := world a; sessions := sessions a; next_session := next_session a; ops := ops a;
     messages := messages a; next_message := next_message a; blocks := blocks a;
     timers := timers a; acceptor_open := acceptor_open a; accepting := b;
     wire := wire a; ended := ended a |}.
Definition add_session (s : session) (a : App) : App :=
  {| world := world a; sessions := <[next_session a := s]> (sessions a);
     next_session := S (next_session a); ops := ops a;
     messages := messages a; next_message := next_message a; blocks := blocks a;
     timers := timers a; acceptor_open := acceptor_open a; accepting := accepting a;
     wire := wire a; ended := ended a |}.
Definition set_ended (e : ending) (a : App) : App :=
  {| world := world a; sessions := sessions a; next_session := next_session a; ops := ops a;
     messages := messages a; next_message := next_message a; blocks := blocks a;
     timers := timers a; acceptor_open := acceptor_open a; accepting := accepting a;
     wire := wire a; ended := Some e |}.
Definition add_wire (sid : nat) (s : string) (a : App) : App :=
  {| world := world a; sessions := sessions a; next_session := next_session a; ops := ops a;
     messages := messages a; next_message := next_message a; blocks := blocks a;
     timers := timers a; acceptor_open := acceptor_open a; accepting := accepting a;
     wire := wire a ++ [(sid, s)]; ended := ended a |}.

#[export] Program Instance world_lens : Lens App World :=
  {| view := world; update := set_world |}.
Solve Obligations with by intros; repeat match goal with a : App |- _ => destruct a end.

Definition set_request (r : request) (s : session) : session :=
  {| s_context := s_context s; s_request := r; s_endpoints := s_endpoints s;
     s_endpoint := s_endpoint s; s_logger := s_logger s |}.
Definition set_endpoint (e : endpoint) (s : session) : session :=
  {| s_context := s_context s; s_request := s_request s; s_endpoints := s_endpoints s;
     s_endpoint := Some e; s_logger := s_logger s |}.

(** ** Pieces of the code *)

Definition HeaderValueContentTypeJSON : string := "application/json".
Definition HeaderKeyContentType : string := "Content-Type".
Definition HeaderKeyServer : string := "Server".
Definition HeaderValueServer : string := "SSVIM".

(** The response the endpoints build, before [prepare]. *)
Definition build_response (status : Z) (reason : string) (version : Z) (body : string)
    : response :=
  {| res_version := version; res_status := status; res_reason := reason;
     res_fields := fields_insert HeaderKeyContentType HeaderValueContentTypeJSON
       (fields_insert HeaderKeyServer HeaderValueServer []);
     res_body := body |}.

Definition errorResponse (request : request) (message : string) : outcome response :=
  prepare_response (build_response 500 "Internal Error" (req_version request)
    ("An internal error occurred" +:+ message)).
Definition notFoundResponse (request : request) : outcome response :=
  prepare_response (build_response 404 "Not Found" (req_version request)
    ("Endpoint: '" +:+ req_url request +:+ "' not found")).

Definition readJSONPostBody (body : string) : outcome ptree := read_json body.

Fixpoint values_of (cs : list (string * ptree)) : outcome (list string) :=
  match cs with
  | [] => Ok []
  | (_, item) :: cs =>
      v ← get_value string item;
      vs ← values_of cs;
      Ok (v :: vs)
  end.
(** [as_vector<std::string>] *)
Definition as_vector (pt : ptree) (key : string) : outcome (list string) :=
  n ← get_child key pt;
  values_of (ptree_children n).

Record completion_query := {
  q_file_name : string; q_column : Z; q_line : Z; q_contents : string; q_flags : list string;
}.
(** The fields the completions endpoint reads, in its order. *)
Definition read_completion_query (body : string) : outcome completion_query :=
  bodyJSON ← readJSONPostBody body;
  fileName ← get string "file_name" bodyJSON;
  column ← get Z "column" bodyJSON;
  line ← get Z "line" bodyJSON;
  contents ← get string "contents" bodyJSON;
  flags ← as_vector bodyJSON "flags";
  Ok {| q_file_name := fileName; q_column := column; q_line := line;
        q_contents := contents; q_flags := flags |}.

Record diagnostics_query := {
  d_file_name : string; d_contents : string; d_flags : list string;
}.
Definition read_diagnostics_query (body : string) : outcome diagnostics_query :=
  bodyJSON ← readJSONPostBody body;
  fileName ← get string "file_name" bodyJSON;
  contents ← get string "contents" bodyJSON;
  flags ← as_vector bodyJSON "flags";
  Ok {| d_file_name := fileName; d_contents := contents; d_flags := flags |}.

(** ** Threads *)

Section Endpoints.
Context `{SourceKitD}.

(** A session that is gone would be undefined behaviour; the [shared_ptr]s the
    handlers hold keep it. *)
Definition with_session {A} (sid : nat) (k : session → thread App A) : thread App A :=
  s ← gets (λ a, sessions a !! sid);
  match s with
  | Some s => k s
  | None => TFail (UndefinedBehavior "session destroyed")
  end.

Definition tells (lg : Logger) (msg : string) : thread App unit :=
  zoom (say lg LogLevelInfo msg).

Definition update_session (sid : nat) (f : session → session) : thread App unit :=
  modify (λ a, set_sessions (alter f sid (sessions a)) a).

(** *** Session *)

Definition start_op (sid : nat) (o : op) : thread App unit :=
  modify (λ a, set_ops (ops a ++ [(sid, o)]) a).

Definition doRead (sid : nat) : thread App unit := start_op sid OpRead.

(** [write(response<string_body> res)]: [async_write] serialises the header at
    once and refers to the parameter [res] for the body; the parameter is
    destroyed when the function returns. *)
Definition session_write (sid : nat) (res : response) : thread App unit :=
  m ← atomic (λ a, (next_message a,
        set_messages (<[next_message a := res]> (messages a)) (S (next_message a)) a));
  '(_, close) ← of_outcome (write_response res);
  _ ← start_op sid (OpWrite m close false);
  modify (λ a, set_messages (delete m (messages a)) (next_message a) a).

(** [prepare(res); session->write(res)] *)
Definition respond (sid : nat) (res : response) : thread App unit :=
  res ← of_outcome (prepare_response res);
  session_write sid res.

Definition fail (lg : Logger) (ec what : string) : thread App unit :=
  tells lg (what +:+ " and: " +:+ ec).

Definition session_error (sid : nat) (message : string) : thread App unit :=
  with_session sid (λ s,
    res ← of_outcome (errorResponse (s_request s) message);
    session_write sid res).

(** [dispatch_async] to the global queue. *)
Definition handleRequest (e : endpoint) (sid : nat) : thread App unit :=
  with_session sid (λ s,
    let logger := s_logger s in
    _ ← tells logger "HANDLE_REQUEST";
    _ ← tells logger (req_url (s_request s));
    modify (λ a, set_blocks (blocks a ++ [BEndpoint e sid]) a)).

(** [ec] is the operation's error, [None] for success. *)
Definition onRead (sid : nat) (ec : option string) : thread App unit :=
  with_session sid (λ s,
    let logger := s_logger s in
    _ ← tells logger "ONREAD";
    match ec with
    | Some ec => fail logger ec "read"
    | None =>
        let path := req_url (s_request s) in
        _ ← tells logger "WILL_READ: ";
        _ ← tells logger path;
        match s_endpoints s !! path with
        | Some e =>
            _ ← tells logger "GOTEP:";
            _ ← update_session sid (set_endpoint e);
            handleRequest e sid
        | None =>
            res ← of_outcome (notFoundResponse (s_request s));
            session_write sid res
        end
    end).

Definition onWrite (sid : nat) (ec : option string) : thread App unit :=
  with_session sid (λ s,
    _ ← match ec with Some ec => fail (s_logger s) ec "write" | None => mret tt end;
    doRead sid).

Definition endpoint_table : gmap string endpoint :=
  list_to_map [("/status", Status); ("/shutdown", Shutdown);
    ("/completions", Completions); ("/diagnostics", Diagnostics);
    ("/slow_test", SlowTest)].

(** A default-constructed request: its version is indeterminate until a read
    succeeds; here 0. *)
Definition no_request : request :=
  {| req_version := 0; req_method := EmptyString; req_url := EmptyString;
     req_fields := []; req_body := EmptyString |}.

(** The constructor and [std::make_shared]. *)
Definition Session_new (ctx : ServiceContext) : thread App nat :=
  let logger := make_Logger (logLevel ctx) "HTTP" in
  _ ← zoom (zoom (log logger LogLevelInfo ["Secret:"; secret ctx]));
  atomic (λ a, (next_session a, add_session
    {| s_context := ctx; s_request := no_request; s_endpoints := endpoint_table;
       s_endpoint := None; s_logger := logger |} a)).

Definition session_start (sid : nat) : thread App unit := doRead sid.

(** *** The acceptor *)

(** Written without a newline. *)
Definition write_cerr (s : string) : thread App unit := zoom (zoom (write_line Cerr s)).

Definition onAccept (ctx : ServiceContext) (ec : option string) : thread App unit :=
  is_open ← gets acceptor_open;
  if negb is_open then mret tt else
  match ec with
  | Some ec => write_cerr (ec +:+ "accept")
  | None =>
      _ ← modify (set_accepting true);
      sid ← Session_new ctx;
      session_start sid
  end.

(** *** The endpoints *)

Definition status_endpoint (sid : nat) : thread App unit :=
  with_session sid (λ s,
    respond sid (build_response 200 EmptyString (req_version (s_request s)) EmptyString)).

Definition dispatch_after (seconds : Z) (b : block) : thread App unit :=
  modify (λ a, set_timers (timers a ++ [(seconds, b)]) a).

Definition shutdown_endpoint (sid : nat) : thread App unit :=
  with_session sid (λ s,
    _ ← tells (s_logger s) "Recieved Shutdown Request";
    res ← of_outcome (prepare_response
      (build_response 200 EmptyString (req_version (s_request s)) EmptyString));
    _ ← dispatch_after 2 (BExit sid);
    session_write sid res).

Fixpoint log_each (lg : Logger) (prefix : string) (flags : list string)
    : thread App unit :=
  match flags with
  | [] => mret tt
  | f :: flags =>
      _ ← tells lg prefix;
      _ ← tells lg f;
      log_each lg prefix flags
  end.

Definition completions_endpoint (sid : nat) : thread App unit :=
  with_session sid (λ s,
    let logger := s_logger s in
    let bodyString := req_body (s_request s) in
    _ ← tells logger bodyString;
    q ← of_outcome (read_completion_query bodyString);
    _ ← tells logger "file_name:"; _ ← tells logger (q_file_name q);
    _ ← tells logger "column:"; _ ← tells logger (to_dec (q_column q));
    _ ← tells logger "line:"; _ ← tells logger (to_dec (q_line q));
    _ ← log_each logger "flags:" (q_flags q);
    let completer := SwiftCompleter_new (_level logger) in
    let files := [{| contents := q_contents q; fileName := q_file_name q |}] in
    _ ← tells logger "SEND_REQ";
    candidates ← zoom (CandidatesForLocationInFile completer (q_file_name q) (q_line q)
      (q_column q) files (q_flags q));
    _ ← tells logger "GOT_CANDIDATES";
    _ ← zoom (say logger LogLevelExtreme candidates);
    respond sid (build_response 200 EmptyString (req_version (s_request s)) candidates)).

Definition diagnostics_endpoint (sid : nat) : thread App unit :=
  with_session sid (λ s,
    let logger := s_logger s in
    let bodyString := req_body (s_request s) in
    _ ← tells logger bodyString;
    q ← of_outcome (read_diagnostics_query bodyString);
    _ ← tells logger "file_name:"; _ ← tells logger (d_file_name q);
    _ ← log_each logger "flags:" (d_flags q);
    let completer := SwiftCompleter_new (_level logger) in
    let files := [{| contents := d_contents q; fileName := d_file_name q |}] in
    _ ← tells logger "SEND_REQ";
    diagnostics ← zoom (DiagnosticsForFile completer (d_file_name q) files (d_flags q));
    _ ← tells logger "GOT_DIAGNOSTICS";
    _ ← zoom (say logger LogLevelExtreme diagnostics);
    respond sid (build_response 200 EmptyString (req_version (s_request s)) diagnostics)).

Definition slow_test_endpoint (sid : nat) : thread App unit :=
  dispatch_after 10 (BSlow sid).

(** *** The blocks *)

Definition start_endpoint (e : endpoint) (sid : nat) : thread App unit :=
  match e with
  | Status => status_endpoint sid
  | Shutdown => shutdown_endpoint sid
  | Completions => completions_endpoint sid
  | Diagnostics => diagnostics_endpoint sid
  | SlowTest => slow_test_endpoint sid
  end.

Definition run_block (b : block) : thread App unit :=
  match b with
  | BEndpoint e sid =>
      with_session sid (λ s,
        _ ← tells (s_logger s) "_START_BACKGROUND";
        start_endpoint e sid)
  | BExit sid =>
      with_session sid (λ s,
        _ ← tells (s_logger s) "Shutting down...";
        modify (set_ended Exited))
  | BSlow sid =>
      with_session sid (λ s,
        _ ← tells (s_logger s) "Enter main: ";
        _ ← tells (s_logger s) (req_url (s_request s));
        respond sid (build_response 200 EmptyString (req_version (s_request s))
          "Hello World"))
  end.
End Endpoints.
