(* ===== verification/Replies.v ===== *)
(** * What the handlers do: proofs about Endpoints.v

    The course of a handler's thread, alone, from the state it starts in: which
    response it starts to write, or how it fails.  Log output aside, nothing else
    changes but what the theorems name. *)

From S2P Require Import Prelude Ptree JsonRead.
From S2P Require Import Logging Futures SourceKitD Offset SourceKit Requests Completer HttpMessage Endpoints.

Local Open Scope Z_scope.

(** ** The course of a thread while the process lives *)

Inductive thread_step {A} : thread App A * App → thread App A * App → Prop :=
| ThreadStep t t' a a' :
    ended a = None → tstep t a = Some (t', a') → thread_step (t, a) (t', a').

(** The thread gets to a point where [Q] holds of what is left of it and of the
    state. *)
Definition goes (t : thread App unit) (a : App) (Q : thread App unit → App → Prop) : Prop :=
  ∃ t' a', star thread_step (t, a) (t', a') ∧ Q t' a'.

Definition logged (ls : console) (a : App) : App :=
  set_world (set_console (console_of (world a) ++ ls) (world a)) a.

(** The write of [res] has been started for [sid]; the response is still alive. *)
Definition writing (sid : nat) (res : response) (close : bool) (a : App) : App :=
  set_ops (ops a ++ [(sid, OpWrite (next_message a) close false)])
    (set_messages (<[next_message a := res]> (messages a)) (S (next_message a)) a).
(** What [session_write] has left to do then: its parameter is destroyed. *)
Definition destroy_message (m : nat) : thread App unit :=
  modify (λ a, set_messages (delete m (messages a)) (next_message a) a).

(** The reply's bytes. *)
Definition reply (version : string) (status : Z) (reason body : string) : string :=
  version +:+ " " +:+ to_dec status +:+ " " +:+ reason +:+ CRLF +:+
  "Server: SSVIM" +:+ CRLF +:+ "Content-Type: application/json" +:+ CRLF +:+
  "Content-Length: " +:+ to_dec (content_length body) +:+ CRLF +:+ CRLF +:+ body.

(** From the state [a] on, the thread comes to write [bytes] to the session's
    peer, the connection being kept open, and then only destroys the message. *)
Definition answering (sid : nat) (bytes : string) (a : App)
    (t' : thread App unit) (a' : App) : Prop :=
  ∃ ls res, write_response res = Ok ([bytes], false) ∧
    a' = writing sid res false (logged ls a) ∧ t' = destroy_message (next_message a).

(** ** Lemmas *)

Lemma goes_here t a (Q : thread App unit → App → Prop) : Q t a → goes t a Q.
Proof. intros HQ. exists t, a. split; [apply star_refl|done]. Qed.
Lemma goes_star t a t' a' Q : star thread_step (t, a) (t', a') → goes t' a' Q → goes t a Q.
Proof.
  intros Hs (t2 & a2 & H2 & HQ). exists t2, a2. split; [by eapply star_trans|done].
Qed.
Lemma goes_mono t a (Q R : thread App unit → App → Prop) :
  goes t a Q → (∀ t' a', Q t' a' → R t' a') → goes t a R.
Proof. intros (t' & a' & Hs & HQ) HR. exists t', a'. auto. Qed.

Lemma goes_atomic {A} (f : App → A * App) k a Q :
  ended a = None → goes (k (f a).1) (f a).2 Q → goes (atomic f ≫= k) a Q.
Proof.
  intros He. apply goes_star, star_one. constructor; [done|]. cbn. by destruct (f a).
Qed.
Lemma goes_modify g k a Q :
  ended a = None → goes (k tt) (g a) Q → goes (modify g ≫= k) a Q.
Proof. intros He. exact (goes_atomic (λ a, (tt, g a)) k a Q He). Qed.
Lemma goes_last g a (Q : thread App unit → App → Prop) :
  ended a = None → Q (TRet tt) (g a) → goes (modify g) a Q.
Proof.
  intros He HQ. apply (goes_star _ _ (TRet tt) (g a)); [|by apply goes_here].
  by apply star_one, ThreadStep.
Qed.

Lemma steps_bind {A} (t t' : thread App A) (k : A → thread App unit) a a' :
  star thread_step (t, a) (t', a') → star thread_step (t ≫= k, a) (t' ≫= k, a').
Proof.
  intros Hs. remember (t, a) as x eqn:Ex. remember (t', a') as y eqn:Ey.
  revert t a Ex. induction Hs as [x|x z y Hx Hs IH]; intros t a ->; [simplify_eq; apply star_refl|].
  destruct z as [t1 a1]. eapply star_step; [|by apply IH].
  inversion Hx as [? ? ? ? He Ht]; subst. constructor; [done|].
  destruct t as [u|f|m|r k']; cbn in Ht |- *; [done|done| |].
  - destruct (m a). by simplify_eq.
  - destruct (r a) as [[v|f]|]; [..|done]; cbn in *; by simplify_eq.
Qed.

(** A component's thread that ends: what is left of it. *)
Definition left_of {A} (r : result A) : option (thread App A) :=
  match r with
  | Finished x => Some (TRet x) | Failed f => Some (TFail f) | Blocked => None
  end.

Lemma zoom_steps {A} (t : thread World A) a r t' w' :
  ended a = None → run t (world a) = (r, w') → left_of r = Some t' →
  star thread_step (zoom t, a) (t', set_world w' a).
Proof.
  intros He E Hr. revert a He E.
  induction t as [u|f|m IH|ready k IH] using thread_ind'; intros a He E; cbn in E.
  - simplify_eq. rewrite (update_view (Lens := world_lens)). simplify_eq/=. apply star_refl.
  - simplify_eq. rewrite (update_view (Lens := world_lens)). simplify_eq/=. apply star_refl.
  - specialize (IH (world a)). destruct (m (world a)) as [t1 w1] eqn:Em. cbn in IH.
    eapply star_step.
    { apply (ThreadStep _ (zoom t1) a (set_world w1 a)); [done|]. cbn. by rewrite Em. }
    apply (IH (set_world w1 a)); [done|exact E].
  - destruct (ready (world a)) as [[v|g]|] eqn:Er; [|simplify_eq/=|simplify_eq/=].
    + eapply star_step.
      { apply (ThreadStep _ (zoom (k v)) a a); [done|]. cbn. by rewrite Er. }
      by apply IH.
    + rewrite (update_view (Lens := world_lens)). apply star_one. constructor; [done|].
      cbn. by rewrite Er.
Qed.
Lemma zoom_runs {A B} (t : thread World B) (k : B → thread World A) a x w' :
  ended a = None → run t (world a) = (Finished x, w') →
  star thread_step (zoom (t ≫= k), a) (zoom (k x), set_world w' a).
Proof.
  revert a. induction t as [u|f|m IH|ready k' IH] using thread_ind'; intros a He E; cbn in E.
  - simplify_eq. rewrite (update_view (Lens := world_lens)). apply star_refl.
  - done.
  - specialize (IH (world a)). destruct (m (world a)) as [t1 w1] eqn:Em. cbn in IH.
    eapply star_step.
    { apply (ThreadStep _ (zoom (t1 ≫= k)) a (set_world w1 a)); [done|]. cbn. by rewrite Em. }
    apply (IH (set_world w1 a)); [done|exact E].
  - destruct (ready (world a)) as [[v|g]|] eqn:Er; [|done..]. eapply star_step.
    { apply (ThreadStep _ (zoom (k' v ≫= k)) a a); [done|]. cbn. by rewrite Er. }
    by apply IH.
Qed.
Lemma goes_zoom {A} (t : thread World A) k a x w' Q :
  ended a = None → run t (world a) = (Finished x, w') → goes (k x) (set_world w' a) Q →
  goes (zoom t ≫= k) a Q.
Proof.
  intros He E. apply goes_star. change (k x) with ((TRet x : thread App A) ≫= k).
  by eapply steps_bind, zoom_steps.
Qed.
Lemma goes_zoom_last (t : thread World unit) a w' (Q : thread App unit → App → Prop) :
  ended a = None → run t (world a) = (Finished tt, w') → Q (TRet tt) (set_world w' a) →
  goes (zoom t) a Q.
Proof. intros He E HQ. eapply goes_star; [by eapply zoom_steps|by apply goes_here]. Qed.
Lemma goes_zoom_fails {A} (t : thread World A) k a f w' (Q : thread App unit → App → Prop) :
  ended a = None → run t (world a) = (Failed f, w') → Q (TFail f) (set_world w' a) →
  goes (zoom t ≫= k) a Q.
Proof.
  intros He E HQ. apply (goes_star _ _ (TFail f) (set_world w' a)); [|by apply goes_here].
  change (TFail f : thread App unit) with ((TFail f : thread App A) ≫= k).
  by eapply steps_bind, zoom_steps.
Qed.

Lemma logged_nil a : logged [] a = a.
Proof. unfold logged. rewrite app_nil_r. by destruct a as [[]]. Qed.
Lemma logged_logged ls ls' a : logged ls' (logged ls a) = logged (ls ++ ls') a.
Proof. unfold logged. cbn. by rewrite <- app_assoc. Qed.

Lemma say_logs lg level msg a :
  ∃ ls, run (say lg level msg) (world a) = (Finished tt, world (logged ls a)).
Proof. eexists. unfold say. rewrite run_zoom, run_log. reflexivity. Qed.
Lemma goes_say lg level msg k ls a Q :
  ended a = None → (∀ ls', goes (k tt) (logged ls' a) Q) →
  goes (zoom (say lg level msg) ≫= k) (logged ls a) Q.
Proof.
  intros He Hk. destruct (say_logs lg level msg (logged ls a)) as [ls' E].
  eapply goes_zoom; [done|exact E|].
  change (set_world _ _) with (logged ls' (logged ls a)). rewrite logged_logged. apply Hk.
Qed.
Lemma goes_tell_last lg msg ls a (Q : thread App unit → App → Prop) :
  ended a = None → (∀ ls', Q (TRet tt) (logged ls' a)) → goes (tells lg msg) (logged ls a) Q.
Proof.
  intros He HQ. destruct (say_logs lg LogLevelInfo msg (logged ls a)) as [ls' E].
  eapply goes_zoom_last; [done|exact E|].
  change (set_world _ _) with (logged ls' (logged ls a)). rewrite logged_logged. apply HQ.
Qed.
Lemma goes_start t a Q : goes t (logged [] a) Q → goes t a Q.
Proof. by rewrite logged_nil. Qed.
Lemma goes_tells lg msg k ls a Q :
  ended a = None → (∀ ls', goes k (logged ls' a) Q) →
  goes (_ ← tells lg msg; k) (logged ls a) Q.
Proof. intros He Hk. by apply (goes_say _ _ _ (λ _, k)). Qed.

Section Replies.
Context `{SourceKitD}.

Lemma goes_session sid s k a Q :
  ended a = None → sessions a !! sid = Some s → goes (k s) a Q →
  goes (with_session sid k) a Q.
Proof. intros He Hs Hk. apply goes_atomic; [done|]. cbn. by rewrite Hs. Qed.

Lemma write_built status reason version v body :
  http_version version = Ok v → has_body status →
  ∃ res, prepare_response (build_response status reason version body) = Ok res ∧
    write_response res = Ok ([reply v status reason body], false).
Proof.
  intros Hv Hs. set (m := build_response status reason version body).
  assert (plain_fields (res_fields m)) as Hp by done.
  eexists. split; [by apply prepare_response_plain|].
  rewrite (write_response_plain m v) by done. unfold reply, fields_insert, write_fields.
  rewrite trim_length, map_app, str_concat_app. cbn.
  by rewrite !str_app_assoc.
Qed.

(** Destroyed or not, the response has been handed to [async_write]. *)
Lemma goes_write sid res bytes ls a :
  ended a = None → write_response res = Ok ([bytes], false) →
  goes (session_write sid res) (logged ls a) (answering sid bytes a).
Proof.
  intros He Hw. unfold session_write. apply goes_atomic; [done|]. cbn [fst snd].
  rewrite Hw. cbn [of_outcome mbind thread_bind thread_bind_go].
  apply goes_modify; [done|]. apply goes_here. by exists ls, res.
Qed.

Lemma goes_built sid status reason version v body ls a :
  ended a = None → http_version version = Ok v → has_body status →
  goes (respond sid (build_response status reason version body)) (logged ls a)
    (answering sid (reply v status reason body) a).
Proof.
  intros He Hv Hs. destruct (write_built status reason version v body Hv Hs) as (res & Hr & Hw).
  unfold respond. rewrite Hr. by apply goes_write.
Qed.

Lemma goes_bad_version sid status reason version f body ls a :
  ended a = None → http_version version = Fail f → has_body status →
  ∃ res, prepare_response (build_response status reason version body) = Ok res ∧
    goes (session_write sid res) (logged ls a)
      (λ t' a', t' = TFail f ∧ ops a' = ops a ∧ wire a' = wire a).
Proof.
  intros He Hv Hs. set (m := build_response status reason version body).
  assert (plain_fields (res_fields m)) as Hp by done.
  eexists. split; [by apply prepare_response_plain|].
  unfold session_write. apply goes_atomic; [done|]. cbn [fst snd].
  match goal with |- context [write_response ?r] =>
    assert (write_response r = Fail f) as -> by
      (unfold write_response, write_message, status_line; cbn; by rewrite Hv) end.
  by apply goes_here.
Qed.

Lemma goes_onRead sid s a Q :
  ended a = None → sessions a !! sid = Some s →
  (∀ ls, goes
    match s_endpoints s !! req_url (s_request s) with
    | Some e =>
        _ ← tells (s_logger s) "GOTEP:";
        _ ← update_session sid (set_endpoint e);
        handleRequest e sid
    | None =>
        res ← of_outcome (notFoundResponse (s_request s));
        session_write sid res
    end (logged ls a) Q) → goes (onRead sid None) a Q.
Proof.
  intros He Hs HQ. apply goes_start, (goes_session sid s); [done..|].
  do 3 (apply goes_tells; [done|]; intros ?). apply HQ.
Qed.

(** The block queued for the endpoint [e]. *)
Definition dispatched (e : endpoint) (sid : nat) (a : App) (t' : thread App unit) (a' : App)
    : Prop :=
  ∃ ls, t' = TRet tt ∧
    a' = set_blocks (blocks a ++ [BEndpoint e sid])
      (set_sessions (alter (set_endpoint e) sid (sessions a)) (logged ls a)).

Lemma goes_dispatched sid s e a :
  ended a = None → sessions a !! sid = Some s →
  s_endpoints s !! req_url (s_request s) = Some e →
  goes (onRead sid None) a (dispatched e sid a).
Proof.
  intros He Hs Hu. apply (goes_onRead sid s); [done..|]. intros ls. rewrite Hu.
  apply goes_tells; [done|]. intros ls'. apply goes_modify; [done|].
  set (a1 := set_sessions (alter (set_endpoint e) sid (sessions a)) a).
  apply (goes_session sid (set_endpoint e s) _ (logged ls' a1)); [done| |].
  { cbn. by rewrite lookup_alter_eq, Hs. }
  do 2 (apply goes_tells; [done|]; intros ?). apply goes_last; [done|]. by eexists.
Qed.

(** A request that has been read is dispatched on its URL.  A URL the
    table has puts exactly that endpoint's block on the queue and starts
    nothing else; any other URL is answered at once with a 404 that names it,
    at an HTTP version other than 1.0 and 1.1 the thread fails the writer's
    assertion.  After a failed read nothing is started, whatever the request. *)
Theorem read_dispatches (sid : nat) (s : session) (a : App) :
  ended a = None → sessions a !! sid = Some s →
  let url := req_url (s_request s) in
  (∀ ec, goes (onRead sid (Some ec)) a (λ t' a', ∃ ls, t' = TRet tt ∧ a' = logged ls a)) ∧
  match s_endpoints s !! url, http_version (req_version (s_request s)) with
  | Some e, _ =>
      goes (onRead sid None) a (dispatched e sid a)
  | None, Ok v =>
      goes (onRead sid None) a (answering sid
        (reply v 404 "Not Found" ("Endpoint: '" +:+ url +:+ "' not found")) a)
  | None, Fail f =>
      goes (onRead sid None) a (λ t' a', t' = TFail f ∧ ops a' = ops a ∧ wire a' = wire a)
  end.
Proof.
  intros He Hs url. split.
  { intros ec. apply goes_start, (goes_session sid s); [done..|].
    apply goes_tells; [done|]. intros ls.
    apply goes_tell_last; [done|]. intros ls'. by exists ls'. }
  destruct (s_endpoints s !! url) as [e|] eqn:Hu; [by apply (goes_dispatched sid s)|].
  destruct (http_version (req_version (s_request s))) as [v|f] eqn:Hv;
    apply (goes_onRead sid s); try done; intros ls; unfold url in Hu; rewrite Hu;
    unfold notFoundResponse.
  + by apply goes_built.
  + destruct (goes_bad_version sid 404 "Not Found" _ f
      ("Endpoint: '" +:+ req_url (s_request s) +:+ "' not found") ls a He Hv)
      as (res & -> & Hg); [done|]. exact Hg.
Qed.

(** A status request is answered with an empty 200, a shutdown request also
    and the exit is scheduled in two seconds; the slow test only schedules its
    answer, and that answer is a 200 with "Hello World".  The exit's block ends
    the process. *)
Theorem plain_endpoints (sid : nat) (s : session) (a : App) (v : string) :
  ended a = None → sessions a !! sid = Some s →
  http_version (req_version (s_request s)) = Ok v →
  goes (run_block (BEndpoint Status sid)) a
    (answering sid (reply v 200 EmptyString EmptyString) a) ∧
  goes (run_block (BEndpoint Shutdown sid)) a
    (answering sid (reply v 200 EmptyString EmptyString)
      (set_timers (timers a ++ [(2, BExit sid)]) a)) ∧
  goes (run_block (BEndpoint SlowTest sid)) a (λ t' a', ∃ ls, t' = TRet tt ∧
    a' = set_timers (timers a ++ [(10, BSlow sid)]) (logged ls a)) ∧
  goes (run_block (BSlow sid)) a
    (answering sid (reply v 200 EmptyString "Hello World") a) ∧
  goes (run_block (BExit sid)) a (λ t' a', ∃ ls, t' = TRet tt ∧
    a' = set_ended Exited (logged ls a)).
Proof.
  intros He Hs Hv.
  assert (∀ e Q, (∀ ls, goes (start_endpoint e sid) (logged ls a) Q) →
    goes (run_block (BEndpoint e sid)) a Q) as Hblock.
  { intros e Q HQ. apply goes_start, (goes_session sid s); [done..|].
    by apply goes_tells. }
  split_and!.
  - apply Hblock. intros ls. apply (goes_session sid s); [done..|]. by apply goes_built.
  - apply Hblock. intros ls. apply (goes_session sid s); [done..|].
    apply goes_tells; [done|]. intros ls'.
    destruct (write_built 200 EmptyString _ v EmptyString Hv) as (res & Hr & Hw); [done|].
    rewrite Hr. apply goes_modify; [done|].
    by apply (goes_write sid res _ ls' (set_timers (timers a ++ [(2, BExit sid)]) a)).
  - apply Hblock. intros ls. apply goes_last; [done|]. by exists ls.
  - apply goes_start, (goes_session sid s); [done..|].
    do 2 (apply goes_tells; [done|]; intros ?). by apply goes_built.
  - apply goes_start, (goes_session sid s); [done..|]. apply goes_tells; [done|].
    intros ls. apply goes_last; [done|]. by exists ls.
Qed.

Lemma log_each_steps lg prefix flags ls a :
  ended a = None →
  ∃ ls', star thread_step (log_each lg prefix flags, logged ls a) (TRet tt, logged ls' a).
Proof.
  intros He. revert ls. induction flags as [|f flags IH]; intros ls.
  { exists ls. apply star_refl. }
  assert (goes (log_each lg prefix (f :: flags)) (logged ls a)
    (λ t' a', ∃ ls', t' = TRet tt ∧ a' = logged ls' a)) as (t' & a' & Hs & ls' & -> & ->);
    [|by exists ls'].
  cbn [log_each]. do 2 (apply goes_tells; [done|]; intros ?).
  destruct (IH ls'0) as [ls2 Hs]. eapply goes_star; [exact Hs|]. apply goes_here. by exists ls2.
Qed.
Lemma goes_log_each lg prefix flags k ls a Q :
  ended a = None → (∀ ls', goes k (logged ls' a) Q) →
  goes (_ ← log_each lg prefix flags; k) (logged ls a) Q.
Proof.
  intros He Hk. destruct (log_each_steps lg prefix flags ls a He) as [ls' Hs].
  eapply goes_star; [by apply steps_bind|]. apply Hk.
Qed.

(** *** The two queries *)

Definition unsaved (name text : string) : UnsavedFile :=
  {| contents := text; fileName := name |}.

(** What a completions request asks [GetOffset] for. *)
Definition query_context (q : completion_query) : CompletionContext :=
  completion_context (q_file_name q) (q_line q) (q_column q)
    [unsaved (q_file_name q) (q_contents q)] (q_flags q).

Definition session_completer (s : session) : SwiftCompleter :=
  SwiftCompleter_new (_level (s_logger s)).

Lemma answering_logged sid bytes ls a t' a' :
  answering sid bytes (logged ls a) t' a' → answering sid bytes a t' a'.
Proof.
  intros (ls' & res & Hw & -> & ->). exists (ls ++ ls'), res.
  by rewrite logged_logged.
Qed.

(** The end of both endpoints: the answer logged and sent. *)
Definition send_answer (got : string) (sid : nat) (s : session) (body : string)
    : thread App unit :=
  _ ← tells (s_logger s) got;
  _ ← zoom (say (s_logger s) LogLevelExtreme body);
  respond sid (build_response 200 EmptyString (req_version (s_request s)) body).

Lemma goes_send_answer got sid s v body a :
  ended a = None → http_version (req_version (s_request s)) = Ok v →
  goes (send_answer got sid s body) a (answering sid (reply v 200 EmptyString body) a).
Proof.
  intros He Hv. apply goes_start. apply goes_tells; [done|]. intros ls.
  apply goes_say; [done|]. intros ls'. by apply goes_built.
Qed.

Lemma goes_endpoint e sid s a Q :
  ended a = None → sessions a !! sid = Some s →
  (∀ ls, goes (start_endpoint e sid) (logged ls a) Q) → goes (run_block (BEndpoint e sid)) a Q.
Proof.
  intros He Hs HQ. apply goes_start, (goes_session sid s); [done..|]. by apply goes_tells.
Qed.

Lemma goes_completions sid s a Q :
  ended a = None → sessions a !! sid = Some s →
  match read_completion_query (req_body (s_request s)) with
  | Ok q => ∀ ls, goes
      (candidates ← zoom (CandidatesForLocationInFile (session_completer s) (q_file_name q)
         (q_line q) (q_column q) [unsaved (q_file_name q) (q_contents q)] (q_flags q));
       send_answer "GOT_CANDIDATES" sid s candidates) (logged ls a) Q
  | Fail f => ∀ ls, Q (TFail f) (logged ls a)
  end → goes (run_block (BEndpoint Completions sid)) a Q.
Proof.
  intros He Hs HQ. apply (goes_endpoint _ _ s); [done..|]. intros ls1.
  apply (goes_session sid s); [done..|]. apply goes_tells; [done|]. intros ls2.
  destruct (read_completion_query _) as [q|f]; [|apply goes_here, HQ].
  do 6 (apply goes_tells; [done|]; intros ?). apply goes_log_each; [done|]. intros ls3.
  apply goes_tells; [done|]. intros ls4. apply HQ.
Qed.
Lemma goes_diagnostics sid s a Q :
  ended a = None → sessions a !! sid = Some s →
  match read_diagnostics_query (req_body (s_request s)) with
  | Ok q => ∀ ls, goes
      (diagnostics ← zoom (DiagnosticsForFile (session_completer s) (d_file_name q)
         [unsaved (d_file_name q) (d_contents q)] (d_flags q));
       send_answer "GOT_DIAGNOSTICS" sid s diagnostics) (logged ls a) Q
  | Fail f => ∀ ls, Q (TFail f) (logged ls a)
  end → goes (run_block (BEndpoint Diagnostics sid)) a Q.
Proof.
  intros He Hs HQ. apply (goes_endpoint _ _ s); [done..|]. intros ls1.
  apply (goes_session sid s); [done..|]. apply goes_tells; [done|]. intros ls2.
  destruct (read_diagnostics_query _) as [q|f]; [|apply goes_here, HQ].
  do 2 (apply goes_tells; [done|]; intros ?). apply goes_log_each; [done|]. intros ls3.
  apply goes_tells; [done|]. intros ls4. apply HQ.
Qed.

(** The thread fails; nothing but the component's state has changed. *)
Definition fails_with (f : failure) (a : App) (t' : thread App unit) (a' : App) : Prop :=
  t' = TFail f ∧ ∃ w', a' = set_world w' a.

(** C11: the completions endpoint answers a well-formed request with a 200 whose
    body is the reply of the query it describes: that file, line, column and
    flags, with the contents as the only unsaved file.  A body that is not
    such a request, or one that [GetOffset] refuses, ends the thread with the
    failure; nothing is answered then. *)
Theorem completions_endpoint_answers `{!FreshHandles} (sid : nat) (s : session) (a : App)
    (v : string) (l0 : ledger) :
  ended a = None → sessions a !! sid = Some s →
  http_version (req_version (s_request s)) = Ok v →
  ledger_of (calls_of (world a)) = Some l0 →
  goes (run_block (BEndpoint Completions sid)) a
    match read_completion_query (req_body (s_request s)) with
    | Fail f => fails_with f a
    | Ok q =>
        match GetOffset (query_context q) 0 EmptyString with
        | Fail f => fails_with f a
        | Ok (off, clean) => λ t' a', ∃ ls candidates w',
            candidates_answered (session_completer s) (q_file_name q) (q_flags q) off clean
              (world (logged ls a)) l0 candidates w' ∧
            answering sid (reply v 200 EmptyString candidates) (set_world w' a) t' a'
        end
    end.
Proof.
  intros He Hs Hv Hl. apply (goes_completions sid s); [done..|].
  destruct (read_completion_query _) as [q|f]; intros ls; [|split; [done|by eexists]].
  destruct (GetOffset (query_context q) 0 EmptyString) as [[off clean]|f] eqn:HG.
  - destruct (candidates_spec (session_completer s) _ _ _ _ (q_flags q)
      (world (logged ls a)) l0 off clean Hl HG) as (candidates & w' & E & HQ).
    eapply goes_zoom; [done|exact E|].
    eapply goes_mono; [by apply goes_send_answer|].
    intros t' a' Ha. exists ls, candidates, w'. split; [exact HQ|exact Ha].
  - destruct (candidates_fail (session_completer s) _ _ _ _ (q_flags q)
      (world (logged ls a)) f HG) as (w' & E).
    eapply goes_zoom_fails; [done|exact E|]. split; [done|]. by exists w'.
Qed.

(** The thread is blocked on a future; once it has a value, it answers with it. *)
Definition awaits (sid : nat) (filename v : string) (t' : thread App unit) (a' : App) : Prop :=
  tstep t' a' = None ∧
  ∃ p, registered (channel_of (world a')) filename p ∧
    ∀ a2 diagnostics, ended a2 = None →
      future_ready p (channel_of (world a2)) = Some (Ok diagnostics) →
      goes t' a2 (answering sid (reply v 200 EmptyString diagnostics) a2).

End Replies.

Definition is_json (body : string) : bool :=
  match read_json body with Ok _ => true | Fail _ => false end.

(** The replies to failed queries, sent as [application/json], are no JSON:
    a client that reads them as it reads the other answers fails. *)
Theorem empty_replies_are_no_json :
  is_json EmptyCandidates = false ∧ is_json EmptyDiagnostics = false.
Proof. split; vm_compute; reflexivity. Qed.

(** ** The hypotheses can hold *)

(** JSON text with its quotes written as apostrophes. *)
Definition json (s : string) : string :=
  str_map (λ c, if Ascii.eqb c "'" then dquote else c) s.

Definition demo_session (url body : string) : session :=
  {| s_context := {| secret := "SomeSecret"; logLevel := LogLevelInfo |};
     s_request := {| req_version := 11; req_method := "POST"; req_url := url;
       req_fields := []; req_body := body |};
     s_endpoints := endpoint_table; s_endpoint := None;
     s_logger := make_Logger LogLevelInfo "HTTP" |}.
Definition demo_app (url body : string) : App :=
  {| world := world_new; sessions := {[ 0%nat := demo_session url body ]}; next_session := 1;
     ops := []; messages := ∅; next_message := 0; blocks := []; timers := [];
     acceptor_open := true; accepting := true; wire := []; ended := None |}.

Lemma read_dispatches_witness :
  goes (onRead 0 None) (demo_app "/nope" EmptyString)
    (answering 0 (reply "HTTP/1.1" 404 "Not Found" "Endpoint: '/nope' not found")
      (demo_app "/nope" EmptyString)).
Proof.
  exact (proj2 (read_dispatches 0 (demo_session "/nope" EmptyString)
    (demo_app "/nope" EmptyString) eq_refl eq_refl)).
Defined.

Lemma plain_endpoints_witness :
  goes (run_block (BEndpoint Status 0)) (demo_app "/status" EmptyString)
    (answering 0 (reply "HTTP/1.1" 200 EmptyString EmptyString)
      (demo_app "/status" EmptyString)).
Proof.
  exact (proj1 (plain_endpoints 0 (demo_session "/status" EmptyString)
    (demo_app "/status" EmptyString) "HTTP/1.1" eq_refl eq_refl eq_refl)).
Defined.

Definition completion_body : string :=
  json "{'line':1,'column':5,'file_name':'f','contents':'foo.bar','flags':['-a']}".
Definition demo_query : completion_query :=
  {| q_file_name := "f"; q_column := 5; q_line := 1; q_contents := "foo.bar";
     q_flags := ["-a"] |}.

Lemma completions_endpoint_answers_witness :
  goes (run_block (BEndpoint Completions 0)) (demo_app "/completions" completion_body)
    (λ t' a', ∃ ls candidates w',
      candidates_answered (SwiftCompleter_new LogLevelInfo) "f" ["-a"] 4 "foo."
        (world (logged ls (demo_app "/completions" completion_body))) ledger_new candidates w' ∧
      answering 0 (reply "HTTP/1.1" 200 EmptyString candidates)
        (set_world w' (demo_app "/completions" completion_body)) t' a').
Proof.
  pose proof (completions_endpoint_answers 0 (demo_session "/completions" completion_body)
    (demo_app "/completions" completion_body) "HTTP/1.1" ledger_new eq_refl eq_refl eq_refl
    eq_refl) as Hc.
  assert (read_completion_query (req_body (s_request
    (demo_session "/completions" completion_body))) = Ok demo_query) as E
    by (vm_compute; reflexivity).
  rewrite E in Hc.
  assert (GetOffset (query_context demo_query) 0 EmptyString = Ok (4, "foo.")) as E2
    by (vm_compute; reflexivity).
  rewrite E2 in Hc. exact Hc.
Defined.

Definition demo_diagnostics : diagnostics_query :=
  {| d_file_name := "f"; d_contents := "foo.bar"; d_flags := ["-a"] |}.

