(* ===== verification/Protocol.v ===== *)
(** * The protocol of a session: what the server promises a peer

    The abstract specification that Server.v shows the process to implement.  A
    session is waiting for a request, has one to answer, or has been closed; the
    events are the requests that are read and the answers that are sent. *)

From S2P Require Import Prelude Ptree JsonRead.
From S2P Require Import Logging Futures SourceKitD Offset SourceKit Completer HttpMessage Endpoints.

(** ** Answers *)

(** What a query may be answered with is a parameter of the protocol. *)
Class Replies := {
  candidates_reply : request → string → Prop;
  diagnostics_reply : request → string → Prop;
}.
(** What the completer can return for the file, the position and the flags of the request,
    whatever sourcekitd answers. *)
#[export] Instance may_reply `{SourceKitD} : Replies | 10 := {|
  candidates_reply r body := ∃ level q,
    read_completion_query (req_body r) = Ok q ∧
    may_return (CandidatesForLocationInFile (SwiftCompleter_new level) (q_file_name q)
      (q_line q) (q_column q) [{| contents := q_contents q; fileName := q_file_name q |}]
      (q_flags q)) body;
  diagnostics_reply r body := ∃ level q,
    read_diagnostics_query (req_body r) = Ok q ∧
    may_return (DiagnosticsForFile (SwiftCompleter_new level) (d_file_name q)
      [{| contents := d_contents q; fileName := d_file_name q |}] (d_flags q)) body;
|}.

Section Answers.
Context `{Replies}.

(** The bodies an endpoint may answer a request with. *)
Definition reply_of (e : endpoint) (r : request) (body : string) : Prop :=
  match e with
  | Status | Shutdown => body = EmptyString
  | SlowTest => body = "Hello World"
  | Completions => candidates_reply r body
  | Diagnostics => diagnostics_reply r body
  end.

Inductive answers (r : request) : response → Prop :=
| AnswersNotFound res :
    endpoint_table !! req_url r = None → notFoundResponse r = Ok res → answers r res
| AnswersEndpoint e body res :
    endpoint_table !! req_url r = Some e → reply_of e r body →
    prepare_response (build_response 200 EmptyString (req_version r) body) = Ok res →
    answers r res.

(** ** Phases and events *)

Inductive phase := Idle | Busy (r : request) | Closed.

(** A request has been read; the connection has failed while waiting for one; the
    bytes of an answer have been sent; an answer could not be sent. *)
Inductive event :=
| Received (sid : nat) (r : request)
| HungUp (sid : nat)
| Answered (sid : nat) (bytes : string)
| Lost (sid : nat).
Definition event_sid (e : event) : nat :=
  match e with Received sid _ | HungUp sid | Answered sid _ | Lost sid => sid end.

(** The bytes of an answer to the request. *)
Definition answer_bytes (r : request) (bytes : string) : Prop :=
  ∃ res buffers close,
    answers r res ∧ write_response res = Ok (buffers, close) ∧ bytes = str_concat buffers.

(** What an event does to the phase of its session. *)
Inductive phase_step : phase → event → phase → Prop :=
| PhaseReceived sid r : phase_step Idle (Received sid r) (Busy r)
| PhaseHungUp sid : phase_step Idle (HungUp sid) Closed
| PhaseAnswered sid r bytes : answer_bytes r bytes → phase_step (Busy r) (Answered sid bytes) Idle
| PhaseLost sid r : phase_step (Busy r) (Lost sid) Idle.

(** ** The specification *)

Definition phases : Type := nat → phase.
Definition set_phase (sid : nat) (p : phase) (γ : phases) : phases :=
  λ sid', if decide (sid' = sid) then p else γ sid'.
Definition all_idle : phases := λ _, Idle.

(** A step of the process as the peers see it: one event of one session, or none. *)
Inductive spec_step : phases → option event → phases → Prop :=
| SpecSilent γ : spec_step γ None γ
| SpecEvent γ e p :
    phase_step (γ (event_sid e)) e p →
    spec_step γ (Some e) (set_phase (event_sid e) p γ).

Inductive spec_run : list event → phases → Prop :=
| SpecStart : spec_run [] all_idle
| SpecStep tr γ l γ' :
    spec_run tr γ → spec_step γ l γ' → spec_run (tr ++ option_list l) γ'.

(** ** What the specification implies *)

Lemma set_phase_eq sid p γ : set_phase sid p γ sid = p.
Proof. unfold set_phase. by rewrite decide_True. Qed.
Lemma set_phase_ne sid sid' p γ : sid' ≠ sid → set_phase sid p γ sid' = γ sid'.
Proof. intros Hne. unfold set_phase. by rewrite decide_False. Qed.

(** The events of a session. *)
Definition of_session (sid : nat) (tr : list event) : list event :=
  filter (λ e, event_sid e = sid) tr.
(** The requests read, in order, and the answers sent. *)
Definition requests_of (sid : nat) (tr : list event) : list request :=
  omap (λ e, match e with Received _ r => Some r | _ => None end) (of_session sid tr).
Definition sent_of (tr : list event) : list (nat * string) :=
  omap (λ e, match e with Answered sid bytes => Some (sid, bytes) | _ => None end) tr.

(** One session's events taken alone: [dialogue p tr q] when they lead from the phase
    [p] to the phase [q]. *)
Inductive dialogue : phase → list event → phase → Prop :=
| DialogueNil p : dialogue p [] p
| DialogueSnoc p tr q e q' : dialogue p tr q → phase_step q e q' → dialogue p (tr ++ [e]) q'.

Lemma of_session_snoc sid tr e :
  of_session sid (tr ++ [e]) = of_session sid tr ++ (if decide (event_sid e = sid) then [e] else []).
Proof.
  unfold of_session. by rewrite filter_app.
Qed.
Lemma requests_of_snoc sid tr e :
  requests_of sid (tr ++ [e]) =
  requests_of sid tr ++
    match e with Received sid' r => if decide (sid' = sid) then [r] else [] | _ => [] end.
Proof.
  unfold requests_of. rewrite of_session_snoc, omap_app. f_equal.
  destruct e as [s r|s|s b|s]; cbn; by destruct (decide (s = sid)).
Qed.

(** A session that has been closed stays so. *)
Lemma spec_closed γ l γ' sid : spec_step γ l γ' → γ sid = Closed → γ' sid = Closed.
Proof.
  intros [|γ0 e p Hp]; [done|]. intros Hc. destruct (decide (event_sid e = sid)) as [<-|Hne].
  - rewrite Hc in Hp. inversion Hp.
  - by rewrite set_phase_ne.
Qed.
(** Each session's events are a dialogue. *)
Lemma spec_dialogue tr γ sid : spec_run tr γ → dialogue Idle (of_session sid tr) (γ sid).
Proof.
  induction 1 as [|tr γ l γ' Hr IH Hs]; [constructor|].
  destruct Hs as [γ|γ e p Hp]; [by rewrite app_nil_r|]. change (option_list (Some e)) with [e].
  rewrite of_session_snoc. destruct (decide (event_sid e = sid)) as [<-|Hne].
  - rewrite set_phase_eq. by econstructor.
  - by rewrite app_nil_r, set_phase_ne.
Qed.
(** An answer follows the request it answers. *)
Lemma dialogue_answered p tr sid bytes q :
  dialogue p (tr ++ [Answered sid bytes]) q →
  ∃ r, dialogue p tr (Busy r) ∧ answer_bytes r bytes ∧ q = Idle.
Proof.
  remember (tr ++ [Answered sid bytes]) as tr' eqn:E. intros Hd.
  destruct Hd as [|p tr0 q0 e q' Hd Hs]; [by destruct tr|].
  apply app_inj_tail in E as [-> ->]. inversion Hs; subst. by eexists.
Qed.
Lemma dialogue_busy tr r :
  dialogue Idle tr (Busy r) → ∃ tr0 sid, tr = tr0 ++ [Received sid r] ∧ dialogue Idle tr0 Idle.
Proof.
  remember Idle as p eqn:Ep. remember (Busy r) as q eqn:Eq. intros Hd.
  destruct Hd as [p|p tr0 q0 e q' Hd Hs]; [congruence|]. subst.
  inversion Hs; subst. by eexists _, _.
Qed.
Lemma dialogue_closed tr :
  dialogue Idle tr Closed → ∃ tr0 sid, tr = tr0 ++ [HungUp sid].
Proof.
  remember Idle as p eqn:Ep. remember Closed as q eqn:Eq. intros Hd.
  destruct Hd as [p|p tr0 q0 e q' Hd Hs]; [congruence|]. subst.
  inversion Hs; subst. by eexists _, _.
Qed.

(** ** Exchanges *)

(** The requests of a session in the order they are read, each with the bytes it was
    answered with, if it was. *)
Definition exchange : Type := request * option string.
Fixpoint settle (bytes : string) (xs : list exchange) : list exchange :=
  match xs with
  | [] => []
  | [(r, _)] => [(r, Some bytes)]
  | x :: xs => x :: settle bytes xs
  end.
Definition exchanges_with (xs : list exchange) (e : event) : list exchange :=
  match e with
  | Received _ r => xs ++ [(r, None)]
  | Answered _ bytes => settle bytes xs
  | HungUp _ | Lost _ => xs
  end.
Definition exchanges (tr : list event) : list exchange := foldl exchanges_with [] tr.
(** The bytes that answer, in a session's events and on the wire. *)
Definition answered_in (tr : list event) : list string :=
  omap (λ e, match e with Answered _ bytes => Some bytes | _ => None end) tr.
Definition sent_to (sid : nat) (w : list (nat * string)) : list string :=
  omap (λ '(s, bytes), if decide (s = sid) then Some bytes else None) w.
Definition received_in (tr : list event) : list request :=
  omap (λ e, match e with Received _ r => Some r | _ => None end) tr.

Lemma settle_snoc bytes xs r b : settle bytes (xs ++ [(r, b)]) = xs ++ [(r, Some bytes)].
Proof. induction xs as [|[r' b'] xs IH]; [done|]. cbn in *. rewrite IH. by destruct xs. Qed.
Lemma exchanges_snoc tr e : exchanges (tr ++ [e]) = exchanges_with (exchanges tr) e.
Proof. unfold exchanges. by rewrite foldl_app. Qed.
Lemma sent_to_of sid tr : sent_to sid (sent_of tr) = answered_in (of_session sid tr).
Proof.
  induction tr as [|e tr IH] using rev_ind; [done|]. unfold sent_of, sent_to, answered_in in *.
  rewrite of_session_snoc, !omap_app, IH. f_equal.
  destruct e as [s r|s|s b|s]; cbn; by destruct (decide (s = sid)).
Qed.

Lemma received_snoc tr e :
  received_in (tr ++ [e]) = received_in tr ++ match e with Received _ r => [r] | _ => [] end.
Proof. unfold received_in. rewrite omap_app. by destruct e. Qed.
Lemma answered_snoc tr e :
  answered_in (tr ++ [e]) = answered_in tr ++ match e with Answered _ b => [b] | _ => [] end.
Proof. unfold answered_in. rewrite omap_app. by destruct e. Qed.

(** The exchanges of a dialogue: its requests and its answers, each answer of its
    own request; while none is lost, all but the last have been answered. *)
Definition all_answered (p : phase) (xs : list exchange) : Prop :=
  match p with
  | Busy r => ∃ ys, xs = ys ++ [(r, None)] ∧ Forall (λ x, is_Some x.2) ys
  | _ => Forall (λ x, is_Some x.2) xs
  end.
Record exchanged (tr : list event) (p : phase) : Prop := {
  ex_requests : (exchanges tr).*1 = received_in tr;
  ex_answers : omap snd (exchanges tr) = answered_in tr;
  ex_proper : Forall (λ x, ∀ bytes, x.2 = Some bytes → answer_bytes x.1 bytes) (exchanges tr);
  ex_last : ∀ r, p = Busy r → ∃ ys, exchanges tr = ys ++ [(r, None)];
  ex_all : (∀ e, e ∈ tr → e ≠ Lost (event_sid e)) → all_answered p (exchanges tr);
}.
Lemma dialogue_exchanged tr p : dialogue Idle tr p → exchanged tr p.
Proof.
  remember Idle as p0 eqn:E0. induction 1 as [|p0 tr q e q' Hd IH Hs]; subst.
  { split; try done; intros; constructor. }
  specialize (IH eq_refl). destruct IH as [H1 H2 H3 H4 H5].
  assert ((∀ e0, e0 ∈ tr ++ [e] → e0 ≠ Lost (event_sid e0)) → all_answered q (exchanges tr)) as Hall.
  { intros Hl. apply H5. intros e0 He0. apply Hl, elem_of_app. by left. }
  clear H5.
  destruct Hs as [sid r|sid|sid r bytes Hb|sid r];
    split; rewrite ?exchanges_snoc, ?received_snoc, ?answered_snoc, ?app_nil_r; cbn [exchanges_with];
    try done.
  - by rewrite fmap_app, H1.
  - by rewrite omap_app, H2, app_nil_r.
  - apply Forall_app. split; [done|]. by constructor.
  - intros r' [= ->]. by eexists.
  - intros Hl. eexists. by split; [|apply Hall].
  - destruct (H4 r eq_refl) as [ys Ey]. by rewrite <- H1, Ey, settle_snoc, !fmap_app.
  - destruct (H4 r eq_refl) as [ys Ey]. by rewrite <- H2, Ey, settle_snoc, !omap_app, app_nil_r.
  - destruct (H4 r eq_refl) as [ys Ey]. rewrite Ey in *. rewrite settle_snoc.
    apply Forall_app in H3 as [H3 _]. apply Forall_app. split; [done|]. constructor; [|done].
    intros b [= <-]. done.
  - intros Hl. destruct (Hall Hl) as (ys & -> & Hy). rewrite settle_snoc.
    apply Forall_app. split; [done|]. by repeat constructor.
  - intros Hl. exfalso. apply (Hl (Lost sid)); [|done]. apply elem_of_app. right. by constructor.
Qed.
End Answers.
