(* ===== verification/Resources.v ===== *)
(** * What the process's threads hold: the interface between the completer and the server

    A thread of the server runs the completer's queries with a share of what the process
    owns (Owns.v).  [Resources] says what shares there are and how they add up to the
    state, and promises the server that a query leaves its thread holding nothing and
    returns what the protocol lets it reply.  Server.v is proved against the class; the
    shares of sourcekitd's ledger are an instance (ServerLedger.v), and so is nothing
    at all, with the replies that the completer's code can return at most. *)

From S2P Require Import Prelude Owns Ptree JsonRead.
From S2P Require Import Logging Futures SourceKitD Offset SourceKit Completer HttpMessage Endpoints Protocol.

Class Resources `{SourceKitD, Replies} := {
  resource : Type;
  nothing : resource;
  (** A thread may end with it. *)
  spare : resource → Prop;
  uses : rules App resource;
  (** The threads have these, and the state is what they add up to. *)
  shared_out : list resource → App → Prop;
  (** States, and requests, of the runs that are looked at. *)
  possible : App → Prop;
  heard : request → Prop;

  uses_mono : Monotone uses;
  (** What is done to the rest of the state is nobody's concern. *)
  uses_elsewhere g a a' (P : resource → Prop) :
    calls_of (world a') = calls_of (world a) → channel_of (world a') = channel_of (world a) →
    P g → acts uses g a a' P;
  shared_elsewhere gs a a' :
    shared_out gs a → world a' = world a → shared_out gs a';
  shared_start a : world a = world_new → shared_out [] a;
  shared_join gs a : shared_out gs a → shared_out (gs ++ [nothing]) a;
  shared_has gs a i g : shared_out gs a → gs !! i = Some g → holds uses g a;
  shared_uses gs a a' i g (P : resource → Prop) :
    shared_out gs a → gs !! i = Some g → acts uses g a a' P → possible a' →
    ∃ g', P g' ∧ shared_out (<[i := g']> gs) a';

  spare_nothing : spare nothing;
  heard_no_request : heard no_request;
  candidates_returns level r q g :
    heard r → read_completion_query (req_body r) = Ok q → spare g →
    owns uses (λ body g', spare g' ∧ candidates_reply r body)
      (zoom (CandidatesForLocationInFile (SwiftCompleter_new level) (q_file_name q)
        (q_line q) (q_column q) [{| contents := q_contents q; fileName := q_file_name q |}]
        (q_flags q))) g;
  diagnostics_returns level r q g :
    heard r → read_diagnostics_query (req_body r) = Ok q → spare g →
    owns uses (λ body g', spare g' ∧ diagnostics_reply r body)
      (zoom (DiagnosticsForFile (SwiftCompleter_new level) (d_file_name q)
        [{| contents := d_contents q; fileName := d_file_name q |}] (d_flags q))) g;
  notification_returns resp g :
    spare g → owns uses (λ _ g', spare g') (zoom (notification_handler resp)) g;
}.
#[export] Existing Instance uses_mono.

(** Nothing is held, and a query returns what its code may. *)
#[export] Program Instance no_resources `{SourceKitD} : Resources | 10 := {|
  resource := unit;
  nothing := tt;
  spare _ := True;
  uses := no_rules App;
  shared_out _ _ := True;
  possible _ := True;
  heard _ := True;
|}.
Next Obligation. intros ? ? ? ? P R HP HR. apply HR, HP. Qed.
Next Obligation. by intros ? [] ? ? P _ _. Qed.
Next Obligation. done. Qed.
Next Obligation. done. Qed.
Next Obligation. done. Qed.
Next Obligation. done. Qed.
Next Obligation. intros. by exists tt. Qed.
Next Obligation. done. Qed.
Next Obligation. done. Qed.
Next Obligation.
  intros ? level r q [] _ E _. apply owns_nothing. intros x Hx%may_return_zoom.
  split; [done|]. by exists level, q.
Qed.
Next Obligation.
  intros ? level r q [] _ E _. apply owns_nothing. intros x Hx%may_return_zoom.
  split; [done|]. by exists level, q.
Qed.
Next Obligation. intros ? resp [] _. by apply owns_nothing. Qed.
