(* ===== verification/Server.v ===== *)
(** * The server's process: SemanticHTTPServer and Session as a step relation

    A state is the process's [App] and its threads: those of the io_service and
    of the dispatch queues.  The environment accepts connections, completes
    operations, delivers notifications; the queues run their blocks; the threads
    interleave.  A failure nobody catches ends the process.  A step's label is what
    the peers see of it; the process implements the protocol of Protocol.v. *)

From S2P Require Import Prelude Owns Ptree JsonRead.
From S2P Require Import Logging Futures SourceKitD Offset SourceKit Requests Completer HttpMessage Endpoints Protocol Resources.

(** ** Steps *)

Section Steps.
Context `{SourceKitD} (ctx : ServiceContext).

Definition state : Type := App * list (thread App unit).

(** The constructor of [SemanticHTTPServer]: listening, one accept outstanding. *)
Definition server_new : state :=
  ({| world := world_new; sessions := ∅; next_session := 0; ops := []; messages := ∅;
      next_message := 0; blocks := []; timers := []; acceptor_open := true;
      accepting := true; wire := []; ended := None |}, []).

Inductive lstep : state → option event → state → Prop :=
| LStepAccept a ts ec :
    ended a = None → accepting a = true →
    lstep (a, ts) None (set_accepting false a, ts ++ [onAccept ctx ec])
| LStepRead a ts i sid r :
    ended a = None → ops a !! i = Some (sid, OpRead) →
    lstep (a, ts) (Some (Received sid r))
      (set_sessions (alter (set_request r) sid (sessions a))
         (set_ops (delete i (ops a)) a), ts ++ [onRead sid None])
| LStepReadFails a ts i sid ec :
    ended a = None → ops a !! i = Some (sid, OpRead) →
    lstep (a, ts) (Some (HungUp sid))
      (set_ops (delete i (ops a)) a, ts ++ [onRead sid (Some ec)])
| LStepSend a ts i sid m close res buffers :
    ended a = None → ops a !! i = Some (sid, OpWrite m close false) →
    messages a !! m = Some res → write_response res = Ok (buffers, close) →
    lstep (a, ts) (Some (Answered sid (str_concat buffers)))
      (add_wire sid (str_concat buffers)
         (set_ops (<[i := (sid, OpWrite m close true)]> (ops a)) a), ts)
| LStepSendDangling a ts i sid m close :
    ended a = None → ops a !! i = Some (sid, OpWrite m close false) →
    messages a !! m = None →
    lstep (a, ts) None
      (set_ended (Crashed (UndefinedBehavior "async_write: message destroyed")) a, ts)
| LStepWritten a ts i sid m close :
    ended a = None → ops a !! i = Some (sid, OpWrite m close true) →
    lstep (a, ts) None
      (set_ops (delete i (ops a)) a,
       ts ++ [onWrite sid (if close then Some "End of file" else None)])
| LStepWriteFails a ts i sid m close sent ec :
    ended a = None → ops a !! i = Some (sid, OpWrite m close sent) →
    lstep (a, ts) (if sent then None else Some (Lost sid))
      (set_ops (delete i (ops a)) a, ts ++ [onWrite sid (Some ec)])
| LStepBlock a ts i b :
    ended a = None → blocks a !! i = Some b →
    lstep (a, ts) None (set_blocks (delete i (blocks a)) a, ts ++ [run_block b])
| LStepTimer a ts i d b :
    ended a = None → timers a !! i = Some (d, b) →
    lstep (a, ts) None (set_timers (delete i (timers a)) a, ts ++ [run_block b])
| LStepNotify a ts resp :
    ended a = None → is_Some (handler_of (world a)) →
    lstep (a, ts) None (a, ts ++ [zoom (notification_handler resp)])
| LStepThread a ts i t t' a' :
    ended a = None → ts !! i = Some t → tstep t a = Some (t', a') →
    lstep (a, ts) None (a', <[i := t']> ts)
| LStepCrash a ts i f :
    ended a = None → ts !! i = Some (TFail f) →
    lstep (a, ts) None (set_ended (Crashed f) a, ts).


Definition step (s s' : state) : Prop := ∃ l, lstep s l s'.
Definition reachable (s : state) : Prop := star step server_new s.

(** A run of the process, and what the peers have seen of it. *)
Inductive traced : list event → state → Prop :=
| TracedStart : traced [] server_new
| TracedStep tr s l s' : traced tr s → lstep s l s' → traced (tr ++ option_list l) s'.

Lemma StepRead a ts i sid r :
  ended a = None → ops a !! i = Some (sid, OpRead) →
  step (a, ts) (set_sessions (alter (set_request r) sid (sessions a))
                  (set_ops (delete i (ops a)) a), ts ++ [onRead sid None]).
Proof. eexists. by apply LStepRead. Qed.
Lemma StepSend a ts i sid m close res buffers :
  ended a = None → ops a !! i = Some (sid, OpWrite m close false) →
  messages a !! m = Some res → write_response res = Ok (buffers, close) →
  step (a, ts) (add_wire sid (str_concat buffers)
                  (set_ops (<[i := (sid, OpWrite m close true)]> (ops a)) a), ts).
Proof. eexists. by eapply LStepSend. Qed.
Lemma StepSendDangling a ts i sid m close :
  ended a = None → ops a !! i = Some (sid, OpWrite m close false) →
  messages a !! m = None →
  step (a, ts) (set_ended (Crashed (UndefinedBehavior "async_write: message destroyed")) a, ts).
Proof. eexists. by eapply LStepSendDangling. Qed.
Lemma StepBlock a ts i b :
  ended a = None → blocks a !! i = Some b →
  step (a, ts) (set_blocks (delete i (blocks a)) a, ts ++ [run_block b]).
Proof. eexists. by apply LStepBlock. Qed.
Lemma StepThread a ts i t t' a' :
  ended a = None → ts !! i = Some t → tstep t a = Some (t', a') →
  step (a, ts) (a', <[i := t']> ts).
Proof. eexists. by eapply LStepThread. Qed.
Lemma StepCrash a ts i f :
  ended a = None → ts !! i = Some (TFail f) →
  step (a, ts) (set_ended (Crashed f) a, ts).
Proof. eexists. by eapply LStepCrash. Qed.
Lemma StepAccept a ts ec :
  ended a = None → accepting a = true →
  step (a, ts) (set_accepting false a, ts ++ [onAccept ctx ec]).
Proof. eexists. by apply LStepAccept. Qed.
(** *** The same steps, executable *)

(** Which step to take. *)
Inductive move :=
| MAccept (ec : option string)
| MRead (i : nat) (r : request)
| MReadFails (i : nat) (ec : string)
| MSend (i : nat)
| MWritten (i : nat)
| MWriteFails (i : nat) (ec : string)
| MBlock (i : nat)
| MTimer (i : nat)
| MNotify (resp : response_ptr)
| MThread (i : nat).

Definition exec_move (m : move) (s : state) : option (option event * state) :=
  let '(a, ts) := s in
  if ended a then None else
  match m with
  | MAccept ec =>
      if accepting a then Some (None, (set_accepting false a, ts ++ [onAccept ctx ec])) else None
  | MRead i r =>
      match ops a !! i with
      | Some (sid, OpRead) =>
          Some (Some (Received sid r),
            (set_sessions (alter (set_request r) sid (sessions a)) (set_ops (delete i (ops a)) a),
             ts ++ [onRead sid None]))
      | _ => None
      end
  | MReadFails i ec =>
      match ops a !! i with
      | Some (sid, OpRead) =>
          Some (Some (HungUp sid), (set_ops (delete i (ops a)) a, ts ++ [onRead sid (Some ec)]))
      | _ => None
      end
  | MSend i =>
      match ops a !! i with
      | Some (sid, OpWrite m close false) =>
          match messages a !! m with
          | Some res =>
              match write_response res with
              | Ok (buffers, close') =>
                  if decide (close = close') then
                    Some (Some (Answered sid (str_concat buffers)),
                      (add_wire sid (str_concat buffers)
                         (set_ops (<[i := (sid, OpWrite m close true)]> (ops a)) a), ts))
                  else None
              | Fail _ => None
              end
          | None =>
              Some (None,
                (set_ended (Crashed (UndefinedBehavior "async_write: message destroyed")) a, ts))
          end
      | _ => None
      end
  | MWritten i =>
      match ops a !! i with
      | Some (sid, OpWrite m close true) =>
          Some (None, (set_ops (delete i (ops a)) a,
            ts ++ [onWrite sid (if close then Some "End of file" else None)]))
      | _ => None
      end
  | MWriteFails i ec =>
      match ops a !! i with
      | Some (sid, OpWrite m close sent) =>
          Some (if sent then None else Some (Lost sid),
            (set_ops (delete i (ops a)) a, ts ++ [onWrite sid (Some ec)]))
      | _ => None
      end
  | MBlock i =>
      b ← blocks a !! i; Some (None, (set_blocks (delete i (blocks a)) a, ts ++ [run_block b]))
  | MTimer i =>
      '(d, b) ← timers a !! i;
      Some (None, (set_timers (delete i (timers a)) a, ts ++ [run_block b]))
  | MNotify resp =>
      if handler_of (world a)
      then Some (None, (a, ts ++ [zoom (notification_handler resp)])) else None
  | MThread i =>
      t ← ts !! i;
      match t with
      | TFail f => Some (None, (set_ended (Crashed f) a, ts))
      | _ => '(t', a') ← tstep t a; Some (None, (a', <[i := t']> ts))
      end
  end.
Fixpoint exec (ms : list move) (s : state) : option (list event * state) :=
  match ms with
  | [] => Some ([], s)
  | m :: ms =>
      '(l, s) ← exec_move m s;
      '(tr, s) ← exec ms s;
      Some (option_list l ++ tr, s)
  end.

Lemma exec_move_sound m s l s' : exec_move m s = Some (l, s') → lstep s l s'.
Proof.
  destruct s as [a ts]. unfold exec_move. destruct (ended a) eqn:He; [done|]. intros E.
  destruct m as [ec|i r|i ec|i|i|i ec|i|i|resp|i].
  - destruct (accepting a) eqn:Ha; [|done]. injection E as <- <-. by constructor.
  - destruct (ops a !! i) as [[sid [|]]|] eqn:Hi; try done. injection E as <- <-. by constructor.
  - destruct (ops a !! i) as [[sid [|]]|] eqn:Hi; try done. injection E as <- <-. by constructor.
  - destruct (ops a !! i) as [[sid [|m close []]]|] eqn:Hi; try done.
    destruct (messages a !! m) as [res|] eqn:Hm.
    + destruct (write_response res) as [[bs close']|] eqn:Hw; [|done].
      destruct (decide (close = close')) as [<-|]; [|done]. injection E as <- <-. by econstructor.
    + injection E as <- <-. by econstructor.
  - destruct (ops a !! i) as [[sid [|m close []]]|] eqn:Hi; try done. injection E as <- <-.
    by econstructor.
  - destruct (ops a !! i) as [[sid [|m close sent]]|] eqn:Hi; try done. injection E as <- <-.
    by econstructor.
  - apply bind_Some in E as (b & Hb & E). injection E as <- <-. by constructor.
  - apply bind_Some in E as ([d b] & Hb & E). injection E as <- <-. by econstructor.
  - destruct (handler_of (world a)) eqn:Hh; [|done]. injection E as <- <-. constructor; [done|].
    by rewrite Hh.
  - apply bind_Some in E as (t & Ht & E). destruct t as [u|f|g|ready k].
    + done.
    + injection E as <- <-. by econstructor.
    + apply bind_Some in E as ([t' a'] & Hs & E). injection E as <- <-. by eapply LStepThread.
    + apply bind_Some in E as ([t' a'] & Hs & E). injection E as <- <-. by eapply LStepThread.
Qed.
Lemma exec_move_complete s l s' : lstep s l s' → ∃ m, exec_move m s = Some (l, s').
Proof.
  intros Hs. destruct Hs as [a ts ec He Ha|a ts i sid r He Hi|a ts i sid ec He Hi
    |a ts i sid m close res bs He Hi Hm Hw|a ts i sid m close He Hi Hm
    |a ts i sid m close He Hi|a ts i sid m close sent ec He Hi|a ts i b He Hi
    |a ts i d b He Hi|a ts resp He Hn|a ts i t t' a' He Hi Ht|a ts i f He Hi];
    [exists (MAccept ec)|exists (MRead i r)|exists (MReadFails i ec)|exists (MSend i)|exists (MSend i)
    |exists (MWritten i)|exists (MWriteFails i ec)|exists (MBlock i)|exists (MTimer i)
    |exists (MNotify resp)|exists (MThread i)|exists (MThread i)];
    unfold exec_move; rewrite He; rewrite ?Ha, ?Hi, ?Hm, ?Hw; try done.
  - by rewrite decide_True.
  - destruct Hn as [h ->]. done.
  - cbn [mbind option_bind]. destruct t; [done|done| |]; by rewrite Ht.
Qed.
Lemma exec_traced ms tr s tr' s' :
  traced tr s → exec ms s = Some (tr', s') → traced (tr ++ tr') s'.
Proof.
  revert tr s tr'; induction ms as [|m ms IH]; intros tr s tr' Ht E; cbn in E.
  - injection E as <- <-. by rewrite app_nil_r.
  - apply bind_Some in E as ([l s1] & Hm & E). apply bind_Some in E as ([tr1 s2] & Hms & E).
    injection E as <- <-. rewrite app_assoc. eapply IH; [|exact Hms].
    econstructor; [exact Ht|by eapply exec_move_sound].
Qed.
Lemma exec_run ms tr s : exec ms server_new = Some (tr, s) → traced tr s.
Proof. intros E. by apply (exec_traced ms [] server_new); [constructor|]. Qed.
End Steps.

(** ** What is under way for a session *)

Definition op_sids (os : list (nat * op)) : list nat := map fst os.
Definition block_sid (b : block) : option nat :=
  match b with BEndpoint _ sid | BSlow sid => Some sid | BExit _ => None end.
(** The sessions with something started that will go on with them. *)
Definition started (a : App) : list nat :=
  op_sids (ops a) ++ omap block_sid (blocks a) ++ omap block_sid (map snd (timers a)).

(** What a thread has to do with a session: nothing; it will read the next request; it
    answers the request [r]; it has made the message [m] that answers it. *)
Inductive holder :=
| Free
| Returning (sid : nat)
| Serving (sid : nat) (r : request)
| Sending (sid : nat) (r : request) (m : nat).
(** An operation, a block that is queued or due, a thread. *)
Inductive claim :=
| COp (sid : nat) (o : op)
| CBlock (b : block)
| CThread (h : holder).
Definition claim_sid (c : claim) : option nat :=
  match c with
  | COp sid _ | CThread (Returning sid | Serving sid _ | Sending sid _ _) => Some sid
  | CBlock b => block_sid b
  | CThread Free => None
  end.
Definition items (a : App) : list claim :=
  map (uncurry COp) (ops a) ++ map CBlock (blocks a) ++ map CBlock (map snd (timers a)).
Definition claims (a : App) (hs : list holder) : list claim := items a ++ map CThread hs.

Lemma started_items a : started a = omap claim_sid (items a).
Proof.
  unfold started, items, op_sids. rewrite !omap_app. f_equal; [|f_equal].
  - induction (ops a) as [|[sid o] os IH]; cbn; by rewrite ?IH.
  - induction (blocks a) as [|b bs IH]; cbn; by rewrite ?IH.
  - induction (map snd (timers a)) as [|b bs IH]; cbn; by rewrite ?IH.
Qed.

Section Claims.
Context `{Resources}.

(** The session's request is [r]; the message [m], while it exists, answers [r]. *)
Definition current (a : App) (sid : nat) (r : request) : Prop :=
  sid < next_session a ∧
  ∃ s, sessions a !! sid = Some s ∧ s_request s = r ∧ s_endpoints s = endpoint_table ∧ heard r.
Definition known (a : App) (m : nat) (r : request) : Prop :=
  m < next_message a ∧ ∀ res, messages a !! m = Some res → answers r res.

(** What a thread can count on. *)
Definition rely (h : holder) (a : App) : Prop :=
  match h with
  | Free => True
  | Returning sid => ∃ r, current a sid r
  | Serving sid r => current a sid r
  | Sending sid r m => current a sid r ∧ known a m r
  end.
(** What must be so of the session of a claim, in its phase. *)
Definition claim_ok (γ : phases) (a : App) (c : claim) : Prop :=
  match c with
  | COp sid (OpRead | OpWrite _ _ true) => γ sid = Idle ∧ ∃ r, current a sid r
  | COp sid (OpWrite m _ false) => ∃ r, γ sid = Busy r ∧ current a sid r ∧ known a m r
  | CBlock (BEndpoint e sid) =>
      ∃ r, γ sid = Busy r ∧ current a sid r ∧ endpoint_table !! req_url r = Some e
  | CBlock (BSlow sid) =>
      ∃ r, γ sid = Busy r ∧ current a sid r ∧ endpoint_table !! req_url r = Some SlowTest
  | CBlock (BExit _) => True
  | CThread h =>
      rely h a ∧
      match h with
      | Free => True
      | Returning sid => γ sid = Idle
      | Serving sid r | Sending sid r _ => γ sid = Busy r
      end
  end.

(** The other threads' doing leaves what is so of sessions and messages. *)
Definition harmless (a a' : App) : Prop :=
  (∀ sid r, current a sid r → current a' sid r) ∧ (∀ m r, known a m r → known a' m r) ∧
  wire a' = wire a.
(** Nothing is started either. *)
Definition idle (a a' : App) : Prop :=
  harmless a a' ∧ items a' = items a ∧ next_session a' = next_session a.

(** What a holder starts, to have nothing more to do with the session. *)
Inductive hands : holder → claim → Prop :=
| HandsRead sid : hands (Returning sid) (COp sid OpRead)
| HandsWrite sid r m close : hands (Sending sid r m) (COp sid (OpWrite m close false))
| HandsEndpoint sid r e :
    endpoint_table !! req_url r = Some e → hands (Serving sid r) (CBlock (BEndpoint e sid))
| HandsSlow sid r :
    endpoint_table !! req_url r = Some SlowTest → hands (Serving sid r) (CBlock (BSlow sid)).

(** What an atom of a thread does. *)
Inductive transfer (a a' : App) : holder → holder → Prop :=
| TransferNone h : idle a a' → transfer a a' h h
| TransferExit h sid :
    harmless a a' → items a' ≡ₚ CBlock (BExit sid) :: items a →
    next_session a' = next_session a → transfer a a' h h
| TransferMessage sid r m :
    idle a a' → known a' m r → transfer a a' (Serving sid r) (Sending sid r m)
| TransferStart h c :
    hands h c → harmless a a' → items a' ≡ₚ c :: items a →
    next_session a' = next_session a → transfer a a' h Free
| TransferNew :
    harmless a a' → items a' = items a → next_session a' = S (next_session a) →
    (∃ r, current a' (next_session a) r) → transfer a a' Free (Returning (next_session a)).

(** The thread, holding [g] of what the process owns. *)
Fixpoint obeys (t : thread App unit) (h : holder) (g : resource) : Prop :=
  match t with
  | TRet _ => h = Free ∧ spare g
  | TFail _ => True
  | TAtom m => ∀ a, rely h a → holds uses g a → let '(t', a') := m a in
      acts uses g a a' (λ g', ∃ h', obeys t' h' g' ∧ transfer a a' h h')
  | TWait ready k =>
      stalls uses g ready ∧
      ∀ a v, holds uses g a → ready a = Some (Ok v) → obeys (k v) h g
  end.

(** An atom that has nothing to do with the completer. *)
Definition elsewhere (a a' : App) : Prop :=
  calls_of (world a') = calls_of (world a) ∧ channel_of (world a') = channel_of (world a).
Definition aside (a a' : App) : Prop := idle a a' ∧ elsewhere a a'.
End Claims.

(** Every atom of the thread changes the state as [R] allows. *)
Fixpoint keeps {A} (R : App → App → Prop) (t : thread App A) : Prop :=
  match t with
  | TRet _ | TFail _ => True
  | TAtom m => ∀ a, let '(t', a') := m a in keeps R t' ∧ R a a'
  | TWait _ k => ∀ v, keeps R (k v)
  end.
(** A thread that does nothing to the sessions. *)
Notation neutral := (keeps idle).

Lemma keeps_bind {A B} R (t : thread App A) (k : A → thread App B) :
  keeps R t → (∀ x, keeps R (k x)) → keeps R (t ≫= k).
Proof.
  intros Ht Hk. induction t as [u|f|m IH|r k' IH] using thread_ind'; cbn in *.
  - apply Hk.
  - done.
  - intros a. specialize (Ht a). specialize (IH a). destruct (m a) as [t' a'].
    destruct Ht as (Ht & Hs). split; [by apply IH|done].
  - intros v. by apply IH.
Qed.
Lemma keeps_zoom {A} (R : App → App → Prop) (t : thread World A) :
  (∀ a w, R a (set_world w a)) → keeps R (zoom t).
Proof.
  intros HR. induction t as [u|f|m IH|r k IH] using thread_ind'; cbn; try done.
  intros a. specialize (IH (world a)). destruct (m (world a)). by split; [|apply HR].
Qed.
Lemma keeps_outcome {A} R (o : outcome A) : keeps R (of_outcome o : thread App A).
Proof. by destruct o. Qed.
Lemma keeps_gets {A} (R : App → App → Prop) (g : App → A) :
  (∀ a, R a a) → keeps R (gets g).
Proof. intros HR a. by split. Qed.
Lemma keeps_modify (R : App → App → Prop) (g : App → App) :
  (∀ a, R a (g a)) → keeps R (modify g).
Proof. intros HR a. by split. Qed.

Section Obeys.
Context `{Resources}.
(** A thread that does something aside of the sessions and the completer, and waits for
    nothing. *)
Definition calm {A} (t : thread App A) : Prop := keeps aside t ∧ waitless t.

Lemma harmless_same a a' :
  sessions a' = sessions a → next_session a' = next_session a → messages a' = messages a →
  next_message a' = next_message a → wire a' = wire a → harmless a a'.
Proof. unfold harmless, current, known. by intros -> -> -> -> ->. Qed.
Lemma idle_same a a' :
  sessions a' = sessions a → next_session a' = next_session a → messages a' = messages a →
  next_message a' = next_message a → wire a' = wire a → items a' = items a → idle a a'.
Proof. intros. split; [by apply harmless_same|done]. Qed.
Lemma idle_refl a : idle a a.
Proof. by apply idle_same. Qed.

Lemma aside_same a a' :
  sessions a' = sessions a → next_session a' = next_session a → messages a' = messages a →
  next_message a' = next_message a → wire a' = wire a → items a' = items a → elsewhere a a' →
  aside a a'.
Proof. intros. split; [by apply idle_same|done]. Qed.
Lemma aside_refl a : aside a a.
Proof. by apply aside_same. Qed.

(** A thread that does nothing to the sessions, and what it returns holding. *)
Lemma obeys_bind {A} h (Q : A → resource → Prop) (t : thread App A) k g :
  neutral t → owns uses Q t g → (∀ x g', Q x g' → obeys (k x) h g') → obeys (t ≫= k) h g.
Proof.
  intros Ht Hq Hk. revert g Hq.
  induction t as [u|f|m IH|r k' IH] using thread_ind'; intros g Hq; cbn in *; [by apply Hk|done|..].
  - intros a _ Ha. specialize (Ht a). specialize (IH a). specialize (Hq a Ha).
    destruct (m a) as [t' a']. destruct Ht as (Ht & Hi). eapply uses_mono; [exact Hq|].
    intros g' Hg'. exists h. split; [by apply IH|by apply TransferNone].
  - destruct Hq as [Hs Hq]. split; [done|]. intros a v Ha Hv. apply IH; [done|]. by eapply Hq.
Qed.
Lemma obeys_free (t : thread App unit) g :
  neutral t → owns uses (λ _ g', spare g') t g → obeys t Free g.
Proof.
  revert g. induction t as [u|f|m IH|r k IH] using thread_ind'; intros g Ht Hq; cbn in *; [done..| |].
  - intros a _ Ha. specialize (Ht a). specialize (IH a). specialize (Hq a Ha).
    destruct (m a) as [t' a']. destruct Ht as (Ht & Hi). eapply uses_mono; [exact Hq|].
    intros g' Hg'. exists Free. split; [by apply IH|by apply TransferNone].
  - destruct Hq as [Hs Hq]. split; [done|]. intros a v Ha Hv. apply IH; [done|]. by eapply Hq.
Qed.
Lemma calm_neutral {A} (t : thread App A) : calm t → neutral t.
Proof.
  intros [Ht _]. induction t as [u|f|m IH|r k IH] using thread_ind'; cbn; try done.
  - intros a. specialize (Ht a). specialize (IH a). destruct (m a) as [t' a'].
    destruct Ht as [Ht [Hi _]]. split; [by apply IH|done].
  - intros v. by apply IH.
Qed.
Lemma owns_calm {A} (t : thread App A) g : calm t → owns uses (λ _ g', g' = g) t g.
Proof.
  intros [Ht Hw]. induction t as [u|f|m IH|r k IH] using thread_ind'; cbn; try done.
  intros a _. specialize (Ht a). specialize (Hw a). specialize (IH a). destruct (m a) as [t' a'].
  destruct Ht as (Ht & _ & [? ?]). apply uses_elsewhere; [done..|]. by apply IH.
Qed.
Lemma obeys_calm {A} h (t : thread App A) k g :
  calm t → (∀ x, obeys (k x) h g) → obeys (t ≫= k) h g.
Proof.
  intros Ht Hk. eapply obeys_bind; [by apply calm_neutral|by apply owns_calm|].
  by intros x g' ->.
Qed.
Lemma obeys_last (t : thread App unit) g : calm t → spare g → obeys t Free g.
Proof.
  intros Ht Hg. apply obeys_free; [by apply calm_neutral|].
  owns_weaken; [by apply owns_calm|]. by intros _ g' ->.
Qed.
Lemma obeys_calm_bind {A B} h (t : thread App A) (f : A → thread App B) k g :
  calm t → (∀ x, obeys (f x ≫= k) h g) → obeys ((t ≫= f) ≫= k) h g.
Proof.
  intros [Ht Hw] Hk. induction t as [u|e|m IH|r k' IH] using thread_ind'; cbn in *; [apply Hk|done| |done].
  intros a _ _. specialize (Ht a). specialize (Hw a). specialize (IH a). destruct (m a) as [t' a'].
  destruct Ht as (Ht & Hi & [? ?]). apply uses_elsewhere; [done..|].
  exists h. split; [by apply IH|by apply TransferNone].
Qed.
Lemma calm_bind {A B} (t : thread App A) (k : A → thread App B) :
  calm t → (∀ x, calm (k x)) → calm (t ≫= k).
Proof.
  intros [Ht Hw] Hk. split; [apply keeps_bind|apply waitless_bind]; try done; intros x; apply Hk.
Qed.
Lemma calm_ret {A} (x : A) : calm (mret x : thread App A).
Proof. done. Qed.
Lemma calm_modify (f : App → App) : (∀ a, aside a (f a)) → calm (modify f).
Proof. intros Hf. split; [by apply keeps_modify|done]. Qed.
Lemma calm_gets {A} (f : App → A) : calm (gets f).
Proof. split; [apply keeps_gets, aside_refl|done]. Qed.
Lemma calm_console {A} (t : thread console A) :
  waitless t → calm (zoom (zoom t : thread World A)).
Proof.
  intros Ht. split; [|by apply waitless_zoom, waitless_zoom]. clear Ht.
  induction t as [u|f|m IH|r k IH] using thread_ind'; cbn; try done.
  intros a. specialize (IH (console_of (world a))). destruct (m (console_of (world a))).
  split; [done|]. by apply aside_same.
Qed.
Lemma neutral_zoom {A} (t : thread World A) : neutral (zoom t).
Proof. apply keeps_zoom. intros. by apply idle_same. Qed.
Lemma calm_tells lg msg : calm (tells lg msg).
Proof. apply calm_console, waitless_log. Qed.
Lemma calm_log_each lg prefix flags : calm (log_each lg prefix flags).
Proof.
  induction flags as [|f flags IH]; [done|]. cbn [log_each].
  do 2 (apply calm_bind; [apply calm_tells|intros _]). exact IH.
Qed.
Lemma obeys_tells lg msg h k g : obeys k h g → obeys (_ ← tells lg msg; k) h g.
Proof. intros Hk. apply obeys_calm; [apply calm_tells|done]. Qed.
Lemma obeys_outcome {A} (o : outcome A) h k g :
  (∀ x, o = Ok x → obeys (k x) h g) → obeys (of_outcome o ≫= k) h g.
Proof. destruct o as [x|f]; [|done]. intros Hk. by apply Hk. Qed.

(** A thread that is about a session finds it. *)
Lemma obeys_with_session sid h k g :
  (∀ a s, rely h a → sessions a !! sid = Some s → obeys (k s) h g) → obeys (with_session sid k) h g.
Proof.
  intros Hk a Ha _. cbn. apply uses_elsewhere; [done..|].
  exists h. split; [|apply TransferNone, idle_refl].
  destruct (sessions a !! sid) as [s|] eqn:Es; [by eapply Hk|done].
Qed.
Lemma obeys_serving sid r k g :
  (∀ s, s_request s = r → s_endpoints s = endpoint_table → heard r →
    obeys (k s) (Serving sid r) g) →
  obeys (with_session sid k) (Serving sid r) g.
Proof.
  intros Hk. apply obeys_with_session. intros a s (_ & s' & Es' & Hr & Ht & Hh) Es.
  rewrite Es in Es'. injection Es' as <-. by apply Hk.
Qed.

(** An atom that starts something. *)
Lemma obeys_start h c (f : App → App) g :
  hands h c → (∀ a, items (f a) ≡ₚ c :: items a) →
  (∀ a, harmless a (f a) ∧ next_session (f a) = next_session a) → (∀ a, elsewhere a (f a)) →
  spare g → obeys (modify f) h g.
Proof.
  intros Hh Hi Hf He Hg a _ _. cbn. destruct (He a). apply uses_elsewhere; [done..|].
  exists Free. destruct (Hf a). split; [done|]. by eapply TransferStart.
Qed.
Lemma items_op sid o a : items (set_ops (ops a ++ [(sid, o)]) a) ≡ₚ COp sid o :: items a.
Proof. unfold items. cbn. rewrite map_app, <- app_assoc. cbn. symmetry. apply Permutation_middle. Qed.
Lemma items_block b a : items (set_blocks (blocks a ++ [b]) a) ≡ₚ CBlock b :: items a.
Proof.
  unfold items. cbn. rewrite !map_app, <- (app_assoc _ [CBlock b]). cbn.
  rewrite (app_assoc _ (map CBlock (blocks a)) (CBlock b :: _)), app_assoc.
  symmetry. apply Permutation_middle.
Qed.
Lemma items_timer d b a : items (set_timers (timers a ++ [(d, b)]) a) ≡ₚ CBlock b :: items a.
Proof.
  unfold items. cbn. rewrite !map_app, !app_assoc. symmetry. apply Permutation_cons_append.
Qed.
Lemma obeys_start_op h sid o g : hands h (COp sid o) → spare g → obeys (start_op sid o) h g.
Proof.
  intros Hh. eapply obeys_start; [exact Hh|apply items_op| |done]. intros a. split; [|done].
  by apply harmless_same.
Qed.

Lemma known_fresh a m r res :
  known a m r → known (set_messages (<[next_message a := res]> (messages a)) (S (next_message a)) a) m r.
Proof.
  intros [Hm Hk]. split; cbn; [lia|]. intros res'. rewrite lookup_insert_ne by lia. apply Hk.
Qed.
Lemma known_delete a m m' r :
  known a m r → known (set_messages (delete m' (messages a)) (next_message a) a) m r.
Proof.
  intros [Hm Hk]. split; [done|]. cbn. intros res [_ Hr]%lookup_delete_Some. by apply Hk.
Qed.
Lemma obeys_session_write sid r res g :
  answers r res → spare g → obeys (session_write sid res) (Serving sid r) g.
Proof.
  intros Hans Hg a Ha _. cbn. set (m := next_message a). apply uses_elsewhere; [done..|].
  exists (Sending sid r m). split.
  - apply obeys_outcome. intros [bs close] _. intros a1 _ _. cbn.
    apply uses_elsewhere; [done..|]. exists Free. split.
    + intros a2 _ _. cbn. apply uses_elsewhere; [done..|]. exists Free. split; [done|].
      apply TransferNone.
      split; [|done]. split; [done|split; [|done]]. intros ? ?. apply known_delete.
    + eapply TransferStart; [apply HandsWrite|by apply harmless_same|apply items_op|done].
  - apply TransferMessage.
    + split; [|done]. split; [done|split; [|done]]. intros ? ?. apply known_fresh.
    + split; cbn; [lia|]. intros res'. rewrite lookup_insert_eq. by intros [= <-].
Qed.
Lemma obeys_respond sid e r body g :
  endpoint_table !! req_url r = Some e → reply_of e r body → spare g →
  obeys (respond sid (build_response 200 EmptyString (req_version r) body)) (Serving sid r) g.
Proof.
  intros He Hb Hg. apply obeys_outcome. intros res Hp. apply obeys_session_write; [|done].
  by eapply AnswersEndpoint.
Qed.

(** *** The handlers *)

Lemma current_endpoint a sid e sid' r :
  current a sid r →
  current (set_sessions (alter (set_endpoint e) sid' (sessions a)) a) sid r.
Proof.
  intros (Hn & s & Es & Hs). split; [done|]. cbn.
  destruct (decide (sid' = sid)) as [->|Hne].
  - exists (set_endpoint e s). by rewrite lookup_alter_eq, Es.
  - exists s. by rewrite lookup_alter_ne.
Qed.
Lemma obeys_handleRequest e sid r g :
  endpoint_table !! req_url r = Some e → spare g → obeys (handleRequest e sid) (Serving sid r) g.
Proof.
  intros He Hg. apply obeys_serving. intros s Hr Ht _. do 2 apply obeys_tells.
  eapply obeys_start; [by apply HandsEndpoint|apply items_block| |done|done].
  intros a. split; [by apply harmless_same|done].
Qed.
Lemma obeys_onRead sid r g : spare g → obeys (onRead sid None) (Serving sid r) g.
Proof.
  intros Hg. apply obeys_serving. intros s Hr Ht _. do 3 apply obeys_tells. rewrite Hr, Ht.
  destruct (endpoint_table !! req_url r) as [e|] eqn:He.
  - apply obeys_tells. apply obeys_calm; [|by intros _; apply obeys_handleRequest].
    apply calm_modify. intros a. split; [|done]. split; [|done].
    split; [intros ? ?; apply current_endpoint|done].
  - apply obeys_outcome. intros res Hres. apply obeys_session_write; [|done].
    by apply AnswersNotFound.
Qed.
Lemma obeys_read_failed sid ec g : spare g → obeys (onRead sid (Some ec)) Free g.
Proof.
  intros Hg. apply obeys_with_session. intros a s _ _. apply obeys_tells.
  apply obeys_last; [apply calm_tells|done].
Qed.
Lemma obeys_onWrite sid ec g : spare g → obeys (onWrite sid ec) (Returning sid) g.
Proof.
  intros Hg. apply obeys_with_session. intros a s _ _. apply obeys_calm.
  - destruct ec; [apply calm_tells|done].
  - intros _. apply obeys_start_op; [apply HandsRead|done].
Qed.
Lemma obeys_onAccept ctx ec g : spare g → obeys (onAccept ctx ec) Free g.
Proof.
  intros Hg. apply obeys_calm; [apply calm_gets|]. intros [|]; cbn [negb]; [|done].
  destruct ec as [ec|]; [apply obeys_last; [by apply calm_console|done]|].
  apply obeys_calm; [apply calm_modify; intros; by apply aside_same|]. intros _.
  apply obeys_calm_bind; [apply calm_console, waitless_log|]. intros _ a _ _. cbn.
  apply uses_elsewhere; [done..|]. exists (Returning (next_session a)). split.
  - apply obeys_start_op; [apply HandsRead|done].
  - apply TransferNew; [|done|done|].
    + split; [|done]. intros sid r (Hn & s & Es & Hs). split; [cbn; lia|].
      exists s. split; [|done]. cbn. rewrite lookup_insert_ne by lia. done.
    + eexists. split; [cbn; lia|]. eexists. split; [apply lookup_insert_eq|].
      split; [done|]. split; [done|apply heard_no_request].
Qed.

Lemma obeys_dispatch_exit seconds sid h k g :
  obeys k h g → obeys (_ ← dispatch_after seconds (BExit sid); k) h g.
Proof.
  intros Hk a _ _. cbn. apply uses_elsewhere; [done..|]. exists h. split; [done|].
  eapply TransferExit; [by apply harmless_same|apply items_timer|done].
Qed.
Lemma obeys_endpoint e sid r g :
  endpoint_table !! req_url r = Some e → spare g → obeys (start_endpoint e sid) (Serving sid r) g.
Proof.
  intros He Hg. destruct e; cbn [start_endpoint]; [..|].
  - apply obeys_serving. intros s -> _ _. by eapply obeys_respond.
  - apply obeys_serving. intros s -> _ _. apply obeys_tells.
    apply obeys_outcome. intros res Hres. apply obeys_dispatch_exit.
    apply obeys_session_write; [|done]. by eapply AnswersEndpoint.
  - apply obeys_serving. intros s -> _ Hh. apply obeys_tells.
    apply obeys_outcome. intros q Hq. do 6 apply obeys_tells.
    apply obeys_calm; [apply calm_log_each|intros _]. apply obeys_tells.
    eapply obeys_bind; [apply neutral_zoom|by apply (candidates_returns _ r)|].
    cbv beta. intros cs g' [Hg' Hcs]. apply obeys_tells.
    apply obeys_calm; [apply calm_console, waitless_log|intros _]. by eapply obeys_respond.
  - apply obeys_serving. intros s -> _ Hh. apply obeys_tells.
    apply obeys_outcome. intros q Hq. do 2 apply obeys_tells.
    apply obeys_calm; [apply calm_log_each|intros _]. apply obeys_tells.
    eapply obeys_bind; [apply neutral_zoom|by apply (diagnostics_returns _ r)|].
    cbv beta. intros cs g' [Hg' Hcs]. apply obeys_tells.
    apply obeys_calm; [apply calm_console, waitless_log|intros _]. by eapply obeys_respond.
  - eapply obeys_start; [by apply HandsSlow|apply items_timer| |done|done].
    intros a. split; [by apply harmless_same|done].
Qed.
Lemma obeys_notification resp g : spare g → obeys (zoom (notification_handler resp)) Free g.
Proof. intros Hg. apply obeys_free; [apply neutral_zoom|by apply notification_returns]. Qed.

(** The holder a block is run for. *)
Definition block_holder (b : block) (r : request) : holder :=
  match b with BEndpoint _ sid | BSlow sid => Serving sid r | BExit _ => Free end.
Definition block_for (b : block) (r : request) : Prop :=
  match b with
  | BEndpoint e _ => endpoint_table !! req_url r = Some e
  | BSlow _ => endpoint_table !! req_url r = Some SlowTest
  | BExit _ => True
  end.
Lemma obeys_block b r g : block_for b r → spare g → obeys (run_block b) (block_holder b r) g.
Proof.
  destruct b as [e sid|sid|sid]; cbn [run_block block_holder block_for]; intros Hb Hg.
  - apply obeys_serving. intros s _ _ _. by apply obeys_tells, obeys_endpoint.
  - apply obeys_with_session. intros a s _ _. apply obeys_tells, obeys_last; [|done].
    apply calm_modify. intros. by apply aside_same.
  - apply obeys_serving. intros s -> _ _. do 2 apply obeys_tells. by eapply obeys_respond.
Qed.
End Obeys.

(** ** The invariant *)

Section Invariant.
Context `{Resources} (ctx : ServiceContext).

(** Sessions yet to come are idle. *)
Definition fresh (γ : phases) (a : App) : Prop := ∀ sid, next_session a ≤ sid → γ sid = Idle.
(** What the process owns is shared out among its threads; there is at most one claim to a
    session, it fits the session's phase, and there is one unless the session has been
    closed. *)
Definition inv_by (hs : list (holder * resource)) (γ : phases) (s : state) : Prop :=
  Forall2 (λ t h, obeys t h.1 h.2) s.2 hs ∧ shared_out hs.*2 s.1 ∧
  Forall (claim_ok γ s.1) (claims s.1 hs.*1) ∧
  NoDup (omap claim_sid (claims s.1 hs.*1)) ∧ fresh γ s.1 ∧
  ∀ sid, sid < next_session s.1 → γ sid = Closed ∨ sid ∈ omap claim_sid (claims s.1 hs.*1).
Definition inv (γ : phases) (s : state) : Prop := ∃ hs, inv_by hs γ s.

Lemma one_claim c sid : sid ∈ omap claim_sid [c] ↔ claim_sid c = Some sid.
Proof.
  cbn -[claim_sid]. destruct (claim_sid c); [|by rewrite elem_of_nil].
  rewrite list_elem_of_singleton. naive_solver.
Qed.
Lemma one_claim_NoDup c : NoDup (omap claim_sid [c]).
Proof. cbn -[claim_sid]. destruct (claim_sid c); [apply NoDup_singleton|constructor]. Qed.
Lemma claim_current γ a c sid : claim_ok γ a c → claim_sid c = Some sid → ∃ r, current a sid r.
Proof.
  destruct c as [sid' [|m close []]|[e sid'|sid'|sid']|[|sid'|sid' r|sid' r m]]; cbn; naive_solver.
Qed.

(** A change that is about the sessions of the claims [cs] only. *)
Definition spares (cs : list claim) (γ γ' : phases) (a a' : App) : Prop :=
  (∀ sid, sid ∉ omap claim_sid cs →
    γ' sid = γ sid ∧ ∀ r, current a sid r → current a' sid r) ∧
  (∀ m r, known a m r → known a' m r).
Lemma claim_ok_spared cs γ γ' a a' c :
  spares cs γ γ' a a' → claim_ok γ a c →
  (∀ sid, claim_sid c = Some sid → sid ∉ omap claim_sid cs) → claim_ok γ' a' c.
Proof.
  intros [Hc Hk] Hok Hs. destruct (claim_sid c) as [sid|] eqn:Ec.
  - destruct (Hc sid (Hs sid eq_refl)) as [Hγ Hcur].
    destruct c as [sid' [|m close []]|[e sid'|sid'|sid']|[|sid'|sid' r|sid' r m]]; cbn in *;
      simplify_eq; rewrite Hγ; naive_solver.
  - by destruct c as [sid' []|[]|[]].
Qed.
Lemma spares_harmless cs γ a a' : harmless a a' → spares cs γ γ a a'.
Proof. intros (Hc & Hk & _). split; [|done]. intros sid _. split; [done|]. apply Hc. Qed.

Lemma inv_change γ γ' a a' ts' hs hs' cs cs' rest :
  Forall (claim_ok γ a) (claims a hs) → NoDup (omap claim_sid (claims a hs)) →
  claims a hs ≡ₚ cs ++ rest → claims a' hs'.*1 ≡ₚ cs' ++ rest →
  Forall2 (λ t h, obeys t h.1 h.2) ts' hs' → shared_out hs'.*2 a' → spares cs γ γ' a a' → Forall (claim_ok γ' a') cs' →
  NoDup (omap claim_sid cs') →
  (∀ sid, sid ∈ omap claim_sid cs' → sid ∈ omap claim_sid cs ∨ next_session a ≤ sid) →
  fresh γ' a' →
  (∀ sid, sid < next_session a → γ sid = Closed ∨ sid ∈ omap claim_sid (claims a hs)) →
  (∀ sid, sid ∈ omap claim_sid cs ∨ next_session a ≤ sid < next_session a' →
    γ' sid = Closed ∨ sid ∈ omap claim_sid cs') →
  inv γ' (a', ts').
Proof.
  intros Hok Hnd Hp Hp' Hob Hsh Hsp Hok' Hnd' Hsub Hf Hall Hkept. exists hs'. unfold inv_by. cbn [fst snd].
  assert (∀ sid, sid ∈ omap claim_sid (claims a hs) → sid ∈ omap claim_sid cs ∨ sid ∈ omap claim_sid rest)
    as Hall' by (intros sid; rewrite Hp, omap_app; apply elem_of_app).
  assert (∀ sid, sid ∈ omap claim_sid cs' ∨ sid ∈ omap claim_sid rest → sid ∈ omap claim_sid (claims a' hs'.*1))
    as Hin' by (intros sid; rewrite Hp', omap_app; apply elem_of_app).
  rewrite Hp in Hok, Hnd. rewrite omap_app in Hnd.
  assert (NoDup (omap claim_sid cs' ++ omap claim_sid rest) →
    NoDup (omap claim_sid (claims a' hs'.*1))) as Hnd0 by by rewrite Hp', omap_app.
  apply Forall_app in Hok as [_ Hrest]. apply NoDup_app in Hnd as (_ & Hdis & Hndr).
  assert (∀ c sid, c ∈ rest → claim_sid c = Some sid → sid ∈ omap claim_sid rest) as Hin
    by (intros; apply list_elem_of_omap; eauto).
  split; [done|]. split; [done|]. split; [rewrite Hp'|split; [apply Hnd0|split; [done|]]].
  - apply Forall_app. split; [done|]. rewrite Forall_forall in Hrest |- *. intros c Hc.
    eapply claim_ok_spared; [exact Hsp|by apply Hrest|]. intros sid Es Hcs.
    by eapply Hdis, Hin.
  - apply NoDup_app. split; [done|]. split; [|done]. intros sid Hs Hr.
    destruct (Hsub sid Hs) as [Hcs|Hge]; [by eapply Hdis|].
    apply list_elem_of_omap in Hr as (c & Hc & Es). rewrite Forall_forall in Hrest.
    destruct (claim_current _ _ _ _ (Hrest c Hc) Es) as (r & Hlt & _). lia.
  - intros sid Hlt. destruct (decide (sid ∈ omap claim_sid cs)) as [Hc|Hni].
    { destruct (Hkept sid) as [?|?]; auto. }
    destruct (decide (sid < next_session a)) as [Hlt'|Hge].
    + destruct (Hall sid Hlt') as [Hcl|Hs].
      * left. destruct Hsp as [Hsp _]. by rewrite (proj1 (Hsp sid Hni)).
      * right. apply Hin'. destruct (Hall' sid Hs); [done|by right].
    + destruct (Hkept sid) as [?|?]; [right; lia|by left|right; apply Hin'; by left].
Qed.
Lemma claims_snoc a hs h : claims a (hs ++ [h]) ≡ₚ CThread h :: claims a hs.
Proof.
  unfold claims. rewrite map_app, app_assoc. symmetry. apply Permutation_cons_append.
Qed.
(** Something started, or nothing, goes on in a new thread. *)
Lemma inv_spawn γ γ' a a' ts t h cs :
  inv γ (a, ts) → obeys t h nothing → world a' = world a →
  items a ≡ₚ cs ++ items a' → spares cs γ γ' a a' →
  claim_ok γ' a' (CThread h) →
  (∀ sid, claim_sid (CThread h) = Some sid → sid ∈ omap claim_sid cs) →
  (∀ sid, sid ∈ omap claim_sid cs → γ' sid = Closed ∨ claim_sid (CThread h) = Some sid) →
  fresh γ' a' → next_session a' = next_session a → inv γ' (a', ts ++ [t]).
Proof.
  intros (hs & Hob & Hsh & Hok & Hnd & _ & Hall) Ht Hw Hi Hsp Hh Hsid Hkept Hf Hn. cbn [fst snd] in *.
  eapply (inv_change γ γ' a a' _ hs.*1 (hs ++ [(h, nothing)]) cs [CThread h] (claims a' hs.*1));
    [done|done| | | | |done| | | |done|done|].
  - unfold claims. by rewrite Hi, app_assoc.
  - rewrite fmap_app. apply claims_snoc.
  - apply Forall2_app; [done|by constructor].
  - rewrite fmap_app. apply shared_join. by eapply shared_elsewhere.
  - by constructor.
  - apply one_claim_NoDup.
  - intros sid Hs%one_claim. left. by apply Hsid.
  - intros sid [Hs|?]; [|lia]. rewrite one_claim. by apply Hkept.
Qed.
Lemma list_delete_insert_same {A} (l : list A) i x : delete i (<[i := x]> l) = delete i l.
Proof. revert i; induction l as [|y l IH]; intros [|i]; [done..|]. cbn. f_equal. apply IH. Qed.
Lemma claims_thread a hs i h :
  hs !! i = Some h → claims a hs ≡ₚ CThread h :: claims a (delete i hs).
Proof.
  intros Hi. unfold claims. rewrite (delete_Permutation _ _ _ Hi) at 1. cbn.
  symmetry. apply Permutation_middle.
Qed.
Lemma claims_insert a hs i h h' :
  hs !! i = Some h → claims a (<[i := h']> hs) ≡ₚ CThread h' :: claims a (delete i hs).
Proof.
  intros Hi. assert (i < length hs) as Hl by (by eapply lookup_lt_Some).
  rewrite (claims_thread a _ i h') by (by apply list_lookup_insert_eq).
  by rewrite list_delete_insert_same.
Qed.

Lemma inv_thread γ a ts i t t' a' :
  inv γ (a, ts) → ts !! i = Some t → tstep t a = Some (t', a') → possible a' →
  inv γ (a', <[i := t']> ts) ∧ wire a' = wire a.
Proof.
  intros (hs & Hob & Hsh & Hok & Hnd & Hf & Hall) Hi Ht Hpos. cbn [fst snd] in *.
  destruct (Forall2_lookup_l _ _ _ _ _ Hob Hi) as ([h g] & Hhg & Hot). cbn [fst snd] in Hot.
  assert (hs.*1 !! i = Some h) as Hh by by rewrite list_lookup_fmap, Hhg.
  assert (hs.*2 !! i = Some g) as Hg by by rewrite list_lookup_fmap, Hhg.
  pose proof (claims_thread a hs.*1 i h Hh) as Hp.
  assert (claim_ok γ a (CThread h)) as Hhok.
  { rewrite Hp in Hok. by apply Forall_cons in Hok as [? _]. }
  assert (∃ h' g', obeys t' h' g' ∧ transfer a a' h h' ∧ shared_out (<[i := g']> hs.*2) a')
    as (h' & g' & Ho' & Htr & Hsh').
  { pose proof (shared_has _ _ _ _ Hsh Hg) as Hhas.
    destruct t as [u|f|m|r k]; cbn in Ht, Hot; [done|done| |].
    - specialize (Hot a (proj1 Hhok) Hhas). destruct (m a) as [t1 a1]. simplify_eq.
      destruct (shared_uses _ _ _ _ _ _ Hsh Hg Hot Hpos) as (g' & (h' & Ho & Htr) & Hsh').
      by exists h', g'.
    - destruct (r a) as [[v|f]|] eqn:Er; cbn in Ht; simplify_eq; exists h, g;
        rewrite list_insert_id by done;
        (split; [|split; [apply TransferNone, idle_refl|done]]); [by eapply (proj2 Hot)|done]. }
  assert (Forall2 (λ t h, obeys t h.1 h.2) (<[i := t']> ts) (<[i := (h', g')]> hs)) as Hob'
    by by apply Forall2_insert.
  pose proof (claims_insert a' hs.*1 i h h' Hh) as Hp'.
  assert (∀ cs, harmless a a' → items a' ≡ₚ cs ++ items a →
    next_session a ≤ next_session a' → Forall (claim_ok γ a') (CThread h' :: cs) →
    NoDup (omap claim_sid (CThread h' :: cs)) →
    (∀ sid, sid ∈ omap claim_sid (CThread h' :: cs) →
      claim_sid (CThread h) = Some sid ∨ next_session a ≤ sid) →
    (∀ sid, claim_sid (CThread h) = Some sid ∨ next_session a ≤ sid < next_session a' →
      sid ∈ omap claim_sid (CThread h' :: cs)) →
    inv γ (a', <[i := t']> ts)) as Hgo.
  { intros cs Hha E Hn Hcs Hndc Hsid Hkept.
    eapply (inv_change γ γ a a' _ hs.*1 _ [CThread h] (CThread h' :: cs) (claims a (delete i hs.*1)));
      [done|done|done| |done| |by apply spares_harmless|done|done| | |done|].
    - rewrite list_fmap_insert, Hp'. cbn. f_equiv. unfold claims. by rewrite E, app_assoc.
    - by rewrite list_fmap_insert.
    - intros sid Hs. destruct (Hsid sid Hs) as [Es|]; [left; by apply one_claim|by right].
    - intros sid Hs. apply Hf. lia.
    - intros sid Hs. right. apply Hkept. by rewrite one_claim in Hs. }
  assert (∀ c, harmless a a' → claim_ok γ a c → claim_ok γ a' c) as Hmono.
  { intros c Hha Hc. eapply (claim_ok_spared []); [by apply spares_harmless|done|].
    intros ? _ ?%elem_of_nil. done. }
  split; [|by destruct Htr as [? [[_ [_ ?]] _]|? ? [_ [_ ?]]|? ? ? [[_ [_ ?]] _]|? ? ? [_ [_ ?]]|[_ [_ ?]]]].
  destruct Htr as [h (Hha & Hi' & Hn)|h sid Hha Hi' Hn|sid r m (Hha & Hi' & Hn) Hk|h c Hhc Hha Hi' Hn|Hha Hi' Hn Hcur].
  - apply (Hgo []); [done|by rewrite Hi'|by rewrite Hn| |by apply one_claim_NoDup| |].
    2: { intros sid' Hs. left. by apply one_claim in Hs. }
    2: { intros sid' [Hs|?]; [by apply one_claim|lia]. }
    constructor; [by apply Hmono|constructor].
  - apply (Hgo [CBlock (BExit sid)]); [done|done|by rewrite Hn| |by apply (one_claim_NoDup (CThread h))| |].
    2: { intros sid' Hs. left. by apply (one_claim (CThread h)). }
    2: { intros sid' [Hs|?]; [by apply (one_claim (CThread h))|lia]. }
    constructor; [by apply Hmono|by repeat constructor].
  - apply (Hgo []); [done|by rewrite Hi'|by rewrite Hn| |by apply one_claim_NoDup| |].
    2: { intros sid' Hs. left. by apply one_claim in Hs. }
    2: { intros sid' [Hs|?]; [by apply one_claim|lia]. }
    destruct Hhok as [Hcur Hγ]. constructor; [|constructor]. split; [split; [by apply Hha|done]|done].
  - apply (Hgo [c]); [done|done|by rewrite Hn| |by apply (one_claim_NoDup c)| |].
    + constructor; [done|constructor; [|constructor]]. apply Hmono in Hhok; [|done].
      destruct Hhc as [sid|sid r m close|sid r e He|sid r He]; cbn in Hhok |- *.
      * by destruct Hhok.
      * destruct Hhok as [[? ?] ?]. by exists r.
      * destruct Hhok. by exists r.
      * destruct Hhok. by exists r.
    + intros sid Hs. left. apply (one_claim c) in Hs. by destruct Hhc.
    + intros sid [Hs|?]; [|lia]. apply (one_claim c). by destruct Hhc.
  - apply (Hgo []); [done|by rewrite Hi'|lia| |by apply one_claim_NoDup| |].
    + constructor; [|constructor]. split; [done|]. by apply Hf.
    + intros sid [= ->]%one_claim. by right.
    + intros sid [?|?]; [done|]. apply one_claim. cbn. f_equal. lia.
Qed.

(** What is started ceases to be. *)
Lemma items_delete_op a i sid o :
  ops a !! i = Some (sid, o) →
  items a ≡ₚ COp sid o :: items (set_ops (delete i (ops a)) a).
Proof. intros Hi. unfold items. cbn. by rewrite (delete_Permutation _ _ _ Hi) at 1. Qed.
Lemma items_delete_block a i b :
  blocks a !! i = Some b → items a ≡ₚ CBlock b :: items (set_blocks (delete i (blocks a)) a).
Proof.
  intros Hi. unfold items. cbn. rewrite (delete_Permutation _ _ _ Hi) at 1. cbn.
  symmetry. apply Permutation_middle.
Qed.
Lemma items_delete_timer a i d b :
  timers a !! i = Some (d, b) → items a ≡ₚ CBlock b :: items (set_timers (delete i (timers a)) a).
Proof.
  intros Hi. unfold items. cbn. rewrite (delete_Permutation _ _ _ Hi) at 1. cbn.
  rewrite !(app_assoc (map (uncurry COp) (ops a))). symmetry. apply Permutation_middle.
Qed.
Lemma inv_item γ a ts c rest : inv γ (a, ts) → items a ≡ₚ c :: rest → claim_ok γ a c.
Proof.
  intros (hs & _ & _ & Hok & _) Hi. cbn in Hok. unfold claims in Hok. rewrite Hi in Hok.
  by apply Forall_cons in Hok as [? _].
Qed.
Lemma inv_fresh γ s : inv γ s → fresh γ s.1.
Proof. by intros (? & _ & _ & _ & _ & ? & _). Qed.

(** A session's phase changes. *)
Lemma fresh_set γ a a' sid p :
  fresh γ a → (∃ r, current a sid r) → next_session a' = next_session a →
  fresh (set_phase sid p γ) a'.
Proof.
  intros Hf (r & Hlt & _) Hn sid' Hs. rewrite Hn in Hs. rewrite set_phase_ne by lia. by apply Hf.
Qed.
Lemma spares_set cs γ a a' sid p :
  sid ∈ omap claim_sid cs → harmless a a' → spares cs γ (set_phase sid p γ) a a'.
Proof.
  intros Hin (Hc & Hk & _). split; [|done]. intros sid' Hs. split; [|apply Hc].
  apply set_phase_ne. by intros ->.
Qed.
Lemma current_request a sid r r' :
  heard r → current a sid r' → current (set_sessions (alter (set_request r) sid (sessions a)) a) sid r.
Proof.
  intros Hh (Hlt & s & Es & _ & Ht & _). split; [done|]. exists (set_request r s). cbn.
  by rewrite lookup_alter_eq, Es.
Qed.
Lemma current_request_ne a sid sid' r r' :
  sid ≠ sid' → current a sid' r' →
  current (set_sessions (alter (set_request r) sid (sessions a)) a) sid' r'.
Proof.
  intros Hne (Hlt & s & Es & Hs). split; [done|]. exists s. split; [|done]. cbn.
  by rewrite lookup_alter_ne.
Qed.
Lemma block_ready γ a b :
  claim_ok γ a (CBlock b) →
  ∃ r, block_for b r ∧ claim_ok γ a (CThread (block_holder b r)) ∧
    claim_sid (CThread (block_holder b r)) = block_sid b.
Proof.
  destruct b as [e sid|sid|sid]; cbn.
  - intros (r & ? & ? & ?). by exists r.
  - intros _. by exists no_request.
  - intros (r & ? & ? & ?). by exists r.
Qed.

Lemma inv_quiet γ a a' ts : inv γ (a, ts) → idle a a' → world a' = world a → inv γ (a', ts).
Proof.
  intros (hs & Hob & Hsh & Hok & Hnd & Hf & Hall) (Hha & Hi & Hn) Hw. cbn [fst snd] in *.
  eapply (inv_change γ γ a a' ts hs.*1 hs [] [] (claims a hs.*1)); try done.
  - unfold claims. by rewrite Hi.
  - by eapply shared_elsewhere.
  - by apply spares_harmless.
  - constructor.
  - intros ? ?%elem_of_nil. done.
  - intros sid. rewrite Hn. apply Hf.
  - intros sid [?%elem_of_nil|?]; [done|lia].
Qed.
Lemma inv_free γ a a' ts t :
  inv γ (a, ts) → idle a a' → world a' = world a → obeys t Free nothing → inv γ (a', ts ++ [t]).
Proof.
  intros HI (Hha & Hi & Hn) Hw Ht. eapply (inv_spawn γ γ a a' ts t Free []); try done.
  - by rewrite Hi.
  - by apply spares_harmless.
  - intros sid ?%elem_of_nil. done.
  - intros sid. rewrite Hn. by apply (inv_fresh _ _ HI).
Qed.
(** A session's operation completes: its handler runs in the phase [p]. *)
Lemma inv_completes γ a a' ts t i sid o h p :
  inv γ (a, ts) → ops a !! i = Some (sid, o) → world a' = world a →
  items a' = items (set_ops (delete i (ops a)) a) → next_session a' = next_session a →
  (∀ sid' r, sid' ≠ sid → current a sid' r → current a' sid' r) →
  (∀ m r, known a m r → known a' m r) → (∃ r, current a sid r) →
  obeys t h nothing → claim_ok (set_phase sid p γ) a' (CThread h) →
  (claim_sid (CThread h) = Some sid ∨ h = Free ∧ p = Closed) →
  inv (set_phase sid p γ) (a', ts ++ [t]).
Proof.
  intros HI Hi Hw Hit Hn Hc Hk Hcur Ht Hh Hsid. pose proof (items_delete_op a i sid o Hi) as Hp.
  eapply (inv_spawn γ _ a a' ts t h [COp sid o]); try done.
  - by rewrite Hit.
  - split; [|done]. intros sid' Hs. rewrite one_claim in Hs. cbn in Hs.
    assert (sid' ≠ sid) as Hne by (by intros ->). split; [by apply set_phase_ne|by auto].
  - intros sid' Hs. apply one_claim. destruct Hsid as [E|[-> _]]; [by rewrite E in Hs|done].
  - intros sid' [= ->]%one_claim. destruct Hsid as [E|[_ ->]]; [by right|left; apply set_phase_eq].
  - by apply (fresh_set γ a a' sid p (inv_fresh _ _ HI)).
Qed.
Lemma set_phase_same γ sid : ∀ sid', set_phase sid (γ sid) γ sid' = γ sid'.
Proof. intros sid'. unfold set_phase. by destruct (decide (sid' = sid)) as [->|]. Qed.
Lemma inv_ext γ γ' s : (∀ sid, γ sid = γ' sid) → inv γ s → inv γ' s.
Proof.
  intros E (hs & Hob & Hsh & Hok & Hnd & Hf & Hall). exists hs. split; [done|]. split; [done|].
  split; [|split; [done|split]].
  - eapply Forall_impl; [exact Hok|]. intros c Hc. eapply (claim_ok_spared [] γ γ'); [|exact Hc|].
    + split; [|done]. intros sid _. by rewrite E.
    + intros ? _ ?%elem_of_nil. done.
  - intros sid Hs. rewrite <- E. by apply Hf.
  - intros sid Hs. rewrite <- E. by apply Hall.
Qed.

Lemma inv_received γ a ts i sid r :
  inv γ (a, ts) → heard r → ops a !! i = Some (sid, OpRead) →
  γ sid = Idle ∧
  inv (set_phase sid (Busy r) γ)
    (set_sessions (alter (set_request r) sid (sessions a)) (set_ops (delete i (ops a)) a),
     ts ++ [onRead sid None]).
Proof.
  intros HI Hh Hi. destruct (inv_item _ _ _ _ _ HI (items_delete_op a i sid _ Hi)) as [Hγ [r0 Hcur]].
  split; [done|]. eapply (inv_completes γ a _ ts _ i sid OpRead (Serving sid r));
    [done|done|done|done|done| |done|by exists r0|apply obeys_onRead, spare_nothing| |by left].
  - intros sid' r' Hne. by apply (current_request_ne (set_ops (delete i (ops a)) a)).
  - split; [|apply set_phase_eq]. by apply (current_request (set_ops (delete i (ops a)) a) sid r r0).
Qed.
Lemma inv_hung_up γ a ts i sid ec :
  inv γ (a, ts) → ops a !! i = Some (sid, OpRead) →
  γ sid = Idle ∧
  inv (set_phase sid Closed γ) (set_ops (delete i (ops a)) a, ts ++ [onRead sid (Some ec)]).
Proof.
  intros HI Hi. destruct (inv_item _ _ _ _ _ HI (items_delete_op a i sid _ Hi)) as [Hγ Hcur].
  split; [done|]. by eapply (inv_completes γ a _ ts _ i sid OpRead Free); try done;
    [apply obeys_read_failed, spare_nothing|right].
Qed.
Lemma inv_written γ a ts i sid m close sent ec :
  inv γ (a, ts) → ops a !! i = Some (sid, OpWrite m close sent) →
  (if sent then γ sid = Idle else ∃ r, γ sid = Busy r) ∧
  inv (set_phase sid Idle γ) (set_ops (delete i (ops a)) a, ts ++ [onWrite sid ec]).
Proof.
  intros HI Hi. pose proof (inv_item _ _ _ _ _ HI (items_delete_op a i sid _ Hi)) as Hok.
  assert ((∃ r, current a sid r) ∧ if sent then γ sid = Idle else ∃ r, γ sid = Busy r) as [Hcur Hγ].
  { destruct sent; [by destruct Hok|]. destruct Hok as (r & ? & ? & _). by split; exists r. }
  split; [done|]. eapply (inv_completes γ a _ ts _ i sid _ (Returning sid)); try done;
    [apply obeys_onWrite, spare_nothing| |by left]. split; [done|apply set_phase_eq].
Qed.
Lemma inv_answered γ a ts i sid m close res buffers :
  inv γ (a, ts) → ops a !! i = Some (sid, OpWrite m close false) →
  messages a !! m = Some res → write_response res = Ok (buffers, close) →
  (∃ r, γ sid = Busy r ∧ answer_bytes r (str_concat buffers)) ∧
  inv (set_phase sid Idle γ)
    (add_wire sid (str_concat buffers) (set_ops (<[i := (sid, OpWrite m close true)]> (ops a)) a), ts).
Proof.
  intros HI Hi Hm Hw. pose proof (items_delete_op a i sid _ Hi) as Hp.
  destruct (inv_item _ _ _ _ _ HI Hp) as (r & Hγ & Hcur & _ & Hans).
  split; [exists r; split; [done|]; exists res, buffers, close; auto|].
  set (a' := add_wire _ _ _).
  assert (items a' ≡ₚ COp sid (OpWrite m close true) :: items (set_ops (delete i (ops a)) a)) as Hp'.
  { rewrite (items_delete_op a' i sid (OpWrite m close true)).
    - f_equiv. unfold items. cbn. by rewrite list_delete_insert_same.
    - apply list_lookup_insert_eq. by eapply lookup_lt_Some. }
  destruct HI as (hs & Hob & Hsh & Hok & Hnd & Hf & Hall). cbn [fst snd] in *.
  eapply (inv_change γ _ a a' ts hs.*1 hs [COp sid (OpWrite m close false)] [COp sid (OpWrite m close true)]
    (claims (set_ops (delete i (ops a)) a) hs.*1)); try done.
  - unfold claims. by rewrite Hp.
  - unfold claims. by rewrite Hp'.
  - by eapply shared_elsewhere.
  - split; [|done]. intros sid' Hs. rewrite one_claim in Hs. cbn in Hs. split; [|done].
    apply set_phase_ne. by intros ->.
  - constructor; [|constructor]. split; [apply set_phase_eq|by exists r].
  - apply one_claim_NoDup.
  - intros sid' Hs%one_claim. left. by apply one_claim.
  - apply (fresh_set γ a a' sid Idle Hf); [by exists r|done].
  - intros sid' [Hs%one_claim|?]; [right; by apply one_claim|cbn in *; lia].
Qed.
Lemma inv_block γ a a' ts b :
  inv γ (a, ts) → items a ≡ₚ CBlock b :: items a' → harmless a a' → world a' = world a →
  next_session a' = next_session a → inv γ (a', ts ++ [run_block b]).
Proof.
  intros HI Hi Hha Hw Hn. destruct (block_ready _ _ _ (inv_item _ _ _ _ _ HI Hi)) as (r & Hb & Hok & Hsid).
  eapply (inv_spawn γ γ a a' ts _ (block_holder b r) [CBlock b]); try done.
  - apply obeys_block; [done|apply spare_nothing].
  - by apply spares_harmless.
  - eapply (claim_ok_spared []); [by apply spares_harmless|done|]. intros ? _ ?%elem_of_nil. done.
  - intros sid Hs. apply one_claim. cbn. congruence.
  - intros sid Hs%one_claim. right. cbn in Hs. congruence.
  - intros sid. rewrite Hn. by apply (inv_fresh _ _ HI).
Qed.

(** The process implements the protocol: a step of the process is one of the
    specification with the same event. *)
Lemma inv_step γ s l s' :
  inv γ s → lstep ctx s l s' → possible s'.1 → (∀ sid r, l = Some (Received sid r) → heard r) →
  ∃ γ', spec_step γ l γ' ∧ inv γ' s' ∧ wire s'.1 = wire s.1 ++ sent_of (option_list l).
Proof.
  intros HI Hs Hpos Hheard. destruct Hs as [a ts ec He Ha|a ts i sid r He Hi|a ts i sid ec He Hi
    |a ts i sid m close res bs He Hi Hm Hw|a ts i sid m close He Hi Hm
    |a ts i sid m close He Hi|a ts i sid m close sent ec He Hi|a ts i b He Hi
    |a ts i d b He Hi|a ts resp He Hn|a ts i t t' a' He Hi Ht|a ts i f He Hi].
  - exists γ. split; [constructor|]. split; [|by cbn; rewrite app_nil_r]. eapply inv_free; [done|by apply idle_same|done|].
    apply obeys_onAccept, spare_nothing.
  - destruct (inv_received γ a ts i sid r HI (Hheard sid r eq_refl) Hi) as [Hγ HI']. eexists. split; [|split; [exact HI'|by cbn; rewrite ?app_nil_r]].
    apply (SpecEvent γ (Received sid r)). cbn. rewrite Hγ. constructor.
  - destruct (inv_hung_up γ a ts i sid ec HI Hi) as [Hγ HI']. eexists. split; [|split; [exact HI'|by cbn; rewrite ?app_nil_r]].
    apply (SpecEvent γ (HungUp sid)). cbn. rewrite Hγ. constructor.
  - destruct (inv_answered γ a ts i sid m close res bs HI Hi Hm Hw) as [(r & Hγ & Hb) HI'].
    eexists. split; [|split; [exact HI'|by cbn; rewrite ?app_nil_r]]. apply (SpecEvent γ (Answered sid (str_concat bs))). cbn.
    rewrite Hγ. by constructor.
  - exists γ. split; [constructor|]. split; [|by cbn; rewrite app_nil_r]. by eapply inv_quiet; [|apply idle_same|].
  - destruct (inv_written γ a ts i sid m close true (if close then Some "End of file" else None) HI Hi)
      as [Hγ HI']. exists γ. split; [constructor|]. split; [|by cbn; rewrite app_nil_r]. eapply inv_ext; [|exact HI'].
    rewrite <- Hγ. apply set_phase_same.
  - destruct (inv_written γ a ts i sid m close sent (Some ec) HI Hi) as [Hγ HI']. destruct sent.
    + exists γ. split; [constructor|]. split; [|by cbn; rewrite app_nil_r]. eapply inv_ext; [|exact HI']. rewrite <- Hγ. apply set_phase_same.
    + destruct Hγ as [r Hγ]. eexists. split; [|split; [exact HI'|by cbn; rewrite ?app_nil_r]]. apply (SpecEvent γ (Lost sid)). cbn.
      rewrite Hγ. by apply (PhaseLost sid r).
  - exists γ. split; [constructor|]. split; [|by cbn; rewrite app_nil_r].
    eapply inv_block; [done|by eapply items_delete_block|by apply harmless_same|done|done].
  - exists γ. split; [constructor|]. split; [|by cbn; rewrite app_nil_r].
    eapply inv_block; [done|by eapply items_delete_timer|by apply harmless_same|done|done].
  - exists γ. split; [constructor|]. split; [|by cbn; rewrite app_nil_r]. eapply inv_free; [done|apply idle_refl|done|].
    apply obeys_notification, spare_nothing.
  - exists γ. split; [constructor|]. destruct (inv_thread _ _ _ _ _ _ _ HI Hi Ht Hpos) as [HI' Hw].
    split; [done|]. cbn. by rewrite Hw, app_nil_r.
  - exists γ. split; [constructor|]. split; [|by cbn; rewrite app_nil_r]. by eapply inv_quiet; [|apply idle_same|].
Qed.
Lemma inv_new : inv all_idle server_new.
Proof.
  exists []. split_and!; [constructor|by apply shared_start|constructor|constructor|done|cbn; lia].
Qed.
Lemma inv_traced tr s :
  (∀ tr s l s', traced ctx tr s → lstep ctx s l s' → possible s'.1 → possible s.1) →
  traced ctx tr s → possible s.1 → (∀ sid r, Received sid r ∈ tr → heard r) →
  ∃ γ, spec_run tr γ ∧ inv γ s ∧ wire s.1 = sent_of tr.
Proof.
  intros Hcausal. induction 1 as [|tr s l s' Ht IH Hs]; intros Hpos Hheard.
  - exists all_idle. split; [constructor|]. by split; [apply inv_new|].
  - destruct IH as (γ & Hr & HI & Hw).
    { by eapply Hcausal. }
    { intros sid r Hin. apply (Hheard sid), elem_of_app. by left. }
    destruct (inv_step γ s l s' HI Hs Hpos) as (γ' & Hsp & HI' & Hw').
    { intros sid r ->. apply (Hheard sid), elem_of_app. right. by left. }
    exists γ'. split; [by econstructor|]. split; [done|].
    rewrite Hw', Hw. unfold sent_of. by rewrite omap_app.
Qed.
(** What a session that waits for a request is. *)
Lemma inv_waiting γ s i sid o :
  inv γ s → ops s.1 !! i = Some (sid, o) →
  match o with OpRead | OpWrite _ _ true => γ sid = Idle | _ => ∃ r, γ sid = Busy r end.
Proof.
  destruct s as [a ts]. intros HI Hi. pose proof (inv_item _ _ _ _ _ HI (items_delete_op a i sid o Hi)) as Hok.
  destruct o as [|m close []]; cbn in Hok; [apply Hok|apply Hok|]. destruct Hok as (r & ? & _). by exists r.
Qed.

End Invariant.

(** ** Every run *)

Section Runs.
Context `{SourceKitD} (ctx : ServiceContext).

Lemma inv_run tr s :
  traced ctx tr s → ∃ γ, spec_run tr γ ∧ inv γ s ∧ wire s.1 = sent_of tr.
Proof. intros Ht. by apply (inv_traced ctx). Qed.
Lemma inv_reachable s : reachable ctx s → ∃ γ, inv γ s.
Proof.
  intros Hs. assert (invariant (eq server_new) (step ctx) (λ s, ∃ γ, inv γ s)) as HI.
  { split; [intros ? <-; exists all_idle; apply inv_new|]. intros s1 s2 [γ HI] [l Hl].
    destruct (inv_step ctx γ s1 l s2 HI Hl) as (γ' & _ & HI' & _); [done..|]. by exists γ'. }
  by apply (invariant_reachable _ _ _ server_new s HI).
Qed.


(** C2: the process implements the protocol of its sessions: whatever the peers, the
    queues and the threads do, the requests read and the answers sent, in their
    order, are a run of the specification, in which a session answers the request
    it has read before it reads the next, once, with the bytes of an answer to that
    very request, a 404 if its URL is unknown and what its endpoint may reply if
    not; and what has been sent on the wire are the answers of that run. *)
Theorem session_protocol (tr : list event) (s : state) :
  traced ctx tr s →
  ∃ γ, spec_run tr γ ∧ wire s.1 = sent_of tr ∧
    ∀ i sid, ops s.1 !! i = Some (sid, OpRead) → γ sid = Idle.
Proof.
  intros Ht. destruct (inv_run tr s Ht) as (γ & Hr & HI & Hw). exists γ.
  split; [done|]. split; [done|]. intros i sid Hi. exact (inv_waiting γ s i sid OpRead HI Hi).
Qed.

(** C6: no session is forgotten: in every state a run reaches, each session that has been
    accepted and has not been closed has exactly one thing that goes on with it, an
    operation, a block that is queued or due, or a thread that has not ended; so when
    no thread has anything left to do, every open session has an operation outstanding
    or a block waiting, and the server never goes deaf to it. *)
Theorem no_session_forgotten (tr : list event) (s : state) :
  traced ctx tr s →
  ∃ γ (owners : list (option nat)),
    spec_run tr γ ∧ NoDup (started s.1 ++ omap id owners) ∧
    (∀ i sid, owners !! i = Some (Some sid) → ∃ t, s.2 !! i = Some t ∧ t ≠ TRet tt) ∧
    (∀ sid, sid < next_session s.1 → γ sid = Closed ∨ sid ∈ started s.1 ++ omap id owners) ∧
    ((∀ t, t ∈ s.2 → t = TRet tt) →
      ∀ sid, sid < next_session s.1 → γ sid = Closed ∨ sid ∈ started s.1).
Proof.
  intros Ht. destruct (inv_run tr s Ht) as (γ & Hr & (hs & Hob & _ & _ & Hnd & _ & Hall) & _).
  set (owners := map (λ h, claim_sid (CThread h)) hs.*1).
  assert (omap claim_sid (claims s.1 hs.*1) = started s.1 ++ omap id owners) as Ec.
  { unfold claims, owners. rewrite omap_app, <- started_items. f_equal.
    clear. induction hs.*1 as [|h hs' IH]; [done|]. cbn -[claim_sid]. by rewrite IH. }
  rewrite Ec in Hnd. setoid_rewrite Ec in Hall.
  assert (∀ i sid, owners !! i = Some (Some sid) → ∃ t, s.2 !! i = Some t ∧ t ≠ TRet tt) as Hlive.
  { intros i sid Hi. unfold owners in Hi. apply list_lookup_fmap_Some in Hi as (h & Hh & Hi).
    apply list_lookup_fmap_Some in Hi as ([h0 g] & -> & Hi).
    destruct (Forall2_lookup_r _ _ _ _ _ Hob Hi) as (t & Hti & Hot). exists t. split; [done|].
    intros ->. cbn in Hot, Hh. destruct Hot as [-> _]. done. }
  exists γ, owners. split_and!; try done. intros Hdone sid Hs.
  destruct (Hall sid Hs) as [?|[?|Ho]%elem_of_app]; [by left|by right|exfalso].
  apply list_elem_of_omap in Ho as (o & Ho & Eo). cbn in Eo. subst o.
  apply list_elem_of_lookup in Ho as [i Hi]. destruct (Hlive i sid Hi) as (t & Hti & Hne).
  apply Hne, Hdone. by eapply list_elem_of_lookup_2.
Qed.
End Runs.

(** ** The hypotheses can hold *)

Definition some_context : ServiceContext := {| secret := "SomeSecret"; logLevel := LogLevelInfo |}.


(** A connection, a request for the status, its answer. *)
Definition quiet_context : ServiceContext := {| secret := "SomeSecret"; logLevel := LogLevelError |}.
Definition status_request : request :=
  {| req_version := 11; req_method := "GET"; req_url := "/status"; req_fields := [];
     req_body := EmptyString |}.
Definition status_moves : list move :=
  [MAccept None] ++ repeat (MThread 0) 4 ++ [MRead 0 status_request] ++ repeat (MThread 1) 4 ++
  [MBlock 0] ++ repeat (MThread 2) 4 ++ [MSend 0].
Definition status_run : list event * state :=
  default ([], server_new) (exec quiet_context status_moves server_new).
Lemma status_run_traced : traced quiet_context status_run.1 status_run.2.
Proof.
  apply (exec_run quiet_context status_moves). unfold status_run.
  generalize (eq_refl : bool_decide (is_Some (exec quiet_context status_moves server_new)) = true).
  by destruct (exec quiet_context status_moves server_new) as [[tr s]|].
Qed.
Lemma session_protocol_witness :
  ∃ γ, spec_run status_run.1 γ ∧ wire status_run.2.1 = sent_of status_run.1 ∧
    map event_sid status_run.1 = [0; 0].
Proof.
  destruct (session_protocol quiet_context status_run.1 status_run.2 status_run_traced)
    as (γ & Hr & Hw & _).
  exists γ. split; [exact Hr|]. split; [exact Hw|vm_compute; reflexivity].
Defined.
(** The request has been answered, and the block's thread has not ended. *)
Lemma no_session_forgotten_witness :
  next_session status_run.2.1 = 1 ∧ started status_run.2.1 = [0] ∧
  ∃ γ, spec_run status_run.1 γ ∧ γ 0 ≠ Closed.
Proof.
  destruct (no_session_forgotten quiet_context status_run.1 status_run.2 status_run_traced)
    as (γ & owners & Hr & _ & _ & Hall & _).
  split; [vm_compute; reflexivity|]. split; [vm_compute; reflexivity|]. exists γ. split; [exact Hr|].
  intros Hc. apply spec_dialogue with (sid := 0) in Hr. rewrite Hc in Hr.
  apply dialogue_closed in Hr as (tr0 & sid & E). vm_compute in E.
  destruct tr0 as [|? [|? [|? ?]]]; discriminate E.
Defined.
