(* ===== verification/ServerLedger.v ===== *)
(** * The whole process against sourcekitd's ledger

    The shares of the completer's threads (Shares.v) as the resources of the process's:
    in every run, however its threads interleave, the calls to sourcekitd misuse nothing,
    every request it is sent asks what one request read, or one notification, calls for,
    and every query is answered with what sourcekitd said of what that query asks. *)

From S2P Require Import Prelude Owns Ptree JsonRead.
From S2P Require Import Logging Futures SourceKitD Ledger Offset SourceKit Requests Completer Ownership Shares HttpMessage Endpoints Replies Protocol Resources Server.

(** ** What may be asked *)

Definition calls_made (a : App) : trace := calls_of (world a).

(** What the process may ask sourcekitd, given what its peers have seen and the calls made:
    for a request read, at a completion or a diagnostics query's own file, contents, position
    and flags; for a notification, a fresh look at the document it names. *)
Inductive asked_by `{SourceKitD} (read : request → Prop) (calls : trace)
    (v : gmap uid request_value) : Prop :=
| AskedCompletion r q :
    read r → read_completion_query (req_body r) = Ok q →
    completion_asks (completion_context (q_file_name q) (q_line q) (q_column q)
      [{| contents := q_contents q; fileName := q_file_name q |}] (q_flags q)) v →
    asked_by read calls v
| AskedDiagnostics r q :
    read r → read_diagnostics_query (req_body r) = Ok q →
    editor_asks (completion_context (d_file_name q) 0 0
      [{| contents := d_contents q; fileName := d_file_name q |}]
      (DiagnosticFlagsFromFlags (d_file_name q) (d_flags q))) v →
    asked_by read calls v
| AskedNotification name :
    notified calls name → v = sema_request name → asked_by read calls v.

(** A document that a diagnostics query read from a peer is about. *)
Definition awaitable (read : request → Prop) (key : string) : Prop :=
  ∃ r q, read r ∧ read_diagnostics_query (req_body r) = Ok q ∧ d_file_name q = key.

(** What a query may be answered with, given the calls made: the empty answer, or for
    candidates what sourcekitd said of a request at the query's own file, its text cut at its
    position, that position and its flags; for diagnostics what it told the receiver of a
    notification that names the query's file. *)
Definition truth `{SourceKitD} (calls : trace) : Replies := {|
  candidates_reply r body := ∃ q, read_completion_query (req_body r) = Ok q ∧
    (body = EmptyCandidates ∨
     ∃ v, completion_asks (completion_context (q_file_name q) (q_line q) (q_column q)
       [{| contents := q_contents q; fileName := q_file_name q |}] (q_flags q)) v ∧
       described calls v body);
  diagnostics_reply r body := ∃ q, read_diagnostics_query (req_body r) = Ok q ∧
    (body = EmptyDiagnostics ∨ told calls (d_file_name q) body);
|}.

Section Ledger.
Context `{FreshHandles} (ctx : ServiceContext).

(** ** The resources *)

(** A thread that has nothing to give up, or only what is never given up. *)
Definition clean (final : trace) (l : ledger) : Prop :=
  objects l = ∅ ∧ ∀ r, r ∈ responses l → kept final r.
Lemma clean_same final l l' : same l l' → clean final l → clean final l'.
Proof. intros [Eo Er] [Ho Hr]. split; [congruence|]. by rewrite Er. Qed.
Lemma clean_nearly final l l' : nearly final l l' → clean final l → clean final l'.
Proof. intros [Eo Er] [Ho Hr]. split; [congruence|]. intros r [?|?]%Er; auto. Qed.

Section Instances.
(** The requests read, and the calls made, to the end. *)
Context (read : request → Prop) (final : trace) (notifications : fresh_notifications final).
Notation asked := (asked_by read final).
Notation documents := (awaitable read).
Notation world_rules := (share_rules final asked documents).
Definition app_rules : rules App share := {|
  acts g a a' P := acts world_rules g (world a) (world a') P;
  holds g a := share_holds final documents g (world a);
  stalls g ready := ∃ p key, pending g = Some (p, key) ∧
    ∀ a, ready a = future_ready p (channel_of (world a));
|}.
#[local] Instance app_rules_monotone : Monotone app_rules.
Proof. intros g a a' P R Ha HR. eapply (share_rules_monotone final asked documents g); [exact Ha|exact HR]. Qed.

(** The body of a request not yet read is no query. *)
Lemma completion_of_read r q :
  r = no_request ∨ read r → read_completion_query (req_body r) = Ok q → read r.
Proof. intros [->|?]; [|done]. intros E. vm_compute in E. discriminate. Qed.
Lemma diagnostics_of_read r q :
  r = no_request ∨ read r → read_diagnostics_query (req_body r) = Ok q → read r.
Proof. intros [->|?]; [|done]. intros E. vm_compute in E. discriminate. Qed.

Lemma owns_world {A} (Q : A → share → Prop) (t : thread World A) g :
  owns world_rules Q t g → owns app_rules Q (zoom t) g.
Proof.
  intros Ht. owns_weaken.
  - apply (owns_zoom app_rules world_rules id); [|exact Ht]. split; [done| |].
    + intros g' a w P Ha. eapply (share_rules_monotone final asked documents g'); [exact Ha|]. eauto.
    + intros g' ready (p & key & Ea & Er). exists p, key. split; [done|]. intros a. apply Er.
  - by intros a g' (g1 & -> & HQ).
Qed.

#[local] Program Instance ledger_resources : Resources (H0 := truth final) := {|
  resource := share;
  nothing := share_new;
  spare g := clean final (owned g);
  uses := app_rules;
  shared_out gs a := ∃ l, granted final asked documents gs (world a) l;
  possible a := calls_made a `prefix_of` final;
  heard r := r = no_request ∨ read r;
|}.
Next Obligation.
  intros g a a' P Ec Ech HP. apply ShareActs, WorldCalls; [done|]. rewrite Ec.
  apply acts_nothing. by destruct g.
Qed.
Next Obligation. intros gs a a' (l & Hg) Ew. exists l. by rewrite Ew. Qed.
Next Obligation. intros a Ew. eexists. cbn. rewrite Ew. apply granted_start. Qed.
Next Obligation. intros gs a (l & Hg). exists l. by apply granted_join. Qed.
Next Obligation. intros gs a i g (l & Hg) Hi. by eapply gr_holds. Qed.
Next Obligation.
  intros gs a a' i g P (l & Hg) Hi Ha Hp.
  destruct (granted_acts final asked documents notifications _ _ _ _ _ _ _ Hg Hi Ha Hp) as (g' & l' & HP & Hg').
  eauto.
Qed.
Next Obligation. split; cbn; set_solver. Qed.
Next Obligation. by left. Qed.
Next Obligation.
  intros level r q g Hr E Hg. owns_weaken; [apply owns_world, owns_owned|].
  { apply owns_candidates. intros v Hv. eapply AskedCompletion; [exact (completion_of_read r q Hr E)|done..]. }
  cbv beta. intros cs g' (_ & Hs & Hcs). split; [by eapply clean_same|]. by exists q.
Qed.
Next Obligation.
  intros level r q g Hr E Hg. owns_weaken; [apply owns_world|].
  { apply owns_diagnostics. intros v Hv. eapply AskedDiagnostics; [exact (diagnostics_of_read r q Hr E)|done..].
    exists r, q. split; [exact (diagnostics_of_read r q Hr E)|done]. }
  cbv beta. intros cs g' (Hs & Hcs). split; [by eapply clean_same|]. by exists q.
Qed.
Next Obligation.
  intros resp g Hg. owns_weaken; [apply owns_world, owns_owned|].
  { apply owns_handler. intros name Hn. by eapply AskedNotification. }
  cbv beta. intros _ g' (_ & Hs). by eapply clean_nearly.
Qed.
End Instances.

(** *** They only add calls *)

Notation app_grows := (grows calls_made).
Lemma grows_world {A} (t : thread World A) : grows calls_of t → app_grows (zoom t : thread App A).
Proof. by apply grows_zoom. Qed.
Lemma grows_console {A} (t : thread console A) :
  app_grows (zoom (zoom t : thread World A) : thread App A).
Proof. by apply grows_world, grows_apart. Qed.
Lemma grows_modify (g : App → App) :
  (∀ a, calls_made (g a) = calls_made a) → app_grows (modify g).
Proof. intros Hg. apply grows_atomic. intros a. cbn. by rewrite Hg. Qed.
Lemma grows_gets {A} (g : App → A) : app_grows (gets g).
Proof. by apply grows_atomic. Qed.
Lemma grows_tells lg msg : app_grows (tells lg msg).
Proof. apply grows_console. Qed.
Lemma grows_log_each lg prefix flags : app_grows (log_each lg prefix flags).
Proof. induction flags as [|f flags IH]; [done|]. do 2 (apply grows_bind; [apply grows_tells|intros _]). exact IH. Qed.
Lemma grows_session_write sid res : app_grows (session_write sid res).
Proof.
  unfold session_write. apply grows_bind; [by apply grows_atomic|]. intros m.
  apply grows_bind; [apply grows_outcome|]. intros [bs close].
  apply grows_bind; [by apply grows_modify|]. intros _. by apply grows_modify.
Qed.
Hint Resolve grows_world grows_gets grows_tells grows_log_each grows_session_write
  grows_candidates grows_diagnostics grows_handler : grows.
Hint Extern 1 (grows _ (modify _)) => by apply grows_modify : grows.

Lemma grows_onRead sid ec : app_grows (onRead sid ec).
Proof. unfold onRead, with_session, handleRequest, with_session, fail, update_session. grow. Qed.
Lemma grows_onWrite sid ec : app_grows (onWrite sid ec).
Proof. unfold onWrite, with_session, fail, doRead, start_op. grow. Qed.
Lemma grows_onAccept ec : app_grows (onAccept ctx ec).
Proof.
  unfold onAccept, Session_new, session_start, doRead, start_op. grow; try (apply grows_console).
Qed.
Lemma grows_block b : app_grows (run_block b).
Proof.
  destruct b as [[]|?|?]; unfold run_block, start_endpoint, status_endpoint, shutdown_endpoint,
    completions_endpoint, diagnostics_endpoint, slow_test_endpoint, dispatch_after, with_session,
    respond; grow.
Qed.
Hint Resolve grows_onRead grows_onWrite grows_onAccept grows_block : grows.

Definition growing (s : state) : Prop := Forall (grows calls_made) s.2.
Lemma growing_step s l s' :
  growing s → lstep ctx s l s' → growing s' ∧ calls_made s.1 `prefix_of` calls_made s'.1.
Proof.
  unfold growing. intros Hg Hs. destruct Hs; cbn [fst snd] in *;
    try (split; [|done]; rewrite ?Forall_app; split_and?; auto with grows; fail).
  match goal with Hi : ts !! i = Some ?t |- _ =>
    pose proof (proj1 (Forall_lookup _ _) Hg _ _ Hi) as Ht; destruct t as [u|f|m|ready k] end;
    cbn in *; [done|done| |].
  - specialize (Ht a). simplify_eq. destruct (m a) as [t1 a1]. simplify_eq.
    destruct Ht. split; [by apply Forall_insert|done].
  - destruct (ready a) as [o|]; [|done]. cbn in *. simplify_eq. split; [|done].
    apply Forall_insert; [done|]. by destruct o; cbn.
Qed.

Lemma growing_run tr s : traced ctx tr s → growing s.
Proof.
  induction 1 as [|tr s l s' _ IH Hs]; [constructor|]. by destruct (growing_step _ _ _ IH Hs).
Qed.

(** ** Runs *)

Lemma truthful_run tr s :
  traced ctx tr s → fresh_notifications (calls_made s.1) →
  let calls := calls_made s.1 in
  let read := λ r, ∃ sid, Received sid r ∈ tr in
  ∃ γ gs l, @spec_run (truth calls) tr γ ∧ wire s.1 = sent_of tr ∧
    granted calls (asked_by read calls) (awaitable read) gs (world s.1) l ∧
    (∀ i t, s.2 !! i = Some t → ∃ g, gs !! i = Some g ∧
      match t with TWait ready _ => stalls (app_rules read calls) g ready | _ => True end) ∧
    ((∀ t, t ∈ s.2 → t = TRet tt) → ∀ i g, gs !! i = Some g → clean calls (owned g)).
Proof.
  intros Ht Hf calls read.
  set (R := ledger_resources read calls Hf).
  destruct (inv_traced (H1 := R) ctx tr s) as (γ & Hr & (hs & Hob & (l & Hg) & _) & Hw).
  - intros tr0 s0 l0 s1 Ht0 Hs0 Hp.
    destruct (growing_step s0 l0 s1 (growing_run _ _ Ht0) Hs0) as [_ Hg]. cbn in Hp |- *. by etrans.
  - done.
  - by cbn.
  - intros sid r Hin. right. by exists sid.
  - exists γ, hs.*2, l. split; [done|]. split; [done|]. split; [exact Hg|]. split.
    { intros i t Hi. destruct (Forall2_lookup_l _ _ _ _ _ Hob Hi) as ([h g] & Hhg & Hot).
      exists g. split; [by rewrite list_lookup_fmap, Hhg|]. destruct t; [done..|]. apply Hot. }
    intros Hdone i g Hi. apply list_lookup_fmap_Some in Hi as ([h g'] & -> & Hi).
    destruct (Forall2_lookup_r _ _ _ _ _ Hob Hi) as (t & Hti & Hot).
    rewrite (Hdone t) in Hot by (by eapply list_elem_of_lookup_2). apply Hot.
Qed.

(** C4: in every run, however its threads interleave, the calls made to sourcekitd never
    misuse an object or a response: none is read, changed, sent, released or disposed of that
    the program does not own then.  Every request that has been sent was whole: it asked what
    a query read from a peer asks, at its file, its text cut at its position and its flags, or
    was the receiver's for a document named in a notification.  When every thread has ended no
    request object is left, and no response but the notifications' own and the answers to the
    receiver's requests, which it never disposes of. *)
Theorem sourcekitd_used_safely (tr : list event) (s : state) :
  traced ctx tr s → fresh_notifications (calls_made s.1) →
  let calls := calls_made s.1 in
  ∃ l, ledger_of calls = Some l ∧
    all_asked (asked_by (λ r, ∃ sid, Received sid r ∈ tr) calls) calls ∧
    ((∀ t, t ∈ s.2 → t = TRet tt) →
      objects l = ∅ ∧ ∀ r, r ∈ responses l → kept calls r).
Proof.
  intros Ht Hf calls. destruct (truthful_run tr s Ht Hf) as (_ & gs & l & _ & _ & Hg & _ & Hc).
  exists l. split; [apply Hg|]. split; [apply Hg|]. intros Hdone. specialize (Hc Hdone).
  assert (∀ i li, map owned gs !! i = Some li → clean calls li) as Hcl.
  { intros i li (g & -> & Hi)%list_lookup_fmap_Some. by eapply Hc. }
  pose proof (gr_shares _ _ _ _ _ _ Hg) as Hs. split.
  - apply leibniz_equiv, elem_of_equiv_empty. intros o Hin.
    destruct (sh_object _ _ Hs o Hin) as (i & li & Hi & Hoi).
    destruct (Hcl i li Hi) as [E0 _]. set_solver.
  - intros r Hin. destruct (sh_response _ _ Hs r Hin) as (i & li & Hi & Hri).
    by apply (Hcl i li Hi).
Qed.

(** C3: every answer is true: in every run, however its threads interleave, the process
    implements the protocol of its sessions in which a request for completions is answered
    with nothing else than sourcekitd's description of its response to a request that asks
    exactly what the peer's does, its file, its text cut at its position, that position and
    its flags, or with the empty answer; and one for diagnostics with what sourcekitd told
    the receiver about that very file, after a notification that named it, or the empty
    answer.  No answer is one for another file, another text or another position. *)
Theorem answers_are_true (tr : list event) (s : state) :
  traced ctx tr s → fresh_notifications (calls_made s.1) →
  ∃ γ, @spec_run (truth (calls_made s.1)) tr γ ∧ wire s.1 = sent_of tr.
Proof.
  intros Ht Hf. destruct (truthful_run tr s Ht Hf) as (γ & gs & l & Hr & Hw & _). by exists γ.
Qed.

(** C7: the only thing any thread of the server ever waits for is the notification about a
    document: in every state a run reaches, a thread that cannot go on has ended, or has
    failed, or awaits a future that is registered in the channel for the document of a
    diagnostics request some peer has sent; and whatever value is set for that document,
    it goes on with that value. *)
Theorem only_notifications_awaited (tr : list event) (s : state) (i : nat) (t : thread App unit) :
  traced ctx tr s → fresh_notifications (calls_made s.1) →
  s.2 !! i = Some t → tstep t s.1 = None →
  t = TRet tt ∨ (∃ f, t = TFail f) ∨
  ∃ ready k p key, t = TWait ready k ∧ awaitable (λ r, ∃ sid, Received sid r ∈ tr) key ∧
    registered (channel_of (world s.1)) key p ∧
    ∀ v, ∃ ch, set key v (channel_of (world s.1)) = Ok ch ∧
      ∀ a, channel_of (world a) = ch → tstep t a = Some (k v, a).
Proof.
  intros Ht Hf Hi Hn. destruct (truthful_run tr s Ht Hf) as (_ & gs & l & _ & _ & Hg & Hst & _).
  destruct (Hst i t Hi) as (g & Hgi & Hs). destruct t as [[]|f|m|ready k]; [by left|by right; left; eexists|done|].
  right; right. destruct Hs as (p & key & Ea & Er).
  destruct (gr_holds _ _ _ _ _ _ Hg i g Hgi) as [Hwf Hp]. destruct (Hp p key Ea) as [Hd Hreg].
  cbn in Hn. rewrite Er in Hn. exists ready, k, p, key. split; [done|]. split; [exact Hd|].
  destruct Hreg as [Hreg|(v & Hv & _)]; [|unfold future_ready in Hn; by rewrite Hv in Hn].
  split; [exact Hreg|]. intros v. destruct (set_spec key v _ Hwf) as (ch & E & _ & _ & _ & Hset & _).
  exists ch. split; [exact E|]. intros a <-. cbn. rewrite Er. unfold future_ready.
  by rewrite (Hset p Hreg).
Qed.
End Ledger.

(** ** The hypotheses can hold *)

(** Whether every notification's response is new when it is delivered. *)
Fixpoint fresh_from (tr : trace) (l : ledger) : bool :=
  match tr with
  | [] => true
  | c :: tr =>
      match c with HandlerReceives r => bool_decide (r ∉ responses l) | _ => true end &&
      match account c l with Some l => fresh_from tr l | None => true end
  end.
Lemma fresh_from_spec tr l pre r post l' :
  fresh_from tr l = true → tr = pre ++ HandlerReceives r :: post → accounts pre l = Some l' →
  r ∉ responses l'.
Proof.
  revert tr l. induction pre as [|c pre IH]; intros tr l Hf -> E; cbn in *.
  - apply andb_prop in Hf as [Hf _]. simplify_eq. by apply bool_decide_eq_true in Hf.
  - apply andb_prop in Hf as [_ Hf]. destruct (account c l) as [l1|]; [|done]. by eapply IH.
Qed.
Lemma fresh_from_notifications tr : fresh_from tr ledger_new = true → fresh_notifications tr.
Proof. intros Hf pre r post l -> E. by eapply fresh_from_spec. Qed.

(** A completion request; while its first answer is awaited, a notification for the document
    [f] arrives, and the receiver's calls come between the query's.  The answer is sent before
    the thread that wrote it ends. *)
Definition busy_request : request :=
  {| req_version := 11; req_method := "POST"; req_url := "/completions"; req_fields := [];
     req_body := json "{'line':1,'column':4,'file_name':'a.swift','contents':'foo.','flags':['-v']}" |}.
Definition busy_moves : list move :=
  [MAccept None] ++ repeat (MThread 0) 4 ++ [MRead 0 busy_request] ++ repeat (MThread 1) 4 ++
  [MBlock 0] ++ repeat (MThread 2) 20 ++ [MNotify 99] ++
  concat (repeat [MThread 3; MThread 2] 17) ++ repeat (MThread 2) 8 ++
  [MSend 0; MThread 2].
Definition busy_run : list event * state :=
  default ([], server_new) (exec quiet_context busy_moves server_new).
Definition sent_requests (tr : trace) : trace := filter (λ c, is_send c = true) tr.
Lemma busy_run_traced : traced quiet_context busy_run.1 busy_run.2.
Proof.
  apply (exec_run quiet_context busy_moves). unfold busy_run.
  generalize (eq_refl : bool_decide (is_Some (exec quiet_context busy_moves server_new)) = true).
  by destruct (exec quiet_context busy_moves server_new) as [[tr s]|].
Qed.
Lemma sourcekitd_used_safely_witness :
  let calls := calls_made busy_run.2.1 in
  sent_requests calls = [RequestSendSync 1 4; RequestSendSync 101 103; RequestSendSync 100 105] ∧
  calls !! 19 = Some (HandlerReceives 99) ∧
  ∃ l, ledger_of calls = Some l ∧
    all_asked (asked_by (λ r, ∃ sid, Received sid r ∈ busy_run.1) calls) calls ∧ objects l = ∅.
Proof.
  cbv zeta. split; [vm_compute; reflexivity|].
  split; [vm_compute; reflexivity|].
  destruct (sourcekitd_used_safely quiet_context busy_run.1 busy_run.2 busy_run_traced)
    as (l & E & Ha & Hd).
  { apply fresh_from_notifications. vm_compute. reflexivity. }
  exists l. split; [exact E|]. split; [exact Ha|]. apply Hd.
  assert (busy_run.2.2 = [TRet tt; TRet tt; TRet tt; TRet tt]) as -> by (vm_compute; reflexivity).
  intros t [->|[->|[->|[->|[]]]]]%list_elem_of_In; reflexivity.
Defined.
(** The peer has been sent the body [json 54]: what [counting_skd] said of the response [105]. *)
Lemma answers_are_true_witness :
  let calls := calls_made busy_run.2.1 in
  (∃ γ, @spec_run (truth calls) busy_run.1 γ) ∧
  ∃ head, wire busy_run.2.1 = [(0, head +:+ "json 54")] ∧
    calls !! 53 = Some (ResponseGetValue 105) ∧ calls !! 54 = Some (JsonDescriptionCopy 105).
Proof.
  cbv zeta. split.
  - destruct (answers_are_true quiet_context busy_run.1 busy_run.2 busy_run_traced) as (γ & Hr & _).
    { apply fresh_from_notifications. vm_compute. reflexivity. }
    exists γ. exact Hr.
  - exists (match wire busy_run.2.1 with (_, bytes) :: _ => str_take 83 bytes | [] => EmptyString end).
    split_and!; vm_compute; reflexivity.
Defined.

(** A diagnostics request; both its requests have been answered and no notification has come. *)
Definition doc_request : request :=
  {| req_version := 11; req_method := "POST"; req_url := "/diagnostics"; req_fields := [];
     req_body := json "{'file_name':'f','contents':'foo.','flags':['-v']}" |}.
Definition doc_moves : list move :=
  [MAccept None] ++ repeat (MThread 0) 4 ++ [MRead 0 doc_request] ++ repeat (MThread 1) 4 ++
  [MBlock 0] ++ repeat (MThread 2) 38.
Definition doc_run : list event * state :=
  default ([], server_new) (exec quiet_context doc_moves server_new).
Lemma doc_run_traced : traced quiet_context doc_run.1 doc_run.2.
Proof.
  apply (exec_run quiet_context doc_moves). unfold doc_run.
  generalize (eq_refl : bool_decide (is_Some (exec quiet_context doc_moves server_new)) = true).
  by destruct (exec quiet_context doc_moves server_new) as [[tr s]|].
Qed.
Definition waits_now (a : App) (t : thread App unit) : bool :=
  match t with TWait ready _ => match ready a with None => true | _ => false end | _ => false end.
Lemma waits_now_stuck a t :
  waits_now a t = true → tstep t a = None ∧ t ≠ TRet tt ∧ ∀ f, t ≠ TFail f.
Proof. destruct t as [| | |ready k]; try done. cbn. by destruct (ready a). Qed.
Lemma only_notifications_awaited_witness :
  ∃ t p key, doc_run.2.2 !! 2 = Some t ∧ tstep t doc_run.2.1 = None ∧
    awaitable (λ r, ∃ sid, Received sid r ∈ doc_run.1) key ∧
    registered (channel_of (world doc_run.2.1)) key p.
Proof.
  assert (option_map (waits_now doc_run.2.1) (doc_run.2.2 !! 2) = Some true) as Hb
    by (vm_compute; reflexivity).
  destruct (doc_run.2.2 !! 2) as [t|] eqn:Et; [|discriminate Hb]. injection Hb as Hb.
  destruct (waits_now_stuck _ _ Hb) as (Hn & Hr & Hfl).
  destruct (only_notifications_awaited quiet_context doc_run.1 doc_run.2 2 t doc_run_traced)
    as [E|[[f E]|(ready & k & p & key & _ & Ha & Hreg & _)]].
  - apply fresh_from_notifications. vm_compute. reflexivity.
  - exact Et.
  - exact Hn.
  - destruct (Hr E).
  - destruct (Hfl f E).
  - exists t, p, key. split; [reflexivity|]. split; [exact Hn|]. split; [exact Ha|exact Hreg].
Defined.
