(* ===== verification/Connection.v ===== *)
(** * Connections: the process and the bytes its peers send

    The steps of Server.v with the sockets: what a peer has sent reaches a session's
    buffer and the parser of its read, [Session::_streambuf] and beast's [read_op],
    in pieces of any size, and the requests that are read are those the bytes say. *)

From S2P Require Import Prelude Ptree JsonRead.
From S2P Require Import HttpMessage HttpParser HttpParserSafe HttpParserReads HttpParserBytes.
From S2P Require Import HttpParserStream HttpNames HttpText HttpReadBack.
From S2P Require Import Logging Futures SourceKitD Ledger Offset SourceKit Requests Completer Ownership Shares.
From S2P Require Import Endpoints Protocol Resources Server ServerLedger.

(** ** Connections *)

(** The session's [_streambuf], the operation that reads a message, what the peer
    has sent and the socket has not given yet, and all it has sent. *)
Record conn := {
  c_buffer : string;
  c_read : option parse_op;
  c_inbox : string;
  c_sent : string;
}.
Definition conn_new : conn :=
  {| c_buffer := EmptyString; c_read := None; c_inbox := EmptyString; c_sent := EmptyString |}.
Definition conn_receive (b : string) (c : conn) : conn :=
  {| c_buffer := c_buffer c; c_read := c_read c; c_inbox := c_inbox c +:+ b;
     c_sent := c_sent c +:+ b |}.
Definition conn_take (n : nat) (c : conn) : conn :=
  {| c_buffer := c_buffer c; c_read := c_read c; c_inbox := str_drop n (c_inbox c);
     c_sent := c_sent c |}.
Definition conn_reading (o : parse_op) (c : conn) : conn :=
  {| c_buffer := c_buffer c; c_read := Some o; c_inbox := c_inbox c; c_sent := c_sent c |}.
Definition conn_finish (buffer : string) (c : conn) : conn :=
  {| c_buffer := buffer; c_read := None; c_inbox := c_inbox c; c_sent := c_sent c |}.

Section Connections.
Context `{SourceKitD} (ctx : ServiceContext).
(** The text of an error a read ends with: beast's, Boost.Asio's and the system's. *)
Context (error_message : read_error → string).

Record net := { n_proc : Server.state; n_conns : nat → conn }.
Definition net_new : net := {| n_proc := server_new; n_conns := λ _, conn_new |}.
Definition set_conn (sid : nat) (c : conn) (n : net) : net :=
  {| n_proc := n_proc n; n_conns := λ sid', if decide (sid' = sid) then c else n_conns n sid' |}.

(** ** Steps *)

Inductive net_move :=
| PeerSends (sid : nat) (b : string)
| ReadBegins (i : nat)
| SocketGives (sid size : nat)
| SocketEnds (sid : nat)
| SocketFails (sid : nat) (what : string)
| ReadEnds (i : nat)
| Runs (m : move).

(** The operation goes on; a failure of the parser ends the process. *)
Definition go_on (sid : nat) (o : outcome parse_op) (c : conn) (n : net) : net :=
  match o with
  | Ok op => set_conn sid (conn_reading op c) n
  | Fail f =>
      let '(a, ts) := n_proc n in
      {| n_proc := (set_ended (Crashed f) a, ts); n_conns := n_conns n |}
  end.
(** The read of a session that waits for its socket. *)
Definition waiting (n : net) (sid : nat) : option parse_data :=
  match ended (n_proc n).1, c_read (n_conns n sid) with
  | None, Some (Reading d) => Some d
  | _, _ => None
  end.
(** The handler's call: the message is given to the session, or the error. *)
Definition read_move (i : nat) (ec : option read_error) (d : parse_data) : move :=
  match ec with
  | None => MRead i (to_request (m_ (derived (op_parser d))))
  | Some e => MReadFails i (error_message e)
  end.
Definition is_read (m : move) : bool := match m with MRead _ _ | MReadFails _ _ => true | _ => false end.

Definition net_do (m : net_move) (n : net) : option (option event * net) :=
  match m with
  | PeerSends sid b => Some (None, set_conn sid (conn_receive b (n_conns n sid)) n)
  | ReadBegins i =>
      if ended (n_proc n).1 then None else
      match ops (n_proc n).1 !! i with
      | Some (sid, OpRead) =>
          let c := n_conns n sid in
          match c_read c with
          | None => Some (None, go_on sid (parse_start true (c_buffer c) (init true)) c n)
          | Some _ => None
          end
      | _ => None
      end
  | SocketGives sid size =>
      d ← waiting n sid;
      let c := n_conns n sid in
      if (0 <? size)%nat && (size <=? String.length (c_inbox c))%nat && (size <=? 65536)%nat
      then Some (None, go_on sid (parse_read true d (Got (str_take size (c_inbox c)))) (conn_take size c) n)
      else None
  | SocketEnds sid =>
      d ← waiting n sid;
      let c := n_conns n sid in
      if String.eqb (c_inbox c) EmptyString
      then Some (None, go_on sid (parse_read true d Eof) c n) else None
  | SocketFails sid what =>
      d ← waiting n sid;
      Some (None, go_on sid (parse_read true d (ReadError what)) (n_conns n sid) n)
  | ReadEnds i =>
      match ops (n_proc n).1 !! i with
      | Some (sid, OpRead) =>
          match c_read (n_conns n sid) with
          | Some (Parsed ec d) =>
              '(l, s) ← exec_move ctx (read_move i ec d) (n_proc n);
              Some (l, set_conn sid (conn_finish (db d) (n_conns n sid))
                         {| n_proc := s; n_conns := n_conns n |})
          | _ => None
          end
      | _ => None
      end
  | Runs m =>
      if is_read m then None else
      '(l, s) ← exec_move ctx m (n_proc n);
      Some (l, {| n_proc := s; n_conns := n_conns n |})
  end.
Fixpoint net_exec (ms : list net_move) (n : net) : option (list event * net) :=
  match ms with
  | [] => Some ([], n)
  | m :: ms =>
      '(l, n) ← net_do m n;
      '(tr, n) ← net_exec ms n;
      Some (option_list l ++ tr, n)
  end.

(** A run of the process and its connections. *)
Inductive net_traced : list event → net → Prop :=
| NetStart : net_traced [] net_new
| NetStep tr n m l n' :
    net_traced tr n → net_do m n = Some (l, n') → net_traced (tr ++ option_list l) n'.

Lemma net_exec_traced ms tr n tr' n' :
  net_traced tr n → net_exec ms n = Some (tr', n') → net_traced (tr ++ tr') n'.
Proof.
  revert tr n tr'; induction ms as [|m ms IH]; intros tr n tr' Ht E; cbn in E.
  - injection E as <- <-. by rewrite app_nil_r.
  - apply bind_Some in E as ([l n1] & Hm & E). apply bind_Some in E as ([tr1 n2] & Hms & E).
    injection E as <- <-. rewrite app_assoc. eapply IH; [|exact Hms]. by econstructor.
Qed.

(** ** What a connection is *)

(** Between the steps the read waits with its buffer used up and a parser that can
    be written to, or has ended with a message or an error; and the socket has given
    a beginning of what the peer has sent. *)
Record conn_ok (c : conn) : Prop := {
  ok_read : ∀ op, c_read c = Some op → op_ok true op;
  ok_sent : ∃ given, c_sent c = given +:+ c_inbox c;
}.
Definition net_ok (n : net) : Prop := ∀ sid, conn_ok (n_conns n sid).

Lemma set_conn_ok sid c n : net_ok n → conn_ok c → net_ok (set_conn sid c n).
Proof. intros Hn Hc sid'. cbn. by destruct (decide (sid' = sid)). Qed.
Lemma conn_receive_ok b c : conn_ok c → conn_ok (conn_receive b c).
Proof. intros [Hr [g E]]. split; [done|]. exists g. cbn. by rewrite E, str_app_assoc. Qed.
Lemma conn_reading_ok op c : conn_ok c → op_ok true op → conn_ok (conn_reading op c).
Proof. intros [_ Hs] Hop. split; [|done]. by intros op' [= <-]. Qed.
Lemma conn_take_ok k c : conn_ok c → conn_ok (conn_take k c).
Proof.
  intros [Hr [g E]]. split; [done|]. exists (g +:+ str_take k (c_inbox c)). cbn.
  by rewrite E, str_app_assoc, str_take_drop.
Qed.
Lemma conn_finish_ok b c : conn_ok c → conn_ok (conn_finish b c).
Proof. intros [_ Hs]. by split. Qed.

(** The operation goes on without a failure. *)
Lemma go_on_ok sid o c n :
  net_ok n → conn_ok c → (∃ op, o = Ok op ∧ op_ok true op) →
  net_ok (go_on sid o c n) ∧ n_proc (go_on sid o c n) = n_proc n.
Proof.
  intros Hn Hc (op & -> & Hop). split; [|done]. by apply set_conn_ok, conn_reading_ok.
Qed.
Lemma waiting_Some n sid d :
  waiting n sid = Some d → ended (n_proc n).1 = None ∧ c_read (n_conns n sid) = Some (Reading d).
Proof.
  unfold waiting. destruct (ended _); [done|]. destruct (c_read _) as [[d'|]|]; [|done|done].
  by intros [= ->].
Qed.
Lemma waiting_ok n sid d r :
  net_ok n → waiting n sid = Some d → some_bytes r →
  ∃ op, parse_read true d r = Ok op ∧ op_ok true op.
Proof.
  intros Hn Hw Hr. apply waiting_Some in Hw as [_ Hw].
  apply parse_read_ok; [|done]. by apply (ok_read _ (Hn sid)).
Qed.
Lemma some_pair {A B} (a a' : A) (b b' : B) : Some (a, b) = Some (a', b') → a = a' ∧ b = b'.
Proof. by intros [= -> ->]. Qed.
Lemma waiting_go n sid d r c :
  net_ok n → waiting n sid = Some d → some_bytes r → conn_ok c →
  let n' := go_on sid (parse_read true d r) c n in
  net_ok n' ∧ (None : option event) = None ∧ n_proc n' = n_proc n.
Proof.
  intros Hn Hw Hr Hc n'. destruct (go_on_ok sid (parse_read true d r) c n Hn Hc) as [? ?].
  { by apply waiting_ok with n sid. }
  by split_and!.
Qed.
Lemma str_take_nonempty k s :
  (0 < k)%nat → (k ≤ String.length s)%nat → str_take k s ≠ EmptyString.
Proof. intros Hk Hl E. apply (f_equal String.length) in E. rewrite length_str_take in E. cbn in E. lia. Qed.
Lemma socket_gives_guard size len :
  (0 <? size)%nat && (size <=? len)%nat && (size <=? 65536)%nat = true →
  (0 < size)%nat ∧ (size ≤ len)%nat.
Proof.
  intros [[H1%Nat.ltb_lt H2%Nat.leb_le]%andb_prop _]%andb_prop. by split.
Qed.

(** What a step does to the process: one of its steps, or nothing. *)
Definition quiet_move (m : net_move) : bool :=
  match m with ReadEnds _ | Runs _ => false | _ => true end.
Lemma net_do_ok m n l n' :
  net_ok n → net_do m n = Some (l, n') →
  net_ok n' ∧
  if quiet_move m then l = None ∧ n_proc n' = n_proc n else lstep ctx (n_proc n) l (n_proc n').
Proof.
  intros Hn E. destruct m as [sid b|i|sid size|sid|sid what|i|m]; cbn [net_do quiet_move] in *.
  - apply some_pair in E as [<- <-]. split; [|done]. by apply set_conn_ok, conn_receive_ok.
  - destruct (ended _); [done|]. destruct (ops _ !! i) as [[sid [|]]|]; [|done|done].
    destruct (c_read _); [done|]. apply some_pair in E as [<- <-].
    destruct (go_on_ok sid (parse_start true (c_buffer (n_conns n sid)) (init true)) (n_conns n sid) n)
      as [? ?]; [done|done| |by split_and!]. apply parse_start_ok, init_ok.
  - apply bind_Some in E as (d & Hw & E). cbn zeta in E. destruct (_ && _) eqn:Hg; [|done].
    apply some_pair in E as [<- <-]. apply socket_gives_guard in Hg as [Hg1 Hg2].
    by apply (waiting_go n sid d); [| | |apply conn_take_ok]; [..|apply str_take_nonempty|].
  - apply bind_Some in E as (d & Hw & E). cbn zeta in E. destruct (String.eqb _ _); [|done].
    apply some_pair in E as [<- <-]. by apply (waiting_go n sid d).
  - apply bind_Some in E as (d & Hw & E). apply some_pair in E as [<- <-]. by apply (waiting_go n sid d).
  - destruct (ops _ !! i) as [[sid [|]]|]; [|done|done].
    destruct (c_read _) as [[|ec d]|]; [done| |done]. apply bind_Some in E as ([l0 s] & Hm & E).
    apply some_pair in E as [<- <-]. split; [|by eapply exec_move_sound].
    apply (set_conn_ok sid _ {| n_proc := s; n_conns := n_conns n |}); [done|]. by apply conn_finish_ok.
  - destruct (is_read m); [done|]. apply bind_Some in E as ([l0 s] & Hm & E).
    apply some_pair in E as [<- <-]. split; [done|]. by eapply exec_move_sound.
Qed.
Lemma net_traced_ok tr n : net_traced tr n → net_ok n ∧ traced ctx tr (n_proc n).
Proof.
  induction 1 as [|tr n m l n' Ht [IHn IHt] E].
  - split; [|constructor]. intros sid. split; [done|]. by exists EmptyString.
  - destruct (net_do_ok m n l n' IHn E) as [Hn' Hm]. split; [done|]. destruct (quiet_move m).
    + destruct Hm as [-> ->]. cbn. by rewrite app_nil_r.
    + by econstructor.
Qed.
End Connections.

(** ** A stream of messages *)

(** The bytes of a message. *)
Definition wired (w : string) (m : message) : Prop := ends_with true w (init true) m.
(** The bytes [s] are the beginning of a message, read by [P]. *)
Definition fed (s : string) (P : parser) : Prop :=
  parser_live true P ∧ write_bytes true s (init true) = Ok (String.length s, None, P).

Lemma fed_nil : fed EmptyString (init true).
Proof. split; [apply init_ok|done]. Qed.
Lemma str_app_prefix (w s y x : string) :
  s +:+ x = w +:+ y → (String.length w ≤ String.length s)%nat →
  s = w +:+ str_drop (String.length w) s.
Proof.
  revert s; induction w as [|c w IH]; intros s E Hl; [done|].
  destruct s as [|c' s]; [cbn in Hl; lia|]. rewrite !str_app_cons in E. injection E as -> E.
  rewrite str_app_cons. cbn [str_drop]. f_equal. apply IH; [done|cbn in Hl; lia].
Qed.
(** More bytes of the same message, or its end. *)
Lemma fed_more s P w m b x y :
  fed s P → wired w m → (s +:+ b) +:+ x = w +:+ y →
  (∃ P1, fed (s +:+ b) P1 ∧ write_bytes true b P = Ok (String.length b, None, P1)) ∨
  (∃ n Q, write_bytes true b P = Ok (n, None, Q) ∧ complete Q = true ∧
     m_ (derived Q) = m ∧ s +:+ b = w +:+ str_drop n b).
Proof.
  intros [HP Hs] (Q & Hw & Hc & Hm) E. specialize (Hw y). rewrite <- E in Hw.
  destruct (write_bytes_app true _ _ _ _ _ (init_ok true) Hw) as [(_ & Hl & Hsb)|(k & P1 & HP1 & _ & Hsb & _)];
    destruct (write_bytes_app true _ _ _ _ _ (init_ok true) Hsb)
      as [(Hc' & _ & Hs')|(j & P2 & _ & Ej & Hs' & Hb)]; rewrite Hs in Hs'.
  - injection Hs' as _ ->. by rewrite (complete_live _ _ HP) in Hc'.
  - injection Hs' as <-. right. exists j, Q. split_and!; try done.
    rewrite (str_app_prefix w (s +:+ b) y x E Hl) at 1. by rewrite Ej, str_drop_app_ge.
  - injection Hs' as _ ->. by rewrite (complete_live _ _ HP) in Hc'.
  - injection Hs' as <-. left. exists P1. rewrite str_length_app in Ej.
    assert (j = String.length b) as -> by lia. by split.
Qed.

(** What the read of a session holds of the bytes [s] it has been given, when [es]
    are the messages to come. *)
Definition held (es : list (string * message)) (op : parse_op) (s : string) : Prop :=
  match op with
  | Reading d => db d = EmptyString ∧ fed s (op_parser d)
  | Parsed None d => ∃ w m es', es = (w, m) :: es' ∧ s = w +:+ db d ∧ m_ (derived (op_parser d)) = m
  | Parsed (Some _) _ => False
  end.
Definition all_wired (es : list (string * message)) : Prop := Forall (λ e, wired e.1 e.2) es.
(** The bytes are the beginning of the messages'. *)
Definition begins_with (s : string) (es : list (string * message)) : Prop :=
  ∃ x, s +:+ x = str_concat es.*1.

Lemma begins_with_nil s : begins_with s [] → s = EmptyString.
Proof. intros [x E]. by destruct s. Qed.
Lemma begins_with_app s t es : begins_with (s +:+ t) es → begins_with s es.
Proof. intros [x E]. exists (t +:+ x). by rewrite <- str_app_assoc. Qed.

Lemma held_start es buffer op :
  all_wired es → begins_with buffer es → parse_start true buffer (init true) = Ok op →
  held es op buffer.
Proof.
  intros Hes Hb. unfold parse_start. rewrite (complete_live _ _ (init_ok true)).
  destruct es as [|[w m] es].
  { rewrite (begins_with_nil _ Hb). intros [= <-]. split; [done|apply fed_nil]. }
  apply Forall_cons in Hes as [Hw _]. destruct Hb as [x Hx]. cbn [fmap list_fmap str_concat fst] in Hx.
  destruct (fed_more EmptyString (init true) w m buffer x _ fed_nil Hw Hx)
    as [(P1 & Hf & E)|(n & Q & E & Hc & Hm & Hs)];
    rewrite (write_of_bytes _ _ _ _ _ (init_ok true) E); cbn.
  - rewrite (complete_live _ _ (proj1 Hf)), str_drop_all. intros [= <-]. by split.
  - rewrite Hc. intros [= <-]. by exists w, m, es.
Qed.
Lemma held_got es d s b op :
  all_wired es → held es (Reading d) s → b ≠ EmptyString → begins_with (s +:+ b) es →
  parse_read true d (Got b) = Ok op → held es op (s +:+ b).
Proof.
  intros Hes [Hd Hf] Hne Hb Hop. destruct es as [|[w m] es].
  { apply begins_with_nil in Hb. by destruct s, b. }
  apply Forall_cons in Hes as [Hw _]. destruct Hb as [x Hx]. cbn [fmap list_fmap str_concat fst] in Hx.
  destruct (fed_more s (op_parser d) w m b x _ Hf Hw Hx) as [(P1 & Hf' & E)|(n & Q & E & Hc & Hm & Hs)];
    rewrite (parse_read_bytes _ _ _ _ _ (proj1 Hf) Hd Hne E) in Hop by auto.
  - rewrite (complete_live _ _ (proj1 Hf')), str_drop_all in Hop. injection Hop as <-. by split.
  - rewrite Hc in Hop. injection Hop as <-. by exists w, m, es.
Qed.

(** A body that ends with the connection does not end before it. *)
Definition until_eof (P : parser) : Prop :=
  s_ P = s_body_identity_eof0 ∨ s_ P = s_body_identity_eof.
Lemma eof_begun c P P0 n P' :
  s_ P0 = s_body_identity_eof → cb_ P0 = Some call_on_body →
  HttpParser.step true (str1 c) c (start P) = at_body_identity_eof (str1 c) (start P0) →
  write true (str1 c) P = Ok (n, None, P') → s_ P' = s_body_identity_eof.
Proof.
  intros Es Hcb Est. rewrite write_nonempty by done.
  destruct (write_body true (str1 c) (start P)) as [[g w]|] eqn:Ew; [|done].
  intros [= _ Hec <-]. destruct (write_body_finish _ _ _ _ _ Ew) as (f & z & Ez & Ef).
  rewrite eof_eq in Est by (cbn; lia). change (write_fuel (str1 c)) with 5%nat in Ez.
  assert (f = Break ∧ z = set_p 1 (start P0)) as [-> ->].
  { cbn [write_loop] in Ez. rewrite (bind_ok st_get _ _ (start P) (start P)) in Ez by done.
    change (char_at (str1 c) (c_p (start P))) with (Some c) in Ez. cbv iota in Ez.
    rewrite (bind_ok _ _ _ _ _ Est), (bind_ok _ _ _ _ _ (next_char_eq _)) in Ez.
    cbn in Ez. by injection Ez as <- <-. }
  unfold finish in Ef. rewrite (bind_ok getP _ _ P0 (set_p 1 (start P0))) in Ef by done.
  rewrite Hcb in Ef. apply bind_inv in Ef as (t & z & Ht & Ef). injection Ht as _ <-.
  apply bind_inv in Ef as ([] & z & Hz & Ef). rewrite if_ec_eq in Ef.
  destruct (c_ec z) eqn:Ec; [by injection Ef as <-; cbn in Hec; rewrite Ec in Hec|].
  injection Ef as <-. destruct (proj1 (call_pmf_deliver true call_on_body t (set_p 1 (start P0)) z eq_refl))
    as (P1 & Hd & ->); [by split|].
  destruct (deliver_after _ _ _ _ _ Hd) as (h & b & d & -> & _). exact Es.
Qed.
Lemma until_eof_byte c P n P' :
  parser_live true P → until_eof P → write true (str1 c) P = Ok (n, None, P') →
  s_ P' = s_body_identity_eof.
Proof.
  intros Hl Hs. pose proof (live_state _ _ Hl) as Ho. unfold state_ok in Ho. destruct Hs as [Es|Es]; rewrite Es in Ho.
  - apply (eof_begun c P (set_s s_body_identity_eof (set_cb (Some call_on_body) P))); [done|done|].
    rewrite (step_eq true _ _ (start P) _ Es). unfold at_body_identity_eof0.
    rewrite (begin_eq true _ _ (start P)); [done| |done]. tauto.
  - apply (eof_begun c P P); [done|done|]. by rewrite (step_eq true _ _ (start P) _ Es).
Qed.
Lemma until_eof_bytes b P n P' :
  parser_live true P → until_eof P → write_bytes true b P = Ok (n, None, P') → complete P' = false.
Proof.
  revert P n; induction b as [|c b IH]; intros P n Hl Hs E; cbn [write_bytes] in E.
  - injection E as <- <-. by apply (complete_live true).
  - destruct (write_ok true (str1 c) P Hl) as ([[k ec] P1] & Ew & [_ _ Hall _]). rewrite Ew in E. cbn in E.
    destruct ec as [e|]; [done|]. pose proof (until_eof_byte _ _ _ _ Hl Hs Ew) as Es1. cbn in Hall.
    destruct (Hall eq_refl) as [Er|[_ Hl1]]; [by rewrite Er in Es1|].
    rewrite (complete_live _ _ Hl1) in E.
    destruct (write_bytes true b P1) as [[[j ec] P2]|] eqn:Eb; [|done]. injection E as _ -> ->.
    apply (IH P1 j Hl1); [by right|done].
Qed.
(** A message that says where it ends is not read to the end of the connection. *)
Lemma fed_not_eof s P w m x y : fed s P → wired w m → s +:+ x = w +:+ y → ¬ until_eof P.
Proof.
  intros Hf Hw E Hs. destruct Hw as (Q & Hw & Hc & _). specialize (Hw y). rewrite <- E in Hw.
  destruct Hf as [Hl Hf].
  destruct (write_bytes_app true _ _ _ _ _ (init_ok true) Hw) as [(_ & _ & Hs')|(k & P1 & _ & _ & Hs' & Hx)];
    rewrite Hf in Hs'; injection Hs' as E'.
  - subst. by rewrite (complete_live _ _ Hl) in Hc.
  - subst. by rewrite (until_eof_bytes _ _ _ _ Hl Hs Hx) in Hc.
Qed.
Lemma held_eof es d s op :
  all_wired es → held es (Reading d) s → begins_with s es →
  parse_read true d Eof = Ok op → ∃ e d', op = Parsed (Some e) d'.
Proof.
  intros Hes [_ Hf] [x Hx]. cbn [parse_read]. destruct (negb (got_some d)); [intros [= <-]; by do 2 eexists|].
  assert (¬ until_eof (op_parser d)) as Hne.
  { destruct es as [|[w m] es].
    - assert (s = EmptyString) as -> by by destruct s. destruct Hf as [_ [= <-]]. by intros [|].
    - apply Forall_cons in Hes as [Hw _]. by apply (fed_not_eof s _ w m x (str_concat es.*1) Hf Hw). }
  destruct Hf as [[_ Hl] _]. unfold until_eof, write_eof in *.
  destruct (s_ (op_parser d)); try done; try (by intros [= <-]; do 2 eexists); exfalso; tauto.
Qed.

(** ** The requests of a session *)

Lemma begins_with_drop k t es :
  begins_with (str_concat (take k es).*1 +:+ t) es → begins_with t (drop k es).
Proof.
  intros [x E]. exists x. rewrite <- (take_drop k es) in E at 2.
  rewrite fmap_app, str_concat_app, str_app_assoc in E. by apply (inj (String.append _)) in E.
Qed.
(** The message that is next, and the others. *)
Lemma take_next (es : list (string * message)) k w m es' :
  drop k es = (w, m) :: es' → take (S k) es = take k es ++ [(w, m)] ∧ drop (S k) es = es'.
Proof.
  intros E. assert (es !! k = Some (w, m)) as Hk.
  { pose proof (lookup_drop es k 0) as Hl. rewrite E, Nat.add_0_r in Hl. by rewrite <- Hl. }
  split; [by apply take_S_r|]. rewrite (drop_S _ _ _ Hk) in E. congruence.
Qed.

(** Where a connection is, when [k] messages have been read: its session has been
    closed, its read has failed, or it holds what it has been given behind them. *)
Definition progress (es : list (string * message)) (k : nat) (p : phase) (c : conn) : Prop :=
  (p = Closed ∧ c_read c = None) ∨
  (∃ e d, c_read c = Some (Parsed (Some e) d)) ∨
  (∃ s, c_sent c = str_concat (take k es).*1 +:+ s +:+ c_inbox c ∧
     match c_read c with None => s = c_buffer c | Some op => held (drop k es) op s end).
Definition reads_of (es : list (string * message)) : list request := (λ e, to_request e.2) <$> es.

Lemma progress_receive es k p b c : progress es k p c → progress es k p (conn_receive b c).
Proof.
  intros [?|[?|(s & E & Hs)]]; [by left|by right; left|]. right; right. exists s.
  split; [|done]. cbn. by rewrite E, !str_app_assoc.
Qed.
Lemma progress_begin es k c op p :
  all_wired es → begins_with (c_sent c) es → progress es k p c → c_read c = None → p ≠ Closed →
  parse_start true (c_buffer c) (init true) = Ok op → progress es k p (conn_reading op c).
Proof.
  intros Hes Hb [[? _]|[(e & d & E)|(s & E & Hs)]] Hr Hp Hop; [done|congruence|].
  rewrite Hr in Hs. right; right. exists s. split; [done|]. cbn. subst s.
  rewrite E in Hb. apply begins_with_drop, begins_with_app in Hb.
  apply held_start; [by apply Forall_drop|done|done].
Qed.
Lemma progress_got es k p c d size op :
  all_wired es → begins_with (c_sent c) es → progress es k p c → c_read c = Some (Reading d) →
  (0 < size)%nat → (size ≤ String.length (c_inbox c))%nat →
  parse_read true d (Got (str_take size (c_inbox c))) = Ok op →
  progress es k p (conn_reading op (conn_take size c)).
Proof.
  intros Hes Hb [[_ ?]|[(e & d' & E)|(s & E & Hs)]] Hr H0 Hsz Hop; [congruence|congruence|].
  rewrite Hr in Hs. right; right. exists (s +:+ str_take size (c_inbox c)). cbn.
  rewrite E in *. rewrite <- (str_take_drop size (c_inbox c)) in Hb. rewrite <- str_app_assoc in Hb.
  split; [by rewrite !str_app_assoc, str_take_drop|].
  apply (held_got _ d); [by apply Forall_drop|done|by apply str_take_nonempty| |done].
  rewrite str_app_assoc in Hb. apply begins_with_drop in Hb. rewrite <- str_app_assoc in Hb.
  by apply begins_with_app in Hb.
Qed.
Lemma progress_failed es k p c d what :
  progress es k p (conn_reading (Parsed (Some what) d) c).
Proof. right; left. by do 2 eexists. Qed.
Lemma progress_eof es k p c d op :
  all_wired es → begins_with (c_sent c) es → progress es k p c → c_read c = Some (Reading d) →
  parse_read true d Eof = Ok op → progress es k p (conn_reading op c).
Proof.
  intros Hes Hb [[_ ?]|[(e & d' & E)|(s & E & Hs)]] Hr Hop; [congruence|congruence|].
  rewrite Hr in Hs. rewrite E in Hb. apply begins_with_drop, begins_with_app in Hb.
  destruct (held_eof _ d s op (Forall_drop _ k _ Hes) Hs Hb Hop) as (e & d' & ->).
  apply progress_failed.
Qed.
(** A message that has been read is the next one. *)
Lemma progress_read es k p c d :
  progress es k p c → c_read c = Some (Parsed None d) →
  reads_of (take (S k) es) = reads_of (take k es) ++ [to_request (m_ (derived (op_parser d)))] ∧
  ∀ p', progress es (S k) p' (conn_finish (db d) c).
Proof.
  intros [[_ ?]|[(e & d' & E)|(s & E & Hs)]] Hr; [congruence|congruence|].
  rewrite Hr in Hs. destruct Hs as (w & m & es' & Hd & -> & Hm).
  destruct (take_next _ _ _ _ _ Hd) as [Ht Hd']. split.
  - unfold reads_of. rewrite Ht, fmap_app. by rewrite Hm.
  - intros p'. right; right. exists (db d). split; [|done]. cbn.
    rewrite E, Ht, fmap_app, str_concat_app, !str_app_assoc. cbn. by rewrite str_app_nil_r.
Qed.

Section Pipeline.
Context `{SourceKitD} (ctx : ServiceContext) (error_message : read_error → string).
Context (sid : nat) (es : list (string * message)) (Hes : all_wired es).

Notation conn_of n := (n_conns n sid).

(** The requests of the session are the first of the messages its peer has sent. *)
Definition tracked (γ : phases) (tr : list event) (n : net) : Prop :=
  begins_with (c_sent (conn_of n)) es →
  ∃ k, requests_of sid tr = reads_of (take k es) ∧ progress es k (γ sid) (conn_of n).

Lemma conn_set_eq c n : n_conns (set_conn sid c n) sid = c.
Proof. cbn. by rewrite decide_True. Qed.
Lemma conn_set_ne sid' c n : sid ≠ sid' → n_conns (set_conn sid' c n) sid = conn_of n.
Proof. intros Hne. cbn. by rewrite decide_False. Qed.
(** A step of another session. *)
Lemma tracked_other γ γ' tr l n n' :
  tracked γ tr n → spec_step γ l γ' → (∀ e, l = Some e → event_sid e ≠ sid) →
  conn_of n' = conn_of n → tracked γ' (tr ++ option_list l) n'.
Proof.
  intros Ht Hs He Hc. unfold tracked. rewrite Hc. intros Hb. destruct (Ht Hb) as (k & Hk & Hp).
  exists k. destruct Hs as [γ|γ e p Hs]; cbn.
  - by rewrite app_nil_r.
  - specialize (He e eq_refl). rewrite set_phase_ne by done. split; [|done].
    rewrite requests_of_snoc, Hk. destruct e as [s r|s|s b|s]; cbn in He; rewrite ?app_nil_r; try done.
    by rewrite decide_False, app_nil_r by done.
Qed.
(** An event that leaves the connection alone. *)
Lemma tracked_answer γ γ' tr l n n' :
  tracked γ tr n → spec_step γ l γ' →
  (∀ e, l = Some e → match e with Answered _ _ | Lost _ => True | _ => False end) →
  conn_of n' = conn_of n → tracked γ' (tr ++ option_list l) n'.
Proof.
  intros Ht Hs He Hc. unfold tracked. rewrite Hc. intros Hb. destruct (Ht Hb) as (k & Hk & Hp).
  exists k. split.
  - destruct l as [e|]; cbn; [|by rewrite app_nil_r]. rewrite requests_of_snoc, Hk.
    specialize (He e eq_refl). by destruct e; rewrite ?app_nil_r.
  - destruct Hp as [[Hcl ?]|?]; [left|by right]. split; [|done]. by apply (spec_closed γ l).
Qed.
(** The connection's own doing. *)
Lemma tracked_conn γ tr n n' :
  tracked γ tr n → (begins_with (c_sent (conn_of n')) es → begins_with (c_sent (conn_of n)) es) →
  (∀ k, begins_with (c_sent (conn_of n')) es → progress es k (γ sid) (conn_of n) →
     progress es k (γ sid) (conn_of n')) →
  tracked γ (tr ++ option_list None) n'.
Proof.
  intros Ht Hb Hp Hb'. destruct (Ht (Hb Hb')) as (k & Hk & Hpk). exists k.
  cbn. rewrite app_nil_r. split; [done|by apply Hp].
Qed.

Lemma exec_quiet_event m s l s' :
  is_read m = false → exec_move ctx m s = Some (l, s') →
  ∀ e, l = Some e → match e with Answered _ _ | Lost _ => True | _ => False end.
Proof.
  intros Hm E e ->. destruct s as [a ts]. unfold exec_move in E. destruct (ended a); [done|].
  destruct m as [ec|i r|i ec|i|i|i ec|i|i|resp|i]; try done.
  all: repeat match type of E with
    | (match ?x with _ => _ end) = _ => destruct x; try done
    | (_ ≫= _) = _ => apply bind_Some in E as (? & _ & E)
    end; injection E as E _; repeat case_match; by simplify_eq.
Qed.
Lemma exec_read_event i ec d s l s' sid' :
  exec_move ctx (read_move error_message i ec d) s = Some (l, s') → ops s.1 !! i = Some (sid', OpRead) →
  l = Some (if ec then HungUp sid' else Received sid' (to_request (m_ (derived (op_parser d))))).
Proof.
  destruct s as [a ts]. unfold exec_move. destruct (ended a); [done|]. cbn [fst]. intros E Hi.
  destruct ec; cbn [read_move] in E; rewrite Hi in E; by injection E as <- <-.
Qed.

Lemma tracked_go γ tr n sid' o c :
  net_ok n → tracked γ tr n → (∃ op, o = Ok op) → sid' ≠ sid →
  tracked γ (tr ++ option_list None) (go_on sid' o c n).
Proof.
  intros Hn Ht [op ->] Hne. apply (tracked_other γ γ tr None n); try done; [constructor|].
  by apply conn_set_ne.
Qed.

(** A read of the session goes on. *)
Lemma tracked_op γ tr n o c :
  tracked γ tr n → c_sent c = c_sent (conn_of n) → (∃ op, o = Ok op) →
  (∀ k op, o = Ok op → begins_with (c_sent (conn_of n)) es →
     progress es k (γ sid) (conn_of n) → progress es k (γ sid) (conn_reading op c)) →
  tracked γ (tr ++ option_list None) (go_on sid o c n).
Proof.
  intros Ht Hc [op ->] Hp. apply (tracked_conn γ tr n); [done| |]; cbn [go_on]; rewrite conn_set_eq; cbn [c_sent conn_reading];
    rewrite Hc; [done|]. intros k Hb. by apply Hp.
Qed.
(** It ends, with the next message or an error. *)
Lemma tracked_ends γ γ' tr n s ec d :
  tracked γ tr n → c_read (conn_of n) = Some (Parsed ec d) →
  let e := if ec then HungUp sid else Received sid (to_request (m_ (derived (op_parser d)))) in
  spec_step γ (Some e) γ' →
  tracked γ' (tr ++ option_list (Some e))
    (set_conn sid (conn_finish (db d) (conn_of n)) {| n_proc := s; n_conns := n_conns n |}).
Proof.
  intros Ht Hr e Hs. unfold tracked. rewrite conn_set_eq. cbn [c_sent conn_finish option_list].
  intros Hb. destruct (Ht Hb) as (k & Hk & Hp).
  setoid_rewrite requests_of_snoc. rewrite Hk. inversion Hs as [|γ0 e0 p Hs' E1 E2 E3]; subst. destruct ec as [e'|]; cbn in *.
  - exists k. rewrite app_nil_r. split; [done|]. left. split; [|done]. rewrite set_phase_eq.
    by inversion Hs'.
  - destruct (progress_read es k _ _ d Hp Hr) as [Hd Hp']. exists (S k). by rewrite decide_True.
Qed.
Lemma silent γ γ' : spec_step γ None γ' → γ' = γ.
Proof. intros Hs. by inversion Hs. Qed.
Lemma tracked_step γ γ' tr m n l n' :
  net_ok n → inv γ (n_proc n) → tracked γ tr n → net_do ctx error_message m n = Some (l, n') →
  spec_step γ l γ' → tracked γ' (tr ++ option_list l) n'.
Proof.
  intros Hn HI Ht E Hs. destruct m as [s b|i|s size|s|s what|i|m]; cbn [net_do] in *.
  - apply some_pair in E as [<- <-]. apply silent in Hs as ->. destruct (decide (s = sid)) as [->|Hne].
    + apply (tracked_conn γ tr n); [done| |]; rewrite conn_set_eq; [apply begins_with_app|].
      intros k _. apply progress_receive.
    + apply (tracked_other γ γ tr None n); try done; [constructor|]. by apply conn_set_ne.
  - destruct (ended _); [done|]. destruct (ops _ !! i) as [[s [|]]|] eqn:Hi; [|done|done].
    destruct (c_read _) eqn:Hr; [done|]. apply some_pair in E as [<- <-]. apply silent in Hs as ->.
    destruct (parse_start_ok true (c_buffer (n_conns n s)) _ (init_ok true)) as (op & Eop & _).
    destruct (decide (s = sid)) as [->|Hne]; [|apply tracked_go; by eauto].
    apply tracked_op; [done|done|by eauto|]. intros k op' Eop' Hb Hp.
    apply progress_begin; try done. by rewrite (inv_waiting γ (n_proc n) i sid OpRead HI Hi).
  - apply bind_Some in E as (d & Hw & E). cbn zeta in E. destruct (_ && _) eqn:Hg; [|done].
    apply some_pair in E as [<- <-]. apply silent in Hs as ->. apply socket_gives_guard in Hg as [Hg1 Hg2].
    destruct (waiting_ok n s d (Got (str_take size (c_inbox (n_conns n s)))) Hn Hw) as (op & Eop & _);
      [by apply str_take_nonempty|]. apply waiting_Some in Hw as [_ Hw].
    destruct (decide (s = sid)) as [->|Hne]; [|apply tracked_go; by eauto].
    apply tracked_op; [done|done|by eauto|]. intros k op' Eop' Hb Hp.
    by apply (progress_got es k _ _ d).
  - apply bind_Some in E as (d & Hw & E). cbn zeta in E. destruct (String.eqb _ _); [|done].
    apply some_pair in E as [<- <-]. apply silent in Hs as ->.
    destruct (waiting_ok n s d Eof Hn Hw I) as (op & Eop & _). apply waiting_Some in Hw as [_ Hw].
    destruct (decide (s = sid)) as [->|Hne]; [|apply tracked_go; by eauto].
    apply tracked_op; [done|done|by eauto|]. intros k op' Eop' Hb Hp.
    by apply (progress_eof es k _ _ d).
  - apply bind_Some in E as (d & Hw & E). apply some_pair in E as [<- <-]. apply silent in Hs as ->.
    destruct (decide (s = sid)) as [->|Hne]; [|apply tracked_go; by eauto].
    apply tracked_op; [done|done|by eauto|]. intros k op' [= <-] Hb Hp. apply progress_failed.
  - destruct (ops _ !! i) as [[s [|]]|] eqn:Hi; [|done|done].
    destruct (c_read _) as [[|ec d]|] eqn:Hr; [done| |done]. apply bind_Some in E as ([l0 s0] & Em & E).
    apply some_pair in E as [<- <-]. pose proof (exec_read_event _ _ _ _ _ _ _ Em Hi) as ->.
    destruct (decide (s = sid)) as [->|Hne].
    + by eapply tracked_ends.
    + apply (tracked_other γ γ' tr _ n); try done.
      * intros e [= <-]. by destruct ec.
      * by apply (conn_set_ne s _ {| n_proc := s0; n_conns := n_conns n |}), not_eq_sym.
  - destruct (is_read m) eqn:Hm; [done|]. apply bind_Some in E as ([l0 s] & Em & E).
    apply some_pair in E as [<- <-]. apply (tracked_answer γ γ' tr l0 n); try done.
    by apply (exec_quiet_event m (n_proc n) l0 s).
Qed.
Lemma net_tracked tr n :
  net_traced ctx error_message tr n →
  ∃ γ, spec_run tr γ ∧ inv γ (n_proc n) ∧ wire (n_proc n).1 = sent_of tr ∧ tracked γ tr n.
Proof.
  induction 1 as [|tr n m l n' Ht (γ & Hr & HI & Hw & Htr) E].
  - exists all_idle. split_and!; [constructor|apply inv_new|done|]. intros _. exists 0.
    split; [done|]. right; right. by exists EmptyString.
  - destruct (net_traced_ok _ _ _ _ Ht) as [Hn _].
    destruct (net_do_ok _ _ _ _ _ _ Hn E) as [_ Hm].
    assert (∃ γ', spec_step γ l γ' ∧ inv γ' (n_proc n') ∧
      wire (n_proc n').1 = wire (n_proc n).1 ++ sent_of (option_list l)) as (γ' & Hs & HI' & Hw').
    { destruct (quiet_move m); [|by apply (inv_step ctx _ (n_proc n))].
      destruct Hm as [-> ->]. exists γ. split_and!; [constructor|done|by rewrite app_nil_r]. }
    exists γ'. split_and!; [by econstructor|done| |by apply (tracked_step γ γ' tr m n)].
    unfold sent_of in *. by rewrite Hw', Hw, omap_app.
Qed.

(** A read that waits for more has read every message that has been sent. *)
Lemma progress_all k p c j d :
  progress es k p c → c_read c = Some (Reading d) → c_inbox c = EmptyString →
  j ≤ length es → c_sent c = str_concat (take j es).*1 → j ≤ k.
Proof.
  intros Hp Hr Hi Hj Hs. destruct (decide (j ≤ k)) as [|Hk]; [done|exfalso].
  destruct Hp as [[_ ?]|[(e & d' & E)|(s & E & Hh)]]; [congruence|congruence|].
  rewrite Hr in Hh. destruct Hh as [_ [Hl Hf]]. rewrite Hi, str_app_nil_r, Hs in E.
  destruct (drop k es) as [|[w m] es'] eqn:Ed.
  { apply (f_equal length) in Ed. rewrite length_drop in Ed. cbn in Ed. lia. }
  destruct (take_next _ _ _ _ _ Ed) as [Ht _].
  assert (∃ u, s = w +:+ u) as [u ->].
  { exists (str_concat (take (j - S k) (drop (S k) es)).*1).
    replace j with (S k + (j - S k)) in E by lia. rewrite <- take_take_drop in E.
    rewrite fmap_app, str_concat_app, Ht, fmap_app, str_concat_app, str_app_assoc in E.
    apply (inj (String.append _)) in E. cbn in E. by rewrite str_app_nil_r in E. }
  assert (wired w m) as (Q & Hw & Hc & _).
  { pose proof (Forall_drop _ k _ Hes) as Hd. rewrite Ed in Hd. by apply Forall_cons in Hd as [? _]. }
  rewrite Hw in Hf. injection Hf as _ ->. by rewrite (complete_live _ _ Hl) in Hc.
Qed.
End Pipeline.

(** The bytes of a request that is prepared and written, within the limits. *)
Definition on_wire (m : request) (w : string) : Prop := ∃ m0 close,
  sendable m0 ∧ prepare_request m0 = Ok m ∧ (request_header_size m ≤ header_limit)%Z ∧
  (strlenZ (req_body m0) ≤ body_limit true)%Z ∧ write_request m = Ok ([w], close).
Lemma on_wire_wired m w : on_wire m w → ∃ msg, to_request msg = m ∧ wired w msg.
Proof.
  intros (m0 & close & Hs & Hp & Hh & Hb & Hw).
  pose proof Hs as (Hver & _ & _ & _ & _ & Hf). destruct (http_version_known _ Hver) as [v Hv].
  rewrite (prepare_sendable m0 Hf Hb) in Hp. injection Hp as <-.
  destruct (write_sendable m0 v Hf Hv) as [close' Hw']. rewrite Hw in Hw'. injection Hw' as -> _.
  destruct (request_ends m0 v Hs Hv Hh Hb) as (msg & Em & He). by exists msg.
Qed.
Lemma all_on_wire ms ws :
  Forall2 on_wire ms ws → ∃ es, all_wired es ∧ es.*1 = ws ∧ reads_of es = ms.
Proof.
  induction 1 as [|m w ms ws Hm _ (es & Hes & Hws & Hms)].
  - exists []. by split; [constructor|].
  - destruct (on_wire_wired m w Hm) as (msg & Em & Hw). exists ((w, msg) :: es).
    split; [by constructor|]. cbn. unfold reads_of in *. cbn. by rewrite Hws, Hms, Em.
Qed.

Section Served.
Context `{SourceKitD} (ctx : ServiceContext) (error_message : read_error → string).

Lemma pipelined (tr : list event) (n : net) (sid : nat) (ms : list request) (ws : list string) :
  net_traced ctx error_message tr n → Forall2 on_wire ms ws →
  (∃ x, c_sent (n_conns n sid) +:+ x = str_concat ws) →
  let xs := exchanges (of_session sid tr) in
  ∃ k, xs.*1 = take k ms ∧ omap snd xs = sent_to sid (wire (n_proc n).1) ∧
    Forall (λ x, ∀ bytes, x.2 = Some bytes → answer_bytes x.1 bytes) xs ∧
    (FreshHandles → fresh_notifications (calls_made (n_proc n).1) →
     Forall (λ x, ∀ bytes, x.2 = Some bytes →
       @answer_bytes (truth (calls_made (n_proc n).1)) x.1 bytes) xs) ∧
    ∀ d j, waiting n sid = Some d → c_inbox (n_conns n sid) = EmptyString →
      j ≤ length ms → c_sent (n_conns n sid) = str_concat (take j ws) → j ≤ k.
Proof.
  intros Ht Hms Hb xs. destruct (all_on_wire ms ws Hms) as (es & Hes & <- & <-).
  destruct (net_tracked ctx error_message sid es Hes tr n Ht) as (γ & Hr & _ & Hw & Htr).
  destruct (Htr Hb) as (k & Hk & Hp). pose proof (dialogue_exchanged _ _ (spec_dialogue tr γ sid Hr)) as Hx.
  exists k. unfold reads_of in *. split_and!.
  - unfold xs. rewrite (ex_requests _ _ Hx), <- fmap_take. exact Hk.
  - unfold xs. by rewrite (ex_answers _ _ Hx), Hw, sent_to_of.
  - apply Hx.
  - intros HF Hf. destruct (net_traced_ok _ _ _ _ Ht) as [_ Htr0].
    destruct (truthful_run ctx tr (n_proc n) Htr0 Hf) as (γ' & _ & _ & Hr' & _).
    apply (dialogue_exchanged _ _ (spec_dialogue tr γ' sid Hr')).
  - intros d j [_ Hd]%waiting_Some Hi Hj Hs. rewrite length_fmap in Hj.
    rewrite <- fmap_take in Hs. by apply (progress_all es Hes k (γ sid) (n_conns n sid) j d).
Qed.

(** C5: a peer that sends requests one behind the other, in pieces of any size,
    without waiting for answers, has them served in its order: the requests its
    session has read are the first of those it has sent, what the session has
    written are answers to them in the same order, each the answer of its own
    request, a query's with what sourcekitd said of what it asks, and when the session
    waits for the socket and nothing is unread, every request that was sent whole has
    been read. *)
Theorem pipelined_requests (tr : list event) (n : net) (sid : nat) (ms : list request) (ws : list string) :
  net_traced ctx error_message tr n → Forall2 on_wire ms ws →
  (∃ x, c_sent (n_conns n sid) +:+ x = str_concat ws) →
  let xs := exchanges (of_session sid tr) in
  ∃ k, xs.*1 = take k ms ∧ omap snd xs = sent_to sid (wire (n_proc n).1) ∧
    Forall (λ x, ∀ bytes, x.2 = Some bytes → answer_bytes x.1 bytes) xs ∧
    (FreshHandles → fresh_notifications (calls_made (n_proc n).1) →
     Forall (λ x, ∀ bytes, x.2 = Some bytes →
       @answer_bytes (truth (calls_made (n_proc n).1)) x.1 bytes) xs) ∧
    ∀ d j, waiting n sid = Some d → c_inbox (n_conns n sid) = EmptyString →
      j ≤ length ms → c_sent (n_conns n sid) = str_concat (take j ws) → j ≤ k.
Proof. apply pipelined. Qed.

(** C17: every read is well formed in every run: between the steps it waits with its
    buffer used up and a parser that can be written to, or has ended with a whole
    message or an error, and the socket has given a beginning of what the peer has
    sent; no step of a connection fails an assertion of the parser or otherwise
    changes the process, and what the process does is a run of it. *)
Theorem connections_typed (tr : list event) (n : net) :
  net_traced ctx error_message tr n →
  (∀ sid, conn_ok (n_conns n sid)) ∧ traced ctx tr (n_proc n) ∧
  ∀ m l n', net_do ctx error_message m n = Some (l, n') → quiet_move m = true →
    l = None ∧ n_proc n' = n_proc n.
Proof.
  intros Ht. destruct (net_traced_ok _ _ _ _ Ht) as [Hn Hp]. split_and!; [exact Hn|exact Hp|].
  intros m l n' E Hq. destruct (net_do_ok _ _ _ _ _ _ Hn E) as [_ Hm]. by rewrite Hq in Hm.
Qed.
End Served.

(** ** The hypotheses can hold *)

(** Two requests that are sent at once: the first is read in two pieces, and the
    second from what the buffer has left and four bytes more; both are answered, and
    the third read waits for the peer. *)
Definition ask : request :=
  {| req_version := 11; req_method := "GET"; req_url := "/status";
     req_fields := [("Host", "h")]; req_body := EmptyString |}.
Definition ask_wire : string :=
  "GET /status HTTP/1.1" +:+ CRLF +:+ "Host: h" +:+ CRLF +:+ CRLF.
Definition answer_moves (t : nat) : list net_move :=
  map Runs (repeat (MThread t) 4 ++ [MBlock 0] ++ repeat (MThread (S t)) 4 ++
            [MSend 0; MWritten 0] ++ repeat (MThread (S (S t))) 2).
Definition pipelined_moves : list net_move :=
  map Runs ([MAccept None] ++ repeat (MThread 0) 4) ++
  [ReadBegins 0; PeerSends 0 (ask_wire +:+ ask_wire); SocketGives 0 7; SocketGives 0 55; ReadEnds 0] ++
  answer_moves 1 ++ [ReadBegins 0; SocketGives 0 4; ReadEnds 0] ++ answer_moves 4 ++ [ReadBegins 0].
Definition nothing (e : read_error) : string := EmptyString.
Definition pipelined_run : list event * net :=
  default ([], net_new) (net_exec quiet_context nothing pipelined_moves net_new).
Lemma pipelined_run_traced : net_traced quiet_context nothing pipelined_run.1 pipelined_run.2.
Proof.
  unfold pipelined_run.
  generalize (eq_refl : bool_decide (is_Some (net_exec quiet_context nothing pipelined_moves net_new)) = true).
  destruct (net_exec quiet_context nothing pipelined_moves net_new) as [[tr n]|] eqn:E; [|done].
  intros _. by apply (net_exec_traced _ _ pipelined_moves [] net_new tr n (NetStart _ _)).
Qed.
Lemma ask_on_wire : on_wire ask ask_wire.
Proof.
  exists ask, false. split_and!; try (vm_compute; first [reflexivity|discriminate]).
  split_and!; try done; [by right|]. repeat constructor; discriminate.
Qed.
(** Both have been read, and the two answers are on the wire. *)
Lemma pipelined_requests_witness :
  let xs := exchanges (of_session 0 pipelined_run.1) in
  xs.*1 = [ask; ask] ∧ omap snd xs = sent_to 0 (wire (n_proc pipelined_run.2).1) ∧
  length (omap snd xs) = 2.
Proof.
  destruct (pipelined_requests quiet_context nothing pipelined_run.1 pipelined_run.2 0 [ask; ask]
    [ask_wire; ask_wire]) as (k & Hk & Hw & _ & _ & Hall).
  - exact pipelined_run_traced.
  - repeat constructor; exact ask_on_wire.
  - exists EmptyString. vm_compute. reflexivity.
  - intros xs. split; [|split; [exact Hw|vm_compute; reflexivity]].
    destruct (waiting pipelined_run.2 0) as [d|] eqn:Ed; [|vm_compute in Ed; discriminate].
    assert (2 ≤ k) as Hle by (apply (Hall d 2); [reflexivity|vm_compute; reflexivity|cbn; lia|vm_compute; reflexivity]).
    unfold xs. rewrite Hk. by rewrite take_ge.
Defined.
Lemma connections_typed_witness :
  conn_ok (n_conns pipelined_run.2 0) ∧ traced quiet_context pipelined_run.1 (n_proc pipelined_run.2).
Proof.
  destruct (connections_typed quiet_context nothing pipelined_run.1 pipelined_run.2 pipelined_run_traced)
    as (Hc & Ht & _).
  split; [exact (Hc 0)|exact Ht].
Defined.
