(* ===== verification/Process.v ===== *)
(** * The server's process: what its handlers' threads do to it

    The steps of Server.v along the courses of Replies.v: how a reply gets to the
    peer and how it may not, what a malformed request does, and when connections
    stop being accepted. *)

From S2P Require Import Prelude Ptree JsonRead.
From S2P Require Import Logging Futures SourceKitD Offset SourceKit Requests Completer HttpMessage Endpoints Replies Server.

Local Open Scope Z_scope.

(** ** Acceptor *)

Definition same_acceptor (a a' : App) : Prop := accepting a' = accepting a.
(** A thread that does not start an [async_accept]. *)
Notation shut := (keeps same_acceptor).

(** A thread that may start one, once. *)
Fixpoint reopens {A} (t : thread App A) : Prop :=
  match t with
  | TRet _ | TFail _ => True
  | TAtom m => ∀ a, let '(t', a') := m a in
      reopens t' ∧ same_acceptor a a' ∨ shut t' ∧ accepting a' = true
  | TWait _ k => ∀ v, reopens (k v)
  end.

(** While an accept is outstanding no thread starts one; otherwise at most one
    may. *)
Definition one_acceptor (s : state) : Prop :=
  if accepting s.1 then Forall shut s.2
  else ∃ i, ∀ j t, s.2 !! j = Some t → reopens t ∧ (j ≠ i → shut t).

Lemma shut_reopens {A} (t : thread App A) : shut t → reopens t.
Proof.
  induction t as [u|f|m IH|r k IH] using thread_ind'; cbn; try done; intros Ht.
  - intros a. specialize (Ht a). specialize (IH a). destruct (m a). left.
    destruct Ht. auto.
  - auto.
Qed.
Lemma reopens_bind {A B} (t : thread App A) (k : A → thread App B) :
  shut t → (∀ x, reopens (k x)) → reopens (t ≫= k).
Proof.
  intros Ht Hk. induction t as [u|f|m IH|r k' IH] using thread_ind'; cbn in *.
  - apply Hk.
  - done.
  - intros a. specialize (Ht a). specialize (IH a). destruct (m a) as [t' a'].
    destruct Ht as (Ht & Hs). left. split; [by apply IH|done].
  - intros v. by apply IH.
Qed.
(** What none of the handlers' pieces is about: [R] allows every change they make but
    those to the acceptor. *)
Record indifferent (R : App → App → Prop) : Prop := {
  ind_refl a : R a a;
  ind_world a w : R a (set_world w a);
  ind_sessions a ss : R a (set_sessions ss a);
  ind_new a s : R a (add_session s a);
  ind_ops a os : R a (set_ops os a);
  ind_messages a ms n : R a (set_messages ms n a);
  ind_blocks a bs : R a (set_blocks bs a);
  ind_timers a ts : R a (set_timers ts a);
  ind_ended a e : R a (set_ended e a);
}.
Lemma same_acceptor_indifferent : indifferent same_acceptor.
Proof. by split. Qed.

Section Indifferent.
Context `{SourceKitD} {R : App → App → Prop} (HR : indifferent R).

Lemma ind_zoom {A} (t : thread World A) : keeps R (zoom t).
Proof. apply keeps_zoom, HR. Qed.
Lemma ind_modify (g : App → App) : (∀ a, R a (g a)) → keeps R (modify g).
Proof. apply keeps_modify. Qed.
Lemma ind_session sid (k : session → thread App unit) :
  (∀ s, keeps R (k s)) → keeps R (with_session sid k).
Proof. intros Hk. apply keeps_bind; [apply keeps_gets, HR|]. by intros [s|]. Qed.
Lemma ind_start_op sid o : keeps R (start_op sid o).
Proof. apply ind_modify. intros a. apply HR. Qed.
Lemma ind_write sid res : keeps R (session_write sid res).
Proof.
  apply keeps_bind; [intros a; split; [done|apply HR]|]. intros m.
  apply keeps_bind; [apply keeps_outcome|]. intros [bs close].
  apply keeps_bind; [apply ind_start_op|]. intros _. apply ind_modify. intros a. apply HR.
Qed.
Lemma ind_respond sid res : keeps R (respond sid res).
Proof. apply keeps_bind; [apply keeps_outcome|]. intros r. apply ind_write. Qed.
Lemma ind_log_each lg prefix flags : keeps R (log_each lg prefix flags).
Proof.
  induction flags as [|f flags IH]; [done|]. cbn [log_each].
  do 2 (apply keeps_bind; [apply ind_zoom|intros _]). exact IH.
Qed.

Ltac ind_tac :=
  repeat match goal with
  | |- ∀ _, _ => intros ?
  | |- keeps _ (with_session _ _) => apply ind_session
  | |- keeps _ (session_write _ _) => apply ind_write
  | |- keeps _ (respond _ _) => apply ind_respond
  | |- keeps _ (log_each _ _ _) => apply ind_log_each
  | |- keeps _ (start_op _ _) => apply ind_start_op
  | |- keeps _ (zoom _) => apply ind_zoom
  | |- keeps _ (tells _ _) => apply ind_zoom
  | |- keeps _ (of_outcome _) => apply keeps_outcome
  | |- keeps _ (modify _) => apply ind_modify; intros ?; apply HR
  | |- keeps _ (mret _) => exact I
  | |- keeps _ (_ ≫= _) => apply keeps_bind
  | |- keeps _ (match ?x with _ => _ end) => destruct x
  end.

Lemma ind_onRead sid ec : keeps R (onRead sid ec).
Proof. unfold onRead, fail, update_session, handleRequest. ind_tac. Qed.
Lemma ind_onWrite sid ec : keeps R (onWrite sid ec).
Proof. unfold onWrite, fail, doRead. ind_tac. Qed.
Lemma ind_block b : keeps R (run_block b).
Proof.
  destruct b as [[] ?| |]; unfold run_block, start_endpoint, status_endpoint,
    shutdown_endpoint, completions_endpoint, diagnostics_endpoint, slow_test_endpoint,
    dispatch_after; ind_tac.
Qed.
(** What is left of [onAccept] once it has started the next accept. *)
Lemma ind_new_session ctx : keeps R (sid ← Session_new ctx; session_start sid).
Proof.
  apply keeps_bind; [|intros sid; apply ind_start_op].
  apply keeps_bind; [apply ind_zoom|]. intros _ a. split; [done|apply HR].
Qed.
End Indifferent.

Lemma shut_zoom {A} (t : thread World A) : shut (zoom t).
Proof. apply ind_zoom, same_acceptor_indifferent. Qed.

Section Handlers.
Context `{SourceKitD} (ctx : ServiceContext).

Lemma shut_onRead sid ec : shut (onRead sid ec).
Proof. apply ind_onRead, same_acceptor_indifferent. Qed.
Lemma shut_onWrite sid ec : shut (onWrite sid ec).
Proof. apply ind_onWrite, same_acceptor_indifferent. Qed.
Lemma shut_block b : shut (run_block b).
Proof. apply ind_block, same_acceptor_indifferent. Qed.
Lemma reopens_onAccept ec : reopens (onAccept ctx ec).
Proof.
  apply reopens_bind; [by apply keeps_gets|]. intros [|]; cbn [negb]; [|done].
  destruct ec as [ec|]; [apply shut_reopens, shut_zoom|].
  intros a. cbn beta iota delta [modify atomic mbind thread_bind thread_bind_go].
  right. split; [|done]. apply ind_new_session, same_acceptor_indifferent.
Qed.

Lemma shut_step (t t' : thread App unit) a a' :
  shut t → tstep t a = Some (t', a') → shut t' ∧ accepting a' = accepting a.
Proof.
  destruct t as [u|f|m|r k]; cbn; intros Ht E; [done|done| |].
  - specialize (Ht a). destruct (m a). by simplify_eq.
  - destruct (r a) as [[v|f]|]; by simplify_eq/=.
Qed.
Lemma reopens_step (t t' : thread App unit) a a' :
  reopens t → tstep t a = Some (t', a') →
  reopens t' ∧ accepting a' = accepting a ∨ shut t' ∧ accepting a' = true.
Proof.
  destruct t as [u|f|m|r k]; cbn; intros Ht E; [done|done| |].
  - specialize (Ht a). destruct (m a). by simplify_eq.
  - left. destruct (r a) as [[v|f]|]; by simplify_eq/=.
Qed.

(** A new thread that does not open the acceptor. *)
Lemma one_acceptor_spawn a a' ts t :
  one_acceptor (a, ts) → shut t → accepting a' = accepting a →
  one_acceptor (a', ts ++ [t]).
Proof.
  unfold one_acceptor. cbn [fst snd]. intros HI Ht ->. destruct (accepting a).
  - by apply Forall_app; split; [|constructor].
  - destruct HI as [i HI]. exists i. intros j u Hj.
    apply lookup_app_Some in Hj as [Hj|[_ Hj]]; [by apply HI|].
    apply list_lookup_singleton_Some in Hj as [_ <-]. by split; [apply shut_reopens|].
Qed.

Lemma one_acceptor_thread a ts i t t' a' :
  one_acceptor (a, ts) → ts !! i = Some t → tstep t a = Some (t', a') →
  one_acceptor (a', <[i := t']> ts).
Proof.
  unfold one_acceptor. cbn [fst snd]. intros HI Hi Ht. destruct (accepting a) eqn:E.
  - rewrite Forall_lookup in HI. destruct (shut_step _ _ _ _ (HI _ _ Hi) Ht) as [Ht' ->].
    rewrite E. apply Forall_insert; [|done]. by apply Forall_lookup.
  - destruct HI as [i0 HI]. destruct (HI i t Hi) as [Hr Hs].
    assert (∀ j u, <[i := t']> ts !! j = Some u →
      j = i ∧ u = t' ∨ j ≠ i ∧ ts !! j = Some u) as Hins.
    { intros j u Hj. destruct (decide (j = i)) as [->|Hne].
      - rewrite list_lookup_insert_eq in Hj by (by eapply lookup_lt_Some).
        left. by simplify_eq.
      - rewrite list_lookup_insert_ne in Hj by done. by right. }
    destruct (decide (i = i0)) as [->|Hne].
    + destruct (reopens_step _ _ _ _ Hr Ht) as [[Hr' ->]|[Hs' ->]].
      * rewrite E. exists i0. intros j u [[-> ->]|[Hj Hu]]%Hins; [done|by apply HI].
      * apply Forall_lookup. intros j u [[-> ->]|[Hj Hu]]%Hins; [done|].
        by apply (HI j u Hu).
    + destruct (shut_step _ _ _ _ (Hs Hne) Ht) as [Ht' ->]. rewrite E. exists i0.
      intros j u [[-> ->]|[Hj Hu]]%Hins; [by split; [apply shut_reopens|]|by apply HI].
Qed.

Lemma one_acceptor_same a a' ts :
  one_acceptor (a, ts) → accepting a' = accepting a → one_acceptor (a', ts).
Proof. unfold one_acceptor. cbn. by intros HI ->. Qed.

(** Every step but the accept only adds shut threads or runs one. *)
Lemma step_acceptor a ts s' :
  step ctx (a, ts) s' →
  (∃ ec, accepting a = true ∧ s' = (set_accepting false a, ts ++ [onAccept ctx ec])) ∨
  (∃ t, shut t ∧ accepting s'.1 = accepting a ∧ s'.2 = ts ++ [t]) ∨
  (accepting s'.1 = accepting a ∧ s'.2 = ts) ∨
  (∃ i t t' a', ts !! i = Some t ∧ tstep t a = Some (t', a') ∧ s' = (a', <[i := t']> ts)).
Proof.
  intros [l Hs]. inversion Hs; subst; cbn [fst snd];
    first [left; by eexists
          |right; left; eexists; split; [|split; reflexivity];
             first [apply shut_onRead|apply shut_onWrite|apply shut_block|apply shut_zoom]
          |right; right; left; split; reflexivity
          |do 3 right; by eexists _, _, _, _].
Qed.

Lemma one_acceptor_step s s' : one_acceptor s → step ctx s s' → one_acceptor s'.
Proof.
  destruct s as [a ts], s' as [a' ts']. intros HI Hs. apply step_acceptor in Hs.
  destruct Hs as [(ec & Ha & ->)|[(t & Ht & Ha & Hts)|[(Ha & Hts)|
    (i & t & t' & a1 & Hi & Ht & ->)]]]; cbn [fst snd] in *.
  - unfold one_acceptor in *. cbn [fst snd] in *. rewrite Ha in HI. cbn.
    exists (length ts). intros j u Hj. apply lookup_app_Some in Hj as [Hj|[Hj Hu]].
    + rewrite Forall_lookup in HI. specialize (HI _ _ Hj). by split; [apply shut_reopens|].
    + apply list_lookup_singleton_Some in Hu as [Hz <-].
      split; [apply reopens_onAccept|lia].
  - subst. by eapply one_acceptor_spawn.
  - subst. by eapply one_acceptor_same.
  - by eapply one_acceptor_thread.
Qed.

Lemma shut_forever s s' :
  star (step ctx) s s' → accepting s.1 = false → Forall shut s.2 →
  accepting s'.1 = false ∧ Forall shut s'.2.
Proof.
  induction 1 as [s|[a ts] [a1 ts1] s' Hs _ IH]; [done|]. cbn [fst snd] in *.
  intros Ha HF. apply IH; clear IH; apply step_acceptor in Hs;
    destruct Hs as [(ec & Ha' & Hs)|[(t & Ht & Ha' & Hts)|[(Ha' & Hts)|
      (i & t & t' & a2 & Hi & Ht & Hs)]]]; cbn [fst snd] in *; simplify_eq; try congruence.
  - rewrite Forall_lookup in HF. destruct (shut_step _ _ _ _ (HF _ _ Hi) Ht). congruence.
  - by apply Forall_app; split; [|constructor].
  - apply Forall_insert; [done|]. rewrite Forall_lookup in HF.
    by destruct (shut_step _ _ _ _ (HF _ _ Hi) Ht).
Qed.

(** The handler of a failed accept is about to run. *)
Definition accept_failed (a : App) (ts : list (thread App unit)) (ec : string) : state :=
  (set_accepting false a, ts ++ [onAccept ctx (Some ec)]).

End Handlers.

(** ** The courses of threads in the process *)

Section Courses.
Context `{SourceKitD} (ctx : ServiceContext).

Lemma course_steps (t t' : thread App unit) a a' ts i :
  ts !! i = Some t → star thread_step (t, a) (t', a') →
  star (step ctx) (a, ts) (a', <[i := t']> ts).
Proof.
  intros Hi Hs. remember (t, a) as x eqn:Ex. remember (t', a') as y eqn:Ey.
  revert t a ts Hi Ex. induction Hs as [x|x z y Hx Hs IH]; intros t a ts Hi ->.
  { simplify_eq. rewrite list_insert_id by done. apply star_refl. }
  destruct z as [t1 a1]. inversion Hx as [? ? ? ? He Ht]; subst.
  eapply star_step; [by eapply StepThread|].
  assert (i < length ts)%nat as L by (by eapply lookup_lt_Some).
  specialize (IH eq_refl t1 a1 (<[i := t1]> ts)). rewrite list_insert_insert_eq in IH.
  apply IH; [by apply list_lookup_insert_eq|done].
Qed.
Lemma goes_steps t a ts i Q :
  ts !! i = Some t → goes t a Q →
  ∃ t' a', star (step ctx) (a, ts) (a', <[i := t']> ts) ∧ Q t' a'.
Proof. intros Hi (t' & a' & Hs & HQ). exists t', a'. split; [by eapply course_steps|done]. Qed.

Lemma written sid res close ls a :
  ops (writing sid res close (logged ls a)) !! length (ops a) =
    Some (sid, OpWrite (next_message a) close false).
Proof. cbn. by rewrite lookup_app_r, Nat.sub_diag by lia. Qed.

Definition message_destroyed : failure := UndefinedBehavior "async_write: message destroyed".


Lemma fails_crash t a ts i f :
  ended a = None → ts !! i = Some t → goes t a (fails_with f a) →
  ∃ w' ts', star (step ctx) (a, ts) (set_ended (Crashed f) (set_world w' a), ts').
Proof.
  intros He Hi Hg. destruct (goes_steps _ _ _ _ _ Hi Hg) as (t' & a' & Hs & -> & w' & ->).
  exists w', (<[i := TFail f]> ts). eapply star_trans; [exact Hs|]. apply star_one.
  apply (StepCrash _ _ _ i); [done|]. apply list_lookup_insert_eq. by eapply lookup_lt_Some.
Qed.

Lemma ended_stuck a ts e s : ended a = Some e → ¬ step ctx (a, ts) s.
Proof. intros He [l Hs]. inversion Hs; congruence. Qed.

Definition malformed (r : request) (f : failure) : Prop :=
  req_url r = "/completions" ∧ read_completion_query (req_body r) = Fail f ∨
  req_url r = "/diagnostics" ∧ read_diagnostics_query (req_body r) = Fail f.

End Courses.

(** ** The hypotheses can hold *)

Definition demo_context : ServiceContext :=
  {| secret := "SomeSecret"; logLevel := LogLevelInfo |}.


(** A session waiting for its request. *)
Definition waiting_app : App :=
  set_ops [(0%nat, OpRead)] (demo_app EmptyString EmptyString).
Definition bad_request : request :=
  {| req_version := 11; req_method := "POST"; req_url := "/completions"; req_fields := [];
     req_body := EmptyString |}.
(** What [read_json] throws at an empty body. *)
Definition empty_body_failure : failure :=
  match read_completion_query EmptyString with Fail f => f | Ok _ => message_destroyed end.


