(* ===== verification/IoService.v ===== *)
(** * The io_service's threads: the constructor and the destructor of SemanticHTTPServer

    The threads the constructor starts call [_ioService.run()], which returns when the
    io_service has no work left: no operation outstanding and no handler running.
    Work on a dispatch queue is none of the io_service's.  Server.v lets every operation
    complete; here completions need an io_service that has not stopped. *)

From S2P Require Import Prelude Ptree JsonRead.
From S2P Require Import Logging Futures SourceKitD Offset SourceKit Requests Completer HttpMessage Endpoints Replies Protocol Resources Server Process.

(** ** Definitions *)

Definition set_open (b : bool) (a : App) : App :=
  {| world := world a; sessions := sessions a; next_session := next_session a; ops := ops a;
     messages := messages a; next_message := next_message a; blocks := blocks a;
     timers := timers a; acceptor_open := b; accepting := accepting a; wire := wire a;
     ended := ended a |}.

(** [_ioService.dispatch([&] { _acceptor.close(ec); })] in the destructor: the handler.  An
    accept that is outstanding then completes with an error. *)
Definition close_acceptor : thread App unit := modify (set_open false).

(** The process, which of its threads are handlers on the io_service's threads, and whether
    [run] has returned from them. *)
Record service := { process : state; on_io : list bool; stopped : bool }.
Definition service_new : service := {| process := server_new; on_io := []; stopped := false |}.

Definition is_done (t : thread App unit) : bool :=
  match t with TRet _ => true | _ => false end.
(** What keeps [run] from returning. *)
Definition work (x : service) : bool :=
  accepting (process x).1 || negb (bool_decide (ops (process x).1 = [])) ||
  existsb (λ '(t, io), io && negb (is_done t)) (zip (process x).2 (on_io x)).

(** A completion: its handler is run by the io_service. *)
Definition completes (m : move) : bool :=
  match m with
  | MAccept _ | MRead _ _ | MReadFails _ _ | MWritten _ | MWriteFails _ _ => true
  | _ => false
  end.

Section IoService.
Context `{SourceKitD} (ctx : ServiceContext).

(** What happens: a move of the process, with what its peers see of it; [run] returns; the
    destructor's handler is run, after which it joins the threads. *)
Inductive happening := Moved (m : move) (e : option event) | RunReturns | Closes.

Definition moved_to (x : service) (m : move) (s : state) : service :=
  {| process := s;
     on_io := on_io x ++ (if decide (length s.2 = length (process x).2) then [] else [completes m]);
     stopped := stopped x |}.

Inductive sv_step : service → happening → service → Prop :=
| SvMove x m e s :
    exec_move ctx m (process x) = Some (e, s) →
    (completes m = true → stopped x = false) →
    (m = MAccept None → acceptor_open (process x).1 = true) →
    sv_step x (Moved m e) (moved_to x m s)
| SvRunReturns x :
    ended (process x).1 = None → stopped x = false → work x = false →
    sv_step x RunReturns {| process := process x; on_io := on_io x; stopped := true |}
| SvCloses x :
    ended (process x).1 = None → stopped x = false →
    sv_step x Closes
      {| process := ((process x).1, (process x).2 ++ [close_acceptor]);
         on_io := on_io x ++ [true]; stopped := false |}.

Inductive sv_run : list happening → service → Prop :=
| SvStart : sv_run [] service_new
| SvStep hs x h x' : sv_run hs x → sv_step x h x' → sv_run (hs ++ [h]) x'.

(** The accept that failed, the destructor. *)
Definition closing (h : happening) : bool :=
  match h with Moved (MAccept (Some _)) _ | Closes => true | _ => false end.

(** ** Steps *)

(** A thread that leaves the acceptor open and its accept outstanding. *)
Definition stays_open (a a' : App) : Prop :=
  acceptor_open a' = acceptor_open a ∧ (accepting a = true → accepting a' = true).
Lemma stays_open_indifferent : indifferent stays_open.
Proof. by split. Qed.

Lemma onAccept_stays_open ec : keeps stays_open (onAccept ctx ec).
Proof.
  apply keeps_bind; [by apply keeps_gets|]. intros []; cbn [negb]; [|done].
  destruct ec as [ec|]; [apply ind_zoom, stays_open_indifferent|].
  apply keeps_bind; [by apply keeps_modify|]. intros _.
  apply ind_new_session, stays_open_indifferent.
Qed.

(** A move starts a handler, or is a thread's atom, or does neither. *)
Inductive moves (a : App) (ts : list (thread App unit)) : move → App → list (thread App unit) → Prop :=
| MovesAccept ec :
    accepting a = true → moves a ts (MAccept ec) (set_accepting false a) (ts ++ [onAccept ctx ec])
| MovesSpawn m a' t : keeps stays_open t → stays_open a a' → moves a ts m a' (ts ++ [t])
| MovesQuiet m a' : stays_open a a' → moves a ts m a' ts
| MovesThread i t t' a' :
    ts !! i = Some t → tstep t a = Some (t', a') → moves a ts (MThread i) a' (<[i := t']> ts).

Lemma exec_move_moves m a ts e a' ts' :
  exec_move ctx m (a, ts) = Some (e, (a', ts')) → moves a ts m a' ts'.
Proof.
  unfold exec_move. destruct (ended a) eqn:He; [done|]. intros E.
  destruct m as [ec|i r|i ec|i|i|i ec|i|i|resp|i].
  - destruct (accepting a) eqn:Ha; [|done]. injection E as <- <- <-. by constructor.
  - destruct (ops a !! i) as [[sid [|]]|] eqn:Hi; try done. injection E as <- <- <-.
    by apply MovesSpawn; [apply ind_onRead, stays_open_indifferent|].
  - destruct (ops a !! i) as [[sid [|]]|] eqn:Hi; try done. injection E as <- <- <-.
    by apply MovesSpawn; [apply ind_onRead, stays_open_indifferent|].
  - destruct (ops a !! i) as [[sid [|m close []]]|] eqn:Hi; try done.
    destruct (messages a !! m) as [res|]; [|injection E as <- <- <-; by apply MovesQuiet].
    destruct (write_response res) as [[bs close']|]; [|done].
    destruct (decide (close = close')); [|done]. injection E as <- <- <-. by apply MovesQuiet.
  - destruct (ops a !! i) as [[sid [|m close []]]|] eqn:Hi; try done. injection E as <- <- <-.
    by apply MovesSpawn; [apply ind_onWrite, stays_open_indifferent|].
  - destruct (ops a !! i) as [[sid [|m close sent]]|] eqn:Hi; try done. injection E as <- <- <-.
    by apply MovesSpawn; [apply ind_onWrite, stays_open_indifferent|].
  - apply bind_Some in E as (b & Hb & E). injection E as <- <- <-.
    by apply MovesSpawn; [apply ind_block, stays_open_indifferent|].
  - apply bind_Some in E as ([d b] & Hb & E). injection E as <- <- <-.
    by apply MovesSpawn; [apply ind_block, stays_open_indifferent|].
  - destruct (handler_of (world a)); [|done]. injection E as <- <- <-.
    by apply MovesSpawn; [exact (ind_zoom stays_open_indifferent (notification_handler resp))|].
  - apply bind_Some in E as (t & Ht & E). destruct t as [u|f|g|ready k]; [done| | |].
    + injection E as <- <- <-. by apply MovesQuiet.
    + apply bind_Some in E as ([t' a1] & Hs & E). injection E as <- <- <-. by eapply MovesThread.
    + apply bind_Some in E as ([t' a1] & Hs & E). injection E as <- <- <-. by eapply MovesThread.
Qed.

(** ** The accept keeps the io_service at work *)

(** A thread that is about to start the next accept. *)
Definition starts_accept (t : thread App unit) : Prop :=
  ∀ a, ∃ t' a', tstep t a = Some (t', a') ∧ accepting a' = true.
Definition opens (t : thread App unit) : Prop :=
  starts_accept t ∨
  ∀ a, acceptor_open a = true → ∃ t', tstep t a = Some (t', a) ∧ starts_accept t'.

Lemma opens_onAccept : opens (onAccept ctx None).
Proof.
  right. intros a Ho. eexists. cbn. rewrite Ho. split; [reflexivity|].
  intros a1. eexists _, _. cbn. split; [reflexivity|done].
Qed.

Record open_inv (x : service) : Prop := {
  oi_open : acceptor_open (process x).1 = true;
  oi_running : stopped x = false;
  oi_length : length (on_io x) = length (process x).2;
  oi_threads : Forall (keeps stays_open) (process x).2;
  oi_accept : accepting (process x).1 = true ∨
    ∃ i t, (process x).2 !! i = Some t ∧ on_io x !! i = Some true ∧ opens t;
}.

Lemma open_inv_work x : open_inv x → work x = true.
Proof.
  intros [Ho Hr Hl Ht [Ha|(i & t & Hi & Hio & Hop)]]; unfold work; [by rewrite Ha|].
  apply orb_true_intro. right. apply existsb_exists. exists (t, true). split.
  - apply list_elem_of_In, list_elem_of_lookup. exists i.
    rewrite lookup_zip_with, Hi. cbn. by rewrite Hio.
  - destruct t as [u|f|m|r k]; try done. exfalso.
    destruct Hop as [Hs|Hs]; [destruct (Hs (process x).1) as (? & ? & ? & _)|
      destruct (Hs _ Ho) as (? & ? & _)]; done.
Qed.

Lemma keeps_tstep R (t t' : thread App unit) a a' :
  (∀ a, R a a) → keeps R t → tstep t a = Some (t', a') → keeps R t' ∧ R a a'.
Proof.
  intros HR. destruct t as [u|f|m|r k]; cbn; intros Ht E; [done|done| |].
  - specialize (Ht a). destruct (m a). by simplify_eq.
  - destruct (r a) as [[v|f]|]; by simplify_eq/=.
Qed.

(** A thread that is added. *)
Lemma spawned x m a' t :
  length (on_io x) = length (process x).2 →
  on_io (moved_to x m (a', (process x).2 ++ [t])) = on_io x ++ [completes m].
Proof.
  intros Hl. cbn. rewrite decide_False; [done|]. rewrite length_app. cbn. lia.
Qed.

Lemma open_inv_move x m e a' ts' :
  open_inv x → exec_move ctx m (process x) = Some (e, (a', ts')) → closing (Moved m e) = false →
  open_inv (moved_to x m (a', ts')).
Proof.
  intros [Ho Hr Hl Ht Ha] E Hc. destruct x as [[a ts] io st]. cbn [process on_io stopped fst snd] in *.
  apply exec_move_moves in E. destruct E as [ec Hacc|m a' t Hk [Eo Ea]|m a' [Eo Ea]|i t t' a' Hi Hs].
  - destruct ec as [ec|]; [done|]. split; try done.
    + rewrite spawned by done. cbn. by rewrite !length_app, Hl.
    + apply Forall_app. split; [done|]. constructor; [apply onAccept_stays_open|done].
    + right. exists (length ts), (onAccept ctx None). rewrite spawned by done. cbn [process snd on_io].
      split; [by apply list_lookup_middle|]. split; [by rewrite <- Hl; apply list_lookup_middle|].
      apply opens_onAccept.
  - split; try done.
    + cbn. by rewrite Eo.
    + rewrite spawned by done. cbn. by rewrite !length_app, Hl.
    + apply Forall_app. by split; [|constructor].
    + destruct Ha as [Ha|(i & u & Hi & Hio & Hop)]; [left; by apply Ea|right].
      exists i, u. rewrite spawned by done. cbn [process snd on_io].
      split; [by apply lookup_app_l_Some|]. split; [by apply lookup_app_l_Some|done].
  - split; cbn; try done; rewrite ?decide_True, ?app_nil_r by done; try done; [by rewrite Eo|].
    destruct Ha as [Ha|Ha]; [left; by apply Ea|by right].
  - destruct (keeps_tstep stays_open t t' a a' ltac:(by split)) as [Hk [Eo Ea]];
      [by apply (proj1 (Forall_lookup _ _) Ht i)|done|].
    split; cbn; rewrite ?length_insert, ?decide_True, ?app_nil_r by done; try done.
    + by rewrite Eo.
    + by apply Forall_insert.
    + destruct Ha as [Ha|(j & u & Hj & Hio & Hop)]; [left; by apply Ea|].
      destruct (decide (i = j)) as [<-|Hne].
      * simplify_eq. destruct Hop as [Hop|Hop].
        -- destruct (Hop a) as (t1 & a1 & E1 & Ha1). left. congruence.
        -- destruct (Hop a Ho) as (t1 & E1 & Hop'). rewrite E1 in Hs. simplify_eq. right.
           exists i, t'. split; [|split; [done|by left]].
           apply list_lookup_insert_eq. by eapply lookup_lt_Some.
      * right. exists j, u. by rewrite list_lookup_insert_ne.
Qed.

Lemma open_inv_run hs x :
  sv_run hs x → forallb (λ h, negb (closing h)) hs = true →
  open_inv x ∨ ended (process x).1 ≠ None.
Proof.
  induction 1 as [|hs x h x' Hr IH Hs]; intros Hc.
  { left. split; try done. by left. }
  rewrite forallb_app in Hc. apply andb_prop in Hc as [Hc Hh]. cbn in Hh.
  rewrite andb_true_r in Hh. apply negb_true_iff in Hh.
  destruct Hs as [x m e [a' ts'] E Hio Hop|x He Hst Hw|x He Hst].
  - destruct (IH Hc) as [Hi|He]; [left; by eapply open_inv_move|].
    unfold exec_move in E. destruct (process x) as [a ts]. cbn in He. by destruct (ended a).
  - destruct (IH Hc) as [Hi|?]; [|done]. by rewrite (open_inv_work x Hi) in Hw.
  - done.
Qed.

(** Once [run] has returned it does not run again. *)
Lemma stopped_step x h x' : sv_step x h x' → stopped x = true →
  stopped x' = true ∧ match h with Moved m e => completes m = false | _ => False end.
Proof.
  intros Hs Hst. destruct Hs as [x m e s E Hio Hop|x He Hst' Hw|x He Hst']; [|congruence..].
  split; [done|]. destruct (completes m); [|done]. by rewrite (Hio eq_refl) in Hst.
Qed.
Lemma stopped_event m e s s' :
  exec_move ctx m s = Some (e, s') → completes m = false →
  e = None ∨ ∃ sid bytes, e = Some (Answered sid bytes).
Proof.
  destruct s as [a ts]. unfold exec_move. destruct (ended a); [done|]. intros E Hc.
  destruct m as [ec|i r|i ec|i|i|i ec|i|i|resp|i]; cbn in Hc; try done.
  - destruct (ops a !! i) as [[sid [|m close []]]|]; try done.
    destruct (messages a !! m) as [res|]; [|left; by injection E as <- _].
    destruct (write_response res) as [[bs close']|]; [|done].
    destruct (decide (close = close')); [|done]. injection E as <- _. right. by eexists _, _.
  - apply bind_Some in E as (b & _ & E). left. by injection E as <- _.
  - apply bind_Some in E as ([d b] & _ & E). left. by injection E as <- _.
  - destruct (handler_of (world a)); [|done]. left. by injection E as <- _.
  - apply bind_Some in E as (t & _ & E). left. destruct t as [u|f|g|ready k]; [done|by injection E as <- _| |];
      by apply bind_Some in E as ([t' a1] & _ & E); injection E as <- _.
Qed.

(** The event of a happening. *)
Definition seen (h : happening) : option event :=
  match h with Moved _ e => e | RunReturns | Closes => None end.

(** C36: the io_service's threads run for as long as every accept succeeds: while none has
    failed and the server is not destroyed there is always work left, so [run] returns from
    none of them.  Once it has, which takes a failed accept or the destructor, it has for good:
    no connection, no request and no failure of a peer is noticed any more, in any session;
    bytes of answers already being written are all that is still sent. *)
Theorem io_service_at_work (hs : list happening) (x : service) :
  sv_run hs x →
  (ended (process x).1 = None → forallb (λ h, negb (closing h)) hs = true →
    stopped x = false ∧ work x = true) ∧
  (stopped x = true → ∀ h x', sv_step x h x' →
    stopped x' = true ∧ (seen h = None ∨ ∃ sid bytes, seen h = Some (Answered sid bytes))).
Proof.
  intros Hr. split.
  - intros He Hc. destruct (open_inv_run hs x Hr Hc) as [Hi|?]; [|done].
    split; [apply Hi|by apply open_inv_work].
  - intros Hst h x' Hs. destruct (stopped_step _ _ _ Hs Hst) as [Hst' Hc]. split; [done|].
    destruct Hs as [x m e s E Hio Hop|x He Hst2 Hw|x He Hst2]; [|done..].
    by eapply stopped_event.
Qed.
End IoService.

(** ** The hypotheses can hold *)

Section Runs.
Context `{SourceKitD} (ctx : ServiceContext).

(** Moves, executable. *)
Fixpoint sv_moves (ms : list move) (x : service) : option (list happening * service) :=
  match ms with
  | [] => Some ([], x)
  | m :: ms =>
      if completes m && stopped x then None else
      if match m with MAccept None => negb (acceptor_open (process x).1) | _ => false end
      then None else
      '(e, s) ← exec_move ctx m (process x);
      '(hs, x') ← sv_moves ms (moved_to x m s);
      Some (Moved m e :: hs, x')
  end.
Lemma sv_moves_run ms hs x hs' x' :
  sv_run ctx hs x → sv_moves ms x = Some (hs', x') → sv_run ctx (hs ++ hs') x'.
Proof.
  revert hs x hs'; induction ms as [|m ms IH]; intros hs x hs' Hr E; cbn in E.
  - injection E as <- <-. by rewrite app_nil_r.
  - destruct (completes m && stopped x) eqn:Hc; [done|].
    destruct (match m with MAccept None => _ | _ => _ end) eqn:Ho; [done|].
    apply bind_Some in E as ([e s] & Em & E). apply bind_Some in E as ([hs1 x1] & E1 & E).
    injection E as <- <-. change (Moved m e :: hs1) with ([Moved m e] ++ hs1). rewrite app_assoc.
    eapply IH; [|exact E1]. econstructor; [exact Hr|]. constructor; [done|..].
    + intros Hm. rewrite Hm in Hc. by destruct (stopped x).
    + intros ->. by apply negb_false_iff in Ho.
Qed.
Lemma sv_moves_start ms hs x :
  sv_moves ms service_new = Some (hs, x) → sv_run ctx hs x.
Proof. intros E. by apply (sv_moves_run ms [] service_new); [constructor|]. Qed.
End Runs.

(** A request has been read and its block is on the queue, and now an accept fails. *)
Definition deaf_moves : list move :=
  [MAccept None] ++ repeat (MThread 0) 4 ++ [MRead 0 status_request] ++ repeat (MThread 1) 4 ++
  [MAccept (Some "Too many open files")] ++ repeat (MThread 2) 2.
Definition deaf_run : list happening * service :=
  default ([], service_new) (sv_moves quiet_context deaf_moves service_new).
Definition deaf_service : service :=
  {| process := process deaf_run.2; on_io := on_io deaf_run.2; stopped := true |}.
Lemma deaf_run_run : sv_run quiet_context (deaf_run.1 ++ [RunReturns]) deaf_service.
Proof.
  assert (sv_run quiet_context deaf_run.1 deaf_run.2) as Hr.
  { apply (sv_moves_start quiet_context deaf_moves). unfold deaf_run.
    generalize (eq_refl : bool_decide (is_Some (sv_moves quiet_context deaf_moves service_new)) = true).
    by destruct (sv_moves quiet_context deaf_moves service_new) as [[hs x]|]. }
  econstructor; [exact Hr|]. unfold deaf_service.
  apply SvRunReturns; vm_compute; reflexivity.
Qed.
(** The request still has its block, and its session will not be read again. *)
Lemma io_service_at_work_witness :
  (stopped deaf_run.2 = false ∧ ended (process deaf_run.2).1 = None) ∧
  blocks (process deaf_service).1 = [BEndpoint Status 0] ∧
  (∀ h x', sv_step quiet_context deaf_service h x' →
    stopped x' = true ∧ (seen h = None ∨ ∃ sid bytes, seen h = Some (Answered sid bytes))) ∧
  stopped service_new = false ∧ work service_new = true.
Proof.
  split; [split; vm_compute; reflexivity|]. split; [vm_compute; reflexivity|]. split.
  - apply (io_service_at_work quiet_context _ _ deaf_run_run). reflexivity.
  - apply (io_service_at_work quiet_context [] service_new); [constructor|reflexivity..].
Defined.
