(* ===== verification/AsyncWrite.v ===== *)
(** * The write that keeps its message: src/SemanticHTTPServer.hpp

    [SemanticHTTPServer::asyncWrite] and its [writeOp], which own the message until
    the write has ended.  Nothing calls them: [Session::write] starts beast's
    [async_write] on a message of its own, which Process.v shows to dangle. *)

From S2P Require Import Prelude HttpMessage.

(** ** Operations *)

(** [writeOp::data] and the handler its [handler_ptr] holds with it. *)
Record write_data := { w_cont : bool; w_message : response; w_handler : nat }.
(** The data that exist; the writes of beast that are outstanding, each with the
    operation it was given as its handler; the calls of handlers, the errors with
    them; the handlers that have been given, and the bytes sent for them. *)
Record writes := {
  datas : gmap nat write_data;
  next_data : nat;
  outstanding : list nat;
  called : list (nat * option string);
  given : list nat;
  sent : list (nat * list string);
}.
Definition writes_new : writes :=
  {| datas := ∅; next_data := 0; outstanding := []; called := []; given := []; sent := [] |}.

(** [d_.invoke(ec)]: [handler_ptr] takes the handler out and destroys the data before
    it calls it. *)
Definition invoke (d : nat) (x : write_data) (ec : option string) (w : writes) : writes :=
  {| datas := delete d (datas w); next_data := next_data w; outstanding := outstanding w;
     called := called w ++ [(w_handler x, ec)]; given := given w; sent := sent w |}.
(** [writeOp::operator()] *)
Definition writeOp_call (d : nat) (ec : option string) (again : bool) (w : writes) : outcome writes :=
  match datas w !! d with
  | None => Fail (UndefinedBehavior "handler_ptr: no data")
  | Some x =>
      let x := {| w_cont := w_cont x || again; w_message := w_message x; w_handler := w_handler x |} in
      if again then Ok (invoke d x ec w)
      else Ok {| datas := <[d := x]> (datas w); next_data := next_data w;
                 outstanding := outstanding w ++ [d]; called := called w; given := given w;
                 sent := sent w |}
  end.
(** The constructors of [data] and of [writeOp]: the message is moved in. *)
Definition writeOp_new (is_continuation : bool) (handler : nat) (msg : response) (w : writes)
    : outcome writes :=
  let d := next_data w in
  writeOp_call d None false
    {| datas := <[d := {| w_cont := is_continuation; w_message := msg; w_handler := handler |}]> (datas w);
       next_data := S d; outstanding := outstanding w; called := called w;
       given := given w ++ [handler]; sent := sent w |}.
Definition asyncWrite (is_continuation : bool) (msg : response) (handler : nat) (w : writes)
    : outcome writes := writeOp_new is_continuation handler msg w.

(** ** Steps: a call of [asyncWrite]; beast sends a message; a write ends. *)

(** Beast reads the message it was given a reference to. *)
Definition send (i : nat) (w : writes) : outcome writes :=
  match outstanding w !! i with
  | None => Ok w
  | Some d =>
      match datas w !! d with
      | None => Fail (UndefinedBehavior "async_write: message destroyed")
      | Some x =>
          match write_response (w_message x) with
          | Ok (buffers, _) =>
              Ok {| datas := datas w; next_data := next_data w; outstanding := outstanding w;
                    called := called w; given := given w; sent := sent w ++ [(w_handler x, buffers)] |}
          | Fail _ => Ok w
          end
      end
  end.
Definition complete_write (i : nat) (ec : option string) (w : writes) : outcome writes :=
  match outstanding w !! i with
  | None => Ok w
  | Some d =>
      writeOp_call d ec true
        {| datas := datas w; next_data := next_data w; outstanding := delete i (outstanding w);
           called := called w; given := given w; sent := sent w |}
  end.
Inductive write_move :=
| Start (is_continuation : bool) (msg : response) (handler : nat)
| Send (i : nat)
| Complete (i : nat) (ec : option string).
Definition write_step (m : write_move) (w : writes) : outcome writes :=
  match m with
  | Start c msg h => asyncWrite c msg h w
  | Send i => send i w
  | Complete i ec => complete_write i ec w
  end.
Fixpoint write_run (ms : list write_move) (w : writes) : outcome writes :=
  match ms with [] => Ok w | m :: ms => w ← write_step m w; write_run ms w end.

(** ** The message lives as long as its write *)

Definition handler_of_data (w : writes) (d : nat) : option nat := w_handler <$> datas w !! d.
(** Every outstanding write has its data, and no others exist; every handler given
    waits for its write or has been called. *)
Record writes_ok (w : writes) : Prop := {
  wo_distinct : NoDup (outstanding w);
  wo_data : ∀ d, d ∈ outstanding w ↔ is_Some (datas w !! d);
  wo_fresh : ∀ d, d ∈ outstanding w → d < next_data w;
  wo_handlers : given w ≡ₚ omap (handler_of_data w) (outstanding w) ++ (called w).*1;
}.

Lemma writes_new_ok : writes_ok writes_new.
Proof.
  split; [constructor| |intros d ?%elem_of_nil; done|done].
  intros d. split; [intros ?%elem_of_nil; done|]. cbn. rewrite lookup_empty. by intros [? ?].
Qed.
Lemma omap_ext_in {A B} (f g : A → option B) (l : list A) :
  (∀ x, x ∈ l → f x = g x) → omap f l = omap g l.
Proof.
  induction l as [|x l IH]; intros E; [done|]. cbn. rewrite (E x) by constructor.
  rewrite IH; [done|]. intros y Hy. apply E. by constructor.
Qed.
Lemma start_ok c msg h w : writes_ok w → ∃ w', asyncWrite c msg h w = Ok w' ∧ writes_ok w'.
Proof.
  intros [Hd Ha Hf Hh]. unfold asyncWrite, writeOp_new, writeOp_call. cbn. rewrite lookup_insert_eq.
  eexists. split; [done|]. assert (next_data w ∉ outstanding w) as Hn by (intros Hi; apply Hf in Hi; lia).
  split; cbn.
  - apply NoDup_app. split; [done|]. split; [|by apply NoDup_singleton].
    by intros d Hi ->%list_elem_of_singleton.
  - intros d. rewrite insert_insert_eq, elem_of_app, list_elem_of_singleton, lookup_insert_is_Some', Ha. naive_solver.
  - intros d. rewrite elem_of_app, list_elem_of_singleton. intros [Hi| ->]; [|lia]. apply Hf in Hi. lia.
  - rewrite omap_app. cbn. unfold handler_of_data at 2. cbn. rewrite lookup_insert_eq. cbn.
    rewrite (omap_ext_in _ (handler_of_data w)).
    + rewrite Hh. by rewrite <- !app_assoc, (Permutation_app_comm (_ :: []) _), <- ?app_assoc.
    + intros d Hi. unfold handler_of_data. cbn. rewrite !lookup_insert_ne; [done| |]; by intros <-.
Qed.
Lemma send_ok i w : writes_ok w → ∃ w', send i w = Ok w' ∧ writes_ok w'.
Proof.
  intros Hw. unfold send. destruct (outstanding w !! i) as [d|] eqn:Hi; [|by exists w].
  destruct (proj1 (wo_data _ Hw d)) as [x Hx]; [by eapply list_elem_of_lookup_2|]. rewrite Hx.
  destruct (write_response (w_message x)) as [[buffers close]|]; [|by exists w].
  eexists. split; [done|]. by destruct Hw.
Qed.
Lemma complete_ok i ec w : writes_ok w → ∃ w', complete_write i ec w = Ok w' ∧ writes_ok w'.
Proof.
  intros Hw. unfold complete_write. destruct (outstanding w !! i) as [d|] eqn:Hi; [|by exists w].
  destruct Hw as [Hd Ha Hf Hh]. destruct (proj1 (Ha d)) as [x Hx]; [by eapply list_elem_of_lookup_2|].
  unfold writeOp_call. cbn. rewrite Hx. eexists. split; [done|].
  pose proof (delete_Permutation _ _ _ Hi) as Hp. remember (delete i (outstanding w)) as os eqn:Eos.
  rewrite Hp in Hd. apply NoDup_cons in Hd as [Hn Hd].
  split; cbn.
  - done.
  - intros d'. rewrite lookup_delete_is_Some, <- Ha, Hp, elem_of_cons. naive_solver.
  - intros d' Hi'. apply Hf. rewrite Hp. by constructor.
  - rewrite (omap_ext_in _ (handler_of_data w) os).
    + rewrite Hp in Hh. etransitivity; [exact Hh|]. cbn. unfold handler_of_data at 1. rewrite Hx. cbn.
      rewrite fmap_app, app_assoc. apply Permutation_cons_append.
    + intros d' Hi'. unfold handler_of_data. cbn. rewrite lookup_delete_ne; [done|]. by intros <-.
Qed.
Lemma write_run_ok ms w : writes_ok w → ∃ w', write_run ms w = Ok w' ∧ writes_ok w'.
Proof.
  revert w; induction ms as [|m ms IH]; intros w Hw; [by exists w|]. cbn [write_run].
  assert (∃ w', write_step m w = Ok w' ∧ writes_ok w') as (w1 & -> & Hw1).
  { destruct m; [by apply start_ok|by apply send_ok|by apply complete_ok]. }
  by apply IH.
Qed.

