(* ===== verification/Main.v ===== *)
(** * The server's start: src/HTTPServerMain.cpp

    [main] up to its main loop: the logging level from the command line's option, the
    line it announces itself with and the server it starts.  Reading the command line
    is boost::program_options', the main loop libdispatch's; Server.v says what becomes
    of the server. *)

From S2P Require Import Prelude Logging Endpoints Server.

(** [boost::to_upper_copy] in the C locale. *)
Definition to_upper_copy (s : string) : string := str_map toupper s.

Definition LogLevelWithProgramOptionLog (option : string) : LogLevel :=
  if String.eqb option "DEBUG" then LogLevelExtreme
  else if String.eqb option "INFO" then LogLevelInfo
  else LogLevelError.

(** The options [main] uses, as parsed. *)
Record program_options := {
  opt_root : string; opt_port : Z; opt_ip : string; opt_threads : nat; opt_log : string }.
Definition default_options : program_options :=
  {| opt_root := "."; opt_port := 8080; opt_ip := "0.0.0.0"; opt_threads := 4; opt_log := "INFO" |}.

Definition main_context (opts : program_options) : ServiceContext :=
  {| secret := "SomeSecret";
     logLevel := LogLevelWithProgramOptionLog (to_upper_copy (opt_log opts)) |}.

Definition listening_line (opts : program_options) : string :=
  "__LISTENINGON: " +:+ opt_ip opts +:+ ":" +:+ to_dec (opt_port opts) +:+ NL.

(** [address_type::from_string], and the acceptor's [open], [bind] and [listen], which
    throw. *)
Section Start.
Context {address : Type} (from_string : string → outcome address)
  (listen : address * Z → outcome unit).

(** The constructor of the server: the acceptor listens, then one accept is started
    and the threads that run the io_service. *)
Definition SemanticHTTPServer_new (ep : address * Z) (context : ServiceContext)
    : outcome (ServiceContext * Server.state) :=
  _ ← listen ep; Ok (context, server_new).
(** Up to [RunMainLoop]. *)
Definition main (opts : program_options) : thread console (ServiceContext * Server.state) :=
  _ ← write_line Cout (listening_line opts);
  let ctx := main_context opts in
  address ← of_outcome (from_string (opt_ip opts));
  of_outcome (SemanticHTTPServer_new (address, opt_port opts) ctx).
End Start.

(** ** The option's meaning *)

Lemma toupper_tolower c : toupper (tolower c) = toupper c.
Proof.
  apply (Ascii.eqb_eq (toupper (tolower c)) (toupper c)).
  revert c. ascii_all (λ c, Ascii.eqb (toupper (tolower c)) (toupper c)).
Qed.
Lemma tolower_toupper c : tolower (toupper c) = tolower c.
Proof.
  apply (Ascii.eqb_eq (tolower (toupper c)) (tolower c)).
  revert c. ascii_all (λ c, Ascii.eqb (tolower (toupper c)) (tolower c)).
Qed.
Lemma str_map_map f g s : str_map f (str_map g s) = str_map (λ c, f (g c)) s.
Proof. induction s as [|c s IH]; [done|]. cbn. by rewrite IH. Qed.
Lemma str_map_ext f g s : (∀ c, f c = g c) → str_map f s = str_map g s.
Proof. intros Hfg. induction s as [|c s IH]; [done|]. cbn. by rewrite Hfg, IH. Qed.

Lemma upper_iff s t : to_upper_copy s = str_map toupper t ↔ str_map tolower s = str_map tolower t.
Proof.
  unfold to_upper_copy. split; intros H.
  - apply (f_equal (str_map tolower)) in H. rewrite !str_map_map in H.
    by rewrite !(str_map_ext (λ c, tolower (toupper c)) tolower) in H by apply tolower_toupper.
  - apply (f_equal (str_map toupper)) in H. rewrite !str_map_map in H.
    by rewrite !(str_map_ext (λ c, toupper (tolower c)) toupper) in H by apply toupper_tolower.
Qed.

(** The level depends on the option's letters and not on their case: "debug"
    logs everything, "info" what is informative, and any other text, "warning"
    and misspellings included, errors only. *)
Theorem log_option_level (opts : program_options) :
  let low := str_map tolower (opt_log opts) in
  logLevel (main_context opts) =
    if decide (low = "debug") then LogLevelExtreme
    else if decide (low = "info") then LogLevelInfo else LogLevelError.
Proof.
  cbv zeta. unfold main_context, LogLevelWithProgramOptionLog. cbn [logLevel].
  pose proof (upper_iff (opt_log opts) "debug") as Hd.
  pose proof (upper_iff (opt_log opts) "info") as Hi. cbn [str_map] in Hd, Hi.
  destruct (String.eqb_spec (to_upper_copy (opt_log opts)) "DEBUG") as [E|E].
  - rewrite decide_True; [done|]. by apply Hd.
  - rewrite (decide_False (P := _ = "debug")) by (intros E'; by apply E, Hd).
    destruct (String.eqb_spec (to_upper_copy (opt_log opts)) "INFO") as [E2|E2].
    + rewrite decide_True; [done|]. by apply Hi.
    + rewrite decide_False; [done|]. intros E'. by apply E2, Hi.
Qed.

(** C38: the program announces that it is listening and only then looks at the address
    and binds: if either throws, it ends with the exception and the line already
    written; otherwise the server starts, listening with one accept outstanding and no
    session, with the level of the option, whose case does not matter. *)
Theorem main_starts {address : Type} (from_string : string → outcome address)
    (listen : address * Z → outcome unit) (opts : program_options) (c : console) :
  let low := str_map tolower (opt_log opts) in
  let context := {| secret := "SomeSecret";
    logLevel := if decide (low = "debug") then LogLevelExtreme
                else if decide (low = "info") then LogLevelInfo else LogLevelError |} in
  run (main from_string listen opts) c =
    (match a ← from_string (opt_ip opts); listen (a, opt_port opts) with
     | Ok _ => Finished (context, server_new)
     | Fail f => Failed f
     end, c ++ [(Cout, "__LISTENINGON: " +:+ opt_ip opts +:+ ":" +:+ to_dec (opt_port opts) +:+ NL)]).
Proof.
  intros low context. assert (main_context opts = context) as Ec.
  { unfold context, low. rewrite <- log_option_level. done. }
  unfold main. rewrite Ec. unfold SemanticHTTPServer_new.
  cbn -[to_dec String.append]. destruct (from_string (opt_ip opts)) as [a|f]; [|done]. cbn.
  by destruct (listen (a, opt_port opts)).
Qed.
