(* ===== verification/FileBody.v ===== *)
(** * Reading a file as a message body: src/file_body.hpp

    The writer of [file_body], piece by piece.  The file system is outside the
    program: what [fopen] finds under a path, what [file_size] reports and
    whether a read fails are arguments. *)

From S2P Require Import Prelude.

Local Open Scope Z_scope.

(** ** The writer *)

(** An open [FILE*]: what is left to read of the file. *)
Record file_writer := {
  size_ : Z;
  offset_ : Z;
  path_ : string;
  file_ : option string;
  buf_len_ : Z;
}.

(** [sizeof(buf_)] *)
Definition buf_size : Z := 4096.

Definition file_writer_new (body : string) : file_writer :=
  {| size_ := 0; offset_ := 0; path_ := body; file_ := None; buf_len_ := 0 |}.

Section Writer.
(** The file of a C-string path, or [errno]; its size by [boost::filesystem]. *)
Context (fopen : string → string + Z) (file_size : string → Z).

Definition init (w : file_writer) : option Z * file_writer :=
  match fopen (c_str (path_ w)) with
  | inr errno => (Some errno, w)
  | inl text =>
      (None, {| size_ := file_size (path_ w); offset_ := offset_ w; path_ := path_ w;
                file_ := Some text; buf_len_ := buf_len_ w |})
  end.

(** What is sent as [Content-Length]. *)
Definition file_content_length (w : file_writer) : Z := size_ w.

(** One call of [write]; [failed] is the error of its [fread], if any.  The
    error code, the buffer given to [wf], whether it was the last, the writer. *)
Definition write (failed : option Z) (w : file_writer)
    : outcome (option Z * option string * bool * file_writer) :=
  let buf_len := if u64 (size_ w - offset_ w) <? buf_size
                 then u64 (size_ w - offset_ w) else buf_size in
  match file_ w with
  | None => Fail (UndefinedBehavior "fread: null stream")
  | Some text =>
      let buf := str_take (Z.to_nat buf_size) text in
      let w' := {| size_ := size_ w; offset_ := offset_ w; path_ := path_ w;
                   file_ := Some (str_drop (Z.to_nat buf_size) text);
                   buf_len_ := buf_len |} in
      match failed with
      | Some errno => Ok (Some errno, None, true, w')
      | None =>
          let nread := strlenZ buf in
          if nread =? 0 then Fail (AssertionFailed "nread != 0") else
          let offset := u64 (offset_ w + nread) in
          Ok (None, Some buf, size_ w <=? offset,
              {| size_ := size_ w; offset_ := offset; path_ := path_ w;
                 file_ := file_ w'; buf_len_ := buf_len |})
      end
  end.

(** [~writer]: whether it calls [fclose]. *)
Definition destroy (w : file_writer) : bool :=
  match file_ w with Some _ => true | None => false end.

(** Calls of [write], each with the error of its [fread], if any. *)
Fixpoint writes (fs : list (option Z)) (w : file_writer) : outcome file_writer :=
  match fs with
  | [] => Ok w
  | failed :: fs =>
      '(_, _, _, w) ← write failed w;
      writes fs w
  end.

(** The loop of the caller while reads succeed: [write] until it was the last. *)
Fixpoint write_all (fuel : nat) (w : file_writer) : outcome (list string) :=
  match fuel with
  | O => Fail OutOfFuel
  | S fuel =>
      '(_, buf, last, w') ← write None w;
      let here := match buf with Some b => [b] | None => [] end in
      if last : bool then Ok here else
      rest ← write_all fuel w';
      Ok (here ++ rest)
  end.

(** ** A file sent *)

Definition max_size : Z := 2 ^ 64 - buf_size.

Lemma strlenZ_take_drop n s :
  strlenZ (str_take n s) + strlenZ (str_drop n s) = strlenZ s.
Proof. by rewrite <- strlenZ_app, str_take_drop. Qed.

Lemma buf_length text :
  strlenZ (str_take (Z.to_nat buf_size) text) = Z.min buf_size (strlenZ text).
Proof.
  rewrite !strlenZ_length, length_str_take. unfold buf_size. lia.
Qed.

(** What is read to send at least [n] bytes of a file: whole buffers, one at least. *)
Definition whole_buffers (n : Z) : Z := buf_size * Z.max 1 ((n + buf_size - 1) / buf_size).

Lemma str_take_add m n s : str_take (m + n) s = str_take m s +:+ str_take n (str_drop m s).
Proof.
  revert s; induction m as [|m IH]; intros s; [by rewrite str_app_nil_l|].
  destruct s as [|c s]; [by destruct n|]. cbn. by rewrite str_app_cons, IH.
Qed.
Lemma whole_buffers_one n : n ≤ buf_size → whole_buffers n = buf_size.
Proof.
  unfold whole_buffers, buf_size. intros Hn. rewrite Z.max_l; [lia|].
  assert ((n + 4096 - 1) / 4096 < 2); [apply Z.div_lt_upper_bound; lia|lia].
Qed.
Lemma whole_buffers_more n :
  buf_size < n → whole_buffers n = buf_size + whole_buffers (n - buf_size).
Proof.
  unfold whole_buffers, buf_size. intros Hn.
  replace (n + 4096 - 1) with ((n - 4096 + 4096 - 1) + 1 * 4096) by lia.
  rewrite Z.div_add by lia.
  assert (1 ≤ (n - 4096 + 4096 - 1) / 4096); [apply Z.div_le_lower_bound; lia|lia].
Qed.

(** The loop, whatever the size was said to be. *)
Lemma write_all_any fuel w text :
  file_ w = Some text → 0 ≤ offset_ w → offset_ w + strlenZ text < max_size →
  (Z.to_nat (strlenZ text) < fuel)%nat →
  if decide (text = EmptyString ∨ offset_ w + strlenZ text < size_ w)
  then write_all fuel w = Fail (AssertionFailed "nread != 0")
  else ∃ bufs, write_all fuel w = Ok bufs ∧
    str_concat bufs = str_take (Z.to_nat (whole_buffers (size_ w - offset_ w))) text ∧
    Forall (λ b, 0 < strlenZ b ≤ buf_size) bufs.
Proof.
  revert w text; induction fuel as [|fuel IH]; intros w text Hf Ho Hm Hn; [lia|].
  destruct (decide (text = EmptyString)) as [->|Hne].
  { rewrite decide_True by (by left). cbn [write_all]. unfold write. by rewrite Hf. }
  pose proof (strlenZ_nonneg text). pose proof (buf_length text) as Hb.
  pose proof (strlenZ_take_drop (Z.to_nat buf_size) text) as Htd.
  assert (0 < strlenZ text) as Hpos by (destruct text; [done|]; cbn [strlenZ];
    pose proof (strlenZ_nonneg text); lia).
  set (buf := str_take (Z.to_nat buf_size) text) in *.
  set (rest := str_drop (Z.to_nat buf_size) text) in *.
  pose proof (strlenZ_nonneg rest).
  assert (buf_size = 4096) as B by done. assert (max_size = 2 ^ 64 - 4096) as M by done.
  cbn [write_all]. unfold write. rewrite Hf. fold buf rest.
  replace (strlenZ buf =? 0) with false by (symmetry; lia). cbn.
  assert (u64 (offset_ w + strlenZ buf) = offset_ w + strlenZ buf) as ->
    by (unfold u64; apply Z.mod_small; lia).
  destruct (Z.leb_spec (size_ w) (offset_ w + strlenZ buf)) as [Hl|Hl].
  - rewrite decide_False by (intros [?|?]; [done|lia]). exists [buf]. split; [done|].
    split; [|constructor; [lia|done]]. rewrite whole_buffers_one by lia.
    cbn. by rewrite str_app_nil_r.
  - match goal with |- context [write_all fuel ?v] => set (w1 := v) end.
    specialize (IH w1 rest eq_refl). cbn [offset_ size_ w1] in IH.
    specialize (IH ltac:(lia) ltac:(lia) ltac:(lia)). case_decide as Hc; case_decide as Hc'.
    + by rewrite IH.
    + exfalso. apply Hc'. right. destruct Hc as [Hr|?]; [rewrite Hr in *; cbn in *; lia|lia].
    + exfalso. apply Hc. right. destruct Hc' as [?|?]; [done|lia].
    + assert (rest ≠ EmptyString) as Hr by (intros Hr; apply Hc; by left).
      assert (0 < strlenZ rest) by (destruct rest; [done|]; cbn [strlenZ];
        pose proof (strlenZ_nonneg rest); lia).
      destruct IH as (bufs & -> & E & Hbs). exists (buf :: bufs). split; [done|].
      split; [|constructor; [lia|done]]. cbn. rewrite E.
      rewrite (whole_buffers_more (size_ w - offset_ w)) by lia.
      replace (size_ w - (offset_ w + strlenZ buf)) with (size_ w - offset_ w - buf_size) by lia.
      assert (0 ≤ whole_buffers (size_ w - offset_ w - buf_size)) by (unfold whole_buffers; lia).
      rewrite Z2Nat.inj_add by lia. by rewrite str_take_add.
Qed.


(** A file whose size is reported truly is sent whole. *)
Theorem file_sent (path : string) :
  let '(ec, w) := init (file_writer_new path) in
  match fopen (c_str path) with
  | inr errno => ec = Some errno
  | inl text =>
      file_size path = strlenZ text → strlenZ text < max_size →
      ec = None ∧ file_content_length w = strlenZ text ∧
      if decide (text = EmptyString)
      then ∀ fuel, write_all (S fuel) w = Fail (AssertionFailed "nread != 0")
      else ∃ bufs, write_all (S (Z.to_nat (strlenZ text))) w = Ok bufs ∧
        str_concat bufs = text ∧ Forall (λ b, 0 < strlenZ b ≤ buf_size) bufs
  end.
Proof.
  unfold init. cbn [file_writer_new path_ offset_ buf_len_]. destruct (fopen (c_str path)) as [text|errno]; [|done].
  intros Hs Hm. split; [done|]. split; [exact Hs|]. destruct (decide _) as [->|Hne]; [done|].
  match goal with |- context [write_all _ ?w] =>
    pose proof (write_all_any (S (Z.to_nat (strlenZ text))) w text eq_refl) as Hw end.
  cbn [offset_ size_] in Hw. rewrite Z.add_0_l, Z.sub_0_r in Hw.
  rewrite decide_False in Hw by (intros [?|?]; [done|lia]).
  destruct Hw as (bufs & E & Ec & Hb); [lia..|]. exists bufs. split; [done|]. split; [|done].
  rewrite Ec, Hs. apply str_take_length. rewrite strlenZ_length in *. unfold whole_buffers, buf_size.
  assert (Z.of_nat (String.length text) ≤ 4096 * ((Z.of_nat (String.length text) + 4096 - 1) / 4096)).
  { pose proof (Z.mod_pos_bound (Z.of_nat (String.length text) + 4096 - 1) 4096 ltac:(lia)).
    pose proof (Z.div_mod (Z.of_nat (String.length text) + 4096 - 1) 4096 ltac:(lia)). lia. }
  lia.
Qed.
End Writer.


Lemma file_sent_witness :
  let text := str_repeat 5000 "x" in
  ∃ bufs,
    write_all (S (Z.to_nat (strlenZ text)))
      {| size_ := 5000; offset_ := 0; path_ := "/tmp/x"; file_ := Some text; buf_len_ := 0 |} =
      Ok bufs ∧
    str_concat bufs = text ∧ Forall (λ b, 0 < strlenZ b ≤ buf_size) bufs.
Proof.
  pose proof (file_sent (λ _, inl (str_repeat 5000 "x")) (λ _, 5000) "/tmp/x") as H.
  cbn [init] in H.
  destruct H as (_ & _ & H); [vm_compute; reflexivity|vm_compute; reflexivity|].
  rewrite decide_False in H by discriminate. exact H.
Defined.
