(* ===== verification/IntegrationTests.v ===== *)
(** * The client of the integration tests: src/APIIntegrationTests.cpp

    The request bodies the test client builds and the requests it sends, against
    what the completions endpoint reads. *)

From S2P Require Import Prelude Ptree JsonRead JsonSafe JsonGrammar JsonWrite.
From S2P Require Import Logging Offset HttpMessage HttpParser HttpParserSafe HttpNames HttpText HttpReadBack Endpoints.

Local Open Scope Z_scope.

(** ** The client *)

(** [flagsOut.put("", f)] for every flag. *)
Fixpoint put_flags (flags : list string) (flagsOut : ptree) : outcome ptree :=
  match flags with
  | [] => Ok flagsOut
  | f :: flags =>
      flagsOut ← put EmptyString f flagsOut;
      put_flags flags flagsOut
  end.

Definition completion_post_tree (line column : Z) (fileName contents : string)
    (flags : list string) : outcome ptree :=
  out ← put "line" line ptree_new;
  out ← put "column" column out;
  out ← put "file_name" fileName out;
  out ← put "contents" contents out;
  flagsOut ← put_flags flags ptree_new;
  '(out, _) ← add_child "flags" flagsOut out;
  Ok out.

Definition MakeCompletionPostBody (line column : Z) (fileName contents : string)
    (flags : list string) : outcome string :=
  out ← completion_post_tree line column fileName contents flags;
  write_json true out.

(** [req] as [PostRequest] fills it in, [port] being the peer's. *)
Definition post_request (port : Z) (path body : string) : request :=
  {| req_version := 11; req_method := "POST"; req_url := path;
     req_fields := fields_insert "Content-Type" "application/json"
       (fields_insert "User-Agent" "ssvim-integration_tests/http"
         (fields_insert "Host" ("localhost" +:+ ":" +:+ to_dec port) []));
     req_body := body |}.
(** What [PostRequest] writes to the socket. *)
Definition request_written (port : Z) (path body : string) : outcome (list string * bool) :=
  req ← prepare_request (post_request port path body);
  write_request req.

(** ** What the server reads *)

Lemma put_flags_last flags d cs :
  put_flags flags (Node d cs) = Ok (Node (default d (last flags)) cs).
Proof.
  revert d; induction flags as [|f flags IH]; intros d; [done|]. cbn [put_flags].
  change (put EmptyString f (Node d cs)) with (Ok (Node f cs)). cbn [mbind outcome_bind].
  rewrite IH, last_cons. by destruct (last flags).
Qed.

Definition post_tree (line column : Z) (fileName contents flag : string) : ptree :=
  Node EmptyString
    [("line", Node (to_dec line) []); ("column", Node (to_dec column) []);
     ("file_name", Node fileName []); ("contents", Node contents []);
     ("flags", Node flag [])].

Lemma completion_post_tree_eq line column fileName contents flags :
  completion_post_tree line column fileName contents flags =
  Ok (post_tree line column fileName contents (default EmptyString (last flags))).
Proof.
  unfold completion_post_tree, ptree_new. rewrite put_flags_last.
  generalize (default EmptyString (last flags)). intros flag.
  cbv -[to_dec]. reflexivity.
Qed.

Lemma utf8_ascii s : str_forallb (λ c, code c <=? 0x7f) s = true → utf8_ok 0 s = true.
Proof. induction s as [|c s IH]; cbn; [done|]. by intros [-> Hs]%andb_prop; auto. Qed.
Lemma str_forallb_impl (p q : ascii → bool) s :
  (∀ c, p c = true → q c = true) → str_forallb p s = true → str_forallb q s = true.
Proof.
  intros Hpq. induction s as [|c s IH]; cbn; [done|]. intros [Hc Hs]%andb_prop.
  by rewrite (Hpq c Hc), IH.
Qed.
Lemma utf8_to_dec z : utf8_ok 0 (to_dec z) = true.
Proof.
  assert (∀ n, 0 ≤ n → str_forallb (λ c, code c <=? 0x7f) (to_dec n) = true) as Hp.
  { intros n Hn. apply (str_forallb_impl is_digit_char); [|by apply to_dec_pos].
    intros c. unfold is_digit_char. lia. }
  apply utf8_ascii. destruct (Z.ltb_spec z 0); [|by apply Hp].
  assert (to_dec z = String "-" (to_dec (- z))) as ->.
  { unfold to_dec. replace (z <? 0) with true by (symmetry; lia).
    by replace (- z <? 0) with false by (symmetry; lia). }
  cbn [str_forallb]. rewrite Hp by lia. reflexivity.
Qed.

Lemma client_body_query (line column : Z) (fileName contents : string)
    (flags : list string) :
  int_min ≤ line ≤ int_max → int_min ≤ column ≤ int_max →
  forallb (utf8_ok 0) (fileName :: contents :: flags) = true →
  ∃ body, MakeCompletionPostBody line column fileName contents flags = Ok body ∧
    read_completion_query body =
      Ok {| q_file_name := fileName; q_column := column; q_line := line;
            q_contents := contents; q_flags := [] |}.
Proof.
  intros Hl Hc Hu. set (flag := default EmptyString (last flags)).
  assert (utf8_tree (post_tree line column fileName contents flag) = true) as Ht.
  { cbn [forallb] in Hu. apply andb_prop in Hu as [Hf Hu]. apply andb_prop in Hu as [Hco Hu].
    assert (utf8_ok 0 flag = true) as Hfl.
    { unfold flag. destruct (last flags) as [f|] eqn:E; [|done]. cbn.
      apply last_Some_elem_of, list_elem_of_In in E. by eapply forallb_forall in Hu. }
    cbn [post_tree utf8_tree forallb fst snd andb]. by rewrite !utf8_to_dec, Hf, Hco, Hfl. }
  destruct (write_json true (post_tree line column fileName contents flag)) as [body|f] eqn:Hw.
  2: { unfold write_json in Hw. cbn in Hw. rewrite !andb_false_r in Hw. done. }
  exists body. unfold MakeCompletionPostBody. rewrite completion_post_tree_eq. split; [exact Hw|].
  unfold read_completion_query, readJSONPostBody.
  rewrite (value_read _ _ (write_json_text _ _ _ Hw Ht)). cbn [mbind outcome_bind].
  assert (stream_get_int (to_dec line) = Some line) as El by by apply stream_get_int_to_dec.
  assert (stream_get_int (to_dec column) = Some column) as Ec by by apply stream_get_int_to_dec.
  assert (∀ n z, stream_get_int n = Some z → get_value Z (Node n []) = Ok z) as Hz.
  { intros n z E. unfold get_value. cbn [tr_get_value int_translator ptree_data]. by rewrite E. }
  set (t := post_tree line column fileName contents flag).
  change (get string "file_name" t) with (Ok fileName : outcome string).
  change (get Z "column" t) with (get_value Z (Node (to_dec column) [])).
  change (get Z "line" t) with (get_value Z (Node (to_dec line) [])).
  change (get string "contents" t) with (Ok contents : outcome string).
  change (as_vector t "flags") with (Ok [] : outcome (list string)).
  by rewrite (Hz _ _ Ec), (Hz _ _ El).
Qed.

(** A body the client builds from UTF-8 texts is read back by the
    completions endpoint with the same line, column, file name and contents; the
    flags are lost, however many were given: the endpoint sees none. *)
Theorem client_body_read (line column : Z) (fileName contents : string)
    (flags : list string) :
  int_min ≤ line ≤ int_max → int_min ≤ column ≤ int_max →
  forallb (utf8_ok 0) (fileName :: contents :: flags) = true →
  ∃ body, MakeCompletionPostBody line column fileName contents flags = Ok body ∧
    read_completion_query body =
      Ok {| q_file_name := fileName; q_column := column; q_line := line;
            q_contents := contents; q_flags := [] |}.
Proof. apply client_body_query. Qed.
Lemma client_body_read_witness :
  ∃ body, MakeCompletionPostBody 19 15 "a.swift" "let x = 1" ["-sdk"; "/S"] = Ok body ∧
    read_completion_query body =
      Ok {| q_file_name := "a.swift"; q_column := 15; q_line := 19;
            q_contents := "let x = 1"; q_flags := [] |}.
Proof. by apply (client_body_read 19 15 "a.swift" "let x = 1" ["-sdk"; "/S"]). Defined.

(** The fields the client gives. *)
Definition client_fields (port : Z) : fields :=
  [("Host", "localhost:" +:+ to_dec port);
   ("User-Agent", "ssvim-integration_tests/http"); ("Content-Type", "application/json")].
Lemma post_request_fields port path body :
  0 ≤ port → req_fields (post_request port path body) = client_fields port.
Proof.
  intros Hp. assert (trim ("localhost" +:+ ":" +:+ to_dec port) = "localhost:" +:+ to_dec port) as Hh.
  { apply trim_no_ows. rewrite !str_forallb_app, (digits_no_ows (to_dec port)); [reflexivity|].
    by apply to_dec_pos. }
  cbn -[trim]. by rewrite Hh.
Qed.

(** What the client puts on the wire is one buffer: the request line, its
    three fields, the body's length and the body; the connection is kept. *)
Theorem client_request_on_the_wire (port : Z) (path body : string) :
  0 ≤ port →
  request_written port path body =
    Ok (["POST " +:+ path +:+ " HTTP/1.1" +:+ CRLF +:+
      "Host: localhost:" +:+ to_dec port +:+ CRLF +:+
      "User-Agent: ssvim-integration_tests/http" +:+ CRLF +:+
      "Content-Type: application/json" +:+ CRLF +:+
      "Content-Length: " +:+ to_dec (content_length body) +:+ CRLF +:+ CRLF +:+ body], false).
Proof.
  intros Hp. unfold request_written.
  pose proof (post_request_fields port path body Hp) as Hf. unfold client_fields in Hf.
  unfold prepare_request. rewrite Hf.
  match goal with |- context [prepare_guard ?fs] =>
    change (prepare_guard fs) with (Ok tt : outcome unit) end.
  cbn [mbind outcome_bind].
  match goal with |- context [if ?b || ?c then _ else _] =>
    replace (b || c) with true by (symmetry; apply orb_true_r) end.
  unfold prepare_upgrade. change (req_version (post_request port path body) <? 11) with false.
  cbn [andb mbind outcome_bind]. unfold fields_insert at 1. rewrite trim_length.
  cbn [req_body post_request]. generalize (to_dec (content_length body)), (to_dec port).
  intros n p. unfold write_request, write_message, request_line.
  cbn [req_fields req_version req_method req_url req_body req_with_fields post_request app].
  match goal with |- context [token_exists "chunked" ?v] =>
    change (token_exists "chunked" v) with false end.
  match goal with |- context [token_exists "close" ?v] =>
    change (token_exists "close" v) with false end.
  change (http_version 11) with (Ok "HTTP/1.1" : outcome string).
  unfold write_fields. cbn [map str_concat fst snd mbind outcome_bind orb andb].
  rewrite !str_app_assoc. reflexivity.
Qed.

Lemma client_request_on_the_wire_witness :
  request_written 8080 "/status" EmptyString =
    Ok (["POST /status HTTP/1.1" +:+ CRLF +:+ "Host: localhost:8080" +:+ CRLF +:+
      "User-Agent: ssvim-integration_tests/http" +:+ CRLF +:+
      "Content-Type: application/json" +:+ CRLF +:+ "Content-Length: 0" +:+ CRLF +:+ CRLF],
      false).
Proof. exact (client_request_on_the_wire 8080 "/status" EmptyString (Zle_bool_imp_le 0 8080 eq_refl)). Defined.

(** ** An exchange *)

Lemma dec_digits_length k fuel z :
  0 ≤ z < 10 ^ Z.of_nat (S k) → strlenZ (dec_digits fuel z) ≤ Z.of_nat (S k).
Proof.
  revert k z; induction fuel as [|fuel IH]; intros k z Hz; [cbn; lia|]. cbn [dec_digits].
  rewrite strlenZ_app. change (strlenZ (str1 _)) with 1.
  destruct (Z.ltb_spec z 10); [cbn; lia|]. destruct k as [|k]; [cbn in Hz; lia|].
  rewrite Nat2Z.inj_succ, Z.pow_succ_r in Hz by lia.
  assert (0 ≤ z / 10 < 10 ^ Z.of_nat (S k)) as Hq
    by (split; [apply Z.div_pos|apply Z.div_lt_upper_bound]; lia).
  specialize (IH k (z / 10) Hq). lia.
Qed.
Lemma to_dec_length k z :
  0 ≤ z < 10 ^ Z.of_nat (S k) → strlenZ (to_dec z) ≤ Z.of_nat (S k).
Proof.
  intros Hz. unfold to_dec. replace (z <? 0) with false by (symmetry; lia). by apply dec_digits_length.
Qed.

Lemma client_fields_plain port : 0 ≤ port → Forall plain_field (client_fields port).
Proof.
  intros Hp. destruct (to_dec_pos port Hp) as (_ & Hd & _).
  repeat constructor; try discriminate; cbn [snd].
  - rewrite str_forallb_app. cbn [str_forallb]. revert Hd. apply str_forallb_impl.
    intros c Hc. by apply digit_text.
  - apply trim_no_ows. by rewrite str_forallb_app, (digits_no_ows _ Hd).
Qed.
Lemma client_header_size port path body :
  0 ≤ port < 65536 → strlenZ body ≤ body_limit true →
  request_header_size (req_with_fields (prepared_fields (post_request port path body))
    (post_request port path body)) ≤ strlenZ path + 200.
Proof.
  intros Hp Hb. unfold body_limit in Hb. pose proof (strlenZ_nonneg body).
  pose proof (to_dec_length 4 port ltac:(cbn; lia)). pose proof (to_dec_length 6 (strlenZ body) ltac:(cbn; lia)).
  unfold request_header_size, prepared_fields.
  cbn [req_method req_url req_fields req_with_fields req_body post_request].
  replace ((strlenZ body >? 0) || _) with true by (symmetry; apply orb_true_r).
  rewrite fields_size_length. change (fields_insert _ _ _) with (req_fields (post_request port path body)).
  rewrite post_request_fields by lia. unfold client_fields, fields_size. cbn -[to_dec strlenZ].
  rewrite strlenZ_app. change (strlenZ "localhost:") with 10. change (strlenZ "POST") with 4.
  change (strlenZ "Host") with 4. change (strlenZ "User-Agent") with 10.
  change (strlenZ "ssvim-integration_tests/http") with 28. change (strlenZ "Content-Type") with 12.
  change (strlenZ "application/json") with 16. lia.
Qed.
Lemma client_sendable port path body :
  0 ≤ port → path ≠ EmptyString → str_forallb url_char path = true →
  sendable (post_request port path body).
Proof.
  intros Hp Hne Hpath. split_and!; try done; [by right|].
  rewrite post_request_fields by done. by apply client_fields_plain.
Qed.
(** What the client sends reaches the server. *)
Lemma client_delivered port path body :
  0 ≤ port < 65536 → path ≠ EmptyString → str_forallb url_char path = true →
  strlenZ path ≤ 16000 → strlenZ body ≤ body_limit true →
  ∃ wire close msg, request_written port path body = Ok ([wire], close) ∧ delivered true wire msg ∧
    req_version (to_request msg) = 11 ∧ req_url (to_request msg) = path ∧
    req_body (to_request msg) = body.
Proof.
  intros Hp Hne Hpath Hlen Hb. pose proof (client_header_size port path body Hp Hb) as Hs.
  destruct (request_delivered (post_request port path body)) as (E & wire & close & msg & Hw & Em & Hd);
    [by apply client_sendable; [lia|..]|unfold header_limit; lia|done|].
  exists wire, close, msg. unfold request_written. rewrite E, Em. by split_and!.
Qed.
Lemma answer_sendable status reason reply :
  In (status, reason) [(200, EmptyString); (404, "Not Found"); (500, "Internal Error")] →
  sendable_response (build_response status reason 11 reply).
Proof.
  intros Hin. assert (100 ≤ status ≤ 999 ∧ HttpMessage.has_body status ∧ str_forallb is_text reason = true)
    as (Hs & Hb & Hr).
  { destruct Hin as [[= <- <-]|[[= <- <-]|[[= <- <-]|[]]]]; (split; [lia|]; split; [|reflexivity]);
      (split; [|split]; discriminate). }
  split; [by right|]. split; [exact Hs|]. split; [exact Hb|]. split; [exact Hr|].
  cbn [res_fields build_response]. repeat constructor; discriminate.
Qed.
(** What the server answers reaches the client. *)
Lemma answer_delivered status reason reply :
  In (status, reason) [(200, EmptyString); (404, "Not Found"); (500, "Internal Error")] →
  strlenZ reply ≤ length_limit →
  ∃ res wire msg,
    prepare_response (build_response status reason 11 reply) = Ok res ∧
    write_response res = Ok ([wire], false) ∧ delivered false wire msg ∧
    res_status (to_response msg) = status ∧ res_body (to_response msg) = reply.
Proof.
  intros Hin Hl. pose proof (strlenZ_nonneg reply).
  assert (length_limit < 10 ^ Z.of_nat 20) as Hll by done.
  pose proof (to_dec_length 19 (strlenZ reply) ltac:(lia)) as Hd.
  set (m := build_response status reason 11 reply).
  destruct (response_delivered m) as (E & wire & msg & Hw & Em & Hdel); [| |done|].
  - by apply answer_sendable.
  - unfold response_header_size, prepared_response. cbn [res_reason res_fields res_with_fields].
    rewrite fields_size_length. change (res_body m) with reply.
    assert (strlenZ (res_reason m) + fields_size (res_fields m) ≤ 100).
    { destruct Hin as [[= <- <-]|[[= <- <-]|[[= <- <-]|[]]]]; by vm_compute. }
    unfold header_limit. lia.
  - exists (prepared_response m), wire, msg. rewrite Em. by split_and!.
Qed.

