(* ===== verification/TestSuite.v ===== *)
(** * The integration tests: src/APIIntegrationTests.cpp

    The suite and its [main] with the client's exchange over a socket, the operating
    system and the server being parameters; against the protocol of Protocol.v. *)

From S2P Require Import Prelude Ptree JsonRead JsonWrite.
From S2P Require Import HttpMessage HttpParser HttpParserSafe HttpParserReads SyncRead HttpText HttpReadBack.
From S2P Require Import Logging Futures SourceKitD Offset SourceKit Completer Endpoints Protocol.
From S2P Require Import Server Connection IntegrationTests.

Local Open Scope Z_scope.

(** ** What the tests run on *)

(** The operating system and, at the other end of the sockets, the server: what the
    [n]th exchange's socket gives once the request has been written. *)
Record Host := {
  getcwd : option string;
  files : string → option string;
  socket : Z;
  getsockname : Z → option (string * Z);
  system : string → Z;
  connect : string → string → string + Z;
  transmit : nat → list string → string + list read_result;
  error_text : read_error → string;
}.
(** What the tests have printed, and the number of exchanges begun. *)
Record Run := { printed : console; exchanges_begun : nat }.
Definition print (st : stream) (text : string) : thread Run unit :=
  modify (λ w, {| printed := printed w ++ [(st, text)]; exchanges_begun := exchanges_begun w |}).
Definition begin_exchange : thread Run nat :=
  atomic (λ w, (exchanges_begun w,
                {| printed := printed w; exchanges_begun := S (exchanges_begun w) |})).
Definition check (b : bool) (msg : string) : thread Run unit :=
  if b then mret tt else TFail (AssertionFailed msg).

(** ** The client *)

(** [boost::variant<Success, Error>] and [boost::get]. *)
Inductive Result (S E : Type) := RSuccess (s : S) | RError (e : E).
Arguments RSuccess {S E} s.
Arguments RError {S E} e.
Definition Get {S E} (v : Result S E) : outcome S :=
  match v with RSuccess s => Ok s | RError _ => Fail (Exn boost_bad_get) end.
Inductive TestErrorCode := TestErrorCodeUndefined.

Section Tests.
Context (host : Host).

(** The body of [try]; [None] while the read blocks. *)
Definition post_try (n : nat) (port path body : string) : outcome (option response) :=
  match connect host "localhost" port with
  | inl what => Fail (Exn (system_error what))
  | inr peer_port =>
      '(buffers, close) ← request_written peer_port path body;
      match transmit host n buffers with
      | inl what => Fail (Exn (system_error what))
      | inr reads =>
          if close : bool then Fail (Exn (system_error "End of file")) else
          '(m, _) ← read false EmptyString reads;
          match m with
          | None => Ok None
          | Some (inl m) => Ok (Some (to_response m))
          | Some (inr e) => Fail (Exn (system_error (error_text host e)))
          end
      end
  end.
Definition PostRequest (port path body : string) : thread Run (Result response TestErrorCode) :=
  n ← begin_exchange;
  match post_try n port path body with
  | Ok (Some res) => mret (RSuccess res)
  | Ok None => TWait (λ _, None) (λ _, mret (RError TestErrorCodeUndefined))
  | Fail (Exn (system_error what)) =>
      _ ← print Cerr ("localhost: " +:+ what); mret (RError TestErrorCodeUndefined)
  | Fail (Exn _) =>
      _ ← print Cerr ("localhost: unknown exception" +:+ NL); mret (RError TestErrorCodeUndefined)
  | Fail f => TFail f
  end.

(** A file that cannot be opened has no size: [tellg] gives -1, which no vector can
    have; an empty one has no first byte. *)
Definition ReadFile (fileName : string) : outcome string :=
  match files host fileName with
  | None => Fail (Exn (std_length_error "vector"))
  | Some EmptyString => Fail (UndefinedBehavior "bytes[0] of an empty vector")
  | Some bytes => Ok bytes
  end.
Definition GetExamplesDir : string :=
  match getcwd host with
  | Some cwd => if strlenZ cwd <? 1024 then cwd +:+ "/Examples/" else EmptyString
  | None => EmptyString
  end.

(** ** The suite *)

Definition test_flags : list string :=
  ["-sdk"; "/Applications/Xcode.app/Contents/Developer/Platforms/" +:+
           "MacOSX.platform/Developer/SDKs/MacOSX.sdk";
   "-target"; "x86_64-apple-macosx10.12"].
Definition exampleName : string := GetExamplesDir +:+ "some_swift.swift".
Definition testSuccessfulCompletion (boundPort : string) : thread Run unit :=
  example ← of_outcome (ReadFile exampleName);
  body ← of_outcome (MakeCompletionPostBody 19 15 exampleName example test_flags);
  responseValue ← PostRequest boundPort "/completions" body;
  res ← of_outcome (Get responseValue);
  _ ← check (0 <? strlenZ (res_body res)) "res.body.length() > 0";
  check (res_status res =? 200) "res.status == 200".
Definition testStatus (boundPort : string) : thread Run unit :=
  responseValue ← PostRequest boundPort "/status" EmptyString;
  res ← of_outcome (Get responseValue);
  check (res_status res =? 200) "res.status == 200".
Definition testRunningAfterGarbageJSON (boundPort : string) : thread Run unit :=
  _ ← PostRequest boundPort "/completions" EmptyString; mret tt.

(** The name asked for is that of descriptor 0; the result of [bind] is not used. *)
Definition testBind : thread Run (string * Z) :=
  _ ← check (negb (socket host =? -1)) "Could not create socket";
  match getsockname host 0 with
  | None => TFail (UndefinedBehavior "addr is not initialised")
  | Some (ip, port) =>
      _ ← print Cerr ("listening on " +:+ ip +:+ ":" +:+ to_dec port +:+ NL); mret (ip, port)
  end.
Definition startCmd (boundPort : string) : string :=
  "`./build/http_server" +:+ " --port " +:+ boundPort +:+ " >/dev/null`&".
(** The pause after the start has no counterpart: when the server listens is the host's. *)
Definition main : thread Run Z :=
  _ ← print Cout ("Running SSVIM integration tests with examples " +:+ NL +:+ " " +:+ GetExamplesDir +:+ NL);
  '(_, port) ← testBind;
  let boundPort := to_dec port in
  _ ← check (system host (startCmd boundPort) =? 0) "Failed to start";
  _ ← print Cout ("testStatus" +:+ NL);
  _ ← testStatus boundPort;
  _ ← print Cout ("testSuccessfulCompletion" +:+ NL);
  _ ← testSuccessfulCompletion boundPort;
  responseValue ← PostRequest boundPort "/shutdown" EmptyString;
  res ← of_outcome (Get responseValue);
  _ ← check (res_status res =? 200) "Failed to shutdown";
  mret 0.
End Tests.

(** ** What a completion may be *)

(** Every value the thread can end with satisfies [P]. *)
Fixpoint returns {W A} (P : A → Prop) (t : thread W A) : Prop :=
  match t with
  | TRet a => P a
  | TFail _ => True
  | TAtom m => ∀ w, returns P (m w).1
  | TWait _ k => ∀ v, returns P (k v)
  end.
Lemma returns_may {W A} (P : A → Prop) (t : thread W A) x : returns P t → may_return t x → P x.
Proof.
  induction t as [a|f|m IH|r k IH] using thread_ind'; cbn; intros Hr Hm.
  - by subst.
  - done.
  - destruct Hm as [w Hm]. specialize (IH w). destruct (m w) as [t' w'] eqn:E. cbn in *.
    apply IH; [|done]. specialize (Hr w). by rewrite E in Hr.
  - destruct Hm as (w & v & _ & Hm). by apply (IH v).
Qed.
Lemma returns_bind {W A B} (Q : A → Prop) (P : B → Prop) (t : thread W A) (k : A → thread W B) :
  returns Q t → (∀ x, Q x → returns P (k x)) → returns P (t ≫= k).
Proof.
  intros Ht Hk. induction t as [a|f|m IH|r k' IH] using thread_ind'; cbn in *; [by apply Hk|done| |].
  - intros w. specialize (IH w). specialize (Ht w). destruct (m w). by apply IH.
  - intros v. by apply IH.
Qed.
Lemma returns_any {W A} (t : thread W A) : returns (λ _, True) t.
Proof.
  by induction t as [a|f|m IH|r k IH] using thread_ind'.
Qed.
Lemma returns_seq {W A B} (P : B → Prop) (t : thread W A) (k : A → thread W B) :
  (∀ x, returns P (k x)) → returns P (t ≫= k).
Proof. intros Hk. apply (returns_bind (λ _, True)); [apply returns_any|auto]. Qed.
Lemma returns_zoom {W S A} `{!Lens W S} (P : A → Prop) (t : thread S A) :
  returns P t → returns P (zoom t : thread W A).
Proof.
  induction t as [a|f|m IH|r k IH] using thread_ind'; cbn; try done; intros Hr.
  - intros w. specialize (IH (view w)). specialize (Hr (view w)). destruct (m (view w)). by apply IH.
  - intros v. by apply IH.
Qed.

Section Replies.
Context `{SourceKitD}.

(** The JSON description of a response. *)
Definition described (s : string) : Prop := ∃ tr resp, s = skd_json tr resp.
Definition described_if (p : bool * option string) : Prop := ∀ s, p.2 = Some s → described s.

Lemma store_response_described svc resp o :
  (∀ s, o = Some s → described s) → returns described_if (store_response svc resp o).
Proof.
  intros Ho. apply returns_seq. intros [|]; [exact Ho|].
  apply (returns_bind described).
  - apply returns_zoom. apply returns_seq. intros _ tr. cbn. by eexists _, _.
  - intros s Hs. apply returns_seq. intros _ s' [= <-]. exact Hs.
Qed.
Lemma send_described req f o :
  (∀ resp, returns described_if (f resp o)) → returns described_if (SendRequestSync req f o).
Proof.
  intros Hf. apply returns_seq. intros resp. apply (returns_bind described_if); [apply Hf|].
  intros x Hx. apply returns_seq. intros _. exact Hx.
Qed.
Lemma completion_described uidName will did svc ctx o :
  (∀ s, o = Some s → described s) → returns described_if (completion uidName will did svc ctx o).
Proof.
  intros Ho. apply returns_seq. intros _. apply returns_seq. intros [offset file].
  apply (returns_bind described_if).
  - do 12 (apply returns_seq; intros ?). apply (returns_bind described_if).
    + apply send_described. intros resp. by apply store_response_described.
    + intros r Hr. apply returns_seq. intros _. exact Hr.
  - intros r Hr. apply returns_seq. intros _. exact Hr.
Qed.
Lemma candidates_described this filename line column files flags reply :
  may_return (CandidatesForLocationInFile this filename line column files flags) reply →
  reply = EmptyCandidates ∨ described reply.
Proof.
  apply (returns_may (λ reply, reply = EmptyCandidates ∨ described reply)).
  apply returns_seq. intros svc. apply (returns_bind described_if).
  { unfold CompletionOpen. apply completion_described. intros s [=]. }
  intros [b o] Ho. apply (returns_bind described_if).
  { unfold CompletionUpdate. apply completion_described. exact Ho. }
  intros [b' [s|]] Hs; [by right; apply Hs|]. apply returns_seq. intros _. by left.
Qed.
(** What sourcekitd describes a response with: text, of a length a message can state. *)
Definition sound_descriptions : Prop := ∀ tr resp, 0 < strlenZ (skd_json tr resp) ≤ length_limit.
Lemma completion_reply_length r reply :
  sound_descriptions → reply_of Completions r reply → 0 < strlenZ reply ≤ length_limit.
Proof.
  intros Hd (level & q & _ & Hm). apply candidates_described in Hm as [->|(tr & resp & ->)]; [|apply Hd].
  by split.
Qed.
End Replies.

(** ** Answers *)

Section Answers.
Context `{SourceKitD}.

(** An answer to a request for an endpoint is read as a 200 with the reply. *)
Lemma answer_read r e bytes segs :
  req_version r = 11 → endpoint_table !! req_url r = Some e → answer_bytes r bytes →
  (∀ body, reply_of e r body → strlenZ body ≤ length_limit) →
  Forall (λ b, b ≠ EmptyString) segs → str_concat segs = bytes →
  ∃ m rest, read false EmptyString (map Got segs) = Ok (Some (inl m), rest) ∧
    res_status (to_response m) = 200 ∧ reply_of e r (res_body (to_response m)).
Proof.
  intros Hv He (res & buffers & close & Ha & Hw & ->) Hlen Hne Hs.
  destruct Ha as [res E|e' body res E Hr Hp]; [congruence|]. rewrite He in E. injection E as <-.
  rewrite Hv in Hp. destruct (answer_delivered 200 EmptyString body) as (res' & wire & m & Hp' & Hw' & Hd & Hst & Hb);
    [by left|by apply Hlen|]. rewrite Hp in Hp'. injection Hp' as <-. rewrite Hw in Hw'. injection Hw' as -> ->.
  destruct (Hd EmptyString segs EmptyString Hne) as (rest & unread & Hread & _).
  { rewrite Hs. cbn. by rewrite !str_app_nil_r. }
  exists m, rest. rewrite read_async; [|by apply Forall_map; eapply Forall_impl; [exact Hne|]].
  rewrite Hb. by split_and!.
Qed.

Lemma prepared_request m m' : prepare_request m = Ok m' → ∃ fs, m' = req_with_fields fs m.
Proof.
  unfold prepare_request. destruct (prepare_guard _); [|done]. cbn [mbind outcome_bind].
  destruct (prepare_upgrade _ _); [|done]. intros [= <-]. by eexists.
Qed.
(** The server answers the exchange: what the socket gives is an answer to what was
    written, in pieces of any size. *)
Definition served (host : Host) (n : nat) (port path body : string) (r : request) : Prop :=
  ∃ peer wire segs,
    connect host "localhost" port = inr peer ∧
    prepare_request (post_request peer path body) = Ok r ∧ write_request r = Ok (wire, false) ∧
    transmit host n wire = inr (map Got segs) ∧ Forall (λ b, b ≠ EmptyString) segs ∧
    answer_bytes r (str_concat segs).

Lemma served_result host n port path body r e :
  served host n port path body r → endpoint_table !! path = Some e →
  (∀ reply, reply_of e r reply → strlenZ reply ≤ length_limit) →
  ∃ res, post_try host n port path body = Ok (Some res) ∧ res_status res = 200 ∧
    reply_of e r (res_body res).
Proof.
  intros (peer & wire & segs & Hc & Hp & Hw & Ht & Hne & Ha) He Hlen.
  destruct (prepared_request _ _ Hp) as [fs Er].
  assert (req_version r = 11) as Hv by by rewrite Er.
  assert (req_url r = path) as Hu by by rewrite Er. rewrite <- Hu in He.
  destruct (answer_read r e _ segs Hv He Ha Hlen Hne eq_refl) as (m & rest & Hr & Hst & Hb).
  exists (to_response m). split; [|done].
  unfold post_try, request_written. rewrite Hc, Hp. cbn [mbind outcome_bind].
  rewrite Hw. cbn [mbind outcome_bind]. rewrite Ht, Hr. done.
Qed.
(** The exchange succeeds. *)
Lemma post_succeeds {B} host port path body res (k : Result response TestErrorCode → thread Run B) w :
  post_try host (exchanges_begun w) port path body = Ok (Some res) →
  run (PostRequest host port path body ≫= k) w =
  run (k (RSuccess res)) {| printed := printed w; exchanges_begun := S (exchanges_begun w) |}.
Proof.
  intros E. unfold PostRequest, begin_exchange, atomic. cbn -[post_try]. by rewrite E.
Qed.
Lemma run_print {B} st text (k : unit → thread Run B) w :
  run (print st text ≫= k) w =
  run (k tt) {| printed := printed w ++ [(st, text)]; exchanges_begun := exchanges_begun w |}.
Proof. done. Qed.
Lemma run_check {B} b msg (k : unit → thread Run B) w :
  b = true → run (check b msg ≫= k) w = run (k tt) w.
Proof. by intros ->. Qed.

(** What the machine the tests run on is like. *)
Record tested (host : Host) (ip : string) (port : Z) (example body : string) : Prop := {
  te_socket : socket host ≠ -1;
  te_bound : getsockname host 0 = Some (ip, port);
  te_started : system host (startCmd (to_dec port)) = 0;
  te_example : files host (exampleName host) = Some example;
  te_nonempty : example ≠ EmptyString;
  te_body : MakeCompletionPostBody 19 15 (exampleName host) example test_flags = Ok body;
}.
Lemma read_example host ip port example body :
  tested host ip port example body → ReadFile host (exampleName host) = Ok example.
Proof. intros []. unfold ReadFile. rewrite te_example0. by destruct example. Qed.

(** The parts of [main], each with what follows it. *)
Lemma run_bind_assoc {W A B C} (t : thread W A) (k : A → thread W B) (k' : B → thread W C) w :
  run ((t ≫= k) ≫= k') w = run (t ≫= λ x, k x ≫= k') w.
Proof.
  rewrite !run_bind. destruct (run t w) as [[x|f|] w1]; [|done|done]. by rewrite run_bind.
Qed.
Lemma run_testBind {B} host ip port example body (k : string * Z → thread Run B) w :
  tested host ip port example body →
  run (testBind host ≫= k) w =
  run (k (ip, port)) {| printed := printed w ++ [(Cerr, "listening on " +:+ ip +:+ ":" +:+ to_dec port +:+ NL)];
                        exchanges_begun := exchanges_begun w |}.
Proof.
  intros [T1 T2 _ _ _ _]. unfold testBind. rewrite run_bind_assoc, run_check by (apply negb_true_iff, Z.eqb_neq, T1).
  by rewrite T2, run_bind_assoc, run_print.
Qed.
Lemma run_testStatus {B} host boundPort res (k : unit → thread Run B) w :
  post_try host (exchanges_begun w) boundPort "/status" EmptyString = Ok (Some res) →
  res_status res = 200 →
  run (testStatus host boundPort ≫= k) w =
  run (k tt) {| printed := printed w; exchanges_begun := S (exchanges_begun w) |}.
Proof.
  intros E Hst. unfold testStatus. rewrite run_bind_assoc, (post_succeeds _ _ _ _ res _ _ E).
  cbn [Get of_outcome]. change ((TRet res ≫= ?f) ≫= k) with (f res ≫= k). cbv beta.
  rewrite run_check; [done|]. by rewrite Hst.
Qed.
Lemma run_testCompletion {B} host ip port example body res (k : unit → thread Run B) w :
  tested host ip port example body →
  post_try host (exchanges_begun w) (to_dec port) "/completions" body = Ok (Some res) →
  res_status res = 200 → 0 < strlenZ (res_body res) →
  run (testSuccessfulCompletion host (to_dec port) ≫= k) w =
  run (k tt) {| printed := printed w; exchanges_begun := S (exchanges_begun w) |}.
Proof.
  intros Ht E Hst Hb. unfold testSuccessfulCompletion. rewrite (read_example _ _ _ _ _ Ht).
  cbn [of_outcome]. change ((TRet example ≫= ?f) ≫= k) with (f example ≫= k). cbv beta.
  rewrite (te_body _ _ _ _ _ Ht). cbn [of_outcome].
  change ((TRet body ≫= ?f) ≫= k) with (f body ≫= k). cbv beta.
  rewrite run_bind_assoc, (post_succeeds _ _ _ _ res _ _ E). cbn [Get of_outcome].
  change ((TRet res ≫= ?f) ≫= k) with (f res ≫= k). cbv beta.
  rewrite run_bind_assoc, run_check by by apply Z.ltb_lt. rewrite run_check; [done|]. by rewrite Hst.
Qed.

(** The integration tests pass against every server that implements the protocol:
    if the three exchanges of the suite are answered as Protocol.v says, in pieces of
    any size, and sourcekitd describes its responses with some text, [main] prints the names of its tests and returns 0. *)
Lemma suite_run (host : Host) (ip : string) (port : Z) (example body : string) (r0 r1 r2 : request) :
  tested host ip port example body →
  served host 0 (to_dec port) "/status" EmptyString r0 →
  served host 1 (to_dec port) "/completions" body r1 →
  served host 2 (to_dec port) "/shutdown" EmptyString r2 →
  sound_descriptions →
  ∃ w, run (main host) {| printed := []; exchanges_begun := 0 |} = (Finished 0, w) ∧
    exchanges_begun w = 3%nat ∧
    printed w =
      [(Cout, "Running SSVIM integration tests with examples " +:+ NL +:+ " " +:+ GetExamplesDir host +:+ NL);
       (Cerr, "listening on " +:+ ip +:+ ":" +:+ to_dec port +:+ NL);
       (Cout, "testStatus" +:+ NL); (Cout, "testSuccessfulCompletion" +:+ NL)].
Proof.
  intros Ht S0 S1 S2 Hd. pose proof (λ reply, completion_reply_length r1 reply Hd) as Hr.
  assert (∀ e r reply, e = Status ∨ e = Shutdown → reply_of e r reply → strlenZ reply ≤ length_limit) as Hnil.
  { intros e r reply He. by destruct He as [-> | ->]; intros ->. }
  destruct (served_result _ _ _ _ _ _ Status S0 eq_refl) as (res0 & P0 & St0 & _);
    [by intros reply; apply (Hnil Status); left|].
  destruct (served_result _ _ _ _ _ _ Completions S1 eq_refl) as (res1 & P1 & St1 & B1); [by intros; apply Hr|].
  destruct (served_result _ _ _ _ _ _ Shutdown S2 eq_refl) as (res2 & P2 & St2 & _);
    [by intros reply; apply (Hnil Shutdown); right|].
  eexists. split.
  { unfold main. rewrite run_print, (run_testBind host ip port example body) by done.
    rewrite run_check by (apply Z.eqb_eq, Ht).
    rewrite run_print, (run_testStatus host _ res0) by done.
    rewrite run_print, (run_testCompletion host ip port example body res1) by (try done; by apply Hr).
    rewrite (post_succeeds _ _ _ _ res2) by done. cbn [Get of_outcome].
    change (TRet res2 ≫= ?f) with (f res2). cbv beta.
    rewrite run_check by by rewrite St2. reflexivity. }
  by split.
Qed.


(** *** Against the server itself *)

Section Composed.
Context (ctx : ServiceContext) (error_message : read_error → string).

(** The exchange is with a session of the server, in some run of it: the session's peer
    has sent what the client writes, and the client's socket gives, in pieces of any
    size, all that the server has written to the session, which is something. *)
Definition exchanged_with_server (host : Host) (n : nat) (port path body : string) : Prop :=
  ∃ peer wire segs tr nt sid,
    connect host "localhost" port = inr peer ∧ 0 ≤ peer < 65536 ∧
    request_written peer path body = Ok ([wire], false) ∧ transmit host n [wire] = inr (map Got segs) ∧
    net_traced ctx error_message tr nt ∧ c_sent (n_conns nt sid) = wire ∧
    Forall (λ b, b ≠ EmptyString) segs ∧ segs ≠ [] ∧
    str_concat segs = str_concat (sent_to sid (Endpoints.wire (n_proc nt).1)).

Lemma client_on_wire peer path body wire :
  0 ≤ peer < 65536 → path ≠ EmptyString → str_forallb url_char path = true →
  strlenZ path ≤ 16000 → strlenZ body ≤ body_limit true →
  request_written peer path body = Ok ([wire], false) →
  ∃ r, prepare_request (post_request peer path body) = Ok r ∧ write_request r = Ok ([wire], false) ∧
    on_wire r wire.
Proof.
  intros Hp Hne Hpath Hlen Hb Hw. unfold request_written in Hw.
  pose proof (client_header_size peer path body Hp Hb) as Hh.
  destruct (request_delivered (post_request peer path body)) as (E & _);
    [by apply client_sendable; [lia|..]|unfold header_limit; lia|done|].
  rewrite E in Hw. cbn [mbind outcome_bind] in Hw. eexists. split; [exact E|]. split; [exact Hw|].
  exists (post_request peer path body), false. split_and!; try done.
  - apply client_sendable; [lia|done|done].
  - unfold header_limit. lia.
Qed.
(** Such an exchange is answered as the protocol says. *)
Lemma server_serves host n port path body :
  path ≠ EmptyString → str_forallb url_char path = true → strlenZ path ≤ 16000 →
  strlenZ body ≤ body_limit true →
  exchanged_with_server host n port path body → ∃ r, served host n port path body r.
Proof.
  intros Hne Hpath Hlen Hb (peer & wire & segs & tr & nt & sid & Hc & Hp & Hw & Ht & Hn & Hs & Hsg & Hnil & Eb).
  destruct (client_on_wire peer path body wire) as (r & Er & Hwr & Ho); try done.
  exists r, peer, [wire], segs. split_and!; try done.
  destruct (pipelined ctx error_message tr nt sid [r] [wire] Hn) as (k & Hk & Ha & Hx & _).
  { by constructor. }
  { exists EmptyString. cbn. by rewrite Hs, !str_app_nil_r. }
  rewrite Eb. rewrite <- Ha. rewrite <- Ha in Eb.
  destruct (exchanges (of_session sid tr)) as [|[r' o] xs] eqn:Exs.
  { cbn in Eb. destruct segs as [|g segs]; [done|]. inversion_clear Hsg. by destruct g. }
  destruct k as [|k]; [done|]. cbn in Hk. injection Hk as -> Hk.
  assert (xs = []) as -> by (destruct k, xs; done).
  apply Forall_cons in Hx as [Hx _]. destruct o as [bytes|].
  - cbn. rewrite str_app_nil_r. by apply Hx.
  - cbn in Eb. destruct segs as [|g segs]; [done|]. inversion_clear Hsg. by destruct g.
Qed.
End Composed.

(** C26: the integration tests pass against this server: when the client's three
    exchanges are with sessions of runs of the process, whatever its threads, its queues
    and its sockets do in them, and each session has written something by the time the
    client has read, [main] returns 0. *)
Theorem suite_passes_here (ctx : ServiceContext) (error_message : read_error → string)
    (host : Host) (ip : string) (port : Z) (example body : string) :
  tested host ip port example body → strlenZ body ≤ body_limit true →
  exchanged_with_server ctx error_message host 0 (to_dec port) "/status" EmptyString →
  exchanged_with_server ctx error_message host 1 (to_dec port) "/completions" body →
  exchanged_with_server ctx error_message host 2 (to_dec port) "/shutdown" EmptyString →
  sound_descriptions →
  ∃ w, run (main host) {| printed := []; exchanges_begun := 0 |} = (Finished 0, w).
Proof.
  intros Ht Hb E0 E1 E2 Hd.
  apply server_serves in E0 as [r0 S0]; [|done|done|by vm_compute|by vm_compute].
  apply server_serves in E1 as [r1 S1]; [|done|done|by vm_compute|done].
  apply server_serves in E2 as [r2 S2]; [|done|done|by vm_compute|by vm_compute].
  destruct (suite_run host ip port example body r0 r1 r2 Ht S0 S1 S2 Hd) as (w & E & _). by exists w.
Qed.

(** A request whose body is not a query is not answered. *)
Lemma garbage_unanswered r bytes f :
  endpoint_table !! req_url r = Some Completions → read_completion_query (req_body r) = Fail f →
  ¬ answer_bytes r bytes.
Proof.
  intros He Hf (res & buffers & close & Ha & _). destruct Ha as [res E|e body res E Hr _]; [congruence|].
  rewrite He in E. injection E as <-. destruct Hr as (level & q & Hq & _). congruence.
Qed.

(** The test that sends garbage cannot fail: whatever the server and the sockets
    do, it ends or waits for ever, since it looks at nothing that it gets; and what it
    sends is a request that no server that implements the protocol answers. *)
Theorem garbage_test_never_fails (host : Host) (port : string) (w : Run) :
  (∀ peer, connect host "localhost" port = inr peer → 0 ≤ peer) →
  (∀ wire reads, transmit host (exchanges_begun w) wire = inr reads → Forall some_bytes reads) →
  (∀ f, (run (testRunningAfterGarbageJSON host port) w).1 ≠ Failed f) ∧
  ∀ peer r bytes, prepare_request (post_request peer "/completions" EmptyString) = Ok r →
    ¬ answer_bytes r bytes.
Proof.
  intros Hc Ht. split.
  - assert (∀ f, post_try host (exchanges_begun w) port "/completions" EmptyString = Fail f → ∃ what, f = Exn (system_error what)) as Hp.
    { intros f. unfold post_try. destruct (connect host "localhost" port) as [what|peer] eqn:Ec; [intros [= <-]; by eexists|].
      rewrite client_request_on_the_wire by by apply Hc. cbn [mbind outcome_bind].
      destruct (transmit host _ _) as [what|reads] eqn:Er; [intros [= <-]; by eexists|].
      rewrite read_async by by eapply Ht. destruct (async_read_outcome false EmptyString reads) as ([m rest] & -> ); [by eapply Ht|].
      cbn [mbind outcome_bind]. destruct m as [[m|e]|]; [done| |done]. intros [= <-]. by eexists. }
    intros f. unfold testRunningAfterGarbageJSON, PostRequest, begin_exchange, atomic. cbn -[post_try].
    destruct (post_try _ _ _ _ _) as [[res|]|f'] eqn:E; cbn; [done|done|].
    by destruct (Hp f' eq_refl) as [what ->].
  - intros peer r bytes Hp. destruct (prepared_request _ _ Hp) as [fs ->].
    eapply garbage_unanswered; [reflexivity|vm_compute; reflexivity].
Qed.
End Answers.

(** ** The hypotheses can hold *)

Lemma run_may_return {W A} (t : thread W A) w x w' : run t w = (Finished x, w') → may_return t x.
Proof.
  revert w; induction t as [a|f|m IH|r k IH] using thread_ind'; cbn; intros w E; [by injection E|done| |].
  - exists w. specialize (IH w). destruct (m w) as [t' w1]. by apply (IH w1).
  - destruct (r w) as [[v|f]|] eqn:Er; [|done|done]. exists w, v. split; [done|]. by apply (IH v w).
Qed.

(** A sourcekitd that describes every response in the same way. *)
Definition constant_skd : SourceKitD := {|
  skd_create tr := S (highest tr); skd_send tr _ := S (highest tr); skd_is_error _ _ := false;
  skd_payload_is_null _ _ := false; skd_json _ _ := "{}"; skd_get_string _ _ _ := None |}.
Definition some_example : string := "let x = 1" +:+ NL.
Definition some_name : string := "/w/Examples/some_swift.swift".
Definition some_body : string :=
  match MakeCompletionPostBody 19 15 some_name some_example test_flags with Ok b => b | Fail _ => EmptyString end.
Definition some_request (path body : string) : request :=
  match prepare_request (post_request 8080 path body) with
  | Ok r => r | Fail _ => post_request 8080 path body
  end.
Definition some_answer (reply : string) : string :=
  match prepare_response (build_response 200 EmptyString 11 reply) with
  | Ok res => match write_response res with Ok (b, _) => str_concat b | Fail _ => EmptyString end
  | Fail _ => EmptyString
  end.
(** The server is at the other end, and its second answer comes in two pieces. *)
Definition some_host : Host := {|
  getcwd := Some "/w";
  files name := if String.eqb name some_name then Some some_example else None;
  socket := 3; getsockname _ := Some ("127.0.0.1", 8080); system _ := 0;
  connect _ _ := inr 8080;
  transmit n _ :=
    inr (match n with
         | 1%nat => [Got (str_take 20 (some_answer "{}")); Got (str_drop 20 (some_answer "{}"))]
         | _ => [Got (some_answer EmptyString)]
         end);
  error_text _ := EmptyString |}.

Lemma some_served n path body segs e reply :
  endpoint_table !! path = Some e →
  transmit some_host n [] = inr (map Got segs) → Forall (λ b, b ≠ EmptyString) segs →
  prepare_request (post_request 8080 path body) = Ok (some_request path body) →
  (∃ wire, write_request (some_request path body) = Ok (wire, false)) →
  (∃ res buffers close, prepare_response (build_response 200 EmptyString 11 reply) = Ok res ∧
    write_response res = Ok (buffers, close) ∧ str_concat segs = str_concat buffers) →
  @reply_of (@may_reply constant_skd) e (some_request path body) reply →
  @served constant_skd some_host n "8080" path body (some_request path body).
Proof.
  intros He Ht Hne Hp [wire Hw] (res & buffers & close & Hr & Hb & Hs) Hrep.
  destruct (prepared_request _ _ Hp) as [fs Er].
  exists 8080, wire, segs. split_and!; try done. exists res, buffers, close. split_and!; try done.
  apply (AnswersEndpoint _ e reply); [by rewrite Er|done|by rewrite Er].
Qed.
Lemma some_completion : @reply_of (@may_reply constant_skd) Completions (some_request "/completions" some_body) "{}".
Proof.
  exists LogLevelError. eexists. split; [vm_compute; reflexivity|].
  apply (run_may_return _ world_new _ (snd (run (@CandidatesForLocationInFile constant_skd
    (SwiftCompleter_new LogLevelError) some_name 19 15
    [{| contents := some_example; fileName := some_name |}] []) world_new))).
  vm_compute. reflexivity.
Qed.
Lemma suite_run_example :
  ∃ w, run (main some_host) {| printed := []; exchanges_begun := 0 |} = (Finished 0, w) ∧
    exchanges_begun w = 3%nat.
Proof.
  destruct (@suite_run constant_skd some_host "127.0.0.1" 8080 some_example some_body
    (some_request "/status" EmptyString) (some_request "/completions" some_body)
    (some_request "/shutdown" EmptyString)) as (w & Hr & Hn & _).
  - split; first [discriminate|reflexivity|vm_compute; reflexivity].
  - apply (some_served 0 _ _ [some_answer EmptyString] Status EmptyString); try reflexivity;
      [repeat constructor; vm_compute; discriminate|eexists; vm_compute; reflexivity|].
    do 3 eexists; split; [vm_compute; reflexivity|split; vm_compute; reflexivity].
  - apply (some_served 1 _ _ [str_take 20 (some_answer "{}"); str_drop 20 (some_answer "{}")] Completions "{}");
      try reflexivity;
      [repeat constructor; vm_compute; discriminate|eexists; vm_compute; reflexivity| |exact some_completion].
    do 3 eexists; split; [vm_compute; reflexivity|split; vm_compute; reflexivity].
  - apply (some_served 2 _ _ [some_answer EmptyString] Shutdown EmptyString); try reflexivity;
      [repeat constructor; vm_compute; discriminate|eexists; vm_compute; reflexivity|].
    do 3 eexists; split; [vm_compute; reflexivity|split; vm_compute; reflexivity].
  - intros tr resp. split; vm_compute; [reflexivity|discriminate].
  - exists w. split; [exact Hr|exact Hn].
Qed.
(** The server has gone: the test ends all the same. *)
Lemma garbage_test_never_fails_witness :
  (run (testRunningAfterGarbageJSON some_host "8080") {| printed := []; exchanges_begun := 0 |}).1 ≠
    Failed (Exn boost_bad_get) ∧
  ¬ @answer_bytes (@may_reply constant_skd) (some_request "/completions" EmptyString) (some_answer EmptyString).
Proof.
  destruct (@garbage_test_never_fails constant_skd some_host "8080" {| printed := []; exchanges_begun := 0 |})
    as [Hf Hn].
  - intros peer [= <-]. discriminate.
  - intros wire reads [= <-]. repeat constructor. vm_compute. discriminate.
  - split; [exact (Hf _)|]. apply (Hn 8080). vm_compute. reflexivity.
Defined.

(** The server answers the three requests, each in a session of its own, before
    [Session::write] returns. *)
Definition wire_of (path body : string) : string :=
  match request_written 8080 path body with Ok (buffers, _) => str_concat buffers | Fail _ => EmptyString end.
Definition serve_moves (path body : string) (steps : nat) : list net_move :=
  map Runs ([MAccept None] ++ repeat (MThread 0) 4) ++
  [PeerSends 0 (wire_of path body); ReadBegins 0; SocketGives 0 (String.length (wire_of path body)); ReadEnds 0] ++
  map Runs (repeat (MThread 1) 4 ++ [MBlock 0] ++ repeat (MThread 2) steps ++ [MSend 0]).
Definition serve (path body : string) (steps : nat) : list event * net :=
  default ([], net_new) (@net_exec constant_skd quiet_context nothing (serve_moves path body steps) net_new).
Lemma serve_exchange n path body steps segs :
  bool_decide (is_Some (@net_exec constant_skd quiet_context nothing (serve_moves path body steps) net_new)) = true →
  request_written 8080 path body = Ok ([wire_of path body], false) →
  transmit some_host n [] = inr (map Got segs) → Forall (λ b, b ≠ EmptyString) segs → segs ≠ [] →
  c_sent (n_conns (serve path body steps).2 0) = wire_of path body →
  str_concat segs = str_concat (sent_to 0 (Endpoints.wire (n_proc (serve path body steps).2).1)) →
  @exchanged_with_server constant_skd quiet_context nothing some_host n "8080" path body.
Proof.
  intros [[tr nt] E]%bool_decide_eq_true Hw Ht Hne Hnil Hs Heq.
  exists 8080, (wire_of path body), segs, (serve path body steps).1, (serve path body steps).2, 0%nat.
  split_and!; try done. unfold serve. rewrite E.
  exact (net_exec_traced _ _ _ [] _ tr nt (NetStart _ _) E).
Qed.
Lemma suite_passes_here_witness :
  ∃ w, run (main some_host) {| printed := []; exchanges_begun := 0 |} = (Finished 0, w).
Proof.
  apply (@suite_passes_here constant_skd quiet_context nothing some_host "127.0.0.1" 8080 some_example some_body).
  - split; first [discriminate|reflexivity|vm_compute; reflexivity].
  - vm_compute. discriminate.
  - apply (serve_exchange 0 _ _ 4 [some_answer EmptyString]); try (vm_compute; reflexivity);
      [repeat constructor; vm_compute; discriminate|discriminate].
  - apply (serve_exchange 1 _ _ 51 [str_take 20 (some_answer "{}"); str_drop 20 (some_answer "{}")]);
      try (vm_compute; reflexivity);
      [repeat constructor; vm_compute; discriminate|discriminate].
  - apply (serve_exchange 2 _ _ 5 [some_answer EmptyString]); try (vm_compute; reflexivity);
      [repeat constructor; vm_compute; discriminate|discriminate].
  - intros tr resp. split; vm_compute; [reflexivity|discriminate].
Defined.
