(* ===== verification/Driver.v ===== *)
(** * The completer's test driver: src/Driver.cpp *)

From S2P Require Import Prelude Logging Futures SourceKitD Offset SourceKit Requests Completer.

Local Open Scope Z_scope.

(** Conversion of an [unsigned] to an [int]. *)
Definition s32 (z : Z) : Z := (z + 2 ^ 31) mod 2 ^ 32 - 2 ^ 31.

(** The text completed, line by line. *)
Definition driver_lines : list string :=
  ["// "; "//  some_swift.swift "; "//  Swift Completer "; "// ";
   "//  Created by Jerry Marino on 4/30/16. ";
   "//  Copyright © 2016 Jerry Marino. All rights reserved. "; "// "; " "; " ";
   "    func someOtherFunc(){ "; "    } "; " "; "    func anotherFunction(){ ";
   "    someOther()"; "    } "; EmptyString].
Definition driver_contents : string := str_concat (map (λ l, l +:+ NL) driver_lines).

Definition driver_flags : list string :=
  ["-sdk"; "/Applications/Xcode.app/Contents/Developer/Platforms/" +:+
    "MacOSX.platform/Developer/SDKs/MacOSX.sdk"; "-target"; "x86_64-apple-macosx10.12"].

Section Driver.
Context `{SourceKitD}.

(** [Runner::complete] *)
Definition complete (fileName fileContents : string) (flags : list string)
    (line column : Z) : thread World string :=
  CandidatesForLocationInFile (SwiftCompleter_new LogLevelExtreme) fileName (s32 line)
    (s32 column) [{| contents := fileContents; fileName := fileName |}] flags.

Definition driver_logger : Logger := make_Logger LogLevelInfo "SS".

(** Up to its [exit(0)]; the line written first has its newlines in it. *)
Definition wrapped_main : thread World unit :=
  _ ← zoom (write_line Cout driver_contents);
  result ← complete "/tmp/x" driver_contents driver_flags 19 13;
  _ ← say driver_logger LogLevelInfo result;
  say driver_logger LogLevelInfo "Done".

(** [main] up to [dispatch_main], which runs the block it has submitted. *)
Definition main : thread World (thread World unit) :=
  _ ← say driver_logger LogLevelInfo "Running Test Driver";
  mret wrapped_main.
End Driver.

(** ** What it asks for *)

(** The driver asks for line 19 of a text of sixteen lines, so it completes
    at offset 0, with all of the text; it prints that it runs, the text, the reply and
    "Done", and ends. *)
Theorem driver_completes `{FreshHandles} (w : World) (l0 : ledger) :
  ledger_of (calls_of w) = Some l0 →
  finishes (main ≫= id) w (λ _ w', ∃ reply w1,
    candidates_answered (SwiftCompleter_new LogLevelExtreme) "/tmp/x" driver_flags 0
      driver_contents (set_console (console_of w ++
        [(Cout, "__SS: Running Test Driver"); (Cout, driver_contents)]) w) l0 reply w1 ∧
    w' = set_console (console_of w1 ++ [(Cout, "__SS: " +:+ reply); (Cout, "__SS: Done")]) w1).
Proof.
  intros E. unfold main, wrapped_main.
  set (w0 := set_console (console_of w ++
    [(Cout, "__SS: Running Test Driver"); (Cout, driver_contents)]) w).
  destruct (candidates_spec (SwiftCompleter_new LogLevelExtreme) "/tmp/x" 19 13
    [{| contents := driver_contents; fileName := "/tmp/x" |}] driver_flags w0 l0 0
    driver_contents E) as (reply & w1 & Er & Hq); [vm_compute; reflexivity|].
  exists tt. eexists. split; [|exists reply, w1; split; [exact Hq|reflexivity]].
  rewrite run_bind, run_bind. unfold say at 1. rewrite run_zoom, run_log.
  cbn [id run mret thread_ret fst snd].
  rewrite run_bind, run_zoom. cbn -[say driver_contents complete]. rewrite <- app_assoc.
  cbn [app]. rewrite run_bind. unfold complete. change (s32 19) with 19. change (s32 13) with 13.
  change (set_console _ (set_console _ w)) with w0. rewrite Er, run_bind. unfold say. rewrite run_zoom, run_log, run_zoom, run_log.
  cbn. by rewrite <- app_assoc.
Qed.

Lemma driver_completes_witness :
  finishes (main ≫= id) world_new (λ _ w', ∃ reply w1,
    candidates_answered (SwiftCompleter_new LogLevelExtreme) "/tmp/x" driver_flags 0
      driver_contents (set_console
        [(Cout, "__SS: Running Test Driver"); (Cout, driver_contents)] world_new) ledger_new reply w1 ∧
    w' = set_console (console_of w1 ++ [(Cout, "__SS: " +:+ reply); (Cout, "__SS: Done")]) w1).
Proof. exact (driver_completes world_new ledger_new eq_refl). Defined.
